(* ===== verification/_CoqProject ===== *)
-Q . S2P
Prelude.v
RespValue.v
RespParser.v
RespReader.v
RespGrammar.v
RespParserSpec.v
RespReserve.v
RespSerializer.v
LruShard.v
LruSpec.v
LruInv.v
LruRefine.v
LruTheorems.v
Command.v
Glob.v
StdText.v
ShardPool.v
CommandExecutor.v
ExecutorSpec.v
PoolSpec.v
ExecutorRefine.v
ExecutorTheorems.v
ExecutorErrors.v
ExpirationController.v
Config.v
Server.v
Session.v
PoolService.v
SessionTheorems.v
EndToEnd.v
Calls.v
CallBound.v
Connection.v
System.v
SystemTheorems.v
Progress.v
Node.v
NodeInv.v
NodeStep.v
NodeRun.v
NodeTheorems.v
NodeLiveness.v
NodeReclaim.v
Alone.v
UnitTests.v
