(* ===== verification/Prelude.v ===== *)
(** * TinyCache: a verification development

    TinyCache is a Redis-like cache server in C++20.  This development models
    its own code - everything under [src/] and [include/] that is not logging,
    sockets or build glue - as executable Rocq definitions, and proves what
    the parts guarantee and what the assembled server does.

    ** The program and its parts

    A connection is a [Session] that lives on the thread of one shard, its home.
    It parses requests from a bounded buffer, turns them into commands, has
    the executor run them, and writes the replies.  The store is split into
    shards; a key belongs to the shard its hash selects.  Each shard has a
    worker thread that runs the sessions at home there, the calls that other
    sessions make on the shard, and a loop that purges expired keys.

    - [RespValue] ([include/respValue.hpp], [include/utils.hpp]): tagged values,
      [std::get] as an access that can fault, ASCII case mapping.
    - [RespParser] ([src/respParser.cpp]): [parseImpl] with its indices, its stack
      of array frames and its limits; [parse] and the buffer it consumes.
      [RespReader] reads one item of a suffix without indices and shows that an
      iteration of the loop computes it; [RespGrammar] is the grammar of the
      protocol, with soundness and completeness; [RespParserSpec] the theorems;
      [RespReserve] what the parser reserves and stores during a call.
    - [RespSerializer] ([src/respSerializer.cpp]): the size estimate, the iterative
      serializer with its explicit stack, [std::to_chars]; [encode] is the
      recursive reference.
    - [LruShard] ([src/lruShard.cpp]): the list, the index and the multimap of a
      shard with the iterators and the string views they hold into each other.
      [LruSpec] is the
      abstract cache (entries, most recently used first, and a budget);
      [LruInv] the representation invariant; [LruRefine] the refinement of each
      operation; [LruTheorems] the theorems.
    - [Command] ([src/command.cpp]): command types, argument counts, [toCommand].
    - [Glob] and [StdText]: [glob_match] of [src/commandExecutor.cpp], and
      [std::stoull] and [std::to_string] as it uses them.
    - [ShardPool] ([src/shardPool.cpp], [include/shardRouter.hpp]): routing, workers,
      life cycle, [local_shard] and [run_on_shard]; the type [Task] of coroutines
      that call shards.
    - [CommandExecutor] ([src/commandExecutor.cpp]): a function per command, the
      coroutines [execute_single_shard] and [execute_multi_shard], and the choice
      between them that the constructor makes.
      [ExecutorSpec] says what a command means on one abstract cache, [PoolSpec]
      on the list of them; [ExecutorRefine] is the refinement, [ExecutorTheorems]
      the theorems, [ExecutorErrors] those about refused commands.
    - [ExpirationController] ([src/expirationController.cpp]): a turn of the cleaning
      loop, and the handler that runs turns until the next wait.  [Config]
      ([src/config.cpp]) and [Server] ([src/server.cpp]): keys, defaults, clamping and
      widths of the configuration; the constructor with the operations on its
      acceptor and their exceptions, round robin of the listener, shutdown.
    - [Session] ([src/session.cpp]): the parse-execute-write loop and the bounded
      read, over the interface [Service] of what executes commands;
      [PoolService] shows that the executor on the pool is such a service;
      [SessionTheorems] the theorems.  [EndToEnd] puts a session
      and the pool together: from the bytes of a client to those of the server.
    - [Calls] and [CallBound]: what a running coroutine has still to do - [meets]: on
      each shard the effect of its command, and the right reply; [calls_within]:
      at most so many calls - stated once for a coroutine at any of its
      suspensions and shown for [execute].
    - [System] and [SystemTheorems]: the listener, the calls of commands and the
      purges interleaved, as a step relation; [Progress] shows that a command
      can always go on.
    - [Connection] ([src/session.cpp] again): the session as the state machine that
      its coroutine is, cut where it suspends, with read errors and writes that
      fail half way.  [Alone] shows that its turns make the run of [Session].
    - [Node] ([src/main.cpp], [Server::run], [ShardPool::start], [stop] and the threads):
      the whole program as a transition system over [System] and [Connection] -
      the main thread step by step, the threads of the workers, accepts, turns,
      calls, replies, reads, writes, the cleaning loops with their waits, the
      signal.  [start_program] is [main] up to [Server::run], exceptions
      included.  [NodeInv] and [NodeStep] have its invariant, for a connection and
      for the program; [NodeRun] runs it, and has a run in which a [DEL] across
      shards is seen half done; [NodeTheorems] has the theorems, [NodeLiveness]
      and [NodeReclaim] those about infinite runs under weak fairness.
    - [UnitTests]: the repository's unit tests ([tests/]) replayed on the definitions.

    ** How the code is modelled

    A C++ computation is a value of [res]: a result, or the [fault] by which the
    code would leave the domain where C++ defines it - dead iterator, index
    out of bounds, dead string view, signed overflow, wrong variant
    alternative, failed [assert].  The faults are not ignored: the theorems show
    that none occurs but one, the signed overflow of a deadline, which a client can
    ask for ([SET EX] and [EXPIRE] with a large count).  It is part of the abstract
    specifications - [spec_op], [meaning], [spec_execute], [spec_serve] are values
    of [res] too -, and the refinements show that the code has it exactly when they
    do.
    A function with state takes the state and returns the new one.  Machine
    integers are [Z], reduced by [u64], [i64], [i32] or [u16] where the code
    converts and checked by [add_i64] and its siblings where overflow would be
    undefined.  A node container ([std::list], [std::multimap]) is the list of
    its nodes in iteration order, each with the iterator that designates it,
    so that aliases between containers stay explicit; [std::unordered_map] is a
    [gmap].  Bytes are [ascii].  The clock is an argument: one reading per
    [steady_clock::now()] the code makes.  Early returns are the branches of
    the definitions.

    ** Loops

    A loop whose recursion is not structural carries fuel, and the fault
    [OutOfFuel] when it is used up; its callers choose enough, and the theorems
    about them produce a result, which no run out of fuel satisfies:
    [parse_loop] has two more than the bytes of the buffer, each iteration
    reading one; [findCrlf_loop] and [token_digits] one more than the distance
    left; [serialize_loop] and [estimate_loop] one more than the nodes of the
    value; [enforce_loop] and [remove_expired_loop] one more than the entries
    that can be removed; [glob_loop] the measure of the pair (text left to the
    last star, pattern left); [drain] one more than the bytes buffered;
    [Session.run] one more than the bytes and reads to come; [cleaning_handler] one
    more than the entries of the shard.  [alone] is shown to end with some fuel.
    The listener and the cleaning loop never end in the code; they are modelled
    by their turns.

    ** What the theorems show

    - Parser: [parseImpl] accepts exactly the encodings of the grammar,
      whatever follows them; it terminates without reading outside the
      buffer; a verdict does not change when more bytes arrive, and a proper
      prefix of a message always waits; the grammar is a prefix code; values
      are well formed and within the limits; what [parse] consumes; how much it
      reserves for elements that have not arrived.
    - Serializer: the iterative code is the recursive encoding, the estimate
      its exact length, and the parser reads back what was written.
    - Shard: every run of operations agrees with the abstract cache; the containers
      agree with each other and keep no dead iterator; the memory bound and the
      exactness of the counters; eviction of the least recently used, no more
      than needed; read your writes; the purge; keys not concerned are
      untouched; the arithmetic of deadlines and [TTL].
    - Commands: [toCommand] is total on what the parser delivers and accepts
      exactly the commands; [glob_match] decides its declarative meaning.
    - Executor: it refines the meaning of commands on the sharded store from any
      thread and home shard, with the same reply and effect everywhere; [DEL]
      across shards, [SET] with its options, [INFO], [CONFIG], read your writes
      across sessions, well-formed replies; errors depend on the words of a
      command alone and change nothing.
    - Session: a function of the byte stream and not of its cut into reads, with a
      bounded buffer; one reply per request, in order; no bytes make it loop, nor
      fault but by that overflow; together with the pool it is the function that the grammar, the
      abstract caches and the encoding define.
    - Server: round robin within the pool, sane configuration; the cleaning
      loop purges exactly what has lapsed, does not spin and always comes to
      rest in a wait for the earliest deadline.
    - Program: from [main] on, with any configuration file, in every interleaving
      and whatever clients and network do - no fault but that overflow; no shard touched by two
      threads, nor before its thread starts or after it is stopped; the memory
      bound, each key in one shard; the effects of all calls and purges form one
      history that explains what the shards hold and every reply, a command of
      one key taking effect at one moment; on each connection the replies to its
      requests, in order; no connection and no cleaning loop is stuck while the
      workers run; in an infinite run that is fair to a connection, every
      request it receives is answered, unless its deadline can only overflow,
      and in one that is fair to a cleaning loop lapsed keys are purged for ever
      on; shutdown ends in a bounded number of steps, and then nothing runs.
    - [received], [exchanges] and the other fields of the trail, and the log of
      effects, are recorded for these theorems; no step depends on them.

    The hypotheses are on the environment alone: payloads that fit
    [std::size_t] beside the budget, and two clock readings of one operation in
    order ([op_defined], [command_defined], [clock_defined]).  From the session
    up the first follows from the limit of a message and, in [Node], from the
    clamping of the configuration.  Nothing is asked of what a client sends.

    ** What is not modelled

    Logging; sockets and the inside of [io_context] - a read delivers some of the
    bytes or an error, a write takes some of the message or all of it, and a
    worker runs one handler at a time, in any order, until its context is
    stopped -; the timer, but for the promise that a wait does not end early;
    the TOML parser (its results are the arguments of [get_config]), address
    parsing and the acceptor (whether they succeed are arguments of
    [server_constructor]); the hash XXH3 (any function of the key); the
    capacities of containers - [preallocated_map_capacity], which the constructors
    of a shard and of the pool pass on to the index, the stack of the parser,
    the buffers of texts -, but for the elements that the parser reserves, and
    allocation failure; the build files, the benchmarks and the drivers of the
    tests. In [Node] a turn of a cleaning loop is two steps, between which other
    handlers of its thread may run even when the code does not wait: that allows
    more than the code, and [cleaning_handler] has the turns without a wait in
    one piece. *)

From Stdlib Require Export ZArith Lia.
From Stdlib Require Ascii String.
Export Ascii (ascii(..)).
Export (notations) Ascii.
From stdpp Require Export base tactics option list gmap strings numbers sorting.

#[global] Open Scope Z_scope.

(** ** Bytes and literals *)

Abbreviation bytes := (list ascii).

Definition lit (s : string) : bytes := String.list_ascii_of_string s.

Declare Scope bytes_scope.
Delimit Scope bytes_scope with bytes.
Notation "'#' s" := (lit s%string) (at level 1, s at level 0, format "# s") : bytes_scope.
#[global] Open Scope bytes_scope.

Definition CR : ascii := "013"%char.
Definition LF : ascii := "010"%char.
Definition crlf : bytes := [CR; LF].

(** [std::string::size] and friends, as an integer. *)
Definition zlen {A} (l : list A) : Z := Z.of_nat (length l).

(** ** Outcomes of a C++ computation

    A computation either produces a value or leaves the domain the C++ code
    is defined on; the fault says how. *)

Inductive fault :=
  | InvalidIterator    (** dereference or erase of a dead or end iterator *)
  | DanglingView       (** use of a [std::string_view] whose string is gone *)
  | OutOfBounds        (** index outside a container *)
  | SignedOverflow     (** signed integer overflow *)
  | BadVariantAccess   (** [std::get] of the wrong alternative *)
  | AssertFailure      (** a failed [assert] *)
  | OutOfFuel.         (** the model's loop bound was too small *)

Inductive res (A : Type) :=
  | Ok (a : A)
  | Fault (f : fault).
Arguments Ok {A} a.
Arguments Fault {A} f.

#[global] Instance res_ret : MRet res := @Ok.
#[global] Instance res_bind : MBind res := fun A B k m =>
  match m with Ok a => k a | Fault f => Fault f end.

#[global] Instance fault_eq_dec : EqDecision fault.
Proof. solve_decision. Defined.
#[global] Instance res_eq_dec {A} `{EqDecision A} : EqDecision (res A).
Proof. solve_decision. Defined.

Definition of_option {A} (f : fault) (o : option A) : res A :=
  match o with Some a => Ok a | None => Fault f end.

Definition check (f : fault) (b : bool) : res unit :=
  if b then Ok tt else Fault f.

(** ** Machine integers *)

Definition two64 : Z := 18446744073709551616.
Definition i64_max : Z := 9223372036854775807.
Definition i64_min : Z := -9223372036854775808.

(** Conversion to [std::uint64_t] / [std::size_t]. *)
Definition u64 (x : Z) : Z := x mod two64.

(** Conversion to [std::int64_t]; modular since C++20. *)
Definition i64 (x : Z) : Z := (x - i64_min) mod two64 + i64_min.

Definition in_i64 (x : Z) : bool := (i64_min <=? x) && (x <=? i64_max).

(** Signed 64-bit arithmetic: overflow is undefined behaviour. *)
Definition checked (x : Z) : res Z :=
  if in_i64 x then Ok x else Fault SignedOverflow.
Definition add_i64 (x y : Z) : res Z := checked (x + y).
Definition sub_i64 (x y : Z) : res Z := checked (x - y).
Definition mul_i64 (x y : Z) : res Z := checked (x * y).

(** ** Shared lemmas *)

Section Bind.
Context {A B : Type}.

Lemma bind_Ok (m : res A) (k : A -> res B) b :
    m ≫= k = Ok b <-> exists a, m = Ok a /\ k a = Ok b.
Proof. destruct m; cbn; naive_solver. Qed.

Lemma of_option_Ok (o : option A) f a : of_option f o = Ok a <-> o = Some a.
Proof. destruct o; cbn; naive_solver. Qed.
End Bind.

Lemma u64_small x : 0 <= x < two64 -> u64 x = x.
Proof. apply Z.mod_small. Qed.

Lemma u64_bound x : 0 <= u64 x < two64.
Proof. apply Z.mod_pos_bound. reflexivity. Qed.

Lemma u64_add_l x y : u64 (u64 x + y) = u64 (x + y).
Proof. unfold u64. apply Zplus_mod_idemp_l. Qed.

Lemma i64_small x : i64_min <= x <= i64_max -> i64 x = x.
Proof. intros H. unfold i64. rewrite Z.mod_small; unfold i64_min, i64_max, two64 in *; lia. Qed.

Lemma i64_bound x : i64_min <= i64 x <= i64_max.
Proof.
  unfold i64. pose proof (Z.mod_pos_bound (x - i64_min) two64).
  unfold i64_min, i64_max, two64 in *. lia.
Qed.

Lemma checked_Ok x : i64_min <= x <= i64_max -> checked x = Ok x.
Proof.
  intros [H1 H2]. unfold checked, in_i64.
  apply Z.leb_le in H1 as ->. apply Z.leb_le in H2 as ->. done.
Qed.

Lemma checked_inv x y : checked x = Ok y -> y = x /\ i64_min <= x <= i64_max.
Proof.
  unfold checked, in_i64. destruct (_ && _) eqn:E; [|done].
  intros [= <-]. apply andb_true_iff in E as [?%Z.leb_le ?%Z.leb_le]. done.
Qed.

Section Lengths.
Context {A : Type}.
  Implicit Types l k : list A.

Lemma zlen_nil : zlen (@nil A) = 0.
Proof. done. Qed.
Lemma zlen_cons x l : zlen (x :: l) = zlen l + 1.
Proof. unfold zlen. cbn. lia. Qed.
Lemma zlen_app l k : zlen (l ++ k) = zlen l + zlen k.
Proof. unfold zlen. rewrite length_app. lia. Qed.
Lemma zlen_nonneg l : 0 <= zlen l.
Proof. unfold zlen. lia. Qed.
End Lengths.

Lemma filter_ext_in {A} (P Q : A -> Prop) `{!forall x, Decision (P x), !forall x, Decision (Q x)}
    (l : list A) :
  (forall x, x ∈ l -> P x <-> Q x) -> filter P l = filter Q l.
Proof.
  induction l as [|x l IH]; intros Hl; [done|]. rewrite !filter_cons.
  pose proof (Hl x (list_elem_of_here _ _)) as Hx.
  rewrite IH by (intros y Hy; apply Hl; by right).
  destruct (decide (P x)), (decide (Q x)); tauto.
Qed.

(** ** Association lists

    A C++ node container ([std::list], [std::multimap]) is the list of its
    nodes in iteration order, each tagged with the iterator that designates
    it; iterators stay valid while other nodes come and go. *)

Section Assoc.
Context {K V : Type} `{!EqDecision K}.
  Implicit Types (k : K) (v : V) (l : list (K * V)).

Fixpoint assoc k l : option V :=
    match l with
    | [] => None
    | (k', v) :: l => if decide (k' = k) then Some v else assoc k l
    end.

Definition assoc_erase k l : list (K * V) := filter (fun p => p.1 <> k) l.

Definition assoc_update k (f : V -> V) l : list (K * V) :=
    (fun p => if decide (p.1 = k) then (p.1, f p.2) else p) <$> l.

Lemma assoc_None k l : assoc k l = None <-> k ∉ l.*1.
Proof.
    induction l as [|[k' v'] l IH]; cbn; [split; [by intros _ ?%elem_of_nil|done]|].
    rewrite not_elem_of_cons. case_decide; naive_solver.
Qed.

Lemma elem_assoc k v l : NoDup l.*1 -> (k, v) ∈ l -> assoc k l = Some v.
Proof.
    induction l as [|[k' v'] l IH]; cbn; [by intros _ ?%elem_of_nil|].
    intros [Hn Hd]%NoDup_cons [?|Hin]%elem_of_cons; simplify_eq.
    - by rewrite decide_True.
    - rewrite decide_False; [auto|]. intros ->. apply Hn.
      apply list_elem_of_fmap. by exists (k, v).
Qed.

Lemma assoc_erase_notin k l : assoc k l = None -> assoc_erase k l = l.
Proof.
    unfold assoc_erase. induction l as [|[k1 v1] l IH]; [done|].
    rewrite filter_cons. cbn. intros H.
    destruct (decide (k1 = k)), (decide (k1 <> k)); try tauto; [done|].
    by rewrite IH.
Qed.

Lemma assoc_erase_NoDup k l : NoDup l.*1 -> NoDup (assoc_erase k l).*1.
Proof.
    unfold assoc_erase. induction l as [|[k1 v1] l IH]; [done|].
    intros [Hn Hd]%NoDup_cons. rewrite filter_cons. case_decide; cbn; [|auto].
    apply NoDup_cons. split; [|auto]. rewrite list_elem_of_fmap.
    intros (p & -> & [_ ?]%list_elem_of_filter). apply Hn.
    apply list_elem_of_fmap. by exists p.
Qed.

Lemma assoc_update_keys k f l : (assoc_update k f l).*1 = l.*1.
Proof.
    unfold assoc_update. induction l as [|[k1 v1] l IH]; [done|].
    cbn. case_decide; cbn; by rewrite IH.
Qed.

Lemma assoc_update_lookup k k' f l :
    assoc k' (assoc_update k f l)
    = if decide (k' = k) then f <$> assoc k' l else assoc k' l.
Proof.
    unfold assoc_update. induction l as [|[k1 v1] l IH]; cbn; [by case_decide|].
    destruct (decide (k1 = k)); cbn; destruct (decide (k1 = k')), (decide (k' = k));
      cbn; simplify_eq; done.
Qed.

Lemma assoc_update_cons k f v l :
    assoc_update k f ((k, v) :: l) = (k, f v) :: assoc_update k f l.
Proof. unfold assoc_update. cbn. by rewrite decide_True. Qed.

Lemma assoc_update_notin k f l : assoc k l = None -> assoc_update k f l = l.
Proof.
    unfold assoc_update. induction l as [|[k1 v1] l IH]; [done|].
    cbn. intros H. destruct (decide (k1 = k)); [done|]. by rewrite IH.
Qed.
End Assoc.
Arguments assoc_erase : simpl never.
Arguments assoc_update : simpl never.

Create HintDb tiny discriminated.
#[export] Hint Resolve zlen_nonneg u64_bound i64_bound : tiny.
#[export] Hint Rewrite @zlen_nil @zlen_cons @zlen_app : zlen.

(** Case analysis on a successful computation: turns [m = Ok b], with [m] a
    chain of binds, into the values of its steps. *)
Ltac res_inv :=
  repeat match goal with
  | H : mbind _ _ = Ok _ |- _ =>
      let a := fresh "r" in let E := fresh "E" in
      apply bind_Ok in H as (a & E & H)
  | H : of_option _ _ = Ok _ |- _ => apply of_option_Ok in H
  | H : mret _ = Ok _ |- _ => unfold mret, res_ret in H
  | H : Ok _ = Ok _ |- _ => injection H as H
  | H : Fault _ = Ok _ |- _ => discriminate H
  | H : context [match ?p with (_, _) => _ end] |- _ => is_var p; destruct p
  end; simplify_eq/=.

(** Decides the integer comparisons of the goal that linear arithmetic settles. *)
Ltac zcmp :=
  repeat match goal with
  | |- context [?a <? ?b] =>
      first [rewrite (proj2 (Z.ltb_lt a b)) by lia | rewrite (proj2 (Z.ltb_ge a b)) by lia]
  | |- context [?a <=? ?b] =>
      first [rewrite (proj2 (Z.leb_le a b)) by lia | rewrite (proj2 (Z.leb_gt a b)) by lia]
  | |- context [?a =? ?b] =>
      first [rewrite (proj2 (Z.eqb_eq a b)) by lia | rewrite (proj2 (Z.eqb_neq a b)) by lia]
  end; cbn [orb andb negb].

Lemma zlen_crlf : zlen crlf = 2.
Proof. reflexivity. Qed.
