(* ===== verification/RespValue.v ===== *)
(** * RESP values and text utilities

    [include/respValue.hpp]: the tagged value [RespValue] (a type tag beside a
    [std::variant] payload, which nothing forces to agree), its constructors,
    [std::get], the well-formedness that makes [std::get] safe, and an
    induction principle through arrays.  [include/utils.hpp]: ASCII case
    mapping in the default "C" locale. *)

From S2P Require Import Prelude.

(** ** [RespValue] *)

Inductive RespType :=
  | kUnknown | kSimpleString | kError | kInteger | kBulkString
  | kNullBulkString | kArray | kNullArray.

#[export] Instance RespType_eq_dec : EqDecision RespType.
Proof. solve_decision. Defined.

(** [std::variant<std::string, std::int64_t, RespArray>]. *)
Inductive variant (A : Type) :=
  | VString (s : bytes)
  | VInteger (z : Z)
  | VArray (l : list A).
Arguments VString {A} s.
Arguments VInteger {A} z.
Arguments VArray {A} l.

Inductive RespValue := mkRespValue { type : RespType; data : variant RespValue }.

(** [RespValue value;]: the members' default initialisers. *)
Definition defaultRespValue : RespValue := mkRespValue kUnknown (VString []).

(** The converting constructors of lines 33-37. *)
Definition RespString (t : RespType) (s : bytes) : RespValue := mkRespValue t (VString s).
Definition RespInt (t : RespType) (z : Z) : RespValue := mkRespValue t (VInteger z).
Definition RespArr (t : RespType) (l : list RespValue) : RespValue := mkRespValue t (VArray l).

(** [std::get<T>(v)]. *)
Definition get_string (d : variant RespValue) : res bytes :=
  match d with VString s => Ok s | _ => Fault BadVariantAccess end.
Definition get_int64 (d : variant RespValue) : res Z :=
  match d with VInteger z => Ok z | _ => Fault BadVariantAccess end.
Definition get_array (d : variant RespValue) : res (list RespValue) :=
  match d with VArray l => Ok l | _ => Fault BadVariantAccess end.

(** ** Induction through arrays *)

Section RespValueInd.
Variable P : RespValue -> Prop.
  Hypothesis Hstr : forall t s, P (mkRespValue t (VString s)).
  Hypothesis Hint : forall t z, P (mkRespValue t (VInteger z)).
  Hypothesis Harr : forall t l, Forall P l -> P (mkRespValue t (VArray l)).

Fixpoint RespValue_rect' (v : RespValue) : P v :=
    match v with
    | mkRespValue t (VString s) => Hstr t s
    | mkRespValue t (VInteger z) => Hint t z
    | mkRespValue t (VArray l) =>
        Harr t l ((fix go l : Forall P l :=
          match l with
          | [] => Forall_nil_2 P
          | v :: l => Forall_cons_2 P v l (RespValue_rect' v) (go l)
          end) l)
    end.
End RespValueInd.

(** The number of nodes of a value. *)
Fixpoint nodes (v : RespValue) : nat :=
  match data v with
  | VArray l => S (sum_list (nodes <$> l))
  | _ => 1%nat
  end.

(** The depth of arrays of a value; an empty array opens no nesting level. *)
Fixpoint depth (v : RespValue) : nat :=
  match data v with
  | VArray [] => 0%nat
  | VArray l => S (max_list (depth <$> l))
  | _ => 0%nat
  end.

(** Tag and payload agree, so that every [std::get] the code does succeeds. *)
Fixpoint wf_value (v : RespValue) : bool :=
  match type v, data v with
  | (kSimpleString | kError | kBulkString), VString _ => true
  | kInteger, VInteger z => in_i64 z
  | kArray, VArray l => forallb wf_value l
  | (kNullBulkString | kNullArray), VString [] => true
  | _, _ => false
  end.

(** ** [to_uppercase], [to_lowercase] *)

Definition toupper (c : ascii) : ascii :=
  let n := Ascii.N_of_ascii c in
  if ((97 <=? n) && (n <=? 122))%N then Ascii.ascii_of_N (n - 32) else c.

Definition tolower (c : ascii) : ascii :=
  let n := Ascii.N_of_ascii c in
  if ((65 <=? n) && (n <=? 90))%N then Ascii.ascii_of_N (n + 32) else c.

Definition to_uppercase (s : bytes) : bytes := toupper <$> s.
Definition to_lowercase (s : bytes) : bytes := tolower <$> s.

Lemma wf_array_elements t l :
  wf_value (mkRespValue t (VArray l)) = true -> t = kArray /\ Forall (fun v => wf_value v = true) l.
Proof.
  destruct t; cbn; try done. intros H. split; [done|].
  apply List.forallb_forall in H || rewrite List.forallb_forall in H.
  apply Forall_forall. intros v Hv. apply H. by apply list_elem_of_In.
Qed.
