(* ===== verification/RespParser.v ===== *)
(** * The RESP parser: definitions

    [src/respParser.cpp], translated with its indices: [data] is the
    contents of the stream buffer, positions are [nat]s, and every read
    [*(begin + i)] is a checked access that faults outside the buffer.
    The explicit stack of array frames is a list whose head is
    [stack.back()]. *)

From S2P Require Import Prelude RespValue.

Inductive ParsingResult := kReady | kNeedMoreData | kParseError.

Definition kMaxBulkSize : Z := 16 * 1024 * 1024.
Definition kMaxArrayLength : Z := 1 * 1024 * 1024.
Definition kMaxNestingDepth : Z := 4096.

(** [elements] is a [std::vector]; [capacity] is [elements.capacity()]. *)
Record ArrayFrame := mkFrame { remaining : Z; elements : list RespValue; capacity : Z }.

(** [frame.elements.reserve(n)] *)
Definition reserve (n : Z) (frame : ArrayFrame) : ArrayFrame :=
  mkFrame (remaining frame) (elements frame) (Z.max (capacity frame) n).

(** [frame.elements.push_back(v)]; a vector that is full grows, here by the
    least it can. *)
Definition push_back (v : RespValue) (frame : ArrayFrame) : ArrayFrame :=
  mkFrame (remaining frame) (elements frame ++ [v]) (Z.max (capacity frame) (zlen (elements frame) + 1)).

Definition char_at (data : bytes) (i : nat) : res ascii :=
  of_option OutOfBounds (data !! i).

(** [std::string(begin + from, begin + to)]. *)
Definition substr (data : bytes) (from to : nat) : bytes :=
  take (to - from) (drop from data).

(** ** [findCrlf]; [None] is [std::numeric_limits<std::size_t>::max()] *)

Fixpoint findCrlf_loop (fuel : nat) (data : bytes) (size i : nat) : res (option nat) :=
  match fuel with
  | O => Fault OutOfFuel
  | S fuel =>
      if decide (i + 1 < size)%nat then
        a ← char_at data i;
        if decide (a = CR) then
          b ← char_at data (i + 1);
          if decide (b = LF) then Ok (Some i)
          else findCrlf_loop fuel data size (i + 1)
        else findCrlf_loop fuel data size (i + 1)
      else Ok None
  end.

Definition findCrlf (data : bytes) (size start : nat) : res (option nat) :=
  if decide (size <= start)%nat then Ok None
  else findCrlf_loop (S (size - start)) data size start.

(** ** [parseInt64Token]; [None] is the result [false] *)

Definition kInt64Max : Z := i64_max.
Definition kInt64MinAbs : Z := kInt64Max + 1.

Definition char_code (c : ascii) : Z := Z.of_N (Ascii.N_of_ascii c).
Definition is_digit (c : ascii) : bool := (48 <=? char_code c) && (char_code c <=? 57).

Fixpoint token_digits (fuel : nat) (data : bytes) (pos token_end : nat)
    (limit acc : Z) : res (option Z) :=
  match fuel with
  | O => Fault OutOfFuel
  | S fuel =>
      if decide (pos < token_end)%nat then
        c ← char_at data pos;
        if is_digit c then
          let digit := char_code c - 48 in
          if u64 (limit - digit) / 10 <? acc then Ok None
          else token_digits fuel data (pos + 1) token_end limit (u64 (acc * 10 + digit))
        else Ok None
      else Ok (Some acc)
  end.

(** [out], from line 261 on. *)
Definition token_value (negative : bool) (acc : Z) : Z :=
  if negative then if acc =? kInt64MinAbs then i64_min else - i64 acc else i64 acc.

Definition parseInt64Token (data : bytes) (token_start token_end : nat) : res (option Z) :=
  if decide (token_end <= token_start)%nat then Ok None
  else
    sign ← char_at data token_start;
    let signed := bool_decide (sign = "+"%char \/ sign = "-"%char) in
    let negative := bool_decide (sign = "-"%char) in
    let pos := if signed then (token_start + 1)%nat else token_start in
    if signed && bool_decide (token_end <= pos)%nat then Ok None
    else
      let limit := if negative then kInt64MinAbs else kInt64Max in
      acc ← token_digits (S (token_end - pos)) data pos token_end limit 0;
      mret (match acc with
            | None => None
            | Some acc => Some (token_value negative acc)
            end).

(** ** [attachValue]: the new stack, root value and root flag *)

Fixpoint attachValue (current : RespValue) (stack : list ArrayFrame) (root : RespValue)
    : list ArrayFrame * RespValue * bool :=
  match stack with
  | [] => ([], current, true)
  | frame :: rest =>
      let frame := push_back current frame in
      let remaining := u64 (remaining frame - 1) in
      if 0 <? remaining then (mkFrame remaining (elements frame) (capacity frame) :: rest, root, false)
      else attachValue (RespArr kArray (elements frame)) rest root
  end.

(** ** One iteration of [while (!root_ready)] *)

Record PState := mkPState {
  pos : nat; stack : list ArrayFrame; root_value : RespValue; root_ready : bool }.

Inductive iteration := Return (r : ParsingResult) | Next (s : PState).

Definition attach_at (v : RespValue) (pos : nat) (s : PState) : res iteration :=
  let '(stack, root, ready) := attachValue v (stack s) (root_value s) in
  mret (Next (mkPState pos stack root ready)).

Definition parse_line (data : bytes) (t : RespType) (pos : nat) (s : PState) : res iteration :=
  line_end ← findCrlf data (length data) pos;
  match line_end with
  | None => mret (Return kNeedMoreData)
  | Some line_end =>
      attach_at (RespString t (substr data pos line_end)) (line_end + 2) s
  end.

Definition parse_integer (data : bytes) (pos : nat) (s : PState) : res iteration :=
  line_end ← findCrlf data (length data) pos;
  match line_end with
  | None => mret (Return kNeedMoreData)
  | Some line_end =>
      number ← parseInt64Token data pos line_end;
      match number with
      | None => mret (Return kParseError)
      | Some number => attach_at (RespInt kInteger number) (line_end + 2) s
      end
  end.

(** Lines 122-150, from [pos] just after the length line. *)
Definition parse_bulk_body (data : bytes) (bulk_length : Z) (pos : nat) (s : PState)
    : res iteration :=
  if bulk_length =? -1 then attach_at (RespString kNullBulkString []) pos s
  else if (bulk_length <? 0) || (kMaxBulkSize <? u64 bulk_length)
  then mret (Return kParseError)
  else
    let data_len := u64 bulk_length in
    if Z.of_nat (length data - pos) <? u64 (data_len + 2)
    then mret (Return kNeedMoreData)
    else
      let stop := (pos + Z.to_nat data_len)%nat in
      c1 ← char_at data stop;
      if decide (c1 <> CR) then mret (Return kParseError) else
      c2 ← char_at data (stop + 1);
      if decide (c2 <> LF) then mret (Return kParseError) else
      attach_at (RespString kBulkString (substr data pos stop)) (stop + 2) s.

Definition parse_bulk (data : bytes) (pos : nat) (s : PState) : res iteration :=
  line_end ← findCrlf data (length data) pos;
  match line_end with
  | None => mret (Return kNeedMoreData)
  | Some line_end =>
      bulk_length ← parseInt64Token data pos line_end;
      match bulk_length with
      | None => mret (Return kParseError)
      | Some bulk_length => parse_bulk_body data bulk_length (line_end + 2) s
      end
  end.

(** Lines 166-194. *)
Definition parse_array_header (array_len : Z) (pos : nat) (s : PState) : res iteration :=
  if array_len =? -1 then attach_at (RespString kNullArray []) pos s
  else if (array_len <? 0) || (kMaxArrayLength <? u64 array_len)
  then mret (Return kParseError)
  else if array_len =? 0 then attach_at (RespArr kArray []) pos s
  else if kMaxNestingDepth <? zlen (stack s) + 1 then mret (Return kParseError)
  else
    let frame := mkFrame (u64 array_len) [] 0 in
    let frame := reserve (remaining frame) frame in
    mret (Next (mkPState pos (frame :: stack s) (root_value s) (root_ready s))).

Definition parse_array (data : bytes) (pos : nat) (s : PState) : res iteration :=
  line_end ← findCrlf data (length data) pos;
  match line_end with
  | None => mret (Return kNeedMoreData)
  | Some line_end =>
      array_len ← parseInt64Token data pos line_end;
      match array_len with
      | None => mret (Return kParseError)
      | Some array_len => parse_array_header array_len (line_end + 2) s
      end
  end.

Definition parse_iteration (data : bytes) (s : PState) : res iteration :=
  if decide (length data <= pos s)%nat then mret (Return kNeedMoreData)
  else
    type_byte ← char_at data (pos s);
    let pos := (pos s + 1)%nat in
    if decide (type_byte = "+"%char) then parse_line data kSimpleString pos s
    else if decide (type_byte = "-"%char) then parse_line data kError pos s
    else if decide (type_byte = ":"%char) then parse_integer data pos s
    else if decide (type_byte = "$"%char) then parse_bulk data pos s
    else if decide (type_byte = "*"%char) then parse_array data pos s
    else mret (Return kParseError).

(** [parseImpl]: the result, [consumed] and [outValue].  Each iteration
    advances [pos], so [size + 1] iterations are enough. *)
Fixpoint parse_loop (fuel : nat) (data : bytes) (s : PState)
    : res (ParsingResult * nat * option RespValue) :=
  match fuel with
  | O => Fault OutOfFuel
  | S fuel =>
      if root_ready s then mret (kReady, pos s, Some (root_value s))
      else
        i ← parse_iteration data s;
        match i with
        | Return r => mret (r, 0%nat, None)
        | Next s => parse_loop fuel data s
        end
  end.

Definition parseImpl (data : bytes) : res (ParsingResult * nat * option RespValue) :=
  if decide (length data = 0)%nat then mret (kNeedMoreData, 0%nat, None)
  else parse_loop (S (S (length data))) data (mkPState 0 [] defaultRespValue false).

(** [RespParser::parse(buffer, outValue)]: the result, the buffer after
    [consume] and [outValue]. *)
Definition parse (buffer : bytes) (outValue : RespValue)
    : res (ParsingResult * bytes * RespValue) :=
  '(result, consumed, tmp) ← parseImpl buffer;
  mret (match result, tmp with
        | kReady, Some tmp => (kReady, drop consumed buffer, tmp)
        | r, _ => (r, buffer, outValue)
        end).

Example parse_pair :
  parse (#"*2" ++ crlf ++ #"$3" ++ crlf ++ #"GET" ++ crlf ++ #":-7" ++ crlf ++ #"+x") defaultRespValue
  = Ok (kReady, #"+x",
        RespArr kArray [RespString kBulkString #"GET"; RespInt kInteger (-7)]).
Proof. vm_compute. reflexivity. Qed.
