(* ===== verification/RespReader.v ===== *)
(** * A suffix-based reading of the parser

    [read_item] says what one iteration of the parser's loop sees of the
    unread input: it is a function of the remaining bytes alone, without
    indices.  [parse_iteration_spec] shows that the index-based code of
    [RespParser] computes it, and in particular never reads outside the
    buffer.  The grammar and streaming theorems are proved on it. *)

From S2P Require Import Prelude RespValue RespParser.

(** ** Lines and integer tokens *)

Fixpoint split_crlf (s : bytes) : option (bytes * bytes) :=
  match s with
  | [] => None
  | c :: s' =>
      match s' with
      | [] => None
      | c' :: r =>
          if decide (c = CR /\ c' = LF) then Some ([], r)
          else match split_crlf s' with
               | None => None
               | Some (l, r) => Some (c :: l, r)
               end
      end
  end.

Definition decimal_from (acc : Z) (ds : bytes) : Z :=
  foldl (fun acc c => acc * 10 + (char_code c - 48)) acc ds.
Definition decimal : bytes -> Z := decimal_from 0.

(** Sign and digits of a token. *)
Definition token_sign (tok : bytes) : bool * bytes :=
  match tok with
  | [] => (false, [])
  | c :: ds =>
      if decide (c = "-"%char) then (true, ds)
      else if decide (c = "+"%char) then (false, ds) else (false, tok)
  end.

Definition signed_value (neg : bool) (v : Z) : Z := if neg then - v else v.

(** The value of an integer token: an optional sign, at least one digit,
    nothing else, and a value that fits in [std::int64_t]. *)
Definition int_token (tok : bytes) : option Z :=
  let '(neg, ds) := token_sign tok in
  if bool_decide (ds <> []) && forallb is_digit ds && in_i64 (signed_value neg (decimal ds))
  then Some (signed_value neg (decimal ds)) else None.

Lemma split_crlf_cons c c' r :
  split_crlf (c :: c' :: r)
  = if decide (c = CR /\ c' = LF) then Some ([], r)
    else (fun p => (c :: p.1, p.2)) <$> split_crlf (c' :: r).
Proof. cbn. case_decide; [done|]. by repeat case_match. Qed.

Lemma char_at_drop data i c r : drop i data = c :: r -> char_at data i = Ok c.
Proof.
  intros H. unfold char_at. rewrite <- (Nat.add_0_r i), <- lookup_drop, H. done.
Qed.

Lemma drop_next (data : bytes) i c r : drop i data = c :: r -> drop (i + 1) data = r.
Proof. intros H. by rewrite <- drop_drop, H. Qed.

Lemma drop_length_eq (data s : bytes) i :
  drop i data = s -> (i <= length data)%nat -> length data = (i + length s)%nat.
Proof. intros <- Hi. rewrite length_drop. lia. Qed.

Lemma substr_app data i l r : drop i data = l ++ r -> substr data i (i + length l) = l.
Proof.
  intros H. unfold substr. rewrite H, Nat.add_comm, Nat.add_sub. apply take_app_length.
Qed.

Lemma findCrlf_loop_spec fuel data i s :
  drop i data = s -> (i <= length data)%nat -> (length s < fuel)%nat ->
  findCrlf_loop fuel data (length data) i
  = Ok ((fun p => (i + length p.1)%nat) <$> split_crlf s).
Proof.
  revert i s. induction fuel as [|fuel IH]; intros i s Hs Hi Hf; [lia|].
  pose proof (drop_length_eq _ _ _ Hs Hi) as Hlen. cbn [findCrlf_loop].
  destruct s as [|c [|c' r]]; cbn in Hlen.
  1, 2: by rewrite decide_False by lia.
  rewrite decide_True by lia.
  rewrite (char_at_drop _ _ _ _ Hs).
  pose proof (drop_next _ _ _ _ Hs) as Hs'.
  rewrite (char_at_drop _ _ _ _ Hs'). cbn [mbind res_bind].
  rewrite (IH (i + 1)%nat _ Hs') by (cbn in *; lia). rewrite split_crlf_cons.
  destruct (decide (c = CR /\ c' = LF)) as [[-> ->]|Hc].
  { rewrite !decide_True by done. cbn. do 2 f_equal. lia. }
  transitivity (Ok ((fun p : bytes * bytes => (i + 1 + length p.1)%nat) <$> split_crlf (c' :: r)) : res (option nat)).
  { destruct (decide (c = CR)); [|done]. destruct (decide (c' = LF)); [tauto|done]. }
  destruct (split_crlf (c' :: r)) as [[l r']|]; cbn; [|done]. do 2 f_equal. lia.
Qed.

Lemma findCrlf_spec data i s :
  drop i data = s -> (i <= length data)%nat ->
  findCrlf data (length data) i = Ok ((fun p => (i + length p.1)%nat) <$> split_crlf s).
Proof.
  intros Hs Hi. unfold findCrlf. pose proof (drop_length_eq _ _ _ Hs Hi).
  case_decide.
  - by destruct s; [|cbn in *; lia].
  - apply findCrlf_loop_spec; auto; lia.
Qed.

Lemma split_crlf_Some s l r : split_crlf s = Some (l, r) -> s = l ++ crlf ++ r.
Proof.
  revert l. induction s as [|c [|c' s] IH]; intros l; [done..|].
  rewrite split_crlf_cons. case_decide as Hc; [destruct Hc as [-> ->]; by intros [= <- <-]|].
  intros ([l' r'] & E & [= -> ->])%fmap_Some. cbn. by rewrite (IH l').
Qed.

Lemma split_crlf_app s l r t : split_crlf s = Some (l, r) -> split_crlf (s ++ t) = Some (l, r ++ t).
Proof.
  revert l. induction s as [|c [|c' s] IH]; intros l; [done..|].
  cbn [app]. rewrite !split_crlf_cons. case_decide as Hc; [by intros [= <- <-]|].
  intros ([l' r'] & E & [= -> ->])%fmap_Some. cbn [app] in IH. by rewrite (IH l').
Qed.

Lemma digit_code c : is_digit c = true -> 48 <= char_code c <= 57.
Proof. unfold is_digit. intros [?%Z.leb_le ?%Z.leb_le]%andb_true_iff. done. Qed.

Lemma decimal_from_ge acc ds :
  0 <= acc -> forallb is_digit ds = true -> acc <= decimal_from acc ds.
Proof.
  revert acc. induction ds as [|c ds IH]; intros acc Ha; cbn; [lia|].
  intros [Hc%digit_code Hds]%andb_true_iff. specialize (IH (acc * 10 + (char_code c - 48))).
  unfold decimal_from in *. specialize (IH ltac:(lia) Hds). lia.
Qed.

Lemma token_digits_spec fuel data i ds rest limit acc :
  drop i data = ds ++ rest -> (length ds < fuel)%nat ->
  0 <= acc <= limit -> 9 <= limit < two64 ->
  token_digits fuel data i (i + length ds) limit acc
  = Ok (if forallb is_digit ds && (decimal_from acc ds <=? limit)
        then Some (decimal_from acc ds) else None).
Proof.
  revert i ds acc. induction fuel as [|fuel IH]; intros i ds acc Hs Hf Ha Hl; [lia|].
  cbn [token_digits]. destruct ds as [|c ds]; cbn in Hf |- *.
  { rewrite decide_False by lia. by rewrite (proj2 (Z.leb_le _ _)) by lia. }
  rewrite decide_True by lia. rewrite (char_at_drop _ _ _ _ Hs). cbn.
  destruct (is_digit c) eqn:Hc; [|done]. cbn.
  pose proof (digit_code _ Hc). rewrite u64_small by lia.
  replace (i + S (length ds))%nat with (i + 1 + length ds)%nat by lia.
  destruct (Z.ltb_spec ((limit - (char_code c - 48)) / 10) acc) as [Hlt|Hge].
  - destruct (forallb is_digit ds) eqn:Hds; [|done]. cbn.
    rewrite (proj2 (Z.leb_gt _ _)); [done|].
    pose proof (decimal_from_ge (acc * 10 + (char_code c - 48)) ds) as Hd.
    unfold decimal_from in *. specialize (Hd ltac:(lia) Hds).
    assert (limit - (char_code c - 48) < 10 * acc); [|lia].
    pose proof (Z.mul_succ_div_gt (limit - (char_code c - 48)) 10). lia.
  - assert (acc * 10 + (char_code c - 48) <= limit).
    { pose proof (Z.mul_div_le (limit - (char_code c - 48)) 10). lia. }
    rewrite u64_small by lia. apply IH; try lia. by apply (drop_next _ _ _ _ Hs).
Qed.

Lemma token_value_spec neg v :
  0 <= v <= (if neg : bool then kInt64MinAbs else kInt64Max) -> token_value neg v = signed_value neg v.
Proof.
  unfold token_value, signed_value, kInt64MinAbs, kInt64Max. destruct neg.
  - case_match eqn:E; [apply Z.eqb_eq in E as ->; done|]. apply Z.eqb_neq in E.
    intros H. rewrite i64_small; unfold i64_min, i64_max in *; lia.
  - intros H. rewrite i64_small; unfold i64_min, i64_max in *; lia.
Qed.

Lemma in_i64_signed neg v :
  0 <= v -> in_i64 (signed_value neg v) = (v <=? (if neg : bool then kInt64MinAbs else kInt64Max)).
Proof.
  intros Hv. unfold in_i64, signed_value, kInt64MinAbs, kInt64Max, i64_min, i64_max.
  apply eq_true_iff_eq. rewrite andb_true_iff, !Z.leb_le. destruct neg; lia.
Qed.

Lemma token_digits_value data i ds rest (neg : bool) :
  drop i data = ds ++ rest ->
  (acc ← token_digits (S (i + length ds - i)) data i (i + length ds)
           (if neg then kInt64MinAbs else kInt64Max) 0;
   mret (match acc with None => None | Some acc => Some (token_value neg acc) end))
  = Ok (if forallb is_digit ds && in_i64 (signed_value neg (decimal ds))
        then Some (signed_value neg (decimal ds)) else None).
Proof.
  intros Hs. rewrite (token_digits_spec _ _ _ _ rest); try done; try lia.
  2, 3: destruct neg; unfold kInt64MinAbs, kInt64Max, i64_max, two64; lia.
  destruct (forallb is_digit ds) eqn:Hd; [|done]. cbn [andb].
  pose proof (decimal_from_ge 0 ds ltac:(lia) Hd) as Hpos. fold (decimal ds) in *.
  rewrite in_i64_signed by done. destruct (Z.leb_spec (decimal ds) (if neg then kInt64MinAbs else kInt64Max)).
  - cbn. do 2 f_equal. apply token_value_spec. lia.
  - done.
Qed.

Lemma parseInt64Token_spec data i tok rest :
  drop i data = tok ++ rest -> parseInt64Token data i (i + length tok) = Ok (int_token tok).
Proof.
  intros Hs. unfold parseInt64Token, int_token.
  destruct tok as [|c ds]; [by rewrite decide_True by (cbn; lia)|].
  rewrite decide_False by (cbn; lia). cbn [app] in Hs. rewrite (char_at_drop _ _ _ _ Hs).
  pose proof (drop_next _ _ _ _ Hs) as Hs'. cbn [mbind res_bind token_sign].
  destruct (decide (c = "-"%char)) as [->|Hm]; [|destruct (decide (c = "+"%char)) as [->|Hp]].
  1, 2: rewrite bool_decide_true by auto; destruct ds as [|d ds];
    [by rewrite bool_decide_true by (cbn; lia)|];
    rewrite (bool_decide_false (_ <= _)%nat) by (cbn; lia); cbn [andb];
    replace (i + length (_ :: d :: ds))%nat with (i + 1 + length (d :: ds))%nat by (cbn; lia);
    by apply (token_digits_value _ _ _ rest _ Hs').
  rewrite (bool_decide_false (_ \/ _)) by tauto. rewrite (bool_decide_false (c = _)) by done.
  cbn [andb]. rewrite (bool_decide_true (_ <> [])) by done. cbn [andb].
  by apply (token_digits_value _ _ (c :: ds) rest false).
Qed.

Lemma int_token_range tok z : int_token tok = Some z -> i64_min <= z <= i64_max.
Proof.
  unfold int_token. destruct (token_sign tok) as [neg ds]. destruct (_ && _) eqn:E; [|done].
  intros [= <-]. apply andb_true_iff in E as [_ E]. unfold in_i64 in E.
  apply andb_true_iff in E as [?%Z.leb_le ?%Z.leb_le]. done.
Qed.

(** ** One item of input *)

Inductive item :=
  | IMore                             (** the item is not complete *)
  | IError                            (** no completion makes it an item *)
  | IValue (v : RespValue) (r : bytes)  (** a value other than a non-empty array *)
  | IOpen (n : Z) (r : bytes).          (** the header of an array of [n] elements *)

Definition read_line (k : bytes -> bytes -> item) (s : bytes) : item :=
  match split_crlf s with None => IMore | Some (l, r) => k l r end.

Definition read_count (k : Z -> bytes -> item) : bytes -> item :=
  read_line (fun l r => match int_token l with None => IError | Some n => k n r end).

Definition read_bulk_body (n : Z) (r : bytes) : item :=
  if n =? -1 then IValue (RespString kNullBulkString []) r
  else if (n <? 0) || (kMaxBulkSize <? n) then IError
  else if zlen r <? n + 2 then IMore
  else
    match drop (Z.to_nat n) r with
    | c1 :: c2 :: r' =>
        if decide (c1 = CR /\ c2 = LF) then IValue (RespString kBulkString (take (Z.to_nat n) r)) r'
        else IError
    | _ => IMore
    end.

Definition read_array_header (depth : Z) (n : Z) (r : bytes) : item :=
  if n =? -1 then IValue (RespString kNullArray []) r
  else if (n <? 0) || (kMaxArrayLength <? n) then IError
  else if n =? 0 then IValue (RespArr kArray []) r
  else if kMaxNestingDepth <? depth + 1 then IError
  else IOpen n r.

(** [depth] is the number of open arrays around the item. *)
Definition read_item (depth : Z) (s : bytes) : item :=
  match s with
  | [] => IMore
  | c :: s =>
      if decide (c = "+"%char) then read_line (fun l r => IValue (RespString kSimpleString l) r) s
      else if decide (c = "-"%char) then read_line (fun l r => IValue (RespString kError l) r) s
      else if decide (c = ":"%char) then read_count (fun n r => IValue (RespInt kInteger n) r) s
      else if decide (c = "$"%char) then read_count read_bulk_body s
      else if decide (c = "*"%char) then read_count (read_array_header depth) s
      else IError
  end.

(** What the loop does with an item. *)
Definition absorb (size : nat) (s : PState) (i : item) : iteration :=
  match i with
  | IMore => Return kNeedMoreData
  | IError => Return kParseError
  | IValue v r =>
      let '(stack, root, ready) := attachValue v (stack s) (root_value s) in
      Next (mkPState (size - length r) stack root ready)
  | IOpen n r => Next (mkPState (size - length r) (reserve n (mkFrame n [] 0) :: stack s)
                         (root_value s) (root_ready s))
  end.

Section Iteration.
Variable data : bytes.

  (** Reading a line at [i], then continuing as [k] does at the position
      after it. *)
Lemma read_line_spec i s (S0 : PState) (kf : nat -> res iteration) (ki : bytes -> bytes -> item) :
    drop i data = s -> (i <= length data)%nat ->
    (forall l r, drop i data = l ++ crlf ++ r ->
       drop (i + length l + 2) data = r -> (i + length l + 2 <= length data)%nat ->
       kf (i + length l)%nat = Ok (absorb (length data) S0 (ki l r))) ->
    (line_end ← findCrlf data (length data) i;
     match line_end with None => mret (Return kNeedMoreData) | Some e => kf e end)
    = Ok (absorb (length data) S0 (read_line ki s)).
Proof.
    intros Hs Hi Hk. rewrite (findCrlf_spec _ _ _ Hs Hi). unfold read_line.
    destruct (split_crlf s) as [[l r]|] eqn:E; [|done]. cbn.
    apply split_crlf_Some in E as ->. apply Hk; [done| |].
    - rewrite <- Nat.add_assoc, <- drop_drop, Hs, <- drop_drop, drop_app_length. done.
    - apply (f_equal length) in Hs. rewrite length_drop, !length_app in Hs. cbn in Hs. lia.
Qed.

Lemma attach_at_spec v i r S0 :
    drop i data = r -> (i <= length data)%nat ->
    attach_at v i S0 = Ok (absorb (length data) S0 (IValue v r)).
Proof.
    intros Hr Hi. unfold attach_at. cbn.
    destruct (attachValue _ _ _) as [[st root] ready].
    rewrite (drop_length_eq _ _ _ Hr Hi), Nat.add_sub. done.
Qed.

Lemma read_bulk_spec i n r S0 :
    drop i data = r -> (i <= length data)%nat -> i64_min <= n <= i64_max ->
    parse_bulk_body data n i S0
    = Ok (absorb (length data) S0 (read_bulk_body n r)).
Proof.
    intros Hr Hi Hn. unfold parse_bulk_body, read_bulk_body.
    destruct (n =? -1); [by apply attach_at_spec|].
    destruct (Z.ltb_spec n 0); [done|]. cbn [orb].
    rewrite (u64_small n) by (unfold i64_max, two64 in *; lia).
    destruct (Z.ltb_spec kMaxBulkSize n); [done|].
    rewrite u64_small by (unfold kMaxBulkSize, two64 in *; lia).
    pose proof (drop_length_eq _ _ _ Hr Hi) as Hlen.
    replace (length data - i)%nat with (length r) by lia. fold (zlen r). destruct (Z.ltb_spec (zlen r) (n + 2)); [done|].
    assert (Htl : drop (i + Z.to_nat n) data = drop (Z.to_nat n) r) by by rewrite <- drop_drop, Hr.
    assert (Hstop : (i + Z.to_nat n + 2 <= length data)%nat) by (unfold zlen in *; lia).
    destruct (drop (Z.to_nat n) r) as [|c1 [|c2 r']] eqn:Ed;
      try (apply (f_equal length) in Ed; rewrite length_drop in Ed; cbn in Ed;
           unfold zlen in *; lia).
    cbn zeta. rewrite (char_at_drop _ _ _ _ Htl). cbn [mbind res_bind].
    destruct (decide (c1 = CR)) as [->|]; [|by rewrite decide_True, decide_False by naive_solver].
    rewrite decide_False by naive_solver. pose proof (drop_next _ _ _ _ Htl) as Htl2.
    rewrite (char_at_drop _ _ _ _ Htl2). cbn [mbind res_bind].
    destruct (decide (c2 = LF)) as [->|]; [|by rewrite decide_True, decide_False by naive_solver].
    rewrite decide_False, (decide_True (P := CR = CR /\ _)) by naive_solver.
    rewrite (attach_at_spec _ _ r'); [|by rewrite <- drop_drop, Htl|done].
    unfold substr. rewrite Hr. by replace (i + Z.to_nat n - i)%nat with (Z.to_nat n) by lia.
Qed.

Lemma read_array_spec i n r S0 :
    drop i data = r -> (i <= length data)%nat -> i64_min <= n <= i64_max ->
    parse_array_header n i S0
    = Ok (absorb (length data) S0 (read_array_header (zlen (stack S0)) n r)).
Proof.
    intros Hr Hi Hn. unfold parse_array_header, read_array_header.
    destruct (n =? -1); [by apply attach_at_spec|].
    destruct (Z.ltb_spec n 0); [done|]. cbn [orb].
    rewrite (u64_small n) by (unfold i64_max, two64 in *; lia).
    destruct (_ <? n); [done|]. destruct (n =? 0); [by apply attach_at_spec|].
    destruct (_ <? _); [done|]. cbn [absorb].
    by rewrite (drop_length_eq _ _ _ Hr Hi), Nat.add_sub.
Qed.

Theorem parse_iteration_spec s S0 :
    drop (pos S0) data = s -> (pos S0 <= length data)%nat ->
    parse_iteration data S0 = Ok (absorb (length data) S0 (read_item (zlen (stack S0)) s)).
Proof.
    intros Hs Hp. unfold parse_iteration, read_item.
    pose proof (drop_length_eq _ _ _ Hs Hp) as Hlen.
    destruct s as [|c s]; cbn in Hlen; [by rewrite decide_True by lia|].
    rewrite decide_False by lia. rewrite (char_at_drop _ _ _ _ Hs). cbn [mbind res_bind].
    pose proof (drop_next _ _ _ _ Hs) as Hs'. assert (Hp' : (pos S0 + 1 <= length data)%nat) by lia.
    assert (Hcount : forall kf ki,
      (forall n i r, drop i data = r -> (i <= length data)%nat -> i64_min <= n <= i64_max ->
         kf n i = Ok (absorb (length data) S0 (ki n r))) ->
      (line_end ← findCrlf data (length data) (pos S0 + 1);
       match line_end with
       | None => mret (Return kNeedMoreData)
       | Some e =>
           number ← parseInt64Token data (pos S0 + 1) e;
           match number with None => mret (Return kParseError) | Some n => kf n (e + 2)%nat end
       end) = Ok (absorb (length data) S0 (read_count ki s))).
    { intros kf ki Hk. unfold read_count. eapply (read_line_spec (pos S0 + 1) s S0); [done..|].
      intros l r Hl Hr Hb. cbn. rewrite (parseInt64Token_spec _ _ _ _ Hl). cbn.
      destruct (int_token l) as [n|] eqn:En; [|done]. apply Hk; [done..|].
      by apply int_token_range in En. }
    repeat case_decide; try done.
    1, 2: eapply (read_line_spec (pos S0 + 1) s S0); [done..|];
      intros l r Hl Hr Hb; cbn beta; erewrite substr_app by done; by apply attach_at_spec.
    - apply (Hcount (fun n i => attach_at (RespInt kInteger n) i S0)).
      intros. by apply attach_at_spec.
    - apply (Hcount (fun n i => parse_bulk_body data n i S0)). intros. by apply read_bulk_spec.
    - apply (Hcount (fun n i => parse_array_header n i S0)). intros. by apply read_array_spec.
Qed.
End Iteration.
