(* ===== verification/RespGrammar.v ===== *)
(** * The language the RESP parser accepts

    A declarative grammar of encodings ([encodes]), the parser's loop as a
    function of the unread bytes ([read]), and the theorems that connect the
    three: the code computes [read], and [read] recognises exactly the
    grammar. *)

From S2P Require Import Prelude RespValue RespParser RespReader.

(** ** The loop on the unread bytes *)

Inductive outcome := RMore | RError | RValue (v : RespValue) (r : bytes).

Fixpoint read_fuel (fuel : nat) (st : list ArrayFrame) (s : bytes) : outcome :=
  match fuel with
  | O => RMore
  | S fuel =>
      match read_item (zlen st) s with
      | IMore => RMore
      | IError => RError
      | IValue v r =>
          let '(st', root, ready) := attachValue v st defaultRespValue in
          if ready : bool then RValue root r else read_fuel fuel st' r
      | IOpen n r => read_fuel fuel (reserve n (mkFrame n [] 0) :: st) r
      end
  end.

Definition read (st : list ArrayFrame) (s : bytes) : outcome := read_fuel (S (length s)) st s.

Definition resume (a : list ArrayFrame * RespValue * bool) (r : bytes) : outcome :=
  let '(st, root, ready) := a in if ready : bool then RValue root r else read st r.

Definition item_rest (i : item) : option bytes :=
  match i with IValue _ r | IOpen _ r => Some r | _ => None end.

Lemma suffix_app_r {A} (p r : list A) : r `suffix_of` p ++ r.
Proof. by exists p. Qed.

Lemma read_bulk_suffix n r r' : item_rest (read_bulk_body n r) = Some r' -> r' `suffix_of` r.
Proof.
  unfold read_bulk_body. repeat case_match; intros; simplify_eq/=; try done.
  match goal with E : drop _ r = ?a :: ?b :: _ |- _ => exists (take (Z.to_nat n) r ++ [a; b]) end.
  rewrite <- app_assoc. cbn. by rewrite <- (take_drop (Z.to_nat n) r) at 1; f_equal.
Qed.

Lemma read_item_suffix d c s r : item_rest (read_item d (c :: s)) = Some r -> r `suffix_of` s.
Proof.
  cbn [read_item].
  assert (Hline : forall k, (forall l r', item_rest (k l r') = Some r -> r `suffix_of` r') ->
    item_rest (read_line k s) = Some r -> r `suffix_of` s).
  { intros k Hk. unfold read_line. destruct (split_crlf s) as [[l r']|] eqn:E; [|done].
    intros ?%Hk. apply split_crlf_Some in E as ->. etrans; [done|].
    rewrite app_assoc. apply suffix_app_r. }
  assert (Hcount : forall k, (forall n r', item_rest (k n r') = Some r -> r `suffix_of` r') ->
    item_rest (read_count k s) = Some r -> r `suffix_of` s).
  { intros k Hk. apply Hline. intros l r'. destruct (int_token l); [apply Hk|done]. }
  repeat case_decide; try done; [apply Hline|apply Hline|apply Hcount|apply Hcount|apply Hcount].
  1-3: by intros ?? [= ->].
  - intros ??. apply read_bulk_suffix.
  - intros n r'. unfold read_array_header. repeat case_match; intros; by simplify_eq/=.
Qed.

Lemma read_item_rest d s r :
  item_rest (read_item d s) = Some r -> exists p, s = p ++ r /\ (length r < length s)%nat.
Proof.
  destruct s as [|c s]; [done|]. intros [p ->]%read_item_suffix.
  exists (c :: p). split; [done|]. cbn. rewrite length_app. lia.
Qed.

Lemma drop_suffix (data s r : bytes) :
  s `suffix_of` data -> r `suffix_of` s -> drop (length data - length r) data = r.
Proof.
  intros [p ->] [q ->]. rewrite app_assoc, length_app, Nat.add_sub. apply drop_app_length.
Qed.

(** The rest of an item is a proper suffix of the input. *)
Ltac item_rest E :=
  match type of E with
  | read_item ?d ?s = _ =>
      let p := fresh "p" in let Hp := fresh "Hp" in let Hl := fresh "Hl" in
      edestruct (read_item_rest d s) as (p & Hp & Hl); [by rewrite E|]
  end.

Lemma read_fuel_irrel n m st s :
  (length s < n)%nat -> (length s < m)%nat -> read_fuel n st s = read_fuel m st s.
Proof.
  revert m st s. induction n as [|n IH]; intros [|m] st s Hn Hm; try lia. cbn.
  destruct (read_item (zlen st) s) as [| |v r|k r] eqn:E; try done;
    item_rest E.
  - destruct (attachValue _ _ _) as [[st' root] []]; [done|]. apply IH; lia.
  - apply IH; lia.
Qed.

(** The defining equation of [read]. *)
Lemma read_eq st s :
  read st s
  = match read_item (zlen st) s with
    | IMore => RMore
    | IError => RError
    | IValue v r => resume (attachValue v st defaultRespValue) r
    | IOpen n r => read (reserve n (mkFrame n [] 0) :: st) r
    end.
Proof.
  unfold read at 1. cbn [read_fuel].
  destruct (read_item (zlen st) s) as [| |v r|k r] eqn:E; try done;
    item_rest E.
  - unfold resume. destruct (attachValue _ _ _) as [[st' root] []]; [done|].
    apply read_fuel_irrel; lia.
  - apply read_fuel_irrel; lia.
Qed.

Lemma attachValue_root v st root :
  attachValue v st root
  = let '(st', root', ready) := attachValue v st defaultRespValue in
    (st', if ready : bool then root' else root, ready).
Proof.
  revert v. induction st as [|f st IH]; intros v; cbn; [done|]. case_match; [done|]. apply IH.
Qed.

(** ** The code computes [read] *)

Definition report (size : nat) (o : outcome) : ParsingResult * nat * option RespValue :=
  match o with
  | RMore => (kNeedMoreData, 0%nat, None)
  | RError => (kParseError, 0%nat, None)
  | RValue v r => (kReady, (size - length r)%nat, Some v)
  end.

Lemma parse_loop_spec data fuel S0 s :
  drop (pos S0) data = s -> (pos S0 <= length data)%nat -> (S (length s) < fuel)%nat ->
  parse_loop fuel data S0
  = Ok (report (length data)
          (if root_ready S0 then RValue (root_value S0) s else read (stack S0) s)).
Proof.
  revert S0 s. induction fuel as [|fuel IH]; intros S0 s Hs Hp Hf; [lia|].
  cbn [parse_loop]. pose proof (drop_length_eq _ _ _ Hs Hp) as Hlen.
  destruct (root_ready S0) eqn:Hready; cbn [report].
  { by replace (length data - length s)%nat with (pos S0) by lia. }
  rewrite (parse_iteration_spec _ _ _ Hs Hp). cbn [mbind res_bind]. rewrite read_eq.
  destruct (read_item (zlen (stack S0)) s) as [| |v r|k r] eqn:E; [done|done|..];
    item_rest E; cbn [absorb].
  - rewrite attachValue_root. unfold resume.
    destruct (attachValue v (stack S0) defaultRespValue) as [[st' root'] ready]. cbn [mbind].
    rewrite (IH _ r); cbn [pos stack root_value root_ready]; [by destruct ready| |lia|lia].
    apply (drop_suffix data s r); [|by exists p]. exists (take (pos S0) data). by rewrite <- Hs, take_drop.
  - rewrite (IH _ r); cbn [pos stack root_value root_ready]; [by rewrite Hready| |lia|lia].
    apply (drop_suffix data s r); [|by exists p]. exists (take (pos S0) data). by rewrite <- Hs, take_drop.
Qed.

Theorem parseImpl_spec data : parseImpl data = Ok (report (length data) (read [] data)).
Proof.
  unfold parseImpl. destruct data as [|c data]; [done|]. rewrite decide_False by done.
  rewrite (parse_loop_spec _ _ _ (c :: data)); cbn; [done|done|lia|lia].
Qed.

(** ** Streaming: more input never changes a verdict *)

Definition item_app (i : item) (t : bytes) : item :=
  match i with
  | IValue v r => IValue v (r ++ t)
  | IOpen n r => IOpen n (r ++ t)
  | i => i
  end.

Definition outcome_app (o : outcome) (t : bytes) : outcome :=
  match o with RValue v r => RValue v (r ++ t) | o => o end.

Lemma read_bulk_app n r t :
  read_bulk_body n r <> IMore -> read_bulk_body n (r ++ t) = item_app (read_bulk_body n r) t.
Proof.
  unfold read_bulk_body. destruct (n =? -1) eqn:Em; [done|].
  destruct (Z.ltb_spec n 0); [done|]. destruct (kMaxBulkSize <? n); [done|]. cbn [orb].
  destruct (Z.ltb_spec (zlen r) (n + 2)) as [|Hlen]; [done|]. intros _.
  rewrite (proj2 (Z.ltb_ge _ _)) by (rewrite zlen_app; pose proof (zlen_nonneg t); lia).
  assert (Z.to_nat n + 2 <= length r)%nat by (unfold zlen in Hlen; lia).
  rewrite drop_app_le, take_app_le by lia.
  destruct (drop (Z.to_nat n) r) as [|c1 [|c2 r']] eqn:E;
    try (apply (f_equal length) in E; rewrite length_drop in E; cbn in E; lia).
  cbn. by case_decide.
Qed.

Lemma read_item_app d s t :
  read_item d s <> IMore -> read_item d (s ++ t) = item_app (read_item d s) t.
Proof.
  destruct s as [|c s]; [done|]. cbn [read_item app].
  assert (Hline : forall k,
    (forall l r, k l r <> IMore -> k l (r ++ t) = item_app (k l r) t) ->
    read_line k s <> IMore -> read_line k (s ++ t) = item_app (read_line k s) t).
  { intros k Hk. unfold read_line. destruct (split_crlf s) as [[l r]|] eqn:E; [|done].
    rewrite (split_crlf_app _ _ _ _ E). apply Hk. }
  assert (Hcount : forall k,
    (forall n r, k n r <> IMore -> k n (r ++ t) = item_app (k n r) t) ->
    read_count k s <> IMore -> read_count k (s ++ t) = item_app (read_count k s) t).
  { intros k Hk. apply Hline. intros l r. destruct (int_token l); [apply Hk|done]. }
  repeat case_decide; try done;
    [apply Hline|apply Hline|apply Hcount|apply Hcount|apply Hcount]; try done.
  - intros n r. apply read_bulk_app.
  - intros n r. unfold read_array_header. by repeat case_match.
Qed.

(** A verdict on a prefix of the input stands, whatever follows. *)
Lemma read_app st s t : read st s <> RMore -> read st (s ++ t) = outcome_app (read st s) t.
Proof.
  remember (length s) as n eqn:Hn. revert st s Hn.
  induction (lt_wf n) as [n _ IH]. intros st s ->. rewrite !(read_eq st).
  destruct (read_item (zlen st) s) as [| |v r|k r] eqn:E; [done|..];
    rewrite read_item_app by (by rewrite E); rewrite E; cbn [item_app]; [done|..]; item_rest E.
  - unfold resume. destruct (attachValue _ _ _) as [[st' root] []]; [done|].
    by apply (IH (length r)).
  - by apply (IH (length r)).
Qed.

(** ** The grammar *)

(** A line holds no CRLF. *)
Definition crlf_free (l : bytes) : Prop := forall a b, l <> a ++ crlf ++ b.

Inductive encodes (d : Z) : RespValue -> bytes -> Prop :=
  | enc_simple l : crlf_free l ->
      encodes d (RespString kSimpleString l) ("+"%char :: l ++ crlf)
  | enc_error l : crlf_free l ->
      encodes d (RespString kError l) ("-"%char :: l ++ crlf)
  | enc_integer tok z : int_token tok = Some z ->
      encodes d (RespInt kInteger z) (":"%char :: tok ++ crlf)
  | enc_bulk tok s : int_token tok = Some (zlen s) -> zlen s <= kMaxBulkSize ->
      encodes d (RespString kBulkString s) ("$"%char :: tok ++ crlf ++ s ++ crlf)
  | enc_null_bulk tok : int_token tok = Some (-1) ->
      encodes d (RespString kNullBulkString []) ("$"%char :: tok ++ crlf)
  | enc_null_array tok : int_token tok = Some (-1) ->
      encodes d (RespString kNullArray []) ("*"%char :: tok ++ crlf)
  | enc_empty_array tok : int_token tok = Some 0 ->
      encodes d (RespArr kArray []) ("*"%char :: tok ++ crlf)
  | enc_array tok vs e : int_token tok = Some (zlen vs) -> vs <> [] ->
      zlen vs <= kMaxArrayLength -> d + 1 <= kMaxNestingDepth ->
      encodes_all (d + 1) vs e ->
      encodes d (RespArr kArray vs) ("*"%char :: tok ++ crlf ++ e)
with encodes_all (d : Z) : list RespValue -> bytes -> Prop :=
  | enc_nil : encodes_all d [] []
  | enc_cons v vs e es : encodes d v e -> encodes_all d vs es ->
      encodes_all d (v :: vs) (e ++ es).

Scheme encodes_min := Minimality for encodes Sort Prop
  with encodes_all_min := Minimality for encodes_all Sort Prop.
Combined Scheme encodes_mutind from encodes_min, encodes_all_min.

Lemma split_crlf_None l : split_crlf l = None <-> crlf_free l.
Proof.
  split.
  - intros H a b ->. revert H. induction a as [|c a IH]; cbn [app].
    + cbn. by rewrite decide_True by done.
    + destruct (a ++ crlf ++ b) as [|c' r] eqn:E; [by destruct a|].
      rewrite split_crlf_cons. case_decide; [done|]. by intros ?%fmap_None%IH.
  - intros H. destruct (split_crlf l) as [[l' r]|] eqn:E; [|done].
    apply split_crlf_Some in E. by apply H in E.
Qed.

Lemma split_crlf_line l r : split_crlf l = None -> split_crlf (l ++ crlf ++ r) = Some (l, r).
Proof.
  induction l as [|c [|c' l] IH]; intros H.
  - cbn. by rewrite decide_True by done.
  - cbn. rewrite decide_False by (intros [_ ?]; done). by rewrite decide_True by done.
  - cbn [app] in *. rewrite split_crlf_cons in H |- *. case_decide; [done|].
    rewrite IH; [done|]. by apply fmap_None in H.
Qed.

(** No CRLF in an integer token. *)
Lemma digits_crlf_free ds : forallb is_digit ds = true -> split_crlf ds = None.
Proof.
  induction ds as [|c [|c' ds] IH]; [done..|]. intros H. rewrite split_crlf_cons.
  cbn [forallb] in *. apply andb_true_iff in H as [Hc H].
  rewrite decide_False by (intros [-> _]; done). rewrite IH by done. done.
Qed.

Lemma int_token_crlf_free tok z : int_token tok = Some z -> split_crlf tok = None.
Proof.
  unfold int_token. destruct tok as [|c ds]; [done|]. cbn [token_sign].
  assert (Hcons : forallb is_digit ds = true -> c <> CR -> split_crlf (c :: ds) = None).
  { intros Hd%digits_crlf_free Hc. destruct ds as [|c' ds]; [done|].
    rewrite split_crlf_cons, decide_False by tauto. by rewrite Hd. }
  repeat case_decide; subst; destruct (_ && _) eqn:E; try done; intros _;
    apply andb_true_iff in E as [[_ E]%andb_true_iff _].
  - by apply Hcons.
  - by apply Hcons.
  - by apply digits_crlf_free.
Qed.

(** ** Completeness: every encoding is read *)

Lemma read_line_crlf k l r : split_crlf l = None -> read_line k (l ++ crlf ++ r) = k l r.
Proof. intros H. unfold read_line. by rewrite (split_crlf_line _ _ H). Qed.

Lemma read_count_crlf k tok n r : int_token tok = Some n -> read_count k (tok ++ crlf ++ r) = k n r.
Proof.
  intros H. unfold read_count. rewrite read_line_crlf by (by eapply int_token_crlf_free).
  by rewrite H.
Qed.

Lemma read_bulk_body_complete s r :
  zlen s <= kMaxBulkSize ->
  read_bulk_body (zlen s) (s ++ crlf ++ r) = IValue (RespString kBulkString s) r.
Proof.
  intros Hs. unfold read_bulk_body. pose proof (zlen_nonneg s). pose proof (zlen_nonneg r).
  rewrite !zlen_app, zlen_crlf. zcmp.
  unfold zlen. rewrite Nat2Z.id, drop_app_length, take_app_length. cbn. by rewrite decide_True.
Qed.

Lemma read_array_header_open d n r :
  0 < n <= kMaxArrayLength -> d + 1 <= kMaxNestingDepth -> read_array_header d n r = IOpen n r.
Proof.
  intros [? ?] ?. unfold read_array_header. by zcmp.
Qed.

Definition attach v st := attachValue v st defaultRespValue.

Lemma read_item_value st s v r :
  read_item (zlen st) s = IValue v r -> read st s = resume (attach v st) r.
Proof. intros H. by rewrite read_eq, H. Qed.

(** Selects the branch of [read_item] for a known type byte. *)
Ltac type_byte :=
  cbn [read_item app]; repeat first [rewrite decide_True by done | rewrite decide_False by done].

(** The encodings of the elements an open frame still expects are read, and
    close the frame. *)
Lemma encodes_read d :
  (forall v e, encodes d v e -> forall st r, zlen st = d -> read st (e ++ r) = resume (attach v st) r)
  /\ (forall vs e, encodes_all d vs e -> forall st els cap r, zlen st + 1 = d -> vs <> [] ->
        zlen vs <= kMaxArrayLength ->
        read (mkFrame (zlen vs) els cap :: st) (e ++ r)
        = resume (attach (RespArr kArray (els ++ vs)) st) r).
Proof.
  revert d. apply encodes_mutind; intros d; intros; subst.
  1, 2: apply read_item_value; type_byte; rewrite <- app_assoc;
    by rewrite read_line_crlf by (by apply split_crlf_None).
  1-5: apply read_item_value; type_byte; rewrite <- ?app_assoc; erewrite read_count_crlf by done; try done.
  - by apply read_bulk_body_complete.
  - rewrite read_eq. type_byte. rewrite <- !app_assoc. erewrite read_count_crlf by done.
    assert (0 < zlen vs) by (destruct vs; [done|rewrite zlen_cons; pose proof (zlen_nonneg vs); lia]).
    rewrite read_array_header_open by lia. unfold reserve. cbn [remaining elements capacity]. by rewrite H4.
  - done.
  - rewrite <- app_assoc. rewrite H0 by (rewrite zlen_cons; lia).
    unfold attach. cbn [attachValue push_back elements remaining capacity]. rewrite zlen_cons in *.
    pose proof (zlen_nonneg vs). unfold kMaxArrayLength in *.
    rewrite u64_small by (unfold two64; lia).
    replace (zlen vs + 1 - 1) with (zlen vs) by lia.
    destruct vs as [|v' vs].
    + inversion H1; subst. done.
    + rewrite (proj2 (Z.ltb_lt _ _)) by (rewrite zlen_cons; pose proof (zlen_nonneg vs); lia).
      cbn [resume]. rewrite H2 by (done || lia). by rewrite <- app_assoc.
Qed.

(** ** Soundness: what is read is an encoding *)

Inductive frames_enc : list ArrayFrame -> bytes -> Prop :=
  | fe_nil : frames_enc [] []
  | fe_cons n els cap st pre tok e : frames_enc st pre ->
      int_token tok = Some (zlen els + n) -> 0 < n -> zlen els + n <= kMaxArrayLength ->
      zlen st + 1 <= kMaxNestingDepth -> encodes_all (zlen st + 1) els e ->
      frames_enc (mkFrame n els cap :: st) (pre ++ "*"%char :: tok ++ crlf ++ e).

Lemma encodes_all_snoc d vs v es e :
  encodes_all d vs es -> encodes d v e -> encodes_all d (vs ++ [v]) (es ++ e).
Proof.
  intros H Hv. revert Hv. induction H; intros Hv; cbn.
  - rewrite <- (app_nil_r e). constructor; [done|constructor].
  - rewrite <- app_assoc. constructor; [done|]. auto.
Qed.

Lemma attach_sound v st pre e :
  frames_enc st pre -> encodes (zlen st) v e ->
  let '(st', root, ready) := attach v st in
  if ready : bool then encodes 0 root (pre ++ e) else frames_enc st' (pre ++ e).
Proof.
  intros Hf. revert v e. induction Hf as [|n els cap st pre tok es Hf IH Htok Hn Hmax Hdepth Hes];
    intros v e Hv; [done|].
  unfold attach. cbn [attachValue push_back elements remaining capacity]. unfold kMaxArrayLength in *.
  pose proof (zlen_nonneg els). rewrite u64_small by (unfold two64; lia).
  assert (Hall : encodes_all (zlen st + 1) (els ++ [v]) (es ++ e)).
  { apply encodes_all_snoc; [done|]. by rewrite zlen_cons in Hv. }
  destruct (Z.ltb_spec 0 (n - 1)).
  - rewrite <- app_assoc. cbn. rewrite <- app_assoc. cbn.
    econstructor; rewrite ?zlen_app, ?zlen_cons, ?zlen_nil; try done; try lia.
    + rewrite Htok. f_equal. lia.
    + unfold kMaxArrayLength. lia.
  - rewrite <- app_assoc. cbn. rewrite <- app_assoc. cbn. apply (IH (RespArr kArray (els ++ [v]))).
    constructor; try done; rewrite ?zlen_app, ?zlen_cons, ?zlen_nil.
    + rewrite Htok. f_equal. lia.
    + by destruct els.
    + unfold kMaxArrayLength. lia.
Qed.

Lemma read_line_inv k s i : read_line k s = i -> i <> IMore ->
  exists l r, s = l ++ crlf ++ r /\ split_crlf s = Some (l, r) /\ k l r = i.
Proof.
  unfold read_line. destruct (split_crlf s) as [[l r]|] eqn:E; [|naive_solver].
  intros <- _. exists l, r. split; [by apply split_crlf_Some|done].
Qed.

Lemma split_crlf_line_free s l r : split_crlf s = Some (l, r) -> split_crlf l = None.
Proof.
  revert l. induction s as [|c [|c' s] IH]; intros l; [done..|].
  rewrite split_crlf_cons. case_decide as Hc; [by intros [= <- <-]|].
  intros ([l' r'] & E & [= -> ->])%fmap_Some. pose proof (IH _ E) as IHl. clear IH.
  destruct l' as [|c2 l']; [done|]. rewrite split_crlf_cons.
  apply split_crlf_Some in E. cbn in E. injection E as <- E.
  rewrite decide_False by done. by rewrite IHl.
Qed.

Lemma read_count_inv k s i : read_count k s = i -> i <> IMore -> i <> IError ->
  exists tok n r, s = tok ++ crlf ++ r /\ int_token tok = Some n /\ k n r = i.
Proof.
  intros H Hm He. apply read_line_inv in H as (tok & r & Hs & _ & H); [|done].
  destruct (int_token tok) as [n|] eqn:E; [|done]. by exists tok, n, r.
Qed.

Lemma read_bulk_body_sound tok n r v r' :
  int_token tok = Some n -> read_bulk_body n r = IValue v r' ->
  exists e, r = e ++ r' /\ forall d, encodes d v ("$"%char :: tok ++ crlf ++ e).
Proof.
  intros Htok. unfold read_bulk_body. destruct (Z.eqb_spec n (-1)) as [->|].
  { intros [= <- <-]. exists []. split; [done|]. intros d. rewrite app_nil_r. by constructor. }
  destruct (Z.ltb_spec n 0); [done|]. destruct (Z.ltb_spec kMaxBulkSize n); [done|]. cbn [orb].
  destruct (Z.ltb_spec (zlen r) (n + 2)) as [|Hlen]; [done|].
  destruct (drop (Z.to_nat n) r) as [|c1 [|c2 r2]] eqn:E; try done.
  case_decide as Hc; [destruct Hc as [-> ->]|done]. intros [= <- <-].
  assert (Hz : zlen (take (Z.to_nat n) r) = n).
  { unfold zlen in *. rewrite length_take. lia. }
  exists (take (Z.to_nat n) r ++ crlf). split.
  - rewrite <- app_assoc. change (crlf ++ r2) with (CR :: LF :: r2). by rewrite <- E, take_drop.
  - intros d. constructor; rewrite Hz; [done|lia].
Qed.

Lemma read_array_header_sound d tok n r i :
  int_token tok = Some n -> read_array_header d n r = i -> i <> IError ->
  (exists v, i = IValue v r /\ forall d, encodes d v ("*"%char :: tok ++ crlf))
  \/ (i = IOpen n r /\ 0 < n <= kMaxArrayLength /\ d + 1 <= kMaxNestingDepth).
Proof.
  intros Htok. unfold read_array_header. destruct (Z.eqb_spec n (-1)) as [->|].
  { intros <- _. left. eexists. split; [done|]. intros. by constructor. }
  destruct (Z.ltb_spec n 0); [by intros <-|]. destruct (Z.ltb_spec kMaxArrayLength n); [by intros <-|].
  cbn [orb]. destruct (Z.eqb_spec n 0) as [->|].
  { intros <- _. left. eexists. split; [done|]. intros. by constructor. }
  destruct (Z.ltb_spec kMaxNestingDepth (d + 1)); [by intros <-|].
  intros <- _. right. split; [done|]. lia.
Qed.

Lemma read_item_sound d s i :
  read_item d s = i ->
  match i with
  | IValue v r => exists e, s = e ++ r /\ encodes d v e
  | IOpen n r => exists tok, s = "*"%char :: tok ++ crlf ++ r /\ int_token tok = Some n
      /\ 0 < n <= kMaxArrayLength /\ d + 1 <= kMaxNestingDepth
  | _ => True
  end.
Proof.
  destruct s as [|c s]; [by intros <-|]. cbn [read_item]. intros H.
  repeat case_decide; try subst c; try (by subst i).
  all: destruct i as [| |v r|n r]; try done.
  1, 3: apply read_line_inv in H as (l & r' & Hs & Hl & [= <- <-]); [|done];
    apply split_crlf_line_free, split_crlf_None in Hl; subst s; eexists (_ :: l ++ crlf);
    (split; [cbn; by rewrite <- app_assoc|by constructor]).
  1, 2: by apply read_line_inv in H as (? & ? & _ & _ & H).
  - apply read_count_inv in H as (tok & n & r' & -> & Htok & [= <- <-]); [|done..].
    eexists (_ :: tok ++ crlf). split; [cbn; by rewrite <- app_assoc|by constructor].
  - by apply read_count_inv in H as (tok & n' & r' & -> & Htok & H).
  - apply read_count_inv in H as (tok & n & r' & -> & Htok & H); [|done..].
    apply (read_bulk_body_sound _ _ _ _ _ Htok) in H as (e & -> & He).
    exists ("$"%char :: tok ++ crlf ++ e). split; [cbn; by rewrite <- !app_assoc|done].
  - apply read_count_inv in H as (tok & n' & r' & -> & Htok & H); [|done..].
    unfold read_bulk_body in H. by repeat case_match.
  - apply read_count_inv in H as (tok & n & r' & -> & Htok & H); [|done..].
    apply (read_array_header_sound _ _ _ _ _ Htok) in H as [(v' & [= -> ->] & He)|[? _]];
      [|done..].
    exists ("*"%char :: tok ++ crlf). split; [cbn; by rewrite <- app_assoc|done].
  - apply read_count_inv in H as (tok & n' & r' & -> & Htok & H); [|done..].
    apply (read_array_header_sound _ _ _ _ _ Htok) in H as [(v' & ? & _)|([= -> ->] & ? & ?)];
      [done| |done]. by exists tok.
Qed.

Lemma read_sound st pre s v r :
  frames_enc st pre -> read st s = RValue v r -> exists e, s = e ++ r /\ encodes 0 v (pre ++ e).
Proof.
  remember (length s) as n eqn:Hn. revert st pre s Hn.
  induction (lt_wf n) as [n _ IH]. intros st pre s -> Hf. rewrite read_eq.
  destruct (read_item (zlen st) s) as [| |w r'|k r'] eqn:E; [done|done|..];
    item_rest E; apply read_item_sound in E.
  - destruct E as (e & -> & He). pose proof (attach_sound _ _ _ _ Hf He) as Ha. fold (attach w st).
    unfold resume. destruct (attach w st) as [[st' root] []].
    + intros [= -> ->]. by exists e.
    + intros H. destruct (IH (length r') Hl st' (pre ++ e) r' eq_refl Ha H) as (e' & -> & He').
      exists (e ++ e'). by rewrite <- !app_assoc in *.
  - destruct E as (tok & -> & Htok & Hk & Hd). intros H.
    assert (Hf' : frames_enc (reserve k (mkFrame k [] 0) :: st) (pre ++ "*"%char :: tok ++ crlf ++ [])).
    { unfold reserve. apply fe_cons; cbn [remaining elements]; rewrite ?zlen_nil, ?Z.add_0_l; try done; try lia. constructor. }
    destruct (IH (length r') Hl _ _ _ eq_refl Hf' H) as (e' & -> & He').
    exists ("*"%char :: tok ++ crlf ++ e'). split; [cbn [app]; by rewrite <- !app_assoc|].
    rewrite app_nil_r, <- app_assoc in He'. cbn [app] in He'. by rewrite <- !app_assoc in He'.
Qed.
