(* ===== verification/RespParserSpec.v ===== *)
(** * What the RESP parser guarantees

    The properties of [RespParser::parse] and [parseImpl], derived from the
    grammar of [RespGrammar]: exactness, totality, stability under streaming,
    the values it can produce, and what it does to the buffer. *)

From S2P Require Import Prelude RespValue RespParser RespReader RespGrammar.

Lemma read_iff data v r :
  read [] data = RValue v r <-> exists e, data = e ++ r /\ encodes 0 v e.
Proof.
  split.
  - intros H. apply (read_sound [] []) in H; [done|constructor].
  - intros (e & -> & He). by rewrite (proj1 (encodes_read 0) v e He []).
Qed.

Lemma encodes_nonempty d v e : encodes d v e -> e <> [].
Proof. by inversion 1. Qed.

Lemma report_ready size o n v :
  report size o = (kReady, n, Some v) <-> exists r, o = RValue v r /\ n = (size - length r)%nat.
Proof. destruct o; cbn; naive_solver. Qed.

(** Tag, payload and limits of the values of the grammar. *)
Fixpoint within_limits (d : Z) (v : RespValue) : bool :=
  match data v with
  | VString s => bool_decide (type v = kBulkString -> zlen s <= kMaxBulkSize)
  | VInteger _ => true
  | VArray [] => true
  | VArray l => (zlen l <=? kMaxArrayLength) && (d + 1 <=? kMaxNestingDepth)
                && forallb (within_limits (d + 1)) l
  end.

Lemma encodes_wf :
  (forall d, (forall v e, encodes d v e -> wf_value v = true /\ within_limits d v = true)
   /\ (forall vs e, encodes_all d vs e ->
         forallb wf_value vs = true /\ forallb (within_limits d) vs = true)).
Proof.
  apply encodes_mutind; intros d; intros; cbn; try done.
  - split; [|done]. apply int_token_range in H. unfold in_i64. by zcmp.
  - split; [done|]. by apply bool_decide_true.
  - destruct H4 as [Hw Hl]. split; [done|]. destruct vs; [done|].
    zcmp. done.
  - destruct H0 as [-> ->], H2 as [-> ->]. done.
Qed.

(** C9. [parseImpl] answers [kReady] with [consumed = n] and [outValue = v] exactly
    when the first [n] bytes of the buffer are an encoding of [v] in the
    grammar [encodes]: it accepts every encoding whatever follows it, and
    accepts nothing else. *)
Theorem parseImpl_ready_iff data n v :
  parseImpl data = Ok (kReady, n, Some v)
  <-> exists e r, data = e ++ r /\ n = length e /\ encodes 0 v e.
Proof.
  rewrite parseImpl_spec. split.
  - intros [= H]. apply report_ready in H as (r & Hr & ->).
    apply read_iff in Hr as (e & -> & He). exists e, r.
    split; [done|]. split; [|done]. rewrite length_app. lia.
  - intros (e & r & -> & -> & He). f_equal. apply report_ready. exists r.
    split; [apply read_iff; by exists e|]. rewrite length_app. lia.
Qed.

(** C24. On any input [parseImpl] terminates without reading outside the buffer or
    running out of iterations; it yields a value exactly when it is ready,
    and then consumes between one byte and the whole buffer. *)
Theorem parseImpl_total data :
  exists result n v, parseImpl data = Ok (result, n, v)
    /\ (result = kReady <-> is_Some v)
    /\ (result = kReady -> 0 < n <= length data)%nat
    /\ (result <> kReady -> n = 0%nat).
Proof.
  rewrite parseImpl_spec. destruct (read [] data) as [| |v r] eqn:E; cbn.
  1, 2: eexists _, _, _; split; [done|]; split; [|done]; split; [done|by intros [? ?]].
  exists kReady, (length data - length r)%nat, (Some v). repeat split; try done.
  all: intros; apply read_iff in E as (e & -> & He); apply encodes_nonempty in He;
    rewrite length_app; destruct e; cbn; [done|lia].
Qed.

(** C17. Streaming: once [parseImpl] has answered [kReady] or an error on the bytes
    received so far, the bytes that arrive later change neither the answer,
    nor [consumed], nor the value. *)
Theorem parseImpl_stable data more result n v :
  parseImpl data = Ok (result, n, v) -> result <> kNeedMoreData ->
  parseImpl (data ++ more) = Ok (result, n, v).
Proof.
  rewrite !parseImpl_spec. intros [= H] Hr. f_equal.
  assert (Hm : read [] data <> RMore) by (intros E; rewrite E in H; injection H; congruence).
  rewrite (read_app _ _ _ Hm). destruct (read [] data); cbn in *; [done|done|].
  injection H as <- <- <-. rewrite !length_app. do 2 f_equal. lia.
Qed.

Lemma parseImpl_stable_witness :
  parseImpl ((#":5" ++ crlf) ++ #"junk") = Ok (kReady, 4%nat, Some (RespInt kInteger 5)).
Proof. apply (parseImpl_stable (#":5" ++ crlf)); [vm_compute; reflexivity|discriminate]. Defined.

(** C29. Streaming: every proper prefix of an encoding is answered with
    [kNeedMoreData], so a message is never cut short nor rejected because it
    arrives in pieces. *)
Theorem parseImpl_prefix e1 e2 v :
  encodes 0 v (e1 ++ e2) -> e2 <> [] -> parseImpl e1 = Ok (kNeedMoreData, 0%nat, None).
Proof.
  intros He H2. assert (Hfull : read [] (e1 ++ e2) = RValue v []).
  { apply read_iff. exists (e1 ++ e2). by rewrite app_nil_r. }
  rewrite parseImpl_spec. destruct (read [] e1) as [| |w r] eqn:E; [done|..]; exfalso;
    rewrite read_app, E in Hfull by (by rewrite E); [done|]. injection Hfull as _ Hr.
  by apply app_eq_nil in Hr as [_ ?].
Qed.

Lemma parseImpl_prefix_witness : parseImpl (#"$3" ++ crlf ++ #"ab") = Ok (kNeedMoreData, 0%nat, None).
Proof.
  apply (parseImpl_prefix (#"$3" ++ crlf ++ #"ab") (#"c" ++ crlf) (RespString kBulkString #"abc"));
    [|discriminate].
  apply (enc_bulk 0 #"3" #"abc"); [vm_compute; reflexivity|discriminate].
Defined.

(** The encoding is a prefix code: a byte stream starts with at most one
    encoding, of one value. *)
Theorem encodes_unambiguous v1 v2 e1 e2 r1 r2 :
  encodes 0 v1 e1 -> encodes 0 v2 e2 -> e1 ++ r1 = e2 ++ r2 -> v1 = v2 /\ e1 = e2.
Proof.
  intros H1 H2 He. assert (Hr1 : read [] (e1 ++ r1) = RValue v1 r1) by (apply read_iff; eauto).
  assert (Hr2 : read [] (e1 ++ r1) = RValue v2 r2) by (apply read_iff; rewrite He; eauto).
  rewrite Hr1 in Hr2. injection Hr2 as -> ->. by apply app_inv_tail in He.
Qed.

Lemma encodes_unambiguous_witness :
  RespInt kInteger 7 = RespInt kInteger 7 /\ #":7" ++ crlf = #":7" ++ crlf.
Proof.
  apply (encodes_unambiguous _ _ _ _ #"x" #"x"); [| |reflexivity];
    apply (enc_integer 0 #"7" 7); vm_compute; reflexivity.
Defined.

(** Every value the parser delivers is well formed - its tag matches its
    payload, its integers fit in 64 bits - and respects the bulk, array and
    nesting limits. *)
Theorem parse_value_wf data n v :
  parseImpl data = Ok (kReady, n, Some v) -> wf_value v = true /\ within_limits 0 v = true.
Proof.
  rewrite parseImpl_spec. intros [= H]. apply report_ready in H as (r & Hr & _).
  apply read_iff in Hr as (e & _ & He). by apply encodes_wf in He.
Qed.

Lemma parse_value_wf_witness :
  wf_value (RespArr kArray [RespString kBulkString #"a"]) = true
  /\ within_limits 0 (RespArr kArray [RespString kBulkString #"a"]) = true.
Proof.
  apply (parse_value_wf (#"*1" ++ crlf ++ #"$1" ++ crlf ++ #"a" ++ crlf) 11).
  vm_compute. reflexivity.
Defined.

(** C36. [RespParser::parse] removes from the buffer exactly the encoding of the
    value it delivers, and leaves buffer and [outValue] alone otherwise - on
    an error as well as when more data is needed. *)
Theorem parse_buffer buffer out :
  exists result buffer' out', parse buffer out = Ok (result, buffer', out')
    /\ (result = kReady -> exists e, buffer = e ++ buffer' /\ encodes 0 out' e)
    /\ (result <> kReady -> buffer' = buffer /\ out' = out).
Proof.
  unfold parse. rewrite parseImpl_spec. destruct (read [] buffer) as [| |v r] eqn:E; cbn.
  1, 2: eexists _, _, _; split; [done|]; done.
  eexists _, _, _. split; [done|]. split; [|done]. intros _.
  apply read_iff in E as (e & -> & He). exists e.
  rewrite length_app, Nat.add_sub, drop_app_length. done.
Qed.
