(* ===== verification/RespReserve.v ===== *)
(** * What the parser reserves

    [parseImpl] of [src/respParser.cpp] reserves the elements of an array when
    it has read the header.  The vectors of the frames are local to the call,
    so they are freed when it returns without a value, and reserved again by the
    call that follows the next read.  How much that is, and that no vector
    ever grows. *)

From S2P Require Import Prelude RespValue RespParser RespReader RespGrammar.

(** The elements that the frames have room for, and those they have. *)
Definition reserved (st : list ArrayFrame) : Z := foldr (fun f acc => capacity f + acc) 0 st.
Definition stored (st : list ArrayFrame) : Z := foldr (fun f acc => zlen (elements f) + acc) 0 st.

Lemma reserved_cons f st : reserved (f :: st) = capacity f + reserved st.
Proof. done. Qed.
Lemma stored_cons f st : stored (f :: st) = zlen (elements f) + stored st.
Proof. done. Qed.

(** The states of the loop of [parseImpl] on [data]. *)
Inductive parse_reach (data : bytes) : PState -> Prop :=
  | parse_start : parse_reach data (mkPState 0 [] defaultRespValue false)
  | parse_next s s' :
      parse_reach data s -> root_ready s = false -> parse_iteration data s = Ok (Next s') ->
      parse_reach data s'.

(** ** The invariant *)

(** The room is for the elements there are and those to come. *)
Definition frame_ok (f : ArrayFrame) : Prop :=
  0 < remaining f /\ capacity f = remaining f + zlen (elements f) /\ capacity f <= kMaxArrayLength.

Record reserve_ok (data : bytes) (s : PState) : Prop := {
  ro_pos : (pos s <= length data)%nat;
  ro_frames : Forall frame_ok (stack s);
  ro_depth : zlen (stack s) <= kMaxNestingDepth;
  ro_stored : stored (stack s) <= Z.of_nat (pos s) }.

(** A value that is attached makes frames disappear, and one element more. *)
Lemma attachValue_reserve v st root st' root' ready :
  Forall frame_ok st -> attachValue v st root = (st', root', ready) ->
  Forall frame_ok st' /\ zlen st' <= zlen st /\ stored st' <= stored st + 1.
Proof.
  revert v. induction st as [|f st IH]; intros v Hok; cbn [attachValue].
  { intros [= <- <- <-]. done. }
  apply Forall_cons in Hok as [(Hr & Hc & Hm) Hok]. unfold kMaxArrayLength in Hm.
  cbn [push_back remaining elements capacity]. pose proof (zlen_nonneg (elements f)) as Hpos.
  assert (Hz : zlen (elements f ++ [v]) = zlen (elements f) + 1) by (rewrite zlen_app, zlen_cons, zlen_nil; lia).
  rewrite u64_small by (unfold two64; lia). destruct (Z.ltb_spec 0 (remaining f - 1)) as [Hlt|Hge].
  - intros [= <- <- <-]. split.
    + apply Forall_cons. split; [|done]. unfold frame_ok, kMaxArrayLength. cbn [remaining elements capacity]. lia.
    + rewrite !zlen_cons, !stored_cons. cbn [elements]. lia.
  - intros H. destruct (IH _ Hok H) as (Hok' & Hl & Hs). rewrite zlen_cons, stored_cons. split; [done|]. lia.
Qed.

(** What is left of a suffix, as a position. *)
Lemma rest_position (data : bytes) s r p :
  drop (pos s) data = p ++ r -> (pos s <= length data)%nat -> (0 < length p)%nat ->
  (pos s < length data - length r <= length data)%nat.
Proof. intros H Hp Hl. apply (f_equal length) in H. rewrite length_drop, length_app in H. lia. Qed.

Lemma reserve_ok_step data s s' :
  reserve_ok data s -> parse_iteration data s = Ok (Next s') -> reserve_ok data s'.
Proof.
  intros [Hp Hf Hd Hs] H. rewrite (parse_iteration_spec _ (drop (pos s) data)) in H by done.
  pose proof (read_item_sound (zlen (stack s)) (drop (pos s) data) _ eq_refl) as Hi.
  destruct (read_item (zlen (stack s)) (drop (pos s) data)) as [| |v r|n r] eqn:Hr; try done; cbn [absorb] in H.
  all: destruct (read_item_rest (zlen (stack s)) (drop (pos s) data) r) as (p & Hrest & Hlen); [by rewrite Hr|].
  all: assert (Hpos : (pos s < length data - length r <= length data)%nat) by
    (apply (rest_position data s r p Hrest Hp); rewrite Hrest, length_app in Hlen; lia).
  - destruct (attachValue v (stack s) (root_value s)) as [[st root] ready] eqn:Ha. injection H as <-.
    destruct (attachValue_reserve _ _ _ _ _ _ Hf Ha) as (Hf' & Hl & Hst). split; cbn [pos stack]; [lia|done|lia..].
  - injection H as <-. destruct Hi as (tok & _ & _ & Hn & Hdepth). split; cbn [pos stack]; [lia| |rewrite zlen_cons; lia|].
    + apply Forall_cons. split; [|done]. unfold frame_ok. cbn [reserve remaining elements capacity].
      change (zlen []) with 0. lia.
    + rewrite stored_cons. cbn [reserve elements]. rewrite zlen_nil. lia.
Qed.

Lemma parse_reach_ok data s : parse_reach data s -> reserve_ok data s.
Proof.
  induction 1 as [|s s' _ IH _ H]; [|by eapply reserve_ok_step].
  split; cbn; [lia|constructor|done|lia].
Qed.

Lemma reserved_bound st : Forall frame_ok st -> 0 <= reserved st <= zlen st * kMaxArrayLength.
Proof.
  induction 1 as [|f st (Hr & Hc & Hm) _ IH]; [done|]. rewrite zlen_cons, reserved_cons.
  pose proof (zlen_nonneg (elements f)). lia.
Qed.

(** ** The worst message *)

(** The header of an array of the largest length. *)
Definition widest : bytes := #"*1048576" ++ crlf.

Definition nested (d : nat) : bytes := concat (replicate d widest).

Lemma nested_app a b : nested (a + b) = nested a ++ nested b.
Proof. unfold nested. by rewrite replicate_add, concat_app. Qed.

Lemma nested_length d : length (nested d) = (10 * d)%nat.
Proof. induction d as [|d IH]; [done|]. unfold nested in *. cbn [replicate concat]. rewrite length_app, IH. cbn. lia. Qed.

(** The state after [k] headers. *)
Definition nested_state (k : nat) : PState :=
  mkPState (10 * k) (replicate k (mkFrame kMaxArrayLength [] kMaxArrayLength)) defaultRespValue false.

Lemma read_widest depth r :
  depth < kMaxNestingDepth -> read_item depth (widest ++ r) = IOpen kMaxArrayLength r.
Proof.
  intros Hd. change (widest ++ r) with ("*"%char :: #"1048576" ++ crlf ++ r).
  cbn [read_item]. rewrite !decide_False, decide_True by done.
  rewrite (read_count_crlf _ _ kMaxArrayLength) by reflexivity.
  apply read_array_header_open; [done|]. lia.
Qed.

Lemma nested_step d k :
  (k < d)%nat -> Z.of_nat d <= kMaxNestingDepth ->
  parse_iteration (nested d) (nested_state k) = Ok (Next (nested_state (S k))).
Proof.
  intros Hk Hd. assert (Hs : drop (10 * k) (nested d) = widest ++ nested (d - S k)).
  { replace d with (k + S (d - S k))%nat at 1 by lia.
    by rewrite nested_app, <- (nested_length k), drop_app_length. }
  rewrite (parse_iteration_spec _ _ (nested_state k) Hs); [|rewrite nested_length; cbn [nested_state pos]; lia].
  cbn [nested_state stack]. rewrite read_widest by (unfold zlen; rewrite length_replicate; lia).
  cbn [absorb stack root_value root_ready]. rewrite !nested_length.
  by replace (10 * d - 10 * (d - S k))%nat with (10 * S k)%nat by lia.
Qed.

Lemma nested_reach d k :
  (k <= d)%nat -> Z.of_nat d <= kMaxNestingDepth -> parse_reach (nested d) (nested_state k).
Proof.
  intros Hk Hd. induction k as [|k IH]; [apply parse_start|].
  apply (parse_next _ (nested_state k)); [apply IH; lia|done|apply nested_step; lia].
Qed.

Lemma reserved_nested k : reserved (stack (nested_state k)) = Z.of_nat k * kMaxArrayLength.
Proof.
  cbn [nested_state stack]. induction k as [|k IH]; [done|]. cbn [replicate].
  rewrite reserved_cons, IH. cbn [capacity]. lia.
Qed.

Lemma nested_waits d :
  Z.of_nat d <= kMaxNestingDepth -> parseImpl (nested d) = Ok (kNeedMoreData, 0%nat, None).
Proof.
  intros Hd. rewrite parseImpl_spec.
  assert (H : forall k st, zlen st + Z.of_nat k <= kMaxNestingDepth -> RespGrammar.read st (nested k) = RMore).
  { induction k as [|k IH]; intros st Hk; [done|]. change (nested (S k)) with (widest ++ nested k).
    rewrite read_eq, read_widest by lia. apply IH. rewrite zlen_cons. lia. }
  by rewrite H.
Qed.

(** C31. What the parser reserves while it works on a message, whole or not.
    At any moment of a call the vectors of the open arrays have room for
    exactly the elements that were announced, so adding one never makes a
    vector grow; the elements they have are no more than the bytes read, and the
    arrays are nested no deeper than [kMaxNestingDepth].  But the room is only
    bounded by [kMaxNestingDepth] times [kMaxArrayLength] - four billion
    elements -, and ten bytes make the parser reserve [kMaxArrayLength]: the
    bound is reached by a message of 40 kilobytes, of which the call consumes
    nothing, so that the next one reserves it all again. *)
Theorem parse_reservation :
  (forall data s, parse_reach data s ->
     Forall (fun f => capacity f = remaining f + zlen (elements f)) (stack s)
     /\ stored (stack s) <= Z.of_nat (pos s) /\ zlen (stack s) <= kMaxNestingDepth
     /\ 0 <= reserved (stack s) <= kMaxNestingDepth * kMaxArrayLength)
  /\ forall d, Z.of_nat d <= kMaxNestingDepth ->
       exists data s, length data = (10 * d)%nat /\ parse_reach data s
         /\ reserved (stack s) = Z.of_nat d * kMaxArrayLength
         /\ parseImpl data = Ok (kNeedMoreData, 0%nat, None).
Proof.
  split.
  - intros data s [_ Hf Hd Hs]%parse_reach_ok.
    split; [eapply Forall_impl; [exact Hf|by intros f (_ & ? & _)]|]. split; [done|]. split; [done|].
    pose proof (reserved_bound _ Hf). unfold kMaxArrayLength in *. lia.
  - intros d Hd. exists (nested d), (nested_state d). split; [apply nested_length|].
    split; [by apply nested_reach|]. split; [apply reserved_nested|by apply nested_waits].
Qed.
