(* ===== verification/RespSerializer.v ===== *)
(** * The RESP serializer

    [src/respSerializer.cpp]: [std::to_chars], the size estimate and the
    iterative serializer with its explicit stack, translated step by step;
    [encode] is the recursive reference.  The theorems show that the
    iterative code computes [encode], that the estimate is its exact length,
    and that the parser reads back what was written. *)

From S2P Require Import Prelude RespValue RespParser RespReader RespGrammar RespParserSpec.

(** ** [std::to_chars] *)

Definition digit_char (d : Z) : ascii := Ascii.ascii_of_N (Z.to_N (48 + d)).

Fixpoint digits_loop (fuel : nat) (n : Z) (acc : bytes) : bytes :=
  match fuel with
  | O => acc
  | S fuel =>
      let acc := digit_char (n mod 10) :: acc in
      if n / 10 =? 0 then acc else digits_loop fuel (n / 10) acc
  end.

(** The decimal digits of a number below [10 ^ 20]. *)
Definition digits (n : Z) : bytes := digits_loop 20 n [].

(** [std::to_chars(buffer, buffer + size, value)]; [None] is
    [std::errc::value_too_large]. *)
Definition to_chars (size : Z) (value : Z) : option bytes :=
  let s := if value <? 0 then "-"%char :: digits (- value) else digits value in
  if zlen s <=? size then Some s else None.

Definition integer_length (value : Z) : Z :=
  match to_chars 32 value with Some s => zlen s | None => 0 end.

Definition append_integer (out : bytes) (value : Z) : bytes :=
  match to_chars 32 value with Some s => out ++ s | None => out end.

(** ** Leaves *)

Definition kNullBulkStringText : bytes := #"$-1" ++ crlf.
Definition kNullArrayText : bytes := #"*-1" ++ crlf.
Definition kUnknownTypeText : bytes := #"-ERR unknown type" ++ crlf.

Definition append_prefixed_line (out : bytes) (prefix : ascii) (text : bytes) : bytes :=
  out ++ [prefix] ++ text ++ crlf.

Definition append_non_array (out : bytes) (value : RespValue) : res bytes :=
  match type value with
  | kSimpleString => s ← get_string (data value); mret (append_prefixed_line out "+" s)
  | kError => s ← get_string (data value); mret (append_prefixed_line out "-" s)
  | kInteger =>
      z ← get_int64 (data value); mret (append_integer (out ++ [":"%char]) z ++ crlf)
  | kBulkString =>
      str ← get_string (data value);
      mret (append_integer (out ++ ["$"%char]) (zlen str) ++ crlf ++ str ++ crlf)
  | kNullBulkString => mret (out ++ kNullBulkStringText)
  | kNullArray => mret (out ++ kNullArrayText)
  | _ => mret (out ++ kUnknownTypeText)
  end.

(** ** [estimate_serialized_size] *)

Definition estimate_step (value : RespValue) : res (Z * list RespValue) :=
  match type value with
  | kSimpleString | kError =>
      s ← get_string (data value); mret (1 + zlen s + zlen crlf, [])
  | kInteger =>
      z ← get_int64 (data value); mret (1 + integer_length z + zlen crlf, [])
  | kBulkString =>
      str ← get_string (data value);
      mret (1 + integer_length (zlen str) + zlen crlf + zlen str + zlen crlf, [])
  | kNullBulkString => mret (zlen kNullBulkStringText, [])
  | kArray =>
      elements ← get_array (data value);
      mret (1 + integer_length (zlen elements) + zlen crlf, elements)
  | kNullArray => mret (zlen kNullArrayText, [])
  | kUnknown => mret (zlen kUnknownTypeText, [])
  end.

(** The loop pushes the elements last to first, which leaves the first one on
    top of the stack. *)
Fixpoint estimate_loop (fuel : nat) (stack : list RespValue) (total : Z) : res Z :=
  match fuel with
  | O => Fault OutOfFuel
  | S fuel =>
      match stack with
      | [] => mret total
      | value :: stack =>
          '(amount, pushed) ← estimate_step value;
          estimate_loop fuel (pushed ++ stack) (u64 (total + amount))
      end
  end.

Definition estimate_serialized_size (root : RespValue) : res Z :=
  estimate_loop (S (nodes root)) [root] 0.

(** ** [serialize_iterative] *)

Record SFrame := mkSFrame { s_elements : list RespValue; next_index : nat }.

(** The inner [while (!stack.empty())]: the next element to write, if any. *)
Fixpoint advance (stack : list SFrame) : option (RespValue * list SFrame) :=
  match stack with
  | [] => None
  | frame :: rest =>
      match s_elements frame !! next_index frame with
      | Some current =>
          Some (current, mkSFrame (s_elements frame) (S (next_index frame)) :: rest)
      | None => advance rest
      end
  end.

Fixpoint serialize_loop (fuel : nat) (out : bytes) (stack : list SFrame) (current : RespValue)
    : res bytes :=
  match fuel with
  | O => Fault OutOfFuel
  | S fuel =>
      let next out :=
        match advance stack with
        | None => mret out
        | Some (current, stack) => serialize_loop fuel out stack current
        end in
      if decide (type current = kArray) then
        elements ← get_array (data current);
        let out := append_integer (out ++ ["*"%char]) (zlen elements) ++ crlf in
        match elements with
        | [] => next out
        | first :: _ => serialize_loop fuel out (mkSFrame elements 1 :: stack) first
        end
      else out ← append_non_array out current; next out
  end.

Definition serialize_iterative (root : RespValue) : res bytes :=
  _ ← estimate_serialized_size root;
  serialize_loop (S (nodes root)) [] [] root.

Definition serialize (value : RespValue) : res bytes := serialize_iterative value.

(** ** The reference encoding *)

Definition itoa (z : Z) : bytes := append_integer [] z.

Fixpoint encode (v : RespValue) : bytes :=
  match type v, data v with
  | kSimpleString, VString s => "+"%char :: s ++ crlf
  | kError, VString s => "-"%char :: s ++ crlf
  | kInteger, VInteger z => ":"%char :: itoa z ++ crlf
  | kBulkString, VString s => "$"%char :: itoa (zlen s) ++ crlf ++ s ++ crlf
  | kNullBulkString, _ => kNullBulkStringText
  | kNullArray, _ => kNullArrayText
  | kArray, VArray l => "*"%char :: itoa (zlen l) ++ crlf ++ concat (encode <$> l)
  | _, _ => kUnknownTypeText
  end.

(** Payloads on which the serializer's [std::get] succeeds: every well-formed
    value, and more. *)
Fixpoint serializable (v : RespValue) : bool :=
  match type v, data v with
  | (kSimpleString | kError | kBulkString), VString _ => true
  | kInteger, VInteger _ => true
  | kArray, VArray l => forallb serializable l
  | (kUnknown | kNullBulkString | kNullArray), _ => true
  | _, _ => false
  end.

Example serialize_nested :
  serialize (RespArr kArray [RespInt kInteger (-12); RespArr kArray []; RespString kBulkString #"ab"])
  = Ok (#"*3" ++ crlf ++ #":-12" ++ crlf ++ #"*0" ++ crlf ++ #"$2" ++ crlf ++ #"ab" ++ crlf).
Proof. vm_compute. reflexivity. Qed.

(** ** Lemmas on the loops *)

Lemma append_integer_eq out z : append_integer out z = out ++ itoa z.
Proof. unfold itoa, append_integer. destruct (to_chars 32 z); [done|]. by rewrite app_nil_r. Qed.

Lemma integer_length_eq z : integer_length z = zlen (itoa z).
Proof. unfold integer_length, itoa, append_integer. by destruct (to_chars 32 z). Qed.

Lemma append_non_array_spec out v :
  type v <> kArray -> serializable v = true -> append_non_array out v = Ok (out ++ encode v).
Proof.
  destruct v as [t d]; destruct t, d; cbn; try done; intros _ _;
    rewrite ?append_integer_eq, <- ?app_assoc; done.
Qed.

Definition pending (stack : list SFrame) : list RespValue :=
  concat ((fun f => drop (next_index f) (s_elements f)) <$> stack).

Lemma advance_spec stack :
  match advance stack with
  | None => pending stack = []
  | Some (current, stack') => pending stack = current :: pending stack'
  end.
Proof.
  induction stack as [|[es i] stack IH]; [done|]. cbn [advance s_elements next_index].
  unfold pending. cbn. destruct (es !! i) as [v|] eqn:E.
  - cbn. by rewrite (drop_S _ _ _ E).
  - rewrite drop_ge by (by apply lookup_ge_None). apply IH.
Qed.

Definition total_nodes (vs : list RespValue) : nat := sum_list (nodes <$> vs).

Lemma total_nodes_app vs ws : total_nodes (vs ++ ws) = (total_nodes vs + total_nodes ws)%nat.
Proof. unfold total_nodes. induction vs; cbn in *; lia. Qed.

Lemma total_nodes_cons v vs : total_nodes (v :: vs) = (nodes v + total_nodes vs)%nat.
Proof. done. Qed.

Lemma nodes_array t l : nodes (mkRespValue t (VArray l)) = S (total_nodes l).
Proof. done. Qed.

Lemma nodes_pos v : (0 < nodes v)%nat.
Proof. destruct v as [t []]; cbn; lia. Qed.

Lemma encode_array l :
  encode (mkRespValue kArray (VArray l))
  = "*"%char :: itoa (zlen l) ++ crlf ++ concat (encode <$> l).
Proof. done. Qed.

Lemma serializable_array l :
  serializable (mkRespValue kArray (VArray l)) = forallb serializable l.
Proof. done. Qed.

Lemma serialize_loop_spec fuel out stack current :
  (nodes current + total_nodes (pending stack) < fuel)%nat ->
  serializable current = true -> forallb serializable (pending stack) = true ->
  serialize_loop fuel out stack current
  = Ok (out ++ encode current ++ concat (encode <$> pending stack)).
Proof.
  revert out stack current. induction fuel as [|fuel IH]; intros out stack current Hf Hc Hp; [lia|].
  assert (Hnext : forall out', (match advance stack with
      | None => mret out'
      | Some (current, stack) => serialize_loop fuel out' stack current end)
      = Ok (out' ++ concat (encode <$> pending stack))).
  { intros out'. pose proof (advance_spec stack) as Ha. destruct (advance stack) as [[v st]|].
    - rewrite Ha, total_nodes_cons in *. cbn in Hp |- *. apply andb_true_iff in Hp as [Hv Hp].
      apply IH; [|done|done]. pose proof (nodes_pos current). lia.
    - rewrite Ha. cbn. by rewrite app_nil_r. }
  cbn [serialize_loop]. destruct current as [t d]. cbn [type data].
  destruct (decide (t = kArray)) as [->|Ht].
  - destruct d as [| |l]; [done|done|]. cbn [get_array mbind res_bind].
    destruct l as [|v l].
    + by rewrite Hnext, append_integer_eq, <- !app_assoc.
    + rewrite nodes_array in Hf. rewrite serializable_array in Hc.
      cbn [forallb] in Hc. apply andb_true_iff in Hc as [Hv Hl].
      assert (Hpend : pending (mkSFrame (v :: l) 1 :: stack) = l ++ pending stack) by done.
      rewrite total_nodes_cons in Hf.
      rewrite IH; rewrite ?Hpend, ?total_nodes_app, ?forallb_app, ?Hl; try done; [|lia].
      rewrite append_integer_eq, fmap_app, concat_app, encode_array, fmap_cons.
      cbn [concat app]. by rewrite <- !app_assoc.
  - rewrite append_non_array_spec by done. cbn [mbind res_bind].
    by rewrite Hnext, <- app_assoc.
Qed.

Definition total_size (vs : list RespValue) : Z := zlen (concat (encode <$> vs)).

Lemma estimate_step_spec v :
  serializable v = true ->
  exists amount pushed, estimate_step v = Ok (amount, pushed)
    /\ forallb serializable pushed = true
    /\ (S (total_nodes pushed) <= nodes v)%nat /\ zlen (encode v) = amount + total_size pushed.
Proof.
  destruct v as [t d]; destruct t, d; cbn [serializable type data]; try done; intros H;
    (eexists _, _; split; [reflexivity|]; split; [done|];
      split; [cbn; unfold total_nodes; cbn; lia|]);
    unfold total_size; cbn [encode type data fmap list_fmap concat]; rewrite ?integer_length_eq;
    autorewrite with zlen; lia.
Qed.

Lemma estimate_loop_spec fuel stack total :
  (total_nodes stack < fuel)%nat -> forallb serializable stack = true ->
  0 <= total < two64 ->
  estimate_loop fuel stack total = Ok (u64 (total + total_size stack)).
Proof.
  revert stack total. induction fuel as [|fuel IH]; intros stack total Hf Hs Ht; [lia|].
  destruct stack as [|v stack]; cbn [estimate_loop].
  { unfold total_size. cbn. by rewrite Z.add_0_r, u64_small. }
  cbn in Hs. apply andb_true_iff in Hs as [Hv Hs].
  destruct (estimate_step_spec v Hv) as (amount & pushed & -> & Hp & Hn & Hz).
  cbn [mbind res_bind]. rewrite IH; [|rewrite total_nodes_cons in Hf;
    rewrite total_nodes_app; lia|by rewrite forallb_app, Hp|apply u64_bound].
  rewrite u64_add_l. unfold total_size in *. cbn [fmap list_fmap concat].
  rewrite fmap_app, concat_app, !zlen_app. do 2 f_equal. lia.
Qed.

(** ** Decimal output is read back *)

Lemma digit_char_code d : 0 <= d < 10 -> char_code (digit_char d) = 48 + d.
Proof. intros H. unfold char_code, digit_char. rewrite Ascii.N_ascii_embedding; lia. Qed.

Lemma decimal_from_snoc a ds c : decimal_from a (ds ++ [c]) = decimal_from a ds * 10 + (char_code c - 48).
Proof. unfold decimal_from. by rewrite foldl_app. Qed.

Lemma digits_loop_spec fuel n acc :
  0 <= n < 10 ^ Z.of_nat fuel -> (0 < fuel)%nat ->
  exists ds, digits_loop fuel n acc = ds ++ acc /\ forallb is_digit ds = true
    /\ ds <> [] /\ decimal ds = n /\ (length ds <= fuel)%nat.
Proof.
  revert n acc. induction fuel as [|fuel IH]; intros n acc Hn Hf; [lia|].
  cbn [digits_loop]. pose proof (Z.mod_pos_bound n 10 eq_refl) as Hm.
  pose proof (digit_char_code _ Hm) as Hc.
  assert (Hd : is_digit (digit_char (n mod 10)) = true) by (unfold is_digit; rewrite Hc; by zcmp).
  pose proof (Z.div_mod n 10 ltac:(lia)) as Hdm.
  destruct (Z.eqb_spec (n / 10) 0) as [H0|H0].
  - exists [digit_char (n mod 10)]. cbn. rewrite Hd. unfold decimal, decimal_from. cbn.
    rewrite Hc. repeat split; try done; lia.
  - assert (Hq : 0 <= n / 10 < 10 ^ Z.of_nat fuel).
    { split; [apply Z.div_pos; lia|]. apply Z.div_lt_upper_bound; [lia|].
      rewrite Nat2Z.inj_succ, Z.pow_succ_r in Hn by lia. lia. }
    assert (0 < fuel)%nat by (destruct fuel; [cbn in Hq; lia|lia]).
    destruct (IH (n / 10) (digit_char (n mod 10) :: acc) Hq) as (ds & -> & Hds & Hne & Hv & Hl); [done|].
    exists (ds ++ [digit_char (n mod 10)]). rewrite <- app_assoc, forallb_app, Hds. cbn. rewrite Hd.
    unfold decimal in *. rewrite decimal_from_snoc, Hc, length_app. cbn.
    repeat split; [by destruct ds|lia|lia].
Qed.

Lemma digits_spec n :
  0 <= n < 10 ^ 20 ->
  forallb is_digit (digits n) = true /\ digits n <> [] /\ decimal (digits n) = n
  /\ zlen (digits n) <= 20.
Proof.
  intros Hn. destruct (digits_loop_spec 20 n [] Hn) as (ds & Hd & H1 & H2 & H3 & H4); [lia|].
  unfold digits. rewrite Hd, app_nil_r. unfold zlen. repeat split; try done. lia.
Qed.

(** Every 64-bit integer, signed or unsigned, fits in the 32-byte buffer. *)
Lemma itoa_fits z :
  i64_min <= z < two64 ->
  itoa z = (if z <? 0 then "-"%char :: digits (- z) else digits z) /\ zlen (itoa z) <= 21.
Proof.
  intros Hz. unfold itoa, append_integer, to_chars.
  assert (H : zlen (if z <? 0 then "-"%char :: digits (- z) else digits z) <= 21).
  { destruct (Z.ltb_spec z 0); rewrite ?zlen_cons.
    - pose proof (digits_spec (- z)) as H1. unfold i64_min, two64 in *. lia.
    - pose proof (digits_spec z) as H1. unfold i64_min, two64 in *. lia. }
  rewrite (proj2 (Z.leb_le _ _)) by lia. done.
Qed.

Lemma is_digit_sign c : is_digit c = true -> c <> "-"%char /\ c <> "+"%char.
Proof. intros H. split; intros ->; discriminate H. Qed.

Lemma int_token_itoa z : i64_min <= z <= i64_max -> int_token (itoa z) = Some z.
Proof.
  intros Hz. destruct (itoa_fits z) as [-> _]; [unfold i64_max, two64 in *; lia|].
  unfold int_token. destruct (Z.ltb_spec z 0); cbn [token_sign].
  - destruct (digits_spec (- z)) as (Hd & Hne & Hv & _); [unfold i64_min in *; lia|].
    rewrite decide_True by done. rewrite bool_decide_true, Hd, Hv by done. cbn.
    unfold in_i64. zcmp. do 2 f_equal. lia.
  - destruct (digits_spec z) as (Hd & Hne & Hv & _); [unfold i64_max in *; lia|].
    destruct (digits z) as [|c ds] eqn:E; [done|].
    assert (Hc : is_digit c = true) by (cbn in Hd; by apply andb_true_iff in Hd as [? _]).
    apply is_digit_sign in Hc as [Hc1 Hc2]. cbn [token_sign].
    rewrite !decide_False by done. rewrite bool_decide_true, Hd, Hv by done. cbn.
    unfold in_i64. by zcmp.
Qed.

Lemma serialize_total v : serializable v = true -> serialize v = Ok (encode v).
Proof.
  intros Hv. unfold serialize, serialize_iterative, estimate_serialized_size.
  rewrite estimate_loop_spec; [|cbn; lia|cbn; by rewrite Hv|done].
  cbn [mbind res_bind]. rewrite serialize_loop_spec; [|cbn; lia|done|done].
  cbn. by rewrite app_nil_r.
Qed.

(** ** The theorems *)

(** C30. The iterative serializer, with its explicit stack of array frames,
    terminates on every value whose payloads match its tags and produces the
    recursive reference encoding. *)
Theorem serialize_correct v : serializable v = true -> serialize v = Ok (encode v).
Proof. apply serialize_total. Qed.

Lemma serialize_correct_witness :
  serialize (RespArr kArray [RespInt kInteger (-3); RespString kBulkString #"hi"]) = Ok (encode (RespArr kArray [RespInt kInteger (-3); RespString kBulkString #"hi"])).
Proof. apply serialize_correct. reflexivity. Defined.

(** The size reserved beforehand is the exact length of the output, modulo
    the width of [std::size_t]: the output string never reallocates. *)
Theorem estimate_exact v :
  serializable v = true -> estimate_serialized_size v = Ok (u64 (zlen (encode v))).
Proof.
  intros Hv. unfold estimate_serialized_size.
  rewrite estimate_loop_spec; [|cbn; lia|cbn; by rewrite Hv|done].
  unfold total_size. cbn. by rewrite app_nil_r.
Qed.

Lemma estimate_exact_witness :
  estimate_serialized_size (RespArr kArray [RespInt kInteger (-3); RespString kBulkString #"hi"])
  = Ok (u64 (zlen (encode (RespArr kArray [RespInt kInteger (-3); RespString kBulkString #"hi"])))).
Proof. apply estimate_exact. reflexivity. Defined.

(** [append_integer] never truncates: the decimal text of any 64-bit
    integer, signed or unsigned, fits the 32-byte buffer, and
    [parseInt64Token] reads a signed one back. *)
Theorem append_integer_roundtrip out z :
  i64_min <= z <= i64_max ->
  exists tok, append_integer out z = out ++ tok /\ zlen tok <= 21
    /\ forall rest, parseInt64Token (tok ++ rest) 0 (length tok) = Ok (Some z).
Proof.
  intros Hz. exists (itoa z). split; [apply append_integer_eq|]. split.
  - apply itoa_fits. unfold i64_max, two64 in *. lia.
  - intros rest. rewrite (parseInt64Token_spec _ 0 (itoa z) rest) by done.
    by rewrite int_token_itoa.
Qed.

(** Values a RESP stream can carry: well formed, lines without CRLF, and
    within the parser's limits. *)
Fixpoint transmissible (d : Z) (v : RespValue) : bool :=
  match type v, data v with
  | (kSimpleString | kError), VString s => bool_decide (split_crlf s = None)
  | kBulkString, VString s => zlen s <=? kMaxBulkSize
  | kInteger, VInteger z => in_i64 z
  | (kNullBulkString | kNullArray), VString [] => true
  | kArray, VArray [] => true
  | kArray, VArray l =>
      (zlen l <=? kMaxArrayLength) && (d + 1 <=? kMaxNestingDepth)
      && forallb (transmissible (d + 1)) l
  | _, _ => false
  end.

Lemma encodes_all_concat d vs :
  Forall (fun v => encodes d v (encode v)) vs -> encodes_all d vs (concat (encode <$> vs)).
Proof. induction 1; cbn; constructor; done. Qed.

Lemma encode_encodes v : forall d, transmissible d v = true -> encodes d v (encode v).
Proof.
  induction v as [t s|t z|t l IH] using RespValue_rect'; intros d.
  - destruct t; cbn; try done.
    + intros H%bool_decide_eq_true. constructor. by apply split_crlf_None.
    + intros H%bool_decide_eq_true. constructor. by apply split_crlf_None.
    + intros H%Z.leb_le. constructor; [|done]. apply int_token_itoa.
      pose proof (zlen_nonneg s). unfold kMaxBulkSize, i64_min, i64_max in *. lia.
    + destruct s; [|done]. intros _. by apply (enc_null_bulk d #"-1").
    + destruct s; [|done]. intros _. by apply (enc_null_array d #"-1").
  - destruct t; cbn; try done. unfold in_i64. intros [?%Z.leb_le ?%Z.leb_le]%andb_true_iff.
    constructor. by apply int_token_itoa.
  - destruct t; cbn [transmissible type data]; try done. rewrite encode_array.
    destruct l as [|v l].
    + intros _. rewrite zlen_nil. cbn [fmap list_fmap concat]. rewrite app_nil_r.
      constructor. by apply int_token_itoa.
    + intros [[Hn%Z.leb_le Hd%Z.leb_le]%andb_true_iff Hl]%andb_true_iff.
      constructor; try done.
      * apply int_token_itoa. pose proof (zlen_nonneg (v :: l)).
        unfold kMaxArrayLength, i64_min, i64_max in *. lia.
      * apply encodes_all_concat. rewrite Forall_forall in IH |- *. intros w Hw.
        apply IH; [done|]. rewrite List.forallb_forall in Hl. apply Hl. by apply list_elem_of_In.
Qed.

Lemma transmissible_serializable v : forall d, transmissible d v = true -> serializable v = true.
Proof.
  induction v as [t s|t z|t l IH] using RespValue_rect'; intros d; destruct t; cbn; try done.
  destruct l as [|v l]; [done|]. intros [_ Hl]%andb_true_iff.
  apply List.forallb_forall. intros w Hw. rewrite List.forallb_forall in Hl.
  rewrite Forall_forall in IH. apply (IH w (proj2 (list_elem_of_In _ _) Hw) (d + 1)). by apply Hl.
Qed.

(** C10. Round trip: what the serializer writes for a transmissible value, the
    parser reads back as that same value, leaving whatever follows it in the
    buffer. *)
Theorem serialize_parse_roundtrip v rest out :
  transmissible 0 v = true ->
  exists text, serialize v = Ok text /\ parse (text ++ rest) out = Ok (kReady, rest, v).
Proof.
  intros Hv. exists (encode v). split.
  - by eapply serialize_total, transmissible_serializable.
  - unfold parse. rewrite parseImpl_spec.
    assert (read [] (encode v ++ rest) = RValue v rest) as ->.
    { apply read_iff. exists (encode v). split; [done|]. by apply encode_encodes. }
    cbn. by rewrite length_app, Nat.add_sub, drop_app_length.
Qed.

Lemma serialize_parse_roundtrip_witness :
  exists text, serialize (RespArr kArray [RespInt kInteger (-3); RespString kBulkString #"hi"]) = Ok text
    /\ parse (text ++ #"+next") defaultRespValue = Ok (kReady, #"+next", (RespArr kArray [RespInt kInteger (-3); RespString kBulkString #"hi"])).
Proof. apply serialize_parse_roundtrip. vm_compute. reflexivity. Defined.
