(* ===== verification/LruShard.v ===== *)
(** * One cache shard: definitions

    [include/lruShard.hpp] and [src/lruShard.cpp].  The three containers of
    the class keep their aliasing: a node of [lru_list_] and an entry of
    [expire_map_] are designated by iterators ([LruIt], [ExpireIt]: allocation
    numbers, stable and never reused), [map_] and [expire_map_] hold iterators
    into [lru_list_], and each node holds an iterator into [expire_map_].
    Using a dead or end iterator is a fault.  The keys of [map_] are views of
    the keys of the nodes: a search or an insertion, which compares them, is a
    fault when one of them is dead.  [steady_clock::now()] is the
    argument [now] of the operations that read the clock ([ttl] reads it
    twice), in nanoseconds. *)

From S2P Require Import Prelude.

Definition Key := bytes.
Definition TimePoint := Z.
Definition LruIt := N.
Definition ExpireIt := N.

(** [expire_it = None] is [expire_map_.end()]. *)
Record Node := mkNode {
  key : bytes; value : bytes; expire_at : option TimePoint; expire_it : option ExpireIt }.

Inductive RemovalReason := kDelete | kEviction | kExpired.

(** [lru_list_] is in iteration order, front first; [expire_map_] is the
    [multimap] in its order.  [next_lru] and [next_expire] are the allocator's
    state. *)
Record LruShard := mkLruShard {
  map_ : gmap bytes LruIt;
  lru_list_ : list (LruIt * Node);
  expire_map_ : list (ExpireIt * (TimePoint * LruIt));
  max_memory_bytes_ : Z;
  used_payload_bytes_ : Z;
  evictions_ : Z;
  expired_ : Z;
  next_lru : N;
  next_expire : N }.

Record Stats := mkStats {
  used_payload_bytes : Z; key_count : Z; evictions : Z; expired : Z; max_memory_bytes : Z }.

Definition kDefaultMaxMemoryBytes : Z := 1024.

Definition newShard (max_memory_bytes : Z) : LruShard :=
  mkLruShard ∅ [] [] max_memory_bytes 0 0 0 0 0.

(** ** Functional updates *)

Definition set_map m s := mkLruShard m (lru_list_ s) (expire_map_ s) (max_memory_bytes_ s)
  (used_payload_bytes_ s) (evictions_ s) (expired_ s) (next_lru s) (next_expire s).
Definition set_list l s := mkLruShard (map_ s) l (expire_map_ s) (max_memory_bytes_ s)
  (used_payload_bytes_ s) (evictions_ s) (expired_ s) (next_lru s) (next_expire s).
Definition set_expire_map e s := mkLruShard (map_ s) (lru_list_ s) e (max_memory_bytes_ s)
  (used_payload_bytes_ s) (evictions_ s) (expired_ s) (next_lru s) (next_expire s).
Definition set_used u s := mkLruShard (map_ s) (lru_list_ s) (expire_map_ s) (max_memory_bytes_ s)
  u (evictions_ s) (expired_ s) (next_lru s) (next_expire s).
Definition set_counters ev ex s := mkLruShard (map_ s) (lru_list_ s) (expire_map_ s)
  (max_memory_bytes_ s) (used_payload_bytes_ s) ev ex (next_lru s) (next_expire s).

(** ** [std::list<Node>] *)

(** [*it] *)
Definition node_at (s : LruShard) (it : LruIt) : res Node :=
  of_option InvalidIterator (assoc it (lru_list_ s)).

(** Assignment through [Node& node = *it]. *)
Definition store_node (s : LruShard) (it : LruIt) (f : Node -> Node) : res LruShard :=
  _ ← node_at s it;
  mret (set_list (assoc_update it f (lru_list_ s)) s).

(** [lru_list_.splice(lru_list_.begin(), lru_list_, it)] *)
Definition splice_front (s : LruShard) (it : LruIt) : res LruShard :=
  node ← node_at s it;
  mret (set_list ((it, node) :: assoc_erase it (lru_list_ s)) s).

(** [lru_list_.erase(it)] *)
Definition list_erase (s : LruShard) (it : LruIt) : res LruShard :=
  _ ← node_at s it;
  mret (set_list (assoc_erase it (lru_list_ s)) s).

(** [lru_list_.push_front(node)]; returns [lru_list_.begin()]. *)
Definition push_front (s : LruShard) (node : Node) : LruIt * LruShard :=
  (next_lru s,
   mkLruShard (map_ s) ((next_lru s, node) :: lru_list_ s) (expire_map_ s) (max_memory_bytes_ s)
     (used_payload_bytes_ s) (evictions_ s) (expired_ s) (next_lru s + 1)%N (next_expire s)).

(** ** [std::multimap<TimePoint, LruIt>] *)

(** A new entry goes after the entries of equal or smaller time. *)
Fixpoint multimap_insert (e : ExpireIt) (t : TimePoint) (it : LruIt)
    (m : list (ExpireIt * (TimePoint * LruIt))) :=
  match m with
  | [] => [(e, (t, it))]
  | (e', (t', it')) :: m' =>
      if t' <=? t then (e', (t', it')) :: multimap_insert e t it m'
      else (e, (t, it)) :: m
  end.

(** [expire_map_.emplace(t, it)] *)
Definition expire_emplace (s : LruShard) (t : TimePoint) (it : LruIt) : ExpireIt * LruShard :=
  (next_expire s,
   mkLruShard (map_ s) (lru_list_ s) (multimap_insert (next_expire s) t it (expire_map_ s))
     (max_memory_bytes_ s) (used_payload_bytes_ s) (evictions_ s) (expired_ s)
     (next_lru s) (next_expire s + 1)%N).

(** [expire_map_.erase(e)] *)
Definition expire_erase (s : LruShard) (e : ExpireIt) : res LruShard :=
  _ ← of_option InvalidIterator (assoc e (expire_map_ s));
  mret (set_expire_map (assoc_erase e (expire_map_ s)) s).

(** [if (node.expire_it != expire_map_.end()) expire_map_.erase(node.expire_it);] *)
Definition expire_erase_if (s : LruShard) (e : option ExpireIt) : res LruShard :=
  match e with Some e => expire_erase s e | None => mret s end.

(** ** [boost::unordered_flat_map<std::string_view, LruIt, ...>] *)

(** [TransparentKeyEqual] *)
Definition TransparentKeyEqual (lhs rhs : bytes) : bool := bool_decide (lhs = rhs).

(** The view [k] in [map_] is of the key of the node at [it], which is alive. *)
Definition view_live (s : LruShard) (k : bytes) (it : LruIt) : Prop :=
  match assoc it (lru_list_ s) with Some node => TransparentKeyEqual (key node) k = true | None => False end.
#[global] Instance view_live_dec s k it : Decision (view_live s k it).
Proof. unfold view_live. destruct (assoc it (lru_list_ s)); apply _. Defined.

(** Which views are compared depends on their hashes: all must be alive. *)
Definition views_live (s : LruShard) : Prop := map_Forall (view_live s) (map_ s).
#[global] Instance views_live_dec s : Decision (views_live s).
Proof. unfold views_live. apply _. Defined.

(** [map_.find(key)]: [None] is [map_.end()]; otherwise the iterator points at
    the entry of [key], and this is its [second]. *)
Definition map_find (s : LruShard) (k : bytes) : res (option LruIt) :=
  _ ← check DanglingView (bool_decide (views_live s));
  mret (map_ s !! k).

(** [map_.emplace(std::string_view{it->key}, it)] *)
Definition map_emplace (s : LruShard) (it : LruIt) : res LruShard :=
  node ← node_at s it;
  _ ← check DanglingView (bool_decide (views_live s));
  mret (set_map (match map_ s !! key node with
                 | Some _ => map_ s
                 | None => <[key node := it]> (map_ s) end) s).

(** ** [std::chrono] *)

(** [steady_clock::now() + std::chrono::seconds(n)] for a [std::size_t n]: the
    count becomes [int64] seconds, then [int64] nanoseconds. *)
Definition after_seconds (now : TimePoint) (n : Z) : res TimePoint :=
  ns ← mul_i64 (i64 n) 1000000000;
  add_i64 now ns.

(** [is_expired], reading the clock when there is a deadline. *)
Definition is_expired (now : TimePoint) (expire_at : option TimePoint) : bool :=
  match expire_at with None => false | Some t => t <=? now end.

(** ** [LruShard] operations *)

Definition payload_bytes (node : Node) : Z := u64 (zlen (key node) + zlen (value node)).

(** [remove_key(it, reason)]: the map iterator is [end()] ([None]) or points
    at the entry of a key. *)
Definition remove_key (s : LruShard) (it : option bytes) (reason : RemovalReason) : res LruShard :=
  match it with
  | None => mret s
  | Some k =>
      node_it ← of_option InvalidIterator (map_ s !! k);
      node ← node_at s node_it;
      let removed_payload_bytes := payload_bytes node in
      s ← (match expire_it node with
           | Some e =>
               s ← expire_erase s e;
               store_node s node_it (fun n => mkNode (key n) (value n) (expire_at n) None)
           | None => mret s
           end);
      let s := set_map (delete k (map_ s)) s in
      s ← list_erase s node_it;
      let s :=
        if removed_payload_bytes <=? used_payload_bytes_ s
        then set_used (used_payload_bytes_ s - removed_payload_bytes) s
        else set_used 0 s in
      mret (match reason with
            | kEviction => set_counters (u64 (evictions_ s + 1)) (expired_ s) s
            | kExpired => set_counters (evictions_ s) (u64 (expired_ s + 1)) s
            | kDelete => s
            end)
  end.

Arguments remove_key : simpl never.

Definition evict_lru (s : LruShard) : res LruShard :=
  match last (lru_list_ s) with
  | None => mret s
  | Some (lru_it, node) =>
      map_it ← map_find s (key node);
      match map_it with
      | Some _ => remove_key s (Some (key node)) kEviction
      | None => list_erase s lru_it
      end
  end.

(** [while (used > max && !lru_list_.empty()) evict_lru();] *)
Fixpoint enforce_loop (fuel : nat) (s : LruShard) : res LruShard :=
  match fuel with
  | O => Fault OutOfFuel
  | S fuel =>
      if (max_memory_bytes_ s <? used_payload_bytes_ s) && bool_decide (lru_list_ s <> [])
      then s ← evict_lru s; enforce_loop fuel s
      else mret s
  end.

Definition enforce_max_memory (s : LruShard) : res LruShard :=
  enforce_loop (S (length (lru_list_ s))) s.
Arguments enforce_max_memory : simpl never.

Definition get (now : TimePoint) (k : bytes) (s : LruShard) : res (option bytes * LruShard) :=
  it ← map_find s k;
  match it with
  | None => mret (None, s)
  | Some node_it =>
      node ← node_at s node_it;
      if is_expired now (expire_at node) then
        s ← remove_key s (Some k) kExpired;
        mret (None, s)
      else
        s ← splice_front s node_it;
        mret (Some (value node), s)
  end.

(** The new [used_payload_bytes_] after a value was replaced (lines 90-99). *)
Definition adjust_used (used old_payload new_payload : Z) : Z :=
  if old_payload <=? new_payload then u64 (used + (new_payload - old_payload))
  else
    let diff := old_payload - new_payload in
    if diff <=? used then used - diff else 0.

(** Lines 83-114: the key is present at [node_it]. *)
Definition set_existing (k v : bytes) (expire_at' : option TimePoint) (node_it : LruIt)
    (s : LruShard) : res LruShard :=
  node ← node_at s node_it;
  let old_payload := payload_bytes node in
  s ← store_node s node_it (fun n => mkNode (key n) v (expire_at n) (expire_it n));
  node ← node_at s node_it;
  let new_payload := payload_bytes node in
  let s := set_used (adjust_used (used_payload_bytes_ s) old_payload new_payload) s in
  s ← expire_erase_if s (expire_it node);
  s ← (match expire_at' with
       | Some t =>
           let '(e, s) := expire_emplace s t node_it in
           store_node s node_it (fun n => mkNode (key n) (value n) (expire_at n) (Some e))
       | None => store_node s node_it (fun n => mkNode (key n) (value n) (expire_at n) None)
       end);
  s ← store_node s node_it (fun n => mkNode (key n) (value n) expire_at' (expire_it n));
  s ← splice_front s node_it;
  enforce_max_memory s.

(** Lines 117-127: the key is absent. *)
Definition set_new (k v : bytes) (expire_at' : option TimePoint) (s : LruShard) : res LruShard :=
  let '(node_it, s) := push_front s (mkNode k v expire_at' None) in
  s ← map_emplace s node_it;
  node ← node_at s node_it;
  let s := set_used (u64 (used_payload_bytes_ s + payload_bytes node)) s in
  s ← (match expire_at' with
       | Some t =>
           let '(e, s) := expire_emplace s t node_it in
           store_node s node_it (fun n => mkNode (key n) (value n) (expire_at n) (Some e))
       | None => mret s
       end);
  enforce_max_memory s.

Definition set (now : TimePoint) (k v : bytes) (expire_seconds : option Z) (s : LruShard)
    : res LruShard :=
  expire_at' ← (match expire_seconds with
                | Some n => t ← after_seconds now n; mret (Some t)
                | None => mret None
                end);
  it ← map_find s k;
  match it with
  | Some node_it => set_existing k v expire_at' node_it s
  | None => set_new k v expire_at' s
  end.

Definition del (k : bytes) (s : LruShard) : res (bool * LruShard) :=
  it ← map_find s k;
  let existed := bool_decide (it <> None) in
  s ← remove_key s ((fun _ => k) <$> it) kDelete;
  mret (existed, s).

Definition get_stats (s : LruShard) : Stats :=
  mkStats (used_payload_bytes_ s) (Z.of_nat (size (map_ s))) (evictions_ s) (expired_ s)
    (max_memory_bytes_ s).

Definition expire (now : TimePoint) (k : bytes) (seconds : Z) (s : LruShard)
    : res (bool * LruShard) :=
  it ← map_find s k;
  match it with
  | None => mret (false, s)
  | Some node_it =>
      node ← node_at s node_it;
      s ← expire_erase_if s (expire_it node);
      t ← after_seconds now seconds;
      s ← store_node s node_it (fun n => mkNode (key n) (value n) (Some t) (expire_it n));
      let '(e, s) := expire_emplace s t node_it in
      s ← store_node s node_it (fun n => mkNode (key n) (value n) (expire_at n) (Some e));
      mret (true, s)
  end.

Definition ttl (now now' : TimePoint) (k : bytes) (s : LruShard) : res (Z * LruShard) :=
  it ← map_find s k;
  match it with
  | None => mret (-2, s)
  | Some node_it =>
      node ← node_at s node_it;
      if is_expired now (expire_at node) then
        s ← remove_key s (Some k) kExpired;
        mret (-2, s)
      else
        match expire_at node with
        | None => mret (-1, s)
        | Some t =>
            remaining ← sub_i64 t now';
            let seconds := Z.quot remaining 1000000000 in
            mret (if 0 <? seconds then seconds else 0, s)
        end
  end.

(** The loop of [remove_expired_keys]: [it] is always [expire_map_.begin()]. *)
Fixpoint remove_expired_loop (fuel : nat) (now : TimePoint) (s : LruShard) : res LruShard :=
  match fuel with
  | O => Fault OutOfFuel
  | S fuel =>
      match expire_map_ s with
      | [] => mret s
      | (e, (t, node_it)) :: _ =>
          if t <=? now then
            s ← expire_erase s e;
            s ← store_node s node_it (fun n => mkNode (key n) (value n) (expire_at n) None);
            node ← node_at s node_it;
            map_it ← map_find s (key node);
            s ← (match map_it with
                 | Some _ => remove_key s (Some (key node)) kExpired
                 | None => mret s
                 end);
            remove_expired_loop fuel now s
          else mret s
      end
  end.

Definition remove_expired_keys (now : TimePoint) (s : LruShard) : res LruShard :=
  remove_expired_loop (S (length (expire_map_ s))) now s.

Definition get_next_expire_time (s : LruShard) : option TimePoint :=
  match expire_map_ s with [] => None | (_, (t, _)) :: _ => Some t end.

Example lru_eviction :
  (s ← set 0 #"a" #"11" None (newShard 6);
   s ← set 0 #"b" #"22" None s;
   '(_, s) ← get 0 #"a" s;
   s ← set 0 #"c" #"33" None s;
   mret ((fun p => key p.2) <$> lru_list_ s, evictions_ s, used_payload_bytes_ s))
  = Ok ([ #"c"; #"a"], 1, 6).
Proof. vm_compute. reflexivity. Qed.
