(* ===== verification/LruSpec.v ===== *)
(** * What a cache shard promises

    The abstract cache: a list of entries, most recently used first, a
    budget in payload bytes and two counters.  No iterators, no indexes and
    no running totals; [LruRefine] shows that [LruShard] implements it. *)

From S2P Require Import Prelude.

Record Entry := mkEntry { e_key : bytes; e_value : bytes; e_deadline : option Z }.

Record Cache := mkCache {
  entries : list Entry; budget : Z; evicted : Z; lapsed : Z }.

#[export] Instance Entry_eq_dec : EqDecision Entry.
Proof. solve_decision. Defined.

Definition empty_cache (b : Z) : Cache := mkCache [] b 0 0.

(** ** Entries *)

Definition size_of (e : Entry) : Z := zlen (e_key e) + zlen (e_value e).

Fixpoint total (es : list Entry) : Z :=
  match es with [] => 0 | e :: es => size_of e + total es end.

Fixpoint lookup_key (k : bytes) (es : list Entry) : option Entry :=
  match es with
  | [] => None
  | e :: es => if decide (e_key e = k) then Some e else lookup_key k es
  end.

Definition without (k : bytes) (es : list Entry) : list Entry :=
  filter (fun e => e_key e <> k) es.

(** An entry has lapsed once its deadline is reached. *)
Definition has_lapsed (now : Z) (e : Entry) : bool :=
  match e_deadline e with None => false | Some t => t <=? now end.

(** The longest prefix that fits a budget: eviction keeps the most recently
    used entries. *)
Fixpoint fit (b : Z) (es : list Entry) : list Entry :=
  match es with
  | [] => []
  | e :: es => if size_of e <=? b then e :: fit (b - size_of e) es else []
  end.

(** ** Operations *)

Definition c_get (now : Z) (k : bytes) (c : Cache) : option bytes * Cache :=
  match lookup_key k (entries c) with
  | None => (None, c)
  | Some e =>
      if has_lapsed now e
      then (None, mkCache (without k (entries c)) (budget c) (evicted c) (u64 (lapsed c + 1)))
      else (Some (e_value e),
            mkCache (e :: without k (entries c)) (budget c) (evicted c) (lapsed c))
  end.

Definition c_set (k v : bytes) (deadline : option Z) (c : Cache) : Cache :=
  let es := mkEntry k v deadline :: without k (entries c) in
  let kept := fit (budget c) es in
  mkCache kept (budget c) (u64 (evicted c + (zlen es - zlen kept))) (lapsed c).

Definition c_del (k : bytes) (c : Cache) : bool * Cache :=
  (bool_decide (is_Some (lookup_key k (entries c))),
   mkCache (without k (entries c)) (budget c) (evicted c) (lapsed c)).

Definition with_deadline (k : bytes) (t : Z) (e : Entry) : Entry :=
  if decide (e_key e = k) then mkEntry (e_key e) (e_value e) (Some t) else e.

Definition c_expire (k : bytes) (t : Z) (c : Cache) : bool * Cache :=
  (bool_decide (is_Some (lookup_key k (entries c))),
   mkCache (with_deadline k t <$> entries c) (budget c) (evicted c) (lapsed c)).

(** Whole seconds left at [now'], at least 0; -1 without a deadline, -2 when
    the key is absent or has lapsed at [now]. *)
Definition c_ttl (now now' : Z) (k : bytes) (c : Cache) : Z * Cache :=
  match lookup_key k (entries c) with
  | None => (-2, c)
  | Some e =>
      if has_lapsed now e
      then (-2, mkCache (without k (entries c)) (budget c) (evicted c) (u64 (lapsed c + 1)))
      else match e_deadline e with
           | None => (-1, c)
           | Some t => (Z.max 0 ((t - now') / 1000000000), c)
           end
  end.

Definition c_purge (now : Z) (c : Cache) : Cache :=
  let kept := filter (fun e => has_lapsed now e = false) (entries c) in
  mkCache kept (budget c) (evicted c) (u64 (lapsed c + (zlen (entries c) - zlen kept))).

(** ** Well-formed caches *)

Record cache_ok (c : Cache) : Prop := {
  ok_keys : NoDup (e_key <$> entries c);
  ok_total : total (entries c) <= budget c;
  ok_budget : 0 <= budget c < two64 }.

Lemma size_of_nonneg e : 0 <= size_of e.
Proof. unfold size_of. pose proof (zlen_nonneg (e_key e)). pose proof (zlen_nonneg (e_value e)). lia. Qed.
#[export] Hint Resolve size_of_nonneg : tiny.

Lemma total_nonneg es : 0 <= total es.
Proof. induction es as [|e es IH]; cbn; [lia|]. pose proof (size_of_nonneg e). lia. Qed.
#[export] Hint Resolve total_nonneg : tiny.

Lemma fit_all b es : total es <= b -> fit b es = es.
Proof.
  revert b. induction es as [|e es IH]; intros b; cbn; [done|]. intros H.
  pose proof (total_nonneg es). zcmp. by rewrite IH by lia.
Qed.

Lemma fit_snoc b es e : b < total (es ++ [e]) -> fit b (es ++ [e]) = fit b es.
Proof.
  revert b. induction es as [|e' es IH]; intros b H; cbn in *.
  - by zcmp.
  - destruct (Z.leb_spec (size_of e') b); [|done]. f_equal. apply IH. lia.
Qed.

Lemma fit_prefix b es : fit b es `prefix_of` es.
Proof.
  revert b. induction es as [|e es IH]; intros b; cbn; [done|].
  destruct (size_of e <=? b); [by apply prefix_cons|apply prefix_nil].
Qed.

(** Eviction stops as soon as it can. *)
Lemma fit_maximal b es e : fit b es ++ [e] `prefix_of` es -> b < total (fit b es ++ [e]).
Proof.
  revert b. induction es as [|e' es IH]; intros b; cbn.
  - intros ?%prefix_nil_inv. done.
  - destruct (Z.leb_spec (size_of e') b); cbn.
    + intros ?%prefix_cons_inv_2. specialize (IH _ H0). lia.
    + intros ?%prefix_cons_inv_1. subst. lia.
Qed.

Lemma lookup_key_Some k es e : lookup_key k es = Some e -> e ∈ es /\ e_key e = k.
Proof.
  induction es as [|e' es IH]; cbn; [done|]. case_decide.
  - intros [= <-]. split; [left|done].
  - intros [? ?]%IH. split; [by right|done].
Qed.

Lemma lookup_key_None k es : lookup_key k es = None <-> k ∉ e_key <$> es.
Proof.
  induction es as [|e es IH]; cbn; [split; [by intros _ ?%elem_of_nil|done]|].
  rewrite not_elem_of_cons. case_decide; [|rewrite IH]; intuition congruence.
Qed.

Lemma elem_lookup_key es e : NoDup (e_key <$> es) -> e ∈ es -> lookup_key (e_key e) es = Some e.
Proof.
  induction es as [|e' es IH]; cbn; [by intros _ ?%elem_of_nil|].
  intros [Hn Hd]%NoDup_cons [->|He]%elem_of_cons; [by rewrite decide_True|].
  rewrite decide_False; [auto|]. intros Hk. apply Hn. rewrite Hk. apply list_elem_of_fmap. eauto.
Qed.

Lemma without_absent k es : lookup_key k es = None -> without k es = es.
Proof.
  unfold without. induction es as [|e es IH]; [done|]. cbn [lookup_key]. rewrite filter_cons.
  destruct (decide (e_key e = k)), (decide (e_key e <> k)); try tauto; [done|].
  intros H. by rewrite IH.
Qed.

Lemma without_keys k es : e_key <$> without k es = filter (fun k' => k' <> k) (e_key <$> es).
Proof.
  unfold without. induction es as [|e es IH]; [done|].
  rewrite fmap_cons, !filter_cons, <- IH. by case_decide.
Qed.

Lemma without_notin k es : k ∉ e_key <$> without k es.
Proof. rewrite without_keys. by intros [? ?]%list_elem_of_filter. Qed.

Lemma without_lookup_eq k es : lookup_key k (without k es) = None.
Proof. apply lookup_key_None, without_notin. Qed.

Lemma without_lookup_ne k k' es : k <> k' -> lookup_key k (without k' es) = lookup_key k es.
Proof.
  intros Hne. unfold without. induction es as [|e es IH]; [done|]. rewrite filter_cons. cbn [lookup_key].
  destruct (decide (e_key e <> k')) as [Hk|Hk]; cbn [lookup_key].
  - by rewrite IH.
  - destruct (decide (e_key e = k)); [|done]. destruct Hk. congruence.
Qed.

Lemma with_deadline_key k t e : e_key (with_deadline k t e) = e_key e.
Proof. unfold with_deadline. by case_decide. Qed.

Lemma lookup_with_deadline k' k t es :
  lookup_key k' (with_deadline k t <$> es) = with_deadline k t <$> lookup_key k' es.
Proof.
  induction es as [|e es IH]; [done|]. cbn [fmap list_fmap lookup_key].
  rewrite with_deadline_key. by case_decide.
Qed.

Lemma lookup_with_deadline_eq k t es e :
  lookup_key k es = Some e ->
  lookup_key k (with_deadline k t <$> es) = Some (mkEntry k (e_value e) (Some t)).
Proof.
  intros He. rewrite lookup_with_deadline, He. apply lookup_key_Some in He as [_ <-].
  cbn. unfold with_deadline. by rewrite decide_True.
Qed.

Lemma lookup_with_deadline_ne k' k t es :
  k' <> k -> lookup_key k' (with_deadline k t <$> es) = lookup_key k' es.
Proof.
  intros Hne. rewrite lookup_with_deadline. destruct (lookup_key k' es) as [e|] eqn:He; [|done].
  apply lookup_key_Some in He as [_ <-]. cbn. unfold with_deadline. by rewrite decide_False.
Qed.
