(* ===== verification/LruInv.v ===== *)
(** * The representation invariant of a shard

    [Links]: the index, the recency list and the deadline multimap of an
    [LruShard] describe the same nodes through live iterators.  [Inv] adds
    the accounting and the memory bound.  The lemmas here show that each
    primitive rearrangement (remove a node, move it to the front, relink its
    deadline, push a new one) preserves [Links]; [LruRefine] assembles them. *)

From S2P Require Import Prelude LruShard LruSpec.

(** ** Abstraction *)

Definition entry_of (p : LruIt * Node) : Entry :=
  mkEntry (key p.2) (value p.2) (expire_at p.2).

Definition abs_entries (s : LruShard) : list Entry := entry_of <$> lru_list_ s.

Definition abs (s : LruShard) : Cache :=
  mkCache (abs_entries s) (max_memory_bytes_ s) (evictions_ s) (expired_ s).

(** ** Membership in the containers *)

Section Membership.
Context {K V : Type} `{!EqDecision K}.
  Implicit Types (k : K) (v : V) (l : list (K * V)).

Lemma elem_erase k k' v l : (k, v) ∈ assoc_erase k' l <-> (k, v) ∈ l /\ k <> k'.
Proof. unfold assoc_erase. rewrite list_elem_of_filter. cbn. tauto. Qed.

Lemma elem_update k k' v f l :
    (k, v) ∈ assoc_update k' f l
    <-> exists v0, (k, v0) ∈ l /\ v = if decide (k = k') then f v0 else v0.
Proof.
    unfold assoc_update. rewrite list_elem_of_fmap. split.
    - intros ([k0 v0] & H & Hin). cbn in H. exists v0.
      destruct (decide (k0 = k')) as [->|Hne]; injection H as -> ->;
        [by rewrite decide_True|by rewrite decide_False].
    - intros (v0 & Hin & ->). exists (k, v0). split; [|done]. cbn. by case_decide.
Qed.

Lemma NoDup_keys_inj k v v' l : NoDup l.*1 -> (k, v) ∈ l -> (k, v') ∈ l -> v = v'.
Proof. intros Hd H1%elem_assoc H2%elem_assoc; congruence. Qed.

Lemma elem_key k v l : (k, v) ∈ l -> k ∈ l.*1.
Proof. intros H. apply list_elem_of_fmap. by exists (k, v). Qed.

Lemma erase_update k f l : assoc_erase k (assoc_update k f l) = assoc_erase k l.
Proof.
    unfold assoc_erase, assoc_update. induction l as [|[k' v] l IH]; [done|].
    rewrite fmap_cons, !filter_cons. cbn. destruct (decide (k' = k)) as [->|]; cbn.
    - rewrite !decide_False by tauto. done.
    - rewrite !decide_True by done. by rewrite IH.
Qed.

Lemma update_update k f g l :
    assoc_update k g (assoc_update k f l) = assoc_update k (fun v => g (f v)) l.
Proof.
    unfold assoc_update. rewrite <- list_fmap_compose. apply list_fmap_ext.
    intros _ [k' v] _. cbn. destruct (decide (k' = k)) as [->|]; cbn; [by rewrite decide_True|by rewrite decide_False].
Qed.
End Membership.

Lemma elem_multimap x e t it m : x ∈ multimap_insert e t it m <-> x = (e, (t, it)) \/ x ∈ m.
Proof.
  induction m as [|[e' [t' it']] m IH]; cbn.
  - by rewrite list_elem_of_singleton, elem_of_nil; tauto.
  - case_match; rewrite !elem_of_cons; [rewrite IH|]; tauto.
Qed.

Definition deadlines (m : list (ExpireIt * (TimePoint * LruIt))) : list TimePoint :=
  (fun x => x.2.1) <$> m.

Lemma multimap_sorted e t it m :
  StronglySorted Z.le (deadlines m) -> StronglySorted Z.le (deadlines (multimap_insert e t it m)).
Proof.
  induction m as [|[e' [t' it']] m IH]; cbn; [by repeat constructor|].
  intros [Hs Hall]%StronglySorted_inv. destruct (Z.leb_spec t' t); cbn.
  - constructor; [auto|]. rewrite Forall_forall in *. intros x.
    unfold deadlines. rewrite list_elem_of_fmap. intros ([? []] & -> & [[= <- <- <-]|Hin]%elem_multimap); [done|].
    apply Hall. unfold deadlines. apply list_elem_of_fmap. eauto.
  - constructor; [by constructor|]. constructor; [lia|].
    eapply Forall_impl; [done|]. cbn. lia.
Qed.

Lemma erase_sorted e m :
  StronglySorted Z.le (deadlines m) -> StronglySorted Z.le (deadlines (assoc_erase e m)).
Proof.
  unfold assoc_erase. induction m as [|[e' [t' it']] m IH]; [done|].
  rewrite filter_cons. intros H. apply StronglySorted_inv in H as [Hs Hall].
  case_decide; [|auto]. constructor; [auto|]. rewrite Forall_forall in *. intros x Hx. apply Hall.
  apply list_elem_of_fmap in Hx as (y & -> & [_ ?]%list_elem_of_filter).
  apply list_elem_of_fmap. eauto.
Qed.

Lemma multimap_keys e t it m : (multimap_insert e t it m).*1 ≡ₚ e :: m.*1.
Proof.
  induction m as [|[e' [t' it']] m IH]; cbn; [done|]. case_match; cbn; [|done].
  rewrite IH. constructor.
Qed.

(** ** The invariant *)

Record Links (s : LruShard) : Prop := {
  list_nodup : NoDup (lru_list_ s).*1;
  map_iff : forall k p, map_ s !! k = Some p <-> exists n, (p, n) ∈ lru_list_ s /\ key n = k;
  exp_nodup : NoDup (expire_map_ s).*1;
  exp_sorted : StronglySorted Z.le (deadlines (expire_map_ s));
  exp_iff : forall e t p, (e, (t, p)) ∈ expire_map_ s
    <-> exists n, (p, n) ∈ lru_list_ s /\ expire_it n = Some e /\ expire_at n = Some t;
  node_expire : forall p n, (p, n) ∈ lru_list_ s -> (is_Some (expire_it n) <-> is_Some (expire_at n));
  lru_fresh : forall p, p ∈ (lru_list_ s).*1 -> (p < next_lru s)%N;
  exp_fresh : forall e, e ∈ (expire_map_ s).*1 -> (e < next_expire s)%N }.

Record Inv (s : LruShard) : Prop := {
  inv_links : Links s;
  inv_used : used_payload_bytes_ s = total (abs_entries s);
  inv_bound : used_payload_bytes_ s <= max_memory_bytes_ s;
  inv_max : 0 <= max_memory_bytes_ s < two64;
  inv_counters : 0 <= evictions_ s < two64 /\ 0 <= expired_ s < two64;
  inv_deadlines : forall p n t, (p, n) ∈ lru_list_ s -> expire_at n = Some t -> i64_min <= t <= i64_max }.

Lemma newShard_Inv m : 0 <= m < two64 -> Inv (newShard m).
Proof.
  intros Hm.
  split; [|done|cbn; lia|done|cbn; unfold two64; lia|by intros ? ? ? ?%elem_of_nil].
  split; cbn; try (by constructor); try (by intros ? ?%elem_of_nil); try (by intros ? ? ?%elem_of_nil).
  - intros k p. rewrite lookup_empty. split; [done|]. by intros (n & ?%elem_of_nil & _).
  - intros e t p. split; [by intros ?%elem_of_nil|]. by intros (n & ?%elem_of_nil & _).
Qed.

(** Views stay alive while the nodes they are of keep their keys. *)
Lemma views_live_mono s s' :
  views_live s -> map_ s' = map_ s ->
  (forall p n, assoc p (lru_list_ s) = Some n ->
     exists n', assoc p (lru_list_ s') = Some n' /\ key n' = key n) ->
  views_live s'.
Proof.
  intros H Hm Hkeep k p Hk. rewrite Hm in Hk. specialize (H k p Hk). unfold view_live in *.
  destruct (assoc p (lru_list_ s)) as [n|] eqn:E; [|done].
  destruct (Hkeep p n E) as (n' & -> & ->). done.
Qed.

Lemma map_find_live s k : views_live s -> map_find s k = Ok (map_ s !! k).
Proof. intros H. unfold map_find. by rewrite bool_decide_true. Qed.

Section LinksFacts.
Context (s : LruShard) (L : Links s).

Lemma node_at_elem p n : (p, n) ∈ lru_list_ s -> node_at s p = Ok n.
Proof. intros H. unfold node_at. by rewrite (elem_assoc _ _ _ (list_nodup _ L) H). Qed.

Lemma map_node k p : map_ s !! k = Some p -> exists n, (p, n) ∈ lru_list_ s /\ key n = k.
Proof. apply (map_iff _ L). Qed.

Lemma node_key p n : (p, n) ∈ lru_list_ s -> map_ s !! key n = Some p.
Proof. intros H. apply (map_iff _ L). eauto. Qed.

(** The views of the index are alive. *)
Lemma Links_views : views_live s.
Proof.
    intros k p Hk. destruct (map_node _ _ Hk) as (n & Hn & Hkey). unfold view_live.
    rewrite (elem_assoc _ _ _ (list_nodup _ L) Hn). unfold TransparentKeyEqual. by apply bool_decide_eq_true.
Qed.

Lemma Links_find k : map_find s k = Ok (map_ s !! k).
Proof. apply map_find_live, Links_views. Qed.

Lemma node_unique p n p' n' :
    (p, n) ∈ lru_list_ s -> (p', n') ∈ lru_list_ s -> key n = key n' -> p = p' /\ n = n'.
Proof.
    intros H1 H2 Hk. pose proof (node_key _ _ H1) as E1. pose proof (node_key _ _ H2) as E2.
    rewrite Hk, E2 in E1. injection E1 as <-. split; [done|].
    exact (NoDup_keys_inj _ _ _ _ (list_nodup _ L) H1 H2).
Qed.

Lemma node_expire_entry p n e :
    (p, n) ∈ lru_list_ s -> expire_it n = Some e ->
    exists t, expire_at n = Some t /\ assoc e (expire_map_ s) = Some (t, p).
Proof.
    intros H He. destruct (proj1 (node_expire _ L _ _ H) (ex_intro _ e He)) as [t Ht].
    exists t. split; [done|]. apply elem_assoc; [apply (exp_nodup _ L)|].
    apply (exp_iff _ L). eauto.
Qed.

Lemma abs_keys_NoDup : NoDup (e_key <$> abs_entries s).
Proof.
    unfold abs_entries. rewrite <- list_fmap_compose.
    pose proof (list_nodup _ L) as Hd.
    assert (Hu : forall x y, x ∈ lru_list_ s -> y ∈ lru_list_ s -> key x.2 = key y.2 -> x = y).
    { intros [p n] [p' n'] H1 H2 Hk. by destruct (node_unique _ _ _ _ H1 H2 Hk) as [-> ->]. }
    assert (Hd' : NoDup (lru_list_ s)) by by eapply NoDup_fmap_1.
    revert Hu Hd'. generalize (lru_list_ s) as l. induction l as [|x l IH]; cbn; [constructor|].
    intros Hu [Hx Hl]%NoDup_cons. apply NoDup_cons. split.
    - rewrite list_elem_of_fmap. intros (y & Hk & Hy). apply Hx.
      rewrite (Hu x y); [done|left|by right|done].
    - apply IH; [|done]. intros a b Ha Hb. apply Hu; by right.
Qed.

  (** Looking a key up in the index and in the abstract entries agree. *)
Lemma abs_lookup k :
    lookup_key k (abs_entries s)
    = match map_ s !! k with
      | Some p => entry_of <$> (pair p <$> assoc p (lru_list_ s))
      | None => None
      end.
Proof.
    destruct (map_ s !! k) as [p|] eqn:E.
    - destruct (map_node _ _ E) as (n & Hn & <-).
      rewrite (elem_assoc _ _ _ (list_nodup _ L) Hn). cbn.
      apply (elem_lookup_key _ (entry_of (p, n)) abs_keys_NoDup).
      apply list_elem_of_fmap. eauto.
    - apply lookup_key_None. unfold abs_entries. rewrite <- list_fmap_compose, list_elem_of_fmap.
      intros ([p n] & -> & H). cbn in E. by rewrite (node_key _ _ H) in E.
Qed.

Lemma abs_without p n :
    (p, n) ∈ lru_list_ s -> without (key n) (abs_entries s) = entry_of <$> assoc_erase p (lru_list_ s).
Proof.
    intros Hn. unfold without, abs_entries, assoc_erase.
    assert (Hu : forall x, x ∈ lru_list_ s -> (e_key (entry_of x) <> key n <-> x.1 <> p)).
    { intros [p' n'] H'. cbn. split; intros Hne Heq; apply Hne.
      - subst. by rewrite (NoDup_keys_inj _ _ _ _ (list_nodup _ L) H' Hn).
      - symmetry in Heq. by destruct (node_unique _ _ _ _ Hn H' Heq) as [-> _]. }
    revert Hu. generalize (lru_list_ s) as l. induction l as [|x l IH]; [done|].
    intros Hu. rewrite fmap_cons, !filter_cons, IH by (intros; apply Hu; by right).
    specialize (Hu x ltac:(left)). repeat case_decide; tauto || done.
Qed.
End LinksFacts.

Lemma map_size_nodes s : Links s -> size (map_ s) = length (lru_list_ s).
Proof.
  intros L. set (l := (fun p : LruIt * Node => (key p.2, p.1)) <$> lru_list_ s).
  assert (Hk : l.*1 = e_key <$> abs_entries s).
  { unfold l, abs_entries. rewrite <- !list_fmap_compose. done. }
  assert (Hd : NoDup l.*1) by (rewrite Hk; by apply abs_keys_NoDup).
  assert (map_ s = list_to_map l) as ->.
  { apply map_eq. intros k. apply option_eq. intros p.
    rewrite <- elem_of_list_to_map by done. rewrite (map_iff _ L). unfold l. rewrite list_elem_of_fmap.
    split; [intros (n & Hn & <-); by exists (p, n)|]. intros ([q n] & [= -> ->] & Hn). eauto. }
  rewrite map_size_list_to_map by done. apply length_fmap.
Qed.

(** ** Rearrangements that preserve [Links] *)

Definition erase_if (e : option ExpireIt) (m : list (ExpireIt * (TimePoint * LruIt))) :=
  match e with Some e => assoc_erase e m | None => m end.

Definition insert_if (e : ExpireIt) (t : option TimePoint) (p : LruIt) m :=
  match t with Some t => multimap_insert e t p m | None => m end.

(** The iterator of a node whose deadline entry was allocated as [e]. *)
Definition link_if (e : ExpireIt) (t : option TimePoint) : option ExpireIt :=
  match t with Some _ => Some e | None => None end.

Definition bump_if (t : option TimePoint) (e : N) : N :=
  match t with Some _ => (e + 1)%N | None => e end.

Lemma link_if_Some e t : is_Some (link_if e t) <-> is_Some t.
Proof. destruct t; cbn; [by split; intros; eexists|done]. Qed.

Lemma elem_erase_if x e m : x ∈ erase_if e m <-> x ∈ m /\ Some x.1 <> e.
Proof.
  destruct e as [e|]; cbn; [|naive_solver]. destruct x as [e' v]. rewrite elem_erase. cbn. naive_solver.
Qed.

Lemma elem_insert_if x e t p m : x ∈ insert_if e t p m <-> (exists t0, t = Some t0 /\ x = (e, (t0, p))) \/ x ∈ m.
Proof. destruct t as [t|]; cbn; [rewrite elem_multimap|]; naive_solver. Qed.

Lemma erase_if_NoDup e m : NoDup m.*1 -> NoDup (erase_if e m).*1.
Proof. destruct e; cbn; [apply assoc_erase_NoDup|done]. Qed.

Lemma erase_if_sorted e m :
  StronglySorted Z.le (deadlines m) -> StronglySorted Z.le (deadlines (erase_if e m)).
Proof. destruct e; cbn; [apply erase_sorted|done]. Qed.

Lemma insert_if_NoDup e t p m : NoDup m.*1 -> e ∉ m.*1 -> NoDup (insert_if e t p m).*1.
Proof.
  intros Hd He. destruct t; cbn; [|done]. rewrite multimap_keys. by apply NoDup_cons.
Qed.

Lemma insert_if_sorted e t p m :
  StronglySorted Z.le (deadlines m) -> StronglySorted Z.le (deadlines (insert_if e t p m)).
Proof. destruct t; cbn; [apply multimap_sorted|done]. Qed.

Lemma erase_if_keys e m k : k ∈ (erase_if e m).*1 -> k ∈ m.*1.
Proof.
  rewrite !list_elem_of_fmap. intros (x & -> & [? _]%elem_erase_if). eauto.
Qed.

Lemma insert_if_fresh e t p (m : list (ExpireIt * (TimePoint * LruIt))) k :
  (forall k, k ∈ m.*1 -> (k < e)%N) -> k ∈ (insert_if e t p m).*1 -> (k < bump_if t e)%N.
Proof.
  intros H Hk. apply list_elem_of_fmap in Hk as (x & -> & [(t0 & -> & ->)|Hx]%elem_insert_if); cbn; [lia|].
  assert (x.1 < e)%N by (apply H, list_elem_of_fmap; eauto). destruct t; cbn; lia.
Qed.

Section Rearrange.
Context (s s' : LruShard) (L : Links s).

Lemma fresh_exp_notin : next_expire s ∉ (expire_map_ s).*1.
Proof. intros H%(exp_fresh _ L). lia. Qed.

  (** Removing the node [p]. *)
Lemma Links_drop p n :
    (p, n) ∈ lru_list_ s ->
    map_ s' = delete (key n) (map_ s) -> lru_list_ s' = assoc_erase p (lru_list_ s) ->
    expire_map_ s' = erase_if (expire_it n) (expire_map_ s) ->
    next_lru s' = next_lru s -> next_expire s' = next_expire s -> Links s'.
Proof.
    intros Hn Hm Hl He Hnl Hne. split; rewrite ?Hm, ?Hl, ?He, ?Hnl, ?Hne.
    - apply assoc_erase_NoDup, (list_nodup _ L).
    - intros k q. rewrite lookup_delete_Some. setoid_rewrite elem_erase. rewrite (map_iff _ L). split.
      + intros (Hk & m & Hm' & <-). exists m. repeat split; try done. intros ->. apply Hk.
        by rewrite (NoDup_keys_inj _ _ _ _ (list_nodup _ L) Hm' Hn).
      + intros (m & [Hm' Hq] & <-). split; [|eauto]. intros Hk.
        destruct (node_unique _ L _ _ _ _ Hn Hm' Hk) as [-> _]. done.
    - apply erase_if_NoDup, (exp_nodup _ L).
    - apply erase_if_sorted, (exp_sorted _ L).
    - intros e t q. rewrite elem_erase_if. setoid_rewrite elem_erase. rewrite (exp_iff _ L). cbn. split.
      + intros ((m & Hm' & Hme & Hmt) & Hne'). exists m. repeat split; try done. intros ->.
        rewrite (NoDup_keys_inj _ _ _ _ (list_nodup _ L) Hm' Hn) in Hme. congruence.
      + intros (m & [Hm' Hq] & Hme & Hmt). split; [eauto|]. intros Heq.
        destruct (node_expire_entry _ L _ _ _ Hn (eq_sym Heq)) as (t1 & _ & H1).
        destruct (node_expire_entry _ L _ _ _ Hm' Hme) as (t2 & _ & H2). congruence.
    - intros q m [Hq _]%elem_erase. by apply (node_expire _ L q).
    - intros q Hq. apply (lru_fresh _ L). apply list_elem_of_fmap in Hq as ([q' m] & -> & [? _]%elem_erase).
      by eapply elem_key.
    - intros e ?%erase_if_keys. by apply (exp_fresh _ L).
Qed.

  (** Reordering the list. *)
Lemma Links_perm :
    lru_list_ s' ≡ₚ lru_list_ s -> map_ s' = map_ s -> expire_map_ s' = expire_map_ s ->
    next_lru s' = next_lru s -> next_expire s' = next_expire s -> Links s'.
Proof.
    intros Hl Hm He Hnl Hne. split; rewrite ?Hm, ?He, ?Hnl, ?Hne; try setoid_rewrite Hl; apply L.
Qed.

  (** Giving the node [p] a new value and a new deadline. *)
Lemma Links_relink p n n' :
    (p, n) ∈ lru_list_ s -> key n' = key n -> expire_it n' = link_if (next_expire s) (expire_at n') ->
    map_ s' = map_ s -> lru_list_ s' = assoc_update p (fun _ => n') (lru_list_ s) ->
    expire_map_ s' = insert_if (next_expire s) (expire_at n') p (erase_if (expire_it n) (expire_map_ s)) ->
    next_lru s' = next_lru s -> next_expire s' = bump_if (expire_at n') (next_expire s) -> Links s'.
Proof.
    intros Hn Hk Hit Hm Hl He Hnl Hne.
    assert (Hfresh : next_expire s ∉ (erase_if (expire_it n) (expire_map_ s)).*1).
    { intros ?%erase_if_keys. by apply fresh_exp_notin. }
    assert (Helem : forall q m, (q, m) ∈ lru_list_ s' <->
      (q <> p /\ (q, m) ∈ lru_list_ s) \/ (q = p /\ m = n')).
    { intros q m. rewrite Hl, elem_update. split.
      - intros (m0 & Hm0 & ->). case_decide; [by right|by left].
      - intros [[Hq Hqm]|[-> ->]]; [exists m; by rewrite decide_False|exists n; by rewrite decide_True]. }
    split; rewrite ?Hm, ?He, ?Hnl, ?Hne; rewrite ?Hl, ?assoc_update_keys; rewrite <- ?Hl.
    - apply (list_nodup _ L).
    - intros k q. rewrite (map_iff _ L). setoid_rewrite Helem. split.
      + intros (m & Hqm & <-). destruct (decide (q = p)) as [->|]; [|eauto 6].
        exists n'. rewrite (NoDup_keys_inj _ _ _ _ (list_nodup _ L) Hqm Hn). auto.
      + intros (m & [[Hq Hqm]|[-> ->]] & <-); [eauto|]. exists n. auto.
    - apply insert_if_NoDup; [|done]. apply erase_if_NoDup, (exp_nodup _ L).
    - apply insert_if_sorted, erase_if_sorted, (exp_sorted _ L).
    - intros e t q. rewrite elem_insert_if, elem_erase_if, (exp_iff _ L). cbn. setoid_rewrite Helem. split.
      + intros [(t0 & Ht & [= -> -> ->])|((m & Hqm & Hme & Hmt) & Hne')].
        * exists n'. rewrite Hit, Ht. auto.
        * exists m. split; [|done]. destruct (decide (q = p)) as [->|]; [|auto]. exfalso. apply Hne'.
          rewrite <- Hme. by rewrite (NoDup_keys_inj _ _ _ _ (list_nodup _ L) Hqm Hn).
      + intros (m & [[Hq Hqm]|[-> ->]] & Hme & Hmt).
        * right. split; [eauto|]. intros Heq.
          destruct (node_expire_entry _ L _ _ _ Hn (eq_sym Heq)) as (t1 & _ & H1).
          destruct (node_expire_entry _ L _ _ _ Hqm Hme) as (t2 & _ & H2). congruence.
        * left. rewrite Hit, Hmt in Hme. injection Hme as <-. eauto.
    - intros q m. rewrite Helem. intros [[_ Hqm]|[_ ->]]; [by apply (node_expire _ L q)|].
      rewrite Hit. apply link_if_Some.
    - apply (lru_fresh _ L).
    - intros e. apply insert_if_fresh. intros k ?%erase_if_keys. by apply (exp_fresh _ L).
Qed.

  (** A new node at the front. *)
Lemma Links_push n :
    map_ s !! key n = None -> expire_it n = link_if (next_expire s) (expire_at n) ->
    map_ s' = <[key n := next_lru s]> (map_ s) -> lru_list_ s' = (next_lru s, n) :: lru_list_ s ->
    expire_map_ s' = insert_if (next_expire s) (expire_at n) (next_lru s) (expire_map_ s) ->
    next_lru s' = (next_lru s + 1)%N -> next_expire s' = bump_if (expire_at n) (next_expire s) -> Links s'.
Proof.
    intros Hk Hit Hm Hl He Hnl Hne.
    assert (Hfresh : next_lru s ∉ (lru_list_ s).*1) by (intros ?%(lru_fresh _ L); lia).
    assert (Hnotin : forall m, (next_lru s, m) ∉ lru_list_ s) by (intros m ?%elem_key; done).
    split; rewrite ?Hm, ?Hl, ?He, ?Hnl, ?Hne.
    - cbn. apply NoDup_cons. split; [done|apply (list_nodup _ L)].
    - intros k q. rewrite lookup_insert_Some, (map_iff _ L). setoid_rewrite elem_of_cons. split.
      + intros [[<- <-]|(Hne' & m & Hqm & <-)]; eauto.
      + intros (m & [[= -> ->]|Hqm] & <-); [auto|]. right. split; [|eauto]. intros Heq.
        rewrite Heq, (node_key _ L _ _ Hqm) in Hk. done.
    - apply insert_if_NoDup; [apply (exp_nodup _ L)|apply fresh_exp_notin].
    - apply insert_if_sorted, (exp_sorted _ L).
    - intros e t q. rewrite elem_insert_if, (exp_iff _ L). setoid_rewrite elem_of_cons. split.
      + intros [(t0 & Ht & [= -> -> ->])|(m & Hqm & Hme & Hmt)]; [|eauto].
        exists n. rewrite Hit, Ht. auto.
      + intros (m & [[= -> ->]|Hqm] & Hme & Hmt); [|eauto].
        left. rewrite Hit, Hmt in Hme. injection Hme as <-. eauto.
    - intros q m [[= -> ->]|Hqm]%elem_of_cons; [|by apply (node_expire _ L q)].
      rewrite Hit. apply link_if_Some.
    - cbn. intros q [->|Hq]%elem_of_cons; [lia|]. apply (lru_fresh _ L) in Hq. lia.
    - intros e. apply insert_if_fresh. apply (exp_fresh _ L).
Qed.
End Rearrange.
