(* ===== verification/LruRefine.v ===== *)
(** * The shard implements the abstract cache

    Each operation of [LruShard], run on a state that satisfies [Inv],
    succeeds - no dead iterator, no loop out of fuel -, re-establishes [Inv]
    and has the result and the effect the abstract cache of [LruSpec]
    prescribes. *)

From S2P Require Import Prelude LruShard LruSpec LruInv.

(** ** Accounting *)

#[export] Instance total_Proper : Proper ((≡ₚ) ==> eq) total.
Proof. induction 1; cbn; lia. Qed.

(** The invariant while a [set] has not yet enforced the budget. *)
Record PreInv (s : LruShard) : Prop := {
  pre_links : Links s;
  pre_used : used_payload_bytes_ s = total (abs_entries s);
  pre_total : total (abs_entries s) < two64;
  pre_max : 0 <= max_memory_bytes_ s < two64;
  pre_counters : 0 <= evictions_ s < two64 /\ 0 <= expired_ s < two64;
  pre_deadlines : forall p n t, (p, n) ∈ lru_list_ s -> expire_at n = Some t -> i64_min <= t <= i64_max }.

Lemma Inv_PreInv s : Inv s -> PreInv s.
Proof. intros [L U B M C D]. split; [done|done| |done..]. rewrite <- U. lia. Qed.
#[export] Hint Resolve Inv_PreInv pre_links inv_links : tiny.

Lemma perm_front {V} p (n : V) (l : list (LruIt * V)) :
  NoDup l.*1 -> (p, n) ∈ l -> (p, n) :: assoc_erase p l ≡ₚ l.
Proof.
  unfold assoc_erase. induction l as [|[q m] l IH]; [by intros _ ?%elem_of_nil|].
  cbn [fmap list_fmap fst]. intros [Hq Hd]%NoDup_cons [[= -> ->]|Hin]%elem_of_cons; rewrite filter_cons; cbn [fst].
  - rewrite decide_False by tauto. f_equiv.
    enough (filter (fun x : LruIt * V => x.1 <> q) l = l) as -> by done.
    apply (assoc_erase_notin (V := V) q). by apply assoc_None.
  - rewrite decide_True.
    + rewrite Permutation_swap. f_equiv. by apply IH.
    + intros ->. apply Hq. by eapply elem_key.
Qed.

Lemma abs_total_front s p n :
  Links s -> (p, n) ∈ lru_list_ s ->
  total (abs_entries s) = size_of (entry_of (p, n)) + total (entry_of <$> assoc_erase p (lru_list_ s)).
Proof.
  intros L H. unfold abs_entries. by rewrite <- (perm_front _ _ _ (list_nodup _ L) H) at 1.
Qed.

Lemma payload_size s p n :
  PreInv s -> (p, n) ∈ lru_list_ s -> payload_bytes n = size_of (entry_of (p, n)).
Proof.
  intros I H. unfold payload_bytes. apply u64_small.
  pose proof (abs_total_front _ _ _ (pre_links _ I) H) as Ht. pose proof (pre_total _ I).
  pose proof (total_nonneg (entry_of <$> assoc_erase p (lru_list_ s))).
  unfold size_of in *. cbn in *. pose proof (zlen_nonneg (key n)). pose proof (zlen_nonneg (value n)). lia.
Qed.

(** ** [remove_key] *)

Definition drop_used (used payload : Z) : Z := if payload <=? used then used - payload else 0.

Definition removed (s : LruShard) (k : bytes) (p : LruIt) (n : Node) (reason : RemovalReason) : LruShard :=
  mkLruShard (delete k (map_ s)) (assoc_erase p (lru_list_ s))
    (erase_if (expire_it n) (expire_map_ s)) (max_memory_bytes_ s)
    (drop_used (used_payload_bytes_ s) (payload_bytes n))
    (match reason with kEviction => u64 (evictions_ s + 1) | _ => evictions_ s end)
    (match reason with kExpired => u64 (expired_ s + 1) | _ => expired_ s end)
    (next_lru s) (next_expire s).

Lemma remove_key_eval s k p n reason :
  map_ s !! k = Some p -> assoc p (lru_list_ s) = Some n ->
  (forall e, expire_it n = Some e -> is_Some (assoc e (expire_map_ s))) ->
  remove_key s (Some k) reason = Ok (removed s k p n reason).
Proof.
  intros Hk Hn He. unfold remove_key. rewrite Hk. cbn [of_option mbind res_bind].
  unfold node_at at 1. rewrite Hn. cbn [of_option mbind res_bind].
  unfold removed, drop_used, erase_if. destruct (expire_it n) as [e|] eqn:E.
  - destruct (He e eq_refl) as [x Hx]. unfold expire_erase. rewrite Hx. cbn.
    unfold store_node, node_at. cbn. rewrite Hn. cbn. unfold list_erase, node_at. cbn.
    rewrite assoc_update_lookup, decide_True, Hn by done. cbn. rewrite erase_update.
    by destruct (payload_bytes n <=? used_payload_bytes_ s), reason.
  - cbn. unfold list_erase, node_at. cbn. rewrite Hn. cbn.
    by destruct (payload_bytes n <=? used_payload_bytes_ s), reason.
Qed.

Lemma remove_key_node s p n reason :
  Links s -> (p, n) ∈ lru_list_ s ->
  remove_key s (Some (key n)) reason = Ok (removed s (key n) p n reason).
Proof.
  intros L H. apply remove_key_eval.
  - by apply node_key.
  - apply elem_assoc; [apply L|done].
  - intros e He. destruct (node_expire_entry _ L _ _ _ H He) as (t & _ & ->). eauto.
Qed.

Lemma removed_PreInv s p n reason :
  PreInv s -> (p, n) ∈ lru_list_ s -> PreInv (removed s (key n) p n reason).
Proof.
  intros I H. pose proof (pre_links _ I) as L.
  pose proof (abs_total_front _ _ _ L H) as Ht. pose proof (payload_size _ _ _ I H) as Hp.
  pose proof (size_of_nonneg (entry_of (p, n))).
  pose proof (total_nonneg (entry_of <$> assoc_erase p (lru_list_ s))).
  destruct I as [_ U T M [C1 C2] D]. split.
  - by apply (Links_drop s _ L p n).
  - unfold abs_entries, removed, drop_used. cbn. rewrite Hp, U, Ht. zcmp. lia.
  - unfold abs_entries, removed. cbn. lia.
  - done.
  - cbn. pose proof (u64_bound (evictions_ s + 1)). pose proof (u64_bound (expired_ s + 1)).
    by destruct reason.
  - intros q m t [Hq _]%elem_erase. by apply (D q).
Qed.

Lemma removed_abs s p n reason :
  Links s -> (p, n) ∈ lru_list_ s ->
  abs_entries (removed s (key n) p n reason) = without (key n) (abs_entries s).
Proof. intros L H. by rewrite (abs_without _ L _ _ H). Qed.

Lemma removed_Inv s p n reason :
  Inv s -> (p, n) ∈ lru_list_ s -> Inv (removed s (key n) p n reason).
Proof.
  intros I H. destruct (removed_PreInv s p n reason (Inv_PreInv _ I) H) as [L U T M C D].
  split; [done|done| |done..]. cbn. unfold drop_used. pose proof (inv_bound _ I). pose proof (inv_max _ I).
  pose proof (u64_bound (zlen (key n) + zlen (value n))). unfold payload_bytes. case_match; lia.
Qed.

(** ** Eviction *)

Lemma list_last_inv {A} (l : list A) : l = [] \/ exists l' x, l = l' ++ [x] /\ last l = Some x.
Proof.
  destruct l as [|x l _] using rev_ind; [by left|right]. exists l, x. by rewrite last_snoc.
Qed.

Lemma evict_lru_spec s l p n :
  PreInv s -> lru_list_ s = l ++ [(p, n)] ->
  exists s', evict_lru s = Ok s' /\ PreInv s' /\ lru_list_ s' = l
    /\ max_memory_bytes_ s' = max_memory_bytes_ s
    /\ evictions_ s' = u64 (evictions_ s + 1) /\ expired_ s' = expired_ s.
Proof.
  intros I Hl. pose proof (pre_links _ I) as L.
  assert (Hn : (p, n) ∈ lru_list_ s) by (rewrite Hl; apply elem_of_app; right; left).
  exists (removed s (key n) p n kEviction). split; [|split; [by apply removed_PreInv|]].
  - unfold evict_lru. rewrite Hl, last_snoc.
    rewrite (Links_find _ L), (node_key _ L _ _ Hn). by apply remove_key_node.
  - split; [|done]. cbn. rewrite Hl. unfold assoc_erase. rewrite filter_app, filter_cons.
    cbn. rewrite decide_False by tauto. rewrite app_nil_r.
    apply (assoc_erase_notin p), assoc_None. pose proof (list_nodup _ L) as Hd.
    rewrite Hl, fmap_app, NoDup_app in Hd. destruct Hd as (_ & Hd & _). intros Hp.
    apply (Hd p Hp). left.
Qed.

Lemma enforce_loop_spec fuel s :
  PreInv s -> (length (lru_list_ s) < fuel)%nat ->
  exists s', enforce_loop fuel s = Ok s' /\ Inv s'
    /\ abs s' = mkCache (fit (max_memory_bytes_ s) (abs_entries s)) (max_memory_bytes_ s)
        (u64 (evictions_ s
              + (zlen (abs_entries s) - zlen (fit (max_memory_bytes_ s) (abs_entries s)))))
        (expired_ s).
Proof.
  revert s. induction fuel as [|fuel IH]; intros s I Hf; [lia|]. cbn [enforce_loop].
  pose proof (pre_used _ I) as U. pose proof (pre_max _ I).
  destruct (Z.ltb_spec (max_memory_bytes_ s) (used_payload_bytes_ s)) as [Hlt|Hle]; cbn [andb].
  - destruct (list_last_inv (lru_list_ s)) as [Hnil|(l & [p n] & Hl & _)].
    { exfalso. unfold abs_entries in U. rewrite Hnil in U. cbn in U. lia. }
    rewrite bool_decide_true by (rewrite Hl; by destruct l).
    destruct (evict_lru_spec s l p n I Hl) as (s1 & -> & I1 & Hl1 & Hm1 & He1 & Hx1).
    cbn [mbind res_bind].
    assert (Habs : abs_entries s = abs_entries s1 ++ [entry_of (p, n)]).
    { unfold abs_entries. by rewrite Hl, Hl1, fmap_app. }
    destruct (IH s1 I1) as (s' & Hs' & I' & A').
    { rewrite Hl1. rewrite Hl, length_app in Hf. cbn in Hf. lia. }
    exists s'. split; [done|]. split; [done|]. rewrite A', Hm1, Hx1, He1, Habs.
    rewrite fit_snoc by (rewrite <- Habs; lia). f_equal.
    rewrite zlen_app, zlen_cons, zlen_nil. unfold u64. rewrite Zplus_mod_idemp_l. f_equal. lia.
  - exists s. split; [done|]. split; [split; (done || apply I)|].
    unfold abs. rewrite (fit_all _ (abs_entries s)) by lia. f_equal.
    rewrite Z.sub_diag, Z.add_0_r. by rewrite u64_small by apply (pre_counters _ I).
Qed.

Lemma enforce_max_memory_spec s :
  PreInv s ->
  exists s', enforce_max_memory s = Ok s' /\ Inv s'
    /\ abs s' = mkCache (fit (max_memory_bytes_ s) (abs_entries s)) (max_memory_bytes_ s)
        (u64 (evictions_ s
              + (zlen (abs_entries s) - zlen (fit (max_memory_bytes_ s) (abs_entries s)))))
        (expired_ s).
Proof. intros I. apply enforce_loop_spec; [done|lia]. Qed.

(** ** Refinement of the operations *)

(** [m] succeeds in a state that satisfies [Inv], with the result and the
    abstract state [r] prescribes. *)
Definition refines {A} (m : res (A * LruShard)) (r : A * Cache) : Prop :=
  exists s', m = Ok (r.1, s') /\ Inv s' /\ abs s' = r.2.

(** [m] does what [r] prescribes: it succeeds so, or it has the fault of [r]. *)
Definition implements {A} (m : res (A * LruShard)) (r : res (A * Cache)) : Prop :=
  match r with Ok r => refines m r | Fault f => m = Fault f end.

Lemma is_expired_lapsed now p n : is_expired now (expire_at n) = has_lapsed now (entry_of (p, n)).
Proof. done. Qed.

(** The node an operation on a key works on, or its absence. *)
Lemma find_cases s k :
  Links s ->
  (map_ s !! k = None /\ lookup_key k (abs_entries s) = None)
  \/ exists p n, map_ s !! k = Some p /\ (p, n) ∈ lru_list_ s /\ key n = k
      /\ node_at s p = Ok n /\ lookup_key k (abs_entries s) = Some (entry_of (p, n)).
Proof.
  intros L. pose proof (abs_lookup _ L k) as Ha. destruct (map_ s !! k) as [p|] eqn:E; [right|by left].
  destruct (map_node _ L _ _ E) as (n & Hn & Hk). exists p, n.
  rewrite (elem_assoc _ _ _ (list_nodup _ L) Hn) in Ha.
  split; [done|]. split; [done|]. split; [done|]. split; [by apply node_at_elem|done].
Qed.

Lemma splice_front_spec s p n :
  Inv s -> (p, n) ∈ lru_list_ s ->
  exists s', splice_front s p = Ok s' /\ Inv s'
    /\ abs s' = mkCache (entry_of (p, n) :: without (key n) (abs_entries s))
                  (max_memory_bytes_ s) (evictions_ s) (expired_ s).
Proof.
  intros I H. pose proof (inv_links _ I) as L. unfold splice_front.
  rewrite (node_at_elem _ L _ _ H). cbn. eexists. split; [done|]. split.
  - split; try apply I.
    + apply (Links_perm s); try done. cbn. apply perm_front; [apply L|done].
    + cbn. rewrite (inv_used _ I). unfold abs_entries. cbn.
      by rewrite <- (perm_front _ _ _ (list_nodup _ L) H) at 1.
    + cbn. setoid_rewrite (perm_front _ _ _ (list_nodup _ L) H). apply I.
  - unfold abs. cbn. by rewrite (abs_without _ L _ _ H).
Qed.

Lemma remove_expired_spec s p n :
  Inv s -> (p, n) ∈ lru_list_ s ->
  exists s', remove_key s (Some (key n)) kExpired = Ok s' /\ Inv s'
    /\ abs s' = mkCache (without (key n) (abs_entries s)) (max_memory_bytes_ s)
                  (evictions_ s) (u64 (expired_ s + 1)).
Proof.
  intros I H. pose proof (inv_links _ I) as L. eexists. split; [by apply remove_key_node|].
  split; [by apply removed_Inv|]. unfold abs. by rewrite removed_abs.
Qed.

Theorem get_refines now k s : Inv s -> refines (get now k s) (c_get now k (abs s)).
Proof.
  intros I. unfold get, c_get, refines. rewrite (Links_find _ (inv_links _ I)). cbn [abs entries mbind res_bind].
  destruct (find_cases s k (inv_links _ I)) as [[-> ->]|(p & n & -> & Hn & <- & -> & ->)].
  - by exists s.
  - cbn [mbind res_bind]. rewrite (is_expired_lapsed _ p). destruct (has_lapsed now _).
    + destruct (remove_expired_spec s p n I Hn) as (s' & -> & I' & A'). by exists s'.
    + destruct (splice_front_spec s p n I Hn) as (s' & -> & I' & A'). by exists s'.
Qed.

Theorem del_refines k s : Inv s -> refines (del k s) (c_del k (abs s)).
Proof.
  intros I. unfold del, c_del, refines. rewrite (Links_find _ (inv_links _ I)). cbn [abs entries mbind res_bind].
  destruct (find_cases s k (inv_links _ I)) as [[-> E]|(p & n & -> & Hn & <- & _ & ->)].
  - exists s. rewrite E. cbn. split; [done|]. split; [done|]. by rewrite (without_absent _ _ E).
  - rewrite (remove_key_node s p n _ (inv_links _ I) Hn). eexists. split; [done|].
    split; [by apply removed_Inv|]. unfold abs. by rewrite removed_abs by (done || apply I).
Qed.

Theorem ttl_refines now now' k s :
  Inv s -> 0 <= now <= now' -> now' <= i64_max ->
  refines (ttl now now' k s) (c_ttl now now' k (abs s)).
Proof.
  intros I Hnow Hmax. unfold ttl, c_ttl, refines. rewrite (Links_find _ (inv_links _ I)). cbn [abs entries mbind res_bind].
  destruct (find_cases s k (inv_links _ I)) as [[-> ->]|(p & n & -> & Hn & <- & -> & El)].
  { by exists s. }
  rewrite El. cbn [mbind res_bind]. rewrite (is_expired_lapsed _ p). unfold has_lapsed.
  cbn [entry_of e_deadline snd]. destruct (expire_at n) as [t|] eqn:Et; [|by exists s].
  pose proof (inv_deadlines _ I _ _ _ Hn Et) as Hd.
  destruct (Z.leb_spec t now).
  - destruct (remove_expired_spec s p n I Hn) as (s' & -> & I' & A'). by exists s'.
  - unfold sub_i64. rewrite checked_Ok by (unfold i64_min, i64_max in *; lia).
    cbn [mbind res_bind]. exists s. split; [|done]. do 2 f_equal. cbn [fst].
    destruct (Z.le_gt_cases 0 (t - now')).
    + rewrite Z.quot_div_nonneg by lia. pose proof (Z.div_pos (t - now') 1000000000). case_match; lia.
    + pose proof (Z.quot_opp_l (t - now') 1000000000 ltac:(lia)).
      pose proof (Z.quot_pos (- (t - now')) 1000000000 ltac:(lia) ltac:(lia)).
      assert ((t - now') / 1000000000 < 0) by (apply Z.div_lt_upper_bound; lia).
      zcmp. lia.
Qed.

(** ** [set] *)

Definition in_range (t : option TimePoint) : Prop :=
  forall t', t = Some t' -> i64_min <= t' <= i64_max.

(** The state in which [set_existing] enforces the budget. *)
Definition relinked (s : LruShard) (p : LruIt) (n : Node) (v : bytes) (t : option TimePoint) : LruShard :=
  let n' := mkNode (key n) v t (link_if (next_expire s) t) in
  mkLruShard (map_ s) ((p, n') :: assoc_erase p (lru_list_ s))
    (insert_if (next_expire s) t p (erase_if (expire_it n) (expire_map_ s)))
    (max_memory_bytes_ s)
    (adjust_used (used_payload_bytes_ s) (payload_bytes n) (payload_bytes (mkNode (key n) v None None)))
    (evictions_ s) (expired_ s) (next_lru s) (bump_if t (next_expire s)).

Lemma set_existing_eval s p n v t k :
  Links s -> (p, n) ∈ lru_list_ s ->
  set_existing k v t p s = enforce_max_memory (relinked s p n v t).
Proof.
  intros L H. pose proof (elem_assoc _ _ _ (list_nodup _ L) H) as Hn.
  assert (He : forall e, expire_it n = Some e -> exists x, assoc e (expire_map_ s) = Some x).
  { intros e He. destruct (node_expire_entry _ L _ _ _ H He) as (t0 & _ & E). eauto. }
  unfold set_existing, store_node, splice_front, node_at, relinked. rewrite Hn. cbn.
  repeat (rewrite ?assoc_update_lookup, ?decide_True, ?Hn by done; cbn).
  destruct n as [kn vn tn [e|]]; cbn in *.
  - destruct (He e eq_refl) as [x Hx]. unfold expire_erase. cbn. rewrite Hx. cbn.
    destruct t as [t|]; cbn;
      repeat (rewrite ?update_update, ?assoc_update_lookup, ?decide_True, ?Hn by done; cbn);
      by rewrite !erase_update.
  - destruct t as [t|]; cbn;
      repeat (rewrite ?update_update, ?assoc_update_lookup, ?decide_True, ?Hn by done; cbn);
      by rewrite !erase_update.
Qed.

Lemma adjust_used_eq used rest old new :
  used = old + rest -> 0 <= old -> 0 <= new -> 0 <= rest -> new + rest < two64 ->
  adjust_used used old new = new + rest.
Proof.
  intros -> ? ? ? ?. unfold adjust_used. destruct (Z.leb_spec old new).
  - rewrite u64_small by lia. lia.
  - zcmp. lia.
Qed.

Lemma update_front {V} p (n n' : V) (l : list (LruIt * V)) :
  NoDup l.*1 -> (p, n) ∈ l -> assoc_update p (fun _ => n') l ≡ₚ (p, n') :: assoc_erase p l.
Proof.
  intros Hd H. rewrite <- (erase_update p (fun _ => n') l). symmetry. apply perm_front.
  - by rewrite assoc_update_keys.
  - apply elem_update. exists n. by rewrite decide_True.
Qed.

Lemma relinked_PreInv s p n v t :
  Inv s -> (p, n) ∈ lru_list_ s -> in_range t ->
  max_memory_bytes_ s + (zlen (key n) + zlen v) < two64 -> PreInv (relinked s p n v t).
Proof.
  intros I H Ht Hb. pose proof (inv_links _ I) as L. set (n' := mkNode (key n) v t (link_if (next_expire s) t)).
  pose proof (abs_total_front _ _ _ L H) as Htot. pose proof (inv_used _ I). pose proof (inv_bound _ I).
  pose proof (size_of_nonneg (entry_of (p, n))). pose proof (total_nonneg (entry_of <$> assoc_erase p (lru_list_ s))).
  pose proof (zlen_nonneg (key n)). pose proof (zlen_nonneg v). pose proof (inv_max _ I).
  split; try apply I.
  - apply (Links_perm (set_list (assoc_update p (fun _ => n') (lru_list_ s)) (relinked s p n v t))); try done.
    + by apply (Links_relink s _ L p n n').
    + cbn. fold n'. symmetry. by eapply update_front; [apply L|].
  - unfold abs_entries, relinked. cbn. rewrite (payload_size s p n (Inv_PreInv _ I) H).
    unfold payload_bytes. cbn. rewrite u64_small by lia. unfold size_of at 2. cbn.
    apply adjust_used_eq; lia.
  - unfold abs_entries, relinked. cbn. unfold size_of at 1. cbn. lia.
  - cbn. intros q m t' [[= -> ->]|Hq]%elem_of_cons Ht'; [by apply Ht|].
    apply elem_erase in Hq as [Hq _]. by apply (inv_deadlines _ I q m).
Qed.

(** The state in which [set_new] enforces the budget. *)
Definition pushed (s : LruShard) (k v : bytes) (t : option TimePoint) : LruShard :=
  mkLruShard (<[k := next_lru s]> (map_ s))
    ((next_lru s, mkNode k v t (link_if (next_expire s) t)) :: lru_list_ s)
    (insert_if (next_expire s) t (next_lru s) (expire_map_ s)) (max_memory_bytes_ s)
    (u64 (used_payload_bytes_ s + payload_bytes (mkNode k v None None)))
    (evictions_ s) (expired_ s) (next_lru s + 1)%N (bump_if t (next_expire s)).

Lemma assoc_fresh s : Links s -> assoc (next_lru s : LruIt) (lru_list_ s) = None.
Proof. intros L. apply assoc_None. intros ?%(lru_fresh _ L). lia. Qed.

Lemma emplace_pushed s node :
  Links s -> map_ s !! key node = None ->
  let s1 := (push_front s node).2 in
  map_emplace s1 (next_lru s) = Ok (set_map (<[key node := next_lru s]> (map_ s)) s1).
Proof.
  intros L Hk s1. unfold map_emplace, node_at. cbn [s1 push_front snd lru_list_ assoc].
  rewrite decide_True by done. cbn [of_option mbind res_bind]. rewrite bool_decide_true.
  - cbn [map_ check mbind res_bind]. by rewrite Hk.
  - apply (views_live_mono s); [by apply Links_views|done|]. intros p n Hp. exists n. split; [|done].
    cbn. rewrite decide_False; [done|]. intros E. pose proof (assoc_fresh _ L). congruence.
Qed.

Lemma set_new_eval s k v t :
  Links s -> map_ s !! k = None -> set_new k v t s = enforce_max_memory (pushed s k v t).
Proof.
  intros L Hk. pose proof (assoc_fresh _ L) as Hfresh.
  unfold set_new. destruct (push_front s (mkNode k v t None)) as [it s1] eqn:E.
  pose proof (emplace_pushed s (mkNode k v t None) L Hk) as He. cbn zeta in He. rewrite E in He. cbn [snd] in He.
  injection E as <- <-. rewrite He. unfold store_node, node_at, pushed. cbn.
  rewrite decide_True by done. cbn. destruct t as [t|]; cbn; [|done].
  rewrite assoc_update_cons. cbn.
  by rewrite assoc_update_notin.
Qed.

Lemma pushed_PreInv s k v t :
  Inv s -> map_ s !! k = None -> in_range t ->
  max_memory_bytes_ s + (zlen k + zlen v) < two64 -> PreInv (pushed s k v t).
Proof.
  intros I Hk Ht Hb. pose proof (inv_used _ I). pose proof (inv_bound _ I). pose proof (inv_max _ I).
  pose proof (total_nonneg (abs_entries s)). pose proof (zlen_nonneg k). pose proof (zlen_nonneg v).
  split; try apply I.
  - by apply (Links_push s _ (inv_links _ I) (mkNode k v t (link_if (next_expire s) t))).
  - unfold abs_entries, pushed, payload_bytes. cbn. rewrite (u64_small (zlen k + zlen v)) by lia.
    rewrite u64_small by lia. unfold size_of at 1. cbn. fold (abs_entries s). lia.
  - unfold abs_entries, pushed. cbn. unfold size_of at 1. cbn. fold (abs_entries s). lia.
  - cbn. intros q m t' [[= -> ->]|Hq]%elem_of_cons Ht'; [by apply Ht|]. by apply (inv_deadlines _ I q m).
Qed.

(** The deadline [set] and [expire] compute, when it is defined. *)
Definition deadline_after (now : TimePoint) (seconds : option Z) : option (option TimePoint) :=
  match seconds with
  | None => Some None
  | Some n => match after_seconds now n with Ok t => Some (Some t) | Fault _ => None end
  end.

Lemma after_seconds_range now n t : after_seconds now n = Ok t -> i64_min <= t <= i64_max.
Proof.
  unfold after_seconds, mul_i64, add_i64. intros H. apply bind_Ok in H as (ns & _ & H).
  apply checked_inv in H as [-> H]. done.
Qed.

(** The deadline of [seconds], unless its computation overflows. *)
Definition deadline_of (now : TimePoint) (seconds : Z) : option TimePoint :=
  match after_seconds now seconds with Ok t => Some t | Fault _ => None end.

Lemma after_seconds_cases now n :
  after_seconds now n = match deadline_of now n with Some t => Ok t | None => Fault SignedOverflow end.
Proof.
  unfold deadline_of, after_seconds, mul_i64, add_i64, checked.
  destruct (in_i64 (i64 n * _)); [|done]. cbn [mbind res_bind]. by destruct (in_i64 (now + _)).
Qed.

Lemma set_overflows now k v n s : deadline_of now n = None -> set now k v (Some n) s = Fault SignedOverflow.
Proof. intros H. unfold set. by rewrite after_seconds_cases, H. Qed.

Theorem set_refines now k v seconds t s :
  Inv s -> deadline_after now seconds = Some t ->
  max_memory_bytes_ s + (zlen k + zlen v) < two64 ->
  exists s', set now k v seconds s = Ok s' /\ Inv s' /\ abs s' = c_set k v t (abs s).
Proof.
  intros I Ht Hb. assert (Hr : in_range t).
  { destruct seconds as [n|]; cbn in Ht; [|by simplify_eq].
    destruct (after_seconds now n) as [t0|] eqn:E; [|done]. simplify_eq.
    intros ? [= <-]. by eapply after_seconds_range. }
  pose proof (inv_links _ I) as L. assert (Hset : set now k v seconds s = match map_ s !! k with
    | Some p => set_existing k v t p s | None => set_new k v t s end).
  { unfold set. rewrite (Links_find _ L). destruct seconds as [n|]; cbn in Ht; simplify_eq; [|done].
    destruct (after_seconds now n); simplify_eq. done. }
  rewrite Hset. unfold c_set. cbn [abs entries budget evicted lapsed].
  destruct (find_cases s k L) as [[Hk El]|(p & n & -> & Hn & <- & _ & _)].
  - rewrite Hk, (set_new_eval _ _ _ _ L Hk).
    destruct (enforce_max_memory_spec _ (pushed_PreInv s k v t I Hk Hr Hb)) as (s' & -> & I' & A').
    exists s'. split; [done|]. split; [done|]. rewrite A'. rewrite (without_absent _ _ El). done.
  - rewrite (set_existing_eval _ _ _ _ _ _ L Hn).
    destruct (enforce_max_memory_spec _ (relinked_PreInv s p n v t I Hn Hr Hb)) as (s' & -> & I' & A').
    exists s'. split; [done|]. split; [done|]. rewrite A'. rewrite (abs_without _ L _ _ Hn). done.
Qed.

(** ** [expire] *)

Lemma with_deadline_update s p n t e :
  Links s -> (p, n) ∈ lru_list_ s ->
  with_deadline (key n) t <$> abs_entries s
  = entry_of <$> assoc_update p (fun _ => mkNode (key n) (value n) (Some t) e) (lru_list_ s).
Proof.
  intros L H. unfold abs_entries, assoc_update. rewrite <- !list_fmap_compose.
  apply list_fmap_ext. intros i [q m] Hq%list_elem_of_lookup_2. cbn. unfold with_deadline. cbn.
  destruct (decide (key m = key n)) as [Hk|Hk].
  - destruct (node_unique _ L _ _ _ _ H Hq (eq_sym Hk)) as [-> ->]. by rewrite decide_True.
  - rewrite decide_False; [done|]. intros ->. apply Hk.
    by rewrite (NoDup_keys_inj _ _ _ _ (list_nodup _ L) Hq H).
Qed.

Lemma with_deadline_absent k t es : lookup_key k es = None -> with_deadline k t <$> es = es.
Proof.
  induction es as [|e es IH]; cbn; [done|]. unfold with_deadline at 1. case_decide; [done|].
  intros H'. by rewrite IH.
Qed.

Definition expired_at (s : LruShard) (p : LruIt) (n : Node) (t : TimePoint) : LruShard :=
  mkLruShard (map_ s)
    (assoc_update p (fun _ => mkNode (key n) (value n) (Some t) (Some (next_expire s))) (lru_list_ s))
    (multimap_insert (next_expire s) t p (erase_if (expire_it n) (expire_map_ s)))
    (max_memory_bytes_ s) (used_payload_bytes_ s) (evictions_ s) (expired_ s) (next_lru s)
    (next_expire s + 1)%N.

Lemma expire_eval s p n now seconds t :
  Links s -> (p, n) ∈ lru_list_ s -> after_seconds now seconds = Ok t ->
  expire now (key n) seconds s = Ok (true, expired_at s p n t).
Proof.
  intros L H Ht. pose proof (elem_assoc _ _ _ (list_nodup _ L) H) as Hn.
  assert (Hupd : forall f, assoc_update p f (lru_list_ s) = assoc_update p (fun _ => f n) (lru_list_ s)).
  { intros f. apply list_fmap_ext. intros i [q m] Hq%list_elem_of_lookup_2. cbn. case_decide; [|done].
    subst. by rewrite (NoDup_keys_inj _ _ _ _ (list_nodup _ L) Hq H). }
  unfold expire. rewrite (Links_find _ L), (node_key _ L _ _ H). cbn [mbind res_bind mret res_ret].
  rewrite (node_at_elem _ L _ _ H). cbn [mbind res_bind].
  destruct (expire_it n) as [e|] eqn:Ee; unfold expire_erase_if, expired_at; rewrite Ee.
  - destruct (node_expire_entry _ L _ _ _ H Ee) as (t0 & _ & E). unfold expire_erase. rewrite E. cbn.
    rewrite Ht. cbn. unfold store_node, node_at. cbn. rewrite Hn. cbn.
    rewrite assoc_update_lookup, decide_True, Hn by done. cbn. rewrite update_update. cbn.
    by rewrite Hupd.
  - cbn. rewrite Ht. cbn. unfold store_node, node_at. cbn. rewrite Hn. cbn.
    rewrite assoc_update_lookup, decide_True, Hn by done. cbn. rewrite update_update. cbn.
    by rewrite Hupd.
Qed.

Theorem expire_refines now k seconds t s :
  Inv s -> after_seconds now seconds = Ok t ->
  refines (expire now k seconds s) (c_expire k t (abs s)).
Proof.
  intros I Ht. pose proof (inv_links _ I) as L. unfold c_expire, refines. cbn [abs entries].
  destruct (find_cases s k L) as [[Hk El]|(p & n & _ & Hn & <- & _ & El)].
  - exists s. unfold expire. rewrite (Links_find _ L), Hk, El. split; [done|]. split; [done|]. cbn.
    by rewrite with_deadline_absent.
  - exists (expired_at s p n t). rewrite (expire_eval _ _ _ _ _ _ L Hn Ht), El. split; [done|].
    assert (Hlen : total (abs_entries (expired_at s p n t)) = total (abs_entries s)).
    { rewrite (abs_total_front _ _ _ L Hn). unfold abs_entries, expired_at. cbn [lru_list_].
      by rewrite (update_front _ _ _ _ (list_nodup _ L) Hn). }
    split; [|cbn; by rewrite (with_deadline_update _ _ _ _ (Some (next_expire s)) L Hn)].
    split; try apply I.
    + by apply (Links_relink s _ L p n (mkNode (key n) (value n) (Some t) (Some (next_expire s)))).
    + rewrite Hlen. apply I.
    + cbn. intros q m t' Hq Ht'. apply elem_update in Hq as (m0 & Hm0 & ->).
      case_decide; [|by apply (inv_deadlines _ I q m0)]. cbn in Ht'. simplify_eq. by eapply after_seconds_range.
Qed.

(** The deadline is computed for a key that is there, and only then. *)
Lemma expire_overflows now k n e s :
  Inv s -> lookup_key k (abs_entries s) = Some e -> deadline_of now n = None ->
  expire now k n s = Fault SignedOverflow.
Proof.
  intros I He Hd. pose proof (inv_links _ I) as L.
  destruct (find_cases s k L) as [[_ El]|(p & nd & Hk & Hn & <- & Ha & _)]; [congruence|].
  unfold expire. rewrite (Links_find _ L), Hk. cbn [mbind res_bind]. rewrite Ha. cbn [mbind res_bind].
  unfold expire_erase_if, expire_erase. rewrite after_seconds_cases, Hd.
  destruct (expire_it nd) as [x|] eqn:Ex; [|done].
  by destruct (node_expire_entry _ L _ _ _ Hn Ex) as (t0 & _ & ->).
Qed.

Lemma expire_absent now k n s :
  Inv s -> lookup_key k (abs_entries s) = None -> expire now k n s = Ok (false, s).
Proof.
  intros I He. pose proof (inv_links _ I) as L.
  destruct (find_cases s k L) as [[Hk _]|(p & nd & _ & _ & _ & _ & El)]; [|congruence].
  unfold expire. by rewrite (Links_find _ L), Hk.
Qed.

(** ** [remove_expired_keys] *)

Lemma purge_step fuel now s e t p rest :
  Inv s -> expire_map_ s = (e, (t, p)) :: rest -> t <= now ->
  exists n, (p, n) ∈ lru_list_ s /\ expire_at n = Some t /\ expire_it n = Some e
    /\ remove_expired_loop (S fuel) now s
       = remove_expired_loop fuel now (removed s (key n) p n kExpired).
Proof.
  intros I He Ht. pose proof (inv_links _ I) as L.
  destruct (proj1 (exp_iff _ L e t p)) as (n & Hn & Hit & Hat); [rewrite He; left|].
  exists n. split; [done|]. split; [done|]. split; [done|].
  cbn [remove_expired_loop]. rewrite He. zcmp.
  pose proof (elem_assoc _ _ _ (list_nodup _ L) Hn) as Ha.
  assert (Hhead : assoc e (expire_map_ s) = Some (t, p)) by (rewrite He; cbn; by rewrite decide_True).
  unfold expire_erase. rewrite Hhead. cbn [of_option mret res_ret mbind res_bind].
  set (f := fun n => mkNode (key n) (value n) (expire_at n) None).
  set (s0 := set_expire_map _ s). set (s1 := set_list (assoc_update p f (lru_list_ s)) s0).
  assert (store_node s0 p f = Ok s1) as -> by (unfold store_node, node_at; cbn; by rewrite Ha).
  cbn [mret res_ret mbind res_bind].
  assert (Ha1 : assoc p (lru_list_ s1) = Some (f n)).
  { unfold s1. cbn [set_list lru_list_]. by rewrite assoc_update_lookup, decide_True, Ha. }
  assert (node_at s1 p = Ok (f n)) as -> by (unfold node_at; by rewrite Ha1).
  cbn [mret res_ret mbind res_bind].
  assert (Hm1 : map_ s1 !! key n = Some p) by apply (node_key _ L _ _ Hn).
  assert (Hlive : views_live s1).
  { apply (views_live_mono s); [by apply Links_views|done|]. intros q m Hq. unfold s1. cbn [set_list lru_list_].
    rewrite assoc_update_lookup, Hq. case_decide; by eexists. }
  change (key (f n)) with (key n). rewrite (map_find_live _ _ Hlive), Hm1. cbn [mbind res_bind].
  rewrite (remove_key_eval _ _ _ _ _ Hm1 Ha1) by (intros e0 He0; discriminate He0). cbn [mbind res_bind].
  unfold removed, s1, s0. cbn. by rewrite erase_update, Hit.
Qed.

Lemma filter_without now k es e :
  NoDup (e_key <$> es) -> e ∈ es -> e_key e = k -> has_lapsed now e = true ->
  filter (fun e => has_lapsed now e = false) (without k es)
  = filter (fun e => has_lapsed now e = false) es
  /\ zlen es = zlen (without k es) + 1.
Proof.
  unfold without. induction es as [|e' es IH]; [by intros _ ?%elem_of_nil|].
  rewrite fmap_cons. intros [Hk Hd]%NoDup_cons [->|Hin]%elem_of_cons Heq Hl.
  - rewrite !filter_cons. rewrite (decide_False (P := e_key e' <> k)) by tauto.
    rewrite (decide_False (P := has_lapsed now e' = false)) by congruence.
    assert (filter (fun e => e_key e <> k) es = es) as ->; [|rewrite zlen_cons; done].
    apply (without_absent k). apply lookup_key_None. congruence.
  - destruct (IH Hd Hin Heq Hl) as [IH1 IH2]. rewrite filter_cons, decide_True.
    + rewrite !filter_cons. rewrite !zlen_cons, <- IH2.
      case_decide; rewrite IH1; auto.
    + intros Hk'. apply Hk. rewrite Hk', <- Heq. apply list_elem_of_fmap. eauto.
Qed.

Lemma filter_keep_all {A} (P : A -> Prop) `{!forall x, Decision (P x)} (l : list A) :
  (forall x, x ∈ l -> P x) -> filter P l = l.
Proof.
  induction l as [|x l IH]; intros HP; [done|]. rewrite filter_cons, decide_True by (apply HP; left).
  f_equal. apply IH. intros y Hy. apply HP. by right.
Qed.

(** When the first deadline lies ahead, nothing has lapsed. *)
Lemma nothing_lapsed now s :
  Links s -> (forall e t p rest, expire_map_ s = (e, (t, p)) :: rest -> now < t) ->
  filter (fun e => has_lapsed now e = false) (abs_entries s) = abs_entries s.
Proof.
  intros L H. apply filter_keep_all. intros x Hx.
  apply list_elem_of_fmap in Hx as ([p n] & -> & Hn). unfold has_lapsed. cbn.
  destruct (expire_at n) as [t|] eqn:Et; [|done]. apply Z.leb_gt.
  destruct (proj2 (node_expire _ L _ _ Hn) (ex_intro _ t Et)) as [e He].
  assert (Hin : (e, (t, p)) ∈ expire_map_ s) by (apply (exp_iff _ L); eauto).
  pose proof (exp_sorted _ L) as Hs. destruct (expire_map_ s) as [|[e0 [t0 p0]] rest] eqn:Em;
    [by apply elem_of_nil in Hin|]. specialize (H e0 t0 p0 rest eq_refl).
  apply elem_of_cons in Hin as [[= -> -> ->]|Hin]; [done|].
  apply StronglySorted_inv in Hs as [_ Hall]. rewrite Forall_forall in Hall.
  assert (t0 <= t); [|lia]. apply Hall. apply list_elem_of_fmap. by exists (e, (t, p)).
Qed.

Lemma remove_expired_loop_spec fuel now s :
  Inv s -> (length (expire_map_ s) < fuel)%nat ->
  exists s', remove_expired_loop fuel now s = Ok s' /\ Inv s' /\ abs s' = c_purge now (abs s).
Proof.
  revert s. induction fuel as [|fuel IH]; intros s I Hf; [lia|]. pose proof (inv_links _ I) as L.
  destruct (expire_map_ s) as [|[e [t p]] rest] eqn:Em; [|destruct (Z.le_gt_cases t now) as [Ht|Ht]].
  - exists s. cbn. rewrite Em. split; [done|]. split; [done|]. unfold c_purge. cbn [abs entries].
    rewrite (nothing_lapsed _ _ L) by (by rewrite Em).
    by rewrite Z.sub_diag, Z.add_0_r, u64_small by apply (inv_counters _ I).
  - destruct (purge_step fuel now s e t p rest I Em Ht) as (n & Hn & Hat & Hit & ->).
    assert (Hlen : (length (expire_map_ (removed s (key n) p n kExpired)) < fuel)%nat).
    { cbn. rewrite Hit, Em. cbn. unfold assoc_erase. rewrite filter_cons.
      rewrite decide_False by tauto. pose proof (length_filter (fun x : ExpireIt * (TimePoint * LruIt) => x.1 <> e) rest).
      cbn in *. lia. }
    destruct (IH _ (removed_Inv _ _ _ _ I Hn) Hlen) as (s' & -> & I' & A').
    exists s'. split; [done|]. split; [done|]. rewrite A'. unfold c_purge. cbn [abs entries budget evicted lapsed].
    rewrite removed_abs by done.
    destruct (filter_without now (key n) (abs_entries s) (entry_of (p, n))) as [-> Hz].
    { by apply abs_keys_NoDup. }
    { apply list_elem_of_fmap. eauto. }
    { done. }
    { unfold has_lapsed. cbn. rewrite Hat. by apply Z.leb_le. }
    f_equal. cbn. rewrite u64_add_l, Hz. f_equal. lia.
  - exists s. cbn. rewrite Em. zcmp. split; [done|]. split; [done|]. unfold c_purge. cbn [abs entries].
    rewrite (nothing_lapsed _ _ L) by (intros ? ? ? ? E; rewrite Em in E; by simplify_eq).
    by rewrite Z.sub_diag, Z.add_0_r, u64_small by apply (inv_counters _ I).
Qed.

Theorem purge_refines now s :
  Inv s -> exists s', remove_expired_keys now s = Ok s' /\ Inv s' /\ abs s' = c_purge now (abs s).
Proof. intros I. apply remove_expired_loop_spec; [done|lia]. Qed.
