(* ===== verification/LruTheorems.v ===== *)
(** * What a cache shard guarantees

    The properties of [LruShard], from the refinement of [LruRefine]: every
    run of operations agrees with the abstract cache and has no fault but the
    overflow of a deadline, the memory bound, what [set], [get], [del], [expire], [ttl] and the purge do
    to keys, and the arithmetic of deadlines. *)

From S2P Require Import Prelude LruShard LruSpec LruInv LruRefine.

(** ** Runs of operations *)

Inductive Op :=
  | OGet (now : TimePoint) (k : bytes)
  | OSet (now : TimePoint) (k v : bytes) (seconds : option Z)
  | ODel (k : bytes)
  | OExpire (now : TimePoint) (k : bytes) (seconds : Z)
  | OTtl (now now' : TimePoint) (k : bytes)
  | OPurge (now : TimePoint).

Inductive Reply := ROption (o : option bytes) | RBool (b : bool) | RInt (z : Z) | RVoid.

Definition run_op (op : Op) (s : LruShard) : res (Reply * LruShard) :=
  match op with
  | OGet now k => '(r, s) ← get now k s; mret (ROption r, s)
  | OSet now k v seconds => s ← set now k v seconds s; mret (RVoid, s)
  | ODel k => '(r, s) ← del k s; mret (RBool r, s)
  | OExpire now k seconds => '(r, s) ← expire now k seconds s; mret (RBool r, s)
  | OTtl now now' k => '(r, s) ← ttl now now' k s; mret (RInt r, s)
  | OPurge now => s ← remove_expired_keys now s; mret (RVoid, s)
  end.

(** The deadline an operation is given: [SET] computes it before it looks at
    the key, [EXPIRE] for a key that is there.  It is the only arithmetic of a
    shard that can overflow. *)
Definition spec_deadline (now : TimePoint) (seconds : option Z) : res (option Z) :=
  match seconds with Some n => t ← after_seconds now n; mret (Some t) | None => mret None end.

Definition spec_op (op : Op) (c : Cache) : res (Reply * Cache) :=
  match op with
  | OGet now k => let '(r, c) := c_get now k c in mret (ROption r, c)
  | OSet now k v seconds => t ← spec_deadline now seconds; mret (RVoid, c_set k v t c)
  | ODel k => let '(r, c) := c_del k c in mret (RBool r, c)
  | OExpire now k seconds =>
      match lookup_key k (entries c) with
      | None => mret (RBool false, c)
      | Some _ => t ← after_seconds now seconds; let '(r, c) := c_expire k t c in mret (RBool r, c)
      end
  | OTtl now now' k => let '(r, c) := c_ttl now now' k c in mret (RInt r, c)
  | OPurge now => mret (RVoid, c_purge now c)
  end.

(** What the environment provides: payloads that fit [std::size_t] beside the
    budget, and two readings of the steady clock in order, where the code
    makes two. *)
Definition op_defined (budget : Z) (op : Op) : Prop :=
  match op with
  | OSet now k v seconds => budget + (zlen k + zlen v) < two64
  | OTtl now now' k => 0 <= now <= now' /\ now' <= i64_max
  | _ => True
  end.

Fixpoint run_ops (ops : list Op) (s : LruShard) : res (list Reply * LruShard) :=
  match ops with
  | [] => mret ([], s)
  | op :: ops =>
      '(r, s) ← run_op op s;
      '(rs, s) ← run_ops ops s;
      mret (r :: rs, s)
  end.

Fixpoint spec_ops (ops : list Op) (c : Cache) : res (list Reply * Cache) :=
  match ops with
  | [] => mret ([], c)
  | op :: ops =>
      '(r, c) ← spec_op op c;
      '(rs, c) ← spec_ops ops c;
      mret (r :: rs, c)
  end.

Lemma refines_bind {A B} (m : res (A * LruShard)) (r : A * Cache) (f : A -> B) :
  refines m r -> implements ('(a, s) ← m; mret (f a, s)) (let '(a, c) := r in mret (f a, c)).
Proof. destruct r as [a c]. intros (s' & -> & I & A'). by exists s'. Qed.

Lemma run_op_implements op s :
  Inv s -> op_defined (max_memory_bytes_ s) op -> implements (run_op op s) (spec_op op (abs s)).
Proof.
  intros I Hop. destruct op as [now k|now k v seconds|k|now k seconds|now now' k|now];
    cbn [run_op spec_op].
  - apply refines_bind. by apply get_refines.
  - assert (Hput : forall t, deadline_after now seconds = Some t ->
      implements (s ← set now k v seconds s; mret (RVoid, s)) (Ok (RVoid, c_set k v t (abs s)))).
    { intros t Ht. destruct (set_refines now k v seconds t s I Ht Hop) as (s' & -> & I' & A'). by exists s'. }
    unfold deadline_after in Hput. destruct seconds as [n|]; [|by apply Hput].
    cbn [spec_deadline]. rewrite after_seconds_cases in *. destruct (deadline_of now n) as [t|] eqn:Hd; [by apply Hput|].
    cbn [mbind res_bind implements]. by rewrite set_overflows.
  - apply refines_bind. by apply del_refines.
  - change (entries (abs s)) with (abs_entries s). destruct (lookup_key k (abs_entries s)) as [e|] eqn:He.
    + pose proof (after_seconds_cases now seconds) as Hc.
      destruct (deadline_of now seconds) as [t|] eqn:Hd; rewrite Hc; cbn [mbind res_bind].
      * apply refines_bind. by apply expire_refines.
      * unfold implements. by rewrite (expire_overflows _ _ _ e).
    + rewrite expire_absent by done. by exists s.
  - destruct Hop. apply refines_bind. by apply ttl_refines.
  - destruct (purge_refines now s I) as (s' & -> & I' & A'). by exists s'.
Qed.

Lemma spec_op_budget op c r c' : spec_op op c = Ok (r, c') -> budget c' = budget c.
Proof.
  destruct op; cbn [spec_op]; unfold c_get, c_ttl, c_del, c_expire, spec_deadline; repeat case_match;
    intros; res_inv; simplify_eq; done.
Qed.

Lemma spec_ops_budget ops c rs c' : spec_ops ops c = Ok (rs, c') -> budget c' = budget c.
Proof.
  revert c rs. induction ops as [|op ops IH]; intros c rs; cbn [spec_ops]; [by intros [= _ <-]|].
  intros ([r c1] & H1 & ([rs' c2] & H2 & [= _ <-])%bind_Ok)%bind_Ok.
  apply spec_op_budget in H1. apply IH in H2. congruence.
Qed.

Lemma run_ops_implements ops s :
  Inv s -> Forall (op_defined (max_memory_bytes_ s)) ops ->
  implements (run_ops ops s) (spec_ops ops (abs s)).
Proof.
  revert s. induction ops as [|op ops IH]; intros s I Hops; [by exists s|].
  apply Forall_cons in Hops as [Hop Hops]. pose proof (run_op_implements op s I Hop) as H. cbn [run_ops spec_ops].
  destruct (spec_op op (abs s)) as [[r c]|f] eqn:Hs; [|unfold implements in *; cbn; by rewrite H].
  destruct H as (s1 & H1 & I1 & A1). cbn [fst snd] in *. rewrite H1. cbn [mbind res_bind].
  apply spec_op_budget in Hs. subst c. specialize (IH s1 I1).
  change (max_memory_bytes_ s1) with (budget (abs s1)) in IH. rewrite Hs in IH. specialize (IH Hops).
  destruct (spec_ops ops (abs s1)) as [[rs c]|f]; [|unfold implements in *; cbn; by rewrite IH].
  destruct IH as (s' & -> & I' & A'). by exists s'.
Qed.

(** A run that completes, of a good state. *)
Lemma run_ops_Ok ops s replies s' :
  Inv s -> Forall (op_defined (max_memory_bytes_ s)) ops -> run_ops ops s = Ok (replies, s') ->
  Inv s' /\ spec_ops ops (abs s) = Ok (replies, abs s').
Proof.
  intros I Hops H. pose proof (run_ops_implements ops s I Hops) as Hi. unfold implements in Hi.
  destruct (spec_ops ops (abs s)) as [[rs c]|f]; [|congruence]. destruct Hi as (s2 & H2 & I2 & A2).
  rewrite H in H2. injection H2 as -> ->. cbn in A2. by subst c.
Qed.

(** In particular of a new shard. *)
Lemma run_ops_Inv ops m replies s :
  0 <= m < two64 -> Forall (op_defined m) ops -> run_ops ops (newShard m) = Ok (replies, s) -> Inv s.
Proof. intros Hm Hops H. eapply run_ops_Ok; [by apply newShard_Inv|exact Hops|exact H]. Qed.

(** The only fault of the abstract cache is an overflow. *)
Lemma spec_op_fault op c f : spec_op op c = Fault f -> f = SignedOverflow.
Proof.
  assert (Ht : forall now n g, after_seconds now n = Fault g -> g = SignedOverflow).
  { intros now n g. rewrite after_seconds_cases. destruct (deadline_of now n); [done|by intros [= <-]]. }
  destruct op as [now k|now k v [n|]|k|now k n|now now' k|now]; cbn [spec_op spec_deadline];
    unfold c_get, c_ttl; repeat case_match; try done.
  all: destruct (after_seconds now n) as [t|g] eqn:Ha; [done|]; intros [= <-]; by eapply Ht.
Qed.

Lemma spec_ops_fault ops c f : spec_ops ops c = Fault f -> f = SignedOverflow.
Proof.
  revert c. induction ops as [|op ops IH]; intros c; [done|]. cbn [spec_ops].
  destruct (spec_op op c) as [[r c']|f'] eqn:Hs; cbn [mbind res_bind].
  - specialize (IH c'). destruct (spec_ops ops c') as [[rs c'']|]; [done|]. intros [= ->]. by apply IH.
  - intros [= <-]. by eapply spec_op_fault.
Qed.

(** C4. Refinement: from any state that satisfies the invariant - a new shard in
    particular - every sequence of calls does exactly what the abstract cache
    does: it returns the same and ends in a state that represents the abstract
    one and satisfies the invariant again - it uses no dead iterator and
    overruns no loop bound -, or, when the abstract cache says so, the
    computation of a deadline overflows: that of a [set], or that of an
    [expire] of a key that is there.  Payloads fit [std::size_t] beside the
    budget, and the clock does not run backwards within a [ttl]. *)
Theorem shard_refines_cache ops s :
  Inv s -> Forall (op_defined (max_memory_bytes_ s)) ops ->
  match spec_ops ops (abs s) with
  | Ok (replies, c) => exists s', run_ops ops s = Ok (replies, s') /\ Inv s' /\ abs s' = c
  | Fault f => f = SignedOverflow /\ run_ops ops s = Fault f
  end.
Proof.
  intros I Hops. pose proof (run_ops_implements ops s I Hops) as H. unfold implements in H.
  destruct (spec_ops ops (abs s)) as [[replies c]|f] eqn:Hs; [exact H|].
  split; [by eapply spec_ops_fault|done].
Qed.

(** A deadline, a read, and a count too large for a key that is not there. *)
Lemma shard_refines_cache_witness :
  exists s', run_ops [OSet 0 #"a" #"1" (Some 5); OGet 0 #"a"; OTtl 0 0 #"a"; OExpire 0 #"b" 99999999999] (newShard 10)
      = Ok ([RVoid; ROption (Some #"1"); RInt 5; RBool false], s')
    /\ Inv s' /\ abs s' = mkCache [mkEntry #"a" #"1" (Some 5000000000)] 10 0 0.
Proof.
  apply (shard_refines_cache [OSet 0 #"a" #"1" (Some 5); OGet 0 #"a"; OTtl 0 0 #"a"; OExpire 0 #"b" 99999999999] (newShard 10)).
  - apply newShard_Inv. unfold two64. lia.
  - repeat constructor; discriminate.
Defined.

Lemma assoc_iff {K V} `{!EqDecision K} (l : list (K * V)) k v :
  NoDup l.*1 -> assoc k l = Some v <-> (k, v) ∈ l.
Proof.
  intros Hd. split; [|by apply elem_assoc]. clear Hd. induction l as [|[k' v'] l IH]; [done|]. cbn [assoc].
  case_decide as E; [intros [= ->]; rewrite E; left|]. intros H. right. by apply IH.
Qed.

(** C14. The containers of a shard agree, after any sequence of calls.  The index
    has the keys of the list, each with an iterator to its node, and no others;
    its views are alive.  The multimap has the deadlines of the nodes, in order,
    each with an iterator to its node, whose iterator points back at it, and no
    others.  So no iterator that is kept anywhere is dead. *)
Theorem shard_containers ops m replies s :
  0 <= m < two64 -> Forall (op_defined m) ops -> run_ops ops (newShard m) = Ok (replies, s) ->
  (forall k it, map_ s !! k = Some it <-> exists node, assoc it (lru_list_ s) = Some node /\ key node = k)
  /\ size (map_ s) = length (lru_list_ s) /\ views_live s
  /\ (forall e t it, assoc e (expire_map_ s) = Some (t, it)
        <-> exists node, assoc it (lru_list_ s) = Some node /\ expire_it node = Some e /\ expire_at node = Some t)
  /\ (forall it node, assoc it (lru_list_ s) = Some node -> (is_Some (expire_it node) <-> is_Some (expire_at node)))
  /\ StronglySorted Z.le (deadlines (expire_map_ s)).
Proof.
  intros Hm Hops Hrun.
  destruct (run_ops_Ok ops (newShard m) _ _ (newShard_Inv m Hm) Hops Hrun) as [I _].
  pose proof (inv_links _ I) as L.
  pose proof (fun it node => assoc_iff (lru_list_ s) it node (list_nodup _ L)) as Hl.
  split; [intros k it; rewrite (map_iff _ L); by setoid_rewrite Hl|].
  split; [by apply map_size_nodes|]. split; [by apply Links_views|].
  split; [intros e t it; rewrite (assoc_iff _ _ _ (exp_nodup _ L)), (exp_iff _ L); by setoid_rewrite Hl|].
  split; [intros it node; rewrite Hl; apply (node_expire _ L)|apply (exp_sorted _ L)].
Qed.

Lemma shard_containers_witness :
  let s := mkLruShard {[ #"a" := 0%N; #"b" := 1%N ]}
             [(1%N, mkNode #"b" #"2" None None); (0%N, mkNode #"a" #"1" (Some 2000000000) (Some 1%N))]
             [(1%N, (2000000000, 0%N))] 10 4 0 0 2 2 in
  (forall k it, map_ s !! k = Some it <-> exists node, assoc it (lru_list_ s) = Some node /\ key node = k)
  /\ size (map_ s) = length (lru_list_ s) /\ views_live s
  /\ (forall e t it, assoc e (expire_map_ s) = Some (t, it)
        <-> exists node, assoc it (lru_list_ s) = Some node /\ expire_it node = Some e /\ expire_at node = Some t)
  /\ (forall it node, assoc it (lru_list_ s) = Some node -> (is_Some (expire_it node) <-> is_Some (expire_at node)))
  /\ StronglySorted Z.le (deadlines (expire_map_ s)).
Proof.
  apply (shard_containers [OSet 0 #"a" #"1" (Some 1); OSet 0 #"b" #"2" None; OExpire 0 #"a" 2] 10 [RVoid; RVoid; RBool true]).
  - unfold two64. lia.
  - repeat constructor; vm_compute; reflexivity.
  - vm_compute. reflexivity.
Defined.

(** C19. Memory: whatever a client sends, the payload a shard holds is exactly
    what its counter says and never exceeds the configured budget, and the
    statistics report the number of keys stored. *)
Theorem shard_memory_bounded ops m replies s :
  0 <= m < two64 -> Forall (op_defined m) ops ->
  run_ops ops (newShard m) = Ok (replies, s) ->
  used_payload_bytes (get_stats s) = total (abs_entries s)
  /\ total (abs_entries s) <= m
  /\ key_count (get_stats s) = zlen (abs_entries s)
  /\ max_memory_bytes (get_stats s) = m.
Proof.
  intros Hm Hops Hrun.
  destruct (run_ops_Ok ops (newShard m) _ _ (newShard_Inv m Hm) Hops Hrun) as [I Hs].
  assert (Hmax : max_memory_bytes_ s = m) by exact (spec_ops_budget _ _ _ _ Hs).
  pose proof (inv_bound _ I). pose proof (inv_used _ I).
  cbn. repeat split; try done; [lia|].
  unfold zlen, abs_entries. rewrite length_fmap. f_equal. apply map_size_nodes, I.
Qed.

Lemma shard_memory_bounded_witness :
  let s := mkLruShard {[ #"a" := 0%N ]} [(0%N, mkNode #"a" #"1" None None)] [] 10 2 0 0 1 0 in
  used_payload_bytes (get_stats s) = total (abs_entries s)
  /\ total (abs_entries s) <= 10
  /\ key_count (get_stats s) = zlen (abs_entries s)
  /\ max_memory_bytes (get_stats s) = 10.
Proof.
  apply (shard_memory_bounded [OSet 0 #"a" #"1" None] 10 [RVoid]).
  - unfold two64. lia.
  - repeat constructor.
  - vm_compute. reflexivity.
Defined.

(** ** Single operations *)

(** Read your write: after a successful [set], [get] returns the new value
    until its deadline - provided the pair fits the budget on its own; one
    that does not is evicted at once. *)
Theorem get_after_set now k v seconds t s now' :
  Inv s -> deadline_after now seconds = Some t ->
  max_memory_bytes_ s + (zlen k + zlen v) < two64 ->
  exists s1 s2, set now k v seconds s = Ok s1
    /\ get now' k s1
       = Ok (if (zlen k + zlen v <=? max_memory_bytes_ s) && negb (is_expired now' t)
             then Some v else None, s2).
Proof.
  intros I Ht Hb. destruct (set_refines now k v seconds t s I Ht Hb) as (s1 & H1 & I1 & A1).
  destruct (get_refines now' k s1 I1) as (s2 & H2 & _). exists s1, s2. split; [done|].
  rewrite H2, A1. do 2 f_equal. unfold c_get, c_set. cbn. unfold size_of. cbn.
  destruct (zlen k + zlen v <=? max_memory_bytes_ s); [|done]. cbn. rewrite decide_True by done.
  unfold has_lapsed. cbn. destruct t as [t|]; [|done]. cbn. by destruct (t <=? now').
Qed.

Lemma get_after_set_witness :
  exists s1 s2, set 0 #"k" #"v" (Some 2) (newShard 4) = Ok s1
    /\ get 1999999999 #"k" s1
       = Ok (if (zlen #"k" + zlen #"v" <=? 4) && negb (is_expired 1999999999 (Some 2000000000))
             then Some #"v" else None, s2).
Proof.
  apply (get_after_set 0 #"k" #"v" (Some 2) (Some 2000000000) (newShard 4)).
  - apply newShard_Inv. unfold two64. lia.
  - vm_compute. reflexivity.
  - vm_compute. reflexivity.
Defined.

(** C22. Eviction: [set] puts the key in front and drops a suffix of the recency
    order - the least recently used entries -: as many as it takes for the
    rest to fit the budget, no more of them than that, and counts each one.
    The hypotheses are that the deadline the key is given, if any, is in the
    range of the clock, and that payload and budget together fit
    [std::size_t]. *)
Theorem set_evicts_lru now k v seconds t s :
  Inv s -> deadline_after now seconds = Some t ->
  max_memory_bytes_ s + (zlen k + zlen v) < two64 ->
  exists s' victims, set now k v seconds s = Ok s'
    /\ mkEntry k v t :: without k (abs_entries s) = abs_entries s' ++ victims
    /\ total (abs_entries s') <= max_memory_bytes_ s
    /\ (forall e rest, victims = e :: rest -> max_memory_bytes_ s < total (abs_entries s' ++ [e]))
    /\ evictions_ s' = u64 (evictions_ s + zlen victims).
Proof.
  intros I Ht Hb. destruct (set_refines now k v seconds t s I Ht Hb) as (s' & H1 & I1 & A1).
  pose proof (inv_bound _ I1) as Hfit. pose proof (inv_used _ I1) as Hused.
  assert (Hmax : max_memory_bytes_ s' = max_memory_bytes_ s) by by apply (f_equal budget) in A1.
  set (es := mkEntry k v t :: without k (abs_entries s)) in *.
  destruct (fit_prefix (max_memory_bytes_ s) es) as [victims Hv].
  exists s', victims. split; [done|].
  assert (He : abs_entries s' = fit (max_memory_bytes_ s) es) by by apply (f_equal entries) in A1.
  split; [by rewrite He|]. split; [lia|]. rewrite He. split.
  - intros e rest ->. apply (fit_maximal _ es). exists rest. by rewrite <- app_assoc.
  - apply (f_equal evicted) in A1. transitivity (evicted (abs s')); [done|]. rewrite A1.
    change (evicted _) with (u64 (evictions_ s + (zlen es - zlen (fit (max_memory_bytes_ s) es)))).
    rewrite Hv at 1. rewrite zlen_app. f_equal. lia.
Qed.

Lemma set_evicts_lru_witness :
  exists s' victims, set 0 #"b" #"22" None
      (mkLruShard {[ #"a" := 0%N ]} [(0%N, mkNode #"a" #"1" None None)] [] 4 2 0 0 1 0) = Ok s'
    /\ [mkEntry #"b" #"22" None; mkEntry #"a" #"1" None] = abs_entries s' ++ victims
    /\ total (abs_entries s') <= 4
    /\ (forall e rest, victims = e :: rest -> 4 < total (abs_entries s' ++ [e]))
    /\ evictions_ s' = u64 (0 + zlen victims).
Proof.
  apply (set_evicts_lru 0 #"b" #"22" None None
    (mkLruShard {[ #"a" := 0%N ]} [(0%N, mkNode #"a" #"1" None None)] [] 4 2 0 0 1 0)).
  - destruct (set_refines 0 #"a" #"1" None None (newShard 4)) as (s' & Hs & I & _).
    + apply newShard_Inv. unfold two64. lia.
    + reflexivity.
    + vm_compute. reflexivity.
    + vm_compute in Hs. injection Hs as <-. exact I.
  - reflexivity.
  - vm_compute. reflexivity.
Defined.

(** The key an operation other than [set] and the purge works on. *)
Definition op_key (op : Op) : option bytes :=
  match op with
  | OGet _ k | ODel k | OExpire _ k _ | OTtl _ _ k => Some k
  | OSet _ _ _ _ | OPurge _ => None
  end.

(** Frame: [get], [del], [expire] and [ttl] on a key leave the value and the
    deadline of every other key alone, lazy expiry included. *)
Theorem other_keys_untouched op k k' s r s' :
  Inv s -> op_defined (max_memory_bytes_ s) op -> op_key op = Some k -> k' <> k ->
  run_op op s = Ok (r, s') ->
  lookup_key k' (abs_entries s') = lookup_key k' (abs_entries s).
Proof.
  intros I Hop Hk Hne Hrun. pose proof (run_op_implements op s I Hop) as H. unfold implements in H.
  destruct (spec_op op (abs s)) as [[x c]|f] eqn:Hs; [|congruence].
  destruct H as (s1 & H1 & _ & A1). rewrite Hrun in H1. injection H1 as -> ->. cbn [snd] in A1.
  change (abs_entries s1) with (entries (abs s1)). rewrite A1. clear A1 Hrun.
  assert (Hset : forall e, lookup_key k (abs_entries s) = Some e ->
    lookup_key k' (e :: without k (abs_entries s)) = lookup_key k' (abs_entries s)).
  { intros e [_ <-]%lookup_key_Some. cbn. rewrite decide_False by congruence. by apply without_lookup_ne. }
  destruct op; cbn in Hk; simplify_eq; cbn [spec_op] in Hs; unfold c_get, c_ttl, c_del, c_expire in Hs;
    change (entries (abs s)) with (abs_entries s) in Hs.
  - destruct (lookup_key k (abs_entries s)) as [e|] eqn:E; [|by injection Hs as <- <-].
    destruct (has_lapsed _ _); injection Hs as <- <-; [by apply without_lookup_ne|by apply Hset].
  - injection Hs as <- <-. by apply without_lookup_ne.
  - destruct (lookup_key k (abs_entries s)); [|by injection Hs as <- <-]. res_inv.
    by apply lookup_with_deadline_ne.
  - destruct (lookup_key k (abs_entries s)) as [e|] eqn:E; [|by injection Hs as <- <-].
    destruct (has_lapsed _ _); [injection Hs as <- <-; by apply without_lookup_ne|].
    by destruct (e_deadline e); injection Hs as <- <-.
Qed.

Lemma other_keys_untouched_witness :
  lookup_key #"b" (abs_entries (mkLruShard {[ #"b" := 1%N ]} [(1%N, mkNode #"b" #"2" None None)] [] 10 2 0 0 2 0))
  = lookup_key #"b" (abs_entries (mkLruShard {[ #"b" := 1%N; #"a" := 0%N ]}
      [(1%N, mkNode #"b" #"2" None None); (0%N, mkNode #"a" #"1" None None)] [] 10 4 0 0 2 0)).
Proof.
  apply (other_keys_untouched (ODel #"a") #"a" #"b" _ (RBool true)); try done.
  eapply (run_ops_Inv [OSet 0 #"a" #"1" None; OSet 0 #"b" #"2" None] 10 [RVoid; RVoid]); [unfold two64; lia|by repeat constructor|vm_compute; reflexivity].
Defined.

(** C32. The purge removes the entries whose deadline is reached, all of them and
    nothing else, keeps the recency order of the rest, counts them, and leaves
    no deadline to wait for before a later time. *)
Theorem purge_exact now s :
  Inv s ->
  exists s', remove_expired_keys now s = Ok s' /\ Inv s'
    /\ abs_entries s' = filter (fun e => has_lapsed now e = false) (abs_entries s)
    /\ expired_ s' = u64 (expired_ s + (zlen (abs_entries s) - zlen (abs_entries s')))
    /\ (forall t, get_next_expire_time s' = Some t -> now < t).
Proof.
  intros I. destruct (purge_refines now s I) as (s' & H & I' & A'). exists s'.
  assert (He : abs_entries s' = filter (fun e => has_lapsed now e = false) (abs_entries s))
    by by apply (f_equal entries) in A'.
  split; [done|]. split; [done|]. split; [done|]. split.
  - apply (f_equal lapsed) in A'. cbn in A'. by rewrite A', He.
  - unfold get_next_expire_time. intros t Ht. pose proof (inv_links _ I') as L.
    destruct (expire_map_ s') as [|[e [t0 p]] m] eqn:Em; [done|]. injection Ht as ->.
    destruct (proj1 (exp_iff _ L e t p)) as (n & Hn & _ & Hat); [rewrite Em; left|].
    assert (Hin : entry_of (p, n) ∈ abs_entries s') by (apply list_elem_of_fmap; eauto).
    rewrite He in Hin. apply list_elem_of_filter in Hin as [Hl _]. unfold has_lapsed in Hl. cbn in Hl.
    rewrite Hat in Hl. by apply Z.leb_gt in Hl.
Qed.

(** A purge at 5: of a key whose deadline is reached, another whose deadline is
    to come and one that has none, the first goes. *)
Definition purged_shard : LruShard :=
  mkLruShard {[ #"a" := 0%N; #"b" := 1%N; #"c" := 2%N ]}
    [(2%N, mkNode #"c" #"3" None None); (1%N, mkNode #"b" #"2" (Some 2000000000) (Some 1%N));
     (0%N, mkNode #"a" #"1" (Some 5) (Some 0%N))]
    [(0%N, (5, 0%N)); (1%N, (2000000000, 1%N))] 10 6 0 0 3 2.

Lemma purge_exact_witness :
  exists s', remove_expired_keys 5 purged_shard = Ok s' /\ Inv s'
    /\ abs_entries s' = [mkEntry #"c" #"3" None; mkEntry #"b" #"2" (Some 2000000000)]
    /\ expired_ s' = u64 (0 + (3 - zlen (abs_entries s')))
    /\ (forall t, get_next_expire_time s' = Some t -> 5 < t).
Proof.
  apply (purge_exact 5 purged_shard).
  eapply (run_ops_Inv [OSet 5 #"a" #"1" (Some 0); OSet 0 #"b" #"2" (Some 2); OSet 0 #"c" #"3" None] 10
    [RVoid; RVoid; RVoid]); [unfold two64; lia|by repeat constructor|vm_compute; reflexivity].
Defined.

(** [get_next_expire_time] is the earliest deadline stored, and is absent
    exactly when no key has a deadline. *)
Theorem next_expire_time_min s :
  Inv s ->
  match get_next_expire_time s with
  | None => forall e, e ∈ abs_entries s -> e_deadline e = None
  | Some t =>
      (exists e, e ∈ abs_entries s /\ e_deadline e = Some t)
      /\ (forall e t', e ∈ abs_entries s -> e_deadline e = Some t' -> t <= t')
  end.
Proof.
  intros I. pose proof (inv_links _ I) as L. unfold get_next_expire_time.
  destruct (expire_map_ s) as [|[e0 [t p]] m] eqn:Em.
  - intros e He. apply list_elem_of_fmap in He as ([p n] & -> & Hn). cbn.
    destruct (expire_at n) as [t|] eqn:Et; [|done].
    destruct (proj2 (node_expire _ L _ _ Hn) (ex_intro _ t Et)) as [x Hx].
    assert (Hin : (x, (t, p)) ∈ expire_map_ s) by (apply (exp_iff _ L); eauto).
    rewrite Em in Hin. by apply elem_of_nil in Hin.
  - split.
    + destruct (proj1 (exp_iff _ L e0 t p)) as (n & Hn & _ & Hat); [rewrite Em; left|].
      exists (entry_of (p, n)). split; [apply list_elem_of_fmap; eauto|done].
    + intros e t' He Ht'. destruct (Z.le_gt_cases t t') as [|Hlt]; [done|exfalso].
      assert (Hn : filter (fun e => has_lapsed t' e = false) (abs_entries s) = abs_entries s).
      { apply nothing_lapsed; [done|]. intros ? ? ? ? E. rewrite Em in E. by simplify_eq. }
      rewrite <- Hn in He. apply list_elem_of_filter in He as [Hl _]. unfold has_lapsed in Hl.
      rewrite Ht' in Hl. apply Z.leb_gt in Hl. lia.
Qed.

(** ** Deadlines *)

Lemma after_seconds_eq now n :
  0 <= now <= i64_max -> 0 <= n < two64 ->
  let n' := if n <=? i64_max then n else n - two64 in
  after_seconds now n
  = if (i64_min <=? n' * 1000000000) && (n' * 1000000000 + now <=? i64_max)
    then Ok (now + n' * 1000000000) else Fault SignedOverflow.
Proof.
  intros Hnow Hn n'. unfold after_seconds, mul_i64, add_i64.
  assert (i64 n = n') as ->.
  { unfold n'. destruct (Z.leb_spec n i64_max).
    - apply i64_small. unfold i64_min, i64_max in *. lia.
    - unfold i64. replace (n - i64_min) with (n - two64 - i64_min + 1 * two64) by lia.
      rewrite Z.mod_add by done. rewrite Z.mod_small; unfold i64_min, i64_max, two64 in *; lia. }
  generalize dependent n'. intros m. unfold checked, in_i64.
  destruct (Z.leb_spec i64_min (m * 1000000000)); cbn [andb]; [|done].
  destruct (Z.leb_spec (m * 1000000000) i64_max); cbn [andb mbind res_bind].
  - destruct (Z.leb_spec i64_min (now + m * 1000000000)); cbn [andb]; [|lia].
    rewrite (Z.add_comm now). by case_match.
  - by rewrite (proj2 (Z.leb_gt _ _)) by lia.
Qed.

(** C37. The deadline of [n] seconds, for every [n] the command line can produce:
    exact up to the range of the clock, signed overflow beyond it; and an [n]
    of [2^63] or more is taken as the negative number it wraps to, which puts
    the deadline in the past. *)
Theorem after_seconds_spec now n :
  0 <= now <= i64_max -> 0 <= n < two64 ->
  let n' := if n <=? i64_max then n else n - two64 in
  after_seconds now n
  = if (i64_min <=? n' * 1000000000) && (n' * 1000000000 + now <=? i64_max)
    then Ok (now + n' * 1000000000) else Fault SignedOverflow.
Proof. apply after_seconds_eq. Qed.

Lemma after_seconds_spec_witness :
  after_seconds 7 (two64 - 1) = Ok (-999999993)
  /\ after_seconds 7 9223372037 = Fault SignedOverflow.
Proof.
  split.
  - etransitivity; [apply (after_seconds_spec 7 (two64 - 1)); unfold i64_max, two64; lia|].
    vm_compute. reflexivity.
  - vm_compute. reflexivity.
Defined.

(** [TTL] after [EXPIRE key n]: the whole seconds that are left, so [n] at
    once, never more than [n], never negative, and -2 from the deadline on. *)
Theorem ttl_after_expire now k n s :
  Inv s -> is_Some (lookup_key k (abs_entries s)) ->
  0 <= n -> 0 <= now -> now + n * 1000000000 <= i64_max ->
  exists s1, expire now k n s = Ok (true, s1)
    /\ forall now1, now <= now1 <= i64_max ->
       exists r s2, ttl now1 now1 k s1 = Ok (r, s2)
         /\ (r = if now + n * 1000000000 <=? now1 then -2
                 else n - (now1 - now + 999999999) / 1000000000)
         /\ r <= n /\ (now1 = now -> 0 < n -> r = n).
Proof.
  intros I [e He] Hn Hnow Hmax.
  assert (Ht : after_seconds now n = Ok (now + n * 1000000000)).
  { pose proof (after_seconds_eq now n) as H. cbn zeta in H. rewrite H by (unfold i64_max, two64 in *; lia).
    assert (n <= i64_max) by lia. zcmp. rewrite !(proj2 (Z.leb_le _ _)) by (unfold i64_min in *; lia). done. }
  destruct (expire_refines now k n _ s I Ht) as (s1 & H1 & I1 & A1). exists s1.
  unfold c_expire in *. cbn [abs entries fst snd] in *. rewrite He in H1. split; [exact H1|].
  intros now1 Hn1. destruct (ttl_refines now1 now1 k s1 I1) as (s2 & H2 & _); [lia|lia|].
  eexists _, s2. split; [exact H2|]. rewrite A1. clear H2 s2.
  pose proof (lookup_with_deadline_eq k (now + n * 1000000000) _ _ He) as Hl.
  unfold c_ttl. cbn [entries]. rewrite Hl. unfold has_lapsed. cbn [e_deadline].
  destruct (Z.leb_spec (now + n * 1000000000) now1); cbn [fst].
  - split; [done|]. split; [lia|]. intros -> ?. lia.
  - assert (Hdiv : (now + n * 1000000000 - now1) / 1000000000 = n - (now1 - now + 999999999) / 1000000000).
    { symmetry. apply Z.div_unique with (r := 999999999 - (now1 - now + 999999999) mod 1000000000).
      - left. pose proof (Z.mod_pos_bound (now1 - now + 999999999) 1000000000 eq_refl). lia.
      - pose proof (Z.div_mod (now1 - now + 999999999) 1000000000 ltac:(lia)). lia. }
    assert (0 <= (now + n * 1000000000 - now1) / 1000000000) by (apply Z.div_pos; lia).
    rewrite Z.max_r by lia. split; [done|]. rewrite Hdiv.
    pose proof (Z.div_pos (now1 - now + 999999999) 1000000000). split; [lia|].
    intros -> _. rewrite Z.sub_diag. change ((0 + 999999999) / 1000000000) with 0. lia.
Qed.

Lemma ttl_after_expire_witness :
  let s := mkLruShard {[ #"a" := 0%N ]} [(0%N, mkNode #"a" #"1" None None)] [] 10 2 0 0 1 0 in
  exists s1, expire 100 #"a" 3 s = Ok (true, s1)
    /\ forall now1, 100 <= now1 <= i64_max ->
       exists r s2, ttl now1 now1 #"a" s1 = Ok (r, s2)
         /\ (r = if 100 + 3 * 1000000000 <=? now1 then -2
                 else 3 - (now1 - 100 + 999999999) / 1000000000)
         /\ r <= 3 /\ (now1 = 100 -> 0 < 3 -> r = 3).
Proof.
  cbn zeta. apply ttl_after_expire; try (unfold i64_max; lia); [|vm_compute; by eexists].
  eapply (run_ops_Inv [OSet 0 #"a" #"1" None] 10 [RVoid]); [unfold two64; lia|by repeat constructor|vm_compute; reflexivity].
Defined.

(** C40. [expire] does not look at the deadline it replaces: a key that has
    already lapsed, which [get] reports as absent, is revived by [EXPIRE] when
    neither a read nor the purge has removed it yet. *)
Theorem expire_revives_lapsed now k n t e s :
  Inv s -> lookup_key k (abs_entries s) = Some e -> has_lapsed now e = true ->
  after_seconds now n = Ok t -> now < t ->
  exists s0 s1 s2, get now k s = Ok (None, s0)
    /\ expire now k n s = Ok (true, s1) /\ get now k s1 = Ok (Some (e_value e), s2).
Proof.
  intros I He Hl Ht Hlt. destruct (get_refines now k s I) as (s0 & H0 & _).
  destruct (expire_refines now k n t s I Ht) as (s1 & H1 & I1 & A1).
  destruct (get_refines now k s1 I1) as (s2 & H2 & _). exists s0, s1, s2.
  unfold c_get in H0. unfold c_expire in H1, A1. cbn [abs entries fst snd] in H0, H1, A1.
  rewrite He, Hl in H0. rewrite He in H1.
  split; [exact H0|]. split; [exact H1|]. rewrite H2, A1. unfold c_get. cbn [entries].
  rewrite (lookup_with_deadline_eq _ _ _ _ He). unfold has_lapsed. cbn. by zcmp.
Qed.

Lemma expire_revives_lapsed_witness :
  let s := mkLruShard {[ #"a" := 0%N ]} [(0%N, mkNode #"a" #"1" (Some 5) (Some 0%N))]
             [(0%N, (5, 0%N))] 10 2 0 0 1 1 in
  exists s0 s1 s2, get 5 #"a" s = Ok (None, s0)
    /\ expire 5 #"a" 1 s = Ok (true, s1) /\ get 5 #"a" s1 = Ok (Some #"1", s2).
Proof.
  cbn zeta. apply (expire_revives_lapsed 5 #"a" 1 1000000005 (mkEntry #"a" #"1" (Some 5))); try (vm_compute; reflexivity).
  eapply (run_ops_Inv [OSet 5 #"a" #"1" (Some 0)] 10 [RVoid]); [unfold two64; lia|by repeat constructor|vm_compute; reflexivity].
Defined.
