(* ===== verification/Command.v ===== *)
(** * Commands

    [include/command.hpp] and [src/command.cpp]: the command types, the table
    of argument counts that [validateArgs] enforces, the table [kCommands]
    that the [COMMAND] command publishes, and [Command::toCommand], which turns a
    parsed value into a command.  [Command::toCommand] moves strings out of the value it
    is given; the session never looks at that value again, so the model only
    returns the command. *)

From S2P Require Import Prelude RespValue.

Inductive CommandType :=
  | CUnknown | CPing | CCommand | CGet | CSet | CDel | CExpire | CTtl | CInfo | CConfig.

#[export] Instance CommandType_eq_dec : EqDecision CommandType.
Proof. solve_decision. Defined.

Record Command := mkCommand { ctype : CommandType; args : list bytes }.

Record CommandDefinition := mkCommandDefinition {
  def_type : CommandType; def_name : bytes; arity : Z }.

Definition kCommands : list CommandDefinition :=
  [ mkCommandDefinition CPing #"PING" 1;
    mkCommandDefinition CCommand #"COMMAND" (-1);
    mkCommandDefinition CGet #"GET" 2;
    mkCommandDefinition CSet #"SET" (-3);
    mkCommandDefinition CDel #"DEL" (-2);
    mkCommandDefinition CExpire #"EXPIRE" 3;
    mkCommandDefinition CTtl #"TTL" 2;
    mkCommandDefinition CInfo #"INFO" (-1);
    mkCommandDefinition CConfig #"CONFIG" (-2) ].

Definition determineCommandType (type_sv : bytes) : CommandType :=
  if decide (type_sv = #"GET") then CGet else
  if decide (type_sv = #"SET") then CSet else
  if decide (type_sv = #"DEL") then CDel else
  if decide (type_sv = #"EXPIRE") then CExpire else
  if decide (type_sv = #"TTL") then CTtl else
  if decide (type_sv = #"INFO") then CInfo else
  if decide (type_sv = #"PING") then CPing else
  if decide (type_sv = #"COMMAND") then CCommand else
  if decide (type_sv = #"CONFIG") then CConfig else CUnknown.

Record CommandSpec := mkCommandSpec { minArgs : Z; maxArgs : Z }.

Definition kMaxArgs : Z := 10.

Definition kSpecs : list (CommandType * CommandSpec) :=
  [ (CGet, mkCommandSpec 1 1);        (CSet, mkCommandSpec 2 4);
    (CDel, mkCommandSpec 1 kMaxArgs); (CExpire, mkCommandSpec 2 2);
    (CTtl, mkCommandSpec 1 1);        (CInfo, mkCommandSpec 0 1);
    (CPing, mkCommandSpec 0 1);       (CCommand, mkCommandSpec 0 kMaxArgs);
    (CConfig, mkCommandSpec 2 2) ].

(** [kSpecs.find(type)->second] dereferences [end()] for an unknown type. *)
Definition validateArgs (t : CommandType) (argc : Z) : res bool :=
  command_spec ← of_option InvalidIterator (assoc t kSpecs);
  mret ((minArgs command_spec <=? argc) && (argc <=? maxArgs command_spec)).

(** [type == kBulkString || type == kSimpleString] *)
Definition is_text (t : RespType) : bool :=
  bool_decide (t = kBulkString) || bool_decide (t = kSimpleString).

(** The loop over [arr[1]], [arr[2]], ... *)
Fixpoint collect_args (elems : list RespValue) (acc : list bytes) : res (option (list bytes)) :=
  match elems with
  | [] => mret (Some acc)
  | e :: elems =>
      if is_text (type e)
      then s ← get_string (data e); collect_args elems (acc ++ [s])
      else mret None
  end.

Definition toCommand (value : RespValue) : res (option Command) :=
  if decide (type value = kArray) then
    arr ← get_array (data value);
    match arr with
    | [] => mret None
    | arr0 :: rest =>
        if is_text (type arr0) then
          type_str ← get_string (data arr0);
          let t := determineCommandType (to_uppercase type_str) in
          if decide (t = CUnknown) then mret None else
          ok ← validateArgs t (zlen arr - 1);
          if ok : bool then
            args ← collect_args rest [];
            match args with
            | Some args => mret (Some (mkCommand t args))
            | None => mret None
            end
          else mret None
        else mret None
    end
  else mret None.

Example toCommand_set :
  toCommand (RespArr kArray
    [RespString kBulkString #"sEt"; RespString kBulkString #"k"; RespString kSimpleString #"v"])
  = Ok (Some (mkCommand CSet [ #"k"; #"v"])).
Proof. vm_compute. reflexivity. Qed.

(** ** The argument counts *)

Definition arity_ok (t : CommandType) (argc : Z) : bool :=
  match t with
  | CUnknown => false
  | CGet | CTtl => argc =? 1
  | CSet => (2 <=? argc) && (argc <=? 4)
  | CDel => (1 <=? argc) && (argc <=? 10)
  | CExpire | CConfig => argc =? 2
  | CInfo | CPing => (0 <=? argc) && (argc <=? 1)
  | CCommand => (0 <=? argc) && (argc <=? 10)
  end.

(** The commands the executor is written for. *)
Definition valid_command (c : Command) : bool := arity_ok (ctype c) (zlen (args c)).

Lemma validateArgs_spec t argc : t <> CUnknown -> validateArgs t argc = Ok (arity_ok t argc).
Proof.
  intros Ht. unfold validateArgs.
  destruct t; try done;
    (match goal with |- context [assoc ?t kSpecs] =>
       let v := eval vm_compute in (assoc t kSpecs) in change (assoc t kSpecs) with v end);
    cbn; unfold mret, res_ret; f_equal; try done.
  all: apply eq_true_iff_eq; rewrite andb_true_iff, !Z.leb_le, Z.eqb_eq; lia.
Qed.

(** ** Texts *)

Definition text_of (e : RespValue) : option bytes :=
  if is_text (type e) then match data e with VString s => Some s | _ => None end else None.

(** The command a value stands for. *)
Definition command_of (value : RespValue) : option Command :=
  match value with
  | mkRespValue kArray (VArray (name_e :: elems)) =>
      name ← text_of name_e;
      args ← mapM text_of elems;
      let c := mkCommand (determineCommandType (to_uppercase name)) args in
      if valid_command c then Some c else None
  | _ => None
  end.

Lemma wf_text e :
  wf_value e = true ->
  if is_text (type e) then exists s, data e = VString s /\ text_of e = Some s else text_of e = None.
Proof.
  unfold text_of, is_text. destruct e as [[] []]; intros H; try discriminate H; cbn; try done; by eexists.
Qed.

Lemma collect_args_spec elems acc :
  Forall (fun v => wf_value v = true) elems ->
  collect_args elems acc = Ok (app acc <$> mapM text_of elems).
Proof.
  intros Hwf. revert acc. induction Hwf as [|e elems He Hwf IH]; intros acc; cbn.
  - by rewrite app_nil_r.
  - pose proof (wf_text e He) as Ht. destruct (is_text (type e)).
    + destruct Ht as (s & Hs & ->). rewrite Hs. cbn. rewrite IH.
      destruct (mapM text_of elems); cbn; [|done]. by rewrite <- app_assoc.
    + by rewrite Ht.
Qed.

Lemma mapM_text_length elems l : mapM text_of elems = Some l -> zlen l = zlen elems.
Proof. intros H%mapM_Some%Forall2_length. unfold zlen. by rewrite H. Qed.

Lemma toCommand_of value : wf_value value = true -> toCommand value = Ok (command_of value).
Proof.
  intros Hwf. unfold toCommand, command_of. destruct value as [t d]. cbn [type data].
  destruct (decide (t = kArray)) as [->|Ht]; [|by destruct t].
  destruct d as [s|z|[|e0 rest]]; try done. apply wf_array_elements in Hwf as [_ Hwf].
  apply Forall_cons in Hwf as [He0 Hrest]. cbn. pose proof (wf_text e0 He0) as Ht.
  destruct (is_text (type e0)); [|by rewrite Ht]. destruct Ht as (name & -> & ->). cbn.
  set (ct := determineCommandType (to_uppercase name)).
  rewrite zlen_cons. replace (zlen rest + 1 - 1) with (zlen rest) by lia.
  rewrite collect_args_spec by done.
  destruct (decide (ct = CUnknown)) as [Hu|Hu].
  - unfold valid_command. rewrite Hu. by destruct (mapM text_of rest).
  - rewrite validateArgs_spec by done. destruct (mapM text_of rest) as [l|] eqn:El; cbn.
    + unfold valid_command. cbn. rewrite (mapM_text_length _ _ El). by destruct (arity_ok ct _).
    + by destruct (arity_ok ct _).
Qed.

(** C27. [toCommand] on a well-formed value - so on every value the parser
    delivers - never accesses the wrong alternative nor an unknown argument
    count; and it yields a command exactly for an array of texts whose first
    one names, in any case, a command that takes that many arguments. *)
Theorem toCommand_spec value :
  wf_value value = true ->
  exists r, toCommand value = Ok r
    /\ forall c, r = Some c <->
         exists name_e name elems,
           value = RespArr kArray (name_e :: elems) /\ text_of name_e = Some name
           /\ determineCommandType (to_uppercase name) = ctype c
           /\ Forall2 (fun e a => text_of e = Some a) elems (args c) /\ valid_command c = true.
Proof.
  intros Hwf. exists (command_of value). split; [by apply toCommand_of|]. intros c. split.
  - destruct value as [[] [| |[|e0 rest]]]; cbn; try done. intros H.
    destruct (text_of e0) as [name|] eqn:En; cbn in H; [|done].
    destruct (mapM text_of rest) as [l|] eqn:El; cbn in H; [|done].
    destruct (valid_command _) eqn:Ev; [|done]. injection H as <-.
    exists e0, name, rest. apply mapM_Some in El. done.
  - intros (e0 & name & rest & -> & Hn & Ht & Hl%mapM_Some & Hv). cbn.
    rewrite Hn. cbn. rewrite Hl. cbn. rewrite Ht. destruct c. cbn in *. by rewrite Hv.
Qed.

Lemma toCommand_spec_witness :
  exists r, toCommand (RespArr kArray [RespString kBulkString #"ttl"; RespString kBulkString #"k"]) = Ok r
    /\ forall c, r = Some c <->
         exists name_e name elems,
           RespArr kArray [RespString kBulkString #"ttl"; RespString kBulkString #"k"]
           = RespArr kArray (name_e :: elems) /\ text_of name_e = Some name
           /\ determineCommandType (to_uppercase name) = ctype c
           /\ Forall2 (fun e a => text_of e = Some a) elems (args c) /\ valid_command c = true.
Proof. apply toCommand_spec. vm_compute. reflexivity. Defined.

(** ** The published arities *)

(** The length of the command line a published arity announces: exactly
    [arity] when positive, at least [- arity] otherwise. *)
Definition announces (a line : Z) : bool := if 0 <? a then line =? a else - a <=? line.

(** [kCommands] announces fewer command lines than are accepted for [PING],
    whose optional message it forgets, and more for [CONFIG], which takes
    exactly three words. *)
Lemma published_arities :
  (arity_ok CPing 1 = true /\ forall d, d ∈ kCommands -> def_type d = CPing -> announces (arity d) 2 = false)
  /\ (arity_ok CConfig 1 = false
      /\ forall d, d ∈ kCommands -> def_type d = CConfig -> announces (arity d) 2 = true).
Proof.
  split; (split; [done|]); intros d Hd Ht;
    repeat (apply elem_of_cons in Hd as [->|Hd]; [first [discriminate Ht|reflexivity]|]);
    by apply elem_of_nil in Hd.
Qed.
