(* ===== verification/Glob.v ===== *)
(** * Glob patterns

    [glob_match] of [src/commandExecutor.cpp], which [CONFIG GET] uses: the
    loop with its four variables, the declarative meaning of a pattern, and
    the equivalence of the two on texts that hold no ['*'] themselves. *)

From S2P Require Import Prelude.

(** ** The loop *)

(** [star_index = npos] is [None].  The result is [None] where the code
    returns [false], and [pattern_index] when the [while] loop is left. *)
Fixpoint glob_loop (fuel : nat) (pattern text : bytes)
    (pattern_index text_index : nat) (star_index : option nat) (star_text_match : nat)
    : res (option nat) :=
  match fuel with
  | O => Fault OutOfFuel
  | S fuel =>
      match text !! text_index with
      | None => mret (Some pattern_index)
      | Some c =>
          let backtrack :=
            match star_index with
            | Some star =>
                glob_loop fuel pattern text (S star) (S star_text_match) star_index
                  (S star_text_match)
            | None => mret None
            end in
          match pattern !! pattern_index with
          | Some d =>
              if bool_decide (d = "?"%char) || bool_decide (d = c) then
                glob_loop fuel pattern text (S pattern_index) (S text_index) star_index
                  star_text_match
              else if decide (d = "*"%char) then
                glob_loop fuel pattern text (S pattern_index) text_index (Some pattern_index)
                  text_index
              else backtrack
          | None => backtrack
          end
      end
  end.

(** The final [while]: skip the stars, then test for the end. *)
Fixpoint only_stars (pattern : bytes) : bool :=
  match pattern with
  | [] => true
  | c :: pattern => if decide (c = "*"%char) then only_stars pattern else false
  end.

Definition glob_fuel (pattern text : bytes) : nat :=
  S (length text * S (length pattern) + length pattern).

Definition glob_match (pattern text : bytes) : res bool :=
  r ← glob_loop (glob_fuel pattern text) pattern text 0 0 None 0;
  mret (match r with
        | None => false
        | Some pattern_index => only_stars (drop pattern_index pattern)
        end).

Example glob_save : glob_match #"s*v?" #"save" = Ok true.
Proof. vm_compute. reflexivity. Qed.

(** ** What a pattern means *)

Inductive glob : bytes -> bytes -> Prop :=
  | glob_nil : glob [] []
  | glob_any c p t : glob p t -> glob ("?"%char :: p) (c :: t)
  | glob_lit c p t : c <> "*"%char -> glob p t -> glob (c :: p) (c :: t)
  | glob_star s p t : glob p t -> glob ("*"%char :: p) (s ++ t).

Lemma glob_star_absorb s p t : glob ("*"%char :: p) t -> glob ("*"%char :: p) (s ++ t).
Proof. inversion 1; subst; [done|]. rewrite app_assoc. by constructor. Qed.

Lemma glob_star_inv p t : glob ("*"%char :: p) t -> exists j, (j <= length t)%nat /\ glob p (drop j t).
Proof.
  inversion 1; subst; [done|]. exists (length s). rewrite length_app, drop_app_length.
  split; [lia|done].
Qed.

(** Star-free text consumes exactly its length. *)
Lemma glob_segment q p t :
  "*"%char ∉ q -> glob (q ++ p) t -> (length q <= length t)%nat /\ glob p (drop (length q) t).
Proof.
  revert t. induction q as [|c q IH]; intros t Hq; cbn; [intros; split; [lia|done]|].
  apply not_elem_of_cons in Hq as [Hc Hq]. inversion 1; subst; cbn.
  1, 2: destruct (IH _ Hq H3) || destruct (IH _ Hq H4); split; [lia|done].
  done.
Qed.

Lemma only_stars_glob p : only_stars p = true <-> glob p [].
Proof.
  induction p as [|c p IH]; cbn; [split; [constructor|done]|]. case_decide as Hc.
  - subst. rewrite IH. split; [intros; by apply (glob_star [])|].
    intros (j & _ & Hj)%glob_star_inv. by rewrite drop_nil in Hj.
  - split; [done|]. inversion 1; subst. done.
Qed.

(** A step of the loop that reads one character against one. *)
Lemma glob_char d p c t :
  d <> "*"%char -> glob (d :: p) (c :: t) <-> (d = "?"%char \/ d = c) /\ glob p t.
Proof.
  intros Hd. split.
  - inversion 1; subst; [by split; [left|]|by split; [right|]|done].
  - intros [[->| ->] H]; by constructor.
Qed.

(** ** The loop decides the meaning *)

Section Loop.
Variables pattern text : bytes.

(** The indices of a run: the characters since the last star have been
    matched one against one. *)
Record glob_state (pi ti : nat) (star : option nat) (stm : nat) : Prop := {
  gs_pi : (pi <= length pattern)%nat;
  gs_ti : (ti <= length text)%nat;
  gs_stm : (stm <= ti)%nat;
  gs_seg : match star with
           | Some si => (si < pi)%nat /\ (pi - S si = ti - stm)%nat
                        /\ ("*"%char ∉ text -> "*"%char ∉ take (pi - S si) (drop (S si) pattern))
           | None => True
           end }.

(** What is left to try. *)
Definition glob_pending (pi ti : nat) (star : option nat) (stm : nat) : Prop :=
  glob (drop pi pattern) (drop ti text)
  \/ match star with
     | Some si => exists j, (stm < j <= length text)%nat /\ glob (drop (S si) pattern) (drop j text)
     | None => False
     end.

(** An older alternative costs at least as much text as the current one. *)
Lemma glob_alternative pi ti si stm j :
  glob_state pi ti (Some si) stm -> "*"%char ∉ text -> (stm < j <= length text)%nat ->
  glob (drop (S si) pattern) (drop j text) ->
  exists k, (ti < k <= length text)%nat /\ glob (drop pi pattern) (drop k text).
Proof.
  intros [Hpi Hti Hstm (Hsi & Hn & Hseg)] Htext Hj Hg.
  set (n := (pi - S si)%nat) in *. set (q := drop (S si) pattern) in *.
  assert (Hq : q = take n q ++ drop pi pattern).
  { rewrite <- (take_drop n q) at 1. f_equal. unfold q. rewrite drop_drop. f_equal. lia. }
  assert (Hlen : length (take n q) = n) by (rewrite length_take; unfold q; rewrite length_drop; lia).
  rewrite Hq in Hg. apply glob_segment in Hg as [Hl Hg]; [|auto].
  rewrite Hlen, drop_drop in Hg. rewrite Hlen, length_drop in Hl.
  exists (j + n)%nat. split; [lia|done].
Qed.

(** One character against one. *)
Lemma state_char pi ti star stm c d :
  glob_state pi ti star stm -> text !! ti = Some c -> pattern !! pi = Some d ->
  (d = "?"%char \/ d = c) -> glob_state (S pi) (S ti) star stm.
Proof.
  intros [Hpi Hti Hstm Hseg] Hc Hd Hdc.
  pose proof (lookup_lt_Some _ _ _ Hc). pose proof (lookup_lt_Some _ _ _ Hd).
  split; [lia..|]. destruct star as [si|]; [|done]. destruct Hseg as (Hsi & Hn & Hseg).
  split; [lia|]. split; [lia|]. intros Htext.
  replace (S pi - S si)%nat with (S (pi - S si)) by lia.
  rewrite (take_S_r _ _ d) by (rewrite lookup_drop, <- Hd; f_equal; lia).
  rewrite elem_of_app, list_elem_of_singleton. intros [?| <-]; [by apply Hseg|].
  destruct Hdc as [?|<-]; [done|]. by apply Htext, list_elem_of_lookup_2 with ti.
Qed.

Lemma pending_char pi ti star stm c d :
  text !! ti = Some c -> pattern !! pi = Some d -> "*"%char ∉ text -> (d = "?"%char \/ d = c) ->
  glob_pending (S pi) (S ti) star stm <-> glob_pending pi ti star stm.
Proof.
  intros Hc Hd Htext Hdc. unfold glob_pending.
  rewrite (drop_S pattern _ pi Hd), (drop_S text _ ti Hc), glob_char; [tauto|].
  intros ->. destruct Hdc as [?| <-]; [done|]. by apply Htext, list_elem_of_lookup_2 with ti.
Qed.

(** A new star replaces the older one. *)
Lemma state_star pi ti star stm :
  glob_state pi ti star stm -> (pi < length pattern)%nat -> glob_state (S pi) ti (Some pi) ti.
Proof.
  intros [Hpi Hti Hstm _] H. split; [lia..|]. split; [lia|]. split; [lia|].
  rewrite Nat.sub_diag. intros _ ?%elem_of_nil. done.
Qed.

Lemma pending_star pi ti star stm :
  glob_state pi ti star stm -> "*"%char ∉ text -> pattern !! pi = Some "*"%char ->
  glob_pending (S pi) ti (Some pi) ti <-> glob_pending pi ti star stm.
Proof.
  intros Hst Htext Hd. unfold glob_pending. rewrite (drop_S pattern _ pi Hd).
  assert (Hlater : forall k, (ti <= k <= length text)%nat ->
    glob ("*"%char :: drop (S pi) pattern) (drop k text) ->
    glob (drop (S pi) pattern) (drop ti text)
    \/ exists j, (ti < j <= length text)%nat /\ glob (drop (S pi) pattern) (drop j text)).
  { intros k Hk (j & Hj & Hg)%glob_star_inv. rewrite length_drop in Hj. rewrite drop_drop in Hg.
    destruct (decide (k + j = ti)%nat) as [<-|]; [by left|right]. exists (k + j)%nat. split; [lia|done]. }
  pose proof (gs_ti _ _ _ _ Hst). split.
  - intros [Hg|(j & Hj & Hg)]; left.
    + by apply (glob_star []).
    + rewrite <- (take_drop (j - ti) (drop ti text)), drop_drop.
      replace (ti + (j - ti))%nat with j by lia. by constructor.
  - intros [Hg|Hold].
    + apply (Hlater ti); [lia|done].
    + destruct star as [si|]; [|done]. destruct Hold as (j & Hj & Hg).
      destruct (glob_alternative _ _ _ _ _ Hst Htext Hj Hg) as (k & Hk & Hg').
      rewrite (drop_S pattern _ pi Hd) in Hg'. apply (Hlater k); [lia|done].
Qed.

(** Back to the star, which takes one more character. *)
Lemma state_back pi ti si stm :
  glob_state pi ti (Some si) stm -> (ti < length text)%nat ->
  glob_state (S si) (S stm) (Some si) (S stm).
Proof.
  intros [Hpi Hti Hstm (Hsi & _)] H. split; [lia..|]. split; [lia|]. split; [lia|].
  rewrite Nat.sub_diag. intros _ ?%elem_of_nil. done.
Qed.

Lemma pending_back pi ti si stm :
  glob_state pi ti (Some si) stm -> (ti < length text)%nat ->
  ~ glob (drop pi pattern) (drop ti text) ->
  glob_pending (S si) (S stm) (Some si) (S stm) <-> glob_pending pi ti (Some si) stm.
Proof.
  intros [_ _ Hstm _] H Hno. unfold glob_pending. split.
  - intros [Hg|(j & Hj & Hg)]; right; [exists (S stm)|exists j]; (split; [lia|done]).
  - intros [?|(j & Hj & Hg)]; [done|]. destruct (decide (j = S stm)) as [->|]; [by left|].
    right. exists j. split; [lia|done].
Qed.

(** At the end of the text the older alternatives are too long. *)
Lemma pending_end pi ti star stm :
  glob_state pi ti star stm -> "*"%char ∉ text -> (length text <= ti)%nat ->
  glob (drop pi pattern) [] <-> glob_pending pi ti star stm.
Proof.
  intros Hst Htext Hti. unfold glob_pending. rewrite (drop_ge text ti) by done.
  split; [by left|]. intros [Hg|Hold]; [done|]. destruct star as [si|]; [|done].
  destruct Hold as (j & Hj & Hg).
  destruct (glob_alternative _ _ _ _ _ Hst Htext Hj Hg) as (k & Hk & _). lia.
Qed.

Lemma no_match pi ti c :
  text !! ti = Some c ->
  match pattern !! pi with Some d => d <> "?"%char /\ d <> c /\ d <> "*"%char | None => True end ->
  ~ glob (drop pi pattern) (drop ti text).
Proof.
  intros Hc Hd. rewrite (drop_S text _ ti Hc). destruct (pattern !! pi) as [d|] eqn:Ed.
  - rewrite (drop_S pattern _ pi Ed), glob_char by tauto. tauto.
  - rewrite drop_ge by (by apply lookup_ge_None). by inversion 1.
Qed.

Definition glob_measure (pi stm : nat) : nat :=
  ((length text - stm) * S (length pattern) + (length pattern - pi))%nat.

Lemma glob_loop_spec fuel pi ti star stm :
  glob_state pi ti star stm -> (glob_measure pi stm < fuel)%nat ->
  exists r, glob_loop fuel pattern text pi ti star stm = Ok r
    /\ ("*"%char ∉ text ->
        match r with Some i => glob (drop i pattern) [] | None => False end
        <-> glob_pending pi ti star stm).
Proof.
  revert pi ti star stm. induction fuel as [|fuel IH]; intros pi ti star stm Hst Hf; [lia|].
  unfold glob_measure in *. cbn [glob_loop]. destruct (text !! ti) as [c|] eqn:Ec.
  2: { eexists. split; [done|]. intros. by apply pending_end, lookup_ge_None. }
  pose proof (lookup_lt_Some _ _ _ Ec) as Hti. pose proof (gs_stm _ _ _ _ Hst).
  pose proof (gs_pi _ _ _ _ Hst).
  assert (Hback : ~ glob (drop pi pattern) (drop ti text) ->
    exists r, match star with
      | Some si => glob_loop fuel pattern text (S si) (S stm) star (S stm)
      | None => mret None end = Ok r
    /\ ("*"%char ∉ text ->
        match r with Some i => glob (drop i pattern) [] | None => False end
        <-> glob_pending pi ti star stm)).
  { intros Hno. destruct star as [si|].
    - destruct (IH (S si) (S stm) (Some si) (S stm)) as (r & -> & Hr).
      + by apply (state_back pi ti).
      + destruct (gs_seg _ _ _ _ Hst) as [? _]. nia.
      + exists r. split; [done|]. intros. by rewrite Hr, <- (pending_back pi ti).
    - exists None. split; [done|]. unfold glob_pending. tauto. }
  destruct (pattern !! pi) as [d|] eqn:Ed.
  2: { apply Hback, (no_match pi ti c); [done|by rewrite Ed]. }
  pose proof (lookup_lt_Some _ _ _ Ed) as Hpi.
  destruct (bool_decide (d = "?"%char) || bool_decide (d = c)) eqn:Edc.
  { apply orb_true_iff in Edc. rewrite !bool_decide_eq_true in Edc.
    destruct (IH (S pi) (S ti) star stm) as (r & -> & Hr); [by eapply state_char|lia|].
    exists r. split; [done|]. intros. by rewrite Hr, (pending_char pi ti _ _ c d). }
  apply orb_false_iff in Edc. rewrite !bool_decide_eq_false in Edc.
  destruct (decide (d = "*"%char)) as [->|Hd].
  - destruct (IH (S pi) ti (Some pi) ti) as (r & -> & Hr); [by eapply state_star|nia|].
    exists r. split; [done|]. intros. by rewrite Hr, (pending_star pi ti star stm).
  - apply Hback, (no_match pi ti c); [done|]. rewrite Ed. tauto.
Qed.
End Loop.

Lemma glob_match_decides pattern text :
  exists b, glob_match pattern text = Ok b
    /\ ("*"%char ∉ text -> b = true <-> glob pattern text).
Proof.
  destruct (glob_loop_spec pattern text (glob_fuel pattern text) 0 0 None 0) as (r & Hr & Hspec).
  - split; [lia..|done].
  - unfold glob_measure, glob_fuel. lia.
  - unfold glob_match. rewrite Hr. cbn. eexists. split; [done|]. intros Ht.
    specialize (Hspec Ht). unfold glob_pending in Hspec. cbn in Hspec.
    transitivity (glob pattern text \/ False); [|tauto]. rewrite <- Hspec.
    destruct r as [i|]; [apply only_stars_glob|by split].
Qed.

(** C33. [glob_match] terminates on every pattern and text, and on a text without
    ['*'] answers whether the pattern means it: ['?'] is any character, ['*']
    any sequence, every other character itself. *)
Theorem glob_match_correct pattern text :
  exists b, glob_match pattern text = Ok b
    /\ ("*"%char ∉ text -> b = true <-> glob pattern text).
Proof. apply glob_match_decides. Qed.

Lemma glob_match_total pattern text : exists b, glob_match pattern text = Ok b.
Proof. destruct (glob_match_decides pattern text) as (b & H & _). by exists b. Qed.

(** On a text with a ['*'] the loop may match it against the star of the
    pattern, character for character, and then never go back to that star. *)
Lemma glob_match_literal_star :
  glob_match #"*a" #"*ba" = Ok false /\ glob #"*a" #"*ba".
Proof.
  split; [vm_compute; reflexivity|]. apply (glob_star #"*b" #"a" #"a").
  apply glob_lit; [discriminate|constructor].
Qed.
