(* ===== verification/StdText.v ===== *)
(** * Text conversions of the C++ standard library

    [std::stoull] and [std::to_string], as the executor uses them. *)

From S2P Require Import Prelude RespParser RespReader RespSerializer.

(** [isspace] in the "C" locale: space, and TAB to CR. *)
Definition is_space (c : ascii) : bool :=
  (char_code c =? 32) || ((9 <=? char_code c) && (char_code c <=? 13)).

Fixpoint skip_spaces (s : bytes) : bytes :=
  match s with
  | c :: s' => if is_space c then skip_spaces s' else s
  | [] => []
  end.

(** The longest prefix of digits. *)
Fixpoint digit_run (s : bytes) : bytes :=
  match s with
  | c :: s => if is_digit c then c :: digit_run s else []
  | [] => []
  end.

(** [std::stoull(s)]; [None] is [std::invalid_argument] or
    [std::out_of_range].  As [strtoull], it skips white space, accepts a sign,
    ignores what follows the digits, and negates modulo [2 ^ 64]. *)
Definition stoull (s : bytes) : option Z :=
  let '(negative, s) := token_sign (skip_spaces s) in
  let ds := digit_run s in
  if bool_decide (ds = []) then None
  else if decimal ds <? two64
       then Some (if negative then u64 (- decimal ds) else decimal ds)
       else None.

(** [std::to_string] of an unsigned 64-bit number. *)
Definition to_string (n : Z) : bytes := digits n.

Lemma digit_run_all ds : forallb is_digit ds = true -> digit_run ds = ds.
Proof.
  induction ds as [|c ds IH]; [done|]. cbn. intros [-> H]%andb_true_iff. by rewrite IH.
Qed.

Lemma decimal_from_nonneg acc ds : 0 <= acc -> forallb is_digit ds = true -> 0 <= decimal_from acc ds.
Proof.
  revert acc. induction ds as [|c ds IH]; intros acc Ha; cbn; [done|].
  intros [Hc Hds]%andb_true_iff. apply digit_code in Hc. apply IH; [lia|done].
Qed.

Lemma digit_run_digits s : forallb is_digit (digit_run s) = true.
Proof. induction s as [|c s IH]; [done|]. cbn. destruct (is_digit c) eqn:E; [|done]. cbn. by rewrite E. Qed.

Lemma stoull_range s n : stoull s = Some n -> 0 <= n < two64.
Proof.
  unfold stoull. destruct (token_sign _) as [neg s']. case_bool_decide; [done|].
  destruct (Z.ltb_spec (decimal (digit_run s')) two64); [|done]. intros [= <-].
  destruct neg; [apply u64_bound|]. split; [|done].
  apply decimal_from_nonneg; [done|apply digit_run_digits].
Qed.

Lemma digit_not_space c : is_digit c = true -> is_space c = false.
Proof. intros H%digit_code. unfold is_space. by zcmp. Qed.

(** What [std::to_string] prints, [std::stoull] reads back. *)
Lemma stoull_to_string n : 0 <= n < two64 -> stoull (to_string n) = Some n.
Proof.
  intros Hn. destruct (digits_spec n) as (Hd & Hne & Hv & _); [unfold two64 in *; lia|].
  unfold stoull, to_string. destruct (digits n) as [|c ds] eqn:E; [done|].
  assert (Hc : is_digit c = true) by (cbn in Hd; by apply andb_true_iff in Hd as [? _]).
  cbn [skip_spaces]. rewrite digit_not_space by done.
  destruct (is_digit_sign c Hc) as [H1 H2]. cbn [token_sign]. rewrite !decide_False by done.
  rewrite digit_run_all, bool_decide_false, Hv by done. by zcmp.
Qed.

(** [std::stoull] is more lenient than an integer check. *)
Example stoull_lenient :
  stoull #" 10abc" = Some 10 /\ stoull #"-1" = Some (two64 - 1)
  /\ stoull #"abc" = None /\ stoull #"18446744073709551616" = None.
Proof. vm_compute. done. Qed.
