(* ===== verification/ShardPool.v ===== *)
(** * Shards, their threads and the router

    [include/shardRouter.hpp], [include/shardPool.hpp] and
    [src/shardPool.cpp]: which shard a key belongs to, the workers of the pool
    (a shard and the thread that runs its [io_context]), the life cycle of the
    pool, and the two ways to reach a shard - [local_shard] from its own
    thread, [run_on_shard] from anywhere.  Coroutines that call shards are the
    values of the type [Task].

    The hash function [XXH3_64bits] is an argument. *)

From S2P Require Import Prelude LruShard.

(** ** [shard_router] *)

Section Router.
Variable XXH3_64bits : bytes -> N.

Definition getShardIndex (k : bytes) (shard_count : nat) : res nat :=
  if decide (shard_count = 0%nat) then Fault AssertFailure
  else if decide (shard_count = 1%nat) then mret 0%nat
  else mret (N.to_nat (XXH3_64bits k mod N.of_nat shard_count)).

(** Every key has exactly one shard of the pool. *)
Lemma getShardIndex_range k n :
  (0 < n)%nat -> exists i, getShardIndex k n = Ok i /\ (i < n)%nat.
Proof.
  intros Hn. unfold getShardIndex. rewrite decide_False by lia. case_decide.
  - exists 0%nat. split; [done|lia].
  - eexists. split; [done|].
    pose proof (N.mod_upper_bound (XXH3_64bits k) (N.of_nat n)). lia.
Qed.
End Router.

(** ** [ShardPool] *)

Definition Tid := positive.

(** A worker: its shard, the identity its thread has stored, and the state of
    its [io_context] and thread. *)
Record Worker := mkWorker {
  shard : LruShard;
  thread_id : option Tid;
  work_guard : bool;      (** the guard that keeps [io_context::run] alive *)
  io_stopped : bool;      (** [io_context::stop] was called *)
  joinable : bool }.      (** a thread was created and not yet joined *)

Record ShardPool := mkShardPool {
  workers_ : list Worker;
  thread_affinity_enabled_ : bool;
  started_ : bool;
  stopped_ : bool }.

Definition newWorker (max_memory_bytes : Z) : Worker :=
  mkWorker (newShard max_memory_bytes) None true false false.

Definition newShardPool (shard_count : nat) (max_memory_bytes_per_shard : Z)
    (thread_affinity_enabled : bool) : ShardPool :=
  mkShardPool (replicate (Nat.max 1 shard_count) (newWorker max_memory_bytes_per_shard))
    thread_affinity_enabled false false.

Definition spawn_thread (w : Worker) : Worker :=
  mkWorker (shard w) (thread_id w) (work_guard w) (io_stopped w) true.

Definition start (p : ShardPool) : ShardPool :=
  if started_ p then p
  else mkShardPool (spawn_thread <$> workers_ p) (thread_affinity_enabled_ p) true (stopped_ p).

(** The first statement of a worker's thread. *)
Definition store_thread_id (tid : Tid) (w : Worker) : Worker :=
  mkWorker (shard w) (Some tid) (work_guard w) (io_stopped w) (joinable w).

Definition stop_worker (w : Worker) : Worker :=
  mkWorker (shard w) (thread_id w) false true (joinable w).
Definition join_worker (w : Worker) : Worker :=
  mkWorker (shard w) (thread_id w) (work_guard w) (io_stopped w) false.

Definition stop (p : ShardPool) : ShardPool :=
  if stopped_ p then p
  else mkShardPool (join_worker <$> (stop_worker <$> workers_ p))
         (thread_affinity_enabled_ p) (started_ p) true.

(** [~ShardPool] *)
Definition destroy (p : ShardPool) : ShardPool := stop p.

Definition size (p : ShardPool) : nat := length (workers_ p).

(** [workers_[shard_index]], after its [assert]. *)
Definition worker_at (p : ShardPool) (shard_index : nat) : res Worker :=
  of_option AssertFailure (workers_ p !! shard_index).

(** [self] is [std::this_thread::get_id()]. *)
Definition is_on_shard_thread (self : Tid) (p : ShardPool) (shard_index : nat) : res bool :=
  worker ← worker_at p shard_index;
  mret (bool_decide (thread_id worker = Some self)).

Definition local_shard (self : Tid) (p : ShardPool) (shard_index : nat) : res LruShard :=
  worker ← worker_at p shard_index;
  on ← is_on_shard_thread self p shard_index;
  _ ← check AssertFailure on;
  mret (shard worker).

Definition put_shard (i : nat) (s : LruShard) (p : ShardPool) : ShardPool :=
  mkShardPool
    (alter (fun w => mkWorker s (thread_id w) (work_guard w) (io_stopped w) (joinable w)) i
       (workers_ p))
    (thread_affinity_enabled_ p) (started_ p) (stopped_ p).

(** ** Coroutines over the pool

    The clock readings of one call on a shard, in order. *)
Definition Clock : Type := TimePoint * TimePoint.

(** [Local] is a call on [local_shard(i)], in the thread of the caller;
    [Remote] is [co_await run_on_shard(i, fn)], which runs [fn] in the thread of
    worker [i] and then resumes the caller where it was. *)
Inductive Access := Local | Remote.

Inductive Task (A : Type) : Type :=
  | TRet (a : A)
  | TFault (f : fault)
  | TCall (how : Access) (i : nat) (B : Type) (fn : Clock -> LruShard -> res (B * LruShard))
      (k : B -> Task A).
Arguments TRet {A} a.
Arguments TFault {A} f.
Arguments TCall {A} how i {B} fn k.

#[global] Instance task_ret : MRet Task := @TRet.
#[global] Instance task_bind : MBind Task := fun A B k =>
  fix bind (m : Task A) : Task B :=
    match m with
    | TRet a => k a
    | TFault f => TFault f
    | TCall how i fn k' => TCall how i fn (fun b => bind (k' b))
    end.

Definition lift {A} (m : res A) : Task A :=
  match m with Ok a => TRet a | Fault f => TFault f end.

Definition call_local {B} (i : nat) (fn : Clock -> LruShard -> res (B * LruShard)) : Task B :=
  TCall Local i fn TRet.
Definition run_on_shard {B} (i : nat) (fn : Clock -> LruShard -> res (B * LruShard)) : Task B :=
  TCall Remote i fn TRet.

(** The shard a call works on; the [assert]s of both ways to reach it. *)
Definition reach (self : Tid) (how : Access) (i : nat) (p : ShardPool) : res LruShard :=
  match how with
  | Local => local_shard self p i
  | Remote => worker ← worker_at p i; mret (shard worker)
  end.

(** One call, and what is left of the coroutine. *)
Definition task_step {A} (self : Tid) (c : Clock) (t : Task A) (p : ShardPool)
    : option (res (Task A * ShardPool)) :=
  match t with
  | TRet _ => None
  | TFault f => Some (Fault f)
  | TCall how i fn k =>
      Some (s ← reach self how i p; '(b, s) ← fn c s; mret (k b, put_shard i s p))
  end.

(** A coroutine on its own, the clock being read as [clk 0], [clk 1], ... by
    its successive calls. *)
Fixpoint run_from {A} (self : Tid) (clk : nat -> Clock) (n : nat) (t : Task A) (p : ShardPool)
    : res (A * (nat * ShardPool)) :=
  match t with
  | TRet a => mret (a, (n, p))
  | TFault f => Fault f
  | TCall how i fn k =>
      s ← reach self how i p;
      '(b, s) ← fn (clk n) s;
      run_from self clk (S n) (k b) (put_shard i s p)
  end.

Definition run {A} (self : Tid) (clk : nat -> Clock) (t : Task A) (p : ShardPool)
    : res (A * ShardPool) :=
  '(a, (_, p)) ← run_from self clk 0 t p; mret (a, p).

(** ** Facts about pools *)

Definition shards (p : ShardPool) : list LruShard := shard <$> workers_ p.

Lemma worker_at_Ok p i w : worker_at p i = Ok w <-> workers_ p !! i = Some w.
Proof. apply of_option_Ok. Qed.

Lemma shards_lookup p i w : workers_ p !! i = Some w -> shards p !! i = Some (shard w).
Proof. intros H. unfold shards. by rewrite list_lookup_fmap, H. Qed.

Lemma shards_length p : length (shards p) = size p.
Proof. apply length_fmap. Qed.

Lemma put_shard_shards i s p : shards (put_shard i s p) = <[i := s]> (shards p).
Proof.
  unfold shards, put_shard. cbn. generalize (workers_ p). intros ws. revert i.
  induction ws as [|w ws IH]; intros [|i]; cbn; try done. f_equal. apply IH.
Qed.

Lemma put_shard_size i s p : size (put_shard i s p) = size p.
Proof. apply length_alter. Qed.

(** The identities of the threads. *)
Definition threads (p : ShardPool) : list (option Tid) := thread_id <$> workers_ p.

Lemma put_shard_threads i s p : threads (put_shard i s p) = threads p.
Proof.
  unfold threads, put_shard. cbn. generalize (workers_ p). intros ws. revert i.
  induction ws as [|w ws IH]; intros [|i]; cbn; try done. f_equal. apply IH.
Qed.

Lemma put_shard_same i s p : shards p !! i = Some s -> put_shard i s p = p.
Proof.
  unfold shards, put_shard. destruct p as [ws a b c]. cbn. intros H. f_equal. revert i H.
  induction ws as [|w ws IH]; intros [|i]; cbn; try done.
  - intros [= <-]. by destruct w.
  - intros H. f_equal. by apply IH.
Qed.

Lemma worker_exists p i : (i < size p)%nat -> exists w, workers_ p !! i = Some w.
Proof. intros H. by apply lookup_lt_is_Some_2. Qed.

Lemma is_on_shard_thread_total self p i :
  (i < size p)%nat -> exists b, is_on_shard_thread self p i = Ok b.
Proof.
  intros [w Hw]%worker_exists. unfold is_on_shard_thread, worker_at. rewrite Hw. cbn. by eexists.
Qed.

(** A shard is reached in either way, in place only from its own thread. *)
Lemma reach_Ok self how i p s :
  shards p !! i = Some s -> (how = Local -> is_on_shard_thread self p i = Ok true) ->
  reach self how i p = Ok s.
Proof.
  unfold shards. rewrite list_lookup_fmap. intros H Hl.
  destruct (workers_ p !! i) as [w|] eqn:Hw; cbn in H; simplify_eq.
  destruct how; cbn; unfold local_shard, worker_at; rewrite Hw; cbn; [|done].
  by rewrite Hl.
Qed.

(** The thread of a call: the caller's own, or the worker's. *)
Lemma reach_shard self how i p s : reach self how i p = Ok s -> shards p !! i = Some s.
Proof.
  unfold reach, local_shard. intros H. destruct how; res_inv;
    rewrite worker_at_Ok in *; by apply shards_lookup.
Qed.

Lemma run_from_bind {A B} self clk (m : Task A) (k : A -> Task B) n p :
  run_from self clk n (m ≫= k) p
  = '(a, (n, p)) ← run_from self clk n m p; run_from self clk n (k a) p.
Proof.
  revert n p. induction m as [a|f|how i C fn k' IH]; intros n p; [done..|].
  unfold mbind, task_bind. cbn [run_from]. fold (@task_bind A B).
  destruct (reach self how i p) as [s|]; [|done]. cbn.
  destruct (fn (clk n) s) as [[b s']|]; [|done]. apply IH.
Qed.

Lemma run_from_lift {A} self clk n (m : res A) p :
  run_from self clk n (lift m) p = a ← m; mret (a, (n, p)).
Proof. by destruct m. Qed.

(** ** Pools at work *)

Lemma newShardPool_size n m b : size (newShardPool n m b) = Nat.max 1 n.
Proof. apply length_replicate. Qed.

