(* ===== verification/CommandExecutor.v ===== *)
(** * The command executor: definitions

    [src/commandExecutor.cpp] and [include/commandExecutor.hpp]: a function per
    command ([processGetCommand] and its siblings), and the two coroutines
    that route a command to the shards it concerns.  A function that is given a
    shard is a state-passing function of the clock and the shard; the
    coroutines are values of [Task].  Logging is left out. *)

From S2P Require Import Prelude RespValue Command Glob StdText LruShard ShardPool.

(** ** Commands on one shard *)

(** [cmd.args[i]] *)
Definition arg (cmd : Command) (i : nat) : res bytes := of_option OutOfBounds (args cmd !! i).

Definition null_reply : RespValue := RespString kNullBulkString [].
Definition ok_reply : RespValue := RespString kSimpleString #"OK".
Definition error_reply (s : bytes) : RespValue := RespString kError s.
Definition syntax_error : RespValue := error_reply #"ERR syntax error".
Definition not_an_integer : RespValue :=
  error_reply #"ERR value is not an integer or out of range".

Definition processGetCommand (cmd : Command) (c : Clock) (shard : LruShard)
    : res (RespValue * LruShard) :=
  k ← arg cmd 0;
  '(result, shard) ← get (fst c) k shard;
  mret (match result with
        | Some value => RespString kBulkString value
        | None => null_reply
        end, shard).

(** Lines 37-71: the reply of an early [return], or [expire_seconds]. *)
Definition set_options (cmd : Command) (c : Clock) (shard : LruShard)
    : res ((RespValue + option Z) * LruShard) :=
  k ← arg cmd 0;
  if decide (length (args cmd) = 3%nat) then
    option ← arg cmd 2;
    let option := to_uppercase option in
    if decide (option = #"NX") then
      '(found, shard) ← get (fst c) k shard;
      mret (if decide (is_Some found) then inl null_reply else inr None, shard)
    else if decide (option = #"XX") then
      '(found, shard) ← get (fst c) k shard;
      mret (if decide (is_Some found) then inr None else inl null_reply, shard)
    else mret (inl syntax_error, shard)
  else if decide (length (args cmd) = 4%nat) then
    expire_option ← arg cmd 2;
    if decide (to_uppercase expire_option = #"EX") then
      seconds ← arg cmd 3;
      match stoull seconds with
      | Some n => mret (inr (Some n), shard)
      | None => mret (inl not_an_integer, shard)
      end
    else mret (inl syntax_error, shard)
  else mret (inr None, shard).

Definition processSetCommand (cmd : Command) (c : Clock) (shard : LruShard)
    : res (RespValue * LruShard) :=
  '(r, shard) ← set_options cmd c shard;
  match r with
  | inl reply => mret (reply, shard)
  | inr expire_seconds =>
      k ← arg cmd 0;
      value ← arg cmd 1;
      shard ← set (fst c) k value expire_seconds shard;
      mret (ok_reply, shard)
  end.

Fixpoint del_loop (keys : list bytes) (deleted_count : Z) (shard : LruShard)
    : res (Z * LruShard) :=
  match keys with
  | [] => mret (deleted_count, shard)
  | k :: keys =>
      '(deleted, shard) ← del k shard;
      deleted_count ← (if deleted : bool then add_i64 deleted_count 1 else mret deleted_count);
      del_loop keys deleted_count shard
  end.

Definition processDelKeys (keys : list bytes) (c : Clock) (shard : LruShard)
    : res (Z * LruShard) := del_loop keys 0 shard.

Definition processExpireCommand (cmd : Command) (c : Clock) (shard : LruShard)
    : res (RespValue * LruShard) :=
  text ← arg cmd 1;
  match stoull text with
  | None => mret (not_an_integer, shard)
  | Some seconds =>
      k ← arg cmd 0;
      '(result, shard) ← expire (fst c) k seconds shard;
      mret (RespInt kInteger (if result : bool then 1 else 0), shard)
  end.

Definition processTtlCommand (cmd : Command) (c : Clock) (shard : LruShard)
    : res (RespValue * LruShard) :=
  k ← arg cmd 0;
  '(ttl_value, shard) ← ttl (fst c) (snd c) k shard;
  mret (RespInt kInteger ttl_value, shard).

(** ** Commands without a shard *)

Definition processPingCommand (cmd : Command) : res RespValue :=
  if decide (length (args cmd) = 1%nat)
  then response_str ← arg cmd 0; mret (RespString kBulkString response_str)
  else mret (RespString kBulkString #"PONG").

Definition command_entry (def : CommandDefinition) : RespValue :=
  RespArr kArray [RespString kBulkString (def_name def); RespInt kInteger (arity def)].

(** [std::find_if] over [kCommands] *)
Definition find_command (cmd_name : bytes) : option CommandDefinition :=
  List.find (fun def => bool_decide (def_name def = cmd_name)) kCommands.

(** The loop of lines 150-165 over the names that follow [INFO]. *)
Fixpoint command_info_loop (names : list bytes) (commands : list RespValue) : list RespValue :=
  match names with
  | [] => commands
  | cmd_name :: names =>
      command_info_loop names
        (match find_command (to_uppercase cmd_name) with
         | Some def => commands ++ [command_entry def]
         | None => commands
         end)
  end.

Definition processCommandCommand (cmd : Command) : RespValue :=
  match args cmd with
  | [] => RespArr kArray (command_entry <$> kCommands)
  | subcommand :: names =>
      if decide (to_uppercase subcommand = #"INFO") then
        RespArr kArray (command_info_loop names [])
      else if decide (to_uppercase subcommand = #"COUNT") then
        RespInt kInteger (zlen kCommands)
      else error_reply #"Unknown subcommand"
  end.

Definition kSupportedConfigValues : list (bytes * bytes) :=
  [ (#"save", #""); (#"appendonly", #"no") ].

Fixpoint config_loop (pattern : bytes) (values : list (bytes * bytes)) (result : list RespValue)
    : res (list RespValue) :=
  match values with
  | [] => mret result
  | (name, value) :: values =>
      matched ← glob_match pattern name;
      config_loop pattern values
        (if matched : bool
         then result ++ [RespString kBulkString name; RespString kBulkString value] else result)
  end.

Definition processConfigCommand (cmd : Command) : res RespValue :=
  subcommand ← arg cmd 0;
  if decide (to_uppercase subcommand = #"GET") then
    pattern ← arg cmd 1;
    result ← config_loop (to_lowercase pattern) kSupportedConfigValues [];
    mret (RespArr kArray result)
  else mret (error_reply #"Unknown subcommand").

Definition processUnknownCommand : RespValue := error_reply #"ERR unknown command".

(** ** INFO *)

(** The five sums of lines 255-259, all of them 64-bit unsigned. *)
Definition add_stats (a b : Stats) : Stats :=
  mkStats (u64 (used_payload_bytes a + used_payload_bytes b)) (u64 (key_count a + key_count b))
    (u64 (evictions a + evictions b)) (u64 (expired a + expired b))
    (u64 (max_memory_bytes a + max_memory_bytes b)).

Definition info_line (name : bytes) (n : Z) : bytes := name ++ to_string n ++ crlf.

Definition info_text (t : Stats) : bytes :=
  #"# Memory" ++ crlf
  ++ info_line #"used_bytes:" (used_payload_bytes t)
  ++ info_line #"keys:" (key_count t)
  ++ info_line #"evictions:" (evictions t)
  ++ info_line #"expired:" (expired t)
  ++ info_line #"max_memory_bytes:" (max_memory_bytes t)
  ++ #"memory_model:payload_bytes" ++ crlf.

(** The loop of lines 261-269, from shard [i], [todo] shards being left. *)
Fixpoint info_loop (todo i : nat) (sums : Stats) : Task Stats :=
  match todo with
  | O => mret sums
  | S todo =>
      shard_stats ← run_on_shard i (fun _ shard => mret (get_stats shard, shard));
      info_loop todo (S i) (add_stats sums shard_stats)
  end.

Definition info_sections : list bytes := [ #"DEFAULT"; #"MEMORY"; #"ALL" ].

Definition processInfoCommand (cmd : Command) (pool_size : nat) : Task RespValue :=
  let section := match args cmd with [] => #"DEFAULT" | s :: _ => to_uppercase s end in
  if decide (section ∈ info_sections) then
    sums ← info_loop pool_size 0 (mkStats 0 0 0 0 0);
    mret (RespString kBulkString (info_text sums))
  else mret (error_reply #"ERR unsupported INFO section").

(** ** [CommandExecutor]

    [self] is the thread that starts the coroutine; [size] and the identities
    of the threads do not change while the server runs. *)

(** A call on a shard: in place when [local], else through its thread. *)
Definition on_shard {B} (local : bool) (i : nat)
    (fn : Clock -> LruShard -> res (B * LruShard)) : Task B :=
  if local then call_local i fn else run_on_shard i fn.

Definition execute_single_shard (self : Tid) (p : ShardPool) (cmd : Command)
    (home_shard : option nat) : Task RespValue :=
  let kShardIndex := 0%nat in
  can_use_local ← lift (match home_shard with
                        | Some h => if decide (h = kShardIndex)
                                    then is_on_shard_thread self p kShardIndex else mret false
                        | None => mret false
                        end);
  match ctype cmd with
  | CGet => on_shard can_use_local kShardIndex (processGetCommand cmd)
  | CSet => on_shard can_use_local kShardIndex (processSetCommand cmd)
  | CDel =>
      deleted_count ← on_shard can_use_local kShardIndex (processDelKeys (args cmd));
      mret (RespInt kInteger deleted_count)
  | CExpire => on_shard can_use_local kShardIndex (processExpireCommand cmd)
  | CTtl => on_shard can_use_local kShardIndex (processTtlCommand cmd)
  | CInfo => processInfoCommand cmd (size p)
  | CPing => lift (processPingCommand cmd)
  | CCommand => mret (processCommandCommand cmd)
  | CConfig => lift (processConfigCommand cmd)
  | CUnknown => mret processUnknownCommand
  end.

Section Execute.
Variable XXH3_64bits : bytes -> N.

(** Lines 409-413: [keys_by_shard[shard_index].push_back(key)]. *)
Fixpoint group_keys (keys : list bytes) (shard_count : nat) (keys_by_shard : list (list bytes))
    : res (list (list bytes)) :=
  match keys with
  | [] => mret keys_by_shard
  | k :: keys =>
      shard_index ← getShardIndex XXH3_64bits k shard_count;
      _ ← of_option OutOfBounds (keys_by_shard !! shard_index);
      group_keys keys shard_count (alter (fun l => l ++ [k]) shard_index keys_by_shard)
  end.

(** Lines 424-435, from shard [i]. *)
Fixpoint del_shards (groups : list (list bytes)) (i : nat) (deleted_count : Z) : Task Z :=
  match groups with
  | [] => mret deleted_count
  | keys :: groups =>
      deleted_count ← (match keys with
        | [] => mret deleted_count
        | _ => count ← run_on_shard i (processDelKeys keys);
               lift (add_i64 deleted_count count)
        end);
      del_shards groups (S i) deleted_count
  end.

Definition execute_multi_del (p : ShardPool) (cmd : Command) (local_index : option nat)
    : Task RespValue :=
  keys_by_shard ← lift (group_keys (args cmd) (size p) (replicate (size p) []));
  '(deleted_count, keys_by_shard) ←
    (match local_index with
     | None => mret (0, keys_by_shard)
     | Some h =>
         keys ← lift (of_option OutOfBounds (keys_by_shard !! h));
         match keys with
         | [] => mret (0, keys_by_shard)
         | _ =>
             count ← call_local h (processDelKeys keys);
             deleted_count ← lift (add_i64 0 count);
             mret (deleted_count, <[h := []]> keys_by_shard)
         end
     end);
  deleted_count ← del_shards keys_by_shard 0 deleted_count;
  mret (RespInt kInteger deleted_count).

(** [*home_shard] when [can_use_local], the two variables of lines 381-385. *)
Definition usable_home (self : Tid) (p : ShardPool) (home_shard : option nat)
    : res (option nat) :=
  match home_shard with
  | None => mret None
  | Some h =>
      on ← is_on_shard_thread self p h;
      mret (if on : bool then Some h else None)
  end.

(** The cases of one key: route, then call. *)
Definition on_key_shard (p : ShardPool) (local_index : option nat) (cmd : Command)
    (fn : Clock -> LruShard -> res (RespValue * LruShard)) : Task RespValue :=
  k ← lift (arg cmd 0);
  shard_index ← lift (getShardIndex XXH3_64bits k (size p));
  on_shard (bool_decide (local_index = Some shard_index)) shard_index fn.

Definition execute_multi_shard (self : Tid) (p : ShardPool) (cmd : Command)
    (home_shard : option nat) : Task RespValue :=
  local_index ← lift (usable_home self p home_shard);
  match ctype cmd with
  | CGet => on_key_shard p local_index cmd (processGetCommand cmd)
  | CSet => on_key_shard p local_index cmd (processSetCommand cmd)
  | CDel => execute_multi_del p cmd local_index
  | CExpire => on_key_shard p local_index cmd (processExpireCommand cmd)
  | CTtl => on_key_shard p local_index cmd (processTtlCommand cmd)
  | CInfo => processInfoCommand cmd (size p)
  | CPing => lift (processPingCommand cmd)
  | CCommand => mret (processCommandCommand cmd)
  | CConfig => lift (processConfigCommand cmd)
  | CUnknown => mret processUnknownCommand
  end.

(** [execute_impl_], a pointer to one of the two; [shard_pool_] refers to the
    pool, which is an argument of what reads it. *)
Inductive ExecuteImpl := SingleShard | MultiShard.
Record CommandExecutor := mkCommandExecutor { execute_impl_ : ExecuteImpl }.

Definition newCommandExecutor (shard_pool : ShardPool) : CommandExecutor :=
  mkCommandExecutor (if decide (size shard_pool = 1%nat) then SingleShard else MultiShard).

Definition executor_execute (executor : CommandExecutor) (self : Tid) (p : ShardPool) (cmd : Command)
    (home_shard : option nat) : Task RespValue :=
  match execute_impl_ executor with
  | SingleShard => execute_single_shard self p cmd home_shard
  | MultiShard => execute_multi_shard self p cmd home_shard
  end.

(** The executor of a pool, run on it. *)
Definition execute (self : Tid) (p : ShardPool) (cmd : Command) (home_shard : option nat)
    : Task RespValue :=
  executor_execute (newCommandExecutor p) self p cmd home_shard.

Lemma execute_eq self p cmd home_shard :
  execute self p cmd home_shard
  = if decide (size p = 1%nat) then execute_single_shard self p cmd home_shard
    else execute_multi_shard self p cmd home_shard.
Proof. unfold execute, executor_execute, newCommandExecutor. by case_decide. Qed.

(** A session creates its executor once; the pool changes while it lives, but
    not its size, so the choice stays right. *)
Lemma executor_keeps self p p' cmd home_shard :
  size p' = size p ->
  executor_execute (newCommandExecutor p) self p' cmd home_shard = execute self p' cmd home_shard.
Proof. intros H. unfold execute, newCommandExecutor. by rewrite H. Qed.
End Execute.
