(* ===== verification/ExecutorSpec.v ===== *)
(** * What a command means on one cache

    [spec_command] says what each command that concerns a shard does to an
    abstract cache and what it answers, and [meaning] adds when its deadline
    overflows; [process_implements] shows that the functions of
    [CommandExecutor] implement it on [LruShard]. *)

From S2P Require Import Prelude RespValue Command StdText LruShard LruSpec LruInv LruRefine.
From S2P Require Import LruTheorems ShardPool CommandExecutor.

(** ** The commands on an abstract cache *)

Definition spec_get (now : Z) (k : bytes) (c : Cache) : RespValue * Cache :=
  let '(r, c) := c_get now k c in
  (match r with Some v => RespString kBulkString v | None => null_reply end, c).

Definition spec_put (k v : bytes) (deadline : option Z) (c : Cache) : RespValue * Cache :=
  (ok_reply, c_set k v deadline c).

(** [SET k v NX] and [SET k v XX]: [wanted] is whether the key must exist. *)
Definition spec_put_if (wanted : bool) (now : Z) (k v : bytes) (c : Cache) : RespValue * Cache :=
  let '(found, c) := c_get now k c in
  if Bool.eqb (bool_decide (is_Some found)) wanted then spec_put k v None c else (null_reply, c).

Definition spec_set (now : Z) (k v : bytes) (options : list bytes) (c : Cache) : RespValue * Cache :=
  match options with
  | [] => spec_put k v None c
  | [o] =>
      if decide (to_uppercase o = #"NX") then spec_put_if false now k v c
      else if decide (to_uppercase o = #"XX") then spec_put_if true now k v c
      else (syntax_error, c)
  | o :: n :: _ =>
      if decide (to_uppercase o = #"EX") then
        match stoull n with
        | Some seconds => spec_put k v (deadline_of now seconds) c
        | None => (not_an_integer, c)
        end
      else (syntax_error, c)
  end.

Definition spec_expire (now : Z) (k n : bytes) (c : Cache) : RespValue * Cache :=
  match stoull n with
  | None => (not_an_integer, c)
  | Some seconds =>
      let '(r, c) := c_expire k (default 0 (deadline_of now seconds)) c in
      (RespInt kInteger (if r : bool then 1 else 0), c)
  end.

Definition spec_ttl (now now' : Z) (k : bytes) (c : Cache) : RespValue * Cache :=
  let '(r, c) := c_ttl now now' k c in (RespInt kInteger r, c).

(** [DEL] removes the keys, however often they are named, and counts the
    entries that went. *)
Definition c_dels (ks : list bytes) (c : Cache) : Cache :=
  mkCache (filter (fun e => e_key e ∉ ks) (entries c)) (budget c) (evicted c) (lapsed c).

Definition gone (c c' : Cache) : Z := zlen (entries c) - zlen (entries c').

Definition spec_command (cmd : Command) (clock : Clock) (c : Cache) : RespValue * Cache :=
  match ctype cmd, args cmd with
  | CGet, k :: _ => spec_get (fst clock) k c
  | CSet, k :: v :: options => spec_set (fst clock) k v options c
  | CDel, ks => (RespInt kInteger (gone c (c_dels ks c)), c_dels ks c)
  | CExpire, k :: n :: _ => spec_expire (fst clock) k n c
  | CTtl, k :: _ => spec_ttl (fst clock) (snd clock) k c
  | _, _ => (processUnknownCommand, c)
  end.

(** The function the executor runs on a shard. *)
Definition process (cmd : Command) (clock : Clock) (s : LruShard) : res (RespValue * LruShard) :=
  match ctype cmd with
  | CGet => processGetCommand cmd clock s
  | CSet => processSetCommand cmd clock s
  | CDel => '(n, s) ← processDelKeys (args cmd) clock s; mret (RespInt kInteger n, s)
  | CExpire => processExpireCommand cmd clock s
  | CTtl => processTtlCommand cmd clock s
  | _ => mret (processUnknownCommand, s)
  end.

Definition on_a_shard (t : CommandType) : bool :=
  match t with CGet | CSet | CDel | CExpire | CTtl => true | _ => false end.

(** What the environment provides: a payload that fits [std::size_t] beside the
    budget, and two readings of the steady clock in order, where the code makes
    two. *)
Definition payload_fits (b : Z) (cmd : Command) : Prop :=
  match ctype cmd, args cmd with CSet, k :: v :: _ => b + (zlen k + zlen v) < two64 | _, _ => True end.
Definition clock_defined (cmd : Command) (clock : Clock) : Prop :=
  ctype cmd = CTtl -> 0 <= fst clock <= snd clock /\ snd clock <= i64_max.
Definition command_defined (b : Z) (cmd : Command) (clock : Clock) : Prop :=
  payload_fits b cmd /\ clock_defined cmd clock.

(** The count of seconds of a command, if it has one, does not take the
    deadline out of the range of the clock. *)
Definition count_fits (now : Z) (n : bytes) : bool :=
  match stoull n with Some seconds => bool_decide (is_Some (deadline_of now seconds)) | None => true end.
Definition counts_fit (cmd : Command) (clock : Clock) : bool :=
  match ctype cmd, args cmd with
  | CSet, [_; _; o; n] => negb (bool_decide (to_uppercase o = #"EX")) || count_fits (fst clock) n
  | CExpire, [_; n] => count_fits (fst clock) n
  | _, _ => true
  end.

(** The command computes a deadline that overflows: [SET] does so before it
    looks at the key, [EXPIRE] when the key is there. *)
Definition overflows (cmd : Command) (clock : Clock) (c : Cache) : bool :=
  negb (counts_fit cmd clock)
  && match ctype cmd, args cmd with
     | CExpire, k :: _ => bool_decide (is_Some (lookup_key k (entries c)))
     | _, _ => true
     end.

(** The meaning of a command, that overflow included. *)
Definition meaning (cmd : Command) (clock : Clock) (c : Cache) : res (RespValue * Cache) :=
  if overflows cmd clock c then Fault SignedOverflow else Ok (spec_command cmd clock c).

Lemma overflows_count cmd clock c : overflows cmd clock c = true -> counts_fit cmd clock = false.
Proof. by intros [H%negb_true_iff _]%andb_true_iff. Qed.

Lemma counts_overflows cmd clock c : counts_fit cmd clock = true -> overflows cmd clock c = false.
Proof. intros H. unfold overflows. by rewrite H. Qed.

Lemma meaning_fits cmd clock c : counts_fit cmd clock = true -> meaning cmd clock c = Ok (spec_command cmd clock c).
Proof. intros H. unfold meaning. by rewrite counts_overflows. Qed.

(** A count that ever fits does so at the start of the clock. *)
Lemma counts_fit_start cmd clock : counts_fit cmd clock = true -> counts_fit cmd (0, 0) = true.
Proof.
  assert (H : forall now n, count_fits now n = true -> count_fits 0 n = true).
  { intros now n. unfold count_fits. destruct (stoull n) as [seconds|]; [|done].
    rewrite !bool_decide_eq_true. unfold deadline_of, after_seconds, mul_i64, add_i64, checked. intros [t Ht]. revert Ht.
    destruct (in_i64 (i64 seconds * _)) eqn:E; [|done]. cbn [mbind res_bind]. rewrite Z.add_0_l, E. by eexists. }
  unfold counts_fit. repeat case_match; try done; rewrite ?orb_true_iff; cbn [fst]; [|by apply H].
  intros [?|?]; [by left|right; by eapply H].
Qed.

(** Commands without a count. *)
Lemma overflows_other cmd clock c : ctype cmd <> CSet -> ctype cmd <> CExpire -> overflows cmd clock c = false.
Proof. intros H1 H2. apply counts_overflows. unfold counts_fit. by destruct (ctype cmd). Qed.

(** ** Refinement *)

Lemma valid_args cmd : valid_command cmd = true ->
  match ctype cmd with
  | CUnknown => False
  | CGet | CTtl => exists k, args cmd = [k]
  | CSet => exists k v options, args cmd = k :: v :: options /\ (length options <= 2)%nat
  | CExpire | CConfig => exists a b, args cmd = [a; b]
  | CInfo | CPing => args cmd = [] \/ exists a, args cmd = [a]
  | CDel => exists k ks, args cmd = k :: ks
  | CCommand => True
  end.
Proof.
  unfold valid_command, zlen. destruct cmd as [t l]. cbn [ctype args].
  destruct t; cbn [arity_ok]; rewrite ?andb_true_iff, ?Z.eqb_eq, ?Z.leb_le; intros H; try done;
    destruct l as [|a [|b [|c [|d [|e l]]]]]; cbn [length] in H; try lia; eauto 8;
    eexists _, _, _; (split; [reflexivity|cbn; lia]).
Qed.

Lemma c_get_budget now k c : budget (c_get now k c).2 = budget c.
Proof. unfold c_get. by repeat case_match. Qed.

Lemma put_refines now k v seconds t s :
  Inv s -> deadline_after now seconds = Some t -> max_memory_bytes_ s + (zlen k + zlen v) < two64 ->
  exists s', set now k v seconds s = Ok s' /\ Inv s' /\ abs s' = (spec_put k v t (abs s)).2.
Proof. intros. by apply set_refines. Qed.

Lemma abs_budget s : budget (abs s) = max_memory_bytes_ s.
Proof. done. Qed.

Lemma put_if_refines wanted now k v s :
  Inv s -> max_memory_bytes_ s + (zlen k + zlen v) < two64 ->
  refines ('(found, s) ← get now k s;
           if Bool.eqb (bool_decide (is_Some found)) wanted
           then s ← set now k v None s; mret (ok_reply, s) else mret (null_reply, s))
    (spec_put_if wanted now k v (abs s)).
Proof.
  intros I Hb. destruct (get_refines now k s I) as (s1 & H1 & I1 & A1). unfold refines, spec_put_if.
  rewrite H1. cbn [mbind res_bind]. pose proof (c_get_budget now k (abs s)) as Hbud.
  destruct (c_get now k (abs s)) as [found c]. cbn [fst snd] in *. subst c.
  destruct (Bool.eqb _ _); [|by exists s1].
  destruct (put_refines now k v None None s1 I1 eq_refl) as (s2 & -> & I2 & A2).
  - by rewrite <- abs_budget, Hbud.
  - by exists s2.
Qed.

Lemma deadline_after_some now n t : deadline_of now n = Some t -> deadline_after now (Some n) = Some (Some t).
Proof. intros H. unfold deadline_after. by rewrite after_seconds_cases, H. Qed.

Lemma set_command_implements k v options clock s :
  Inv s -> (length options <= 2)%nat ->
  payload_fits (max_memory_bytes_ s) (mkCommand CSet (k :: v :: options)) ->
  implements (processSetCommand (mkCommand CSet (k :: v :: options)) clock s)
    (meaning (mkCommand CSet (k :: v :: options)) clock (abs s)).
Proof.
  intros I Hl Hb. cbn in Hb. unfold meaning, overflows, counts_fit, processSetCommand, set_options, arg, spec_command, spec_set.
  cbn [ctype args]. rewrite andb_true_r.
  assert (Hput : forall seconds t, deadline_after (fst clock) seconds = Some t ->
    refines (s ← set (fst clock) k v seconds s; mret (ok_reply, s)) (spec_put k v t (abs s))).
  { intros seconds t Ht. destruct (put_refines _ k v seconds t s I Ht Hb) as (s' & H & I' & A').
    exists s'. by rewrite H. }
  destruct options as [|o [|n [|]]]; [..|cbn in Hl; lia]; cbn [length lookup list_lookup of_option mbind res_bind negb].
  - rewrite decide_False, decide_False by done. by apply (Hput None None).
  - rewrite decide_True by done. destruct (decide (to_uppercase o = #"NX")).
    + pose proof (put_if_refines false (fst clock) k v s I Hb) as Hp. revert Hp. unfold implements.
      destruct (get (fst clock) k s) as [[found s1]|f]; [|done]. cbn [mbind res_bind].
      destruct found as [w|]; [rewrite (decide_True (P := is_Some (Some w))) by eauto
        |rewrite (decide_False (P := is_Some (@None bytes))) by (by intros [])]; done.
    + destruct (decide (to_uppercase o = #"XX")); [|by exists s].
      pose proof (put_if_refines true (fst clock) k v s I Hb) as Hp. revert Hp. unfold implements.
      destruct (get (fst clock) k s) as [[found s1]|f]; [|done]. cbn [mbind res_bind].
      destruct found as [w|]; [rewrite (decide_True (P := is_Some (Some w))) by eauto
        |rewrite (decide_False (P := is_Some (@None bytes))) by (by intros [])]; done.
  - rewrite decide_False by done. rewrite decide_True by done. unfold count_fits.
    destruct (decide (to_uppercase o = #"EX")) as [Ho|Ho].
    + rewrite bool_decide_true by done. destruct (stoull n) as [seconds|] eqn:En; [|by exists s]. cbn [negb orb].
      destruct (deadline_of (fst clock) seconds) as [t|] eqn:Et.
      * rewrite bool_decide_true by eauto. by apply (Hput (Some seconds)), deadline_after_some.
      * rewrite bool_decide_false by (by intros []). cbn [negb implements mret res_ret mbind res_bind]. by rewrite set_overflows.
    + rewrite bool_decide_false by done. by exists s.
Qed.

(** ** DEL *)

Lemma without_count k es :
  NoDup (e_key <$> es) ->
  zlen es = zlen (without k es) + (if bool_decide (is_Some (lookup_key k es)) then 1 else 0).
Proof.
  induction es as [|e es IH]; [done|]. intros [Hn Hd]%NoDup_cons. unfold without.
  rewrite filter_cons, zlen_cons. cbn [lookup_key]. specialize (IH Hd). unfold without in IH.
  destruct (decide (e_key e = k)) as [Hk|Hk].
  - rewrite decide_False by tauto. rewrite bool_decide_true by eauto.
    assert (lookup_key k es = None) as Hnone by (apply lookup_key_None; by rewrite <- Hk).
    rewrite Hnone in IH. rewrite bool_decide_false in IH by (by intros []). lia.
  - rewrite decide_True by done. rewrite zlen_cons. lia.
Qed.

Lemma c_dels_nil c : c_dels [] c = c.
Proof.
  unfold c_dels. rewrite filter_keep_all; [by destruct c|]. intros e _ ?%elem_of_nil. done.
Qed.

Lemma c_dels_cons k ks c : c_dels (k :: ks) c = c_dels ks (c_del k c).2.
Proof.
  unfold c_dels, c_del, without. cbn. f_equal. rewrite list_filter_filter.
  apply list_filter_iff. intros e. rewrite not_elem_of_cons. tauto.
Qed.

Lemma del_loop_refines ks n s :
  Inv s -> 0 <= n -> n + zlen ks <= i64_max ->
  exists s', del_loop ks n s = Ok (n + gone (abs s) (c_dels ks (abs s)), s') /\ Inv s'
    /\ abs s' = c_dels ks (abs s) /\ 0 <= gone (abs s) (c_dels ks (abs s)) <= zlen ks.
Proof.
  revert n s. induction ks as [|k ks IH]; intros n s I Hn Hb.
  - exists s. rewrite c_dels_nil. unfold gone. rewrite Z.sub_diag, Z.add_0_r. done.
  - rewrite zlen_cons in *. rewrite c_dels_cons. cbn [del_loop].
    destruct (del_refines k s I) as (s1 & -> & I1 & A1). cbn [mbind res_bind].
    pose proof (without_count k (entries (abs s)) (abs_keys_NoDup _ (inv_links _ I))) as Hc.
    unfold c_del in *. cbn [fst snd] in *. rewrite <- A1.
    set (b := bool_decide _) in *.
    assert (Hstep : (if b then add_i64 n 1 else mret n) = Ok (n + (if b then 1 else 0))).
    { pose proof (zlen_nonneg ks). destruct b; [|by rewrite Z.add_0_r].
      apply checked_Ok. unfold i64_min, i64_max in *. lia. }
    rewrite Hstep. cbn [mbind res_bind].
    destruct (IH (n + (if b then 1 else 0)) s1 I1) as (s2 & -> & I2 & A2 & Hg); [destruct b; lia..|].
    exists s2. rewrite A1 in *. unfold gone in *. cbn [entries] in *.
    split; [|split; [done|split; [done|destruct b; lia]]]. do 2 f_equal. lia.
Qed.

(** ** The five commands *)

Lemma refines_map {A B} (m : res (A * LruShard)) (r : A * Cache) (f : A -> B) :
  refines m r -> refines ('(a, s) ← m; mret (f a, s)) (f r.1, r.2).
Proof. intros (s' & -> & I & A'). by exists s'. Qed.

(** Every command that concerns a shard, run with valid arguments on a shard
    in a good state, does what it means on the abstract cache - error replies
    included - and leaves the shard in a good state. *)
Lemma process_implements cmd clock s :
  Inv s -> valid_command cmd = true -> on_a_shard (ctype cmd) = true ->
  command_defined (max_memory_bytes_ s) cmd clock ->
  implements (process cmd clock s) (meaning cmd clock (abs s)).
Proof.
  intros I Hv Ht [Hpay Hd]. pose proof (valid_args cmd Hv) as Ha. destruct cmd as [t l].
  unfold process. cbn [ctype args] in *. destruct t; try done; clear Ht.
  - destruct Ha as [k ->]. unfold meaning. rewrite overflows_other by done.
    unfold processGetCommand, spec_command, spec_get, arg. cbn [ctype args lookup list_lookup of_option mbind res_bind].
    pose proof (refines_map _ _ (fun r => match r with Some v => RespString kBulkString v | None => null_reply end)
      (get_refines (fst clock) k s I)) as H. by destruct (c_get (fst clock) k (abs s)).
  - destruct Ha as (k & v & options & -> & Hl). by apply set_command_implements.
  - unfold meaning. rewrite overflows_other by done. destruct (del_loop_refines l 0 s I) as (s' & H & I' & A' & _); [done| |].
    + unfold valid_command in Hv. cbn in Hv. apply andb_true_iff in Hv as [_ Hv%Z.leb_le].
      unfold i64_max. lia.
    + exists s'. unfold processDelKeys. cbn [args]. by rewrite H.
  - destruct Ha as (k & n & ->). unfold meaning, overflows, counts_fit, count_fits, processExpireCommand, spec_command, spec_expire, arg.
    cbn [ctype args lookup list_lookup of_option mbind res_bind]. change (entries (abs s)) with (abs_entries s).
    destruct (stoull n) as [seconds|] eqn:En; [|by exists s]. unfold c_expire. change (entries (abs s)) with (abs_entries s).
    destruct (lookup_key k (abs_entries s)) as [e|] eqn:He.
    + rewrite (bool_decide_true (is_Some (Some e))) by eauto. rewrite andb_true_r.
      destruct (deadline_of (fst clock) seconds) as [t|] eqn:Et.
      * rewrite bool_decide_true by eauto. pose proof (refines_map _ _ (fun r : bool => RespInt kInteger (if r then 1 else 0))
          (expire_refines (fst clock) k seconds t s I ltac:(by rewrite after_seconds_cases, Et))) as H.
        unfold c_expire in H. change (entries (abs s)) with (abs_entries s) in H. rewrite He in H. exact H.
      * rewrite bool_decide_false by (by intros []). cbn [negb implements]. by rewrite (expire_overflows _ _ _ e).
    + rewrite (bool_decide_false (is_Some (@None Entry))) by (by intros []). rewrite andb_false_r.
      rewrite expire_absent by done. exists s. split; [done|]. split; [done|]. cbn. by rewrite with_deadline_absent.
  - destruct Ha as [k ->]. unfold meaning. rewrite overflows_other by done.
    unfold processTtlCommand, spec_command, spec_ttl, arg.
    cbn [ctype args lookup list_lookup of_option mbind res_bind]. destruct Hd as [H1 H2]; [done|].
    pose proof (refines_map _ _ (RespInt kInteger) (ttl_refines (fst clock) (snd clock) k s I H1 H2)) as H.
    by destruct (c_ttl (fst clock) (snd clock) k (abs s)).
Qed.

(** ** Replies are well formed *)

Lemma abs_deadline s e t :
  Inv s -> e ∈ abs_entries s -> e_deadline e = Some t -> i64_min <= t <= i64_max.
Proof.
  intros I He Ht. apply list_elem_of_fmap in He as ([p n] & -> & Hn).
  by apply (inv_deadlines _ I p n).
Qed.

Lemma c_ttl_range now now' k s :
  Inv s -> 0 <= now' -> in_i64 (c_ttl now now' k (abs s)).1 = true.
Proof.
  intros I Hn. unfold c_ttl. destruct (lookup_key k (entries (abs s))) as [e|] eqn:He; [|done].
  destruct (has_lapsed now e); [done|]. destruct (e_deadline e) as [t|] eqn:Et; [|done]. cbn [fst].
  apply lookup_key_Some in He as [He _]. apply (abs_deadline s e t I He) in Et.
  assert ((t - now') / 1000000000 <= i64_max).
  { apply Z.div_le_upper_bound; [lia|]. unfold i64_min, i64_max in *. lia. }
  unfold in_i64. unfold i64_min, i64_max in *. by zcmp.
Qed.

Lemma spec_set_wf now k v options c : wf_value (spec_set now k v options c).1 = true.
Proof.
  assert (Hif : forall w, wf_value (spec_put_if w now k v c).1 = true).
  { intros w. unfold spec_put_if. destruct (c_get now k c). by destruct (Bool.eqb _ _). }
  unfold spec_set. by repeat case_match; try apply Hif.
Qed.

Lemma spec_command_wf cmd clock s :
  Inv s -> ctype cmd <> CDel -> command_defined (max_memory_bytes_ s) cmd clock ->
  wf_value (spec_command cmd clock (abs s)).1 = true.
Proof.
  intros I Ht Hd. destruct cmd as [t l]. unfold spec_command. cbn [ctype args] in *.
  destruct t; try done; destruct l as [|k l]; try done.
  - unfold spec_get. destruct (c_get (fst clock) k (abs s)) as [[v|] c]; done.
  - destruct l as [|v l]; [done|]. apply spec_set_wf.
  - destruct l as [|n l]; [done|]. unfold spec_expire. destruct (stoull n); [|done].
    destruct (c_expire k _ (abs s)) as [[] c]; done.
  - unfold spec_ttl. destruct Hd as [_ Hd]. destruct (Hd eq_refl) as [Hd' _].
    pose proof (c_ttl_range (fst clock) (snd clock) k s I) as Hr.
    destruct (c_ttl (fst clock) (snd clock) k (abs s)) as [z c]. apply Hr. lia.
Qed.
