(* ===== verification/PoolSpec.v ===== *)
(** * What a command means on the pool

    The pool seen as a list of abstract caches, one per shard.
    [spec_execute] is the meaning of a command there: a command of one key
    works on the cache of that key's shard, [DEL] on every cache, [INFO]
    reads them all. *)

From S2P Require Import Prelude RespValue Command StdText LruShard LruSpec LruInv LruRefine.
From S2P Require Import LruTheorems ShardPool CommandExecutor ExecutorSpec.

Definition abs_pool (p : ShardPool) : list Cache := abs <$> shards p.

Definition cache_stats (c : Cache) : Stats :=
  mkStats (total (entries c)) (zlen (entries c)) (evicted c) (lapsed c) (budget c).

Fixpoint entry_count (caches : list Cache) : Z :=
  match caches with [] => 0 | c :: caches => zlen (entries c) + entry_count caches end.

Definition all_gone (before after : list Cache) : Z := entry_count before - entry_count after.

Section PoolSpec.
Variable XXH3_64bits : bytes -> N.

(** The reply and the caches after a command, or the overflow of its deadline. *)
Definition spec_execute (cmd : Command) (clock : Clock) (caches : list Cache)
    : res (RespValue * list Cache) :=
  match ctype cmd with
  | CGet | CSet | CExpire | CTtl =>
      k ← arg cmd 0;
      i ← getShardIndex XXH3_64bits k (length caches);
      c ← of_option AssertFailure (caches !! i);
      '(r, c) ← meaning cmd clock c;
      mret (r, <[i := c]> caches)
  | CDel =>
      let caches' := c_dels (args cmd) <$> caches in
      mret (RespInt kInteger (all_gone caches caches'), caches')
  | CInfo =>
      mret (let section := match args cmd with [] => #"DEFAULT" | s :: _ => to_uppercase s end in
            if decide (section ∈ info_sections)
            then RespString kBulkString
                   (info_text (foldl add_stats (mkStats 0 0 0 0 0) (cache_stats <$> caches)))
            else error_reply #"ERR unsupported INFO section", caches)
  | CPing => r ← processPingCommand cmd; mret (r, caches)
  | CCommand => mret (processCommandCommand cmd, caches)
  | CConfig => r ← processConfigCommand cmd; mret (r, caches)
  | CUnknown => mret (processUnknownCommand, caches)
  end.

(** Every entry is in the shard its key is routed to. *)
Definition placed (caches : list Cache) : Prop :=
  forall i c e, caches !! i = Some c -> e ∈ entries c ->
    getShardIndex XXH3_64bits (e_key e) (length caches) = Ok i.

Record pool_ok (p : ShardPool) : Prop := {
  po_size : (0 < size p)%nat;
  po_inv : Forall Inv (shards p);
  po_placed : placed (abs_pool p) }.
End PoolSpec.

(** A session's home shard is one of the pool's. *)
Definition home_ok (p : ShardPool) (home : option nat) : Prop :=
  forall h, home = Some h -> (h < size p)%nat.

(** Nothing but the contents of shards changes. *)
Definition same_pool (p p' : ShardPool) : Prop := size p' = size p /\ threads p' = threads p.

Lemma same_pool_refl p : same_pool p p.
Proof. done. Qed.
Lemma same_pool_trans p q r : same_pool p q -> same_pool q r -> same_pool p r.
Proof. intros [H1 H2] [H3 H4]. split; congruence. Qed.
Lemma same_pool_put i s p : same_pool p (put_shard i s p).
Proof. split; [apply put_shard_size|apply put_shard_threads]. Qed.
#[export] Hint Resolve same_pool_refl same_pool_put : tiny.

(** ** Facts *)

Lemma abs_pool_length p : length (abs_pool p) = size p.
Proof. unfold abs_pool. by rewrite length_fmap, shards_length. Qed.

Lemma abs_pool_lookup p i s : shards p !! i = Some s -> abs_pool p !! i = Some (abs s).
Proof. intros H. unfold abs_pool. by rewrite list_lookup_fmap, H. Qed.

Lemma abs_pool_put i s p : abs_pool (put_shard i s p) = <[i := abs s]> (abs_pool p).
Proof. unfold abs_pool. by rewrite put_shard_shards, list_fmap_insert. Qed.

Lemma inv_put i s p : Forall Inv (shards p) -> Inv s -> Forall Inv (shards (put_shard i s p)).
Proof. intros. rewrite put_shard_shards. by apply Forall_insert. Qed.

Lemma shard_exists p i : (i < size p)%nat -> exists s, shards p !! i = Some s.
Proof. intros H. apply lookup_lt_is_Some_2. by rewrite shards_length. Qed.

Lemma get_stats_abs s : Inv s -> get_stats s = cache_stats (abs s).
Proof.
  intros I. unfold get_stats, cache_stats. rewrite (inv_used _ I). cbn. f_equal.
  unfold zlen, abs_entries. rewrite length_fmap. f_equal. apply map_size_nodes, I.
Qed.

(** The keys a command can leave in a cache. *)
Definition keys_from (k : bytes) (c c' : Cache) : Prop :=
  forall e, e ∈ entries c' -> e_key e = k \/ e_key e ∈ e_key <$> entries c.

Lemma keys_from_refl k c : keys_from k c c.
Proof. intros e He. right. apply list_elem_of_fmap. eauto. Qed.

Lemma keys_from_trans k a b c : keys_from k a b -> keys_from k b c -> keys_from k a c.
Proof.
  intros H1 H2 e [?|(e' & -> & He')%list_elem_of_fmap]%H2; [by left|]. by apply H1.
Qed.

Lemma keys_from_without k' c b ev la k : keys_from k c (mkCache (without k' (entries c)) b ev la).
Proof. intros e [_ He]%list_elem_of_filter. right. apply list_elem_of_fmap. eauto. Qed.

Lemma c_get_keys now k c : keys_from k c (c_get now k c).2.
Proof.
  unfold c_get. destruct (lookup_key k (entries c)) as [e|] eqn:E; [|apply keys_from_refl].
  destruct (has_lapsed now e); [apply keys_from_without|].
  apply lookup_key_Some in E as [He Hk]. intros e' [->|H]%elem_of_cons; [by left|].
  by apply (keys_from_without k c (budget c) (evicted c) (lapsed c) k).
Qed.

Lemma c_set_keys k v t c : keys_from k c (c_set k v t c).
Proof.
  intros e He. unfold c_set in He. cbn in He.
  destruct (fit_prefix (budget c) (mkEntry k v t :: without k (entries c))) as [l Hl].
  assert (H : e ∈ mkEntry k v t :: without k (entries c)) by (rewrite Hl, elem_of_app; by left).
  apply elem_of_cons in H as [->|H]; [by left|].
  by apply (keys_from_without k c (budget c) (evicted c) (lapsed c) k).
Qed.

Lemma c_expire_keys k t c : keys_from k c (c_expire k t c).2.
Proof.
  intros e (e' & -> & He')%list_elem_of_fmap. right. rewrite with_deadline_key.
  apply list_elem_of_fmap. eauto.
Qed.

Lemma c_ttl_keys now now' k c : keys_from k c (c_ttl now now' k c).2.
Proof.
  unfold c_ttl. destruct (lookup_key k (entries c)) as [e|]; [|apply keys_from_refl].
  destruct (has_lapsed now e); [apply keys_from_without|].
  destruct (e_deadline e); apply keys_from_refl.
Qed.

Lemma spec_set_keys now k v options c : keys_from k c (spec_set now k v options c).2.
Proof.
  assert (Hif : forall w, keys_from k c (spec_put_if w now k v c).2).
  { intros w. unfold spec_put_if. pose proof (c_get_keys now k c) as H.
    destruct (c_get now k c) as [r c']. destruct (Bool.eqb _ _); [|done].
    eapply keys_from_trans; [exact H|apply c_set_keys]. }
  unfold spec_set. repeat case_match; try apply Hif; try apply keys_from_refl; apply c_set_keys.
Qed.

Lemma spec_command_keys cmd clock c k :
  args cmd !! 0%nat = Some k -> ctype cmd <> CDel -> keys_from k c (spec_command cmd clock c).2.
Proof.
  destruct cmd as [t [|k' l]]; cbn; [done|]. intros [= ->] Ht. unfold spec_command. cbn.
  destruct t; try done; try apply keys_from_refl.
  - unfold spec_get. pose proof (c_get_keys (fst clock) k c). by destruct (c_get _ _ _).
  - destruct l; [apply keys_from_refl|]. apply spec_set_keys.
  - destruct l; [apply keys_from_refl|]. unfold spec_expire.
    destruct (stoull _); [|apply keys_from_refl].
    pose proof (c_expire_keys k (default 0 (deadline_of (fst clock) z)) c). by destruct (c_expire _ _ _).
  - unfold spec_ttl. pose proof (c_ttl_keys (fst clock) (snd clock) k c). by destruct (c_ttl _ _ _ _).
Qed.

(** ** Placement *)

Section Placement.
Variable XXH3_64bits : bytes -> N.
Abbreviation placed := (placed XXH3_64bits).

Lemma placed_insert caches i c c' k :
  placed caches -> caches !! i = Some c ->
  getShardIndex XXH3_64bits k (length caches) = Ok i -> keys_from k c c' ->
  placed (<[i := c']> caches).
Proof.
  intros Hp Hc Hi Hk j d e Hd He. rewrite length_insert.
  apply list_lookup_insert_Some in Hd as [(-> & <- & _)|[_ Hd]]; [|by eapply Hp].
  apply Hk in He as [->|(e' & -> & He')%list_elem_of_fmap]; [done|by eapply Hp].
Qed.

Lemma placed_dels caches ks : placed caches -> placed (c_dels ks <$> caches).
Proof.
  intros Hp i c e Hc He. rewrite length_fmap. apply list_lookup_fmap_Some in Hc as (c' & -> & Hc').
  apply list_elem_of_filter in He as [_ He]. by eapply Hp.
Qed.
End Placement.
