(* ===== verification/ExecutorRefine.v ===== *)
(** * The executor implements the meaning of commands

    Both coroutines of the executor, from any thread and any home shard, do
    what [spec_execute] says, one call after the other. *)

From S2P Require Import Prelude RespValue Command StdText LruShard LruSpec LruInv LruRefine.
From S2P Require Import LruTheorems Glob ShardPool CommandExecutor ExecutorSpec PoolSpec.

Section Executor.
Variable XXH3_64bits : bytes -> N.
Variables (self : Tid) (clk : nat -> Clock).
Abbreviation getShardIndex := (getShardIndex XXH3_64bits).
Abbreviation spec_execute := (spec_execute XXH3_64bits).
Abbreviation placed := (placed XXH3_64bits).
Abbreviation pool_ok := (pool_ok XXH3_64bits).

(** ** One call *)

Lemma run_call {B} how i (fn : Clock -> LruShard -> res (B * LruShard)) n p s :
  shards p !! i = Some s -> (how = Local -> is_on_shard_thread self p i = Ok true) ->
  run_from self clk n (TCall how i fn TRet) p
  = '(b, s') ← fn (clk n) s; mret (b, (S n, put_shard i s' p)).
Proof. intros Hs Hl. cbn [run_from]. by rewrite (reach_Ok _ _ _ _ s). Qed.

Lemma run_on {B} (local : bool) i (fn : Clock -> LruShard -> res (B * LruShard)) n p s :
  shards p !! i = Some s -> (local = true -> is_on_shard_thread self p i = Ok true) ->
  run_from self clk n (on_shard local i fn) p
  = '(b, s') ← fn (clk n) s; mret (b, (S n, put_shard i s' p)).
Proof. intros Hs Hl. destruct local; apply run_call; auto; done. Qed.

(** ** Routing *)

Lemma usable_home_spec p home :
  home_ok p home ->
  exists l, usable_home self p home = Ok l
    /\ forall i, l = Some i -> (i < size p)%nat /\ is_on_shard_thread self p i = Ok true.
Proof.
  intros Hh. destruct home as [h|]; [|by exists None]. specialize (Hh h eq_refl).
  destruct (is_on_shard_thread_total self p h Hh) as [b Hb]. unfold usable_home. rewrite Hb. cbn.
  destruct b; [exists (Some h)|by exists None]. split; [done|]. by intros i [= <-].
Qed.

Lemma usable_home_single p home :
  size p = 1%nat -> home_ok p home ->
  exists b : bool, match home with
    | Some h => if decide (h = 0%nat) then is_on_shard_thread self p 0 else mret false
    | None => mret false end = Ok b
    /\ (b = true -> is_on_shard_thread self p 0 = Ok true).
Proof.
  intros Hs Hh. destruct home as [h|]; [|by exists false]. case_decide; [|by exists false].
  destruct (is_on_shard_thread_total self p 0) as [b Hb]; [lia|]. exists b. rewrite Hb.
  split; [done|]. by intros ->.
Qed.

(** The commands of one key, and those of none. *)
Definition one_key (t : CommandType) : bool :=
  match t with CGet | CSet | CExpire | CTtl => true | _ => false end.
Definition on_pure (t : CommandType) : bool :=
  match t with CPing | CCommand | CConfig => true | _ => false end.

Lemma one_key_arg cmd :
  valid_command cmd = true -> one_key (ctype cmd) = true -> exists k, args cmd !! 0%nat = Some k.
Proof. destruct cmd as [t [|k l]]; [by destruct t|eauto]. Qed.

(** A command of one key is one call on the shard of the key, whoever runs it
    and from wherever. *)
Lemma run_one_key cmd home k i s p :
  one_key (ctype cmd) = true -> args cmd !! 0%nat = Some k ->
  getShardIndex k (size p) = Ok i -> shards p !! i = Some s -> home_ok p home ->
  run_from self clk 0 (execute XXH3_64bits self p cmd home) p
  = '(r, s') ← process cmd (clk 0%nat) s; mret (r, (1%nat, put_shard i s' p)).
Proof.
  intros Ht Hk Hi Hs Hh. rewrite !execute_eq.
  destruct (decide (size p = 1%nat)) as [H1|H1].
  - assert (i = 0%nat) as -> by (rewrite H1 in Hi; by injection Hi).
    unfold execute_single_shard. destruct (usable_home_single p home H1 Hh) as (b & -> & Hb).
    cbn [lift mbind task_bind]. unfold process.
    destruct (ctype cmd); try done; by apply run_on.
  - unfold execute_multi_shard. destruct (usable_home_spec p home Hh) as (l & -> & Hl).
    cbn [lift mbind task_bind]. unfold process.
    assert (Hroute : forall fn, run_from self clk 0 (on_key_shard XXH3_64bits p l cmd fn) p
      = '(r, s') ← fn (clk 0%nat) s; mret (r, (1%nat, put_shard i s' p))).
    { intros fn. unfold on_key_shard, arg. rewrite Hk. cbn [of_option lift mbind task_bind].
      rewrite Hi. cbn [lift]. apply run_on; [done|]. intros Hlocal%bool_decide_eq_true. by apply Hl. }
    destruct (ctype cmd); try done; apply Hroute.
Qed.

(** ** DEL *)

Definition keys_of (ks : list bytes) (n i : nat) : list bytes :=
  filter (fun k => getShardIndex k n = Ok i) ks.

Fixpoint count_keys (groups : list (list bytes)) : Z :=
  match groups with [] => 0 | ks :: groups => zlen ks + count_keys groups end.

Lemma count_keys_push groups j l k :
  groups !! j = Some l -> count_keys (alter (fun l => l ++ [k]) j groups) = count_keys groups + 1.
Proof.
  revert j. induction groups as [|ks groups IH]; intros [|j]; try done; cbn [lookup list_lookup].
  - intros _. cbn. rewrite zlen_app, zlen_cons, zlen_nil. lia.
  - intros H%IH. cbn. rewrite H. lia.
Qed.

Lemma group_keys_spec ks n groups :
  (0 < n)%nat -> length groups = n ->
  exists groups', group_keys XXH3_64bits ks n groups = Ok groups' /\ length groups' = n
    /\ count_keys groups' = count_keys groups + zlen ks
    /\ forall i l, groups !! i = Some l -> groups' !! i = Some (l ++ keys_of ks n i).
Proof.
  intros Hn. revert groups. induction ks as [|k ks IH]; intros groups Hl; cbn [group_keys].
  - exists groups. rewrite Z.add_0_r. repeat split; [done|]. intros i l.
    unfold keys_of. by rewrite filter_nil, app_nil_r.
  - destruct (getShardIndex_range XXH3_64bits k n Hn) as (j & Hj & Hjn). rewrite Hj. cbn [mbind res_bind].
    destruct (lookup_lt_is_Some_2 groups j) as [lj Hlj]; [lia|]. rewrite Hlj. cbn [mbind res_bind of_option].
    destruct (IH (alter (fun l => l ++ [k]) j groups)) as (groups' & -> & Hlen & Hc & Hg).
    { by rewrite length_alter. }
    exists groups'. split; [done|]. split; [done|].
    split; [rewrite Hc, (count_keys_push _ _ lj), zlen_cons by done; lia|].
    intros i l Hi. unfold keys_of. cbn. rewrite Hj.
    destruct (decide (Ok j = Ok i)) as [[= ->]|Hne].
    + rewrite (Hg i (l ++ [k])); [by rewrite <- app_assoc|].
      by rewrite list_lookup_alter_eq, Hi.
    + apply Hg. rewrite list_lookup_alter_ne; [done|congruence].
Qed.

(** The groups of the keys [ks], one per shard. *)
Lemma group_keys_new ks n :
  (0 < n)%nat ->
  exists groups, group_keys XXH3_64bits ks n (replicate n []) = Ok groups
    /\ count_keys groups = zlen ks /\ groups = keys_of ks n <$> seq 0 n.
Proof.
  intros Hn. destruct (group_keys_spec ks n (replicate n []) Hn) as (groups & H & Hl & Hc & Hg).
  { apply length_replicate. }
  exists groups. split; [done|]. split.
  - rewrite Hc. assert (E : forall m, count_keys (replicate m []) = 0).
    { intros m. induction m as [|m IH]; cbn [replicate count_keys]; [done|]. by rewrite zlen_nil, IH. }
    rewrite E. lia.
  - apply list_eq. intros i. rewrite list_lookup_fmap. destruct (decide (i < n)%nat) as [Hi|Hi].
    + rewrite lookup_seq_lt by done. apply (Hg i []). by apply lookup_replicate_2.
    + rewrite lookup_ge_None_2 by lia. by rewrite (lookup_ge_None_2 (seq 0 n)) by (rewrite length_seq; lia).
Qed.

(** Deleting keys in one shard. *)
Lemma run_dels local i ks n p s :
  shards p !! i = Some s -> Inv s -> zlen ks <= i64_max ->
  (local = true -> is_on_shard_thread self p i = Ok true) ->
  exists s', run_from self clk n (on_shard local i (processDelKeys ks)) p
      = Ok (gone (abs s) (c_dels ks (abs s)), (S n, put_shard i s' p))
    /\ Inv s' /\ abs s' = c_dels ks (abs s) /\ 0 <= gone (abs s) (c_dels ks (abs s)) <= zlen ks.
Proof.
  intros Hs I Hz Hl. destruct (del_loop_refines ks 0 s I) as (s' & H & I' & A' & Hg); [done|lia|].
  exists s'. rewrite (run_on _ _ _ _ _ s) by done. unfold processDelKeys. by rewrite H.
Qed.
(** One turn of the loop over the shards. *)
Lemma del_turn ks i count n p s :
  Forall Inv (shards p) -> shards p !! i = Some s -> 0 <= count -> count + zlen ks <= i64_max ->
  exists n' p',
    run_from self clk n (match ks with
      | [] => mret count
      | _ => count' ← run_on_shard i (processDelKeys ks); lift (add_i64 count count')
      end) p = Ok (count + gone (abs s) (c_dels ks (abs s)), (n', p'))
    /\ Forall Inv (shards p') /\ same_pool p p'
    /\ abs_pool p' = <[i := c_dels ks (abs s)]> (abs_pool p)
    /\ 0 <= gone (abs s) (c_dels ks (abs s)) <= zlen ks.
Proof.
  intros I Hs Hc Hb. pose proof (zlen_nonneg ks) as Hz. destruct ks as [|k ks].
  - exists n, p. rewrite c_dels_nil. unfold gone. rewrite Z.sub_diag, Z.add_0_r, list_insert_id
      by by apply abs_pool_lookup. done.
  - pose proof (proj1 (Forall_lookup _ _) I i s Hs) as Is.
    destruct (run_dels false i (k :: ks) n p s Hs Is) as (s' & Hr & I' & A' & Hg); [lia|done|].
    exists (S n), (put_shard i s' p). rewrite run_from_bind. cbn [on_shard] in Hr. rewrite Hr.
    cbn [mbind res_bind]. rewrite run_from_lift. unfold add_i64.
    rewrite checked_Ok by (unfold i64_min, i64_max in *; lia). split; [done|].
    split; [by apply inv_put|]. split; [apply same_pool_put|]. by rewrite abs_pool_put, A'.
Qed.

Lemma count_keys_nonneg groups : 0 <= count_keys groups.
Proof. induction groups as [|ks groups IH]; cbn; [done|]. pose proof (zlen_nonneg ks). lia. Qed.

(** Deleting groups of keys, from shard [i] on. *)
Lemma del_shards_spec groups i count n p :
  Forall Inv (shards p) -> (i + length groups)%nat = size p ->
  0 <= count -> count + count_keys groups <= i64_max ->
  exists n' p',
    run_from self clk n (del_shards groups i count) p
    = Ok (count + all_gone (drop i (abs_pool p)) (zip_with c_dels groups (drop i (abs_pool p))), (n', p'))
    /\ Forall Inv (shards p') /\ same_pool p p'
    /\ abs_pool p' = take i (abs_pool p) ++ zip_with c_dels groups (drop i (abs_pool p))
    /\ 0 <= all_gone (drop i (abs_pool p)) (zip_with c_dels groups (drop i (abs_pool p)))
         <= count_keys groups.
Proof.
  revert i count n p. induction groups as [|ks groups IH]; intros i count n p I Hi Hc Hb.
  - exists n, p. cbn in Hi |- *. rewrite drop_ge, take_ge, app_nil_r by (rewrite abs_pool_length; lia).
    unfold all_gone. cbn. rewrite Z.add_0_r. done.
  - cbn [length count_keys] in *. pose proof (count_keys_nonneg groups).
    destruct (shard_exists p i) as [s Hs]; [lia|].
    assert (Hdrop : drop i (abs_pool p) = abs s :: drop (S i) (abs_pool p))
      by by apply drop_S, abs_pool_lookup.
    destruct (del_turn ks i count n p s I Hs) as (n1 & p1 & Hr & I1 & S1 & A1 & Hg); [lia..|].
    cbn [del_shards]. rewrite run_from_bind, Hr. cbn [mbind res_bind].
    destruct (IH (S i) (count + gone (abs s) (c_dels ks (abs s))) n1 p1 I1) as (n2 & p2 & H2 & I2 & S2 & A2 & B2);
      [destruct S1; lia|lia|lia|].
    assert (Hlen : (i < length (abs_pool p))%nat) by (rewrite abs_pool_length; lia).
    assert (Hgone : all_gone (drop i (abs_pool p)) (zip_with c_dels (ks :: groups) (drop i (abs_pool p)))
      = gone (abs s) (c_dels ks (abs s))
        + all_gone (drop (S i) (abs_pool p)) (zip_with c_dels groups (drop (S i) (abs_pool p)))).
    { rewrite Hdrop. unfold all_gone, gone. cbn. lia. }
    rewrite A1, drop_insert_lt in * by lia.
    exists n2, p2. rewrite Hgone, H2, A2, Hdrop.
    erewrite take_S_r by by apply list_lookup_insert_eq.
    rewrite take_insert_ge, <- app_assoc by lia.
    split; [do 2 f_equal; lia|]. split; [done|]. split; [by eapply same_pool_trans|]. split; [done|lia].
Qed.

(** Emptying the group of a shard whose keys are already gone. *)
Lemma zip_dels_emptied groups cs h ks c :
  groups !! h = Some ks -> cs !! h = Some c ->
  zip_with c_dels (<[h := []]> groups) (<[h := c_dels ks c]> cs) = zip_with c_dels groups cs.
Proof.
  revert h cs. induction groups as [|ks' groups IH]; intros [|h] [|c' cs]; try done; cbn.
  - intros [= ->] [= ->]. by rewrite c_dels_nil.
  - intros H1 H2. f_equal. by apply IH.
Qed.

Lemma entry_count_insert cs h c c' :
  cs !! h = Some c -> entry_count (<[h := c']> cs) = entry_count cs - gone c c'.
Proof.
  revert h. induction cs as [|c0 cs IH]; intros [|h]; try done; cbn.
  - intros [= ->]. unfold gone. lia.
  - intros H%IH. transitivity (zlen (entries c0) + entry_count (<[h := c']> cs)); [done|lia].
Qed.

Lemma count_keys_emptied groups h ks :
  groups !! h = Some ks -> count_keys (<[h := []]> groups) = count_keys groups - zlen ks.
Proof.
  revert h. induction groups as [|ks' groups IH]; intros [|h]; try done; cbn.
  - intros [= ->]. rewrite zlen_nil. lia.
  - intros H%IH. transitivity (zlen ks' + count_keys (<[h := []]> groups)); [done|lia].
Qed.

(** Each group deletes in its shard what the whole list would. *)
Lemma zip_dels_placed ks cs :
  placed cs -> zip_with c_dels (keys_of ks (length cs) <$> seq 0 (length cs)) cs = c_dels ks <$> cs.
Proof.
  intros Hp. apply list_eq. intros i. rewrite lookup_zip_with, !list_lookup_fmap.
  destruct (cs !! i) as [c|] eqn:Hc.
  - pose proof (lookup_lt_Some _ _ _ Hc). rewrite lookup_seq_lt by done. cbn. f_equal.
    unfold c_dels. f_equal. apply filter_ext_in. intros e He.
    unfold keys_of. rewrite list_elem_of_filter, (Hp i c e Hc He). tauto.
  - destruct (seq 0 (length cs) !! i); done.
Qed.

(** The outcome of deleting the keys [ks] everywhere. *)
Definition dels_done (ks : list bytes) (p : ShardPool)
    (r : res (RespValue * (nat * ShardPool))) : Prop :=
  exists n' p',
    r = Ok (RespInt kInteger (all_gone (abs_pool p) (c_dels ks <$> abs_pool p)), (n', p'))
    /\ Forall Inv (shards p') /\ same_pool p p' /\ abs_pool p' = c_dels ks <$> abs_pool p
    /\ 0 <= all_gone (abs_pool p) (c_dels ks <$> abs_pool p) <= zlen ks.

Lemma multi_del_away ks groups p :
  pool_ok p -> length groups = size p -> count_keys groups = zlen ks -> zlen ks <= i64_max ->
  zip_with c_dels groups (abs_pool p) = c_dels ks <$> abs_pool p ->
  dels_done ks p (run_from self clk 0
    (deleted_count ← del_shards groups 0 0; mret (RespInt kInteger deleted_count)) p).
Proof.
  intros [Hn I Hp] Hl Hc Hz Hzip.
  destruct (del_shards_spec groups 0 0 0 p I) as (n' & p' & H & I' & S' & A' & B'); [lia..|].
  rewrite drop_0, Hzip, Hc in *. exists n', p'. by rewrite run_from_bind, H.
Qed.

Lemma multi_del_home ks groups p h k l :
  pool_ok p -> length groups = size p -> count_keys groups = zlen ks -> zlen ks <= i64_max ->
  zip_with c_dels groups (abs_pool p) = c_dels ks <$> abs_pool p ->
  groups !! h = Some (k :: l) -> is_on_shard_thread self p h = Ok true ->
  dels_done ks p (run_from self clk 0
    ('(deleted_count, keys_by_shard) ←
       (count ← call_local h (processDelKeys (k :: l));
        deleted_count ← lift (add_i64 0 count);
        mret (deleted_count, <[h := []]> groups));
     deleted_count ← del_shards keys_by_shard 0 deleted_count;
     mret (RespInt kInteger deleted_count)) p).
Proof.
  intros [Hn I Hp] Hlg Hc Hz Hzip Hks Hon.
  pose proof (count_keys_emptied groups h _ Hks) as Hce.
  pose proof (count_keys_nonneg (<[h := []]> groups)) as Hcn.
  destruct (shard_exists p h) as [s Hs]; [rewrite <- Hlg; by eapply lookup_lt_Some|].
  pose proof (proj1 (Forall_lookup _ _) I h s Hs) as Is.
  destruct (run_dels true h (k :: l) 0 p s Hs Is) as (s' & Hr & I' & A' & Hg); [lia|done|].
  set (p1 := put_shard h s' p) in *. set (g := gone (abs s) (c_dels (k :: l) (abs s))) in *.
  assert (A1 : abs_pool p1 = <[h := c_dels (k :: l) (abs s)]> (abs_pool p))
    by (unfold p1; by rewrite abs_pool_put, A').
  destruct (del_shards_spec (<[h := []]> groups) 0 g 1 p1) as (n2 & p2 & H2 & I2 & S2 & A2 & B2).
  { by apply inv_put. }
  { unfold p1. rewrite length_insert, put_shard_size. lia. }
  { lia. }
  { lia. }
  rewrite drop_0, A1, (zip_dels_emptied _ _ _ _ _ Hks (abs_pool_lookup _ _ _ Hs)), Hzip in *.
  exists n2, p2. cbn [on_shard] in Hr. rewrite !run_from_bind, Hr. cbn [mbind res_bind].
  rewrite run_from_bind, run_from_lift. unfold add_i64.
  rewrite checked_Ok by (unfold i64_min, i64_max in *; lia). cbn [mbind res_bind run_from mret task_ret res_ret].
  rewrite Z.add_0_l, run_from_bind, H2. cbn [mbind res_bind].
  assert (Hgone : g + all_gone (<[h := c_dels (k :: l) (abs s)]> (abs_pool p)) (c_dels ks <$> abs_pool p)
    = all_gone (abs_pool p) (c_dels ks <$> abs_pool p)).
  { unfold all_gone. rewrite (entry_count_insert _ _ _ _ (abs_pool_lookup _ _ _ Hs)). fold g. lia. }
  rewrite <- Hgone. split; [done|]. split; [done|].
  split; [by eapply same_pool_trans; [apply same_pool_put|]|]. split; [done|lia].
Qed.

Lemma multi_del_spec cmd l p :
  pool_ok p -> zlen (args cmd) <= i64_max ->
  (forall h, l = Some h -> (h < size p)%nat /\ is_on_shard_thread self p h = Ok true) ->
  dels_done (args cmd) p (run_from self clk 0 (execute_multi_del XXH3_64bits p cmd l) p).
Proof.
  intros Hok Hz Hl. pose proof (po_size _ _ Hok) as Hn. unfold execute_multi_del.
  destruct (group_keys_new (args cmd) (size p) Hn) as (groups & -> & Hc & Hg).
  cbn [lift mbind task_bind]. pose proof (zip_dels_placed (args cmd) _ (po_placed _ _ Hok)) as Hzip.
  rewrite abs_pool_length, <- Hg in Hzip.
  assert (Hlg : length groups = size p) by (subst; by rewrite length_fmap, length_seq).
  clear Hg. destruct l as [h|]; [|apply (multi_del_away _ groups); done || lia].
  destruct (Hl h eq_refl) as [Hh Hon].
  destruct (lookup_lt_is_Some_2 groups h) as [ks Hks]; [lia|]. rewrite Hks.
  destruct ks as [|k ks]; [apply (multi_del_away _ groups); done || lia|].
  apply (multi_del_home (args cmd) groups p h k ks); done || lia.
Qed.
(** [DEL], with one shard or several. *)
Lemma run_del cmd home p :
  pool_ok p -> ctype cmd = CDel -> zlen (args cmd) <= i64_max -> home_ok p home ->
  dels_done (args cmd) p (run_from self clk 0 (execute XXH3_64bits self p cmd home) p).
Proof.
  intros Hok Ht Hz Hh. rewrite !execute_eq. destruct (decide (size p = 1%nat)) as [H1|H1].
  - unfold execute_single_shard. destruct (usable_home_single p home H1 Hh) as (b & -> & Hb).
    cbn [lift mbind task_bind]. rewrite Ht.
    destruct (shard_exists p 0) as [s Hs]; [lia|].
    pose proof (proj1 (Forall_lookup _ _) (po_inv _ _ Hok) 0%nat s Hs) as Is.
    destruct (run_dels b 0 (args cmd) 0 p s Hs Is Hz Hb) as (s' & Hr & I' & A' & Hg).
    assert (Hp : abs_pool p = [abs s]).
    { pose proof (abs_pool_length p) as Hl. pose proof (abs_pool_lookup _ _ _ Hs) as Ha.
      destruct (abs_pool p) as [|c [|]]; cbn in *; simplify_eq; done || lia. }
    exists 1%nat, (put_shard 0 s' p). rewrite run_from_bind, Hr. cbn [mbind res_bind].
    assert (Hgone : all_gone [abs s] (c_dels (args cmd) <$> [abs s]) = gone (abs s) (c_dels (args cmd) (abs s)))
      by (unfold all_gone, gone; cbn; lia).
    rewrite abs_pool_put, A', Hp, Hgone. split; [done|]. split; [by apply inv_put; [apply (po_inv _ _ Hok)|]|].
    split; [apply same_pool_put|]. done.
  - unfold execute_multi_shard. destruct (usable_home_spec p home Hh) as (l & -> & Hl).
    cbn [lift mbind task_bind]. rewrite Ht. by apply multi_del_spec.
Qed.

(** ** INFO *)

Lemma info_loop_spec todo i sums n p :
  Forall Inv (shards p) -> (i + todo)%nat = size p ->
  run_from self clk n (info_loop todo i sums) p
  = Ok (foldl add_stats sums (cache_stats <$> drop i (abs_pool p)), ((n + todo)%nat, p)).
Proof.
  revert i sums n. induction todo as [|todo IH]; intros i sums n I Hi; cbn [info_loop].
  - rewrite drop_ge by (rewrite abs_pool_length; lia). by rewrite Nat.add_0_r.
  - destruct (shard_exists p i) as [s Hs]; [lia|].
    rewrite run_from_bind. unfold run_on_shard. rewrite (run_call _ _ _ _ _ s) by done.
    cbn [mbind res_bind mret res_ret]. rewrite put_shard_same, IH by (done || lia).
    rewrite (drop_S _ _ _ (abs_pool_lookup _ _ _ Hs)), fmap_cons, get_stats_abs.
    + cbn. do 3 f_equal. lia.
    + exact (proj1 (Forall_lookup _ _) I i s Hs).
Qed.

Lemma run_info cmd home p :
  pool_ok p -> ctype cmd = CInfo -> home_ok p home ->
  exists n' r, run_from self clk 0 (execute XXH3_64bits self p cmd home) p = Ok (r, (n', p))
    /\ spec_execute cmd (clk 0%nat) (abs_pool p) = Ok (r, abs_pool p) /\ wf_value r = true.
Proof.
  intros Hok Ht Hh.
  assert (H : exists n' r, run_from self clk 0 (processInfoCommand cmd (size p)) p = Ok (r, (n', p))
    /\ spec_execute cmd (clk 0%nat) (abs_pool p) = Ok (r, abs_pool p) /\ wf_value r = true).
  { unfold processInfoCommand, PoolSpec.spec_execute. rewrite Ht.
    destruct (decide (_ ∈ info_sections)); [|by eexists _, _].
    rewrite run_from_bind, info_loop_spec by (lia || apply (po_inv _ _ Hok)).
    cbn [mbind res_bind]. rewrite drop_0. by eexists _, _. }
  rewrite !execute_eq. destruct (decide (size p = 1%nat)) as [H1|H1].
  - unfold execute_single_shard. destruct (usable_home_single p home H1 Hh) as (b & -> & _).
    cbn [lift mbind task_bind]. by rewrite Ht.
  - unfold execute_multi_shard. destruct (usable_home_spec p home Hh) as (l & -> & _).
    cbn [lift mbind task_bind]. by rewrite Ht.
Qed.

(** ** Commands without a shard *)

Lemma config_loop_total pattern values result :
  exists r, config_loop pattern values result = Ok r.
Proof.
  revert result. induction values as [|[name value] values IH]; intros result; [by eexists|].
  cbn [config_loop]. destruct (glob_match_total pattern name) as [b ->]. apply IH.
Qed.

Lemma command_info_loop_wf names acc :
  forallb wf_value acc = true -> forallb wf_value (command_info_loop names acc) = true.
Proof.
  revert acc. induction names as [|name names IH]; intros acc H; [done|]. cbn [command_info_loop]. apply IH.
  destruct (find_command (to_uppercase name)) as [def|] eqn:E; [|done].
  rewrite forallb_app, H. apply List.find_some in E as [E _]. cbn.
  repeat (destruct E as [<-|E]; [done|]). destruct E.
Qed.

Lemma config_loop_wf pattern values acc r :
  config_loop pattern values acc = Ok r -> forallb wf_value acc = true -> forallb wf_value r = true.
Proof.
  revert acc. induction values as [|[name value] values IH]; intros acc; cbn [config_loop].
  - by intros [= ->].
  - destruct (glob_match pattern name) as [b|]; [|done]. cbn [mbind res_bind]. intros H Hacc.
    apply (IH _ H). destruct b; [|done]. by rewrite forallb_app, Hacc.
Qed.

Lemma run_pure cmd home p (r : RespValue) :
  home_ok p home ->
  match ctype cmd with
  | CPing => processPingCommand cmd = Ok r
  | CCommand => processCommandCommand cmd = r
  | CConfig => processConfigCommand cmd = Ok r
  | CUnknown => processUnknownCommand = r
  | _ => False
  end ->
  run_from self clk 0 (execute XXH3_64bits self p cmd home) p = Ok (r, (0%nat, p))
  /\ spec_execute cmd (clk 0%nat) (abs_pool p) = Ok (r, abs_pool p).
Proof.
  intros Hh Hr. rewrite !execute_eq. unfold PoolSpec.spec_execute. destruct (decide (size p = 1%nat)) as [H1|H1].
  - unfold execute_single_shard. destruct (usable_home_single p home H1 Hh) as (b & -> & _).
    cbn [lift mbind task_bind]. destruct (ctype cmd); try done; rewrite Hr; done.
  - unfold execute_multi_shard. destruct (usable_home_spec p home Hh) as (l & -> & _).
    cbn [lift mbind task_bind]. destruct (ctype cmd); try done; rewrite Hr; done.
Qed.

Lemma pure_reply cmd :
  valid_command cmd = true -> on_pure (ctype cmd) = true ->
  exists r, match ctype cmd with
    | CPing => processPingCommand cmd = Ok r
    | CCommand => processCommandCommand cmd = r
    | CConfig => processConfigCommand cmd = Ok r
    | _ => False
    end /\ wf_value r = true.
Proof.
  intros Hv Ht. pose proof (valid_args cmd Hv) as Ha.
  destruct cmd as [t l]. cbn in Ht, Ha |- *. destruct t; try done.
  - unfold processPingCommand. destruct Ha as [->|[a ->]]; cbn; by eexists.
  - eexists. split; [reflexivity|]. unfold processCommandCommand. cbn [args].
    destruct l as [|a l]; [done|]. repeat case_decide; try done. by apply command_info_loop_wf.
  - destruct Ha as (a & b & ->). unfold processConfigCommand, arg.
    cbn [args lookup list_lookup of_option mbind res_bind]. case_decide; [|by eexists].
    destruct (config_loop_total (to_lowercase b) kSupportedConfigValues []) as [r Hr].
    rewrite Hr. eexists. split; [reflexivity|]. by apply (config_loop_wf _ _ _ _ Hr).
Qed.

(** ** The executor *)

(** What the run of a command comes to: reply and caches that [spec_execute]
    says, in a pool in good order, or the overflow that it says. *)
Definition runs_as (cmd : Command) (p : ShardPool) (m : res (RespValue * (nat * ShardPool))) : Prop :=
  match spec_execute cmd (clk 0%nat) (abs_pool p) with
  | Ok (r, caches) => exists n' p', m = Ok (r, (n', p')) /\ abs_pool p' = caches
      /\ pool_ok p' /\ same_pool p p' /\ wf_value r = true
  | Fault f => f = SignedOverflow /\ counts_fit cmd (clk 0%nat) = false /\ m = Fault f
  end.

Lemma run_key cmd home p :
  pool_ok p -> valid_command cmd = true -> one_key (ctype cmd) = true ->
  home_ok p home ->
  (forall s, s ∈ shards p -> command_defined (max_memory_bytes_ s) cmd (clk 0%nat)) ->
  runs_as cmd p (run_from self clk 0 (execute XXH3_64bits self p cmd home) p).
Proof.
  intros [Hn I Hp] Hv Ht Hh Hd.
  destruct (one_key_arg cmd Hv Ht) as [k Hk].
  destruct (getShardIndex_range XXH3_64bits k (size p) Hn) as (i & Hi & Hin).
  destruct (shard_exists p i Hin) as [s Hs]. pose proof (proj1 (Forall_lookup _ _) I i s Hs) as Is.
  assert (Hds : command_defined (max_memory_bytes_ s) cmd (clk 0%nat)) by (apply Hd; by apply list_elem_of_lookup_2 with i).
  pose proof (process_implements cmd (clk 0%nat) s Is Hv) as Hpr.
  rewrite (run_one_key cmd home k i s p Ht Hk Hi Hs Hh).
  assert (Hspec : spec_execute cmd (clk 0%nat) (abs_pool p)
    = '(r, c) ← meaning cmd (clk 0%nat) (abs s); mret (r, <[i := c]> (abs_pool p))).
  { unfold PoolSpec.spec_execute, arg. rewrite Hk. cbn [of_option mbind res_bind].
    rewrite abs_pool_length, Hi. cbn [mbind res_bind]. rewrite (abs_pool_lookup _ _ _ Hs).
    cbn [of_option mbind res_bind]. by destruct (ctype cmd). }
  unfold runs_as. rewrite Hspec. clear Hspec. unfold meaning in *.
  destruct (overflows cmd (clk 0%nat) (abs s)) eqn:Ho; cbn [implements mbind res_bind mret res_ret] in *.
  { rewrite Hpr by (done || by destruct (ctype cmd)). split; [done|]. split; [by eapply overflows_count|done]. }
  destruct Hpr as (s' & -> & Is' & A'); [by destruct (ctype cmd)|done|]. cbn [mbind res_bind].
  pose proof (spec_command_wf cmd (clk 0%nat) s Is) as Hwf.
  pose proof (spec_command_keys cmd (clk 0%nat) (abs s) k Hk) as Hkeys.
  destruct (spec_command cmd (clk 0%nat) (abs s)) as [r c]. cbn [fst snd] in *. subst c.
  eexists _, _. split; [reflexivity|]. rewrite abs_pool_put. split; [done|].
  assert (Hdel : ctype cmd <> CDel) by (intros E; by rewrite E in Ht).
  split; [|split; [apply same_pool_put|by apply Hwf]].
  split; [by rewrite put_shard_size|by apply inv_put|]. rewrite abs_pool_put.
  apply (placed_insert _ _ _ (abs s) _ k Hp); [by apply abs_pool_lookup|by rewrite abs_pool_length|by apply Hkeys].
Qed.

Lemma execute_spec cmd home p :
  pool_ok p -> valid_command cmd = true -> home_ok p home ->
  (forall s, s ∈ shards p -> command_defined (max_memory_bytes_ s) cmd (clk 0%nat)) ->
  runs_as cmd p (run_from self clk 0 (execute XXH3_64bits self p cmd home) p).
Proof.
  intros Hok Hv Hh Hd. destruct (one_key (ctype cmd)) eqn:Hkey; [by apply run_key|]. unfold runs_as.
  destruct (on_pure (ctype cmd)) eqn:Hpure.
  { destruct (pure_reply cmd Hv Hpure) as (r & Hr & Hwf). destruct (run_pure cmd home p r Hh) as [H1 ->].
    - by destruct (ctype cmd).
    - by exists 0%nat, p. }
  destruct (ctype cmd) eqn:Ht; try done.
  - unfold valid_command in Hv. by rewrite Ht in Hv.
  - assert (Hz : zlen (args cmd) <= i64_max).
    { unfold valid_command in Hv. rewrite Ht in Hv. cbn in Hv.
      apply andb_true_iff in Hv as [_ Hv%Z.leb_le]. unfold i64_max. lia. }
    destruct (run_del cmd home p Hok Ht Hz Hh) as (n' & p' & H & I' & S' & A' & B').
    unfold PoolSpec.spec_execute. rewrite Ht. cbn [mret res_ret]. exists n', p'. split; [exact H|].
    split; [done|]. split.
    { destruct Hok as [Hn I Hp]. destruct S' as [S1 S2].
      split; [lia|done|]. rewrite A'. by apply placed_dels. }
    split; [done|]. cbn. unfold in_i64. unfold i64_min, i64_max in *. by zcmp.
  - destruct (run_info cmd home p Hok Ht Hh) as (n' & r & H1 & -> & H3). by exists n', p.
Qed.

(** A command whose count, if it has one, fits does not fault. *)
Lemma execute_fits cmd home p :
  pool_ok p -> valid_command cmd = true -> home_ok p home ->
  (forall s, s ∈ shards p -> command_defined (max_memory_bytes_ s) cmd (clk 0%nat)) ->
  counts_fit cmd (clk 0%nat) = true ->
  exists n' r p', run_from self clk 0 (execute XXH3_64bits self p cmd home) p = Ok (r, (n', p'))
    /\ spec_execute cmd (clk 0%nat) (abs_pool p) = Ok (r, abs_pool p') /\ pool_ok p'
    /\ same_pool p p' /\ wf_value r = true.
Proof.
  intros Hok Hv Hh Hd Hc. pose proof (execute_spec cmd home p Hok Hv Hh Hd) as H. unfold runs_as in H.
  destruct (spec_execute cmd (clk 0%nat) (abs_pool p)) as [[r caches]|f].
  - destruct H as (n' & p' & H & <- & Hr). by exists n', r, p'.
  - destruct H as (_ & Hf & _). congruence.
Qed.
End Executor.
