(* ===== verification/ExecutorTheorems.v ===== *)
(** * What the executor guarantees

    The properties of [CommandExecutor]: it implements the meaning of commands on
    the sharded store whatever thread it runs in, the behaviour of [SET] with
    its options, of [DEL], [INFO], [COMMAND] and [CONFIG], read-your-writes across
    sessions, and well-formed replies. *)

From S2P Require Import Prelude RespValue RespSerializer Command Glob StdText LruShard LruSpec.
From S2P Require Import LruInv LruRefine LruTheorems ShardPool CommandExecutor ExecutorSpec.
From S2P Require Import PoolSpec ExecutorRefine.

Lemma newShardPool_ok h n m b : 0 <= m < two64 -> pool_ok h (newShardPool n m b).
Proof.
  intros Hm. split.
  - rewrite newShardPool_size. lia.
  - unfold shards, newShardPool. cbn [workers_]. rewrite fmap_replicate.
    apply Forall_replicate. by apply newShard_Inv.
  - intros i c e Hc He. unfold abs_pool, shards, newShardPool in Hc. cbn [workers_] in Hc.
    rewrite !fmap_replicate in Hc. apply lookup_replicate_1 in Hc as [-> _]. by apply elem_of_nil in He.
Qed.

Lemma run_Ok {A} self clk (t : Task A) p a n p' :
  run_from self clk 0 t p = Ok (a, (n, p')) -> run self clk t p = Ok (a, p').
Proof. intros H. unfold run. by rewrite H. Qed.

Lemma run_Fault {A} self clk (t : Task A) p f : run_from self clk 0 t p = Fault f -> run self clk t p = Fault f.
Proof. intros H. unfold run. by rewrite H. Qed.

(** C6. Refinement: any command with a valid number of arguments, executed from
    any thread and any home shard of the pool, in place or through the
    shards' threads, answers and changes the caches exactly as [spec_execute]
    says, and leaves every shard in a good state and every key in the shard it
    is routed to - no failed [assert], no bad index, no dead iterator.  One
    fault is possible, and it happens exactly when [spec_execute] says so: the
    signed overflow of a deadline, for a count of seconds that is out of the
    clock's range, in a [SET] with [EX], or in an [EXPIRE] of a key that is
    there.  The hypotheses on the environment are that payload and budget
    together fit [std::size_t], and that the two clock readings of a [TTL] are
    in order. *)
Theorem execute_refines (hash : bytes -> N) self clk cmd home p :
  pool_ok hash p -> valid_command cmd = true -> home_ok p home ->
  (forall s, s ∈ shards p -> command_defined (max_memory_bytes_ s) cmd (clk 0%nat)) ->
  match spec_execute hash cmd (clk 0%nat) (abs_pool p) with
  | Ok (reply, caches) => exists p', run self clk (execute hash self p cmd home) p = Ok (reply, p')
      /\ abs_pool p' = caches /\ pool_ok hash p' /\ same_pool p p'
  | Fault f => f = SignedOverflow /\ counts_fit cmd (clk 0%nat) = false
      /\ run self clk (execute hash self p cmd home) p = Fault f
  end.
Proof.
  intros Hok Hv Hh Hd. pose proof (execute_spec hash self clk cmd home p Hok Hv Hh Hd) as H.
  unfold runs_as in H. destruct (spec_execute hash cmd (clk 0%nat) (abs_pool p)) as [[r caches]|f].
  - destruct H as (n & p' & H & Hc & Hok' & Hs & _). exists p'. split; [by eapply run_Ok|done].
  - destruct H as (Hf & Hc & H). split; [done|]. split; [done|by apply run_Fault].
Qed.

Definition length_hash (k : bytes) : N := N.of_nat (length k).
Definition pool2 : ShardPool := newShardPool 2 10 false.

Lemma pool_shards_forall (P : LruShard -> Prop) p :
  Forall P (shards p) -> forall s, s ∈ shards p -> P s.
Proof. intros H s Hs. by eapply Forall_forall in H. Qed.

(** A count of five seconds, and one that overflows. *)
Lemma execute_refines_witness :
  (exists p', run 7%positive (fun _ => (0, 0))
      (execute length_hash 7%positive pool2 (mkCommand CSet [ #"k"; #"v"; #"ex"; #"5"]) (Some 1%nat)) pool2
      = Ok (ok_reply, p')
    /\ abs_pool p' = [mkCache [] 10 0 0; mkCache [mkEntry #"k" #"v" (Some 5000000000)] 10 0 0]
    /\ pool_ok length_hash p' /\ same_pool pool2 p')
  /\ run 7%positive (fun _ => (0, 0))
      (execute length_hash 7%positive pool2 (mkCommand CSet [ #"k"; #"v"; #"ex"; #"99999999999"]) None) pool2
    = Fault SignedOverflow.
Proof.
  assert (Hp : pool_ok length_hash pool2) by (apply newShardPool_ok; unfold two64; lia).
  assert (Hd : forall n s, s ∈ shards pool2 ->
    command_defined (max_memory_bytes_ s) (mkCommand CSet [ #"k"; #"v"; #"ex"; n]) (0, 0)).
  { intros n. apply (pool_shards_forall (fun s => command_defined (max_memory_bytes_ s) _ _)).
    repeat (apply Forall_cons; split; [by split|]). by apply Forall_nil. }
  split.
  - apply (execute_refines length_hash 7%positive (fun _ => (0, 0)) (mkCommand CSet [ #"k"; #"v"; #"ex"; #"5"]) (Some 1%nat) pool2);
      [exact Hp|reflexivity| |apply Hd]. intros h [= <-]. vm_compute. lia.
  - refine (proj2 (proj2 (execute_refines length_hash 7%positive (fun _ => (0, 0))
      (mkCommand CSet [ #"k"; #"v"; #"ex"; #"99999999999"]) None pool2 Hp eq_refl _ (Hd _)))). by intros h [=].
Defined.

(** What a client sees of a run: the reply, and the contents of the shards. *)
Definition observed (m : res (RespValue * ShardPool)) : res (RespValue * list Cache) :=
  '(r, p) ← m; mret (r, abs_pool p).

(** C23. Location independence: the reply and the contents of all shards do not
    depend on the thread that executes the command, nor on the home shard of
    the session; nor does whether the deadline of the command overflows, and
    if its count fits, it is executed. *)
Theorem execute_location (hash : bytes -> N) self1 self2 clk cmd home1 home2 p :
  pool_ok hash p -> valid_command cmd = true -> home_ok p home1 -> home_ok p home2 ->
  (forall s, s ∈ shards p -> command_defined (max_memory_bytes_ s) cmd (clk 0%nat)) ->
  observed (run self1 clk (execute hash self1 p cmd home1) p)
  = observed (run self2 clk (execute hash self2 p cmd home2) p)
  /\ (counts_fit cmd (clk 0%nat) = true ->
        exists reply p1, run self1 clk (execute hash self1 p cmd home1) p = Ok (reply, p1)).
Proof.
  intros Hok Hv H1 H2 Hd.
  pose proof (execute_spec hash self1 clk cmd home1 p Hok Hv H1 Hd) as E1.
  pose proof (execute_spec hash self2 clk cmd home2 p Hok Hv H2 Hd) as E2. unfold runs_as in *.
  destruct (spec_execute hash cmd (clk 0%nat) (abs_pool p)) as [[r caches]|f].
  - destruct E1 as (n1 & p1 & E1%run_Ok & <- & _), E2 as (n2 & p2 & E2%run_Ok & A2 & _).
    rewrite E1, E2. cbn. rewrite A2. split; [done|]. intros _. by exists r, p1.
  - destruct E1 as (_ & Hc & E1%run_Fault), E2 as (_ & _ & E2%run_Fault). rewrite E1, E2.
    split; [done|]. rewrite Hc. done.
Qed.

(** A pool that holds two keys, in different shards. *)
Definition pool2_with (k : bytes) (p : ShardPool) : ShardPool :=
  match run 1%positive (fun _ => (0, 0))
          (execute length_hash 1%positive p (mkCommand CSet [k; #"v"]) None) p with
  | Ok (_, p) => p
  | Fault _ => p
  end.

Lemma pool2_with_ok k p :
  pool_ok length_hash p -> (forall s, s ∈ shards p -> max_memory_bytes_ s + (zlen k + 1) < two64) ->
  pool_ok length_hash (pool2_with k p).
Proof.
  intros Hok Hm.
  destruct (execute_fits length_hash 1%positive (fun _ => (0, 0)) (mkCommand CSet [k; #"v"]) None p Hok eq_refl)
    as (n & r & p' & H & _ & Hok' & _); [done| |done|].
  { intros s Hs. split; [by apply Hm|done]. }
  unfold pool2_with. by rewrite (run_Ok _ _ _ _ _ _ _ H).
Qed.

Definition pool2ab : ShardPool := Eval vm_compute in pool2_with #"bb" (pool2_with #"a" pool2).

Lemma pool2ab_ok : pool_ok length_hash pool2ab.
Proof.
  change pool2ab with (pool2_with #"bb" (pool2_with #"a" pool2)).
  apply pool2_with_ok; [apply pool2_with_ok; [apply newShardPool_ok; unfold two64; lia|]|];
    apply (pool_shards_forall (fun s => max_memory_bytes_ s + (zlen _ + 1) < two64)), (bool_decide_unpack _); vm_compute; reflexivity.
Qed.

Lemma execute_location_witness :
  observed (run 1%positive (fun _ => (0, 0)) (execute length_hash 1%positive pool2ab (mkCommand CDel [ #"a"; #"bb"]) None) pool2ab)
  = observed (run 2%positive (fun _ => (0, 0)) (execute length_hash 2%positive pool2ab (mkCommand CDel [ #"a"; #"bb"]) (Some 1%nat)) pool2ab)
  /\ (true = true -> exists reply p1,
        run 1%positive (fun _ => (0, 0)) (execute length_hash 1%positive pool2ab (mkCommand CDel [ #"a"; #"bb"]) None) pool2ab
        = Ok (reply, p1)).
Proof.
  apply (execute_location length_hash 1%positive 2%positive (fun _ => (0, 0)) (mkCommand CDel [ #"a"; #"bb"]) None (Some 1%nat) pool2ab).
  - apply pool2ab_ok.
  - reflexivity.
  - done.
  - intros h [= <-]. vm_compute. lia.
  - intros s _. by split.
Defined.

(** ** DEL *)

(** C18. [DEL k1 ... kn] removes exactly the entries of those keys from all the
    shards and keeps every other entry with its value, deadline and place in
    the recency order; the reply is the number of entries removed, a key
    named twice being counted once. *)
Theorem del_exact (hash : bytes -> N) self clk keys home p :
  pool_ok hash p -> valid_command (mkCommand CDel keys) = true -> home_ok p home ->
  exists n p', run self clk (execute hash self p (mkCommand CDel keys) home) p
      = Ok (RespInt kInteger n, p')
    /\ (forall i s, shards p !! i = Some s -> exists s', shards p' !! i = Some s'
          /\ abs_entries s' = filter (fun e => e_key e ∉ keys) (abs_entries s))
    /\ n = entry_count (abs_pool p) - entry_count (abs_pool p').
Proof.
  intros Hok Hv Hh.
  destruct (execute_fits hash self clk (mkCommand CDel keys) home p Hok Hv Hh) as (m & r & p' & H & Hs & _);
    [done|done|].
  unfold spec_execute in Hs. cbn [ctype args] in Hs. injection Hs as <- Hp'.
  eexists _, p'. split; [by eapply run_Ok|]. split; [|unfold all_gone; by rewrite Hp'].
  intros i s Hi. apply (f_equal (fun l => l !! i)) in Hp'.
  rewrite list_lookup_fmap, (abs_pool_lookup _ _ _ Hi) in Hp'. unfold abs_pool in Hp'.
  rewrite list_lookup_fmap in Hp'. destruct (shards p' !! i) as [s'|]; [|done].
  exists s'. split; [done|]. injection Hp' as Ha _ _ _. done.
Qed.

Lemma del_exact_witness :
  exists n p', run 1%positive (fun _ => (0, 0)) (execute length_hash 1%positive pool2ab (mkCommand CDel [ #"a"; #"a"; #"c"]) None) pool2ab
      = Ok (RespInt kInteger n, p')
    /\ (forall i s, shards pool2ab !! i = Some s -> exists s', shards p' !! i = Some s'
          /\ abs_entries s' = filter (fun e => e_key e ∉ [ #"a"; #"a"; #"c"]) (abs_entries s))
    /\ n = entry_count (abs_pool pool2ab) - entry_count (abs_pool p').
Proof.
  apply del_exact; [apply pool2ab_ok|reflexivity|done].
Defined.

(** ** SET *)

(** The value a key has at [now], if it has not lapsed. *)
Definition live (now : Z) (k : bytes) (es : list Entry) : option bytes :=
  e ← lookup_key k es; if has_lapsed now e then None else Some (e_value e).

Lemma c_get_live now k c : (c_get now k c).1 = live now k (entries c).
Proof. unfold c_get, live. destruct (lookup_key k (entries c)) as [e|]; [|done]. cbn. by destruct (has_lapsed now e). Qed.

Lemma c_set_lookup k v t c :
  lookup_key k (entries (c_set k v t c))
  = if zlen k + zlen v <=? budget c then Some (mkEntry k v t) else None.
Proof. cbn. unfold size_of. cbn. destruct (_ <=? _); [|done]. cbn. by rewrite decide_True. Qed.

(** A [GET] changes no live value. *)
Lemma live_c_get now k k' c : live now k' (entries (c_get now k c).2) = live now k' (entries c).
Proof.
  unfold c_get. destruct (lookup_key k (entries c)) as [e|] eqn:He; [|done].
  pose proof (lookup_key_Some _ _ _ He) as [_ Hk]. unfold live.
  destruct (has_lapsed now e) eqn:El; cbn [snd entries].
  - destruct (decide (k' = k)) as [->|Hne]; [|by rewrite without_lookup_ne].
    rewrite without_lookup_eq, He. cbn. by rewrite El.
  - cbn [lookup_key]. destruct (decide (e_key e = k')) as [<-|Hne].
    + by rewrite Hk, He.
    + rewrite without_lookup_ne by congruence. done.
Qed.

(** C26. [SET k v NX] and [SET k v XX], in any case: the key is written exactly when it
    is absent or lapsed, or present and live, respectively, and then it has
    no deadline; a null reply otherwise, which changes no live value.  Any
    other third option is a syntax error that changes nothing. *)
Theorem set_conditional clock k v o s :
  Inv s -> max_memory_bytes_ s + (zlen k + zlen v) < two64 ->
  let exists_ := bool_decide (is_Some (live (fst clock) k (abs_entries s))) in
  exists reply s', processSetCommand (mkCommand CSet [k; v; o]) clock s = Ok (reply, s')
    /\ (to_uppercase o = #"NX" -> reply = if exists_ then null_reply else ok_reply)
    /\ (to_uppercase o = #"XX" -> reply = if exists_ then ok_reply else null_reply)
    /\ (to_uppercase o <> #"NX" -> to_uppercase o <> #"XX" -> reply = syntax_error /\ abs s' = abs s)
    /\ (reply = ok_reply -> lookup_key k (abs_entries s')
          = if zlen k + zlen v <=? max_memory_bytes_ s then Some (mkEntry k v None) else None)
    /\ (reply <> ok_reply -> forall k', live (fst clock) k' (abs_entries s') = live (fst clock) k' (abs_entries s)).
Proof.
  intros I Hb exists_.
  destruct (set_command_implements k v [o] clock s I) as (s' & H & I' & A'); [cbn; lia|done|].
  exists (spec_set (fst clock) k v [o] (abs s)).1, s'. split; [exact H|].
  change (abs_entries s') with (entries (abs s')). rewrite A'. clear A' H. cbn [spec_command spec_set ctype args].
  assert (Hif : forall w, let r := spec_put_if w (fst clock) k v (abs s) in
    r.1 = (if Bool.eqb exists_ w then ok_reply else null_reply)
    /\ (r.1 = ok_reply -> lookup_key k (entries r.2)
          = if zlen k + zlen v <=? max_memory_bytes_ s then Some (mkEntry k v None) else None)
    /\ (r.1 <> ok_reply -> forall k', live (fst clock) k' (entries r.2) = live (fst clock) k' (abs_entries s))).
  { intros w. unfold spec_put_if. pose proof (c_get_live (fst clock) k (abs s)) as Hl.
    pose proof (c_get_budget (fst clock) k (abs s)) as Hbud.
    pose proof (fun k' => live_c_get (fst clock) k k' (abs s)) as Hk.
    destruct (c_get (fst clock) k (abs s)) as [found c]. cbn [fst snd] in *.
    rewrite Hl. change (entries (abs s)) with (abs_entries s) in *. fold exists_. destruct (Bool.eqb exists_ w); cbn [spec_put fst snd].
    - split; [done|]. split; [intros _; by rewrite c_set_lookup, Hbud|by intros []].
    - split; [done|]. split; [discriminate|done]. }
  destruct (decide (to_uppercase o = #"NX")) as [Ho|Hn]; [|destruct (decide (to_uppercase o = #"XX")) as [Ho|Hx]].
  - destruct (Hif false) as (H1 & H2 & H3). rewrite Ho.
    split; [intros _; rewrite H1; by destruct exists_|]. split; [discriminate|].
    split; [by intros []|]. done.
  - destruct (Hif true) as (H1 & H2 & H3). rewrite Ho.
    split; [discriminate|]. split; [intros _; rewrite H1; by destruct exists_|].
    split; [by intros _ []|]. done.
  - cbn [fst snd]. repeat split; try done.
Qed.

Lemma set_conditional_witness :
  exists reply s', processSetCommand (mkCommand CSet [ #"k"; #"v"; #"nx"]) (0, 0) (newShard 5) = Ok (reply, s')
    /\ (to_uppercase #"nx" = #"NX" -> reply = ok_reply)
    /\ (to_uppercase #"nx" = #"XX" -> reply = null_reply)
    /\ (to_uppercase #"nx" <> #"NX" -> to_uppercase #"nx" <> #"XX" ->
          reply = syntax_error /\ abs s' = abs (newShard 5))
    /\ (reply = ok_reply -> lookup_key #"k" (abs_entries s')
          = if zlen #"k" + zlen #"v" <=? 5 then Some (mkEntry #"k" #"v" None) else None)
    /\ (reply <> ok_reply -> forall k', live 0 k' (abs_entries s') = live 0 k' (abs_entries (newShard 5))).
Proof.
  apply (set_conditional (0, 0) #"k" #"v" #"nx" (newShard 5)).
  - apply newShard_Inv. unfold two64. lia.
  - vm_compute. reflexivity.
Defined.

(** C38. [SET k v EX n]: what [std::stoull] rejects is an error that changes nothing;
    a count [n] it accepts - negative numbers and trailing text included -
    stores the value with the deadline [n] seconds from now, in 64-bit
    arithmetic; and if that overflows - [after_seconds], whose closed form is
    [after_seconds_spec], says when - so does the command.  The payload fits
    [std::size_t] beside the budget. *)
Theorem set_ex clock k v o text s :
  Inv s -> max_memory_bytes_ s + (zlen k + zlen v) < two64 -> to_uppercase o = #"EX" ->
  match stoull text with
  | None => exists s', processSetCommand (mkCommand CSet [k; v; o; text]) clock s = Ok (not_an_integer, s')
      /\ abs s' = abs s
  | Some n =>
      match after_seconds (fst clock) n with
      | Ok t => exists s', processSetCommand (mkCommand CSet [k; v; o; text]) clock s = Ok (ok_reply, s')
          /\ lookup_key k (abs_entries s')
             = if zlen k + zlen v <=? max_memory_bytes_ s then Some (mkEntry k v (Some t)) else None
      | Fault f => processSetCommand (mkCommand CSet [k; v; o; text]) clock s = Fault f
      end
  end.
Proof.
  intros I Hb Ho. pose proof (set_command_implements k v [o; text] clock s I ltac:(cbn; lia) Hb) as H.
  unfold meaning, overflows, counts_fit, count_fits, spec_command, spec_set in H. cbn [ctype args] in H.
  rewrite Ho, bool_decide_true, decide_True, andb_true_r in H by done. cbn [negb orb] in H.
  destruct (stoull text) as [n|]; [|by destruct H as (s' & H & _ & A'); exists s'].
  rewrite after_seconds_cases. destruct (deadline_of (fst clock) n) as [t|].
  - rewrite bool_decide_true in H by eauto. destruct H as (s' & H & _ & A'). exists s'. split; [exact H|].
    change (abs_entries s') with (entries (abs s')). rewrite A'. apply c_set_lookup.
  - by rewrite bool_decide_false in H by (by intros []).
Qed.

(** A negative count is accepted, and the key lapses at once; a large one
    overflows. *)
Lemma set_ex_witness :
  (exists s', processSetCommand (mkCommand CSet [ #"k"; #"v"; #"ex"; #"-1s"]) (5000000000, 5000000000) (newShard 5)
      = Ok (ok_reply, s')
    /\ lookup_key #"k" (abs_entries s')
       = if zlen #"k" + zlen #"v" <=? 5 then Some (mkEntry #"k" #"v" (Some 4000000000)) else None)
  /\ processSetCommand (mkCommand CSet [ #"k"; #"v"; #"ex"; #"99999999999"]) (0, 0) (newShard 5) = Fault SignedOverflow.
Proof.
  assert (I : Inv (newShard 5)) by (apply newShard_Inv; unfold two64; lia).
  split.
  - apply (set_ex (5000000000, 5000000000) #"k" #"v" #"ex" #"-1s" (newShard 5) I); reflexivity.
  - apply (set_ex (0, 0) #"k" #"v" #"ex" #"99999999999" (newShard 5) I); reflexivity.
Defined.

(** ** Across sessions *)

Lemma spec_one_key hash cmd clock caches k i c :
  args cmd !! 0%nat = Some k -> one_key (ctype cmd) = true ->
  getShardIndex hash k (length caches) = Ok i -> caches !! i = Some c -> counts_fit cmd clock = true ->
  spec_execute hash cmd clock caches
  = Ok ((spec_command cmd clock c).1, <[i := (spec_command cmd clock c).2]> caches).
Proof.
  intros Hk Ht Hi Hc Hf. unfold spec_execute, arg. rewrite Hk. cbn [of_option mbind res_bind].
  rewrite Hi. cbn [mbind res_bind]. rewrite Hc. cbn [of_option mbind res_bind]. rewrite meaning_fits by done.
  destruct (spec_command cmd clock c). by destruct (ctype cmd).
Qed.

(** Read your writes, across sessions: after [SET k v] executed from one thread
    and home shard, [GET k] executed from any other answers [v], on every pool,
    provided the pair fits the budget of the key's shard on its own. *)
Theorem pool_get_after_set (hash : bytes -> N) self1 self2 clk1 clk2 home1 home2 k v m p i s :
  pool_ok hash p -> home_ok p home1 -> home_ok p home2 ->
  (forall s, s ∈ shards p -> max_memory_bytes_ s = m) -> m + (zlen k + zlen v) < two64 ->
  getShardIndex hash k (size p) = Ok i -> shards p !! i = Some s ->
  exists p1 p2,
    run self1 clk1 (execute hash self1 p (mkCommand CSet [k; v]) home1) p = Ok (ok_reply, p1)
    /\ run self2 clk2 (execute hash self2 p1 (mkCommand CGet [k]) home2) p1
       = Ok (if zlen k + zlen v <=? m then RespString kBulkString v else null_reply, p2).
Proof.
  intros Hok H1 H2 Hm Hb Hi Hs. assert (Hsm : max_memory_bytes_ s = m)
    by (apply Hm; by apply list_elem_of_lookup_2 with i).
  destruct (execute_fits hash self1 clk1 (mkCommand CSet [k; v]) home1 p Hok eq_refl H1)
    as (n1 & r1 & p1 & E1 & S1 & Hok1 & [Hsz _] & _); [|done|].
  { intros s0 Hs0. rewrite (Hm s0 Hs0). by split. }
  destruct (execute_fits hash self2 clk2 (mkCommand CGet [k]) home2 p1 Hok1 eq_refl)
    as (n2 & r2 & p2 & E2 & S2 & _); [|done|done|].
  { intros h Hh. rewrite Hsz. by apply H2. }
  rewrite (spec_one_key hash _ _ _ k i (abs s)) in S1; [|done|done|by rewrite abs_pool_length|by apply abs_pool_lookup|done].
  injection S1 as <- Hp1.
  rewrite (spec_one_key hash _ _ _ k i (c_set k v None (abs s))) in S2; [|done|done| | |done].
  2: by rewrite abs_pool_length, Hsz.
  2: { rewrite <- Hp1. apply list_lookup_insert_eq. rewrite abs_pool_length, <- shards_length.
       by eapply lookup_lt_Some. }
  injection S2 as <- _. exists p1, p2. split; [by eapply run_Ok|].
  apply run_Ok in E2. rewrite E2. do 2 f_equal. unfold spec_command, spec_get. cbn [ctype args].
  pose proof (c_get_live (fst (clk2 0%nat)) k (c_set k v None (abs s))) as Hl.
  destruct (c_get (fst (clk2 0%nat)) k (c_set k v None (abs s))) as [r c]. cbn [fst snd] in *. subst r.
  unfold live. rewrite c_set_lookup, abs_budget, Hsm. by destruct (zlen k + zlen v <=? m).
Qed.

Lemma pool_get_after_set_witness :
  exists p1 p2,
    run 1%positive (fun _ => (0, 0)) (execute length_hash 1%positive pool2 (mkCommand CSet [ #"kk"; #"v"]) None) pool2
      = Ok (ok_reply, p1)
    /\ run 2%positive (fun _ => (9, 9)) (execute length_hash 2%positive p1 (mkCommand CGet [ #"kk"]) (Some 1%nat)) p1
       = Ok (if zlen #"kk" + zlen #"v" <=? 10 then RespString kBulkString #"v" else null_reply, p2).
Proof.
  apply (pool_get_after_set length_hash 1%positive 2%positive (fun _ => (0, 0)) (fun _ => (9, 9)) None (Some 1%nat) #"kk" #"v" 10 pool2 0 (newShard 10)).
  - apply newShardPool_ok. unfold two64. lia.
  - done.
  - intros h [= <-]. vm_compute. lia.
  - intros s Hs. apply list_elem_of_fmap in Hs as (w & -> & Hw).
    repeat (apply elem_of_cons in Hw as [->|Hw]; [reflexivity|]). by apply elem_of_nil in Hw.
  - vm_compute. reflexivity.
  - reflexivity.
  - reflexivity.
Defined.

(** ** INFO, CONFIG *)

Definition sum_of (f : Cache -> Z) (caches : list Cache) : Z := foldr (fun c n => f c + n) 0 caches.

Lemma fold_stats caches a b c d e :
  foldl add_stats (mkStats (u64 a) (u64 b) (u64 c) (u64 d) (u64 e)) (cache_stats <$> caches)
  = mkStats (u64 (a + sum_of (fun c => total (entries c)) caches))
      (u64 (b + sum_of (fun c => zlen (entries c)) caches)) (u64 (c + sum_of evicted caches))
      (u64 (d + sum_of lapsed caches)) (u64 (e + sum_of budget caches)).
Proof.
  revert a b c d e. induction caches as [|x caches IH]; intros a b c d e; cbn [sum_of foldr].
  - by rewrite !Z.add_0_r.
  - cbn [fmap list_fmap foldl]. unfold add_stats at 2. cbn. rewrite !u64_add_l, IH.
    unfold sum_of. f_equal; f_equal; lia.
Qed.

(** [INFO], [INFO memory] and [INFO all], in any case, answer the totals of all the
    shards - payload bytes and keys actually stored, entries evicted and
    expired, budgets -, each modulo the width of its 64-bit counter, and
    change nothing; any other section is an error. *)
Theorem info_totals (hash : bytes -> N) self clk l home p :
  pool_ok hash p -> valid_command (mkCommand CInfo l) = true -> home_ok p home ->
  run self clk (execute hash self p (mkCommand CInfo l) home) p
  = Ok (if decide (match l with [] => #"DEFAULT" | s :: _ => to_uppercase s end ∈ info_sections)
        then RespString kBulkString (info_text
               (mkStats (u64 (sum_of (fun c => total (entries c)) (abs_pool p)))
                  (u64 (sum_of (fun c => zlen (entries c)) (abs_pool p)))
                  (u64 (sum_of evicted (abs_pool p))) (u64 (sum_of lapsed (abs_pool p)))
                  (u64 (sum_of budget (abs_pool p)))))
        else error_reply #"ERR unsupported INFO section", p).
Proof.
  intros Hok Hv Hh. destruct (run_info hash self clk (mkCommand CInfo l) home p Hok eq_refl Hh)
    as (n & r & H & Hs & _).
  unfold spec_execute in Hs. cbn [ctype args] in Hs.
  pose proof (fold_stats (abs_pool p) 0 0 0 0 0) as Hf. change (u64 0) with 0 in Hf.
  rewrite Hf in Hs. rewrite !Z.add_0_l in Hs. injection Hs as Hr. rewrite (run_Ok _ _ _ _ _ _ _ H), <- Hr.
  done.
Qed.

Lemma info_totals_witness :
  run 1%positive (fun _ => (0, 0)) (execute length_hash 1%positive pool2 (mkCommand CInfo [ #"memory"]) None) pool2
  = Ok (RespString kBulkString (info_text (mkStats 0 0 0 0 20)), pool2).
Proof.
  etransitivity; [apply (info_totals length_hash 1%positive (fun _ => (0, 0)) [ #"memory"])|].
  - apply newShardPool_ok. unfold two64. lia.
  - reflexivity.
  - done.
  - vm_compute. reflexivity.
Defined.

(** [CONFIG GET pattern] answers, in order, the supported parameters whose
    names the lower-cased pattern means as a glob, each with its value; other
    subcommands are an error. *)
Theorem config_get sub pattern :
  exists save appendonly : bool,
    (save = true <-> glob (to_lowercase pattern) #"save")
    /\ (appendonly = true <-> glob (to_lowercase pattern) #"appendonly")
    /\ processConfigCommand (mkCommand CConfig [sub; pattern])
       = Ok (if decide (to_uppercase sub = #"GET") then
               RespArr kArray
                 ((if save then [RespString kBulkString #"save"; RespString kBulkString #""] else [])
                  ++ (if appendonly
                      then [RespString kBulkString #"appendonly"; RespString kBulkString #"no"] else []))
             else error_reply #"Unknown subcommand").
Proof.
  assert (Hmatch : forall name, "*"%char ∉ name -> exists b,
    glob_match (to_lowercase pattern) name = Ok b /\ (b = true <-> glob (to_lowercase pattern) name)).
  { intros name Hn. destruct (glob_match_decides (to_lowercase pattern) name) as (b & Hb & Hg). eauto. }
  destruct (Hmatch #"save") as (b1 & H1 & G1); [by apply (bool_decide_unpack _); vm_compute|].
  destruct (Hmatch #"appendonly") as (b2 & H2 & G2); [by apply (bool_decide_unpack _); vm_compute|].
  exists b1, b2. split; [done|]. split; [done|]. unfold processConfigCommand, arg.
  cbn [args lookup list_lookup of_option mbind res_bind]. case_decide; [|done].
  unfold kSupportedConfigValues. cbn [config_loop]. rewrite H1. cbn [mbind res_bind]. rewrite H2.
  by destruct b1, b2.
Qed.

(** ** Replies *)

Lemma wf_serializable v : wf_value v = true -> serializable v = true.
Proof.
  induction v as [t s|t z|t l IH] using RespValue_rect'; destruct t; try done.
  cbn. intros H. apply List.forallb_forall. intros w Hw. rewrite List.forallb_forall in H.
  rewrite Forall_forall in IH. apply IH; [by apply list_elem_of_In|by apply H].
Qed.

(** C28. Every reply of the executor is a well-formed value, so that writing it to
    the client never fails: the serializer yields its encoding. *)
Theorem replies_serialize (hash : bytes -> N) self clk cmd home p reply p' :
  pool_ok hash p -> valid_command cmd = true -> home_ok p home ->
  (forall s, s ∈ shards p -> command_defined (max_memory_bytes_ s) cmd (clk 0%nat)) ->
  run self clk (execute hash self p cmd home) p = Ok (reply, p') ->
  wf_value reply = true /\ serialize reply = Ok (encode reply).
Proof.
  intros Hok Hv Hh Hd Hrun. pose proof (execute_spec hash self clk cmd home p Hok Hv Hh Hd) as H.
  unfold runs_as in H. destruct (spec_execute hash cmd (clk 0%nat) (abs_pool p)) as [[r caches]|f].
  - destruct H as (n & q & H%run_Ok & _ & _ & _ & Hwf). rewrite H in Hrun. injection Hrun as <- _.
    split; [done|]. by apply serialize_total, wf_serializable.
  - destruct H as (_ & _ & H%run_Fault). congruence.
Qed.

Lemma replies_serialize_witness :
  wf_value (RespString kBulkString #"PONG") = true
  /\ serialize (RespString kBulkString #"PONG") = Ok (encode (RespString kBulkString #"PONG")).
Proof.
  apply (replies_serialize length_hash 1%positive (fun _ => (0, 0)) (mkCommand CPing []) None pool2 _ pool2).
  - apply newShardPool_ok. unfold two64. lia.
  - reflexivity.
  - done.
  - intros s _. by split.
  - reflexivity.
Defined.
