(* ===== verification/ExecutorErrors.v ===== *)
(** * The errors of the executor

    Which commands are refused, and with which error, is decided by the words
    of the command alone: not by the store, the clock, the thread or the
    number of shards. *)

From S2P Require Import Prelude RespValue Command StdText LruShard LruSpec LruInv LruRefine LruTheorems ShardPool.
From S2P Require Import CommandExecutor ExecutorSpec PoolSpec ExecutorRefine ExecutorTheorems.

(** The error a command is answered with, if it is. *)
Definition refusal (cmd : Command) : option RespValue :=
  match ctype cmd, args cmd with
  | CSet, [_; _; o] => if decide (to_uppercase o ∈ [ #"NX"; #"XX"]) then None else Some syntax_error
  | CSet, _ :: _ :: o :: n :: _ =>
      if decide (to_uppercase o = #"EX") then
        match stoull n with Some _ => None | None => Some not_an_integer end
      else Some syntax_error
  | CExpire, _ :: n :: _ => match stoull n with Some _ => None | None => Some not_an_integer end
  | CInfo, section :: _ =>
      if decide (to_uppercase section ∈ info_sections) then None else Some (error_reply #"ERR unsupported INFO section")
  | CConfig, subcommand :: _ =>
      if decide (to_uppercase subcommand = #"GET") then None else Some (error_reply #"Unknown subcommand")
  | CCommand, subcommand :: _ =>
      if decide (to_uppercase subcommand ∈ [ #"INFO"; #"COUNT"]) then None
      else Some (error_reply #"Unknown subcommand")
  | CUnknown, _ => Some processUnknownCommand
  | _, _ => None
  end.

Lemma refusal_error cmd e : refusal cmd = Some e -> type e = kError.
Proof. unfold refusal. repeat case_match; intros; simplify_eq; done. Qed.

(** What [refusal] says of a reply and of what it leaves behind. *)
Definition refused_or_done {A} (cmd : Command) (reply : RespValue) (before after : A) : Prop :=
  match refusal cmd with
  | Some e => reply = e /\ after = before
  | None => type reply <> kError
  end.

Lemma spec_put_if_done wanted now k v c : type (spec_put_if wanted now k v c).1 <> kError.
Proof. unfold spec_put_if. destruct (c_get now k c). by destruct (Bool.eqb _ _). Qed.

Lemma spec_set_refused now k v options c :
  (length options <= 2)%nat ->
  refused_or_done (mkCommand CSet (k :: v :: options)) (spec_set now k v options c).1 c (spec_set now k v options c).2.
Proof.
  intros Hl. unfold refused_or_done, refusal, spec_set. cbn [ctype args].
  destruct options as [|o [|n [|? ?]]]; [done| | |cbn in Hl; lia].
  - destruct (decide (to_uppercase o = #"NX")) as [E|E].
    { rewrite decide_True by (rewrite E; left). apply spec_put_if_done. }
    destruct (decide (to_uppercase o = #"XX")) as [E'|E'].
    { rewrite decide_True by (rewrite E'; right; left). apply spec_put_if_done. }
    rewrite decide_False; [done|]. by intros [?|[?|?%elem_of_nil]%elem_of_cons]%elem_of_cons.
  - destruct (decide (to_uppercase o = #"EX")); [|done]. by destruct (stoull n).
Qed.

Lemma spec_command_refused cmd clock c :
  valid_command cmd = true -> one_key (ctype cmd) = true ->
  refused_or_done cmd (spec_command cmd clock c).1 c (spec_command cmd clock c).2.
Proof.
  intros Hv Ht. pose proof (valid_args cmd Hv) as Ha. destruct cmd as [t l]. cbn [ctype args] in *.
  destruct t; try done.
  - destruct Ha as (k & ->). unfold refused_or_done, refusal, spec_command, spec_get. cbn [ctype args].
    destruct (c_get _ _ _) as [[v|] c']; done.
  - destruct Ha as (k & v & options & -> & Hl). by apply spec_set_refused.
  - destruct Ha as (k & n & ->). unfold refused_or_done, refusal, spec_command, spec_expire. cbn [ctype args].
    destruct (stoull n); [|done]. by destruct (c_expire _ _ _).
  - destruct Ha as (k & ->). unfold refused_or_done, refusal, spec_command, spec_ttl. cbn [ctype args].
    by destruct (c_ttl _ _ _ _).
Qed.

Lemma spec_execute_refused hash cmd clock caches reply caches' :
  valid_command cmd = true -> spec_execute hash cmd clock caches = Ok (reply, caches') ->
  refused_or_done cmd reply caches caches'.
Proof.
  intros Hv H. destruct (one_key (ctype cmd)) eqn:Hk.
  { assert (He : (k ← arg cmd 0; i ← getShardIndex hash k (length caches);
       c ← of_option AssertFailure (caches !! i);
       '(r, c) ← meaning cmd clock c; mret (r, <[i := c]> caches)) = Ok (reply, caches'))
      by (unfold spec_execute in H; by destruct (ctype cmd)).
    apply bind_Ok in He as (k & _ & He). apply bind_Ok in He as (i & _ & He).
    apply bind_Ok in He as (c & Hc%of_option_Ok & He). unfold meaning in He.
    destruct (overflows cmd clock c); [done|]. cbn [mbind res_bind] in He. pose proof (spec_command_refused cmd clock c Hv Hk) as Hr. unfold refused_or_done in *.
    destruct (spec_command cmd clock c) as [r c']. injection He as <- <-. cbn [fst snd] in Hr.
    destruct (refusal cmd); [|done]. destruct Hr as [-> ->]. split; [done|]. by apply list_insert_id. }
  pose proof (valid_args cmd Hv) as Ha. destruct cmd as [t l]. unfold spec_execute, refused_or_done, refusal in *.
  cbn [ctype args] in *. destruct t; try done.
  - unfold processPingCommand in H. destruct Ha as [->|[a ->]]; cbn in H; by injection H as <- _.
  - injection H as <- <-. unfold processCommandCommand. cbn [args]. destruct l as [|a l]; [done|].
    destruct (decide (to_uppercase a = #"INFO")) as [E|E].
    { by rewrite decide_True by (rewrite E; left). }
    destruct (decide (to_uppercase a = #"COUNT")) as [E'|E'].
    { by rewrite decide_True by (rewrite E'; right; left). }
    rewrite decide_False; [done|]. by intros [?|[?|?%elem_of_nil]%elem_of_cons]%elem_of_cons.
  - by injection H as <- _.
  - injection H as <- <-. destruct l as [|a l]; [done|]. by case_decide.
  - apply bind_Ok in H as (r & Hr & [= <- <-]). destruct Ha as (a & b & ->).
    unfold processConfigCommand, arg in Hr. cbn [args lookup list_lookup of_option mbind res_bind] in Hr.
    case_decide; [|by injection Hr as <-]. apply bind_Ok in Hr as (result & _ & [= <-]). done.
Qed.

(** A count that overflows is a count. *)
Lemma overflow_not_refused cmd clock : counts_fit cmd clock = false -> valid_command cmd = true -> refusal cmd = None.
Proof.
  unfold counts_fit, count_fits, refusal. intros H Hv. pose proof (valid_args cmd Hv) as Ha.
  destruct (ctype cmd); try done.
  - destruct Ha as (k & v & [|o [|n [|? ?]]] & Ha & Hl); rewrite Ha in *; [done..| |cbn in Hl; lia].
    apply orb_false_iff in H as [Ho%negb_false_iff%bool_decide_eq_true Hn].
    rewrite decide_True by done. by destruct (stoull n).
  - destruct Ha as (k & n & Ha). rewrite Ha in *. by destruct (stoull n).
Qed.

(** C25. Errors: a command is answered with an error exactly when its words are
    refused - an unknown option, subcommand or section, a count that
    [std::stoull] rejects -, whatever the shards hold, the time, the thread and
    the home shard; it is then answered with the error that its words call for,
    and it has changed nothing: no entry, no recency, no counter.  A command
    that is not answered at all was not refused either: its count is one that
    overflows. *)
Theorem errors_change_nothing (hash : bytes -> N) self clk cmd home p :
  pool_ok hash p -> valid_command cmd = true -> home_ok p home ->
  (forall s, s ∈ shards p -> command_defined (max_memory_bytes_ s) cmd (clk 0%nat)) ->
  match run self clk (execute hash self p cmd home) p with
  | Ok (reply, p') =>
      (type reply = kError <-> is_Some (refusal cmd))
      /\ (type reply = kError -> refusal cmd = Some reply /\ abs_pool p' = abs_pool p)
  | Fault f => f = SignedOverflow /\ counts_fit cmd (clk 0%nat) = false /\ refusal cmd = None
  end.
Proof.
  intros Hok Hv Hh Hd. pose proof (execute_spec hash self clk cmd home p Hok Hv Hh Hd) as H.
  unfold runs_as in H. destruct (spec_execute hash cmd (clk 0%nat) (abs_pool p)) as [[r caches]|f] eqn:Hs.
  - destruct H as (n & p' & H%run_Ok & <- & _). rewrite H. apply spec_execute_refused in Hs; [|done].
    unfold refused_or_done in Hs. destruct (refusal cmd) as [e|] eqn:He.
    + destruct Hs as [-> ->]. apply refusal_error in He as Ht. split; [|done]. split; [by eexists|done].
    + split; [|done]. split; [done|by intros []].
  - destruct H as (Hf & Hc & H%run_Fault). rewrite H. split; [done|]. split; [done|by eapply overflow_not_refused].
Qed.

(** A count that is none, for a key of the second shard. *)
Lemma errors_change_nothing_witness :
  exists reply p', run 7%positive (fun _ => (0, 0))
      (execute length_hash 7%positive pool2 (mkCommand CSet [ #"k"; #"v"; #"EX"; #"soon"]) (Some 0%nat)) pool2
      = Ok (reply, p')
    /\ (type reply = kError <-> is_Some (Some not_an_integer))
    /\ (type reply = kError -> Some not_an_integer = Some reply /\ abs_pool p' = abs_pool pool2).
Proof.
  eexists _, _. split; [vm_compute; reflexivity|].
  apply (errors_change_nothing length_hash 7%positive (fun _ => (0, 0)) (mkCommand CSet [ #"k"; #"v"; #"EX"; #"soon"])
    (Some 0%nat) pool2).
  - apply newShardPool_ok. unfold two64. lia.
  - reflexivity.
  - intros h [= <-]. vm_compute. lia.
  - apply (pool_shards_forall (fun s => command_defined (max_memory_bytes_ s) _ _)).
    repeat (apply Forall_cons; split; [by split|]). by apply Forall_nil.
Defined.
