(* ===== verification/ExpirationController.v ===== *)
(** * The expiration controller

    [src/expirationController.cpp]: a turn of [cleaning_loop] is the decision
    how long to sleep, the sleep, and the purge.  The timer is a library's:
    [wakes] states what its documentation promises, that a wait never ends
    before its expiry time. *)

From S2P Require Import Prelude LruShard LruSpec LruInv LruRefine LruTheorems.

(** What the coroutine waits for: nothing, a point in time, or a delay from
    the current time. *)
Inductive Sleep := NoSleep | Until (t : TimePoint) | For (seconds : Z).

(** Lines 14-26: [now] is read only when there is a deadline. *)
Definition plan_sleep (now : TimePoint) (cache_ : LruShard) : Sleep :=
  match get_next_expire_time cache_ with
  | Some next_expire_time => if now <? next_expire_time then Until next_expire_time else NoSleep
  | None => For 3
  end.

(** The earliest time a wait begun at [now] can end. *)
Definition wakes_at (now : TimePoint) (d : Sleep) : TimePoint :=
  match d with
  | NoSleep => now
  | Until t => t
  | For seconds => now + seconds * 1000000000
  end.

(** One turn, the clock being read at [now] and, after the wait, at [now'];
    other handlers of the thread may have changed the cache in between, into
    [during cache_]. *)
Definition cleaning_turn (now now' : TimePoint) (during : LruShard -> LruShard)
    (cache_ : LruShard) : res (Sleep * LruShard) :=
  let d := plan_sleep now cache_ in
  s ← remove_expired_keys now' (match d with NoSleep => cache_ | _ => during cache_ end);
  mret (d, s).

(** What the thread does between two waits, lines 13-29 in a loop: turns without
    a wait follow each other in one handler of the thread, which other handlers
    do not interrupt, until the loop waits.  [now] gives the readings of the
    clock, one per call of [steady_clock::now]. *)
Fixpoint cleaning_handler (fuel : nat) (now : nat -> TimePoint) (cache_ : LruShard) : res (Sleep * LruShard) :=
  match fuel with
  | O => Fault OutOfFuel
  | S fuel =>
      match plan_sleep (now 0%nat) cache_ with
      | NoSleep =>
          cache_ ← remove_expired_keys (now 1%nat) cache_;
          cleaning_handler fuel (fun k => now (2 + k)%nat) cache_
      | d => mret (d, cache_)
      end
  end.

Lemma purge_facts now s :
  Inv s -> exists s', remove_expired_keys now s = Ok s' /\ Inv s'
    /\ abs_entries s' = filter (fun e => has_lapsed now e = false) (abs_entries s).
Proof.
  intros I. destruct (purge_refines now s I) as (s' & H & I' & A'). exists s'.
  split; [done|]. split; [done|]. by apply (f_equal entries) in A'.
Qed.

Lemma filter_drops (P : Entry -> Prop) `{!forall x, Decision (P x)} (l : list Entry) x :
  x ∈ l -> ~ P x -> zlen (filter P l) < zlen l.
Proof.
  intros Hx Hn. unfold zlen. apply inj_lt. revert Hx. induction l as [|y l IH]; [by intros ?%elem_of_nil|].
  rewrite filter_cons. intros [->|Hx]%elem_of_cons.
  - rewrite decide_False by done. cbn. pose proof (length_filter P l). lia.
  - specialize (IH Hx). case_decide; cbn; lia.
Qed.

(** A purge at [now] of a shard that has a deadline reached removes something. *)
Lemma purge_drops now l e t :
  e ∈ l -> e_deadline e = Some t -> t <= now ->
  zlen (filter (fun e => has_lapsed now e = false) l) < zlen l.
Proof. intros He Ht Hle. apply (filter_drops _ _ e He). unfold has_lapsed. rewrite Ht. by zcmp. Qed.

(** The wait is for the earliest deadline of the shard, if there is one, and
    there is none when it has passed. *)
Lemma plan_sleep_spec now s :
  Inv s ->
  match plan_sleep now s with
  | NoSleep => exists e t, e ∈ abs_entries s /\ e_deadline e = Some t /\ t <= now
  | Until t => now < t /\ (exists e, e ∈ abs_entries s /\ e_deadline e = Some t)
      /\ (forall e t', e ∈ abs_entries s -> e_deadline e = Some t' -> t <= t')
  | For d => d = 3 /\ forall e, e ∈ abs_entries s -> e_deadline e = None
  end.
Proof.
  intros I%next_expire_time_min. unfold plan_sleep. destruct (get_next_expire_time s) as [t|]; [|done].
  destruct I as ((e & He & Ht) & Hmin). destruct (Z.ltb_spec now t); eauto.
Qed.

(** A turn of the cleaning loop, whatever the other handlers do during the
    wait: it removes exactly the entries that have lapsed when it wakes, and
    leaves the shard in a good state.  It never spins: when it does not sleep
    it removes an entry; when it slept until a deadline and nothing else
    touched the shard, it removes an entry as well. *)
Theorem cleaning_turn_progress now now' during s :
  Inv s -> (Inv s -> Inv (during s)) -> wakes_at now (plan_sleep now s) <= now' ->
  exists s', cleaning_turn now now' during s = Ok (plan_sleep now s, s') /\ Inv s'
    /\ (forall e, e ∈ abs_entries s' -> has_lapsed now' e = false)
    /\ abs_entries s' = filter (fun e => has_lapsed now' e = false)
         (abs_entries (match plan_sleep now s with NoSleep => s | _ => during s end))
    /\ (plan_sleep now s = NoSleep -> zlen (abs_entries s') < zlen (abs_entries s))
    /\ (during s = s -> plan_sleep now s <> For 3 -> zlen (abs_entries s') < zlen (abs_entries s))
    /\ (during s = s -> plan_sleep now s = For 3 -> abs_entries s' = abs_entries s).
Proof.
  intros I Id Hw. unfold cleaning_turn. set (s0 := match plan_sleep now s with NoSleep => s | _ => during s end).
  assert (I0 : Inv s0) by (unfold s0; destruct (plan_sleep now s); auto).
  destruct (purge_facts now' s0 I0) as (s' & -> & I' & A'). exists s'. split; [done|]. split; [done|].
  split; [intros e He; rewrite A' in He; by apply list_elem_of_filter in He as [? _]|].
  split; [done|].
  assert (Hdrop : forall e t, e ∈ abs_entries s -> e_deadline e = Some t -> t <= now' -> s0 = s ->
    zlen (abs_entries s') < zlen (abs_entries s)).
  { intros e t He Hd Hle E. rewrite A', E. by apply (purge_drops _ _ e t). }
  pose proof (plan_sleep_spec now s I) as Hp. unfold s0 in *. clear s0.
  destruct (plan_sleep now s) as [|t|d]; cbn in Hw.
  - destruct Hp as (e & t & He & Ht & Hle). repeat split; try done; intros; apply (Hdrop e t); done || lia.
  - destruct Hp as (_ & (e & He & Ht) & _). repeat split; try done. intros E _. by apply (Hdrop e t).
  - destruct Hp as [-> Hnone]. repeat split; try done. intros E _. rewrite A', E.
    apply filter_keep_all. intros e He. unfold has_lapsed. by rewrite (Hnone e He).
Qed.

Lemma cleaning_turn_progress_witness :
  exists s', cleaning_turn 0 5000000000 id (newShard 10) = Ok (For 3, s') /\ Inv s'
    /\ (forall e, e ∈ abs_entries s' -> has_lapsed 5000000000 e = false)
    /\ abs_entries s' = filter (fun e => has_lapsed 5000000000 e = false) (abs_entries (newShard 10))
    /\ (For 3 = NoSleep -> zlen (abs_entries s') < zlen (abs_entries (newShard 10)))
    /\ (id (newShard 10) = newShard 10 -> For 3 <> For 3 ->
          zlen (abs_entries s') < zlen (abs_entries (newShard 10)))
    /\ (id (newShard 10) = newShard 10 -> For 3 = For 3 ->
          abs_entries s' = abs_entries (newShard 10)).
Proof.
  apply (cleaning_turn_progress 0 5000000000 id (newShard 10)).
  - apply newShard_Inv. unfold two64. lia.
  - done.
  - vm_compute. discriminate.
Defined.

Lemma cleaning_handler_S fuel now s :
  cleaning_handler (S fuel) now s
  = match plan_sleep (now 0%nat) s with
    | NoSleep => s ← remove_expired_keys (now 1%nat) s; cleaning_handler fuel (fun k => now (2 + k)%nat) s
    | d => mret (d, s)
    end.
Proof. done. Qed.

(** Of two purges in a row, the later one decides. *)
Lemma filter_lapsed_twice now now' (l : list Entry) :
  now <= now' ->
  filter (fun e => has_lapsed now' e = false) (filter (fun e => has_lapsed now e = false) l)
  = filter (fun e => has_lapsed now' e = false) l.
Proof.
  intros Hle. rewrite list_filter_filter. apply list_filter_iff. intros e. unfold has_lapsed.
  destruct (e_deadline e) as [t|]; [|done]. rewrite !Z.leb_gt. lia.
Qed.

(** C34. The cleaning loop always comes to rest: from any state of the shard and
    with a clock that does not run backwards, the turns without a wait are at
    most one per entry of the shard, whatever time they take; the handler
    purges what lapses meanwhile and nothing else, and ends in a wait, for the
    earliest deadline that is left - a moment to come - or, when no key has a
    deadline, of three seconds. *)
Theorem cleaning_handler_rests now s :
  Inv s -> (forall i j, (i <= j)%nat -> now i <= now j) ->
  exists d s', cleaning_handler (S (length (abs_entries s))) now s = Ok (d, s') /\ Inv s'
    /\ (s' = s \/ exists k, abs_entries s' = filter (fun e => has_lapsed (now k) e = false) (abs_entries s))
    /\ ((d = For 3 /\ forall e, e ∈ abs_entries s' -> e_deadline e = None)
        \/ exists t k, d = Until t /\ now k < t
             /\ (exists e, e ∈ abs_entries s' /\ e_deadline e = Some t)
             /\ forall e t', e ∈ abs_entries s' -> e_deadline e = Some t' -> t <= t').
Proof.
  intros I Hmono. assert (Hle : (length (abs_entries s) <= length (abs_entries s))%nat) by lia.
  revert Hle. generalize (length (abs_entries s)) at 2 3 as fuel. intros fuel.
  revert now s I Hmono. induction fuel as [|fuel IH]; intros now s I Hmono Hle.
  all: rewrite cleaning_handler_S; pose proof (plan_sleep_spec (now 0%nat) s I) as Hp.
  all: destruct (plan_sleep (now 0%nat) s) as [|t|d];
    [destruct Hp as (e & t & He & Ht & Hte)| |destruct Hp as [-> Hnone]].
  2, 3, 5, 6: eexists _, s; split; [done|]; split; [done|]; split; [by left|]; naive_solver.
  - exfalso. apply list_elem_of_lookup in He as [k Hk%lookup_lt_Some]. lia.
  - destruct (purge_facts (now 1%nat) s I) as (s1 & -> & I1 & A1). cbn [mbind res_bind].
    assert (Hdrop : zlen (abs_entries s1) < zlen (abs_entries s)).
    { rewrite A1. apply (purge_drops _ _ e t He Ht). pose proof (Hmono 0%nat 1%nat). lia. }
    destruct (IH (fun k => now (2 + k)%nat) s1 I1) as (d & s' & -> & I' & Hs' & Hd).
    { intros i j Hij. apply Hmono. lia. }
    { unfold zlen in Hdrop. lia. }
    exists d, s'. split; [done|]. split; [done|]. split; [|naive_solver]. right.
    destruct Hs' as [->|(k & Hk)]; [by exists 1%nat|]. exists (2 + k)%nat.
    rewrite Hk, A1. apply filter_lapsed_twice, Hmono. lia.
Qed.

(** A shard with one key, whose deadline is at 5. *)
Definition late_shard : LruShard :=
  mkLruShard {[ #"a" := 0%N ]} [(0%N, mkNode #"a" #"1" (Some 5) (Some 0%N))] [(0%N, (5, 0%N))] 10 2 0 0 1 1.

Lemma late_shard_Inv : Inv late_shard.
Proof.
  eapply (run_ops_Inv [OSet 5 #"a" #"1" (Some 0)] 10 [RVoid]); [unfold two64; lia|by repeat constructor|vm_compute; reflexivity].
Qed.

Lemma cleaning_handler_rests_witness :
  let now k := 5 + Z.of_nat k in
  exists d s', cleaning_handler (S (length (abs_entries late_shard))) now late_shard = Ok (d, s') /\ Inv s'
    /\ (s' = late_shard
        \/ exists k, abs_entries s' = filter (fun e => has_lapsed (now k) e = false) (abs_entries late_shard))
    /\ ((d = For 3 /\ forall e, e ∈ abs_entries s' -> e_deadline e = None)
        \/ exists t k, d = Until t /\ now k < t
             /\ (exists e, e ∈ abs_entries s' /\ e_deadline e = Some t)
             /\ forall e t', e ∈ abs_entries s' -> e_deadline e = Some t' -> t <= t').
Proof.
  cbn zeta. apply (cleaning_handler_rests (fun k => 5 + Z.of_nat k) late_shard).
  - apply late_shard_Inv.
  - intros i j H. lia.
Defined.

(** The lapsed key is purged in the first turn, and the second one waits. *)
Example late_shard_cleaned :
  (fun '(d, s) => (d, key_count (get_stats s)))
    <$> match cleaning_handler 2 (fun k => 5 + Z.of_nat k) late_shard with Ok x => Some x | _ => None end
  = Some (For 3, 0).
Proof. vm_compute. reflexivity. Qed.

(** The timer is not set again when a key with an earlier deadline arrives
    during a wait: a loop that waits for a deadline ten seconds away leaves a
    key that lapses after one second in place until then. *)
Example late_purge :
  (s ← set 0 #"late" #"x" (Some 10) (newShard 100);
   '(d, s) ← cleaning_turn 0 10000000000
     (fun s => match set 1 #"soon" #"y" (Some 1) s with Ok s => s | Fault _ => s end) s;
   mret (d, key_count (get_stats s)))
  = Ok (Until 10000000000, 0).
Proof. vm_compute. reflexivity. Qed.
