(* ===== verification/Config.v ===== *)
(** * Configuration

    [include/config.hpp] and [src/config.cpp].  What the TOML document holds at
    the keys the code asks for is the record [Lookups], which comes from a
    library: [None] where [value_or] finds no value of the type it is asked
    for.  What [get_config] makes of it is modelled with the widths of the
    C++ types.  [lookups] has the keys that are asked for and with which types;
    the access to the document is a parameter. *)

From S2P Require Import Prelude.

(** Conversions to [std::int32_t] and [std::uint16_t]. *)
Definition i32 (x : Z) : Z := (x + 2147483648) mod 4294967296 - 2147483648.
Definition u16 (x : Z) : Z := x mod 65536.

Record Lookups := mkLookups {
  lk_host : option bytes; lk_port : option Z; lk_thread_affinity_enabled : option bool;
  lk_max_message_size : option Z; lk_max_memory_bytes_per_shard : option Z;
  lk_preallocated_map_capacity_per_shard : option Z; lk_shard_count : option Z }.

Record Config := mkConfig {
  host : bytes; port : Z; max_message_size : Z; max_memory_bytes_per_shard : Z;
  preallocated_map_capacity_per_shard : Z; shard_count : Z; thread_affinity_enabled : bool }.

(** The initializers of the members. *)
Definition defaultConfig : Config := mkConfig #"0.0.0.0" 8080 1024 1024 0 1 false.

(** [value_or]. *)
Definition value_or {A} (value : option A) (default_value : A) : A := default default_value value.

Definition get_config (toml_config : Lookups) : Config :=
  let max_message_size := i64 (value_or (lk_max_message_size toml_config) 1024) in
  let max_message_size := if max_message_size <=? 0 then 1024 else max_message_size in
  let max_memory_bytes_per_shard := i64 (value_or (lk_max_memory_bytes_per_shard toml_config) 1024) in
  let max_memory_bytes_per_shard :=
    if max_memory_bytes_per_shard <=? 0 then 1024 else max_memory_bytes_per_shard in
  let preallocated := i64 (value_or (lk_preallocated_map_capacity_per_shard toml_config) 0) in
  let preallocated := if preallocated <? 0 then 0 else preallocated in
  let shard_count := i32 (value_or (lk_shard_count toml_config) 1) in
  let shard_count := if shard_count <=? 0 then 1 else shard_count in
  mkConfig (value_or (lk_host toml_config) #"0.0.0.0") (u16 (value_or (lk_port toml_config) 8080))
    (u64 max_message_size) (u64 max_memory_bytes_per_shard) (u64 preallocated) (u16 shard_count)
    (value_or (lk_thread_affinity_enabled toml_config) false).

(** ** The document

    [toml_config[table][key].value_or(d)] asks for a value of the type of [d]:
    a string, an [int] or a [bool]. *)
Section Document.
Context {document : Type}.
Variable value_string : document -> bytes -> bytes -> option bytes.
Variable value_int : document -> bytes -> bytes -> option Z.
Variable value_bool : document -> bytes -> bytes -> option bool.

(** What [get_config] looks up, and where. *)
Definition lookups (toml_config : document) : Lookups :=
  mkLookups (value_string toml_config #"server" #"host") (value_int toml_config #"server" #"port")
    (value_bool toml_config #"server" #"thread_affinity_enabled")
    (value_int toml_config #"server" #"max_message_size")
    (value_int toml_config #"cache" #"max_memory_bytes_per_shard")
    (value_int toml_config #"cache" #"preallocated_map_capacity_per_shard")
    (value_int toml_config #"cache" #"shard_count").

(** An integer of a document has 64 bits; as an [int] it is there only when it
    fits. *)
Variable integer_at : document -> bytes -> bytes -> option Z.
Hypothesis value_int_fits : forall toml_config table key x,
  integer_at toml_config table key = Some x ->
  value_int toml_config table key = if bool_decide (i32 x = x) then Some x else None.

Lemma i32_fits x : i32 x = x <-> -2147483648 <= x < 2147483648.
Proof.
  unfold i32. pose proof (Z.mod_pos_bound (x + 2147483648) 4294967296 ltac:(lia)).
  split; [lia|]. intros. rewrite Z.mod_small; lia.
Qed.

(** The sizes are stored in 64 bits, but looked up as an [int]: a budget or a
    message size from 2 GiB on is replaced by the default of a kilobyte. *)
Lemma large_size_lost toml_config v :
  2147483648 <= v ->
  (integer_at toml_config #"cache" #"max_memory_bytes_per_shard" = Some v ->
   max_memory_bytes_per_shard (get_config (lookups toml_config)) = 1024)
  /\ (integer_at toml_config #"server" #"max_message_size" = Some v ->
      max_message_size (get_config (lookups toml_config)) = 1024).
Proof.
  intros Hv. assert (Hf : bool_decide (i32 v = v) = false).
  { apply bool_decide_eq_false. rewrite i32_fits. lia. }
  split; intros H%value_int_fits; rewrite Hf in H; unfold get_config, lookups;
    cbn [lk_max_memory_bytes_per_shard lk_max_message_size max_memory_bytes_per_shard max_message_size];
    by rewrite H.
Qed.
End Document.

(** A budget of 4 GiB, in a document of integers. *)
Example four_gibibytes :
  let integers := fun table key => if bool_decide (table = #"cache") && bool_decide (key = #"max_memory_bytes_per_shard")
    then Some 4294967296 else None in
  let value_int := fun (toml_config : bytes -> bytes -> option Z) table key =>
    x ← toml_config table key; if bool_decide (i32 x = x) then Some x else None in
  max_memory_bytes_per_shard (get_config (lookups (fun _ _ _ => None) value_int (fun _ _ _ => None) integers)) = 1024.
Proof.
  intros integers value_int.
  refine (proj1 (large_size_lost (fun _ _ _ => None) value_int (fun _ _ _ => None) (fun toml_config => toml_config)
                   _ integers 4294967296 _) _).
  - intros toml_config table key x H. unfold value_int. by rewrite H.
  - lia.
  - reflexivity.
Qed.

(** A document with a value at every key. *)
Definition full_lookups (host : bytes) (port : Z) (affinity : bool)
    (message_size memory preallocated shards : Z) : Lookups :=
  mkLookups (Some host) (Some port) (Some affinity) (Some message_size) (Some memory)
    (Some preallocated) (Some shards).

Example config_default :
  get_config (full_lookups #"127.0.0.1" 6379 true 2048 4096 16 4)
  = mkConfig #"127.0.0.1" 6379 2048 4096 16 4 true.
Proof. vm_compute. reflexivity. Qed.

Lemma clamp_range x : let v := i64 x in 0 < u64 (if v <=? 0 then 1024 else v) <= i64_max.
Proof.
  pose proof (i64_bound x). cbn zeta. destruct (Z.leb_spec (i64 x) 0); [done|].
  rewrite u64_small; unfold i64_max, two64 in *; lia.
Qed.

(** Whatever the file holds, the configuration is one the server can run
    with: a positive message size and memory budget below [2 ^ 63], a port of
    16 bits.  A document without the keys gives the defaults of [Config];
    non-positive sizes become their defaults too, and the positive sizes that
    the lookups deliver are kept. *)
Theorem get_config_sane l :
  let c := get_config l in
  0 <= port c < 65536 /\ 0 < max_message_size c <= i64_max
  /\ 0 < max_memory_bytes_per_shard c <= i64_max
  /\ 0 <= preallocated_map_capacity_per_shard c <= i64_max /\ 0 <= shard_count c < 65536
  /\ get_config (mkLookups None None None None None None None) = defaultConfig
  /\ (forall v, lk_max_memory_bytes_per_shard l = Some v -> 0 < v <= i64_max ->
      max_memory_bytes_per_shard c = v)
  /\ (forall v, lk_max_message_size l = Some v -> 0 < v <= i64_max -> max_message_size c = v)
  /\ (forall v, lk_shard_count l = Some v -> 0 < v < 65536 -> shard_count c = v).
Proof.
  assert (Hkeep : forall x, 0 < x <= i64_max -> u64 (if i64 x <=? 0 then 1024 else i64 x) = x).
  { intros x Hx. rewrite i64_small by (unfold i64_min, i64_max in *; lia). zcmp.
    rewrite u64_small; unfold i64_max, two64 in *; lia. }
  cbn. split; [by apply Z.mod_pos_bound|]. split; [apply clamp_range|]. split; [apply clamp_range|].
  split.
  { set (v := value_or (lk_preallocated_map_capacity_per_shard l) 0). pose proof (i64_bound v).
    destruct (Z.ltb_spec (i64 v) 0); [done|].
    rewrite u64_small; unfold i64_max, two64 in *; lia. }
  split; [by apply Z.mod_pos_bound|]. split; [reflexivity|].
  split; [intros v -> Hv; by apply Hkeep|]. split; [intros v -> Hv; by apply Hkeep|].
  intros v -> Hs. cbn. unfold i32. rewrite Z.mod_small by lia. zcmp. unfold u16. rewrite Z.mod_small; lia.
Qed.

(** A shard count is cut to 16 bits: 65536 shards become none, which the pool
    then replaces by one. *)
Lemma shard_count_truncated :
  shard_count (get_config (full_lookups #"h" 1 false 1 1 0 65536)) = 0
  /\ shard_count (get_config (full_lookups #"h" 1 false 1 1 0 65540)) = 4.
Proof. vm_compute. done. Qed.
