(* ===== verification/Server.v ===== *)
(** * The server

    [src/server.cpp]: the constructor, the listener that gives every connection
    a home shard in turn, and the shutdown.  Addresses and the acceptor are a
    library's: whether the host is an address, and whether an operation on
    the acceptor succeeds, are parameters, and the outcome of an accept is the
    argument [ec]. *)

From S2P Require Import Prelude LruShard ShardPool Config.

(** [sessions]: home shard and message limit of the sessions created. *)
Record Server := mkServer {
  shard_pool_ : ShardPool;
  srv_max_message_size : Z;
  next_shard_ : Z;
  sessions : list (nat * Z) }.

Definition newServer (config : Config) : Server :=
  mkServer (newShardPool (Z.to_nat (shard_count config)) (max_memory_bytes_per_shard config)
              (thread_affinity_enabled config))
    (max_message_size config) 0 [].

(** ** The constructor *)

Section Construction.
Context {address : Type}.
(** [make_address]; [None] when it throws. *)
Variable make_address : bytes -> option address.

Record Endpoint := mkEndpoint { ep_address : address; ep_port : Z }.

Inductive AcceptorOp :=
  | Open (ep : Endpoint)
  | ReuseAddress (on : bool)
  | Bind (ep : Endpoint)
  | Listen.

(** Whether an operation succeeds on an acceptor that has done others; it
    throws when it does not. *)
Variable succeeds_after : list AcceptorOp -> AcceptorOp -> bool.

(** Operations one after the other, until one throws. *)
Fixpoint perform (before ops : list AcceptorOp) : list AcceptorOp * bool :=
  match ops with
  | [] => (before, true)
  | op :: ops => if succeeds_after before op then perform (before ++ [op]) ops else (before, false)
  end.

Definition acceptor_ops (ep : Endpoint) : list AcceptorOp := [Open ep; ReuseAddress true; Bind ep; Listen].

(** The operations done, and the server unless an exception leaves the
    constructor. *)
Definition server_constructor (config : Config) : list AcceptorOp * option Server :=
  match make_address (host config) with
  | None => ([], None)
  | Some addr =>
      let '(ops, ok) := perform [] (acceptor_ops (mkEndpoint addr (port config))) in
      (ops, if ok then Some (newServer config) else None)
  end.

Lemma perform_all before ops done :
  perform before ops = (done, true) ->
  done = before ++ ops
  /\ forall l op r, ops = l ++ op :: r -> succeeds_after (before ++ l) op = true.
Proof.
  revert before. induction ops as [|op ops IH]; intros before; cbn [perform].
  { intros [= <-]. split; [by rewrite app_nil_r|]. by intros [|? ?] op r. }
  destruct (succeeds_after before op) eqn:E; [|done]. intros (-> & H)%IH.
  split; [by rewrite <- app_assoc|]. intros [|x l] op' r; intros [= <- ?]; [by rewrite app_nil_r|].
  rewrite cons_middle, app_assoc. by apply (H l op' r).
Qed.

(** There is a server only when its acceptor listens: opened, with the address
    reusable before it was bound, at the configured address and port. *)
Lemma server_constructor_spec config ops srv :
  server_constructor config = (ops, Some srv) ->
  srv = newServer config
  /\ exists addr, make_address (host config) = Some addr
       /\ ops = acceptor_ops (mkEndpoint addr (port config))
       /\ forall l op r, ops = l ++ op :: r -> succeeds_after l op = true.
Proof.
  unfold server_constructor. destruct (make_address (host config)) as [addr|]; [|done].
  destruct (perform [] _) as [ops' []] eqn:E; [|done]. intros [= <- <-].
  apply perform_all in E as [-> H]. split; [done|]. by exists addr.
Qed.

(** No exception: there is a server. *)
Lemma server_constructor_total config addr :
  make_address (host config) = Some addr -> (forall l op, succeeds_after l op = true) ->
  (server_constructor config).2 = Some (newServer config).
Proof. intros Ha Hs. unfold server_constructor. rewrite Ha. cbn. by rewrite !Hs. Qed.
End Construction.

(** [Session::max_message_size_]. *)
Definition session_limit (max_message_size : Z) : Z :=
  if max_message_size =? 0 then 1 else max_message_size.

Lemma session_limit_pos x : 0 <= x -> 0 < session_limit x.
Proof. intros H. unfold session_limit. destruct (Z.eqb_spec x 0); lia. Qed.

(** [executor_for], as the worker it belongs to. *)
Definition executor_for (p : ShardPool) (shard_index : nat) : res nat :=
  _ ← worker_at p shard_index; mret shard_index.

(** One turn of the listener's loop; [ec] is whether the accept failed. *)
Definition listener_turn (ec : bool) (srv : Server) : res Server :=
  let shard_index := Z.to_nat (next_shard_ srv mod Z.of_nat (size (shard_pool_ srv))) in
  let next := u64 (next_shard_ srv + 1) in
  _ ← executor_for (shard_pool_ srv) shard_index;
  if ec then mret (mkServer (shard_pool_ srv) (srv_max_message_size srv) next (sessions srv))
  else
    home ← executor_for (shard_pool_ srv) shard_index;
    mret (mkServer (shard_pool_ srv) (srv_max_message_size srv) next
            (sessions srv ++ [(home, session_limit (srv_max_message_size srv))])).

Fixpoint listener (ecs : list bool) (srv : Server) : res Server :=
  match ecs with
  | [] => mret srv
  | ec :: ecs => srv ← listener_turn ec srv; listener ecs srv
  end.

(** [Server::run] around the listener: the pool is started before and stopped
    after; the signal handler stops it too. *)
Definition with_pool (f : ShardPool -> ShardPool) (srv : Server) : Server :=
  mkServer (f (shard_pool_ srv)) (srv_max_message_size srv) (next_shard_ srv) (sessions srv).
Definition on_signal (srv : Server) : Server := with_pool stop srv.
Definition server_run (ecs : list bool) (signalled : bool) (srv : Server) : res Server :=
  srv ← listener ecs (with_pool start srv);
  mret (with_pool stop (if signalled then on_signal srv else srv)).

(** ** Round robin *)

(** The home shards of the connections accepted in turns [t], [t + 1], ... *)
Fixpoint turn_homes (t n : Z) (ecs : list bool) : list nat :=
  match ecs with
  | [] => []
  | ec :: ecs => (if ec : bool then [] else [Z.to_nat (t mod n)]) ++ turn_homes (t + 1) n ecs
  end.

Lemma listener_spec ecs srv :
  (0 < size (shard_pool_ srv))%nat -> 0 <= next_shard_ srv ->
  next_shard_ srv + zlen ecs < two64 ->
  exists srv', listener ecs srv = Ok srv' /\ shard_pool_ srv' = shard_pool_ srv
    /\ sessions srv' = sessions srv
         ++ ((fun h => (h, session_limit (srv_max_message_size srv)))
             <$> turn_homes (next_shard_ srv) (Z.of_nat (size (shard_pool_ srv))) ecs).
Proof.
  revert srv. induction ecs as [|ec ecs IH]; intros srv Hn H0 Hb.
  - exists srv. cbn. by rewrite app_nil_r.
  - rewrite zlen_cons in Hb. pose proof (zlen_nonneg ecs). cbn [listener].
    set (n := Z.of_nat (size (shard_pool_ srv))) in *.
    pose proof (Z.mod_pos_bound (next_shard_ srv) n) as Hm.
    destruct (worker_exists (shard_pool_ srv) (Z.to_nat (next_shard_ srv mod n))) as [w Hw]; [lia|].
    assert (Hex : executor_for (shard_pool_ srv) (Z.to_nat (next_shard_ srv mod n))
      = Ok (Z.to_nat (next_shard_ srv mod n))) by (unfold executor_for, worker_at; by rewrite Hw).
    unfold listener_turn. fold n. rewrite Hex. cbn [mbind res_bind].
    rewrite u64_small by lia. destruct ec; cbn [mbind res_bind mret res_ret].
    + edestruct IH as (srv' & H1 & H2 & H3); cycle 3; [exists srv'; split; [exact H1|done]|..]; cbn; lia.
    + edestruct IH as (srv' & H1 & H2 & H3); cycle 3;
        [exists srv'; split; [exact H1|]; split; [done|]; rewrite H3; cbn; by rewrite <- app_assoc|..];
        cbn; lia.
Qed.

Lemma turn_homes_range t n ecs : 0 < n -> Forall (fun h => (h < Z.to_nat n)%nat) (turn_homes t n ecs).
Proof.
  intros Hn. revert t. induction ecs as [|ec ecs IH]; intros t; cbn; [constructor|].
  apply Forall_app. split; [|apply IH]. destruct ec; repeat constructor.
  pose proof (Z.mod_pos_bound t n Hn). lia.
Qed.

(** C39. The listener assigns home shards in turn: the connection accepted in turn
    [t] gets shard [t] modulo the number of shards, failed accepts using up
    their turn; every home shard is a shard of the pool, no [assert] fails,
    and the message limit of a session is positive. *)
Theorem listener_round_robin l ecs :
  zlen ecs < two64 ->
  let srv := newServer (get_config l) in
  exists srv', listener ecs srv = Ok srv' /\ shard_pool_ srv' = shard_pool_ srv
    /\ fst <$> sessions srv' = turn_homes 0 (Z.of_nat (size (shard_pool_ srv))) ecs
    /\ Forall (fun s => (fst s < size (shard_pool_ srv))%nat /\ 0 < snd s) (sessions srv').
Proof.
  intros Hz srv. assert (Hn : (0 < size (shard_pool_ srv))%nat).
  { unfold srv, newServer. cbn [shard_pool_]. rewrite newShardPool_size. lia. }
  destruct (listener_spec ecs srv Hn) as (srv' & H & Hp & Hs); [done|cbn; lia|].
  exists srv'. split; [done|]. split; [done|]. rewrite Hs. cbn [sessions newServer srv app next_shard_].
  split; [by rewrite <- list_fmap_compose, list_fmap_id|].
  apply Forall_fmap. eapply Forall_impl; [apply turn_homes_range; lia|].
  intros h Hh. cbn [compose fst snd]. split; [cbn in *; lia|].
  pose proof (clamp_range (value_or (lk_max_message_size l) 1024)) as Hc. apply session_limit_pos. cbn in Hc |- *. lia.
Qed.

Lemma listener_round_robin_witness :
  let srv := newServer (get_config (full_lookups #"0.0.0.0" 8080 false 1024 4096 0 3)) in
  exists srv', listener [false; false; true; false; false] srv = Ok srv'
    /\ shard_pool_ srv' = shard_pool_ srv
    /\ fst <$> sessions srv' = [0; 1; 0; 1]%nat
    /\ Forall (fun s => (fst s < 3)%nat /\ 0 < snd s) (sessions srv').
Proof. apply listener_round_robin. vm_compute. reflexivity. Defined.

(** Whatever was accepted, and whether the end came from a signal or not, the
    pool is stopped and its threads are joined when [Server::run] returns. *)
Lemma server_run_stops ecs signalled l srv' :
  server_run ecs signalled (newServer (get_config l)) = Ok srv' -> zlen ecs < two64 ->
  stopped_ (shard_pool_ srv') = true.
Proof.
  intros H Hz. unfold server_run in H.
  set (srv := with_pool start (newServer (get_config l))) in *.
  destruct (listener_spec ecs srv) as (srv1 & H1 & Hp & _); [|done|cbn; lia|].
  { cbn. unfold start. cbn. unfold size. cbn. rewrite length_fmap, length_replicate. lia. }
  rewrite H1 in H. injection H as <-. destruct signalled; cbn; unfold stop; by repeat case_match.
Qed.
