(* ===== verification/Session.v ===== *)
(** * Sessions

    [src/session.cpp]: the loop that parses the buffer, executes commands and
    writes replies, and the bounded read.  What executes a command is the
    interface [Service]; [PoolService] shows that the executor provides it.  The
    socket is the list of what successive reads will find; a write that fails
    is only logged by the code, so the model records the messages handed to
    the socket. *)

From S2P Require Import Prelude RespValue RespParser RespReader RespGrammar RespParserSpec.
From S2P Require Import RespSerializer Command.

(** ** The interface of the executor *)

(** [servable] is what the environment owes a command, and [overflowing] says of
    a command that it may compute a deadline that overflows: nothing else
    makes the service fault. *)
Class Service (E : Type) := {
  serve : Command -> E -> res (RespValue * E);
  service_ok : E -> Prop;
  servable : Command -> Prop;
  overflowing : Command -> Prop;
  serve_ok : forall cmd e, service_ok e -> valid_command cmd = true -> servable cmd ->
    match serve cmd e with
    | Ok (r, e') => wf_value r = true /\ service_ok e'
    | Fault f => f = SignedOverflow /\ overflowing cmd
    end }.

(** The bytes of the arguments of a command. *)
Definition command_size (cmd : Command) : Z := foldr (fun a n => zlen a + n) 0 (args cmd).

(** The service serves the commands that a message of [m] bytes can hold. *)
Definition serves_up_to {E} `{!Service E} (m : Z) : Prop :=
  forall cmd, command_size cmd <= m -> servable cmd.

(** ** Data *)

Inductive ReadResult := kNewMessage | kCloseConnection | kReadError | kMessageTooLarge.

(** What a read of the socket finds: bytes, the end of the stream, an error. *)
Inductive Arrival := Data (d : bytes) | Eof | Broken.

Record Session := mkSession { buffer_ : bytes; max_message_size_ : Z }.

Definition newSession (max_message_size : Z) : Session :=
  mkSession [] (if max_message_size =? 0 then 1 else max_message_size).

Definition malformed_request : RespValue := RespString kError #"ERR malformed request".
Definition invalid_command : RespValue := RespString kError #"ERR invalid command".
Definition request_too_large : RespValue := RespString kError #"ERR request is too large".

(** How a run of the session stands: suspended in a read, or over. *)
Inductive Ending := Waiting | Malformed | Ended (r : ReadResult).

(** ** Reading *)

(** [read]; [None] is a read that is still pending. *)
Definition read (arrivals : list Arrival) (s : Session)
    : option (ReadResult * list Arrival * Session) :=
  if max_message_size_ s <=? zlen (buffer_ s) then Some (kMessageTooLarge, arrivals, s)
  else
    let available_capacity := Z.to_nat (max_message_size_ s - zlen (buffer_ s)) in
    match arrivals with
    | [] => None
    | Eof :: arrivals => Some (kCloseConnection, arrivals, s)
    | Broken :: arrivals => Some (kReadError, arrivals, s)
    | Data d :: arrivals =>
        let rest := drop available_capacity d in
        Some (kNewMessage, (if decide (rest = []) then arrivals else Data rest :: arrivals),
              mkSession (buffer_ s ++ take available_capacity d) (max_message_size_ s))
    end.

Section Session.
Context {E : Type} `{!Service E}.

(** Lines 44-53: the message written for a parsed value. *)
Definition respond (value : RespValue) (e : E) : res (bytes * E) :=
  command ← toCommand value;
  match command with
  | None => message ← serialize invalid_command; mret (message, e)
  | Some command =>
      '(response, e) ← serve command e;
      message ← serialize response;
      mret (message, e)
  end.

(** The inner loop, lines 29-54: [close_session], the buffer that is left, and
    the messages written. *)
Fixpoint drain_fuel (fuel : nat) (buffer : bytes) (e : E) : res (bool * bytes * E * list bytes) :=
  match fuel with
  | O => Fault OutOfFuel
  | S fuel =>
      if decide (buffer = []) then mret (false, buffer, e, []) else
      '(parsing_result, buffer, value) ← parse buffer defaultRespValue;
      match parsing_result with
      | kNeedMoreData => mret (false, buffer, e, [])
      | kReady =>
          '(message, e) ← respond value e;
          '(close_session, buffer, e, messages) ← drain_fuel fuel buffer e;
          mret (close_session, buffer, e, message :: messages)
      | _ =>
          message ← serialize malformed_request;
          mret (true, buffer, e, [message])
      end
  end.

(** Every turn but the last consumes a byte. *)
Definition drain (buffer : bytes) (e : E) := drain_fuel (S (length buffer)) buffer e.

(** The outer loop. *)
Fixpoint session_loop (fuel : nat) (arrivals : list Arrival) (s : Session) (e : E)
    : res (Ending * Session * E * list bytes) :=
  match fuel with
  | O => Fault OutOfFuel
  | S fuel =>
      '(close_session, buffer, e, messages) ← drain (buffer_ s) e;
      let s := mkSession buffer (max_message_size_ s) in
      if close_session : bool then mret (Malformed, s, e, messages)
      else
        match read arrivals s with
        | None => mret (Waiting, s, e, messages)
        | Some (kNewMessage, arrivals, s) =>
            '(ending, s, e, messages') ← session_loop fuel arrivals s e;
            mret (ending, s, e, messages ++ messages')
        | Some (kMessageTooLarge, arrivals, s) =>
            message ← serialize request_too_large;
            mret (Ended kMessageTooLarge, s, e, messages ++ [message])
        | Some (result, arrivals, s) => mret (Ended result, s, e, messages)
        end
  end.

Fixpoint arrival_bytes (arrivals : list Arrival) : nat :=
  match arrivals with
  | Data d :: arrivals => length d + arrival_bytes arrivals
  | _ :: arrivals => arrival_bytes arrivals
  | [] => 0
  end.

(** Every read takes an arrival or at least one byte of it. *)
Definition run (arrivals : list Arrival) (s : Session) (e : E) :=
  session_loop (S (arrival_bytes arrivals + length arrivals)) arrivals s e.
End Session.
