(* ===== verification/PoolService.v ===== *)
(** * The executor provides the service of a session

    The instance of [Service] that a session uses: [execute] on the pool, in
    the thread [self], with the clock readings [clk n] for the [n]-th command. *)

From S2P Require Import Prelude RespValue Command StdText LruShard LruSpec LruInv LruRefine.
From S2P Require Import LruTheorems ShardPool CommandExecutor ExecutorSpec PoolSpec ExecutorRefine.
From S2P Require Import Session.

(** ** Budgets do not change *)

Lemma c_ttl_budget now now' k c : budget (c_ttl now now' k c).2 = budget c.
Proof. unfold c_ttl. by repeat case_match. Qed.

Lemma spec_set_budget now k v options c : budget (spec_set now k v options c).2 = budget c.
Proof.
  assert (Hif : forall w, budget (spec_put_if w now k v c).2 = budget c).
  { intros w. unfold spec_put_if. pose proof (c_get_budget now k c) as H.
    destruct (c_get now k c) as [r c']. by destruct (Bool.eqb _ _). }
  unfold spec_set. repeat case_match; try apply Hif; done.
Qed.

Lemma spec_command_budget cmd clock c : budget (spec_command cmd clock c).2 = budget c.
Proof.
  destruct cmd as [t l]. unfold spec_command. cbn [ctype args].
  destruct t; try (by destruct l).
  - destruct l as [|k l]; [done|]. unfold spec_get. pose proof (c_get_budget (fst clock) k c).
    by destruct (c_get _ _ _).
  - destruct l as [|k [|v l]]; [done..|]. apply spec_set_budget.
  - destruct l as [|k [|n l]]; [done..|]. unfold spec_expire. by destruct (stoull n).
  - destruct l as [|k l]; [done|]. unfold spec_ttl. pose proof (c_ttl_budget (fst clock) (snd clock) k c).
    by destruct (c_ttl _ _ _ _).
Qed.

Lemma budget_insert (caches : list Cache) i c c' :
  caches !! i = Some c -> budget c' = budget c -> budget <$> <[i := c']> caches = budget <$> caches.
Proof. intros Hc Hb. rewrite list_fmap_insert, Hb. apply list_insert_id. by rewrite list_lookup_fmap, Hc. Qed.

Lemma spec_execute_budget hash cmd clock caches r caches' :
  spec_execute hash cmd clock caches = Ok (r, caches') -> budget <$> caches' = budget <$> caches.
Proof.
  assert (Hkey : (k ← arg cmd 0; i ← getShardIndex hash k (length caches);
     c ← of_option AssertFailure (caches !! i);
     '(r, c) ← meaning cmd clock c; mret (r, <[i := c]> caches)) = Ok (r, caches') ->
    budget <$> caches' = budget <$> caches).
  { intros H. apply bind_Ok in H as (k & _ & H). apply bind_Ok in H as (i & _ & H).
    apply bind_Ok in H as (c & Hc%of_option_Ok & H). unfold meaning in H.
    destruct (overflows cmd clock c); [done|]. pose proof (spec_command_budget cmd clock c) as Hf.
    destruct (spec_command cmd clock c) as [r' c']. injection H as _ <-. by apply (budget_insert _ _ c). }
  unfold spec_execute. destruct (ctype cmd); intros H.
  all: try by (injection H as _ <-).
  all: try by apply Hkey.
  - apply bind_Ok in H as (? & _ & H). by injection H as _ <-.
  - injection H as _ <-. rewrite <- list_fmap_compose. by apply list_fmap_ext.
  - apply bind_Ok in H as (? & _ & H). by injection H as _ <-.
Qed.

Lemma same_budgets p p' m :
  budget <$> abs_pool p' = budget <$> abs_pool p ->
  (forall s, s ∈ shards p -> max_memory_bytes_ s = m) ->
  forall s, s ∈ shards p' -> max_memory_bytes_ s = m.
Proof.
  intros Hb Hm s' [i Hi]%list_elem_of_lookup_1. apply (f_equal (fun l => l !! i)) in Hb.
  rewrite !list_lookup_fmap, (abs_pool_lookup _ _ _ Hi) in Hb. unfold abs_pool in Hb.
  rewrite list_lookup_fmap in Hb. destruct (shards p !! i) as [s|] eqn:Hs; cbn in Hb; [|done].
  injection Hb as ->. apply Hm. by apply list_elem_of_lookup_2 with i.
Qed.

(** A command that a message within the limit holds fits beside the budget. *)
Lemma payload_fits_size m limit cmd :
  command_size cmd <= limit -> m + limit < two64 -> payload_fits m cmd.
Proof.
  unfold payload_fits, command_size. intros Hz Hm. destruct (ctype cmd), (args cmd) as [|k [|v l]]; try done.
  cbn [foldr] in Hz. assert (0 <= foldr (fun a n => zlen a + n) 0 l); [|lia].
  clear. induction l as [|a l IH]; cbn; [lia|]. pose proof (zlen_nonneg a). lia.
Qed.

(** ** The service *)

Section PoolService.
Variables (XXH3_64bits : bytes -> N) (self : Tid) (home : option nat) (clk : nat -> nat -> Clock) (m : Z).

Definition pool_serve (cmd : Command) (e : nat * ShardPool) : res (RespValue * (nat * ShardPool)) :=
  '(r, p) ← ShardPool.run self (clk (fst e)) (execute XXH3_64bits self (snd e) cmd home) (snd e);
  mret (r, (S (fst e), p)).

Definition pool_ready (e : nat * ShardPool) : Prop :=
  pool_ok XXH3_64bits (snd e) /\ home_ok (snd e) home
  /\ forall s, s ∈ shards (snd e) -> max_memory_bytes_ s = m.

Lemma pool_serve_ok cmd e :
  pool_ready e -> valid_command cmd = true ->
  (forall n, command_defined m cmd (clk n 0%nat)) ->
  match pool_serve cmd e with
  | Ok (r, e') => wf_value r = true /\ pool_ready e'
  | Fault f => f = SignedOverflow /\ exists n, counts_fit cmd (clk n 0%nat) = false
  end.
Proof.
  destruct e as [n p]. intros (Hok & Hh & Hm) Hv Hd. cbn [fst snd] in *.
  pose proof (execute_spec XXH3_64bits self (clk n) cmd home p Hok Hv Hh) as H.
  unfold runs_as, pool_serve, ShardPool.run in *. cbn [fst snd].
  destruct (spec_execute XXH3_64bits cmd (clk n 0%nat) (abs_pool p)) as [[r caches]|f] eqn:Hs.
  - destruct H as (n' & p' & -> & <- & Hok' & [Hsz _] & Hwf).
    { intros s Hin. rewrite (Hm s Hin). apply Hd. }
    split; [done|]. split; [done|]. split; [intros h Hh'; cbn; rewrite Hsz; by apply Hh|].
    apply (same_budgets p p' m); [|done]. by eapply spec_execute_budget.
  - destruct H as (Hf & Hc & ->); [intros s Hin; rewrite (Hm s Hin); apply Hd|]. split; [done|by exists n].
Qed.

Definition pool_service : Service (nat * ShardPool) :=
  {| serve := pool_serve; service_ok := pool_ready;
     servable := fun cmd => forall n, command_defined m cmd (clk n 0%nat);
     overflowing := fun cmd => exists n, counts_fit cmd (clk n 0%nat) = false;
     serve_ok := pool_serve_ok |}.

(** It serves whatever fits beside the budget, the readings of the clock being
    in order. *)
Lemma pool_serves_up_to limit :
  m + limit < two64 ->
  (forall n, 0 <= fst (clk n 0%nat) <= snd (clk n 0%nat) /\ snd (clk n 0%nat) <= i64_max) ->
  @serves_up_to _ pool_service limit.
Proof.
  intros Hm Hclk cmd Hz n. split; [by eapply payload_fits_size|by intros _].
Qed.
End PoolService.
