(* ===== verification/SessionTheorems.v ===== *)
(** * What a session guarantees

    The run of a session is a function of the byte stream, whatever the sizes
    of the reads: [stream_run] says which one.  On a stream of valid requests
    that fit the limit it answers each of them, in order. *)

From S2P Require Import Prelude RespValue RespParser RespReader RespGrammar RespParserSpec.
From S2P Require Import RespSerializer Command LruShard LruSpec LruInv ShardPool CommandExecutor ExecutorSpec.
From S2P Require Import PoolSpec ExecutorRefine ExecutorTheorems Session PoolService.

(** ** The parser, as the session sees it *)

Lemma parse_read b out :
  parse b out = Ok (match RespGrammar.read [] b with
                    | RMore => (kNeedMoreData, b, out)
                    | RError => (kParseError, b, out)
                    | RValue v r => (kReady, r, v)
                    end).
Proof.
  unfold parse. rewrite parseImpl_spec. destruct (RespGrammar.read [] b) as [| |v r] eqn:E; [done..|].
  cbn. apply read_iff in E as (e & -> & He). by rewrite length_app, Nat.add_sub, drop_app_length.
Qed.

Lemma read_value_shorter b v r : RespGrammar.read [] b = RValue v r -> (length r < length b)%nat.
Proof.
  intros (e & -> & He)%read_iff. apply encodes_nonempty in He. rewrite length_app.
  destruct e; [done|cbn; lia].
Qed.

(** Bytes that arrive later do not change a verdict. *)
Lemma read_value_app b t :
  RespGrammar.read [] b <> RMore ->
  RespGrammar.read [] (b ++ t) = outcome_app (RespGrammar.read [] b) t.
Proof. apply read_app. Qed.

Section Session.
Context {E : Type} `{!Service E}.
Implicit Types (b : bytes) (e : E).

(** ** The inner loop *)

Definition drain_step (k : bytes -> E -> res (bool * bytes * E * list bytes)) b e
    : res (bool * bytes * E * list bytes) :=
  match RespGrammar.read [] b with
  | RMore => mret (false, b, e, [])
  | RError => message ← serialize malformed_request; mret (true, b, e, [message])
  | RValue v r =>
      '(message, e) ← respond v e;
      '(close_session, b, e, messages) ← k r e;
      mret (close_session, b, e, message :: messages)
  end.

Lemma drain_fuel_step fuel b e : drain_fuel (S fuel) b e = drain_step (drain_fuel fuel) b e.
Proof.
  unfold drain_step. cbn [drain_fuel]. destruct (decide (b = [])) as [->|Hb]; [done|].
  rewrite parse_read. cbn [mbind res_bind]. by destruct (RespGrammar.read [] b).
Qed.

Lemma drain_fuel_irrel n m b e :
  (length b < n)%nat -> (length b < m)%nat -> drain_fuel n b e = drain_fuel m b e.
Proof.
  revert m b e. induction n as [|n IH]; intros [|m] b e Hn Hm; try lia.
  rewrite !drain_fuel_step. unfold drain_step.
  destruct (RespGrammar.read [] b) as [| |v r] eqn:Er; [done..|].
  apply read_value_shorter in Er. destruct (respond v e) as [[text e1]|]; [|done].
  cbn [mbind res_bind]. by rewrite (IH m) by lia.
Qed.

(** The inner loop, one message at a time. *)
Lemma drain_eq b e : drain b e = drain_step drain b e.
Proof.
  unfold drain at 1. rewrite drain_fuel_step. unfold drain_step.
  destruct (RespGrammar.read [] b) as [| |v r] eqn:Er; [done..|].
  apply read_value_shorter in Er. destruct (respond v e) as [[text e1]|]; [|done].
  cbn [mbind res_bind]. unfold drain. by rewrite (drain_fuel_irrel _ (S (length r))) by lia.
Qed.

(** ** The outer loop, one message at a time *)

Lemma loop_value fuel arrivals m b e v r message e1 :
  RespGrammar.read [] b = RValue v r -> respond v e = Ok (message, e1) ->
  session_loop fuel arrivals (mkSession b m) e
  = '(ending, s, e, messages) ← session_loop fuel arrivals (mkSession r m) e1;
    mret (ending, s, e, message :: messages).
Proof.
  intros Hr Hv. destruct fuel as [|fuel]; [done|]. cbn [session_loop buffer_ max_message_size_].
  rewrite (drain_eq b). unfold drain_step. rewrite Hr, Hv. cbn [mbind res_bind].
  destruct (drain r e1) as [[[[c b'] e'] ws]|]; [|done]. cbn [mbind res_bind mret res_ret].
  destruct c; [done|]. destruct (read arrivals (mkSession b' m)) as [[[[] arr] s]|]; try done.
  destruct (session_loop fuel arr s e') as [[[[fin s'] e''] ws']|]; done.
Qed.

Lemma loop_more fuel arrivals m b e :
  RespGrammar.read [] b = RMore ->
  session_loop (S fuel) arrivals (mkSession b m) e
  = match read arrivals (mkSession b m) with
    | None => mret (Waiting, mkSession b m, e, [])
    | Some (kNewMessage, arrivals, s) => session_loop fuel arrivals s e
    | Some (kMessageTooLarge, arrivals, s) =>
        message ← serialize request_too_large; mret (Ended kMessageTooLarge, s, e, [message])
    | Some (result, arrivals, s) => mret (Ended result, s, e, [])
    end.
Proof.
  intros Hr. cbn [session_loop buffer_ max_message_size_]. rewrite (drain_eq b). unfold drain_step.
  rewrite Hr. cbn [mbind res_bind mret res_ret].
  destruct (read arrivals (mkSession b m)) as [[[[] arr] s]|]; try done.
  destruct (session_loop fuel arr s e) as [[[[fin s'] e''] ws']|]; done.
Qed.

Lemma loop_error fuel arrivals m b e :
  RespGrammar.read [] b = RError ->
  session_loop (S fuel) arrivals (mkSession b m) e
  = message ← serialize malformed_request; mret (Malformed, mkSession b m, e, [message]).
Proof.
  intros Hr. cbn [session_loop buffer_ max_message_size_]. rewrite (drain_eq b). unfold drain_step.
  rewrite Hr. by destruct (serialize malformed_request).
Qed.
(** ** The meaning of a byte stream *)

(** What a session with limit [m] does with the bytes [D]: messages are taken
    from the window of the first [m] bytes; [Waiting] is for more bytes. *)
Inductive stream_run (m : Z) : bytes -> E -> Ending -> E -> list bytes -> Prop :=
  | sr_wait D e :
      zlen D < m -> RespGrammar.read [] D = RMore -> stream_run m D e Waiting e []
  | sr_large D e w :
      m <= zlen D -> RespGrammar.read [] (take (Z.to_nat m) D) = RMore ->
      serialize request_too_large = Ok w ->
      stream_run m D e (Ended kMessageTooLarge) e [w]
  | sr_error D e w :
      RespGrammar.read [] (take (Z.to_nat m) D) = RError ->
      serialize malformed_request = Ok w -> stream_run m D e Malformed e [w]
  | sr_value D e v r w e1 fin e2 ws :
      RespGrammar.read [] (take (Z.to_nat m) D) = RValue v r -> respond v e = Ok (w, e1) ->
      stream_run m (r ++ drop (Z.to_nat m) D) e1 fin e2 ws ->
      stream_run m D e fin e2 (w :: ws).

(** The bytes [D] bring the session to a request whose service faults. *)
Inductive stream_fault (m : Z) : bytes -> E -> fault -> Prop :=
  | sf_here D e v r f :
      RespGrammar.read [] (take (Z.to_nat m) D) = RValue v r -> respond v e = Fault f ->
      stream_fault m D e f
  | sf_later D e v r w e1 f :
      RespGrammar.read [] (take (Z.to_nat m) D) = RValue v r -> respond v e = Ok (w, e1) ->
      stream_fault m (r ++ drop (Z.to_nat m) D) e1 f -> stream_fault m D e f.

(** The window of a stream that starts with the buffer. *)
Lemma window_app m b R :
  zlen b <= m ->
  take (Z.to_nat m) (b ++ R) = b ++ take (Z.to_nat m - length b) R
  /\ drop (Z.to_nat m) (b ++ R) = drop (Z.to_nat m - length b) R.
Proof.
  intros H. unfold zlen in H. rewrite take_app, drop_app.
  rewrite take_ge, drop_ge by lia. done.
Qed.

Lemma stream_value m b R e fin e' ws v r :
  stream_run m (b ++ R) e fin e' ws -> zlen b <= m -> RespGrammar.read [] b = RValue v r ->
  exists w e1 ws', respond v e = Ok (w, e1) /\ ws = w :: ws' /\ stream_run m (r ++ R) e1 fin e' ws'.
Proof.
  intros H Hb Hr. destruct (window_app m b R Hb) as [Ht Hd].
  assert (Hstable : forall t, RespGrammar.read [] (b ++ t) = RValue v (r ++ t)).
  { intros t. rewrite read_value_app by (by rewrite Hr). by rewrite Hr. }
  inversion H as [? ? ? Hm|? ? ? ? Hm|? ? ? Hm|? ? v' r' w e1 ? ? ws' Hm Hv Hrun]; subst;
    rewrite ?Ht, Hstable in Hm; simplify_eq.
  exists w, e1, ws'. split; [done|]. split; [done|].
  by rewrite Hd, <- app_assoc, take_drop in Hrun.
Qed.

Lemma stream_error m b R e fin e' ws :
  stream_run m (b ++ R) e fin e' ws -> zlen b <= m -> RespGrammar.read [] b = RError ->
  exists w, serialize malformed_request = Ok w /\ fin = Malformed /\ e' = e /\ ws = [w].
Proof.
  intros H Hb Hr. destruct (window_app m b R Hb) as [Ht Hd].
  assert (Hstable : forall t, RespGrammar.read [] (b ++ t) = RError).
  { intros t. rewrite read_value_app by (by rewrite Hr). by rewrite Hr. }
  inversion H as [? ? ? Hm|? ? ? ? Hm|? ? w Hm|? ? v' r' w e1 ? ? ws' Hm Hv Hrun]; subst;
    rewrite ?Ht, Hstable in Hm; simplify_eq. eauto.
Qed.

(** The buffer is full and holds no message. *)
Lemma stream_full m b R e fin e' ws :
  stream_run m (b ++ R) e fin e' ws -> zlen b = m -> RespGrammar.read [] b = RMore ->
  exists w, serialize request_too_large = Ok w /\ fin = Ended kMessageTooLarge /\ e' = e /\ ws = [w].
Proof.
  intros H Hb Hr. destruct (window_app m b R) as [Ht Hd]; [lia|].
  replace (Z.to_nat m - length b)%nat with 0%nat in Ht by (unfold zlen in Hb; lia).
  rewrite take_0, app_nil_r in Ht.
  inversion H as [? ? Hz Hm|? ? w Hz Hm|? ? w Hm|? ? v' r' w e1 ? ? ws' Hm Hv Hrun]; subst.
  - rewrite zlen_app in Hz. pose proof (zlen_nonneg R). lia.
  - eauto.
  - rewrite Ht, Hr in Hm. done.
  - rewrite Ht, Hr in Hm. done.
Qed.

(** Everything is in the buffer and there is no message. *)
Lemma stream_dry m b e fin e' ws :
  stream_run m b e fin e' ws -> zlen b < m -> RespGrammar.read [] b = RMore ->
  fin = Waiting /\ e' = e /\ ws = [].
Proof.
  intros H Hb Hr. assert (Ht : take (Z.to_nat m) b = b) by (apply take_ge; unfold zlen in Hb; lia).
  inversion H as [? ? Hz Hm|? ? w Hz Hm|? ? w Hm|? ? v' r' w e1 ? ? ws' Hm Hv Hrun]; subst;
    rewrite ?Ht in Hm; try congruence; [done|lia].
Qed.

(** A fault is that of the message in the buffer, or comes after it. *)
Lemma stream_fault_buffer m b R e f :
  stream_fault m (b ++ R) e f -> zlen b <= m ->
  match RespGrammar.read [] b with
  | RMore => zlen b < m /\ R <> []
  | RError => False
  | RValue v r => respond v e = Fault f
      \/ exists w e1, respond v e = Ok (w, e1) /\ stream_fault m (r ++ R) e1 f
  end.
Proof.
  intros H Hb. destruct (window_app m b R Hb) as [Ht Hd].
  assert (Hstable : RespGrammar.read [] b <> RMore ->
    forall t, RespGrammar.read [] (b ++ t) = outcome_app (RespGrammar.read [] b) t) by (intros; by apply read_value_app).
  assert (Hw : exists v r, RespGrammar.read [] (b ++ take (Z.to_nat m - length b) R) = RValue v r
    /\ (respond v e = Fault f \/ exists w e1, respond v e = Ok (w, e1)
         /\ stream_fault m (r ++ drop (Z.to_nat m - length b) R) e1 f)).
  { rewrite <- Ht, <- Hd. inversion H; subst; eexists _, _; (split; [done|]); [by left|right; eauto]. }
  destruct Hw as (v & r & Hr & Hf). destruct (RespGrammar.read [] b) as [| |v' r'] eqn:Eb.
  - assert (Hne : take (Z.to_nat m - length b) R <> []) by (intros E0; rewrite E0, app_nil_r in Hr; congruence).
    split; [|by destruct R; [rewrite take_nil in Hne|]].
    destruct (Z.to_nat m - length b)%nat eqn:En; [by rewrite take_0 in Hne|]. unfold zlen. lia.
  - rewrite Hstable in Hr by done. done.
  - rewrite Hstable in Hr by done. injection Hr as -> <-. destruct Hf as [Hf|(w & e1 & Hf & Hrun)]; [by left|].
    right. exists w, e1. split; [done|]. by rewrite <- app_assoc, take_drop in Hrun.
Qed.

(** What comes after the bytes: nothing yet, or the end of the stream. *)
Definition no_data (tail : list Arrival) : Prop :=
  match tail with Data _ :: _ => False | _ => True end.

Definition finish (tail : list Arrival) (fin : Ending) : Ending :=
  match fin, tail with
  | Waiting, Eof :: _ => Ended kCloseConnection
  | Waiting, Broken :: _ => Ended kReadError
  | _, _ => fin
  end.

(** What a session does, written for the induction. *)
Definition follows m tail fuel cs b e fin e' ws : Prop :=
  exists s', session_loop fuel ((Data <$> cs) ++ tail) (mkSession b m) e
      = Ok (finish tail fin, s', e', ws) /\ zlen (buffer_ s') <= m.

Definition read_cost (cs : list bytes) : nat := (arrival_bytes (Data <$> cs) + length cs)%nat.

(** One read: what it leaves of the chunks. *)
Lemma read_chunk m tail b c cs :
  zlen b < m ->
  exists b' cs', read ((Data <$> c :: cs) ++ tail) (mkSession b m)
      = Some (kNewMessage, (Data <$> cs') ++ tail, mkSession b' m)
    /\ b' ++ concat cs' = b ++ concat (c :: cs) /\ zlen b' <= m
    /\ (read_cost cs' < read_cost (c :: cs))%nat.
Proof.
  intros Hb. set (cap := Z.to_nat (m - zlen b)).
  assert (Hcap : (0 < cap)%nat) by (unfold cap; lia).
  exists (b ++ take cap c), (if decide (drop cap c = []) then cs else drop cap c :: cs).
  unfold read. cbn [buffer_ max_message_size_ fmap list_fmap app]. zcmp. fold cap.
  split; [by case_decide|]. split.
  { rewrite <- app_assoc. f_equal. transitivity ((take cap c ++ drop cap c) ++ concat cs); [|by rewrite take_drop].
    rewrite <- app_assoc. f_equal. case_decide as Hd; [by rewrite Hd|done]. }
  split.
  { rewrite zlen_app. unfold zlen in *. rewrite length_take. lia. }
  unfold read_cost. cbn. case_decide as Hd; [lia|]. cbn. rewrite length_drop.
  assert (length (drop cap c) <> 0%nat) by (by destruct (drop cap c)). rewrite length_drop in *. lia.
Qed.

(** No bytes left to read. *)
Lemma follows_dry m tail fuel b e :
  no_data tail -> zlen b < m -> RespGrammar.read [] b = RMore ->
  follows m tail (S fuel) [] b e Waiting e [].
Proof.
  intros Ht Hb Hr. exists (mkSession b m). rewrite loop_more by done. unfold read.
  cbn [buffer_ max_message_size_ fmap list_fmap app]. zcmp.
  destruct tail as [|[]]; [|done| |]; (split; [done|cbn; lia]).
Qed.

Lemma session_loop_stream m tail fuel : no_data tail ->
  forall cs b e fin e' ws,
  (read_cost cs < fuel)%nat -> zlen b <= m ->
  stream_run m (b ++ concat cs) e fin e' ws -> follows m tail fuel cs b e fin e' ws.
Proof.
  intros Ht. induction fuel as [|fuel IHf]; intros cs b; [lia|].
  remember (length b) as n eqn:Hn. revert b Hn.
  induction n as [n IHn] using lt_wf_ind. intros b -> e fin e' ws Hf Hb Hrun.
  destruct (RespGrammar.read [] b) as [| |v r] eqn:Hr.
  - destruct (Z.lt_ge_cases (zlen b) m) as [Hlt|Hge].
    + destruct cs as [|c cs].
      * rewrite app_nil_r in Hrun. destruct (stream_dry _ _ _ _ _ _ Hrun Hlt Hr) as (-> & -> & ->).
        by apply follows_dry.
      * destruct (read_chunk m tail b c cs Hlt) as (b' & cs' & Hread & Hc & Hb' & Hcost).
        rewrite <- Hc in Hrun. unfold follows. rewrite loop_more, Hread by done.
        apply IHf; [lia|done|done].
    + destruct (stream_full m b _ e fin e' ws Hrun) as (w & Hw & -> & -> & ->); [lia|done|].
      exists (mkSession b m). rewrite loop_more by done. unfold read.
      cbn [buffer_ max_message_size_]. zcmp. rewrite Hw. done.
  - destruct (stream_error m b _ e fin e' ws Hrun Hb Hr) as (w & Hw & -> & -> & ->).
    exists (mkSession b m). rewrite loop_error by done. by rewrite Hw.
  - destruct (stream_value m b _ e fin e' ws v r Hrun Hb Hr) as (w & e1 & ws' & Hv & -> & Hrun').
    pose proof (read_value_shorter _ _ _ Hr) as Hlen.
    destruct (IHn (length r) Hlen r eq_refl e1 fin e' ws' Hf) as (s' & Hs & Hm); [unfold zlen in *; lia|done|].
    exists s'. rewrite (loop_value _ _ m b e v r w e1 Hr Hv), Hs. done.
Qed.

Lemma loop_fault fuel arrivals m b e v r f :
  RespGrammar.read [] b = RValue v r -> respond v e = Fault f ->
  session_loop (S fuel) arrivals (mkSession b m) e = Fault f.
Proof. intros Hr Hv. cbn [session_loop buffer_]. rewrite drain_eq. unfold drain_step. by rewrite Hr, Hv. Qed.

Lemma session_loop_fault m tail fuel :
  forall cs b e f,
  (read_cost cs < fuel)%nat -> zlen b <= m -> stream_fault m (b ++ concat cs) e f ->
  session_loop fuel ((Data <$> cs) ++ tail) (mkSession b m) e = Fault f.
Proof.
  induction fuel as [|fuel IHf]; intros cs b; [lia|].
  remember (length b) as n eqn:Hn. revert b Hn.
  induction n as [n IHn] using lt_wf_ind. intros b -> e f Hf Hb Hrun.
  pose proof (stream_fault_buffer m b _ e f Hrun Hb) as Hc.
  destruct (RespGrammar.read [] b) as [| |v r] eqn:Hr; [|done|].
  - destruct Hc as [Hlt Hne]. destruct cs as [|c cs]; [done|].
    destruct (read_chunk m tail b c cs Hlt) as (b' & cs' & Hread & Hcat & Hb' & Hcost).
    rewrite <- Hcat in Hrun. rewrite loop_more, Hread by done. apply IHf; [lia|done|done].
  - destruct Hc as [Hv|(w & e1 & Hv & Hrun')]; [by eapply loop_fault|].
    pose proof (read_value_shorter _ _ _ Hr) as Hlen.
    rewrite (loop_value _ _ m b e v r w e1 Hr Hv).
    rewrite (IHn (length r) Hlen r eq_refl e1 f Hf); [done|unfold zlen in *; lia|done].
Qed.

Lemma read_cost_run cs tail :
  (read_cost cs < S (arrival_bytes ((Data <$> cs) ++ tail) + length ((Data <$> cs) ++ tail)))%nat.
Proof.
  assert (Htb : (arrival_bytes (Data <$> cs) <= arrival_bytes ((Data <$> cs) ++ tail))%nat).
  { induction cs as [|c cs IH]; cbn; lia. }
  unfold read_cost. rewrite length_app, length_fmap. lia.
Qed.

Lemma session_run_fault m cs tail e f :
  0 < m -> stream_fault m (concat cs) e f -> run ((Data <$> cs) ++ tail) (newSession m) e = Fault f.
Proof.
  intros Hm Hrun. unfold newSession. rewrite (proj2 (Z.eqb_neq m 0)) by lia.
  apply session_loop_fault; [apply read_cost_run|rewrite zlen_nil; lia|done].
Qed.

Lemma session_run_stream m cs tail e fin e' ws :
  0 < m -> no_data tail -> stream_run m (concat cs) e fin e' ws ->
  exists s', run ((Data <$> cs) ++ tail) (newSession m) e = Ok (finish tail fin, s', e', ws)
    /\ zlen (buffer_ s') <= m.
Proof.
  intros Hm Ht Hrun. unfold newSession. rewrite (proj2 (Z.eqb_neq m 0)) by lia.
  apply session_loop_stream; [done|apply read_cost_run|rewrite zlen_nil; lia|done].
Qed.

(** C8. A session computes [stream_run] of the bytes it receives, however they are
    cut into reads and whatever comes after them - nothing, the end, an error: same
    replies in the same order, same effect on the store, same ending - and
    its buffer never exceeds the limit. *)
Theorem session_stream m cs tail e fin e' ws :
  0 < m -> no_data tail -> stream_run m (concat cs) e fin e' ws ->
  exists s', run ((Data <$> cs) ++ tail) (newSession m) e = Ok (finish tail fin, s', e', ws)
    /\ zlen (buffer_ s') <= m.
Proof. apply session_run_stream. Qed.
End Session.

(** ** Valid requests *)

Section Pipeline.
Context {E : Type} `{!Service E}.

Fixpoint respond_all (vs : list RespValue) (e : E) : res (list bytes * E) :=
  match vs with
  | [] => mret ([], e)
  | v :: vs => '(w, e) ← respond v e; '(ws, e) ← respond_all vs e; mret (w :: ws, e)
  end.

(** A request a client may send: it can be transmitted, fits the limit, and
    if it is a command the environment is up to it and no count overflows. *)
Definition acceptable (m : Z) (v : RespValue) : Prop :=
  transmissible 0 v = true /\ zlen (encode v) <= m
  /\ forall cmd, command_of v = Some cmd -> servable cmd /\ ~ overflowing cmd.

Lemma command_of_valid v cmd : command_of v = Some cmd -> valid_command cmd = true.
Proof.
  destruct v as [[] [| |[|e0 rest]]]; cbn; try done.
  destruct (text_of e0); cbn; [|done]. destruct (mapM text_of rest); cbn; [|done].
  destruct (valid_command _) eqn:Ev; [|done]. by intros [= <-].
Qed.

Lemma respond_cases v e :
  service_ok e -> wf_value v = true -> (forall cmd, command_of v = Some cmd -> servable cmd) ->
  match respond v e with
  | Ok (w, e') => service_ok e'
  | Fault f => f = SignedOverflow /\ exists cmd, command_of v = Some cmd /\ overflowing cmd
  end.
Proof.
  intros He Hwf Hs. unfold respond. rewrite toCommand_of by done. cbn [mbind res_bind].
  destruct (command_of v) as [cmd|] eqn:Hc; [|by rewrite serialize_total].
  pose proof (serve_ok cmd e He (command_of_valid v cmd Hc) (Hs cmd eq_refl)) as H.
  destruct (serve cmd e) as [[r e']|f]; cbn [mbind res_bind].
  - destruct H as [Hr He']. by rewrite serialize_total by by apply wf_serializable.
  - destruct H as [Hf Ho]. split; [done|by exists cmd].
Qed.

Lemma respond_total v e :
  service_ok e -> wf_value v = true ->
  (forall cmd, command_of v = Some cmd -> servable cmd /\ ~ overflowing cmd) ->
  exists w e', respond v e = Ok (w, e') /\ service_ok e'.
Proof.
  intros He Hwf Hs. pose proof (respond_cases v e He Hwf (fun cmd H => proj1 (Hs cmd H))) as H.
  destruct (respond v e) as [[w e']|f]; [by exists w, e'|].
  destruct H as (_ & cmd & Hc & Ho). by destruct (Hs cmd Hc) as [_ []].
Qed.

(** ** The size of a command *)

Lemma text_size d v e a : encodes d v e -> text_of v = Some a -> zlen a <= zlen e.
Proof.
  intros He Ha. inversion He; subst; cbn in Ha; try discriminate Ha; injection Ha as <-;
    rewrite ?zlen_cons, ?zlen_app; pose proof (zlen_nonneg crlf); try pose proof (zlen_nonneg tok); try lia.
Qed.

Lemma texts_size d vs e l :
  encodes_all d vs e -> mapM text_of vs = Some l -> foldr (fun a n => zlen a + n) 0 l <= zlen e.
Proof.
  intros He. revert l. induction He as [|d v vs e es Hv _ IH]; intros l.
  - intros [= <-]. done.
  - intros H. cbn in H. apply bind_Some in H as (a & Ha & H). apply bind_Some in H as (l' & Hl & [= <-]).
    cbn [foldr]. rewrite zlen_app. pose proof (text_size _ _ _ _ Hv Ha). specialize (IH l' Hl). lia.
Qed.

(** A message holds the arguments of its command. *)
Lemma encodes_command_size d v e cmd : encodes d v e -> command_of v = Some cmd -> command_size cmd <= zlen e.
Proof.
  intros He Hc. inversion He; subst; try done. cbn in Hc. destruct vs as [|v0 vs]; [done|].
  apply bind_Some in Hc as (name & _ & Hc). apply bind_Some in Hc as (l & Hl & Hc).
  destruct (valid_command _); [|done]. injection Hc as <-.
  match goal with H : encodes_all _ (v0 :: vs) _ |- _ => inversion H; subst end.
  unfold command_size. cbn [args].
  match goal with H : encodes_all _ vs ?es |- _ => pose proof (texts_size _ _ _ _ H Hl) end.
  repeat rewrite ?zlen_cons, ?zlen_app. pose proof (zlen_nonneg crlf). pose proof (zlen_nonneg tok).
  match goal with H : encodes _ v0 ?e0 |- _ => pose proof (zlen_nonneg e0) end. lia.
Qed.

(** The bytes [D] hold a request whose count may overflow. *)
Definition asks_overflow (D : bytes) : Prop :=
  exists pre x post v cmd, D = pre ++ x ++ post /\ encodes 0 v x /\ command_of v = Some cmd /\ overflowing cmd.

Lemma asks_overflow_suffix pre D : asks_overflow D -> asks_overflow (pre ++ D).
Proof.
  intros (p & x & post & v & cmd & -> & H). exists (pre ++ p), x, post, v, cmd. by rewrite <- app_assoc.
Qed.

(** Every byte stream has a run, and only one, or comes to an overflow. *)
Lemma stream_run_total m D e :
  0 < m -> service_ok e -> serves_up_to m ->
  (exists fin e' ws, stream_run m D e fin e' ws /\ service_ok e')
  \/ (stream_fault m D e SignedOverflow /\ asks_overflow D).
Proof.
  intros Hm He Hs. remember (length D) as n eqn:Hn. revert D e Hn He.
  induction n as [n IH] using lt_wf_ind. intros D e -> He.
  destruct (RespGrammar.read [] (take (Z.to_nat m) D)) as [| |v r] eqn:Hr.
  - left. destruct (Z.lt_ge_cases (zlen D) m) as [Hlt|Hge].
    + rewrite take_ge in Hr by (unfold zlen in Hlt; lia).
      exists Waiting, e, []. split; [by apply sr_wait|done].
    + eexists _, e, _. split; [apply sr_large; [done|done|by apply serialize_total]|done].
  - left. eexists _, e, _. split; [apply sr_error; [done|by apply serialize_total]|done].
  - pose proof (read_value_shorter _ _ _ Hr) as Hlen. rewrite length_take in Hlen.
    pose proof Hr as (x & Hx & Henc)%read_iff.
    assert (HD : D = x ++ r ++ drop (Z.to_nat m) D) by (by rewrite app_assoc, <- Hx, take_drop).
    assert (Hsize : zlen x <= m).
    { apply (f_equal length) in Hx. rewrite length_take, length_app in Hx. unfold zlen. lia. }
    pose proof (respond_cases v e He) as Hc. destruct (respond v e) as [[w e1]|f] eqn:Hv.
    + destruct (IH (length (r ++ drop (Z.to_nat m) D))) with (D := r ++ drop (Z.to_nat m) D) (e := e1)
        as [(fin & e' & ws & Hrun & He')|[Hrun Ho]]; [rewrite length_app, length_drop; lia|done| |..].
      * apply Hc; [by eapply encodes_wf|]. intros cmd Hcmd. apply Hs.
        pose proof (encodes_command_size _ _ _ _ Henc Hcmd). lia.
      * left. exists fin, e', (w :: ws). split; [by eapply sr_value|done].
      * right. split; [by eapply sf_later|]. rewrite HD. by apply asks_overflow_suffix.
    + right. destruct Hc as (-> & cmd & Hcmd & Ho); [by eapply encodes_wf| |].
      { intros cmd Hcmd. apply Hs. pose proof (encodes_command_size _ _ _ _ Henc Hcmd). lia. }
      split; [by eapply sf_here|]. by exists [], x, (r ++ drop (Z.to_nat m) D), v, cmd.
Qed.

Lemma stream_run_unique m D e fin e1 ws fin' e2 ws' :
  stream_run m D e fin e1 ws -> stream_run m D e fin' e2 ws' -> fin = fin' /\ e1 = e2 /\ ws = ws'.
Proof.
  assert (Hfull : forall l : bytes, zlen l < m -> take (Z.to_nat m) l = l).
  { intros l Hl. apply take_ge. unfold zlen in Hl. lia. }
  intros H. revert fin' e2 ws'. induction H as [? ? Hz Hr|? ? ? Hz Hr Hw|? ? ? Hr Hw|? ? v r w ? ? ? ? Hr Hv H IH];
    intros fin' e2' ws' H'; inversion H' as [? ? Hz' Hr'|? ? ? Hz' Hr' Hw'|? ? ? Hr' Hw'|? ? ? ? ? ? ? ? ? Hr' Hv' Hrun'];
    subst; rewrite ?Hfull in * by lia; try congruence; try lia; simplify_eq.
  all: try (repeat split; congruence).
  rewrite Hr in Hr'. injection Hr' as <- <-. rewrite Hv in Hv'. injection Hv' as <- <-.
  by destruct (IH _ _ _ Hrun') as (-> & -> & ->).
Qed.

(** The bytes a session receives before the stream ends. *)
Fixpoint received (arrivals : list Arrival) : list bytes * list Arrival :=
  match arrivals with
  | Data d :: arrivals => (fun r => (d :: fst r, snd r)) (received arrivals)
  | _ => ([], arrivals)
  end.

Lemma received_split arrivals :
  arrivals = (Data <$> fst (received arrivals)) ++ snd (received arrivals) /\ no_data (snd (received arrivals)).
Proof.
  induction arrivals as [|[d| |] arrivals IH]; cbn; [done| |done|done].
  destruct IH as [IH1 IH2]. split; [by f_equal|done].
Qed.

(** C21. The session survives its client: whatever bytes arrive, cut in any way
    and whether the stream ends, breaks or stays open, its loops stop - waiting
    for more, or closing the connection for one of the reasons the code has -,
    its buffer is within the limit and the store in order; the only fault is
    the signed overflow of a deadline, and then the bytes hold a command that
    asks for one.  The environment is up to whatever a message within the limit
    can hold. *)
Theorem session_total m arrivals e :
  0 < m -> service_ok e -> serves_up_to m ->
  match run arrivals (newSession m) e with
  | Ok (ending, s', e', ws) =>
      zlen (buffer_ s') <= m /\ service_ok e' /\ (ending = Waiting -> snd (received arrivals) = [])
  | Fault f => f = SignedOverflow /\ asks_overflow (concat (fst (received arrivals)))
  end.
Proof.
  intros Hm He Hs. destruct (received_split arrivals) as [Ha Ht].
  destruct (stream_run_total m (concat (fst (received arrivals))) e Hm He Hs)
    as [(fin & e' & ws & Hrun & He')|[Hrun Ho]].
  - destruct (session_run_stream m _ _ e fin e' ws Hm Ht Hrun) as (s' & H & Hb). rewrite <- Ha in H.
    rewrite H. repeat (split; [done|]). by destruct fin, (snd (received arrivals)) as [|[]].
  - pose proof (session_run_fault m _ (snd (received arrivals)) e _ Hm Hrun) as H. rewrite <- Ha in H.
    by rewrite H.
Qed.

Lemma stream_valid m vs e :
  0 < m -> service_ok e -> Forall (acceptable m) vs ->
  exists ws e', respond_all vs e = Ok (ws, e') /\ length ws = length vs /\ service_ok e'
    /\ stream_run m (concat (encode <$> vs)) e Waiting e' ws.
Proof.
  intros Hm He Hvs. revert e He. induction Hvs as [|v vs Hv Hvs IH]; intros e He.
  - exists [], e. split; [done|]. split; [done|]. split; [done|]. by apply sr_wait.
  - destruct (respond_total v e He) as (w & e1 & Hr & He1); [eapply encodes_wf, encode_encodes, Hv|apply Hv|].
    destruct (IH e1 He1) as (ws & e' & Hrs & Hl & He' & Hrun).
    exists (w :: ws), e'. cbn [respond_all]. rewrite Hr. cbn [mbind res_bind]. rewrite Hrs.
    split; [done|]. split; [cbn; by rewrite Hl|]. split; [done|].
    destruct Hv as (Ht & Hz & _). destruct (window_app m (encode v) (concat (encode <$> vs)) Hz) as [H1 H2].
    eapply (sr_value m _ e v (take (Z.to_nat m - length (encode v)) (concat (encode <$> vs)))); [|exact Hr|].
    + cbn [fmap list_fmap concat]. rewrite H1. apply read_iff. exists (encode v).
      split; [done|by apply encode_encodes].
    + cbn [fmap list_fmap concat]. by rewrite H2, take_drop.
Qed.

(** C16. Every request is answered once, in the order received: on a stream of
    acceptable requests, pipelined and cut into reads in any way, the session
    writes exactly one reply per request, what it does to the store is what
    the requests do one after the other, and it goes on waiting for more -
    none is refused as malformed or too large. *)
Theorem session_pipeline m vs cs e :
  0 < m -> service_ok e -> Forall (acceptable m) vs -> concat cs = concat (encode <$> vs) ->
  exists ws e' s', respond_all vs e = Ok (ws, e') /\ length ws = length vs /\ service_ok e'
    /\ run (Data <$> cs) (newSession m) e = Ok (Waiting, s', e', ws).
Proof.
  intros Hm He Hvs Hcs. destruct (stream_valid m vs e Hm He Hvs) as (ws & e' & Hr & Hl & He' & Hrun).
  rewrite <- Hcs in Hrun.
  destruct (session_run_stream m cs [] e Waiting e' ws Hm) as (s' & Hs & _); [done|done|].
  exists ws, e', s'. rewrite app_nil_r in Hs. done.
Qed.
End Pipeline.

(** ** Instances *)

(** Two shards of ten bytes, at time 0. *)
Definition demo_service : Service (nat * ShardPool) :=
  pool_service length_hash 1%positive None (fun _ _ => (0, 0)) 10.

Lemma pool2_ready : @service_ok _ demo_service (0%nat, pool2).
Proof.
  split; [apply newShardPool_ok; unfold two64; lia|]. split; [done|]. intros s Hs.
  apply list_elem_of_fmap in Hs as (w & -> & Hw).
  repeat (apply elem_of_cons in Hw as [->|Hw]; [reflexivity|]). by apply elem_of_nil in Hw.
Qed.

Definition ping_request : RespValue := RespArr kArray [RespString kBulkString #"PING"].

(** A request in three pieces, and bytes that are no request. *)
Lemma session_stream_witness :
  exists s', @run _ demo_service ((Data <$> [ #"*1" ++ crlf ++ #"$4"; crlf ++ #"PI"; #"NG" ++ crlf ++ #"?"]) ++ [Eof])
      (newSession 64) (0%nat, pool2)
    = Ok (finish [Eof] Malformed, s', (1%nat, pool2),
          [ #"$4" ++ crlf ++ #"PONG" ++ crlf; #"-ERR malformed request" ++ crlf])
    /\ zlen (buffer_ s') <= 64.
Proof.
  apply (@session_stream _ demo_service).
  - lia.
  - exact I.
  - eapply (@sr_value _ demo_service); [vm_compute; reflexivity|vm_compute; reflexivity|].
    apply (@sr_error _ demo_service); vm_compute; reflexivity.
Defined.

Definition overflow_request : bytes :=
  encode (RespArr kArray (RespString kBulkString <$> [ #"SET"; #"k"; #"v"; #"EX"; #"99999999999"])).

Lemma overflow_request_run :
  @run _ demo_service [Data overflow_request] (newSession 64) (0%nat, pool2) = Fault SignedOverflow.
Proof. vm_compute. reflexivity. Qed.

Lemma demo_serves : @serves_up_to _ demo_service 64.
Proof. apply pool_serves_up_to; [unfold two64; lia|]. intros _. cbn. unfold i64_max. lia. Qed.

(** A ping, then bytes that are no request, then an end that is not reached;
    and a count that overflows. *)
Lemma session_total_witness :
  (exists ending s' e' ws, @run _ demo_service
      [Data (#"*1" ++ crlf ++ #"$4" ++ crlf ++ #"PI"); Data (#"NG" ++ crlf ++ #"?"); Eof] (newSession 64) (0%nat, pool2)
      = Ok (ending, s', e', ws)
    /\ zlen (buffer_ s') <= 64 /\ @service_ok _ demo_service e' /\ (ending = Waiting -> [Eof] = []))
  /\ @asks_overflow _ demo_service (concat [overflow_request]).
Proof.
  split.
  - eexists _, _, _, _. split; [vm_compute; reflexivity|].
    apply (@session_total _ demo_service 64
      [Data (#"*1" ++ crlf ++ #"$4" ++ crlf ++ #"PI"); Data (#"NG" ++ crlf ++ #"?"); Eof] (0%nat, pool2));
      [lia|apply pool2_ready|exact demo_serves].
  - pose proof (@session_total _ demo_service 64 [Data overflow_request] (0%nat, pool2)) as H.
    rewrite overflow_request_run in H. apply H; [lia|apply pool2_ready|exact demo_serves].
Defined.

Lemma session_pipeline_witness :
  exists ws e' s', @respond_all _ demo_service [ping_request; RespInt kInteger 7] (0%nat, pool2) = Ok (ws, e')
    /\ length ws = 2%nat /\ @service_ok _ demo_service e'
    /\ @run _ demo_service (Data <$> [ #"*1" ++ crlf ++ #"$4" ++ crlf ++ #"PI"; #"NG" ++ crlf ++ #":7" ++ crlf])
         (newSession 64) (0%nat, pool2)
       = Ok (Waiting, s', e', ws).
Proof.
  apply (@session_pipeline _ demo_service 64 [ping_request; RespInt kInteger 7]).
  - lia.
  - apply pool2_ready.
  - apply Forall_cons; split; [|apply Forall_cons; split; [|by apply Forall_nil]];
      (split; [vm_compute; reflexivity|]); (split; [vm_compute; discriminate|]);
      intros cmd Hc; vm_compute in Hc; [injection Hc as <-|discriminate Hc].
    split; [intros n; by split|by intros [n Hn]].
  - vm_compute. reflexivity.
Defined.
