(* ===== verification/EndToEnd.v ===== *)
(** * From the bytes of a client to the bytes of the server

    What the server is for one client, in terms of the protocol's grammar, the
    meaning of commands and the encoding of values only: [spec_stream] reads
    the stream of bytes and knows no buffer, parser loop, shard, iterator or
    serializer.  The session on the pool - all of [src/] but the network and
    the threads - implements it. *)

From S2P Require Import Prelude RespValue RespGrammar RespSerializer Command LruShard LruSpec LruInv ShardPool.
From S2P Require Import CommandExecutor ExecutorSpec PoolSpec ExecutorRefine ExecutorTheorems Session PoolService.
From S2P Require Import RespParserSpec SessionTheorems.

Section EndToEnd.
Variable XXH3_64bits : bytes -> N.
Variable clk : nat -> Clock.

(** The answer to a request: the next count of commands, the caches, and the
    message. *)
Definition spec_answer (v : RespValue) (n : nat) (caches : list Cache) : res (nat * list Cache * bytes) :=
  match command_of v with
  | None => mret (n, caches, encode invalid_command)
  | Some cmd =>
      '(reply, caches) ← spec_execute XXH3_64bits cmd (clk n) caches;
      mret (S n, caches, encode reply)
  end.

(** The answers to a stream of bytes, of which a request may take [m]. *)
Fixpoint spec_stream (fuel : nat) (m : Z) (D : bytes) (n : nat) (caches : list Cache)
    : res (Ending * nat * list Cache * list bytes) :=
  match fuel with
  | O => Fault OutOfFuel
  | S fuel =>
      match RespGrammar.read [] (take (Z.to_nat m) D) with
      | RMore =>
          if zlen D <? m then mret (Waiting, n, caches, [])
          else mret (Ended kMessageTooLarge, n, caches, [encode request_too_large])
      | RError => mret (Malformed, n, caches, [encode malformed_request])
      | RValue v r =>
          '(n, caches, w) ← spec_answer v n caches;
          '(ending, n, caches, ws) ← spec_stream fuel m (r ++ drop (Z.to_nat m) D) n caches;
          mret (ending, n, caches, w :: ws)
      end
  end.

(** A request takes a byte. *)
Definition spec_serve (m : Z) (D : bytes) (caches : list Cache) : res (Ending * nat * list Cache * list bytes) :=
  spec_stream (S (length D)) m D 0 caches.

(** ** The session implements it *)

Section Session.
Variables (self : Tid) (home : option nat) (budget : Z).

(** The session's commands are executed from [self], their calls reading the
    clock as [clks n]. *)
Variable clks : nat -> nat -> Clock.
Hypothesis Hclks : forall n, clks n 0%nat = clk n.

#[local] Instance service : Service (nat * ShardPool) := pool_service XXH3_64bits self home clks budget.

Lemma respond_answers v n p :
  pool_ready XXH3_64bits home budget (n, p) -> wf_value v = true ->
  (forall cmd, command_of v = Some cmd -> servable cmd) ->
  match respond v (n, p) with
  | Ok (w, e') => spec_answer v n (abs_pool p) = Ok (e'.1, abs_pool e'.2, w) /\ pool_ready XXH3_64bits home budget e'
  | Fault f => spec_answer v n (abs_pool p) = Fault f
  end.
Proof.
  intros He Hwf Hs. unfold respond, spec_answer. rewrite toCommand_of by done. cbn [mbind res_bind].
  destruct (command_of v) as [cmd|] eqn:Hc; [|by rewrite serialize_total].
  pose proof He as (Hok & Hh & Hm). cbn [snd] in Hok, Hh, Hm.
  pose proof (command_of_valid v cmd Hc) as Hv.
  pose proof (pool_serve_ok XXH3_64bits self home clks budget cmd (n, p) He Hv (Hs cmd eq_refl)) as Hser.
  pose proof (execute_spec XXH3_64bits self (clks n) cmd home p Hok Hv Hh) as H. unfold runs_as in H.
  cbn [serve service pool_service]. unfold pool_serve, ShardPool.run in *. cbn [fst snd] in *.
  rewrite Hclks in H. destruct (spec_execute XXH3_64bits cmd (clk n) (abs_pool p)) as [[r caches]|f].
  - destruct H as (n' & p' & H & <- & _); [intros s Hin; rewrite (Hm s Hin), <- Hclks; by apply Hs|].
    rewrite H in Hser |- *. cbn [mbind res_bind mret res_ret] in Hser |- *. destruct Hser as [Hr He'].
    by rewrite serialize_total by by apply wf_serializable.
  - destruct H as (_ & _ & ->); [intros s Hin; rewrite (Hm s Hin), <- Hclks; by apply Hs|]. done.
Qed.

(** The next message of a stream, and what follows it. *)
Lemma message_of m D v r :
  RespGrammar.read [] (take (Z.to_nat m) D) = RValue v r ->
  (length (r ++ drop (Z.to_nat m) D) < length D)%nat /\ wf_value v = true
  /\ forall cmd, command_of v = Some cmd -> command_size cmd <= Z.max 0 m.
Proof.
  intros Hr. pose proof (read_value_shorter _ _ _ Hr) as Hlen. rewrite length_take in Hlen.
  split; [rewrite length_app, length_drop; lia|]. apply read_iff in Hr as (x & Hx & Henc).
  split; [by eapply encodes_wf|]. intros cmd Hc. pose proof (encodes_command_size _ _ _ _ Henc Hc) as H.
  apply (f_equal length) in Hx. rewrite length_take, length_app in Hx. unfold zlen in *. lia.
Qed.

Lemma answers_next m D v r n p :
  0 < m -> serves_up_to m -> pool_ready XXH3_64bits home budget (n, p) ->
  RespGrammar.read [] (take (Z.to_nat m) D) = RValue v r ->
  match respond v (n, p) with
  | Ok (w, e') => spec_answer v n (abs_pool p) = Ok (e'.1, abs_pool e'.2, w) /\ pool_ready XXH3_64bits home budget e'
  | Fault f => spec_answer v n (abs_pool p) = Fault f
  end.
Proof.
  intros Hm Hs He Hr. destruct (message_of m D v r Hr) as (_ & Hwf & Hsize). apply respond_answers; [done..|].
  intros cmd Hc. apply Hs. specialize (Hsize cmd Hc). lia.
Qed.

Lemma stream_run_spec m D e fin e' ws :
  0 < m -> serves_up_to m -> stream_run m D e fin e' ws -> pool_ready XXH3_64bits home budget e ->
  forall fuel, (length D < fuel)%nat ->
  spec_stream fuel m D e.1 (abs_pool e.2) = Ok (fin, e'.1, abs_pool e'.2, ws).
Proof.
  intros Hm Hs. induction 1 as [D e Hz Hr|D e w Hz Hr Hw|D e w Hr Hw|D e v r w e1 fin e2 ws Hr Hv _ IH];
    intros He [|fuel] Hf; try lia; cbn [spec_stream].
  - rewrite take_ge, Hr by (unfold zlen in Hz; lia). by zcmp.
  - rewrite Hr. zcmp. rewrite serialize_total in Hw by done. by injection Hw as <-.
  - rewrite Hr. rewrite serialize_total in Hw by done. by injection Hw as <-.
  - destruct e as [n p]. pose proof (answers_next m D v r n p Hm Hs He Hr) as H. rewrite Hv in H.
    destruct H as [H He1]. cbn [fst snd]. rewrite Hr, H. cbn [mbind res_bind].
    destruct (message_of m D v r Hr) as [Hlen _]. by rewrite IH by (done || lia).
Qed.

Lemma stream_fault_spec m D e f :
  0 < m -> serves_up_to m -> stream_fault m D e f -> pool_ready XXH3_64bits home budget e ->
  forall fuel, (length D < fuel)%nat -> spec_stream fuel m D e.1 (abs_pool e.2) = Fault f.
Proof.
  intros Hm Hs. induction 1 as [D [n p] v r f Hr Hv|D [n p] v r w e1 f Hr Hv _ IH];
    intros He [|fuel] Hf; try lia; cbn [spec_stream fst snd]; rewrite Hr;
    pose proof (answers_next m D v r n p Hm Hs He Hr) as H; rewrite Hv in H.
  - by rewrite H.
  - destruct H as [H He1]. rewrite H. cbn [mbind res_bind].
    destruct (message_of m D v r Hr) as [Hlen _]. by rewrite IH by (done || lia).
Qed.

(** C2. End to end: whatever bytes a client sends, cut into reads in any way and
    whatever ends the stream, the session on the pool of shards writes, message
    by message, what [spec_serve] says of the bytes alone - decoded by the
    grammar, executed on the abstract caches, encoded -, ends the way it says,
    and leaves the caches it says in the shards.  Where [spec_serve] says that
    the deadline of a command overflows, the session has that fault; it has no
    other, and then the bytes hold an [EXPIRE] or a [SET EX] whose count takes
    the deadline out of the range of the clock.  The environment: the budget of
    a shard and the limit of a message together fit [std::size_t], and the
    clock does not run backwards. *)
Theorem session_serves m arrivals p :
  0 < m -> budget + m < two64 ->
  (forall n, 0 <= fst (clk n) <= snd (clk n) /\ snd (clk n) <= i64_max) ->
  pool_ready XXH3_64bits home budget (0%nat, p) ->
  match spec_serve m (concat (received arrivals).1) (abs_pool p) with
  | Ok (ending, n, caches, ws) =>
      exists s' p', run arrivals (newSession m) (0%nat, p) = Ok (finish (received arrivals).2 ending, s', (n, p'), ws)
        /\ abs_pool p' = caches /\ pool_ready XXH3_64bits home budget (n, p')
  | Fault f =>
      f = SignedOverflow /\ run arrivals (newSession m) (0%nat, p) = Fault f
      /\ asks_overflow (concat (received arrivals).1)
  end.
Proof.
  intros Hm Hb Hclk He. destruct (received_split arrivals) as [Ha Ht].
  assert (Hs : serves_up_to m) by (apply pool_serves_up_to; [done|intros n; by rewrite Hclks]).
  destruct (@stream_run_total _ service m (concat (received arrivals).1) (0%nat, p) Hm He Hs)
    as [(fin & [n p'] & ws & Hrun & He')|[Hrun Ho]].
  - pose proof (stream_run_spec m _ _ _ _ _ Hm Hs Hrun He _ (Nat.lt_succ_diag_r _)) as Hspec.
    cbn [fst snd] in Hspec. unfold spec_serve. rewrite Hspec.
    destruct (session_run_stream m _ _ _ fin _ ws Hm Ht Hrun) as (s' & H & _). rewrite <- Ha in H.
    by exists s', p'.
  - pose proof (stream_fault_spec m _ _ _ Hm Hs Hrun He _ (Nat.lt_succ_diag_r _)) as Hspec.
    cbn [fst snd] in Hspec. unfold spec_serve. rewrite Hspec. split; [done|].
    pose proof (session_run_fault m _ (received arrivals).2 _ _ Hm Hrun) as H. rewrite <- Ha in H.
    by rewrite H.
Qed.
End Session.
End EndToEnd.

(** ** An instance

    Two requests, a value that is no command and bytes that are no value, cut
    in the middle of the second request, to two shards of ten bytes. *)

Definition words (l : list bytes) : bytes := encode (RespArr kArray (RespString kBulkString <$> l)).
Definition demo_client : list Arrival :=
  [Data (words [ #"SET"; #"k"; #"v"] ++ #"*2"); Data (drop 2 (words [ #"get"; #"k"]) ++ #":7" ++ crlf ++ #"?"); Eof].

(** The same two shards, asked for a deadline that overflows. *)
Definition overflow_client : list Arrival :=
  [Data (words [ #"SET"; #"k"; #"v"]); Data (words [ #"EXPIRE"; #"k"; #"99999999999"]); Eof].

Lemma session_serves_witness :
  (exists s' p',
    @run _ (service length_hash 1%positive None 10 (fun _ _ => (0, 0))) demo_client (newSession 64) (0%nat, pool2)
    = Ok (Malformed, s', (2%nat, p'),
          [ #"+OK" ++ crlf; #"$1" ++ crlf ++ #"v" ++ crlf; #"-ERR invalid command" ++ crlf;
            #"-ERR malformed request" ++ crlf])
    /\ abs_pool p' = [mkCache [] 10 0 0; mkCache [mkEntry #"k" #"v" None] 10 0 0])
  /\ @run _ (service length_hash 1%positive None 10 (fun _ _ => (0, 0))) overflow_client (newSession 64) (0%nat, pool2)
     = Fault SignedOverflow.
Proof.
  pose proof (session_serves length_hash (fun _ => (0, 0)) 1%positive None 10 (fun _ _ => (0, 0)) (fun _ => eq_refl)
    64) as H.
  split.
  - specialize (H demo_client pool2). vm_compute (spec_serve _ _ _ _ _) in H.
    destruct H as (s' & p' & Hrun & Hc & _); [lia|unfold two64; lia|intros _; cbn; unfold i64_max; lia|apply pool2_ready|].
    exists s', p'. split; [exact Hrun|exact Hc].
  - specialize (H overflow_client pool2). vm_compute (spec_serve _ _ _ _ _) in H.
    destruct H as (_ & Hrun & _); [lia|unfold two64; lia|intros _; cbn; unfold i64_max; lia|apply pool2_ready|].
    exact Hrun.
Defined.
