(* ===== verification/Calls.v ===== *)
(** * The calls of a command

    The coroutine of a command calls shards; [meets] says that each of its
    calls has on its shard the effect the command has on the cache of that
    shard, that it faults exactly when the deadline of the command overflows
    there, and that the reply is right for what the calls found, whatever the
    other threads do between them.  [reply_of] is what
    "right" means. *)

From S2P Require Import Prelude RespValue Command StdText LruShard LruSpec LruInv LruRefine.
From S2P Require Import LruTheorems ShardPool CommandExecutor ExecutorSpec PoolSpec ExecutorRefine.
From S2P Require Import PoolService.

(** A call: the command that made it, the shard, the clock, and what the shard
    held. *)
Record Call := mkCall { k_cmd : Command; k_shard : nat; k_clock : Clock; k_before : Cache }.

(** Reply of the command on what the shard held, and what the shard holds next. *)
Definition outcome (k : Call) : RespValue * Cache := spec_command (k_cmd k) (k_clock k) (k_before k).

(** Entries that the calls of a [DEL] removed. *)
Fixpoint deleted (calls : list Call) : Z :=
  match calls with [] => 0 | k :: calls => gone (k_before k) (outcome k).2 + deleted calls end.

Lemma deleted_app l l' : deleted (l ++ l') = deleted l + deleted l'.
Proof. induction l as [|k l IH]; cbn; [done|]. rewrite IH. lia. Qed.

Definition info_section (cmd : Command) : bytes :=
  match args cmd with [] => #"DEFAULT" | s :: _ => to_uppercase s end.

Section Calls.
Variable XXH3_64bits : bytes -> N.
Variables (n h : nat) (m : Z).

(** What the reply of a command is, from the calls it made on [n] shards. *)
Definition reply_of (cmd : Command) (calls : list Call) (r : RespValue) : Prop :=
  match ctype cmd with
  | CGet | CSet | CExpire | CTtl =>
      exists key i c before, args cmd !! 0%nat = Some key
        /\ getShardIndex XXH3_64bits key n = Ok i /\ calls = [mkCall cmd i c before]
        /\ r = (spec_command cmd c before).1
  | CDel =>
      NoDup (k_shard <$> calls)
      /\ (forall i, i ∈ k_shard <$> calls
            <-> exists key, key ∈ args cmd /\ getShardIndex XXH3_64bits key n = Ok i)
      /\ r = RespInt kInteger (deleted calls)
  | CInfo =>
      if decide (info_section cmd ∈ info_sections)
      then k_shard <$> calls = seq 0 n
           /\ r = RespString kBulkString
                    (info_text (foldl add_stats (mkStats 0 0 0 0 0) (cache_stats ∘ k_before <$> calls)))
      else calls = [] /\ r = error_reply #"ERR unsupported INFO section"
  | CPing => calls = [] /\ processPingCommand cmd = Ok r
  | CCommand => calls = [] /\ processCommandCommand cmd = r
  | CConfig => calls = [] /\ processConfigCommand cmd = Ok r
  | CUnknown => False
  end.

(** What holds of shard [i] between steps. *)
Record shard_ok (i : nat) (s : LruShard) : Prop := {
  so_inv : Inv s;
  so_budget : max_memory_bytes_ s = m;
  so_placed : forall e, e ∈ abs_entries s -> getShardIndex XXH3_64bits (e_key e) n = Ok i }.

Lemma shard_ok_process cmd i k c s :
  shard_ok i s -> valid_command cmd = true -> one_key (ctype cmd) = true ->
  args cmd !! 0%nat = Some k -> getShardIndex XXH3_64bits k n = Ok i -> command_defined m cmd c ->
  if overflows cmd c (abs s) then process cmd c s = Fault SignedOverflow
  else exists r s', process cmd c s = Ok (r, s') /\ shard_ok i s' /\ wf_value r = true
    /\ (r, abs s') = spec_command cmd c (abs s).
Proof.
  intros [I Hm Hp] Hv Ht Hk Hi Hd. rewrite <- Hm in Hd.
  assert (Hon : on_a_shard (ctype cmd) = true) by by destruct (ctype cmd).
  assert (Hdel : ctype cmd <> CDel) by (intros E; by rewrite E in Ht).
  pose proof (process_implements cmd c s I Hv Hon Hd) as H. unfold meaning in H.
  destruct (overflows cmd c (abs s)); [done|]. destruct H as (s' & H & I' & A').
  eexists _, s'. split; [exact H|]. split; [|split; [by apply spec_command_wf|
    rewrite A'; by destruct (spec_command cmd c (abs s))]].
  split; [done| |].
  - change (max_memory_bytes_ s') with (budget (abs s')). by rewrite A', spec_command_budget.
  - intros e He. change (abs_entries s') with (entries (abs s')) in He. rewrite A' in He.
    apply (spec_command_keys cmd c (abs s) k Hk Hdel) in He as [->|(e' & -> & He')%list_elem_of_fmap];
      [done|by apply Hp].
Qed.

Lemma usable_home_home self p i : usable_home self p (Some h) = Ok (Some i) -> i = h.
Proof.
  unfold usable_home. intros H. apply bind_Ok in H as (b & _ & H). destruct b; by injection H.
Qed.

(** The coroutine of a command of one key is a single call of [process] on the
    shard of the key, whose result is the reply. *)
Definition single_call (cmd : Command) (t : Task RespValue) : Prop :=
  match t with
  | TCall how i fn k =>
      exists key, args cmd !! 0%nat = Some key /\ getShardIndex XXH3_64bits key n = Ok i
        /\ (i < n)%nat /\ (how = Local -> i = h)
        /\ forall c s, ('(b, s') ← fn c s; mret (k b, s'))
                      = ('(r, s') ← process cmd c s; mret (TRet r, s'))
  | _ => False
  end.

Lemma execute_single_call self p cmd :
  size p = n -> (h < n)%nat -> valid_command cmd = true -> one_key (ctype cmd) = true ->
  single_call cmd (execute XXH3_64bits self p cmd (Some h)).
Proof.
  intros Hp Hh Hv Ht. assert (Hhome : home_ok p (Some h)) by (intros i [= <-]; lia).
  destruct (one_key_arg cmd Hv Ht) as [k Hk].
  destruct (getShardIndex_range XXH3_64bits k n) as (i & Hi & Hin); [lia|].
  assert (Hon : forall (local : bool) fn, (local = true -> i = h) ->
    (forall c s, fn c s = process cmd c s) -> single_call cmd (on_shard local i fn)).
  { intros local fn Hl Hf. destruct local; exists k; (split; [done|]); (split; [done|]);
      (split; [done|]); (split; [auto; done|]); intros c s; by rewrite Hf. }
  rewrite !execute_eq. destruct (decide (size p = 1%nat)) as [H1|H1].
  - assert (i = 0%nat) as -> by lia. unfold execute_single_shard.
    destruct (usable_home_single self p (Some h) H1 Hhome) as (b & -> & Hb). cbn [lift mbind task_bind].
    unfold process in Hon. destruct (ctype cmd); try done; (apply Hon; [intros _; lia|done]).
  - unfold execute_multi_shard. destruct (usable_home_spec self p (Some h) Hhome) as (l & El & Hl).
    rewrite El. cbn [lift mbind task_bind].
    assert (Hlh : forall i, l = Some i -> i = h).
    { intros x ->. by eapply usable_home_home. }
    assert (Hroute : forall fn, (forall c s, fn c s = process cmd c s) ->
      single_call cmd (on_key_shard XXH3_64bits p l cmd fn)).
    { intros fn Hf. unfold on_key_shard, arg. rewrite Hk. cbn [of_option lift mbind task_bind].
      rewrite Hp, Hi. cbn [lift]. apply Hon; [|done]. intros Hx%bool_decide_eq_true. by apply Hlh. }
    unfold process in Hroute. destruct (ctype cmd); try done; by apply Hroute.
Qed.


(** ** Coroutines that do what the command means *)

Section Meets.
Variable cmd : Command.

Fixpoint meets {A} (post : list Call -> A -> Prop) (calls : list Call) (t : Task A) {struct t} : Prop :=
  match t with
  | TRet a => post calls a
  | TFault _ => False
  | TCall how i fn k =>
      (i < n)%nat /\ (how = Local -> i = h)
      /\ forall c s, shard_ok i s -> command_defined m cmd c ->
           if overflows cmd c (abs s) then fn c s = Fault SignedOverflow
           else exists b s', fn c s = Ok (b, s') /\ shard_ok i s'
             /\ abs s' = (spec_command cmd c (abs s)).2
             /\ meets post (calls ++ [mkCall cmd i c (abs s)]) (k b)
  end.

Lemma meets_bind {A B} (Q : list Call -> A -> Prop) (post : list Call -> B -> Prop) calls t k :
  meets Q calls t -> (forall calls a, Q calls a -> meets post calls (k a)) -> meets post calls (t ≫= k).
Proof.
  intros Ht Hk. revert calls Ht. induction t as [a|f|how i C fn k' IH]; intros calls Ht; cbn in *; [by apply Hk|done|].
  destruct Ht as (Hi & Hl & Hc). split; [done|]. split; [done|]. intros c s Hs Hd.
  specialize (Hc c s Hs Hd). destruct (overflows cmd c (abs s)); [done|].
  destruct Hc as (b & s' & ? & ? & ? & ?). exists b, s'. eauto.
Qed.

Lemma meets_weaken {A} (P Q : list Call -> A -> Prop) calls t :
  meets P calls t -> (forall calls a, P calls a -> Q calls a) -> meets Q calls t.
Proof.
  intros Ht HPQ. revert calls Ht. induction t as [a|f|how i C fn k' IH]; intros calls Ht; cbn in *; [by apply HPQ|done|].
  destruct Ht as (Hi & Hl & Hc). split; [done|]. split; [done|]. intros c s Hs Hd.
  specialize (Hc c s Hs Hd). destruct (overflows cmd c (abs s)); [done|].
  destruct Hc as (b & s' & ? & ? & ? & ?). exists b, s'. eauto.
Qed.

Lemma meets_lift {A} (post : list Call -> A -> Prop) calls (r : res A) a :
  r = Ok a -> post calls a -> meets post calls (lift r).
Proof. by intros ->. Qed.

(** The commands without a count. *)
Lemma meets_on_shard {B} (post : list Call -> B -> Prop) calls (local : bool) i fn :
  ctype cmd <> CSet -> ctype cmd <> CExpire -> (i < n)%nat -> (local = true -> i = h) ->
  (forall c s, shard_ok i s -> command_defined m cmd c ->
     exists b s', fn c s = Ok (b, s') /\ shard_ok i s' /\ abs s' = (spec_command cmd c (abs s)).2
       /\ post (calls ++ [mkCall cmd i c (abs s)]) b) ->
  meets post calls (on_shard local i fn).
Proof.
  intros H1 H2 Hi Hl Hf.
  destruct local; (split; [done|]); (split; [intros [=]; auto|]); intros c s; rewrite overflows_other by done; apply Hf.
Qed.

(** ** [DEL] *)

(** Deleting the keys that are routed to the shard does to it what deleting
    all of them would. *)
Lemma dels_routed i ks s :
  shard_ok i s -> ctype cmd = CDel -> ks = keys_of XXH3_64bits (args cmd) n i ->
  c_dels ks (abs s) = (spec_command cmd (0, 0) (abs s)).2.
Proof.
  intros Hs Ht ->. unfold spec_command. rewrite Ht. cbn [snd]. unfold c_dels. f_equal.
  apply filter_ext_in. intros e He. unfold keys_of.
  rewrite list_elem_of_filter, (so_placed _ _ Hs e He). tauto.
Qed.

Lemma spec_del_clock c c' cache :
  ctype cmd = CDel -> spec_command cmd c cache = spec_command cmd c' cache.
Proof. intros Ht. unfold spec_command. by rewrite Ht. Qed.

Lemma del_call i ks c s :
  shard_ok i s -> ctype cmd = CDel -> ks = keys_of XXH3_64bits (args cmd) n i -> zlen ks <= i64_max ->
  exists s', processDelKeys ks c s = Ok (deleted [mkCall cmd i c (abs s)], s') /\ shard_ok i s'
    /\ abs s' = (spec_command cmd c (abs s)).2 /\ 0 <= deleted [mkCall cmd i c (abs s)] <= zlen ks.
Proof.
  intros Hs Ht Hks Hz. pose proof (dels_routed i ks s Hs Ht Hks) as Hd.
  destruct Hs as [I Hm Hp]. destruct (del_loop_refines ks 0 s I) as (s' & H & I' & A' & Hg); [done|lia|].
  rewrite (spec_del_clock (0, 0) c _ Ht) in Hd. cbn [deleted outcome k_before]. unfold outcome.
  cbn [k_cmd k_clock k_before]. rewrite <- Hd, Z.add_0_r. exists s'. split; [exact H|].
  split; [|done]. split; [done| |].
  - change (max_memory_bytes_ s') with (budget (abs s')). by rewrite A'.
  - intros e He. apply Hp. change (abs_entries s') with (entries (abs s')) in He. rewrite A' in He.
    by apply list_elem_of_filter in He as [_ He].
Qed.

(** The shards of the groups that are not empty, the first being [i]. *)
Fixpoint busy_from (i : nat) (groups : list (list bytes)) : list nat :=
  match groups with
  | [] => []
  | [] :: groups => busy_from (S i) groups
  | _ :: groups => i :: busy_from (S i) groups
  end.

Lemma busy_from_elem i groups j :
  j ∈ busy_from i groups <-> exists d k ks, j = (i + d)%nat /\ groups !! d = Some (k :: ks).
Proof.
  revert i. induction groups as [|[|k ks] groups IH]; intros i; cbn [busy_from].
  - rewrite elem_of_nil. split; [done|]. by intros (d & k & ks & _ & ?).
  - rewrite IH. split.
    + intros (d & k & ks & -> & H). exists (S d), k, ks. split; [lia|done].
    + intros ([|d] & k & ks & -> & H); [done|]. exists d, k, ks. split; [lia|done].
  - rewrite elem_of_cons, IH. split.
    + intros [->|(d & k' & ks' & -> & H)]; [exists 0%nat, k, ks; split; [lia|done]|].
      exists (S d), k', ks'. split; [lia|done].
    + intros ([|d] & k' & ks' & -> & H); [left; lia|]. right. exists d, k', ks'. split; [lia|done].
Qed.

Lemma busy_from_NoDup i groups : NoDup (busy_from i groups).
Proof.
  revert i. induction groups as [|[|k ks] groups IH]; intros i; cbn [busy_from]; [constructor|done|].
  constructor; [|done]. intros (d & ? & ? & ? & _)%busy_from_elem. lia.
Qed.

(** What the loop over the groups has added to the calls and to the count. *)
Definition del_progress (calls : list Call) (count : Z) (visits : list nat) (bound : Z)
    (calls' : list Call) (count' : Z) : Prop :=
  exists new, calls' = calls ++ new /\ k_shard <$> new = visits
    /\ count' = count + deleted new /\ 0 <= deleted new <= bound.

Lemma meets_del_shards groups i count calls :
  ctype cmd = CDel -> (i + length groups <= n)%nat ->
  (forall d ks, groups !! d = Some ks -> ks <> [] -> ks = keys_of XXH3_64bits (args cmd) n (i + d)) ->
  0 <= count -> count + count_keys groups <= i64_max ->
  meets (del_progress calls count (busy_from i groups) (count_keys groups)) calls
    (del_shards groups i count).
Proof.
  intros Ht. revert i count calls.
  induction groups as [|ks groups IH]; intros i count calls Hi Hg Hc Hb; cbn [del_shards count_keys length busy_from] in *.
  - exists []. cbn. rewrite app_nil_r, Z.add_0_r. done.
  - pose proof (count_keys_nonneg groups). pose proof (zlen_nonneg ks).
    apply (meets_bind (del_progress calls count (busy_from i [ks]) (zlen ks))).
    + destruct ks as [|k ks]; [exists []; cbn; rewrite app_nil_r, Z.add_0_r; done|].
      apply (meets_bind (del_progress calls 0 [i] (zlen (k :: ks)))).
      * apply (meets_on_shard _ _ false); [congruence..|lia|done|]. intros c s Hs _.
        destruct (del_call i (k :: ks) c s Hs Ht) as (s' & H1 & H2 & H3 & H4).
        { rewrite <- (Nat.add_0_r i). by apply (Hg 0%nat). }
        { lia. }
        eexists _, s'. split; [exact H1|]. split; [done|]. split; [done|].
        by exists [mkCall cmd i c (abs s)].
      * intros calls' d (new & -> & Hv & -> & Hd). rewrite Z.add_0_l.
        apply (meets_lift _ _ _ (count + deleted new)); [apply checked_Ok; unfold i64_min, i64_max in *; lia|].
        exists new. split; [done|]. destruct ks; done.
    + intros calls' count' (new & -> & Hv & -> & Hd). eapply meets_weaken.
      * apply IH; [lia| |lia|lia]. intros d ks' Hk Hne. rewrite Nat.add_succ_comm. by apply (Hg (S d)).
      * intros calls'' r (new' & -> & Hv' & -> & Hd'). exists (new ++ new').
        rewrite app_assoc, fmap_app, Hv, Hv', deleted_app. split; [done|].
        split; [by destruct ks|]. lia.
Qed.

(** The reply of a command, and that it can be written. *)
Definition replies (calls : list Call) (r : RespValue) : Prop :=
  reply_of cmd calls r /\ wf_value r = true.

Lemma del_replies calls :
  ctype cmd = CDel -> 0 <= deleted calls <= i64_max -> NoDup (k_shard <$> calls) ->
  (forall i, i ∈ k_shard <$> calls
     <-> exists key, key ∈ args cmd /\ getShardIndex XXH3_64bits key n = Ok i) ->
  replies calls (RespInt kInteger (deleted calls)).
Proof.
  intros Ht Hd Hn Hi. split; [unfold reply_of; by rewrite Ht|]. cbn. unfold in_i64.
  unfold i64_min, i64_max in *. by zcmp.
Qed.

(** The shards with keys, whatever group has been dealt with beforehand. *)
Lemma keys_visited i :
  (0 < n)%nat ->
  (exists k ks, (keys_of XXH3_64bits (args cmd) n <$> seq 0 n) !! i = Some (k :: ks))
  <-> exists key, key ∈ args cmd /\ getShardIndex XXH3_64bits key n = Ok i.
Proof.
  intros Hn. split.
  - intros (k & ks & (x & Hk & [-> Hi]%lookup_seq)%list_lookup_fmap_Some). exists k.
    assert (Hin : k ∈ keys_of XXH3_64bits (args cmd) n (0 + i)) by (rewrite <- Hk; left).
    apply list_elem_of_filter in Hin. naive_solver.
  - intros (key & Hin & Hr). destruct (getShardIndex_range XXH3_64bits key n Hn) as (i' & Hi' & Hlt).
    rewrite Hr in Hi'. injection Hi' as <-. rewrite list_lookup_fmap, lookup_seq_lt by done. cbn.
    assert (H : key ∈ keys_of XXH3_64bits (args cmd) n i) by by apply list_elem_of_filter.
    destruct (keys_of XXH3_64bits (args cmd) n i) as [|k ks]; [by apply elem_of_nil in H|by exists k, ks].
Qed.

Lemma meets_del_groups groups count calls :
  ctype cmd = CDel -> length groups = n -> 0 <= count -> count + count_keys groups <= i64_max ->
  (forall d ks, groups !! d = Some ks -> ks <> [] -> ks = keys_of XXH3_64bits (args cmd) n d) ->
  count = deleted calls -> NoDup (k_shard <$> calls) ->
  (forall i, i ∈ k_shard <$> calls -> groups !! i = Some []) ->
  (forall i, i ∈ k_shard <$> calls \/ (exists k ks, groups !! i = Some (k :: ks))
     <-> exists key, key ∈ args cmd /\ getShardIndex XXH3_64bits key n = Ok i) ->
  meets replies calls (d ← del_shards groups 0 count; mret (RespInt kInteger d)).
Proof.
  intros Ht Hl Hc Hb Hg -> Hnd Hem Hvis.
  eapply meets_bind; [apply (meets_del_shards groups 0); auto; cbn; lia|].
  intros calls' count (new & -> & Hv & -> & Hd). rewrite <- deleted_app. apply del_replies; [done| | |].
  - rewrite deleted_app. lia.
  - rewrite fmap_app, Hv. apply NoDup_app. split; [done|]. split; [|apply busy_from_NoDup].
    intros i Hi (d & k & ks & -> & Hk)%busy_from_elem. apply Hem in Hi. cbn in Hi. congruence.
  - intros i. rewrite fmap_app, Hv, elem_of_app, <- Hvis, busy_from_elem. f_equiv. cbn. split.
    + intros (d & k & ks & -> & Hk). by exists k, ks.
    + intros (k & ks & Hk). by exists i, k, ks.
Qed.

Lemma meets_multi_del p l :
  ctype cmd = CDel -> size p = n -> (0 < n)%nat -> zlen (args cmd) <= i64_max ->
  (forall i, l = Some i -> i = h /\ (i < n)%nat) ->
  meets replies [] (execute_multi_del XXH3_64bits p cmd l).
Proof.
  intros Ht Hp Hn Hz Hl. unfold execute_multi_del. rewrite Hp.
  destruct (group_keys_new XXH3_64bits (args cmd) n Hn) as (groups & -> & Hc & Hg). cbn [lift mbind task_bind].
  assert (Hlg : length groups = n) by (rewrite Hg; by rewrite length_fmap, length_seq).
  assert (Hof : forall d ks, groups !! d = Some ks -> ks = keys_of XXH3_64bits (args cmd) n d).
  { intros d ks. rewrite Hg. by intros (x & -> & [-> _]%lookup_seq)%list_lookup_fmap_Some. }
  assert (Hvis : forall i, (exists k ks, groups !! i = Some (k :: ks))
     <-> exists key, key ∈ args cmd /\ getShardIndex XXH3_64bits key n = Ok i).
  { intros i. rewrite Hg. by apply keys_visited. }
  assert (Haway : meets replies [] (d ← del_shards groups 0 0; mret (RespInt kInteger d))).
  { apply meets_del_groups; [done|done|done|lia|auto|done|constructor|by intros ? ?%elem_of_nil|].
    intros i. rewrite <- Hvis. split; [intros [?%elem_of_nil|?]; done|by right]. }
  clear Hg. destruct l as [i|]; [|exact Haway]. destruct (Hl i eq_refl) as [-> Hh].
  destruct (lookup_lt_is_Some_2 groups h) as [ks Hks]; [lia|]. rewrite Hks.
  destruct ks as [|k ks]; [exact Haway|]. clear Haway. cbn [of_option lift mbind task_bind].
  pose proof (count_keys_emptied groups h _ Hks) as He. pose proof (count_keys_nonneg (<[h := []]> groups)).
  apply (meets_bind (fun new r => k_shard <$> new = [h] /\ 0 <= deleted new <= zlen (k :: ks)
    /\ r = (deleted new, <[h := []]> groups))).
  { apply (meets_bind (fun new d => k_shard <$> new = [h] /\ 0 <= deleted new <= zlen (k :: ks) /\ d = deleted new)).
    - apply (meets_on_shard _ _ true); [congruence..|done|done|]. intros c s Hs _.
      destruct (del_call h (k :: ks) c s Hs Ht (Hof _ _ Hks)) as (s' & H1 & H2 & H3 & H4); [lia|].
      by eexists _, s'.
    - intros new d (Hv & Hd & ->).
      assert (Hadd : add_i64 0 (deleted new) = Ok (deleted new)).
      { apply checked_Ok. unfold i64_min, i64_max in *. lia. }
      by rewrite Hadd. }
  intros new r (Hv & Hd & ->). apply meets_del_groups; [done|by rewrite length_insert|lia|lia| |done| | |].
  - intros d ks' Hd' Hne. apply list_lookup_insert_Some in Hd' as [(_ & <- & _)|[_ Hd']]; [done|by apply Hof].
  - rewrite Hv. apply NoDup_singleton.
  - intros i. rewrite Hv, list_elem_of_singleton. intros ->. apply list_lookup_insert_eq. lia.
  - intros i. rewrite Hv, list_elem_of_singleton, <- Hvis. destruct (decide (i = h)) as [->|Hne].
    + split; [intros _; by exists k, ks|by left].
    + rewrite list_lookup_insert_ne by done. split; [by intros [?|?]|by right].
Qed.

Lemma meets_single_del (b : bool) :
  ctype cmd = CDel -> n = 1%nat -> valid_command cmd = true -> zlen (args cmd) <= i64_max ->
  (b = true -> 0%nat = h) ->
  meets replies [] (d ← on_shard b 0 (processDelKeys (args cmd)); mret (RespInt kInteger d)).
Proof.
  intros Ht Hn Hv Hz Hb.
  assert (Hall : forall key, getShardIndex XXH3_64bits key n = Ok 0%nat) by (intros key; by rewrite Hn).
  eapply (meets_bind (fun calls d => k_shard <$> calls = [0%nat] /\ 0 <= deleted calls <= zlen (args cmd)
    /\ d = deleted calls)).
  - apply meets_on_shard; [congruence..|lia|done|]. intros c s Hs _.
    destruct (del_call 0 (args cmd) c s Hs Ht) as (s' & H1 & H2 & H3 & H4); [|done|by eexists _, s'].
    unfold keys_of. symmetry. apply filter_keep_all. auto.
  - intros calls d (Hk & Hd & ->). apply del_replies; [done|lia|rewrite Hk; apply NoDup_singleton|].
    intros i. rewrite Hk, list_elem_of_singleton. pose proof (valid_args cmd Hv) as Ha. rewrite Ht in Ha.
    destruct Ha as (k & ks & ->). split; [intros ->; exists k; split; [left|done]|].
    intros (key & _ & Hi). rewrite Hall in Hi. by injection Hi.
Qed.

(** ** The other commands *)

Lemma meets_info_loop todo i sums calls :
  ctype cmd = CInfo -> (i + todo <= n)%nat ->
  meets (fun calls' sums' => exists new, calls' = calls ++ new /\ k_shard <$> new = seq i todo
      /\ sums' = foldl add_stats sums (cache_stats ∘ k_before <$> new)) calls (info_loop todo i sums).
Proof.
  intros Ht. revert i sums calls. induction todo as [|todo IH]; intros i sums calls Hi.
  - exists []. by rewrite app_nil_r.
  - cbn [info_loop]. apply (meets_bind (fun calls' st => exists c cache,
      calls' = calls ++ [mkCall cmd i c cache] /\ st = cache_stats cache)).
    + apply (meets_on_shard _ _ false); [congruence..|lia|done|]. intros c s Hs _. eexists _, s. split; [reflexivity|].
      split; [done|]. split; [unfold spec_command; by rewrite Ht|]. exists c, (abs s).
      split; [done|]. apply get_stats_abs, Hs.
    + intros ? ? (c & cache & -> & ->). eapply meets_weaken; [apply IH; lia|].
      intros ? ? (new & -> & Hv & ->). exists (mkCall cmd i c cache :: new).
      rewrite <- app_assoc. cbn. by rewrite Hv.
Qed.

Lemma meets_info p :
  ctype cmd = CInfo -> size p = n -> meets replies [] (processInfoCommand cmd (size p)).
Proof.
  intros Ht ->. unfold processInfoCommand. fold (info_section cmd).
  assert (Hr : forall calls r, (if decide (info_section cmd ∈ info_sections)
      then k_shard <$> calls = seq 0 n /\ r = RespString kBulkString
             (info_text (foldl add_stats (mkStats 0 0 0 0 0) (cache_stats ∘ k_before <$> calls)))
      else calls = [] /\ r = error_reply #"ERR unsupported INFO section") ->
    wf_value r = true -> replies calls r).
  { intros calls r H Hwf. split; [|done]. unfold reply_of. by rewrite Ht. }
  destruct (decide (info_section cmd ∈ info_sections)) as [Hin|Hin]; [|by apply Hr].
  eapply meets_bind; [by apply (meets_info_loop n 0)|].
  intros calls sums (new & -> & Hv & ->). by apply Hr.
Qed.

Lemma execute_meets self p :
  size p = n -> (h < n)%nat -> valid_command cmd = true ->
  meets replies [] (execute XXH3_64bits self p cmd (Some h)).
Proof.
  intros Hp Hh Hv. assert (Hhome : home_ok p (Some h)) by (intros i [= <-]; lia).
  destruct (one_key (ctype cmd)) eqn:Hkey.
  { pose proof (execute_single_call self p cmd Hp Hh Hv Hkey) as Hc.
    destruct (execute XXH3_64bits self p cmd (Some h)) as [r|f|how i B fn k]; [done..|].
    destruct Hc as (key & Hk & Hi & Hin & Hl & Hf). split; [done|]. split; [done|]. intros c s Hs Hd.
    pose proof (shard_ok_process cmd i key c s Hs Hv Hkey Hk Hi Hd) as H. specialize (Hf c s).
    destruct (overflows cmd c (abs s)).
    { rewrite H in Hf. cbn [mbind res_bind] in Hf. by destruct (fn c s) as [[b s']|f]; [|injection Hf as ->]. }
    destruct H as (r & s' & H1 & H2 & H3 & H4). rewrite H1 in Hf. apply bind_Ok in Hf as ([b s2] & Hfn & Hb).
    injection Hb as Hb ->. exists b, s'. rewrite Hb, <- H4. split; [done|]. split; [done|]. split; [done|].
    split; [|done]. unfold reply_of. destruct (ctype cmd); try done;
      exists key, i, c, (abs s); by rewrite <- H4. }
  assert (Hz : ctype cmd = CDel -> zlen (args cmd) <= i64_max).
  { intros Ht. unfold valid_command in Hv. rewrite Ht in Hv. cbn in Hv.
    apply andb_true_iff in Hv as [_ Hv%Z.leb_le]. unfold i64_max. lia. }
  assert (Hpure : on_pure (ctype cmd) = true -> exists r, replies [] r /\
    match ctype cmd with
    | CPing => processPingCommand cmd = Ok r | CCommand => processCommandCommand cmd = r
    | CConfig => processConfigCommand cmd = Ok r | _ => False end).
  { intros Ht. destruct (pure_reply cmd Hv Ht) as (r & Hr & Hwf). exists r. split; [|done].
    split; [|done]. unfold reply_of. by destruct (ctype cmd). }
  assert (Hu : ctype cmd <> CUnknown) by (intros Ht; unfold valid_command in Hv; by rewrite Ht in Hv).
  rewrite !execute_eq. destruct (decide (size p = 1%nat)) as [H1|H1].
  - unfold execute_single_shard.
    destruct (usable_home_single self p (Some h) H1 Hhome) as (b & -> & Hb). cbn [lift mbind task_bind].
    destruct (ctype cmd) eqn:Ht; try done;
      try (destruct (Hpure eq_refl) as (r & Hwf & Hr); rewrite Hr; exact Hwf).
    + apply meets_single_del; [done|lia|done|auto|lia].
    + by apply meets_info.
  - unfold execute_multi_shard.
    destruct (usable_home_spec self p (Some h) Hhome) as (l & El & Hl). rewrite El. cbn [lift mbind task_bind].
    destruct (ctype cmd) eqn:Ht; try done;
      try (destruct (Hpure eq_refl) as (r & Hwf & Hr); rewrite Hr; exact Hwf).
    + apply meets_multi_del; [done|done|lia|auto|]. intros x ->.
      split; [by eapply usable_home_home|]. specialize (Hl x eq_refl). lia.
    + by apply meets_info.
Qed.

End Meets.
End Calls.
