(* ===== verification/CallBound.v ===== *)
(** * How many calls a command makes

    No command calls a shard twice, so the calls of its coroutine are at most
    as many as the shards, whatever they return. *)

From S2P Require Import Prelude RespValue Command LruShard ShardPool CommandExecutor ExecutorRefine.

(** ** The calls of a coroutine *)

(** At most [d] calls, whatever they return. *)
Fixpoint calls_within {A} (d : nat) (t : Task A) {struct t} : Prop :=
  match t with
  | TCall _ _ _ k => match d with O => False | S d => forall b, calls_within d (k b) end
  | _ => True
  end.

Lemma calls_within_mono {A} d d' (t : Task A) : calls_within d t -> (d <= d')%nat -> calls_within d' t.
Proof.
  revert d d'. induction t as [a|f|how i B fn k IH]; intros [|d] [|d'] H Hd; cbn in *; try done; [lia|].
  intros b. apply (IH b d); [apply H|lia].
Qed.

Lemma calls_within_bind {A B} d d' (t : Task A) (k : A -> Task B) :
  calls_within d t -> (forall a, calls_within d' (k a)) -> calls_within (d + d') (t ≫= k).
Proof.
  intros Ht Hk. revert d Ht. induction t as [a|f|how i C fn k' IH]; intros d Ht.
  - apply (calls_within_mono d'); [apply Hk|lia].
  - exact I.
  - destruct d as [|d]; [done|]. intros b. apply IH, Ht.
Qed.

Lemma calls_within_lift {A B} d (r : res A) (k : A -> Task B) :
  (forall a, r = Ok a -> calls_within d (k a)) -> calls_within d (lift r ≫= k).
Proof. intros Hk. destruct r as [a|f]; [by apply Hk|done]. Qed.

Lemma calls_within_ret {A} d (r : res A) : calls_within d (lift r).
Proof. by destruct r. Qed.

Lemma calls_within_on_shard {B} d (local : bool) i (fn : Clock -> LruShard -> res (B * LruShard)) :
  calls_within (S d) (on_shard local i fn).
Proof. by destruct local. Qed.

Lemma calls_within_run {B} d i (fn : Clock -> LruShard -> res (B * LruShard)) :
  calls_within (S d) (run_on_shard i fn).
Proof. done. Qed.

Create HintDb task_calls.
#[export] Hint Resolve calls_within_ret calls_within_on_shard calls_within_run : task_calls.

(** ** The calls of a command *)

(** Groups of keys that need a call. *)
Fixpoint busy (groups : list (list bytes)) : nat :=
  match groups with [] => 0 | [] :: groups => busy groups | _ :: groups => S (busy groups) end.

Lemma busy_bound groups : (busy groups <= length groups)%nat.
Proof. induction groups as [|[|k g] groups IH]; cbn; lia. Qed.

Lemma busy_emptied groups h k ks :
  groups !! h = Some (k :: ks) -> S (busy (<[h := []]> groups)) = busy groups.
Proof.
  revert h. induction groups as [|g groups IH]; intros [|h] H; cbn in *; simplify_eq; [done|].
  destruct g; [|f_equal]; by apply IH.
Qed.

Lemma del_shards_calls groups i count : calls_within (busy groups) (del_shards groups i count).
Proof.
  revert i count. induction groups as [|[|k g] groups IH]; intros i count; [done|apply IH|].
  apply (calls_within_bind 1 (busy groups)); [|intros; apply IH].
  apply (calls_within_bind 1 0); auto with task_calls.
Qed.

Section Calls.
Variable XXH3_64bits : bytes -> N.

Lemma multi_del_calls p cmd l :
  (0 < size p)%nat -> calls_within (size p) (execute_multi_del XXH3_64bits p cmd l).
Proof.
  intros Hn. unfold execute_multi_del. apply calls_within_lift. intros groups Hg.
  destruct (group_keys_new XXH3_64bits (args cmd) (size p) Hn) as (groups' & H & _ & Hl).
  rewrite Hg in H. injection H as <-.
  assert (Hlen : length groups = size p) by (rewrite Hl; by rewrite length_fmap, length_seq).
  pose proof (busy_bound groups). assert (Hrest : forall groups count,
    calls_within (busy groups) (d ← del_shards groups 0 count; mret (RespInt kInteger d))).
  { intros g c. rewrite <- (Nat.add_0_r (busy g)). apply calls_within_bind; [apply del_shards_calls|done]. }
  apply (calls_within_mono (busy groups)); [|lia]. destruct l as [h|]; [|apply Hrest].
  destruct (groups !! h) as [[|k ks]|] eqn:Hks; [apply Hrest| |exact I].
  rewrite <- (busy_emptied groups h k ks Hks). intros b. cbn -[del_shards busy].
  destruct (add_i64 0 b); [apply Hrest|exact I].
Qed.

Lemma info_calls cmd n : calls_within n (processInfoCommand cmd n).
Proof.
  unfold processInfoCommand. case_decide; [|exact I].
  apply (calls_within_mono (n + 0)); [|lia]. apply calls_within_bind; [|done].
  assert (Hloop : forall todo i sums, calls_within todo (info_loop todo i sums)).
  { intros todo. induction todo as [|todo IH]; intros i sums; [done|].
    apply (calls_within_bind 1 todo); [apply (calls_within_on_shard 0 false)|intros; apply IH]. }
  apply Hloop.
Qed.

(** No command makes more calls than there are shards. *)
Lemma execute_calls self p cmd home :
  (0 < size p)%nat -> calls_within (size p) (execute XXH3_64bits self p cmd home).
Proof.
  intros Hn. assert (H1 : forall t : Task RespValue, calls_within 1 t -> calls_within (size p) t).
  { intros t Ht. apply (calls_within_mono 1); [done|lia]. }
  assert (Hkey : forall l fn, calls_within (size p) (on_key_shard XXH3_64bits p l cmd fn)).
  { intros l fn. unfold on_key_shard. repeat (apply calls_within_lift; intros).
    apply H1. auto with task_calls. }
  rewrite !execute_eq. case_decide.
  - unfold execute_single_shard. apply calls_within_lift. intros b _.
    destruct (ctype cmd); try exact I; try (apply H1; auto with task_calls; fail); try apply info_calls;
      auto with task_calls.
    apply H1, (calls_within_bind 1 0); [auto with task_calls|by intros].
  - unfold execute_multi_shard. apply calls_within_lift. intros l _.
    destruct (ctype cmd); try exact I; try apply Hkey; try apply info_calls; auto with task_calls.
    by apply multi_del_calls.
Qed.
End Calls.
