(* ===== verification/Connection.v ===== *)
(** * A connection, turn by turn

    [Session::run], [read] and [write] of [src/session.cpp] as the state machine
    that a coroutine is: what runs between two suspensions is a turn, and the
    phase is where the coroutine is suspended.  [Session] has the same code as
    one function, for a session on its own; here a connection can be
    interleaved with others, a write can fail, and the trail - what has been
    received and exchanged so far - is recorded, for the theorems only. *)

From S2P Require Import Prelude RespValue RespParser Command LruSpec Calls Session.
From S2P Require Import RespReader RespGrammar RespSerializer.

(** What follows a write: the inner loop goes on, or [run] returns. *)
Inductive Resume := Continue | Close.

(** Where the coroutine is: about to look at the buffer, or suspended in
    [execute], in [async_read_some], in [async_write], or at its end. *)
Inductive Phase :=
  | Parsing
  | Executing
  | Reading
  | Writing (message : bytes) (next : Resume)
  | Closed.

(** ** The turns *)

(** A turn ends in the read, in a write - the value being the request that
    is answered, if any -, or in [execute]. *)
Inductive Turn :=
  | TurnRead (s : Session)
  | TurnWrite (s : Session) (message : bytes) (next : Resume) (value : option RespValue)
  | TurnExecute (s : Session) (value : RespValue) (command : Command).

(** [read] up to its suspension. *)
Definition start_read (s : Session) : res Turn :=
  if max_message_size_ s <=? zlen (buffer_ s) then
    message ← serialize request_too_large; mret (TurnWrite s message Close None)
  else mret (TurnRead s).

Definition available_capacity (s : Session) : Z := max_message_size_ s - zlen (buffer_ s).

(** One turn of the inner loop, and what follows the loop. *)
Definition session_turn (s : Session) : res Turn :=
  if decide (buffer_ s = []) then start_read s else
  '(parsing_result, buffer, value) ← parse (buffer_ s) defaultRespValue;
  let s := mkSession buffer (max_message_size_ s) in
  match parsing_result with
  | kNeedMoreData => start_read s
  | kReady =>
      command ← toCommand value;
      match command with
      | None => message ← serialize invalid_command; mret (TurnWrite s message Continue (Some value))
      | Some command => mret (TurnExecute s value command)
      end
  | _ => message ← serialize malformed_request; mret (TurnWrite s message Close None)
  end.

(** [read] after its suspension; [ec] is the error of the read, if any. *)
Inductive ReadError := EndOfFile | OtherError.
Definition finish_read (ec : option ReadError) (data : bytes) (s : Session) : ReadResult * Session :=
  match ec with
  | Some EndOfFile => (kCloseConnection, s)
  | Some OtherError => (kReadError, s)
  | None => (kNewMessage, mkSession (buffer_ s ++ data) (max_message_size_ s))
  end.

Definition after_read (r : ReadResult) : Phase :=
  match r with kNewMessage => Parsing | _ => Closed end.

(** [write] after its suspension: errors are logged, and [run] goes on. *)
Definition after_write (next : Resume) : Phase :=
  match next with Continue => Parsing | Close => Closed end.

(** ** The trail *)

(** A request, the calls its command made, and the reply. *)
Record Exchange := mkExchange { ex_value : RespValue; ex_calls : list Call; ex_message : bytes }.

(** [current]: the request being executed and its calls so far; [farewell]: the
    message that closes the connection; [sent]: the bytes the socket took;
    [failed]: whether a write failed. *)
Record Trail := mkTrail {
  received : bytes;
  exchanges : list Exchange;
  current : option (RespValue * list Call);
  farewell : option bytes;
  sent : bytes;
  failed : bool }.

Record Conn := mkConn { session : Session; phase : Phase; trail : Trail }.

Definition newConn (max_message_size : Z) : Conn :=
  mkConn (newSession max_message_size) Parsing (mkTrail [] [] None None [] false).

Definition add_exchange (v : RespValue) (calls : list Call) (message : bytes) (t : Trail) : Trail :=
  mkTrail (received t) (exchanges t ++ [mkExchange v calls message]) None (farewell t) (sent t) (failed t).
Definition set_current (v : RespValue) (calls : list Call) (t : Trail) : Trail :=
  mkTrail (received t) (exchanges t) (Some (v, calls)) (farewell t) (sent t) (failed t).
Definition set_farewell (message : bytes) (t : Trail) : Trail :=
  mkTrail (received t) (exchanges t) (current t) (Some message) (sent t) (failed t).
Definition add_received (d : bytes) (t : Trail) : Trail :=
  mkTrail (received t ++ d) (exchanges t) (current t) (farewell t) (sent t) (failed t).
Definition add_sent (d : bytes) (ok : bool) (t : Trail) : Trail :=
  mkTrail (received t) (exchanges t) (current t) (farewell t) (sent t ++ d) (failed t || negb ok).

(** ** The steps of a connection *)

(** After a turn: the connection, and the command to execute. *)
Definition turned (c : Conn) (turn : Turn) : Conn * option Command :=
  match turn with
  | TurnRead s => (mkConn s Reading (trail c), None)
  | TurnWrite s message next value =>
      (mkConn s (Writing message next)
         match value with
         | Some v => add_exchange v [] message (trail c)
         | None => set_farewell message (trail c)
         end, None)
  | TurnExecute s value command => (mkConn s Executing (set_current value [] (trail c)), Some command)
  end.

Definition called (k : Call) (c : Conn) : Conn :=
  match current (trail c) with
  | Some (v, calls) => mkConn (session c) (phase c) (set_current v (calls ++ [k]) (trail c))
  | None => c
  end.

(** [execute] has returned. *)
Definition answered (response : RespValue) (c : Conn) : res Conn :=
  message ← serialize response;
  mret (mkConn (session c) (Writing message Continue)
          match current (trail c) with
          | Some (v, calls) => add_exchange v calls message (trail c)
          | None => trail c
          end).

(** The socket has taken [n] bytes of the message, all of it when [ok]. *)
Definition written (message : bytes) (next : Resume) (ok : bool) (n : nat) (c : Conn) : Conn :=
  mkConn (session c) (after_write next) (add_sent (take n message) ok (trail c)).

Definition arrived (ec : option ReadError) (data : bytes) (c : Conn) : Conn :=
  let '(r, s) := finish_read ec data (session c) in
  mkConn s (after_read r) (add_received data (trail c)).
