(* ===== verification/System.v ===== *)
(** * The running server: sessions and workers interleaved

    The whole program at work, between [start] and [stop], as a step relation:
    the listener adds sessions, and every worker thread runs
    the sessions at home on its shard, the calls that other sessions make on
    its shard, and its cleaning loop, one handler at a time.  A step is one of
    these; sessions interleave at their calls.  An event records the thread
    that runs the step and the shard it touches. *)

From S2P Require Import Prelude RespValue Command StdText LruShard LruSpec LruInv LruRefine.
From S2P Require Import LruTheorems ShardPool CommandExecutor ExecutorSpec PoolSpec ExecutorRefine.
From S2P Require Import PoolService Calls.

(** A session: its home shard, and the command it executes, if any, with
    what is left of the coroutine. *)
Record Client := mkClient { c_home : nat; c_running : option (Command * Task RespValue) }.

Record System := mkSystem { pool : ShardPool; clients : list Client }.

Inductive Event :=
  | EAccept (home : nat)
  | EStart (j : nat) (cmd : Command)
  | ECall (j : nat) (thread : Tid) (i : nat) (c : Clock)
  | EReply (j : nat) (r : RespValue)
  | EFault (j : nat)
  | EClean (thread : Tid) (i : nat) (now : TimePoint).

(** The thread of worker [i]. *)
Definition thread_of (p : ShardPool) (i : nat) (tid : Tid) : Prop :=
  threads p !! i = Some (Some tid).

Definition set_client (j : nat) (c : option (Command * Task RespValue)) (l : list Client) :=
  alter (fun cl => mkClient (c_home cl) c) j l.

(** The thread that runs a call: the session's own, or the shard's. *)
Definition call_thread (p : ShardPool) (home : nat) (how : Access) (i : nat) (tid : Tid) : Prop :=
  match how with Local => thread_of p home tid | Remote => thread_of p i tid end.

Section System.
Variable XXH3_64bits : bytes -> N.
Abbreviation shard_ok := (shard_ok XXH3_64bits).
Abbreviation single_call := (single_call XXH3_64bits).

Inductive step (st : System) : Event -> res System -> Prop :=
  | step_accept home :
      (home < size (pool st))%nat ->
      step st (EAccept home) (Ok (mkSystem (pool st) (clients st ++ [mkClient home None])))
  | step_start j home cmd self :
      clients st !! j = Some (mkClient home None) -> thread_of (pool st) home self ->
      valid_command cmd = true ->
      step st (EStart j cmd)
        (Ok (mkSystem (pool st)
               (set_client j (Some (cmd, execute XXH3_64bits self (pool st) cmd (Some home)))
                  (clients st))))
  | step_call j home cmd how i B (fn : Clock -> LruShard -> res (B * LruShard)) k self tid c :
      clients st !! j = Some (mkClient home (Some (cmd, TCall how i fn k))) ->
      thread_of (pool st) home self -> call_thread (pool st) home how i tid ->
      step st (ECall j tid i c)
        (s ← reach self how i (pool st);
         '(b, s') ← fn c s;
         mret (mkSystem (put_shard i s' (pool st)) (set_client j (Some (cmd, k b)) (clients st))))
  | step_reply j home cmd r :
      clients st !! j = Some (mkClient home (Some (cmd, TRet r))) ->
      step st (EReply j r) (Ok (mkSystem (pool st) (set_client j None (clients st))))
  | step_fault j home cmd f :
      clients st !! j = Some (mkClient home (Some (cmd, TFault f))) ->
      step st (EFault j) (Fault f)
  | step_clean i tid now s :
      thread_of (pool st) i tid -> shards (pool st) !! i = Some s ->
      step st (EClean tid i now)
        (s' ← remove_expired_keys now s; mret (mkSystem (put_shard i s' (pool st)) (clients st))).

(** What the environment owes a call ([command_defined]); [m] is the budget of
    every shard. *)
Definition event_defined (m : Z) (st : System) (ev : Event) : Prop :=
  match ev with
  | ECall j _ _ c => forall home cmd t,
      clients st !! j = Some (mkClient home (Some (cmd, t))) -> command_defined m cmd c
  | _ => True
  end.

(** The call of a command whose deadline overflows on what the shard holds. *)
Definition event_overflows (st : System) (ev : Event) : bool :=
  match ev with
  | ECall j _ i c =>
      match clients st !! j, shards (pool st) !! i with
      | Some (mkClient _ (Some (cmd, _))), Some s => overflows cmd c (abs s)
      | _, _ => false
      end
  | _ => false
  end.

Inductive reachable (m : Z) (st0 : System) : System -> Prop :=
  | reach_refl : reachable m st0 st0
  | reach_step st ev st' :
      reachable m st0 st -> event_defined m st ev -> step st ev (Ok st') -> reachable m st0 st'.

(** ** Safe coroutines *)

Section Safe.
Variables (n h : nat) (m : Z) (cmd : Command).

(** A coroutine that faults only when the deadline of its command overflows,
    calls shards of the pool only - in place only the one of its home -, keeps
    them in order, and ends with [post]. *)
Fixpoint safe {A} (post : A -> Prop) (t : Task A) : Prop :=
  match t with
  | TRet a => post a
  | TFault _ => False
  | TCall how i fn k =>
      (i < n)%nat /\ (how = Local -> i = h)
      /\ forall c s, shard_ok n m i s -> command_defined m cmd c ->
           if overflows cmd c (abs s) then fn c s = Fault SignedOverflow
           else exists b s', fn c s = Ok (b, s') /\ shard_ok n m i s' /\ safe post (k b)
  end.

(** A coroutine that does what its command means is safe. *)
Lemma meets_safe {A} (post : list Call -> A -> Prop) (Q : A -> Prop) calls t :
  meets XXH3_64bits n h m cmd post calls t -> (forall calls a, post calls a -> Q a) -> safe Q t.
Proof.
  intros Ht HQ. revert calls Ht. induction t as [a|f|how i C fn k IH]; intros calls Ht; cbn in *; [by eapply HQ|done|].
  destruct Ht as (Hi & Hl & Hc). split; [done|]. split; [done|]. intros c s Hs Hd.
  specialize (Hc c s Hs Hd). destruct (overflows cmd c (abs s)); [done|].
  destruct Hc as (b & s' & ? & ? & ? & ?). exists b, s'. eauto.
Qed.

Lemma execute_safe self p :
  size p = n -> (h < n)%nat -> valid_command cmd = true ->
  safe (fun r => wf_value r = true) (execute XXH3_64bits self p cmd (Some h)).
Proof.
  intros Hp Hh Hv. eapply meets_safe; [by apply execute_meets|by intros ? ? [_ ?]].
Qed.
End Safe.

(** ** The invariant *)

Definition running_ok (n h : nat) (m : Z) (r : option (Command * Task RespValue)) : Prop :=
  match r with
  | None => True
  | Some (cmd, t) =>
      valid_command cmd = true
      /\ safe n h m cmd (fun r => wf_value r = true) t
      /\ (one_key (ctype cmd) = true -> (exists r, t = TRet r) \/ single_call n h cmd t)
  end.

Record sys_ok (m : Z) (st : System) : Prop := {
  sk_size : (0 < size (pool st))%nat;
  sk_shards : forall i s, shards (pool st) !! i = Some s -> shard_ok (size (pool st)) m i s;
  sk_clients : forall j home r, clients st !! j = Some (mkClient home r) ->
    (home < size (pool st))%nat /\ running_ok (size (pool st)) home m r }.

Lemma sys_ok_client m st j home r r' :
  sys_ok m st -> clients st !! j = Some (mkClient home r) ->
  running_ok (size (pool st)) home m r' ->
  sys_ok m (mkSystem (pool st) (set_client j r' (clients st))).
Proof.
  intros [Hn Hs Hc] Hj Hr. split; [done|done|]. cbn. intros j' home' r0 Hj'. unfold set_client in Hj'.
  destruct (decide (j' = j)) as [->|Hne].
  - rewrite list_lookup_alter_eq, Hj in Hj'. cbn in Hj'. injection Hj' as <- <-.
    split; [by eapply Hc|done].
  - rewrite list_lookup_alter_ne in Hj' by done. by eapply Hc.
Qed.

Lemma sys_ok_put m st i s :
  sys_ok m st -> shard_ok (size (pool st)) m i s ->
  sys_ok m (mkSystem (put_shard i s (pool st)) (clients st)).
Proof.
  intros [Hn Hs Hc] Hi. split; cbn [pool clients]; rewrite put_shard_size; [done| |done].
  intros j s' Hj. rewrite put_shard_shards in Hj.
  apply list_lookup_insert_Some in Hj as [(-> & <- & _)|[_ Hj]]; [done|by apply Hs].
Qed.

Lemma shard_ok_purge n m i now s :
  shard_ok n m i s -> exists s', remove_expired_keys now s = Ok s' /\ shard_ok n m i s'.
Proof.
  intros [I Hm Hp]. destruct (purge_refines now s I) as (s' & H & I' & A'). exists s'. split; [done|].
  split; [done| |].
  - change (max_memory_bytes_ s') with (budget (abs s')). by rewrite A'.
  - intros e He. change (abs_entries s') with (entries (abs s')) in He. rewrite A' in He.
    apply list_elem_of_filter in He as [_ He]. by apply Hp.
Qed.

Lemma thread_of_self p i tid : thread_of p i tid -> is_on_shard_thread tid p i = Ok true.
Proof.
  unfold thread_of, threads, is_on_shard_thread, worker_at. rewrite list_lookup_fmap.
  destruct (workers_ p !! i) as [w|]; cbn; [|done]. intros [= H]. rewrite H.
  by rewrite bool_decide_true.
Qed.

(** One step of the server: the overflow of a deadline, or no fault and
    everything is in order again. *)
Lemma step_ok m st ev r :
  sys_ok m st -> event_defined m st ev -> step st ev r ->
  if event_overflows st ev then r = Fault SignedOverflow
  else exists st', r = Ok st' /\ sys_ok m st' /\ same_pool (pool st) (pool st').
Proof.
  intros Hok Hd Hst. destruct Hst as [home Hh|j home cmd self Hj Hself Hv
    |j home cmd how i B fn k self tid c Hj Hself Htid|j home cmd rep Hj|j home cmd f Hj|i tid now s Htid Hs].
  - eexists. split; [done|]. split; [|done]. destruct Hok as [Hn Hs Hc]. split; [done|done|].
    cbn [pool clients]. intros j home' r [Hj|[_ Hj]]%lookup_app_Some; [by eapply Hc|].
    apply list_lookup_singleton_Some in Hj as [_ [= <- <-]]. done.
  - eexists. split; [done|]. split; [|done]. eapply sys_ok_client; [done..|].
    destruct (sk_clients _ _ Hok j home _ Hj) as [Hh _]. split; [done|]. split.
    + by apply execute_safe.
    + intros Hk. right. by apply execute_single_call.
  - destruct (sk_clients _ _ Hok j home _ Hj) as [Hh (Hv & Hsafe & Hone)].
    cbn in Hsafe. destruct Hsafe as (Hi & Hl & Hc).
    destruct (shard_exists (pool st) i Hi) as [s Hs].
    specialize (Hc c s (sk_shards _ _ Hok i s Hs) (Hd _ _ _ Hj)).
    rewrite (reach_Ok self how i (pool st) s Hs) by (intros E; rewrite (Hl E); by apply thread_of_self).
    cbn [mbind res_bind event_overflows]. rewrite Hj, Hs. destruct (overflows cmd c (abs s)); [by rewrite Hc|].
    destruct Hc as (b & s' & Hf & Hs' & Hk). rewrite Hf. cbn [mbind res_bind]. eexists. split; [done|].
    split; [|apply same_pool_put].
    pose proof (sys_ok_put m st i s' Hok Hs') as Hok'.
    apply (sys_ok_client m _ j home (Some (cmd, TCall how i fn k))) with (r' := Some (cmd, k b)) in Hok'; [done|done|].
    cbn [pool]. rewrite put_shard_size. split; [done|]. split; [done|].
    intros Hkey. left. destruct (Hone Hkey) as [[r0 ?]|(key & _ & _ & _ & _ & Heq)]; [done|].
    specialize (Heq c s). rewrite Hf in Heq. symmetry in Heq.
    apply bind_Ok in Heq as ([r0 s2] & _ & Hr). injection Hr as Hr _. by exists r0.
  - eexists. split; [done|]. split; [|done]. by eapply sys_ok_client.
  - destruct (sk_clients _ _ Hok j home _ Hj) as [_ (_ & Hsafe & _)]. done.
  - destruct (shard_ok_purge _ _ _ now s (sk_shards _ _ Hok i s Hs)) as (s' & -> & Hs').
    eexists. split; [done|]. split; [by apply sys_ok_put|apply same_pool_put].
Qed.

Lemma step_ok_next m st ev st' :
  sys_ok m st -> event_defined m st ev -> step st ev (Ok st') ->
  event_overflows st ev = false /\ sys_ok m st' /\ same_pool (pool st) (pool st').
Proof.
  intros Hok Hd Hst. pose proof (step_ok m st ev _ Hok Hd Hst) as H.
  destruct (event_overflows st ev); [done|]. destruct H as (st2 & [= <-] & H). done.
Qed.

(** A call is run by the thread of the shard it is on. *)
Lemma call_on_own_thread m st j tid i c r :
  sys_ok m st -> step st (ECall j tid i c) r -> thread_of (pool st) i tid.
Proof.
  intros Hok Hst. inversion Hst as [| |? home cmd how ? B fn k self ? ? Hj Hself Htid| | |]; subst.
  destruct how; [|done]. destruct (sk_clients _ _ Hok j home _ Hj) as [_ (_ & (_ & Hl & _) & _)].
  by rewrite (Hl eq_refl).
Qed.
End System.
