(* ===== verification/SystemTheorems.v ===== *)
(** * What the running server guarantees

    In every interleaving of sessions, calls and cleaning loops: no fault, no
    two threads on one shard, the memory bound, keys in one place, and
    commands of one key that take effect at once. *)

From S2P Require Import Prelude RespValue Command StdText LruShard LruSpec LruInv LruRefine.
From S2P Require Import LruTheorems ShardPool CommandExecutor ExecutorSpec PoolSpec ExecutorRefine.
From S2P Require Import ExecutorTheorems Config Server Calls System.

(** The thread and the shard of an event that touches a shard. *)
Definition touches (ev : Event) : option (Tid * nat) :=
  match ev with
  | ECall _ tid i _ | EClean tid i _ => Some (tid, i)
  | _ => None
  end.

Lemma thread_of_same p p' i tid : same_pool p p' -> thread_of p' i tid <-> thread_of p i tid.
Proof. intros [_ H]. unfold thread_of. by rewrite H. Qed.

Lemma reachable_ok hash m st0 st :
  sys_ok hash m st0 -> reachable hash m st0 st -> sys_ok hash m st /\ same_pool (pool st0) (pool st).
Proof.
  intros Hok Hr. induction Hr as [|st ev st' Hr IH Hd Hst]; [done|]. destruct IH as [Hok1 Hs1].
  destruct (step_ok_next hash m st ev _ Hok1 Hd Hst) as (_ & Hok2 & Hs2).
  split; [done|by eapply same_pool_trans].
Qed.

(** ** A server that has started *)

Definition demo_worker (tid : Tid) : Worker := store_thread_id tid (spawn_thread (newWorker 10)).
Definition demo_system : System :=
  mkSystem (mkShardPool [demo_worker 1%positive; demo_worker 2%positive] false true false)
    [mkClient 0 None; mkClient 1 None].

Lemma demo_system_ok : sys_ok length_hash 10 demo_system.
Proof.
  split.
  - cbn. unfold size. cbn. lia.
  - intros i s Hs. assert (s = newShard 10) as ->.
    { destruct i as [|[|i]]; cbn in Hs; by simplify_eq. }
    split; [apply newShard_Inv; unfold two64; lia|done|]. by intros e ?%elem_of_nil.
  - intros j home r Hj. unfold size. cbn [pool demo_system workers_ length].
    destruct j as [|[|j]]; cbn in Hj; simplify_eq; (split; [lia|done]).
Qed.

(** The pool of a configured server once every worker has stored the identity
    of its thread, with the sessions the listener has created so far. *)
Definition store_ids (ids : list Tid) (p : ShardPool) : ShardPool :=
  mkShardPool (zip_with store_thread_id ids (workers_ p)) (thread_affinity_enabled_ p)
    (started_ p) (stopped_ p).

Definition started_system (ids : list Tid) (srv : Server) : System :=
  mkSystem (store_ids ids (shard_pool_ srv)) ((fun s => mkClient (fst s) None) <$> sessions srv).

(** Whatever the configuration and the outcome of the accepts, the server is
    in order when it starts to work. *)
Lemma started_ok hash l ecs ids :
  let srv := with_pool start (newServer (get_config l)) in
  zlen ecs < two64 -> length ids = size (shard_pool_ srv) ->
  exists srv', listener ecs srv = Ok srv'
    /\ size (pool (started_system ids srv')) = size (shard_pool_ srv)
    /\ sys_ok hash (max_memory_bytes_per_shard (get_config l)) (started_system ids srv').
Proof.
  intros srv Hz Hids. set (m := max_memory_bytes_per_shard (get_config l)).
  assert (Hm : 0 <= m < two64).
  { pose proof (clamp_range (value_or (lk_max_memory_bytes_per_shard l) 1024)) as H. cbn zeta in H.
    unfold m. cbn. unfold i64_max, two64 in *. lia. }
  assert (Hn : (0 < size (shard_pool_ srv))%nat).
  { cbn. unfold start, size. cbn. rewrite length_fmap, length_replicate. lia. }
  destruct (listener_spec ecs srv Hn) as (srv' & H & Hp & Hs); [done|cbn; lia|].
  exists srv'. split; [done|].
  assert (Hsize : size (pool (started_system ids srv')) = size (shard_pool_ srv)).
  { unfold started_system, store_ids. cbn [pool]. rewrite Hp. unfold size in *. cbn [workers_].
    rewrite length_zip_with, Hids. apply Nat.min_id. }
  split; [done|]. split; rewrite ?Hsize; [done| |].
  - intros i s Hi. assert (s = newShard m) as ->.
    { unfold shards, started_system, store_ids in Hi. cbn [pool workers_] in Hi. rewrite Hp in Hi.
      rewrite list_lookup_fmap, lookup_zip_with in Hi. destruct (ids !! i); cbn in Hi; [|done].
      unfold srv, with_pool, start, newServer, newShardPool in Hi. cbn in Hi.
      destruct ((spawn_thread <$> replicate _ _) !! i) as [w|] eqn:Hw; cbn in Hi; [|done].
      apply list_lookup_fmap_Some in Hw as (w0 & -> & Hw0). apply lookup_replicate_1 in Hw0 as [-> _].
      by injection Hi. }
    split; [by apply newShard_Inv|done|]. by intros e ?%elem_of_nil.
  - intros j home r Hj. unfold started_system in Hj. cbn [clients] in Hj.
    apply list_lookup_fmap_Some in Hj as ([h lim] & [= -> ->] & Hj). split; [|done].
    rewrite Hs in Hj. cbn [sessions srv with_pool newServer app] in Hj.
    apply list_lookup_fmap_Some in Hj as (h' & [= -> _] & Hj).
    pose proof (turn_homes_range (next_shard_ srv) (Z.of_nat (size (shard_pool_ srv))) ecs) as Hr.
    rewrite Nat2Z.id in Hr. apply (proj1 (Forall_lookup _ _) (Hr ltac:(lia)) j h' Hj).
Qed.

(** ** The theorems *)

(** No fault, no race: in any interleaving of any number of sessions with the
    cleaning loops, no step faults - no [assert], no dead iterator, no bad
    index - but a call of a command whose deadline overflows; and a shard is only ever touched by the thread of its own worker,
    so that two threads never touch the same shard. *)
Theorem system_safe hash m st0 st ev r :
  sys_ok hash m st0 -> reachable hash m st0 st -> event_defined m st ev -> step hash st ev r ->
  (if event_overflows st ev then r = Fault SignedOverflow else exists st', r = Ok st')
  /\ forall tid i, touches ev = Some (tid, i) -> thread_of (pool st0) i tid.
Proof.
  intros Hok Hr Hd Hst. destruct (reachable_ok hash m st0 st Hok Hr) as [Hok1 Hs1].
  split.
  { pose proof (step_ok hash m st ev r Hok1 Hd Hst) as H. destruct (event_overflows st ev); [done|].
    destruct H as (st' & -> & _). by exists st'. }
  intros tid i Ht. rewrite <- (thread_of_same _ _ i tid Hs1).
  destruct ev; cbn in Ht; simplify_eq; [by eapply call_on_own_thread|]. by inversion Hst.
Qed.

Lemma system_safe_witness :
  (exists st', Ok (mkSystem (put_shard 1 (newShard 10) (pool demo_system)) (clients demo_system)) = Ok st')
  /\ forall tid i, touches (EClean 2%positive 1 5) = Some (tid, i) -> thread_of (pool demo_system) i tid.
Proof.
  apply (system_safe length_hash 10 demo_system demo_system (EClean 2%positive 1 5)).
  - apply demo_system_ok.
  - apply reach_refl.
  - exact I.
  - apply (step_clean length_hash demo_system 1 2%positive 5 (newShard 10)); reflexivity.
Defined.

(** Memory and placement: in every reachable state each shard holds at most
    its budget of payload and counts it exactly, and a key is in at most one
    shard, the one it is routed to. *)
Theorem system_memory hash m st0 st :
  sys_ok hash m st0 -> reachable hash m st0 st ->
  (forall i s, shards (pool st) !! i = Some s ->
     used_payload_bytes_ s = total (abs_entries s) /\ total (abs_entries s) <= m)
  /\ (forall i i' s s' e e', shards (pool st) !! i = Some s -> shards (pool st) !! i' = Some s' ->
        e ∈ abs_entries s -> e' ∈ abs_entries s' -> e_key e = e_key e' -> i = i').
Proof.
  intros Hok Hr. destruct (reachable_ok hash m st0 st Hok Hr) as [Hok1 _]. split.
  - intros i s Hs. destruct (sk_shards _ _ _ Hok1 i s Hs) as [I Hm _].
    pose proof (inv_used _ I). pose proof (inv_bound _ I). split; [done|lia].
  - intros i i' s s' e e' Hs Hs' He He' Hk.
    pose proof (so_placed _ _ _ _ _ (sk_shards _ _ _ Hok1 i s Hs) e He) as H1.
    pose proof (so_placed _ _ _ _ _ (sk_shards _ _ _ Hok1 i' s' Hs') e' He') as H2.
    rewrite Hk, H2 in H1. by injection H1.
Qed.

Lemma system_memory_witness :
  (forall i s, shards (pool demo_system) !! i = Some s ->
     used_payload_bytes_ s = total (abs_entries s) /\ total (abs_entries s) <= 10)
  /\ (forall i i' s s' e e', shards (pool demo_system) !! i = Some s ->
        shards (pool demo_system) !! i' = Some s' ->
        e ∈ abs_entries s -> e' ∈ abs_entries s' -> e_key e = e_key e' -> i = i').
Proof. apply (system_memory length_hash 10 demo_system). apply demo_system_ok. apply reach_refl. Defined.

(** Payload bytes of the whole server. *)
Definition payload (p : ShardPool) : Z := foldr Z.add 0 (used_payload_bytes_ <$> shards p).

Lemma payload_bound p m :
  (forall i s, shards p !! i = Some s -> used_payload_bytes_ s <= m) -> payload p <= Z.of_nat (size p) * m.
Proof.
  rewrite <- shards_length. unfold payload. induction (shards p) as [|s l IH]; intros H; [done|].
  cbn [fmap list_fmap foldr length]. pose proof (H 0%nat s eq_refl).
  assert (foldr Z.add 0 (used_payload_bytes_ <$> l) <= Z.of_nat (length l) * m).
  { apply IH. intros i s' Hi. by apply (H (S i)). }
  lia.
Qed.

(** From the file to the running server: whatever the configuration holds and
    whatever accepts succeed or fail, the listener faults on none, and from
    then on no step of the server faults but a call of a command whose deadline
    overflows; its payload never exceeds the
    configured memory of a shard times the configured number of shards. *)
Theorem configured_server hash l ecs ids :
  let config := get_config l in
  let srv := with_pool start (newServer config) in
  zlen ecs < two64 -> length ids = size (shard_pool_ srv) ->
  exists srv', listener ecs srv = Ok srv'
    /\ forall st ev r, reachable hash (max_memory_bytes_per_shard config) (started_system ids srv') st ->
         event_defined (max_memory_bytes_per_shard config) st ev -> step hash st ev r ->
         (if event_overflows st ev then r = Fault SignedOverflow else exists st', r = Ok st')
         /\ payload (pool st) <= Z.max 1 (shard_count config) * max_memory_bytes_per_shard config.
Proof.
  intros config srv Hz Hids. destruct (started_ok hash l ecs ids Hz Hids) as (srv' & H & Hn & Hok).
  exists srv'. split; [exact H|]. intros st ev r Hr Hd Hst.
  destruct (reachable_ok _ _ _ _ Hok Hr) as [Hok1 [Hsz _]]. split.
  { pose proof (step_ok _ _ st ev r Hok1 Hd Hst) as Hs. destruct (event_overflows st ev); [done|].
    destruct Hs as (st' & -> & _). by exists st'. }
  replace (Z.max 1 (shard_count config)) with (Z.of_nat (size (pool st))).
  - apply payload_bound. intros i s Hs. destruct (sk_shards _ _ _ Hok1 i s Hs) as [I Hm _].
    pose proof (inv_used _ I). pose proof (inv_bound _ I). unfold config. lia.
  - rewrite Hsz, Hn. unfold with_pool, newServer, newShardPool, start, size. cbn [shard_pool_ started_ workers_].
    rewrite length_fmap, length_replicate. unfold config. lia.
Qed.

Lemma configured_server_witness :
  let config := get_config (full_lookups #"0.0.0.0" 8080 false 1024 4096 0 2) in
  let srv := with_pool start (newServer config) in
  exists srv', listener [false; true; false] srv = Ok srv'
    /\ forall st ev r, reachable length_hash 4096 (started_system [5; 6]%positive srv') st ->
         event_defined 4096 st ev -> step length_hash st ev r ->
         (if event_overflows st ev then r = Fault SignedOverflow else exists st', r = Ok st') /\ payload (pool st) <= Z.max 1 2 * 4096.
Proof.
  apply (configured_server length_hash (full_lookups #"0.0.0.0" 8080 false 1024 4096 0 2) [false; true; false] [5; 6]%positive);
    vm_compute; reflexivity.
Defined.

(** C20. Atomicity: in any interleaving a command of one key takes effect in one
    step, on the shard of its key and on nothing else; its reply is the one
    the command has on what the shard holds at that moment, which orders the
    commands on a key. *)
Theorem command_atomic hash m st0 st j home cmd t tid i c st' :
  sys_ok hash m st0 -> reachable hash m st0 st -> event_defined m st (ECall j tid i c) ->
  clients st !! j = Some (mkClient home (Some (cmd, t))) -> one_key (ctype cmd) = true ->
  step hash st (ECall j tid i c) (Ok st') ->
  exists key s, args cmd !! 0%nat = Some key
    /\ getShardIndex hash key (size (pool st)) = Ok i /\ shards (pool st) !! i = Some s
    /\ clients st' = set_client j (Some (cmd, TRet (spec_command cmd c (abs s)).1)) (clients st)
    /\ abs_pool (pool st') = <[i := (spec_command cmd c (abs s)).2]> (abs_pool (pool st)).
Proof.
  intros Hok Hr Hd Hj Hkey Hst. destruct (reachable_ok hash m st0 st Hok Hr) as [Hok1 _].
  destruct (sk_clients _ _ _ Hok1 j home _ Hj) as [Hh (Hv & Hsafe & Hone)].
  inversion Hst as [| |? home' cmd' how i' B fn k self tid' c' Hj' Hself Htid| | |]; subst.
  rewrite Hj in Hj'. injection Hj' as <- <- ->.
  destruct (Hone Hkey) as [[r0 ?]|(key & Hk & Hi & Hin & Hl & Heq)]; [done|].
  match goal with H : mbind _ _ = Ok st' |- _ => rename H into Hrun end.
  apply bind_Ok in Hrun as (s & Hs%reach_shard & Hrun).
  apply bind_Ok in Hrun as ([b s'] & Hf & Hrun). injection Hrun as <-.
  pose proof (shard_ok_process hash _ m cmd i key c s (sk_shards _ _ _ Hok1 i s Hs) Hv Hkey Hk Hi (Hd _ _ _ Hj)) as H.
  specialize (Heq c s). rewrite Hf in Heq. destruct (overflows cmd c (abs s)); [by rewrite H in Heq|].
  destruct H as (r & s2 & Hp & _ & _ & Hspec). rewrite Hp in Heq. injection Heq as Hb ->.
  exists key, s. rewrite <- Hspec. cbn [fst snd pool clients]. rewrite Hb, abs_pool_put. done.
Qed.

Definition demo_get : Command := mkCommand CGet [ #"k"].
Definition demo_running : System :=
  mkSystem (pool demo_system)
    (set_client 0 (Some (demo_get, execute length_hash 1%positive (pool demo_system) demo_get (Some 0%nat)))
       (clients demo_system)).

Lemma command_atomic_witness :
  exists key s, args demo_get !! 0%nat = Some key
    /\ getShardIndex length_hash key 2 = Ok 1%nat /\ shards (pool demo_running) !! 1%nat = Some s
    /\ set_client 0 (Some (demo_get, TRet null_reply)) (clients demo_running)
       = set_client 0 (Some (demo_get, TRet (spec_command demo_get (0, 0) (abs s)).1)) (clients demo_running)
    /\ abs_pool (put_shard 1 (newShard 10) (pool demo_running))
       = <[1%nat := (spec_command demo_get (0, 0) (abs s)).2]> (abs_pool (pool demo_running)).
Proof.
  apply (command_atomic length_hash 10 demo_system demo_running 0 0 demo_get
    (TCall Remote 1 (processGetCommand demo_get) TRet) 2%positive 1 (0, 0)
    (mkSystem (put_shard 1 (newShard 10) (pool demo_running))
       (set_client 0 (Some (demo_get, TRet null_reply)) (clients demo_running)))).
  - apply demo_system_ok.
  - apply (reach_step _ _ _ demo_system (EStart 0 demo_get)); [apply reach_refl|exact I|].
    by apply step_start.
  - intros home cmd t Hj. cbn in Hj. by injection Hj as _ <- _.
  - reflexivity.
  - reflexivity.
  - exact (step_call length_hash demo_running 0 0 demo_get Remote 1 RespValue
      (processGetCommand demo_get) TRet 1%positive 2%positive (0, 0) eq_refl eq_refl eq_refl).
Defined.
