(* ===== verification/Progress.v ===== *)
(** * Progress: every command gets its reply

    A command calls each shard at most once.  So, in any interleaving, a session
    that executes a command is after a bounded number of its own steps at its
    reply, and until then its next call can be made: whatever the others do,
    it is never stuck and never starts over. *)

From S2P Require Import Prelude RespValue Command StdText LruShard LruSpec LruInv LruRefine.
From S2P Require Import ShardPool CommandExecutor ExecutorSpec PoolSpec ExecutorRefine.
From S2P Require Import ExecutorTheorems CallBound System SystemTheorems.

(** ** Traces *)

Section Traces.
Variable XXH3_64bits : bytes -> N.
Variable m : Z.

Inductive trace : System -> list Event -> System -> Prop :=
  | trace_nil st : trace st [] st
  | trace_cons st ev st1 evs st2 :
      event_defined m st ev -> step XXH3_64bits st ev (Ok st1) -> trace st1 evs st2 ->
      trace st (ev :: evs) st2.

(** The session that takes the step. *)
Definition actor (ev : Event) : option nat :=
  match ev with
  | EStart j _ | ECall j _ _ _ | EReply j _ | EFault j => Some j
  | EAccept _ | EClean _ _ _ => None
  end.

(** The calls of session [j]; whether it has sent a reply. *)
Definition is_call (j : nat) (ev : Event) : bool :=
  match ev with ECall j' _ _ _ => bool_decide (j' = j) | _ => false end.
Definition is_reply (j : nat) (ev : Event) : bool :=
  match ev with EReply j' _ => bool_decide (j' = j) | _ => false end.
Definition calls (j : nat) (evs : list Event) : nat := length (List.filter (is_call j) evs).

Lemma reachable_trace st0 st evs st' :
  reachable XXH3_64bits m st0 st -> trace st evs st' -> reachable XXH3_64bits m st0 st'.
Proof. intros Hr H. induction H as [|st ev st1 evs st2 Hd Hst _ IH]; [done|]. apply IH. by eapply reach_step. Qed.

Lemma set_client_other j j' c l : j <> j' -> set_client j c l !! j' = l !! j'.
Proof. intros H. unfold set_client. by rewrite list_lookup_alter_ne. Qed.

Lemma set_client_same j home r c l :
  l !! j = Some (mkClient home r) -> set_client j c l !! j = Some (mkClient home c).
Proof. intros H. unfold set_client. by rewrite list_lookup_alter_eq, H. Qed.

(** The steps of the others leave a session where it is. *)
Lemma step_other st ev st' j cl :
  step XXH3_64bits st ev (Ok st') -> clients st !! j = Some cl -> actor ev <> Some j ->
  clients st' !! j = Some cl.
Proof.
  intros Hst Hj Ha. inversion Hst; subst; cbn in *; res_inv; cbn [clients].
  all: try (by rewrite set_client_other by congruence).
  - by apply lookup_app_l_Some.
  - done.
Qed.

(** Its own steps, while it executes a command and does not reply. *)
Lemma step_own st ev st' j home cmd t :
  step XXH3_64bits st ev (Ok st') -> clients st !! j = Some (mkClient home (Some (cmd, t))) ->
  actor ev = Some j -> is_reply j ev = false ->
  is_call j ev = true /\ exists t', clients st' !! j = Some (mkClient home (Some (cmd, t')))
    /\ forall d, calls_within d t -> exists d', d = S d' /\ calls_within d' t'.
Proof.
  intros Hst Hj Ha Hn. inversion Hst as [|? ? ? ? Hj'|? home' cmd' how i B fn k self tid c Hj'|? ? ? ? Hj'| |]; subst;
    cbn in Ha, Hn |- *; simplify_eq.
  - split; [by apply bool_decide_true|]. res_inv. eexists. split; [by eapply set_client_same|]. intros [|d] Hd; [done|].
    exists d. split; [done|apply Hd].
  - by rewrite bool_decide_true in Hn.
Qed.

Lemma calls_bounded st evs st' j home cmd t d :
  trace st evs st' -> clients st !! j = Some (mkClient home (Some (cmd, t))) -> calls_within d t ->
  Forall (fun ev => is_reply j ev = false) evs ->
  (calls j evs <= d)%nat /\ exists t', clients st' !! j = Some (mkClient home (Some (cmd, t'))).
Proof.
  intros H. revert t d. induction H as [st|st ev st1 evs st2 Hd Hst _ IH]; intros t d Hj Ht Hn.
  - split; [unfold calls; cbn; lia|by exists t].
  - inversion_clear Hn. destruct (decide (actor ev = Some j)) as [Ha|Ha].
    + destruct (step_own _ _ _ _ _ _ _ Hst Hj Ha) as (Hc & t' & Hj' & Hd'); [done|].
      destruct (Hd' d Ht) as (d' & -> & Ht'). destruct (IH t' d') as [Hle Hex]; [done..|].
      split; [|done]. unfold calls in *. cbn. rewrite Hc. cbn. lia.
    + destruct (IH t d) as [Hle Hex]; [by eapply step_other|done..|]. split; [|done].
      unfold calls in *. cbn. destruct (is_call j ev) eqn:Hc; [|done]. destruct ev; cbn in Hc, Ha; try done.
      apply bool_decide_eq_true in Hc. congruence.
Qed.

(** What is left to do can be done: the reply, or the next call, in the thread
    of its shard and at any time that the environment can give it, unless it
    overflows there. *)
Lemma next_step st j home cmd t :
  sys_ok XXH3_64bits m st -> (forall i, (i < size (pool st))%nat -> exists tid, thread_of (pool st) i tid) ->
  clients st !! j = Some (mkClient home (Some (cmd, t))) ->
  (exists r st', wf_value r = true /\ step XXH3_64bits st (EReply j r) (Ok st'))
  \/ exists tid i, thread_of (pool st) i tid /\ forall c, command_defined m cmd c ->
       if event_overflows st (ECall j tid i c) then step XXH3_64bits st (ECall j tid i c) (Fault SignedOverflow)
       else exists st', step XXH3_64bits st (ECall j tid i c) (Ok st').
Proof.
  intros Hok Hth Hj. destruct (sk_clients _ _ _ Hok j home _ Hj) as [Hh (_ & Hsafe & _)].
  destruct t as [r|f|how i B fn k]; [|done|].
  - left. exists r. eexists. split; [exact Hsafe|]. by eapply step_reply.
  - right. destruct Hsafe as (Hi & Hl & _). destruct (Hth home Hh) as [self Hself].
    destruct (Hth i Hi) as [tid Htid]. exists tid, i. split; [done|]. intros c Hc.
    assert (Hct : call_thread (pool st) home how i tid) by (destruct how; [by rewrite <- (Hl eq_refl)|done]).
    pose proof (step_call XXH3_64bits st j home cmd how i B fn k self tid c Hj Hself Hct) as Hst.
    assert (Hd : event_defined m st (ECall j tid i c)).
    { intros home' cmd' t' Hj'. rewrite Hj in Hj'. by injection Hj' as _ <- _. }
    pose proof (step_ok _ m st _ _ Hok Hd Hst) as H. destruct (event_overflows _ _); [by rewrite H in Hst|].
    destruct H as (st' & E & _). rewrite E in Hst. by exists st'.
Qed.
End Traces.

(** Progress: from the start of a command on, whatever the other sessions,
    the cleaning loops and the listener do in between, the session makes at
    most one call per shard before its reply; and as long as it has not
    replied, it can - either its reply is ready, well formed, or its next call
    can run in the thread of a shard, without fault unless its deadline
    overflows. *)
Theorem command_progress hash m st0 st j cmd evs st' :
  sys_ok hash m st0 -> reachable hash m st0 st ->
  (forall i, (i < size (pool st0))%nat -> exists tid, thread_of (pool st0) i tid) ->
  trace hash m st (EStart j cmd :: evs) st' -> Forall (fun ev => is_reply j ev = false) evs ->
  (calls j evs <= size (pool st0))%nat
  /\ ((exists r st'', wf_value r = true /\ step hash st' (EReply j r) (Ok st''))
      \/ exists tid i, thread_of (pool st0) i tid /\ forall c, command_defined m cmd c ->
           if event_overflows st' (ECall j tid i c) then step hash st' (ECall j tid i c) (Fault SignedOverflow)
           else exists st'', step hash st' (ECall j tid i c) (Ok st'')).
Proof.
  intros Hok Hr Hth Htr Hn. pose proof (reachable_trace _ _ _ _ _ _ Hr Htr) as Hr'.
  destruct (reachable_ok hash m st0 st Hok Hr) as [Hok1 [Hsz1 _]].
  destruct (reachable_ok hash m st0 st' Hok Hr') as [Hok' Hs'].
  inversion Htr as [|? ? st1 ? ? Hd Hst Htr']; subst.
  inversion Hst as [|? home ? self Hj Hself Hv| | | |]; subst.
  destruct (calls_bounded hash m _ evs st' j home cmd (execute hash self (pool st) cmd (Some home)) (size (pool st)) Htr') as [Hc (t' & Hj')].
  - by eapply set_client_same.
  - apply execute_calls, Hok1.
  - done.
  - split; [by rewrite <- Hsz1|].
    destruct (next_step hash m st' j home cmd t' Hok') as [H|(tid & i & Hi & H)]; [|done|by left|].
    { intros i Hi. rewrite (proj1 Hs') in Hi. destruct (Hth i Hi) as [tid Ht].
      exists tid. by apply (thread_of_same _ _ _ _ Hs'). }
    right. exists tid, i. split; [|done]. by apply (thread_of_same _ _ _ _ Hs').
Qed.

(** [GET] on the other shard, a purge of that shard while it is under way. *)
Lemma command_progress_witness :
  (calls 0 [EClean 2%positive 1 5%Z] <= 2)%nat
  /\ ((exists r st'', wf_value r = true
        /\ step length_hash (mkSystem (put_shard 1 (newShard 10) (pool demo_running)) (clients demo_running))
             (EReply 0 r) (Ok st''))
      \/ exists tid i, thread_of (pool demo_system) i tid /\ forall c, command_defined 10 demo_get c ->
           let st := mkSystem (put_shard 1 (newShard 10) (pool demo_running)) (clients demo_running) in
           if event_overflows st (ECall 0 tid i c) then step length_hash st (ECall 0 tid i c) (Fault SignedOverflow)
           else exists st'', step length_hash st (ECall 0 tid i c) (Ok st'')).
Proof.
  apply (command_progress length_hash 10 demo_system demo_system 0 demo_get [EClean 2%positive 1 5]).
  - apply demo_system_ok.
  - apply reach_refl.
  - intros [|[|i]] Hi; [by eexists|by eexists|cbn in Hi; unfold size in Hi; cbn in Hi; lia].
  - eapply (trace_cons _ _ _ (EStart 0 demo_get)); [exact I|by apply step_start|].
    eapply (trace_cons _ _ _ (EClean 2%positive 1 5)); [exact I| |apply trace_nil].
    apply (step_clean length_hash demo_running 1 2%positive 5 (newShard 10)); reflexivity.
  - by repeat constructor.
Defined.
