(* ===== verification/Node.v ===== *)
(** * The whole program as a transition system

    From [main] to the return of [Server::run]: the main thread starts the
    workers, accepts connections and, on a signal, stops and joins the workers;
    each worker's thread, once it runs, executes the turns of the connections
    at home there, the calls on its shard and its cleaning loop.  Anything can
    interleave with anything.  [System] is the part below - commands and shards -
    whose steps are used here; [Connection] is the part of one connection. *)

From S2P Require Import Prelude RespValue Command LruShard LruSpec LruInv LruRefine ShardPool.
From S2P Require Import CommandExecutor ExecutorSpec PoolSpec ExpirationController Config Server Session Calls.
From S2P Require Import RespSerializer Connection System.

(** ** The main thread *)

(** Before [start]; in its loop, before worker [i]; in [io_context_.run];
    about to run [stop]; in the first and the second loop of [stop]; after
    [Server::run]. *)
Inductive Main :=
  | Begin
  | Starting (i : nat)
  | Serving
  | Signalled
  | Stopping (i : nat)
  | Joining (i : nat)
  | Returned.

Definition on_worker (i : nat) (f : Worker -> Worker) (p : ShardPool) : ShardPool :=
  mkShardPool (alter f i (workers_ p)) (thread_affinity_enabled_ p) (started_ p) (stopped_ p).
Definition set_started (p : ShardPool) : ShardPool :=
  mkShardPool (workers_ p) (thread_affinity_enabled_ p) true (stopped_ p).
Definition set_stopped (p : ShardPool) : ShardPool :=
  mkShardPool (workers_ p) (thread_affinity_enabled_ p) (started_ p) true.

(** [thread::join] returns when the thread has run to its end: its first
    statement stores its identity, and [io_context::run] returns once the
    context is stopped, between two handlers. *)
Definition thread_ended (w : Worker) : bool := io_stopped w && bool_decide (is_Some (thread_id w)).

(** The next step of the main thread, if it is not waiting: in [Serving] for an
    accept or a signal, in [Joining] for a thread. *)
Definition main_turn (m : Main) (p : ShardPool) : option (Main * ShardPool) :=
  match m with
  | Begin => Some (if started_ p then (Serving, p) else (Starting 0, set_started p))
  | Starting i =>
      if decide (i < size p)%nat then Some (Starting (S i), on_worker i spawn_thread p)
      else Some (Serving, p)
  | Serving => None
  | Signalled => Some (if stopped_ p then (Returned, p) else (Stopping 0, set_stopped p))
  | Stopping i =>
      if decide (i < size p)%nat then Some (Stopping (S i), on_worker i stop_worker p)
      else Some (Joining 0, p)
  | Joining i =>
      match workers_ p !! i with
      | None => Some (Returned, p)
      | Some w =>
          if joinable w then
            if thread_ended w then Some (Joining (S i), on_worker i join_worker p) else None
          else Some (Joining (S i), p)
      end
  | Returned => None
  end.

(** The core worker [i] pins its thread to, when it is told to. *)
Definition pinned_core (p : ShardPool) (hardware_concurrency : Z) (i : nat) : option Z :=
  if thread_affinity_enabled_ p then Some (Z.of_nat i mod Z.max 1 hardware_concurrency) else None.

(** ** The state *)

(** What took effect on the shards, in order: recorded for the theorems. *)
Inductive Effect :=
  | FCall (j : nat) (k : Call)
  | FPurge (i : nat) (now : TimePoint).

(** Where a cleaning loop is: about to look at the earliest deadline, or - until
    the time it says - in the wait, if it needs one, before the purge. *)
Inductive Nap := Awake | Until_wake (wake : TimePoint).

Record Node := mkNode {
  sys : System;
  conns : list Conn;
  main : Main;
  next_shard : Z;
  message_limit : Z;
  cores : list (nat * Z);
  log : list Effect;
  naps : list Nap }.

(** [main]: the server of the configuration. *)
Definition boot (toml_config : Lookups) : Node :=
  let srv := newServer (get_config toml_config) in
  mkNode (mkSystem (shard_pool_ srv) []) [] Begin (next_shard_ srv) (srv_max_message_size srv) [] []
    (replicate (size (shard_pool_ srv)) Awake).

(** [main] up to [Server::run]; [toml_document] is [None] when the parser
    throws.  An exception that leaves [main] ends the program before it has
    started a thread. *)
Definition start_program {address} (make_address : bytes -> option address)
    (succeeds_after : list (@AcceptorOp address) -> AcceptorOp -> bool) (toml_document : option Lookups)
    : option Node :=
  toml_config ← toml_document;
  srv ← (server_constructor make_address succeeds_after (get_config toml_config)).2;
  Some (mkNode (mkSystem (shard_pool_ srv) []) [] Begin (next_shard_ srv) (srv_max_message_size srv) [] []
          (replicate (size (shard_pool_ srv)) Awake)).

(** So the program runs from [boot], with an acceptor that listens. *)
Lemma start_program_boot {address} (make_address : bytes -> option address) succeeds_after toml_document nd :
  start_program make_address succeeds_after toml_document = Some nd ->
  exists toml_config addr, toml_document = Some toml_config /\ nd = boot toml_config
    /\ make_address (host (get_config toml_config)) = Some addr
    /\ (server_constructor make_address succeeds_after (get_config toml_config)).1
       = acceptor_ops (mkEndpoint addr (port (get_config toml_config))).
Proof.
  intros (toml_config & -> & H)%bind_Some. apply bind_Some in H as (srv & Hs & [= <-]).
  destruct (server_constructor make_address succeeds_after (get_config toml_config)) as [ops o] eqn:E.
  cbn in Hs. subst o. pose proof E as (-> & addr & Ha & Hops & _)%server_constructor_spec.
  exists toml_config, addr. split; [done|]. split; [done|]. split; [done|]. by rewrite E.
Qed.

(** The shards it has, what a shard may hold, and what a request may take. *)
Definition node_shards (toml_config : Lookups) : nat :=
  Nat.max 1 (Z.to_nat (shard_count (get_config toml_config))).
Definition node_budget (toml_config : Lookups) : Z := max_memory_bytes_per_shard (get_config toml_config).
Definition node_limit (toml_config : Lookups) : Z := session_limit (max_message_size (get_config toml_config)).

Definition set_sys (s : System) (nd : Node) : Node :=
  mkNode s (conns nd) (main nd) (next_shard nd) (message_limit nd) (cores nd) (log nd) (naps nd).
Definition set_pool (p : ShardPool) (nd : Node) : Node := set_sys (mkSystem p (clients (sys nd))) nd.
Definition set_main (m : Main) (nd : Node) : Node :=
  mkNode (sys nd) (conns nd) m (next_shard nd) (message_limit nd) (cores nd) (log nd) (naps nd).
Definition set_conn (j : nat) (c : Conn) (nd : Node) : Node :=
  mkNode (sys nd) (<[j := c]> (conns nd)) (main nd) (next_shard nd) (message_limit nd) (cores nd) (log nd) (naps nd).
Definition add_effect (e : Effect) (nd : Node) : Node :=
  mkNode (sys nd) (conns nd) (main nd) (next_shard nd) (message_limit nd) (cores nd) (log nd ++ [e]) (naps nd).

Definition set_nap (i : nat) (nap : Nap) (nd : Node) : Node :=
  mkNode (sys nd) (conns nd) (main nd) (next_shard nd) (message_limit nd) (cores nd) (log nd)
    (<[i := nap]> (naps nd)).

(** The server as the listener sees it. *)
Definition server_of (nd : Node) : Server :=
  mkServer (pool (sys nd)) (message_limit nd) (next_shard nd) [].

(** After a turn of the listener: a connection for each session it created. *)
Definition accepted (nd : Node) (srv : Server) : Node :=
  mkNode (mkSystem (pool (sys nd)) (clients (sys nd) ++ ((fun s => mkClient (fst s) None) <$> sessions srv)))
    (conns nd ++ ((fun s => newConn (snd s)) <$> sessions srv))
    (main nd) (next_shard_ srv) (message_limit nd) (cores nd) (log nd) (naps nd).

(** After a turn of connection [j] in thread [tid]. *)
Definition turn_taken (XXH3_64bits : bytes -> N) (tid : Tid) (home j : nat) (c : Conn) (turn : Turn)
    (nd : Node) : Node :=
  let '(c, command) := turned c turn in
  set_conn j c
    match command with
    | None => nd
    | Some cmd =>
        set_sys (mkSystem (pool (sys nd))
          (set_client j (Some (cmd, execute XXH3_64bits tid (pool (sys nd)) cmd (Some home)))
             (clients (sys nd)))) nd
    end.

(** ** The steps *)

(** The thread [tid] of worker [i] runs handlers. *)
Definition live (p : ShardPool) (i : nat) (tid : Tid) : Prop :=
  exists w, workers_ p !! i = Some w /\ thread_id w = Some tid /\ joinable w = true /\ io_stopped w = false.

Inductive NEvent :=
  | NMain
  | NSignal
  | NAccept (ec : bool)
  | NBoot (i : nat) (tid : Tid) (hardware_concurrency : Z)
  | NTurn (tid : Tid) (j : nat)
  | NCall (tid : Tid) (j i : nat) (c : Clock)
  | NReply (tid : Tid) (j : nat)
  | NWritten (tid : Tid) (j : nat) (ok : bool) (n : nat)
  | NRead (tid : Tid) (j : nat) (ec : option ReadError) (data : bytes)
  | NPlan (tid : Tid) (i : nat) (now : TimePoint)
  | NClean (tid : Tid) (i : nat) (now : TimePoint).

Section Node.
Variable XXH3_64bits : bytes -> N.

Inductive nstep (nd : Node) : NEvent -> res Node -> Prop :=
  | n_main m p :
      main_turn (main nd) (pool (sys nd)) = Some (m, p) ->
      nstep nd NMain (Ok (set_main m (set_pool p nd)))
  | n_signal :
      main nd = Serving -> nstep nd NSignal (Ok (set_main Signalled nd))
  | n_accept ec :
      main nd = Serving ->
      nstep nd (NAccept ec) (srv ← listener_turn ec (server_of nd); mret (accepted nd srv))
  | n_boot i tid hc w :
      workers_ (pool (sys nd)) !! i = Some w -> joinable w = true -> thread_id w = None ->
      Some tid ∉ threads (pool (sys nd)) ->
      nstep nd (NBoot i tid hc)
        (Ok (mkNode (mkSystem (on_worker i (store_thread_id tid) (pool (sys nd))) (clients (sys nd)))
               (conns nd) (main nd) (next_shard nd) (message_limit nd)
               (cores nd ++ match pinned_core (pool (sys nd)) hc i with Some c => [(i, c)] | None => [] end)
               (log nd) (naps nd)))
  | n_turn tid j c home r :
      conns nd !! j = Some c -> phase c = Parsing -> clients (sys nd) !! j = Some (mkClient home r) ->
      live (pool (sys nd)) home tid ->
      nstep nd (NTurn tid j)
        (turn ← session_turn (session c); mret (turn_taken XXH3_64bits tid home j c turn nd))
  | n_call tid w j i c conn home cmd t s r :
      conns nd !! j = Some conn -> clients (sys nd) !! j = Some (mkClient home (Some (cmd, t))) ->
      shards (pool (sys nd)) !! i = Some s -> live (pool (sys nd)) w tid ->
      step XXH3_64bits (sys nd) (ECall j tid i c) r ->
      nstep nd (NCall tid j i c)
        (st ← r;
         let k := mkCall cmd i c (abs s) in
         mret (add_effect (FCall j k) (set_conn j (called k conn) (set_sys st nd))))
  | n_reply tid j c home cmd r :
      conns nd !! j = Some c -> clients (sys nd) !! j = Some (mkClient home (Some (cmd, TRet r))) ->
      live (pool (sys nd)) home tid ->
      nstep nd (NReply tid j)
        (c ← answered r c;
         mret (set_conn j c (set_sys (mkSystem (pool (sys nd)) (set_client j None (clients (sys nd)))) nd)))
  | n_written tid j c message next home r ok n :
      conns nd !! j = Some c -> phase c = Writing message next ->
      clients (sys nd) !! j = Some (mkClient home r) -> live (pool (sys nd)) home tid ->
      (n <= length message)%nat -> (ok = true -> n = length message) ->
      nstep nd (NWritten tid j ok n) (Ok (set_conn j (written message next ok n c) nd))
  | n_read tid j c home r ec data :
      conns nd !! j = Some c -> phase c = Reading ->
      clients (sys nd) !! j = Some (mkClient home r) -> live (pool (sys nd)) home tid ->
      match ec with
      | None => 0 < zlen data <= available_capacity (session c)
      | Some _ => data = []
      end ->
      nstep nd (NRead tid j ec data) (Ok (set_conn j (arrived ec data c) nd))
  | n_plan tid i now s :
      naps nd !! i = Some Awake -> live (pool (sys nd)) i tid -> shards (pool (sys nd)) !! i = Some s ->
      nstep nd (NPlan tid i now) (Ok (set_nap i (Until_wake (wakes_at now (plan_sleep now s))) nd))
  | n_clean tid i wake now r :
      naps nd !! i = Some (Until_wake wake) -> wake <= now ->
      live (pool (sys nd)) i tid -> step XXH3_64bits (sys nd) (EClean tid i now) r ->
      nstep nd (NClean tid i now)
        (st ← r; mret (set_nap i Awake (add_effect (FPurge i now) (set_sys st nd))))
  | n_fault tid j home cmd f :
      clients (sys nd) !! j = Some (mkClient home (Some (cmd, TFault f))) ->
      live (pool (sys nd)) home tid -> nstep nd (NReply tid j) (Fault f).

(** What the steady clock owes a call: a command that reads it twice finds the
    two readings in order. *)
Definition nevent_defined (nd : Node) (ev : NEvent) : Prop :=
  match ev with
  | NCall _ j _ c => forall home cmd t,
      clients (sys nd) !! j = Some (mkClient home (Some (cmd, t))) -> clock_defined cmd c
  | _ => True
  end.

(** The call of a command whose deadline overflows on what the shard holds. *)
Definition noverflows (nd : Node) (ev : NEvent) : bool :=
  match ev with NCall tid j i c => event_overflows (sys nd) (ECall j tid i c) | _ => false end.

Inductive nreach (nd0 : Node) : list NEvent -> Node -> Prop :=
  | nreach_refl : nreach nd0 [] nd0
  | nreach_step evs nd ev nd' :
      nreach nd0 evs nd -> nevent_defined nd ev -> nstep nd ev (Ok nd') ->
      nreach nd0 (evs ++ [ev]) nd'.

(** ** What the log means *)

(** The caches after the effects of the log, each of which happened to the
    cache it says. *)
Inductive history (caches0 : list Cache) : list Effect -> list Cache -> Prop :=
  | history_nil : history caches0 [] caches0
  | history_call l caches j k :
      history caches0 l caches -> caches !! k_shard k = Some (k_before k) ->
      history caches0 (l ++ [FCall j k]) (<[k_shard k := (outcome k).2]> caches)
  | history_purge l caches i now c :
      history caches0 l caches -> caches !! i = Some c ->
      history caches0 (l ++ [FPurge i now]) (<[i := c_purge now c]> caches).

(** The calls that connection [j] has made. *)
Definition calls_of (j : nat) (l : list Effect) : list Call :=
  e ← l; match e with FCall j' k => if decide (j' = j) then [k] else [] | FPurge _ _ => [] end.

Lemma calls_of_app j l l' : calls_of j (l ++ l') = calls_of j l ++ calls_of j l'.
Proof. unfold calls_of. apply bind_app. Qed.
End Node.

(** The calls of the exchanges of a connection, and of its current command. *)
Definition trail_calls (t : Trail) : list Call :=
  concat (ex_calls <$> exchanges t) ++ match current t with Some (_, calls) => calls | None => [] end.
