(* ===== verification/NodeInv.v ===== *)
(** * The invariant of the running program

    What holds in every state the program can reach, and that every step keeps
    it: of each connection ([conn_ok]), of the main thread and the workers
    ([main_ok]), of the log ([log_ok]), and of commands and shards ([sys_ok]). *)

From S2P Require Import Prelude RespValue RespParser RespReader RespGrammar RespParserSpec RespSerializer.
From S2P Require Import Command LruShard LruSpec LruInv LruRefine ShardPool CommandExecutor.
From S2P Require Import ExecutorSpec PoolSpec ExecutorRefine ExecutorTheorems Config Server.
From S2P Require Import Session SessionTheorems PoolService Calls CallBound Connection System SystemTheorems Node.

(** ** A connection *)

(** The requests taken from the buffer, and the messages handed to the socket. *)
Definition requests (t : Trail) : list RespValue :=
  (ex_value <$> exchanges t) ++ match current t with Some (v, _) => [v] | None => [] end.
Definition messages (t : Trail) : list bytes :=
  (ex_message <$> exchanges t) ++ match farewell t with Some w => [w] | None => [] end.

Lemma concat_snoc (l : list bytes) w : concat (l ++ [w]) = concat l ++ w.
Proof. rewrite concat_app. cbn. by rewrite app_nil_r. Qed.

Lemma messages_exchange t v calls w :
  farewell t = None -> messages (add_exchange v calls w t) = messages t ++ [w].
Proof. intros H. unfold messages. cbn. by rewrite H, fmap_app, !app_nil_r. Qed.

Lemma messages_farewell t w : farewell t = None -> messages (set_farewell w t) = messages t ++ [w].
Proof. intros H. unfold messages. cbn. by rewrite H, app_nil_r. Qed.

Section Conn.
Variable XXH3_64bits : bytes -> N.
Variables (n : nat) (m limit : Z).

(** Each reply is the one of its request: what the command answers on what
    its calls found, or an error for a request that is no command. *)
Definition exchange_ok (x : Exchange) : Prop :=
  match command_of (ex_value x) with
  | None => ex_calls x = [] /\ serialize invalid_command = Ok (ex_message x)
  | Some cmd => exists r, reply_of XXH3_64bits n cmd (ex_calls x) r /\ serialize r = Ok (ex_message x)
  end.

(** Why a connection is closed with a message. *)
Definition farewell_ok (s : Session) (w : bytes) : Prop :=
  (RespGrammar.read [] (buffer_ s) = RError /\ serialize malformed_request = Ok w)
  \/ (zlen (buffer_ s) = limit /\ RespGrammar.read [] (buffer_ s) = RMore
      /\ serialize request_too_large = Ok w).

(** The bytes received are the requests, one after the other, and the buffer. *)
Definition stream_ok (t : Trail) (s : Session) : Prop :=
  exists es, received t = concat es ++ buffer_ s
    /\ Forall2 (fun v e => encodes 0 v e /\ zlen e <= limit) (requests t) es.

Definition idle (r : option (Command * Task RespValue)) (t : Trail) : Prop :=
  r = None /\ current t = None.

Definition phase_ok (home : nat) (r : option (Command * Task RespValue)) (c : Conn) : Prop :=
  match phase c with
  | Parsing | Writing _ Continue => idle r (trail c) /\ farewell (trail c) = None
  | Executing => farewell (trail c) = None /\ exists v calls cmd t,
      current (trail c) = Some (v, calls) /\ r = Some (cmd, t) /\ command_of v = Some cmd
      /\ meets XXH3_64bits n home m cmd (replies XXH3_64bits n cmd) calls t
      /\ (length calls <= n)%nat /\ calls_within (n - length calls) t
  | Writing w Close => idle r (trail c) /\ farewell (trail c) = Some w
  | Reading => idle r (trail c) /\ farewell (trail c) = None
      /\ RespGrammar.read [] (buffer_ (session c)) = RMore /\ zlen (buffer_ (session c)) < limit
  | Closed => idle r (trail c)
  end.

(** What the socket has yet to take. *)
Definition unsent (p : Phase) : bytes := match p with Writing w _ => w | _ => [] end.

Record conn_ok (home : nat) (r : option (Command * Task RespValue)) (c : Conn) : Prop := {
  co_limit : max_message_size_ (session c) = limit;
  co_buffer : zlen (buffer_ (session c)) <= limit;
  co_stream : stream_ok (trail c) (session c);
  co_exchanges : Forall exchange_ok (exchanges (trail c));
  co_farewell : forall w, farewell (trail c) = Some w -> farewell_ok (session c) w;
  co_sent : failed (trail c) = false ->
    sent (trail c) ++ unsent (phase c) = concat (messages (trail c));
  co_phase : phase_ok home r c }.

Hypothesis limit_pos : 0 < limit.

Lemma newConn_ok home : conn_ok home None (newConn limit).
Proof.
  unfold newConn, newSession. rewrite (proj2 (Z.eqb_neq limit 0)) by lia.
  split; cbn; try done; [rewrite zlen_nil; lia|]. by exists [].
Qed.

(** ** The turns keep a connection in order *)

(** Taking a request from the buffer. *)
Lemma stream_take t s v e b t' :
  stream_ok t s -> buffer_ s = e ++ b -> encodes 0 v e -> zlen (buffer_ s) <= limit ->
  received t' = received t -> requests t' = requests t ++ [v] ->
  stream_ok t' (mkSession b (max_message_size_ s)).
Proof.
  intros (es & Hr & Hes) Hb He Hz Hrt Hq. exists (es ++ [e]). rewrite Hrt, Hr, Hb, Hq. split.
  - cbn. by rewrite concat_app, <- !app_assoc; cbn; rewrite app_nil_r.
  - apply Forall2_app; [done|]. repeat constructor; [done|]. rewrite Hb, zlen_app in Hz.
    pose proof (zlen_nonneg b). lia.
Qed.

Lemma turned_read home c :
  conn_ok home None c -> phase c = Parsing -> RespGrammar.read [] (buffer_ (session c)) = RMore ->
  exists turn c', start_read (session c) = Ok turn /\ turned c turn = (c', None)
    /\ trail_calls (trail c') = trail_calls (trail c) /\ conn_ok home None c'.
Proof.
  intros [Hl Hb Hs He Hf Hw Hp] Hph Hr. unfold phase_ok in Hp. rewrite Hph in Hp, Hw. destruct Hp as [Hi Hfn].
  cbn [unsent] in Hw. rewrite app_nil_r in Hw.
  unfold start_read. rewrite Hl. destruct (Z.leb_spec limit (zlen (buffer_ (session c)))) as [Hle|Hlt].
  - rewrite serialize_total by done. eexists _, _. split; [done|]. split; [done|]. split; [done|].
    split; cbn [trail session phase]; try done.
    + intros w [= <-]. right. split; [lia|]. split; [done|by apply serialize_total].
    + intros Hfail. by rewrite messages_farewell, concat_snoc, <- Hw.
  - eexists _, _. split; [done|]. split; [done|]. split; [done|]. split; cbn [trail session phase unsent]; try done.
    by rewrite app_nil_r.
Qed.

Lemma session_turn_parse s :
  session_turn s = match RespGrammar.read [] (buffer_ s) with
                   | RMore => start_read s
                   | RError => message ← serialize malformed_request; mret (TurnWrite s message Close None)
                   | RValue v b =>
                       let s := mkSession b (max_message_size_ s) in
                       command ← toCommand v;
                       match command with
                       | None => message ← serialize invalid_command; mret (TurnWrite s message Continue (Some v))
                       | Some command => mret (TurnExecute s v command)
                       end
                   end.
Proof.
  unfold session_turn. destruct s as [b l]. cbn [buffer_ max_message_size_].
  destruct (decide (b = [])) as [->|Hb]; [done|]. rewrite parse_read. cbn [mbind res_bind].
  by destruct (RespGrammar.read [] b).
Qed.

(** A turn does not fault and leaves the connection in order, or executing a
    valid command; it makes no call. *)
Lemma session_turn_ok home c :
  conn_ok home None c -> phase c = Parsing ->
  exists turn c' command, session_turn (session c) = Ok turn /\ turned c turn = (c', command)
    /\ trail_calls (trail c') = trail_calls (trail c)
    /\ match command with
       | None => conn_ok home None c'
       | Some cmd => valid_command cmd = true
           /\ forall t, meets XXH3_64bits n home m cmd (replies XXH3_64bits n cmd) [] t ->
                calls_within n t -> conn_ok home (Some (cmd, t)) c'
       end.
Proof.
  intros Hc Hph. rewrite session_turn_parse. destruct (RespGrammar.read [] (buffer_ (session c))) as [| |v b] eqn:Hr.
  { destruct (turned_read home c Hc Hph Hr) as (turn & c' & Ht & Hc' & Hk & Hok).
    by exists turn, c', None. }
  all: destruct Hc as [Hl Hb Hs He Hf Hw Hp]; unfold phase_ok in Hp; rewrite Hph in Hp, Hw;
    destruct Hp as [[_ Hi] Hfn]; cbn [unsent] in Hw; rewrite app_nil_r in Hw.
  - rewrite serialize_total by done. eexists _, _, None. split; [done|]. split; [done|].
    split; [unfold trail_calls; cbn; by rewrite Hi|].
    split; cbn [trail session phase]; try done.
    + intros w [= <-]. left. split; [done|by apply serialize_total].
    + intros Hfail. by rewrite messages_farewell, concat_snoc, <- Hw.
  - pose proof Hr as (e & Heb & Henc)%read_iff. cbn [mbind res_bind].
    rewrite toCommand_of by by eapply encodes_wf. cbn [mbind res_bind].
    assert (Hb' : zlen b <= limit).
    { rewrite Heb, zlen_app in Hb. pose proof (zlen_nonneg e). lia. }
    destruct (command_of v) as [cmd|] eqn:Hcmd.
    + eexists _, _, (Some cmd). split; [done|]. split; [done|].
      split; [unfold trail_calls; cbn; by rewrite Hi, app_nil_r|].
      split; [by eapply command_of_valid|]. intros t Ht Hn.
      split; cbn [trail session phase unsent]; try done.
      * eapply stream_take; [done|done|done|done|done|]. unfold requests. cbn. by rewrite Hi, app_nil_r.
      * cbn. intros w Hw'. congruence.
      * by rewrite app_nil_r.
      * split; [done|]. exists v, [], cmd, t. rewrite Nat.sub_0_r. repeat (split; [done|]). split; [cbn; lia|done].
    + rewrite serialize_total by done. eexists _, _, None. split; [done|]. split; [done|].
      split; [unfold trail_calls; cbn; by rewrite Hi, fmap_app, concat_app; cbn; rewrite !app_nil_r|].
      split; cbn [trail session phase]; try done.
      * eapply stream_take; [done|done|done|done|done|]. unfold requests. cbn. by rewrite Hi, fmap_app, !app_nil_r.
      * cbn. apply Forall_app. split; [done|]. repeat constructor. unfold exchange_ok. cbn. rewrite Hcmd.
        split; [done|exact (serialize_total invalid_command eq_refl)].
      * cbn. intros w Hw'. congruence.
      * intros Hfail. by rewrite messages_exchange, concat_snoc, <- Hw.
Qed.

(** ** The other steps of a connection *)

(** A connection with a coroutine executes it. *)
Lemma executing home cmd t c :
  conn_ok home (Some (cmd, t)) c ->
  phase c = Executing /\ farewell (trail c) = None
  /\ exists v calls, current (trail c) = Some (v, calls) /\ command_of v = Some cmd
       /\ meets XXH3_64bits n home m cmd (replies XXH3_64bits n cmd) calls t
       /\ (length calls <= n)%nat /\ calls_within (n - length calls) t.
Proof.
  intros [_ _ _ _ _ _ Hp]. unfold phase_ok in Hp. destruct (phase c) as [| | |w []|];
    try (destruct Hp as [[? _] _]; done); try (by destruct Hp).
  destruct Hp as (Hf & v & calls & cmd' & t' & Hcur & [= <- <-] & Hv & Hm & Hn).
  split; [done|]. split; [done|]. by exists v, calls.
Qed.

(** What it executes came in a message within the limit. *)
Lemma executing_fits home cmd t c :
  conn_ok home (Some (cmd, t)) c -> m + limit < two64 -> payload_fits m cmd.
Proof.
  intros Hc Hm. destruct (executing _ _ _ _ Hc) as (_ & _ & v & calls & Hcur & Hv & _).
  destruct (co_stream _ _ _ Hc) as (es & _ & Hes). unfold requests in Hes. rewrite Hcur in Hes.
  apply Forall2_app_inv_l in Hes as (es1 & es2 & _ & Hes & _).
  apply Forall2_cons_inv_l in Hes as (e & ? & [Henc Hz] & _).
  pose proof (encodes_command_size _ _ _ _ Henc Hv). by apply (payload_fits_size _ limit); [lia|].
Qed.

Lemma called_ok home cmd how i B (fn : Clock -> LruShard -> res (B * LruShard)) k c clock s b s' :
  conn_ok home (Some (cmd, TCall how i fn k)) c ->
  shard_ok XXH3_64bits n m i s -> command_defined m cmd clock -> fn clock s = Ok (b, s') ->
  let call := mkCall cmd i clock (abs s) in
  conn_ok home (Some (cmd, k b)) (called call c) /\ abs s' = (outcome call).2
  /\ trail_calls (trail (called call c)) = trail_calls (trail c) ++ [call].
Proof.
  intros Hc Hs Hd Hf call. destruct (executing _ _ _ _ Hc) as (Hph & Hfn & v & calls & Hcur & Hv & Hm & Hle & Hwi).
  destruct (n - length calls)%nat as [|d] eqn:Hd'; [done|]. destruct Hm as (_ & _ & Hm). specialize (Hm clock s Hs Hd).
  rewrite Hf in Hm. destruct (overflows cmd clock (abs s)); [done|]. destruct Hm as (b' & s2 & Hf' & _ & Ha & Hm').
  injection Hf' as <- <-. unfold called. rewrite Hcur. split; [|split].
  - destruct Hc as [Hl Hb Hst He Hfw Hw _]. split; cbn [trail session phase]; try done.
    + unfold stream_ok, requests in *. cbn. by rewrite Hcur in Hst.
    + unfold phase_ok. cbn [trail phase]. rewrite Hph. split; [done|]. exists v, (calls ++ [call]), cmd, (k b).
      rewrite length_app. cbn [length]. replace (n - (length calls + 1))%nat with d by lia.
      repeat (split; [done|]). split; [lia|apply Hwi].
  - exact Ha.
  - unfold trail_calls. cbn. by rewrite Hcur, app_assoc.
Qed.

Lemma answered_ok home cmd r c :
  conn_ok home (Some (cmd, TRet r)) c ->
  exists c', answered r c = Ok c' /\ conn_ok home None c' /\ trail_calls (trail c') = trail_calls (trail c).
Proof.
  intros Hc. destruct (executing _ _ _ _ Hc) as (Hph & Hfn & v & calls & Hcur & Hv & [Hr Hwf] & _).
  destruct Hc as [Hl Hb Hst He Hfw Hw _]. rewrite Hph in Hw. cbn [unsent] in Hw. rewrite app_nil_r in Hw.
  pose proof (serialize_total r (wf_serializable r Hwf)) as Hser.
  unfold answered. rewrite Hser, Hcur. eexists. split; [done|].
  split; [|unfold trail_calls; cbn; by rewrite Hcur, fmap_app, concat_app; cbn; rewrite !app_nil_r].
  split; cbn [trail session phase]; try done.
  - unfold stream_ok, requests in *. cbn. by rewrite Hcur in Hst; rewrite fmap_app, app_nil_r.
  - cbn. apply Forall_app. split; [done|]. repeat constructor. unfold exchange_ok. cbn. rewrite Hv.
    by exists r.
  - intros Hfail. by rewrite messages_exchange, concat_snoc, <- Hw.
Qed.

Lemma written_ok home r c message next ok k :
  conn_ok home r c -> phase c = Writing message next -> (ok = true -> k = length message) ->
  conn_ok home r (written message next ok k c)
  /\ trail_calls (trail (written message next ok k c)) = trail_calls (trail c).
Proof.
  intros [Hl Hb Hs He Hf Hw Hp] Hph Hk. unfold phase_ok in Hp. rewrite Hph in Hp, Hw. cbn [unsent] in Hw.
  split; [|done]. split; cbn [trail session phase written add_sent failed sent]; try done.
  - intros [Hfail Hok%negb_false_iff]%orb_false_iff. rewrite take_ge by (rewrite Hk by done; lia).
    unfold messages in *. cbn. rewrite <- Hw by done. by destruct next; cbn; rewrite app_nil_r.
  - unfold phase_ok. cbn. destruct next; [done|]. by destruct Hp.
Qed.

Lemma arrived_ok home r c ec data :
  conn_ok home r c -> phase c = Reading ->
  match ec with
  | None => 0 < zlen data <= available_capacity (session c)
  | Some _ => data = []
  end ->
  conn_ok home r (arrived ec data c) /\ trail_calls (trail (arrived ec data c)) = trail_calls (trail c).
Proof.
  intros [Hl Hb Hs He Hf Hw Hp] Hph Hd. unfold phase_ok in Hp. rewrite Hph in Hp, Hw. cbn [unsent] in Hw.
  destruct Hp as (Hi & Hfn & Hr & Hlt). unfold available_capacity in Hd.
  assert (Hst : stream_ok (add_received data (trail c)) (mkSession (buffer_ (session c) ++ data) limit)).
  { destruct Hs as (es & Hrc & Hes). exists es. cbn. by rewrite Hrc, app_assoc. }
  unfold arrived. destruct ec as [[]|]; cbn [finish_read after_read].
  1-2: subst data; rewrite app_nil_r in Hst.
  all: split; [|done]; split; cbn [trail session phase unsent add_received failed sent farewell]; try done.
  - cbn [buffer_]. rewrite zlen_app. lia.
  - intros w Hw'. congruence.
Qed.
End Conn.
