(* ===== verification/NodeStep.v ===== *)
(** * Every step of the program keeps the invariant

    [node_ok] and its preservation: no step faults, whatever the
    interleaving, but a call of a command whose deadline overflows. *)

From S2P Require Import Prelude RespValue Command LruShard LruSpec LruInv LruRefine ShardPool.
From S2P Require Import CommandExecutor ExecutorSpec PoolSpec ExecutorRefine Config Server.
From S2P Require Import Session PoolService Calls CallBound Connection System SystemTheorems Node NodeInv.

(** ** Workers and the main thread *)

Lemma on_worker_lookup i j f p :
  workers_ (on_worker i f p) !! j = if decide (i = j) then f <$> workers_ p !! j else workers_ p !! j.
Proof.
  unfold on_worker. cbn [workers_]. case_decide as H; [subst; apply list_lookup_alter_eq|by apply list_lookup_alter_ne].
Qed.

Lemma on_worker_size i f p : size (on_worker i f p) = size p.
Proof. apply length_alter. Qed.

(** A change of a worker that leaves its shard, and its thread, alone. *)
Lemma on_worker_fmap {A} (g : Worker -> A) i f p :
  (forall w, g (f w) = g w) -> g <$> workers_ (on_worker i f p) = g <$> workers_ p.
Proof.
  intros H. apply list_eq. intros j. rewrite !list_lookup_fmap, on_worker_lookup.
  case_decide; [|done]. destruct (workers_ p !! j); cbn; by rewrite ?H.
Qed.

(** Where a worker is - has a thread that is not joined, was stopped - when
    the main thread is in a given place. *)
Definition expected (m : Main) (i : nat) : bool * bool :=
  match m with
  | Begin => (false, false)
  | Starting k => (bool_decide (i < k)%nat, false)
  | Serving | Signalled => (true, false)
  | Stopping k => (true, bool_decide (i < k)%nat)
  | Joining k => (negb (bool_decide (i < k)%nat), true)
  | Returned => (false, true)
  end.

Definition has_started (m : Main) : bool := match m with Begin => false | _ => true end.
Definition has_stopped (m : Main) : bool :=
  match m with Stopping _ | Joining _ | Returned => true | _ => false end.
Definition progress_bound (m : Main) (n : nat) : Prop :=
  match m with Starting k | Stopping k | Joining k => (k <= n)%nat | _ => True end.

Record main_ok (m : Main) (p : ShardPool) : Prop := {
  mo_workers : forall i w, workers_ p !! i = Some w -> (joinable w, io_stopped w) = expected m i;
  mo_started : started_ p = has_started m;
  mo_stopped : stopped_ p = has_stopped m;
  mo_bound : progress_bound m (size p) }.

(** A step of the main thread touches neither shards nor threads. *)
Definition same_insides (p p' : ShardPool) : Prop :=
  shards p' = shards p /\ same_pool p p' /\ thread_affinity_enabled_ p' = thread_affinity_enabled_ p.

Lemma on_worker_insides i f p :
  (forall w, shard (f w) = shard w) -> (forall w, thread_id (f w) = thread_id w) ->
  same_insides p (on_worker i f p).
Proof.
  intros H1 H2. split; [by apply on_worker_fmap|]. split; [|done].
  split; [apply on_worker_size|by apply on_worker_fmap].
Qed.

(** One more worker has been dealt with. *)
Lemma main_ok_next m m' i f p :
  main_ok m p -> (i < size p)%nat ->
  (forall w, (joinable w, io_stopped w) = expected m i -> (joinable (f w), io_stopped (f w)) = expected m' i) ->
  (forall j, j <> i -> expected m' j = expected m j) ->
  has_started m' = has_started m -> has_stopped m' = has_stopped m -> progress_bound m' (size p) ->
  main_ok m' (on_worker i f p).
Proof.
  intros [Hw Hs Ht Hb] Hi Hf Hj E1 E2 E3. split; [|by rewrite E1|by rewrite E2|by rewrite on_worker_size].
  intros j w. rewrite on_worker_lookup. case_decide as Hd.
  - subst. destruct (workers_ p !! j) as [w0|] eqn:Hw0; [|done]. intros [= <-]. by apply Hf, Hw.
  - intros H. rewrite Hj by done. by apply Hw.
Qed.

Lemma main_turn_ok m p m' p' :
  main_ok m p -> main_turn m p = Some (m', p') -> main_ok m' p' /\ same_insides p p'.
Proof.
  intros Hok H. pose proof (mo_started _ _ Hok) as Hs. pose proof (mo_stopped _ _ Hok) as Ht.
  pose proof (mo_bound _ _ Hok) as Hb.
  destruct m as [|k| | |k|k|]; cbn [main_turn has_started has_stopped progress_bound] in *; try done.
  - rewrite Hs in H. injection H as <- <-. split; [|done]. destruct Hok as [Hw _ _ _].
    split; [|done..|cbn; lia]. intros i w Hi. rewrite (Hw i w Hi). cbn. by rewrite bool_decide_false by lia.
  - destruct (decide (k < size p)%nat) as [Hk|Hk]; injection H as <- <-.
    + split; [|by apply on_worker_insides]. eapply main_ok_next; [exact Hok|done| | |done|done|cbn; lia].
      * intros w [= _ Hio]. cbn. rewrite Hio. by rewrite bool_decide_true by lia.
      * intros j Hj. cbn. f_equal. apply bool_decide_ext. lia.
    + split; [|done]. destruct Hok as [Hw _ _ _]. split; [|done..]. intros i w Hi. rewrite (Hw i w Hi). cbn.
      apply lookup_lt_Some in Hi. rewrite bool_decide_true; [done|unfold size in *; lia].
  - rewrite Ht in H. injection H as <- <-. split; [|done]. destruct Hok as [Hw _ _ _].
    split; [|done..|cbn; lia]. intros i w Hi. rewrite (Hw i w Hi). cbn. by rewrite bool_decide_false by lia.
  - destruct (decide (k < size p)%nat) as [Hk|Hk]; injection H as <- <-.
    + split; [|by apply on_worker_insides]. eapply main_ok_next; [exact Hok|done| | |done|done|cbn; lia].
      * intros w [= Hjn _]. cbn. rewrite Hjn. by rewrite bool_decide_true by lia.
      * intros j Hj. cbn. f_equal. apply bool_decide_ext. lia.
    + split; [|done]. destruct Hok as [Hw _ _ _]. split; [|done..|cbn; lia]. intros i w Hi. rewrite (Hw i w Hi). cbn.
      apply lookup_lt_Some in Hi. rewrite bool_decide_true, bool_decide_false; [done|lia|unfold size in *; lia].
  - destruct (workers_ p !! k) as [w|] eqn:Hk.
    + pose proof (mo_workers _ _ Hok k w Hk) as Hw. cbn in Hw. rewrite bool_decide_false in Hw by lia.
      injection Hw as Hjn Hio. rewrite Hjn in H. destruct (thread_ended w); [|done]. injection H as <- <-.
      split; [|by apply on_worker_insides]. apply lookup_lt_Some in Hk. unfold size in Hb.
      eapply main_ok_next; [exact Hok|done| | |done|done|cbn; unfold size; lia].
      * intros w' [= _ Hio']. cbn. rewrite Hio'. by rewrite bool_decide_true by lia.
      * intros j Hj. cbn. do 2 f_equal. apply bool_decide_ext. lia.
    + injection H as <- <-. split; [|done]. destruct Hok as [Hw _ _ _]. split; [|done..].
      intros i w Hi. rewrite (Hw i w Hi). cbn. apply lookup_lt_Some in Hi. apply lookup_ge_None in Hk.
      by rewrite bool_decide_true by lia.
Qed.

(** Storing an identity of its own in one worker. *)
Lemma main_ok_worker m p i f :
  main_ok m p -> (forall w, joinable (f w) = joinable w) -> (forall w, io_stopped (f w) = io_stopped w) ->
  main_ok m (on_worker i f p).
Proof.
  intros [Hw Hs Ht Hb] H1 H2. split; [|done|done|by rewrite on_worker_size]. intros j w.
  rewrite on_worker_lookup. case_decide; [|apply Hw]. destruct (workers_ p !! j) as [w0|] eqn:Hw0; [|done].
  intros [= <-]. rewrite H1, H2. by apply Hw.
Qed.

Lemma main_ok_put m p i s : main_ok m p -> main_ok m (put_shard i s p).
Proof. intros H. by apply (main_ok_worker m p i (fun w => mkWorker s (thread_id w) (work_guard w) (io_stopped w) (joinable w))). Qed.

(** No two workers have the same thread. *)
Definition threads_distinct (p : ShardPool) : Prop :=
  forall i i' tid, thread_of p i tid -> thread_of p i' tid -> i = i'.

Lemma threads_distinct_same p p' : same_pool p p' -> threads_distinct p -> threads_distinct p'.
Proof. intros [_ H]. unfold threads_distinct, thread_of. by rewrite H. Qed.

Lemma threads_store i tid p :
  threads (on_worker i (store_thread_id tid) p) = alter (fun _ => Some tid) i (threads p).
Proof.
  apply list_eq. intros j. unfold threads. rewrite list_lookup_fmap, on_worker_lookup.
  destruct (decide (i = j)) as [->|Hne].
  - rewrite list_lookup_alter_eq, list_lookup_fmap. by destruct (workers_ p !! j).
  - by rewrite list_lookup_alter_ne, list_lookup_fmap.
Qed.

Lemma threads_distinct_store i tid p :
  threads_distinct p -> Some tid ∉ threads p -> threads_distinct (on_worker i (store_thread_id tid) p).
Proof.
  intros Hd Hn a b t. unfold thread_of. rewrite threads_store.
  assert (Hne : forall x, threads p !! x = Some (Some tid) -> False).
  { intros x Hx. by apply Hn, (list_elem_of_lookup_2 _ x). }
  destruct (decide (i = a)) as [<-|Ha], (decide (i = b)) as [<-|Hb]; [done| | |];
    rewrite ?list_lookup_alter_eq, ?list_lookup_alter_ne by done.
  - intros Ht Hb'. destruct (threads p !! i); cbn in Ht; simplify_eq. by apply Hne in Hb'.
  - intros Ha' Ht. destruct (threads p !! i); cbn in Ht; simplify_eq. by apply Hne in Ha'.
  - apply Hd.
Qed.

Lemma live_thread p i tid : live p i tid -> thread_of p i tid.
Proof. intros (w & Hw & Ht & _). unfold thread_of, threads. by rewrite list_lookup_fmap, Hw, <- Ht. Qed.

(** ** Connections and clients, side by side *)

Lemma set_client_id j home r l : l !! j = Some (mkClient home r) -> set_client j r l = l.
Proof.
  intros H. unfold set_client. apply list_eq. intros i. destruct (decide (i = j)) as [->|Hne].
  - by rewrite list_lookup_alter_eq, H.
  - by rewrite list_lookup_alter_ne.
Qed.

Lemma set_client_lookup j j' r l home r' :
  set_client j r l !! j' = Some (mkClient home r') ->
  (j' = j /\ r' = r /\ exists r0, l !! j = Some (mkClient home r0))
  \/ (j' <> j /\ l !! j' = Some (mkClient home r')).
Proof.
  unfold set_client. destruct (decide (j' = j)) as [->|Hne].
  - rewrite list_lookup_alter_eq. destruct (l !! j) as [[h0 r0]|] eqn:E; cbn; [|done].
    intros [= <- <-]. left. split; [done|]. split; [done|]. by exists r0.
  - rewrite list_lookup_alter_ne by done. by right.
Qed.

Section NodeOk.
Variable XXH3_64bits : bytes -> N.
Variables (n : nat) (m lim : Z).

Record conns_ok (cs : list Conn) (cl : list Client) : Prop := {
  cs_length : length cs = length cl;
  cs_ok : forall j c home r, cs !! j = Some c -> cl !! j = Some (mkClient home r) ->
    conn_ok XXH3_64bits n m (session_limit lim) home r c }.

Lemma conns_ok_update cs cl j home r r' c c' :
  conns_ok cs cl -> cs !! j = Some c -> cl !! j = Some (mkClient home r) ->
  conn_ok XXH3_64bits n m (session_limit lim) home r' c' ->
  conns_ok (<[j := c']> cs) (set_client j r' cl).
Proof.
  intros [Hl Ho] Hc Hr Hok. split; [unfold set_client; by rewrite length_insert, length_alter|].
  intros j' d home' r0 Hd Hcl.
  apply set_client_lookup in Hcl as [(-> & -> & r1 & Hr1)|[Hne Hcl]].
  - rewrite list_lookup_insert_eq in Hd by by eapply lookup_lt_Some. rewrite Hr in Hr1. by simplify_eq.
  - rewrite list_lookup_insert_ne in Hd by done. by eapply Ho.
Qed.

(** The log has the calls of every connection, in order. *)
Definition calls_ok (l : list Effect) (cs : list Conn) : Prop :=
  forall j, calls_of j l = match cs !! j with Some c => trail_calls (trail c) | None => [] end.

Lemma calls_ok_update l cs j c c' :
  calls_ok l cs -> cs !! j = Some c -> trail_calls (trail c') = trail_calls (trail c) ->
  calls_ok l (<[j := c']> cs).
Proof.
  intros H Hc E j'. rewrite H. destruct (decide (j' = j)) as [->|Hne].
  - rewrite list_lookup_insert_eq by by eapply lookup_lt_Some. by rewrite Hc, E.
  - by rewrite list_lookup_insert_ne.
Qed.

Lemma calls_ok_call l cs j c c' k :
  calls_ok l cs -> cs !! j = Some c -> trail_calls (trail c') = trail_calls (trail c) ++ [k] ->
  calls_ok (l ++ [FCall j k]) (<[j := c']> cs).
Proof.
  intros H Hc E j'. rewrite calls_of_app, H. unfold calls_of at 1. cbn. destruct (decide (j' = j)) as [->|Hne].
  - rewrite decide_True, list_lookup_insert_eq by (done || by eapply lookup_lt_Some). by rewrite Hc, E.
  - rewrite decide_False, list_lookup_insert_ne by done. cbn. by rewrite app_nil_r.
Qed.

Lemma calls_ok_purge l cs i now : calls_ok l cs -> calls_ok (l ++ [FPurge i now]) cs.
Proof. intros H j. by rewrite calls_of_app, H; unfold calls_of; cbn; rewrite app_nil_r. Qed.

(** What the pinned cores can be. *)
Definition cores_ok (p : ShardPool) (l : list (nat * Z)) : Prop :=
  Forall (fun x => thread_affinity_enabled_ p = true /\ (fst x < size p)%nat /\ 0 <= snd x) l.

Record node_ok (nd : Node) : Prop := {
  no_size : size (pool (sys nd)) = n;
  no_sys : sys_ok XXH3_64bits m (sys nd);
  no_limit : message_limit nd = lim /\ 0 < session_limit lim;
  no_main : main_ok (main nd) (pool (sys nd));
  no_threads : threads_distinct (pool (sys nd));
  no_conns : conns_ok (conns nd) (clients (sys nd));
  no_history : history (replicate n (abs (newShard m))) (log nd) (abs_pool (pool (sys nd)));
  no_calls : calls_ok (log nd) (conns nd);
  no_cores : cores_ok (pool (sys nd)) (cores nd);
  no_naps : length (naps nd) = n;
  no_fits : m + session_limit lim < two64 }.

(** A change of the pool that leaves shards alone. *)
Lemma sys_ok_pool p p' cl :
  shards p' = shards p -> size p' = size p -> sys_ok XXH3_64bits m (mkSystem p cl) ->
  sys_ok XXH3_64bits m (mkSystem p' cl).
Proof. intros E1 E2 [H1 H2 H3]. cbn in *. split; cbn; rewrite ?E1, ?E2; auto. Qed.

(** A step of connection [j] that touches no shard. *)
Lemma node_ok_conn nd j home r r' c c' :
  node_ok nd -> conns nd !! j = Some c -> clients (sys nd) !! j = Some (mkClient home r) ->
  conn_ok XXH3_64bits n m (session_limit lim) home r' c' -> trail_calls (trail c') = trail_calls (trail c) ->
  running_ok XXH3_64bits n home m r' ->
  node_ok (set_conn j c' (set_sys (mkSystem (pool (sys nd)) (set_client j r' (clients (sys nd)))) nd)).
Proof.
  intros [Hn Hsys Hl Hm Ht Hc Hh Hk Hco Hna Hft] Hj Hcl Hok E Hr. split; cbn [sys conns main message_limit log cores naps set_conn set_sys pool]; try done.
  - eapply sys_ok_client; [done|done|by rewrite Hn].
  - by eapply conns_ok_update.
  - by eapply calls_ok_update.
Qed.

(** The same, when what the connection runs does not change. *)
Lemma node_ok_conn_only nd j home r c c' :
  node_ok nd -> conns nd !! j = Some c -> clients (sys nd) !! j = Some (mkClient home r) ->
  conn_ok XXH3_64bits n m (session_limit lim) home r c' -> trail_calls (trail c') = trail_calls (trail c) ->
  node_ok (set_conn j c' nd).
Proof.
  intros Hnd Hj Hcl Hok E. pose proof (sk_clients _ _ _ (no_sys _ Hnd) j home r Hcl) as [_ Hr].
  rewrite (no_size _ Hnd) in Hr. pose proof (node_ok_conn nd j home r r c c' Hnd Hj Hcl Hok E Hr) as H.
  rewrite (set_client_id j home r) in H by done. destruct nd as [[p cl] cs mn nx ml co lg na]. exact H.
Qed.

Lemma node_ok_pool nd p mn :
  node_ok nd -> main_ok mn p -> same_insides (pool (sys nd)) p -> node_ok (set_main mn (set_pool p nd)).
Proof.
  intros [Hn Hsys Hl Hm Ht Hc Hh Hk Hco Hna Hft] Hm' (Hs & Hsame & Haff).
  split; cbn [sys conns main message_limit log cores naps set_main set_pool set_sys pool clients]; try done.
  - by rewrite (proj1 Hsame).
  - destruct nd as [[p0 cl] cs mn0 nx ml co lg na]. by eapply sys_ok_pool; [|apply Hsame|].
  - by eapply threads_distinct_same.
  - unfold abs_pool. by rewrite Hs.
  - unfold cores_ok. by rewrite (proj1 Hsame), Haff.
Qed.

Lemma node_ok_boot nd i tid hc w :
  node_ok nd -> workers_ (pool (sys nd)) !! i = Some w -> Some tid ∉ threads (pool (sys nd)) ->
  node_ok (mkNode (mkSystem (on_worker i (store_thread_id tid) (pool (sys nd))) (clients (sys nd)))
    (conns nd) (main nd) (next_shard nd) (message_limit nd)
    (cores nd ++ match pinned_core (pool (sys nd)) hc i with Some c => [(i, c)] | None => [] end) (log nd) (naps nd)).
Proof.
  intros [Hn Hsys Hl Hm Ht Hc Hh Hk Hco Hna Hft] Hw Hf.
  assert (Hs : shards (on_worker i (store_thread_id tid) (pool (sys nd))) = shards (pool (sys nd)))
    by by apply on_worker_fmap.
  split; cbn [sys conns main message_limit log cores naps pool clients]; try done.
  - by rewrite on_worker_size.
  - destruct nd as [[p0 cl] cs mn0 nx ml co lg na]. eapply sys_ok_pool; [done|apply on_worker_size|done].
  - by apply main_ok_worker.
  - by apply threads_distinct_store.
  - unfold abs_pool. by rewrite Hs.
  - unfold cores_ok. rewrite on_worker_size. apply Forall_app. split; [done|].
    unfold pinned_core. destruct (thread_affinity_enabled_ (pool (sys nd))) eqn:Ea; [|constructor].
    repeat constructor; [done| |].
    + by eapply lookup_lt_Some.
    + cbn. apply Z.mod_pos_bound. lia.
Qed.

(** A turn of the listener. *)
Lemma listener_turn_spec ec srv :
  (0 < size (shard_pool_ srv))%nat ->
  exists next home, (home < size (shard_pool_ srv))%nat
    /\ listener_turn ec srv
       = Ok (mkServer (shard_pool_ srv) (srv_max_message_size srv) next
               (sessions srv ++ if ec then [] else [(home, session_limit (srv_max_message_size srv))])).
Proof.
  intros Hn. set (k := Z.of_nat (size (shard_pool_ srv))).
  pose proof (Z.mod_pos_bound (next_shard_ srv) k) as Hm.
  destruct (worker_exists (shard_pool_ srv) (Z.to_nat (next_shard_ srv mod k))) as [w Hw]; [lia|].
  exists (u64 (next_shard_ srv + 1)), (Z.to_nat (next_shard_ srv mod k)). split; [lia|].
  unfold listener_turn, executor_for, worker_at. fold k. rewrite Hw. destruct ec; cbn; [|done].
  by rewrite app_nil_r.
Qed.

Lemma node_ok_accept nd ec :
  node_ok nd ->
  exists nd', (srv ← listener_turn ec (server_of nd); mret (accepted nd srv)) = Ok nd' /\ node_ok nd'.
Proof.
  intros [Hn Hsys Hl Hm Ht Hc Hh Hk Hco Hna Hft].
  destruct (listener_turn_spec ec (server_of nd)) as (next & home & Hhome & ->); [apply Hsys|].
  eexists. split; [done|]. cbn in Hhome. unfold accepted. cbn [sessions server_of app].
  destruct ec; cbn [fmap list_fmap fst snd next_shard_ srv_max_message_size server_of].
  - rewrite !app_nil_r. by destruct nd as [[p0 cl] cs mn0 nx ml co lg na].
  - destruct Hl as [Hl Hpos]. split; cbn [sys conns main message_limit log cores naps pool clients]; try done.
    + destruct (step_ok_next XXH3_64bits m (sys nd) (EAccept home) _ Hsys I (step_accept _ _ home Hhome))
        as (_ & H & _). exact H.
    + destruct Hc as [Hlen Hok]. split; [by rewrite !length_app, Hlen|].
      intros j c home' r [Hj|[Hge Hj]]%lookup_app_Some [Hcl|[Hge' Hcl]]%lookup_app_Some.
      * by eapply Hok.
      * apply lookup_lt_Some in Hj. lia.
      * apply lookup_lt_Some in Hcl. lia.
      * apply list_lookup_singleton_Some in Hj as [_ <-]. apply list_lookup_singleton_Some in Hcl as [_ [= <- <-]].
        rewrite Hl. by apply newConn_ok.
    + intros j. rewrite Hk. destruct (conns nd !! j) as [c|] eqn:Hj.
      * by rewrite (lookup_app_l_Some _ _ _ _ Hj).
      * apply lookup_ge_None in Hj. rewrite lookup_app_r by done.
        by destruct (j - length (conns nd))%nat as [|[|]].
Qed.

(** The home of a connection, and the state of its coroutine. *)
Lemma conn_client nd j home r c :
  node_ok nd -> conns nd !! j = Some c -> clients (sys nd) !! j = Some (mkClient home r) ->
  (home < n)%nat /\ running_ok XXH3_64bits n home m r
  /\ conn_ok XXH3_64bits n m (session_limit lim) home r c.
Proof.
  intros Hnd Hj Hcl. destruct (sk_clients _ _ _ (no_sys _ Hnd) j home r Hcl) as [Hh Hr].
  rewrite (no_size _ Hnd) in Hh, Hr. split; [done|]. split; [done|]. by eapply (cs_ok _ _ (no_conns _ Hnd)).
Qed.

Lemma node_ok_turn nd tid j c home r :
  node_ok nd -> conns nd !! j = Some c -> phase c = Parsing ->
  clients (sys nd) !! j = Some (mkClient home r) ->
  exists nd', (turn ← session_turn (session c); mret (turn_taken XXH3_64bits tid home j c turn nd)) = Ok nd'
    /\ node_ok nd'.
Proof.
  intros Hnd Hj Hph Hcl. destruct (conn_client nd j home r c Hnd Hj Hcl) as (Hh & Hrun & Hc).
  assert (r = None) as ->.
  { pose proof (co_phase _ _ _ _ _ _ _ Hc) as Hp. unfold phase_ok in Hp. rewrite Hph in Hp. apply Hp. }
  destruct (session_turn_ok XXH3_64bits n m (session_limit lim) home c Hc Hph)
    as (turn & c' & command & -> & Ht & Hk & Hok).
  eexists. split; [done|]. unfold turn_taken. rewrite Ht. destruct command as [cmd|].
  - destruct Hok as [Hv Hok]. eapply node_ok_conn; [done..| |done|].
    + pose proof (no_size _ Hnd) as Hn. apply Hok; [by apply execute_meets|]. rewrite <- Hn.
      apply execute_calls. lia.
    + split; [done|]. split; [apply execute_safe; [apply (no_size _ Hnd)|done..]|].
      intros Hkey. right. apply execute_single_call; auto. apply (no_size _ Hnd).
  - by eapply node_ok_conn_only.
Qed.

Lemma node_ok_call nd tid j i c conn home cmd t s r :
  node_ok nd -> conns nd !! j = Some conn ->
  clients (sys nd) !! j = Some (mkClient home (Some (cmd, t))) -> shards (pool (sys nd)) !! i = Some s ->
  nevent_defined nd (NCall tid j i c) -> step XXH3_64bits (sys nd) (ECall j tid i c) r ->
  let r' := st ← r;
     let k := mkCall cmd i c (abs s) in
     mret (add_effect (FCall j k) (set_conn j (called k conn) (set_sys st nd))) in
  if noverflows nd (NCall tid j i c) then r' = Fault SignedOverflow else exists nd', r' = Ok nd' /\ node_ok nd'.
Proof.
  intros Hnd Hj Hcl Hs Hd Hst. destruct (conn_client nd j home _ conn Hnd Hj Hcl) as (Hh & Hrun & Hc).
  pose proof Hnd as [Hn Hsys Hl Hm Ht Hcs Hh' Hk Hco Hna Hft].
  pose proof (executing_fits _ _ _ _ _ _ _ _ Hc Hft) as Hpay.
  assert (Hcd : command_defined m cmd c) by (split; [done|by eapply Hd]).
  assert (Hde : event_defined m (sys nd) (ECall j tid i c)).
  { intros h0 cmd0 t0 E. rewrite Hcl in E. by injection E as _ <- _. }
  pose proof (step_ok XXH3_64bits m (sys nd) _ r Hsys Hde Hst) as Hr. cbn [noverflows].
  destruct (event_overflows (sys nd) (ECall j tid i c)); [by rewrite Hr|].
  destruct Hr as (st' & -> & Hsys' & Hsame).
  eexists. split; [done|]. inversion Hst as [| |? home' cmd' how ? B fn k self ? ? Hcl' _ _ Heq| | |]; subst.
  rewrite Hcl in Hcl'. injection Hcl' as <- <- ->.
  match goal with H : mbind _ _ = Ok st' |- _ => rename H into Hrun' end.
  apply bind_Ok in Hrun' as (s0 & Hs0%reach_shard & Hrun').
  rewrite Hs in Hs0. injection Hs0 as <-. apply bind_Ok in Hrun' as ([b s'] & Hf & Hrun').
  injection Hrun' as <-. cbn [pool clients] in *.
  assert (Hso : shard_ok XXH3_64bits n m i s) by (rewrite <- Hn; by apply (sk_shards _ _ _ Hsys)).
  destruct (called_ok XXH3_64bits _ m (session_limit lim) home cmd how i B fn k conn c s b s' Hc Hso Hcd Hf)
    as (Hc' & Ha & Hk').
  split; cbn [sys conns main message_limit log cores naps add_effect set_conn set_sys pool clients]; try done.
  - by rewrite put_shard_size.
  - by apply main_ok_put.
  - by eapply threads_distinct_same.
  - by eapply conns_ok_update.
  - rewrite abs_pool_put, Ha. apply (history_call _ _ _ _ (mkCall cmd i c (abs s))); [done|]. by apply abs_pool_lookup.
  - by eapply calls_ok_call.
  - unfold cores_ok. by rewrite put_shard_size.
Qed.

Lemma node_ok_reply nd j c home cmd r :
  node_ok nd -> conns nd !! j = Some c -> clients (sys nd) !! j = Some (mkClient home (Some (cmd, TRet r))) ->
  exists nd', (c ← answered r c;
     mret (set_conn j c (set_sys (mkSystem (pool (sys nd)) (set_client j None (clients (sys nd)))) nd))) = Ok nd'
    /\ node_ok nd'.
Proof.
  intros Hnd Hj Hcl. destruct (conn_client nd j home _ c Hnd Hj Hcl) as (Hh & Hrun & Hc).
  destruct (answered_ok _ _ _ _ home cmd r c Hc) as (c' & -> & Hc' & Hk).
  eexists. split; [done|]. by eapply node_ok_conn.
Qed.

Lemma node_ok_clean nd tid i now r :
  node_ok nd -> step XXH3_64bits (sys nd) (EClean tid i now) r ->
  exists nd', (st ← r; mret (set_nap i Awake (add_effect (FPurge i now) (set_sys st nd)))) = Ok nd'
    /\ node_ok nd'.
Proof.
  intros Hnd Hst. pose proof Hnd as [Hn Hsys Hl Hm Ht Hcs Hh' Hk Hco Hna Hft].
  destruct (step_ok XXH3_64bits m (sys nd) (EClean tid i now) r Hsys I Hst) as (st' & -> & Hsys' & Hsame).
  eexists. split; [done|]. inversion Hst as [| | | | |? ? ? s Htid Hs Heq]; subst.
  match goal with H : mbind _ _ = Ok st' |- _ => rename H into Hrun' end.
  destruct (purge_refines now s (so_inv _ _ _ _ _ (sk_shards _ _ _ Hsys i s Hs))) as (s' & Hp & _ & Ha).
  rewrite Hp in Hrun'. injection Hrun' as <-. cbn [pool clients] in *.
  split; cbn [sys conns main message_limit log cores naps set_nap add_effect set_conn set_sys pool clients]; try done.
  - by rewrite put_shard_size.
  - by apply main_ok_put.
  - by eapply threads_distinct_same.
  - rewrite abs_pool_put, Ha. apply history_purge; [done|]. by apply abs_pool_lookup.
  - by apply calls_ok_purge.
  - unfold cores_ok. by rewrite put_shard_size.
  - by rewrite length_insert.
Qed.

Lemma node_ok_nap nd i nap : node_ok nd -> node_ok (set_nap i nap nd).
Proof.
  intros [Hn Hsys Hl Hm Ht Hc Hh Hk Hco Hna Hft].
  split; cbn [sys conns main message_limit log cores naps set_nap]; try done. by rewrite length_insert.
Qed.

(** One step: the overflow of a deadline, or no fault and everything is in
    order again. *)
Lemma node_step_ok nd ev r :
  node_ok nd -> nevent_defined nd ev -> nstep XXH3_64bits nd ev r ->
  if noverflows nd ev then r = Fault SignedOverflow else exists nd', r = Ok nd' /\ node_ok nd'.
Proof.
  intros Hnd Hd Hst. destruct Hst as [mn p Hm|Hm|ec Hm|i tid hc w Hw Hj Ht Hf|tid j c home r Hj Hp Hcl Hlv
    |tid w j i c conn home cmd t s r Hj Hcl Hs Hlv Hst|tid j c home cmd r Hj Hcl Hlv
    |tid j c message next home r ok k Hj Hp Hcl Hlv Hk Hok|tid j c home r ec data Hj Hp Hcl Hlv Hdata
    |tid i now s Hnap Hlv Hs|tid i wake now r Hnap Hw Hlv Hst|tid j home cmd f Hcl Hlv].
  - destruct (main_turn_ok _ _ _ _ (no_main _ Hnd) Hm) as [Hm' Hs]. eexists. split; [done|]. by apply node_ok_pool.
  - eexists. split; [done|]. destruct Hnd as [Hn Hsys Hl Hm' Ht Hcs Hh' Hk Hco Hna Hft]. split; try done.
    rewrite Hm in Hm'. destruct Hm'. by split.
  - by apply node_ok_accept.
  - eexists. split; [done|]. by eapply node_ok_boot.
  - by eapply node_ok_turn.
  - by eapply node_ok_call.
  - by eapply node_ok_reply.
  - eexists. split; [done|]. destruct (conn_client nd j home r c Hnd Hj Hcl) as (_ & _ & Hc).
    destruct (written_ok _ _ _ _ home r c message next ok k Hc Hp Hok). by eapply node_ok_conn_only.
  - eexists. split; [done|]. destruct (conn_client nd j home r c Hnd Hj Hcl) as (_ & _ & Hc).
    destruct (arrived_ok _ _ _ _ home r c ec data Hc Hp Hdata). by eapply node_ok_conn_only.
  - eexists. split; [done|]. by apply node_ok_nap.
  - by eapply node_ok_clean.
  - destruct (sk_clients _ _ _ (no_sys _ Hnd) j home _ Hcl) as [_ (_ & Hsafe & _)]. done.
Qed.

Lemma node_step_next nd ev nd' :
  node_ok nd -> nevent_defined nd ev -> nstep XXH3_64bits nd ev (Ok nd') -> node_ok nd'.
Proof.
  intros Hnd Hd Hst. pose proof (node_step_ok nd ev _ Hnd Hd Hst) as H. destruct (noverflows nd ev); [done|].
  by destruct H as (nd2 & [= <-] & Hok).
Qed.

End NodeOk.
