(* ===== verification/NodeRun.v ===== *)
(** * Running the transition system

    [nexec] computes a step of [Node] and [nplay] a run, so that runs of the
    whole program can be evaluated; both are sound for the relation. *)

From S2P Require Import Prelude RespValue Command StdText LruShard LruSpec LruInv LruRefine ShardPool CommandExecutor.
From S2P Require Import RespSerializer LruTheorems ExecutorTheorems ExecutorSpec PoolSpec ExpirationController Config Server Session Calls Connection System SystemTheorems Node NodeInv NodeStep.

Definition guard {A} (b : bool) (x : option A) : option A := if b then x else None.

Lemma guard_Some {A} b (x : option A) y : guard b x = Some y <-> b = true /\ x = Some y.
Proof. by destruct b; cbn; naive_solver. Qed.

Definition live_b (p : ShardPool) (i : nat) (tid : Tid) : bool :=
  match workers_ p !! i with
  | Some w => bool_decide (thread_id w = Some tid) && joinable w && negb (io_stopped w)
  | None => false
  end.

Lemma live_b_live p i tid : live_b p i tid = true -> live p i tid.
Proof.
  unfold live_b, live. destruct (workers_ p !! i) as [w|]; [|done].
  intros [[H1%bool_decide_eq_true H2]%andb_true_iff H3%negb_true_iff]%andb_true_iff. by exists w.
Qed.

Definition thread_of_b (p : ShardPool) (i : nat) (tid : Tid) : bool :=
  bool_decide (threads p !! i = Some (Some tid)).

(** [clock_defined], decided. *)
Definition clock_defined_b (cmd : Command) (clock : Clock) : bool :=
  match ctype cmd with
  | CTtl => (0 <=? fst clock) && (fst clock <=? snd clock) && (snd clock <=? i64_max)
  | _ => true
  end.

Lemma clock_defined_b_ok cmd clock : clock_defined_b cmd clock = true -> clock_defined cmd clock.
Proof.
  unfold clock_defined_b, clock_defined. intros H Ht. rewrite Ht in H.
  apply andb_true_iff in H as [[H1%Z.leb_le H2%Z.leb_le]%andb_true_iff H3%Z.leb_le]. lia.
Qed.

Section Run.
Variable XXH3_64bits : bytes -> N.

(** The call of a running command, with the thread that makes it. *)
Definition exec_call (nd : Node) (tid : Tid) (j i : nat) (c : Clock) (home : nat) (conn : Conn)
    (cmd : Command) (t : Task RespValue) : option (res Node) :=
  match t with
  | TCall how i' fn k =>
      s ← shards (pool (sys nd)) !! i;
      self ← (threads (pool (sys nd)) !! home) ≫= id;
      let w := match how with Local => home | Remote => i end in
      guard (bool_decide (i' = i) && thread_of_b (pool (sys nd)) w tid && live_b (pool (sys nd)) w tid
             && clock_defined_b cmd c)
        (Some (st ← (s ← reach self how i' (pool (sys nd));
                     '(b, s') ← fn c s;
                     mret (mkSystem (put_shard i' s' (pool (sys nd)))
                             (set_client j (Some (cmd, k b)) (clients (sys nd)))));
               let call := mkCall cmd i c (abs s) in
               mret (add_effect (FCall j call) (set_conn j (called call conn) (set_sys st nd)))))
  | _ => None
  end.

Definition nexec (nd : Node) (ev : NEvent) : option (res Node) :=
  let p := pool (sys nd) in
  match ev with
  | NMain => '(mn, p') ← main_turn (main nd) p; Some (Ok (set_main mn (set_pool p' nd)))
  | NSignal => match main nd with Serving => Some (Ok (set_main Signalled nd)) | _ => None end
  | NAccept ec =>
      match main nd with
      | Serving => Some (srv ← listener_turn ec (server_of nd); mret (accepted nd srv))
      | _ => None
      end
  | NBoot i tid hc =>
      w ← workers_ p !! i;
      guard (joinable w && bool_decide (thread_id w = None) && bool_decide (Some tid ∉ threads p))
        (Some (Ok (mkNode (mkSystem (on_worker i (store_thread_id tid) p) (clients (sys nd)))
               (conns nd) (main nd) (next_shard nd) (message_limit nd)
               (cores nd ++ match pinned_core p hc i with Some c => [(i, c)] | None => [] end) (log nd) (naps nd))))
  | NTurn tid j =>
      c ← conns nd !! j; cl ← clients (sys nd) !! j;
      match phase c with
      | Parsing => guard (live_b p (c_home cl) tid)
          (Some (turn ← session_turn (session c); mret (turn_taken XXH3_64bits tid (c_home cl) j c turn nd)))
      | _ => None
      end
  | NCall tid j i clock =>
      c ← conns nd !! j; cl ← clients (sys nd) !! j;
      match c_running cl with
      | Some (cmd, t) => exec_call nd tid j i clock (c_home cl) c cmd t
      | None => None
      end
  | NReply tid j =>
      c ← conns nd !! j; cl ← clients (sys nd) !! j;
      guard (live_b p (c_home cl) tid)
        match c_running cl with
        | Some (_, TRet r) =>
            Some (c ← answered r c;
                  mret (set_conn j c (set_sys (mkSystem p (set_client j None (clients (sys nd)))) nd)))
        | Some (_, TFault f) => Some (Fault f)
        | _ => None
        end
  | NWritten tid j ok n =>
      c ← conns nd !! j; cl ← clients (sys nd) !! j;
      match phase c with
      | Writing message next =>
          guard (live_b p (c_home cl) tid && (n <=? length message)%nat && (negb ok || (n =? length message)%nat))
            (Some (Ok (set_conn j (written message next ok n c) nd)))
      | _ => None
      end
  | NRead tid j ec data =>
      c ← conns nd !! j; cl ← clients (sys nd) !! j;
      match phase c with
      | Reading =>
          guard (live_b p (c_home cl) tid
                 && match ec with
                    | None => (0 <? zlen data) && (zlen data <=? available_capacity (session c))
                    | Some _ => bool_decide (data = [])
                    end)
            (Some (Ok (set_conn j (arrived ec data c) nd)))
      | _ => None
      end
  | NPlan tid i now =>
      s ← shards p !! i;
      match naps nd !! i with
      | Some Awake =>
          guard (live_b p i tid) (Some (Ok (set_nap i (Until_wake (wakes_at now (plan_sleep now s))) nd)))
      | _ => None
      end
  | NClean tid i now =>
      s ← shards p !! i;
      match naps nd !! i with
      | Some (Until_wake wake) =>
          guard (live_b p i tid && (wake <=? now))
            (Some (st ← (s' ← remove_expired_keys now s; mret (mkSystem (put_shard i s' p) (clients (sys nd))));
                   mret (set_nap i Awake (add_effect (FPurge i now) (set_sys st nd)))))
      | _ => None
      end
  end.

Fixpoint nplay (nd : Node) (evs : list NEvent) : option (res Node) :=
  match evs with
  | [] => Some (Ok nd)
  | ev :: evs =>
      r ← nexec nd ev;
      match r with Ok nd => nplay nd evs | Fault f => Some (Fault f) end
  end.

(** ** Soundness *)

Ltac exec_inv :=
  repeat match goal with
  | H : mbind _ _ = Some _ |- _ => apply bind_Some in H as (? & ? & H)
  | H : guard _ _ = Some _ |- _ => apply guard_Some in H as [? H]
  | H : _ && _ = true |- _ => apply andb_true_iff in H as [? ?]
  | H : live_b _ _ _ = true |- _ => apply live_b_live in H
  | H : bool_decide _ = true |- _ => apply bool_decide_eq_true in H
  | H : Some _ = Some _ |- _ => injection H as H
  | H : None = Some _ |- _ => discriminate H
  end.

Lemma nexec_sound nd ev r : nexec nd ev = Some r -> nstep XXH3_64bits nd ev r /\ nevent_defined nd ev.
Proof.
  intros H. destruct ev as [| |ec|i tid hc|tid j|tid j i c|tid j|tid j ok k|tid j ec data|tid i now|tid i now]; cbn [nexec] in H.
  - exec_inv. destruct x as [mn p]. exec_inv. subst. split; [by apply n_main|done].
  - destruct (main nd) eqn:Hm; exec_inv. subst. split; [by apply n_signal|done].
  - destruct (main nd) eqn:Hm; exec_inv. subst. split; [by apply n_accept|done].
  - exec_inv. subst. split; [by eapply n_boot|done].
  - exec_inv. destruct (phase x) eqn:Hp; exec_inv. subst. destruct x0 as [home run]. split; [by eapply n_turn|done].
  - exec_inv. destruct x0 as [home [[cmd t]|]]; cbn [c_running] in H; [|done].
    destruct t as [|f|how i' B fn k]; cbn [exec_call] in H; try done. exec_inv. subst i' r.
    unfold id in *. subst x2. cbn [c_home] in *.
    split; [|intros h0 cmd0 t0 E; rewrite E in *; simplify_eq; by apply clock_defined_b_ok].
    eapply n_call; [done|done|done|done|]. eapply step_call; [done|done|].
    unfold thread_of_b in *. exec_inv. by destruct how.
  - exec_inv. destruct x0 as [home [[cmd [r0|f|]]|]]; cbn [c_running] in H; exec_inv; subst; (split; [|done]).
    + by eapply n_reply.
    + by eapply n_fault.
  - exec_inv. destruct (phase x) as [| | |w nx|] eqn:Hp; exec_inv. subst. destruct x0 as [home run]. split; [|done].
    eapply n_written; [done|done|done|done| |].
    + by apply Nat.leb_le.
    + intros ->. cbn in *. by apply Nat.eqb_eq.
  - exec_inv. destruct (phase x) eqn:Hp; exec_inv. subst. destruct x0 as [home run]. split; [|done].
    eapply n_read; [done|done|done|done|]. destruct ec; exec_inv; [done|].
    repeat match goal with H : (_ <? _) = true |- _ => apply Z.ltb_lt in H
      | H : (_ <=? _) = true |- _ => apply Z.leb_le in H end. lia.
  - exec_inv. destruct (naps nd !! i) as [[]|] eqn:Hn; exec_inv. subst. split; [by apply n_plan|done].
  - exec_inv. destruct (naps nd !! i) as [[|wake]|] eqn:Hn; exec_inv. subst. split; [|done].
    eapply n_clean; [done|by apply Z.leb_le|done|].
    apply (step_clean XXH3_64bits (sys nd) i tid now x); [by apply live_thread|done].
Qed.

Lemma nplay_reach nd0 evs0 nd evs nd' :
  nreach XXH3_64bits nd0 evs0 nd -> nplay nd evs = Some (Ok nd') ->
  nreach XXH3_64bits nd0 (evs0 ++ evs) nd'.
Proof.
  revert evs0 nd. induction evs as [|ev evs IH]; intros evs0 nd Hr H; cbn [nplay] in H.
  - injection H as <-. by rewrite app_nil_r.
  - apply bind_Some in H as ([nd1|] & H1 & H); [|done]. apply nexec_sound in H1 as [Hst Hd].
    rewrite cons_middle, app_assoc. apply (IH _ nd1); [|done]. by eapply nreach_step.
Qed.

Lemma nplay_sound nd evs nd' : nplay nd evs = Some (Ok nd') -> nreach XXH3_64bits nd evs nd'.
Proof. apply (nplay_reach nd []), nreach_refl. Qed.
End Run.

(** ** A run

    Two shards.  The server starts; two clients connect, the first at home on
    shard 0 and the second on shard 1; the first sets [k], in two pieces, and
    the second gets it while shard 1 purges; then a signal ends it all. *)

Definition demo_config : Lookups := full_lookups #"0.0.0.0" 8080 true 64 4096 0 2.

Definition text (words : list bytes) : bytes :=
  encode (RespArr kArray (RespString kBulkString <$> words)).

Definition t0 : Tid := 5%positive.
Definition t1 : Tid := 6%positive.

Definition demo_start : list NEvent :=
  [NMain; NMain; NBoot 0 t0 8; NMain; NMain; NBoot 1 t1 8;
   NAccept false; NAccept true; NAccept true; NAccept false].
Definition demo_talk : list NEvent :=
  [NTurn t0 0; NRead t0 0 None (take 9 (text [ #"set"; #"k"; #"v"])); NTurn t0 0;
   NTurn t1 1; NRead t0 0 None (drop 9 (text [ #"set"; #"k"; #"v"])); NTurn t0 0;
   NRead t1 1 None (text [ #"GET"; #"k"] ++ #":7" ++ crlf); NTurn t1 1;
   NCall t1 0 1 (0, 0); NPlan t1 1 0; NClean t1 1 3000000000; NCall t1 1 1 (3000000000, 3000000000)].
Definition demo_replies : list NEvent :=
  [NReply t1 1; NReply t0 0; NWritten t0 0 true 5; NWritten t1 1 true 7; NTurn t1 1;
   NWritten t1 1 false 3; NTurn t1 1; NRead t1 1 (Some EndOfFile) []; NTurn t0 0].
Definition demo_stop : list NEvent := [NSignal; NMain; NMain; NMain; NMain; NMain; NMain; NMain].

(** The state at the end of a run, for runs that succeed. *)
Definition played (toml_config : Lookups) (evs : list NEvent) : Node :=
  match nplay length_hash (boot toml_config) evs with
  | Some (Ok nd) => nd
  | _ => boot toml_config
  end.
Definition succeeds (toml_config : Lookups) (evs : list NEvent) : bool :=
  match nplay length_hash (boot toml_config) evs with
  | Some (Ok _) => true
  | _ => false
  end.

Lemma played_reach toml_config evs :
  succeeds toml_config evs = true ->
  nreach length_hash (boot toml_config) evs (played toml_config evs).
Proof.
  intros H. apply nplay_sound. unfold played, succeeds in *. by destruct (nplay _ _ evs) as [[nd|]|].
Qed.

(** What the two clients see in the end. *)
Example demo_wires :
  (fun c => (phase c, sent (trail c))) <$> conns (played demo_config (demo_start ++ demo_talk ++ demo_replies ++ demo_stop))
  = [(Reading, #"+OK" ++ crlf); (Closed, #"$1" ++ crlf ++ #"v" ++ crlf ++ #"-ER")].
Proof. vm_compute. reflexivity. Qed.

(** In the middle of the conversation: the [GET] is under way. *)
Definition demo_events : list NEvent := demo_start ++ take 11 demo_talk.
Definition demo_node : Node := played demo_config demo_events.
Definition demo_call : NEvent := NCall t1 1 1 (3000000000, 3000000000).
Definition demo_result : res Node := default (Fault OutOfFuel) (nexec length_hash demo_node demo_call).

Lemma demo_node_reach : nreach length_hash (boot demo_config) demo_events demo_node.
Proof. apply (played_reach demo_config demo_events). vm_compute. reflexivity. Qed.

Lemma demo_call_step :
  nstep length_hash demo_node demo_call demo_result /\ nevent_defined demo_node demo_call.
Proof.
  apply nexec_sound. unfold demo_result.
  assert (H : bool_decide (is_Some (nexec length_hash demo_node demo_call)) = true) by (vm_compute; reflexivity).
  apply bool_decide_eq_true in H as [r ->]. done.
Qed.

(** The first client asks for a deadline that overflows, of a key that is there
    and of one that is not. *)
Definition overflow_events (k : bytes) : list NEvent :=
  demo_start ++ [NTurn t0 0; NRead t0 0 None (text [ #"set"; #"k"; #"v"]); NTurn t0 0; NCall t1 0 1 (0, 0);
    NReply t0 0; NWritten t0 0 true 5; NTurn t0 0;
    NRead t0 0 None (text [ #"expire"; k; #"99999999999"]); NTurn t0 0].

Example expire_overflows_present :
  nexec length_hash (played demo_config (overflow_events #"k")) (NCall t1 0 1 (0, 0)) = Some (Fault SignedOverflow).
Proof. vm_compute. reflexivity. Qed.

Example expire_overflows_absent :
  (fun r => match r with Ok _ => true | Fault _ => false end)
    <$> nexec length_hash (played demo_config (overflow_events #"bb")) (NCall t0 0 0 (0, 0)) = Some true.
Proof. vm_compute. reflexivity. Qed.

(** ** A command of several shards is not atomic

    The first client deletes [bb], of shard 0, and [a], of shard 1; between the
    two calls that takes, the second one finds [bb] gone and [a] still there. *)

(** The second client's request for [k], of shard [i], in one piece. *)
Definition second_asks (k : bytes) (tid : Tid) (i len : nat) : list NEvent :=
  [NRead t1 1 None (text [ #"GET"; k]); NTurn t1 1; NCall tid 1 i (0, 0); NReply t1 1;
   NWritten t1 1 true len; NTurn t1 1].
(** The first client's, of shards [is]. *)
Definition first_asks (words : list bytes) (calls : list NEvent) : list NEvent :=
  [NRead t0 0 None (text words); NTurn t0 0] ++ calls.
Definition first_told (len : nat) : list NEvent := [NReply t0 0; NWritten t0 0 true len; NTurn t0 0].

Definition demo_del : list NEvent :=
  demo_start ++ [NTurn t0 0; NTurn t1 1]
  ++ first_asks [ #"SET"; #"a"; #"x"] [NCall t1 0 1 (0, 0)] ++ first_told 5
  ++ first_asks [ #"SET"; #"bb"; #"y"] [NCall t0 0 0 (0, 0)] ++ first_told 5
  ++ first_asks [ #"DEL"; #"a"; #"bb"] [NCall t0 0 0 (0, 0)]
  ++ second_asks #"bb" t0 0 5 ++ second_asks #"a" t1 1 7
  ++ [NCall t1 0 1 (0, 0)] ++ first_told 4.

Example del_not_atomic :
  succeeds demo_config demo_del = true
  /\ (fun c => sent (trail c)) <$> conns (played demo_config demo_del)
     = [ #"+OK" ++ crlf ++ #"+OK" ++ crlf ++ #":2" ++ crlf; #"$-1" ++ crlf ++ #"$1" ++ crlf ++ #"x" ++ crlf].
Proof. vm_compute. split; reflexivity. Qed.
