(* ===== verification/NodeTheorems.v ===== *)
(** * What the program guarantees, from [main] to its end

    In every interleaving, whatever the configuration, the clients and the
    moments of signals and errors: no fault but the overflow of a deadline, and
    no data race; linearizable
    effects; connections that answer every request in order; cleaning loops
    that purge what has lapsed; shutdown. *)

From S2P Require Import Prelude RespValue RespGrammar Command LruShard LruSpec LruInv LruRefine ShardPool.
From S2P Require Import CommandExecutor ExecutorSpec PoolSpec ExecutorRefine ExecutorTheorems ExpirationController Config Server.
From S2P Require Import Session PoolService Calls Connection CallBound System SystemTheorems Node NodeInv NodeStep NodeRun.

(** The thread and the shard of an event that touches a shard. *)
Definition ntouches (ev : NEvent) : option (Tid * nat) :=
  match ev with NCall tid _ i _ | NPlan tid i _ | NClean tid i _ => Some (tid, i) | _ => None end.

(** The connection whose event it is. *)
Definition nactor (ev : NEvent) : option nat :=
  match ev with
  | NTurn _ j | NCall _ j _ _ | NReply _ j | NWritten _ j _ _ | NRead _ j _ _ => Some j
  | _ => None
  end.

Section NodeTheorems.
Variable XXH3_64bits : bytes -> N.
Variable toml_config : Lookups.

Abbreviation config := (get_config toml_config).
Abbreviation n := (node_shards toml_config).
Abbreviation m := (node_budget toml_config).
Abbreviation limit := (node_limit toml_config).

(** The program is in state [nd] after the events [evs]. *)
Definition runs (evs : list NEvent) (nd : Node) : Prop := nreach XXH3_64bits (boot toml_config) evs nd.
Abbreviation nok := (node_ok XXH3_64bits n m (max_message_size config)).

Lemma boot_ok : nok (boot toml_config).
Proof.
  assert (Hm : 0 <= m < two64).
  { pose proof (clamp_range (value_or (lk_max_memory_bytes_per_shard toml_config) 1024)) as H. cbn zeta in H.
    unfold node_budget. cbn. unfold i64_max, two64 in *. lia. }
  assert (Hw : forall i w, workers_ (pool (sys (boot toml_config))) !! i = Some w -> w = newWorker m).
  { by intros i w [-> _]%lookup_replicate_1. }
  assert (Hs : shards (pool (sys (boot toml_config))) = replicate n (newShard m)).
  { unfold shards, boot. cbn. by rewrite fmap_replicate. }
  split; cbn [boot sys conns main message_limit log cores naps pool clients]; try done.
  - unfold size. cbn. by rewrite length_replicate.
  - split; cbn [pool clients].
    + unfold size. cbn. rewrite length_replicate. lia.
    + intros i s Hi. change (shards (pool (sys (boot toml_config))) !! i = Some s) in Hi. rewrite Hs in Hi.
      apply lookup_replicate_1 in Hi as [-> _]. split; [by apply newShard_Inv|done|]. by intros e ?%elem_of_nil.
    + by intros j home r.
  - split; [done|]. pose proof (clamp_range (value_or (lk_max_message_size toml_config) 1024)) as H. cbn zeta in H.
    apply session_limit_pos. cbn. lia.
  - split; [|done..]. intros i w Hi. by rewrite (Hw i w Hi).
  - intros i i' tid Hi. unfold thread_of, threads in Hi. apply list_lookup_fmap_Some in Hi as (w & Ht & Hi).
    by rewrite (Hw i w Hi) in Ht.
  - change (history (replicate n (abs (newShard m))) [] (abs_pool (pool (sys (boot toml_config))))).
    unfold abs_pool. rewrite Hs, fmap_replicate. apply history_nil.
  - constructor.
  - unfold size. cbn. by rewrite !length_replicate.
  - pose proof (clamp_range (value_or (lk_max_memory_bytes_per_shard toml_config) 1024)) as H1. cbn zeta in H1.
    pose proof (clamp_range (value_or (lk_max_message_size toml_config) 1024)) as H2. cbn zeta in H2.
    unfold node_budget, session_limit. cbn. match goal with |- context [?x =? 0] => destruct (Z.eqb_spec x 0) end; unfold i64_max, two64 in *; lia.
Qed.

Lemma reach_ok nd0 evs nd : nok nd0 -> nreach XXH3_64bits nd0 evs nd -> nok nd.
Proof.
  intros H0 Hr. induction Hr as [|evs nd ev nd' _ IH Hd Hst]; [done|].
  by eapply node_step_next.
Qed.

Lemma runs_ok evs nd : runs evs nd -> nok nd.
Proof. apply reach_ok, boot_ok. Qed.

(** ** Shards and threads *)

Lemma touch_thread nd ev r tid i :
  nok nd -> nstep XXH3_64bits nd ev r -> ntouches ev = Some (tid, i) -> live (pool (sys nd)) i tid.
Proof.
  intros Hnd Hst Ht. inversion Hst as [| | | | |? w ? ? ? ? ? ? ? ? ? ? ? ? Hlv Hcall| | | | | |]; subst; cbn in Ht; simplify_eq; [|done..].
  apply (call_on_own_thread _ m) in Hcall; [|apply (no_sys _ _ _ _ _ Hnd)].
  by rewrite (no_threads _ _ _ _ _ Hnd i w tid Hcall (live_thread _ _ _ Hlv)).
Qed.

(** C3. No fault but one, no race: from [main] on, in any interleaving and
    whatever the clients send, a step faults exactly when it is the call of a
    command whose deadline overflows on what the shard holds - a [SET EX], or an
    [EXPIRE] of a key that is there, with a count that takes the deadline out of
    the range of the clock -, and that signed overflow is its fault; there is no
    other.  And a shard is only touched by the thread of its own worker, which
    is no other worker's thread, while it runs - after it was started and before
    it is told to stop.  The condition on the environment is that a [TTL] finds
    its two readings of the clock in order. *)
Theorem node_safe evs nd ev r :
  runs evs nd -> nevent_defined nd ev -> nstep XXH3_64bits nd ev r ->
  (if noverflows nd ev then r = Fault SignedOverflow else exists nd', r = Ok nd')
  /\ forall tid i, ntouches ev = Some (tid, i) ->
       live (pool (sys nd)) i tid /\ forall i', live (pool (sys nd)) i' tid -> i' = i.
Proof.
  intros Hr%runs_ok Hd Hst. split.
  { pose proof (node_step_ok XXH3_64bits n m _ nd ev r Hr Hd Hst) as H. destruct (noverflows nd ev); [done|].
    destruct H as (nd' & -> & _). by exists nd'. }
  intros tid i Ht. pose proof (touch_thread nd ev r tid i Hr Hst Ht) as Hl. split; [done|].
  intros i' Hl'. eapply (no_threads _ _ _ _ _ Hr); by apply live_thread.
Qed.

(** ** Memory and placement *)

(** C13. Memory: the payload of the program never exceeds the configured memory of
    a shard times the configured number of shards, and every key is in at
    most one shard. *)
Theorem node_memory evs nd :
  runs evs nd ->
  payload (pool (sys nd)) <= Z.max 1 (shard_count config) * m
  /\ forall i i' s s' e e', shards (pool (sys nd)) !! i = Some s -> shards (pool (sys nd)) !! i' = Some s' ->
       e ∈ abs_entries s -> e' ∈ abs_entries s' -> e_key e = e_key e' -> i = i'.
Proof.
  intros Hr%runs_ok. pose proof (no_sys _ _ _ _ _ Hr) as Hok. split.
  - replace (Z.max 1 (shard_count config)) with (Z.of_nat (size (pool (sys nd)))) by (rewrite (no_size _ _ _ _ _ Hr); unfold node_shards; lia).
    apply payload_bound. intros i s Hs. destruct (sk_shards _ _ _ Hok i s Hs) as [I Hm _].
    pose proof (inv_used _ I). pose proof (inv_bound _ I). lia.
  - intros i i' s s' e e' Hs Hs' He He' Hk.
    pose proof (so_placed _ _ _ _ _ (sk_shards _ _ _ Hok i s Hs) e He) as H1.
    pose proof (so_placed _ _ _ _ _ (sk_shards _ _ _ Hok i' s' Hs') e' He') as H2.
    rewrite Hk, H2 in H1. by injection H1.
Qed.

(** ** Linearizability *)

(** C1. The effects of the calls and of the purges, in the one order in which they
    happened, explain everything: applied to empty caches one after the
    other they give what the shards hold; the calls of a connection are, in
    that order, those of its exchanges and of the command it executes; and
    every reply is what its command answers on what its calls found.  A
    command of one key has one call, so it takes effect at one moment. *)
Theorem node_linearizable evs nd :
  runs evs nd ->
  history (replicate n (abs (newShard m))) (log nd) (abs_pool (pool (sys nd)))
  /\ forall j c, conns nd !! j = Some c ->
       calls_of j (log nd) = concat (ex_calls <$> exchanges (trail c))
                             ++ match current (trail c) with Some (_, calls) => calls | None => [] end
       /\ Forall (exchange_ok XXH3_64bits n) (exchanges (trail c)).
Proof.
  intros Hr%runs_ok. split; [apply Hr|]. intros j c Hj.
  split; [rewrite (no_calls _ _ _ _ _ Hr); by rewrite Hj|].
  destruct (lookup_lt_is_Some_2 (clients (sys nd)) j) as [[home r] Hcl].
  { rewrite <- (cs_length _ _ _ _ _ _ (no_conns _ _ _ _ _ Hr)). by eapply lookup_lt_Some. }
  by destruct (conn_client _ _ _ _ nd j home r c Hr Hj Hcl) as (_ & _ & [_ _ _ He _ _ _]).
Qed.

(** ** Conversations *)

Lemma conn_in_order nd j c :
  nok nd -> conns nd !! j = Some c ->
  exists home r, clients (sys nd) !! j = Some (mkClient home r) /\ (home < n)%nat
    /\ running_ok XXH3_64bits n home m r
    /\ conn_ok XXH3_64bits n m limit home r c.
Proof.
  intros Hr Hj. destruct (lookup_lt_is_Some_2 (clients (sys nd)) j) as [[home r] Hcl].
  { rewrite <- (cs_length _ _ _ _ _ _ (no_conns _ _ _ _ _ Hr)). by eapply lookup_lt_Some. }
  exists home, r. split; [done|]. by eapply conn_client.
Qed.

(** C5. What a client sees.  The bytes received are requests, each of which fits
    the limit, and what is in the buffer, which fits it too; the messages
    handed to the socket are the replies to those requests, in that order, but
    for the one being executed, and at most one farewell, for a malformed or
    too large message; unless a write has failed, the socket has taken
    all of them but the one being written; and a connection that reads has
    answered every request it received. *)
Theorem node_conversation evs nd j c :
  runs evs nd -> conns nd !! j = Some c ->
  (exists es, received (trail c) = concat es ++ buffer_ (session c)
     /\ Forall2 (fun v e => encodes 0 v e /\ zlen e <= limit) (requests (trail c)) es)
  /\ zlen (buffer_ (session c)) <= limit
  /\ (failed (trail c) = false ->
        sent (trail c) ++ match phase c with Writing w _ => w | _ => [] end
        = concat ((ex_message <$> exchanges (trail c))
                  ++ match farewell (trail c) with Some w => [w] | None => [] end))
  /\ (forall w, farewell (trail c) = Some w -> farewell_ok limit (session c) w)
  /\ (phase c = Reading ->
        requests (trail c) = ex_value <$> exchanges (trail c) /\ farewell (trail c) = None
        /\ RespGrammar.read [] (buffer_ (session c)) = RMore /\ zlen (buffer_ (session c)) < limit).
Proof.
  intros Hr%runs_ok Hj. destruct (conn_in_order nd j c Hr Hj) as (home & r & _ & _ & _ & [_ Hb Hs _ Hf Hw Hp]).
  split; [exact Hs|]. split; [done|]. split; [exact Hw|]. split; [done|].
  intros Hph. unfold phase_ok in Hp. rewrite Hph in Hp. destruct Hp as ([_ Hc] & Hfn & Hrd & Hlt).
  unfold requests. by rewrite Hc, app_nil_r.
Qed.

(** ** Shutdown *)

Lemma nreach_trans nd0 evs1 nd1 evs2 nd2 :
  nreach XXH3_64bits nd0 evs1 nd1 -> nreach XXH3_64bits nd1 evs2 nd2 ->
  nreach XXH3_64bits nd0 (evs1 ++ evs2) nd2.
Proof.
  intros H1 H2. induction H2; [by rewrite app_nil_r|]. rewrite app_assoc. by eapply nreach_step.
Qed.

Lemma nreach_one nd ev nd' :
  nevent_defined nd ev -> nstep XXH3_64bits nd ev (Ok nd') -> nreach XXH3_64bits nd [ev] nd'.
Proof. intros Hd Hst. by apply (nreach_step _ _ [] nd ev nd' (nreach_refl _ _)). Qed.

Lemma not_live nd i tid : nok nd -> main nd = Returned -> ~ live (pool (sys nd)) i tid.
Proof.
  intros Hnd Hm (w & Hw & _ & _ & Hio). pose proof (mo_workers _ _ (no_main _ _ _ _ _ Hnd) i w Hw) as H.
  rewrite Hm in H. cbn in H. congruence.
Qed.

(** An event of the shutdown: the main thread, or a thread that has only now
    come to store its identity. *)
Definition winds_down (ev : NEvent) : bool :=
  match ev with NMain | NBoot _ _ _ => true | _ => false end.

(** The main thread on its way out can go on by itself, in a bounded number
    of events. *)
Definition ends_within (d : nat) (nd : Node) : Prop :=
  exists evs nd', nreach XXH3_64bits nd evs nd' /\ main nd' = Returned
    /\ forallb winds_down evs = true /\ (length evs <= d)%nat.

Lemma ends_now d nd : main nd = Returned -> ends_within d nd.
Proof. intros H. exists [], nd. split; [apply nreach_refl|]. split; [done|]. split; [done|cbn; lia]. Qed.

Lemma ends_step d nd ev nd' :
  nstep XXH3_64bits nd ev (Ok nd') -> winds_down ev = true -> ends_within d nd' -> ends_within (S d) nd.
Proof.
  intros Hst Hw (evs & nd2 & Hr & Hm & Hf & Hl). exists (ev :: evs), nd2. split.
  - apply (nreach_trans _ [ev] nd'); [|done]. apply nreach_one; [by destruct ev|done].
  - split; [done|]. cbn. rewrite Hw, Hf. split; [done|lia].
Qed.

Lemma ends_main d nd mn p :
  main_turn (main nd) (pool (sys nd)) = Some (mn, p) ->
  ends_within d (set_main mn (set_pool p nd)) -> ends_within (S d) nd.
Proof. intros Hm. apply (ends_step d nd NMain); [by apply n_main|done]. Qed.

Lemma nok_step nd ev nd' :
  nok nd -> nevent_defined nd ev -> nstep XXH3_64bits nd ev (Ok nd') -> nok nd'.
Proof. apply node_step_next. Qed.

(** Joining the workers from [k] on; each may still have to store its
    identity. *)
Lemma joining_ends nd d k :
  nok nd -> main nd = Joining k -> (n - k <= d)%nat -> ends_within (2 * d + 1) nd.
Proof.
  revert nd k. induction d as [|d IH]; intros nd k Hnd Hm Hd.
  - apply (ends_main 0 nd Returned (pool (sys nd))).
    + rewrite Hm. cbn. rewrite lookup_ge_None_2; [done|]. pose proof (no_size _ _ _ _ _ Hnd) as Hn.
      unfold size in Hn. lia.
    + by apply ends_now.
  - destruct (workers_ (pool (sys nd)) !! k) as [w|] eqn:Hk; cycle 1.
    { replace (2 * S d + 1)%nat with (S (2 * d + 2)) by lia. apply (ends_main _ nd Returned (pool (sys nd))).
      + rewrite Hm. cbn. by rewrite Hk.
      + by apply ends_now. }
    pose proof (mo_workers _ _ (no_main _ _ _ _ _ Hnd) k w Hk) as Hw. rewrite Hm in Hw. cbn in Hw.
    rewrite bool_decide_false in Hw by lia. injection Hw as Hjn Hio.
    assert (Hjoin : forall nd, nok nd -> main nd = Joining k ->
      (exists w, workers_ (pool (sys nd)) !! k = Some w /\ joinable w = true /\ thread_ended w = true) ->
      ends_within (2 * d + 2) nd).
    { intros nd1 Hnd1 Hm1 (w1 & Hk1 & Hj1 & He1).
      replace (2 * d + 2)%nat with (S (2 * d + 1)) by lia.
      assert (Hmt : main_turn (main nd1) (pool (sys nd1)) = Some (Joining (S k), on_worker k join_worker (pool (sys nd1)))).
      { rewrite Hm1. cbn. by rewrite Hk1, Hj1, He1. }
      apply (ends_main _ _ _ _ Hmt). apply (IH _ (S k)); [|done|lia].
      by apply (nok_step nd1 NMain); [done|done|apply n_main]. }
    destruct (thread_id w) as [tid|] eqn:Ht.
    + destruct (Hjoin nd Hnd Hm) as (evs & nd' & H1 & H2 & H3 & H4).
      { exists w. split; [done|]. split; [done|]. unfold thread_ended. by rewrite Hio, Ht. }
      exists evs, nd'. split; [done|]. split; [done|]. split; [done|lia].
    + destruct (exist_fresh (list_to_set (omap id (threads (pool (sys nd)))) : gset positive)) as [tid Hf].
      assert (Hfresh : Some tid ∉ threads (pool (sys nd))).
      { intros Hin. apply Hf. rewrite elem_of_list_to_set, list_elem_of_omap. by exists (Some tid). }
      replace (2 * S d + 1)%nat with (S (2 * d + 2)) by lia.
      pose proof (n_boot XXH3_64bits nd k tid 1 w Hk Hjn Ht Hfresh) as Hboot.
      eapply (ends_step _ _ _ _ Hboot); [done|]. apply Hjoin; [by apply (nok_step nd (NBoot k tid 1))|done|].
      cbn [sys pool]. rewrite on_worker_lookup, decide_True, Hk by done. cbn. eexists. split; [done|].
      split; [done|]. unfold thread_ended. cbn. by rewrite Hio.
Qed.

Lemma stopping_ends nd d k :
  nok nd -> main nd = Stopping k -> (n - k <= d)%nat -> ends_within (d + 2 * n + 2) nd.
Proof.
  revert nd k. induction d as [|d IH]; intros nd k Hnd Hm Hd.
  - assert (Hmt : main_turn (main nd) (pool (sys nd)) = Some (Joining 0, pool (sys nd))).
    { rewrite Hm. cbn. rewrite decide_False; [done|]. pose proof (no_size _ _ _ _ _ Hnd). lia. }
    replace (0 + 2 * n + 2)%nat with (S (2 * n + 1)) by lia. apply (ends_main _ _ _ _ Hmt).
    apply (joining_ends _ _ 0); [by apply (nok_step nd NMain); [done|done|apply n_main]|done|lia].
  - destruct (decide (k < size (pool (sys nd)))%nat) as [Hk|Hk].
    + assert (Hmt : main_turn (main nd) (pool (sys nd)) = Some (Stopping (S k), on_worker k stop_worker (pool (sys nd)))).
      { rewrite Hm. cbn. by rewrite decide_True. }
      apply (ends_main _ _ _ _ Hmt). apply (IH _ (S k)); [|done|lia].
      by apply (nok_step nd NMain); [done|done|apply n_main].
    + assert (H : ends_within (d + 2 * n + 2) nd).
      { apply (IH nd k); [done|done|]. rewrite (no_size _ _ _ _ _ Hnd) in Hk. lia. }
      destruct H as (evs & nd' & H1 & H2 & H3 & H4). exists evs, nd'. repeat (split; [done|]). lia.
Qed.

Lemma ends_weaken d d' nd : (d <= d')%nat -> ends_within d nd -> ends_within d' nd.
Proof. intros Hd (evs & nd' & H1 & H2 & H3 & H4). exists evs, nd'. repeat (split; [done|]). lia. Qed.

Definition shutting_down (mn : Main) : bool :=
  match mn with Signalled | Stopping _ | Joining _ => true | _ => false end.

(** C11. Shutdown: from the signal on, at every moment and whatever the other
    threads have done in between, the main thread can get to the end of
    [Server::run] by itself, in at most three steps per worker and three more;
    and when it is there nothing runs any more - no thread touches the
    objects that are then destroyed -, and the destructor of the pool, which
    stops it, has nothing left to do. *)
Theorem node_shutdown evs nd :
  runs evs nd ->
  (shutting_down (main nd) = true -> ends_within (3 * n + 3) nd)
  /\ (main nd = Returned -> (forall ev r, ~ nstep XXH3_64bits nd ev r)
        /\ destroy (pool (sys nd)) = pool (sys nd)).
Proof.
  intros Hnd%runs_ok. split.
  - intros Hs. destruct (main nd) as [|k| | |k|k|] eqn:Hm; try done; cycle 1.
    { eapply ends_weaken; [|by apply (stopping_ends nd n k); [done|done|lia]]. lia. }
    { eapply ends_weaken; [|by apply (joining_ends nd n k); [done|done|lia]]. lia. }
    assert (Hmt : main_turn (main nd) (pool (sys nd)) = Some (Stopping 0, set_stopped (pool (sys nd)))).
    { rewrite Hm. cbn. by rewrite (mo_stopped _ _ (no_main _ _ _ _ _ Hnd)), Hm. }
    replace (3 * n + 3)%nat with (S (n + 2 * n + 2)) by lia. apply (ends_main _ _ _ _ Hmt).
    apply (stopping_ends _ _ 0); [by apply (nok_step nd NMain); [done|done|apply n_main]|done|lia].
  - intros Hm. split; [intros ev r Hst|].
    2: { unfold destroy, stop. by rewrite (mo_stopped _ _ (no_main _ _ _ _ _ Hnd)), Hm. }
    pose proof (fun i tid => not_live nd i tid Hnd Hm) as Hl.
    inversion Hst as [mn p H| | |i tid hc w H Hj| | | | | | | |]; subst; try congruence; try (by eapply Hl).
    + by rewrite Hm in H.
    + pose proof (mo_workers _ _ (no_main _ _ _ _ _ Hnd) i w H) as Hw. rewrite Hm in Hw. cbn in Hw. congruence.
Qed.

(** ** Progress *)

(** What connection [j] can do next. *)
Definition can_go (nd : Node) (j : nat) (c : Conn) : Prop :=
  match phase c with
  | Parsing => exists tid nd', nstep XXH3_64bits nd (NTurn tid j) (Ok nd')
  | Executing => exists v calls cmd, current (trail c) = Some (v, calls) /\ command_of v = Some cmd
      /\ (length calls <= n)%nat
      /\ ((exists tid nd', nstep XXH3_64bits nd (NReply tid j) (Ok nd'))
          \/ (length calls < n)%nat /\ exists tid i, forall clock, clock_defined cmd clock ->
               nevent_defined nd (NCall tid j i clock)
               /\ if noverflows nd (NCall tid j i clock)
                  then counts_fit cmd clock = false
                       /\ nstep XXH3_64bits nd (NCall tid j i clock) (Fault SignedOverflow)
                  else exists nd', nstep XXH3_64bits nd (NCall tid j i clock) (Ok nd'))
  | Reading => 0 < available_capacity (session c)
      /\ forall data, 0 < zlen data <= available_capacity (session c) ->
           exists tid nd', nstep XXH3_64bits nd (NRead tid j None data) (Ok nd')
  | Writing w _ => exists tid nd', nstep XXH3_64bits nd (NWritten tid j true (length w)) (Ok nd')
  | Closed => True
  end.

(** The workers' threads run. *)
Definition workers_live (nd : Node) : Prop :=
  forall i, (i < n)%nat -> exists tid, live (pool (sys nd)) i tid.

Lemma conn_can_go nd j c : nok nd -> conns nd !! j = Some c -> workers_live nd -> can_go nd j c.
Proof.
  intros Hnd Hj Hth. destruct (conn_in_order nd j c Hnd Hj) as (home & r & Hcl & Hh & Hrun & Hc).
  destruct (Hth home Hh) as [tid Hlv].
  unfold can_go. pose proof (co_phase _ _ _ _ _ _ _ Hc) as Hp. pose proof (co_limit _ _ _ _ _ _ _ Hc) as Hlim.
  unfold phase_ok in Hp. destruct (phase c) as [| | |w next|] eqn:Hph; [| | | |done].
  - pose proof (n_turn XXH3_64bits nd tid j c home r Hj Hph Hcl Hlv) as Hst.
    pose proof (node_step_ok XXH3_64bits n m _ nd (NTurn tid j) _ Hnd I Hst) as (nd' & E & _). rewrite E in Hst. by exists tid, nd'.
  - destruct Hp as (_ & v & calls & cmd & t & Hcur & -> & Hv & Hm & Hle & Hwi). exists v, calls, cmd.
    split; [done|]. split; [done|]. split; [done|]. destruct t as [rep|f|how i B fn k]; [left| |right].
    + pose proof (n_reply XXH3_64bits nd tid j c home cmd rep Hj Hcl Hlv) as Hst.
      pose proof (node_step_ok XXH3_64bits n m _ nd (NReply tid j) _ Hnd I Hst) as (nd' & E & _).
      rewrite E in Hst. by exists tid, nd'.
    + by destruct Hrun as (_ & Hsafe & _).
    + split; [destruct (n - length calls)%nat eqn:E; [done|lia]|].
      destruct Hm as (Hi & Hl & _). destruct (Hth i Hi) as [tid' Hlv']. exists tid', i. intros clock Hd.
      destruct (shard_exists (pool (sys nd)) i) as [s Hs]; [by rewrite (no_size _ _ _ _ _ Hnd)|].
      assert (Hct : call_thread (pool (sys nd)) home how i tid').
      { destruct how; cbn; [rewrite <- (Hl eq_refl)|]; by apply live_thread. }
      pose proof (step_call XXH3_64bits (sys nd) j home cmd how i B fn k tid tid' clock Hcl
        (live_thread _ _ _ Hlv) Hct) as Hst.
      assert (Hdef : nevent_defined nd (NCall tid' j i clock)).
      { intros h0 cmd0 t0 E. rewrite Hcl in E. by injection E as _ <- _. }
      pose proof (n_call XXH3_64bits nd tid' i j i clock c home cmd _ s _ Hj Hcl Hs Hlv' Hst) as Hn.
      pose proof (node_step_ok XXH3_64bits n m _ nd _ _ Hnd Hdef Hn) as H. split; [done|].
      destruct (noverflows nd (NCall tid' j i clock)) eqn:Ho.
      * rewrite H in Hn. cbn [noverflows event_overflows] in Ho. rewrite Hcl, Hs in Ho.
        by apply overflows_count in Ho.
      * destruct H as (nd' & E & _). rewrite E in Hn. by exists nd'.
  - destruct Hp as (_ & _ & _ & Hlt). unfold available_capacity. rewrite Hlim. split; [lia|]. intros data Hd.
    eexists tid, _. eapply (n_read XXH3_64bits nd tid j c home r None data Hj Hph Hcl Hlv).
    unfold available_capacity. by rewrite Hlim.
  - eexists tid, _. by eapply (n_written XXH3_64bits nd tid j c w next home r true (length w)).
Qed.

(** C12. No connection is ever stuck: while the workers run, a connection that
    parses, writes or has a reply can take that step, one that executes a
    command can make its next call at any time - without a fault, unless the
    deadline of the command overflows at that time on what the shard holds; only
    a [TTL] asks for its two readings of the clock to be in order -, and it makes at most one call per shard; one that reads can take what arrives,
    and has room for at least a byte. *)
Theorem node_progress evs nd j c :
  runs evs nd -> conns nd !! j = Some c -> workers_live nd -> can_go nd j c.
Proof. intros Hr%runs_ok. by apply conn_can_go. Qed.

(** C35. The cleaning loop of a running worker is never stuck.  When it looks at
    its shard, it falls asleep no longer than until the deadline of any key
    that is there and has not lapsed yet, or for three seconds when no key has
    one; and at any time from the end of that wait on it can purge the shard,
    which then holds the entries that have not lapsed at that time, in the
    same order, and no others. *)
Theorem node_cleaning evs nd i tid s :
  runs evs nd -> live (pool (sys nd)) i tid -> shards (pool (sys nd)) !! i = Some s ->
  (naps nd !! i = Some Awake
   /\ forall now, exists nd' wake, nstep XXH3_64bits nd (NPlan tid i now) (Ok nd')
        /\ naps nd' !! i = Some (Until_wake wake) /\ now <= wake
        /\ (wake <= now + 3000000000 \/ exists e, e ∈ abs_entries s /\ e_deadline e = Some wake)
        /\ forall e t, e ∈ abs_entries s -> e_deadline e = Some t -> wake <= Z.max now t)
  \/ exists wake, naps nd !! i = Some (Until_wake wake)
     /\ forall now, wake <= now -> exists nd' s', nstep XXH3_64bits nd (NClean tid i now) (Ok nd')
          /\ shards (pool (sys nd')) !! i = Some s' /\ naps nd' !! i = Some Awake
          /\ abs_entries s' = filter (fun e => has_lapsed now e = false) (abs_entries s).
Proof.
  intros Hnd%runs_ok Hlv Hs. pose proof (sk_shards _ _ _ (no_sys _ _ _ _ _ Hnd) i s Hs) as Hso.
  pose proof (so_inv _ _ _ _ _ Hso) as I.
  assert (Hi : (i < length (naps nd))%nat).
  { rewrite (no_naps _ _ _ _ _ Hnd), <- (no_size _ _ _ _ _ Hnd). destruct Hlv as (w & Hw & _).
    by eapply lookup_lt_Some. }
  destruct (lookup_lt_is_Some_2 _ _ Hi) as [[|wake] Hnap]; [left|right].
  - split; [done|]. intros now. eexists _, _.
    split; [by apply n_plan|]. split; [cbn [naps set_nap]; by apply list_lookup_insert_eq|].
    pose proof (plan_sleep_spec now s I) as Hp. destruct (plan_sleep now s) as [|t|d]; cbn [wakes_at].
    + repeat split; [lia|left; lia|intros; lia].
    + destruct Hp as (Hlt & He & Hmin). repeat split; [lia|by right|]. intros e t' Hin Ht.
      specialize (Hmin e t' Hin Ht). lia.
    + destruct Hp as [-> Hnone]. repeat split; [lia|left; lia|]. intros e t He Ht. by rewrite (Hnone e He) in Ht.
  - exists wake. split; [done|]. intros now Hw.
    destruct (purge_facts now s I) as (s' & Hp & _ & A').
    pose proof (step_clean XXH3_64bits (sys nd) i tid now s (live_thread _ _ _ Hlv) Hs) as Hst.
    pose proof (n_clean XXH3_64bits nd tid i wake now _ Hnap Hw Hlv Hst) as Hn. rewrite Hp in Hn.
    cbn [mbind res_bind mret res_ret] in Hn. eexists _, s'. split; [exact Hn|].
    cbn [sys pool naps set_nap add_effect set_sys]. split.
    { cbn [pool]. rewrite put_shard_shards. apply list_lookup_insert_eq. by eapply lookup_lt_Some. }
    split; [by apply list_lookup_insert_eq|done].
Qed.
End NodeTheorems.

(** ** Instances *)

Definition overflow_node : Node := played demo_config (overflow_events #"k").

Lemma node_safe_witness :
  (noverflows demo_node demo_call = false /\ (exists nd', demo_result = Ok nd')
   /\ forall tid i, ntouches demo_call = Some (tid, i) ->
        live (pool (sys demo_node)) i tid /\ forall i', live (pool (sys demo_node)) i' tid -> i' = i)
  /\ noverflows overflow_node (NCall t1 0 1 (0, 0)) = true
  /\ nstep length_hash overflow_node (NCall t1 0 1 (0, 0)) (Fault SignedOverflow).
Proof.
  pose proof (nexec_sound _ _ _ _ expire_overflows_present) as [Hst Hd]. split; [|split].
  - assert (Hn : noverflows demo_node demo_call = false) by (vm_compute; reflexivity). split; [exact Hn|].
    pose proof (node_safe length_hash demo_config demo_events demo_node demo_call demo_result) as H.
    rewrite Hn in H. apply H; [apply demo_node_reach|apply demo_call_step..].
  - pose proof (node_safe length_hash demo_config (overflow_events #"k") overflow_node (NCall t1 0 1 (0, 0)) (Fault SignedOverflow)) as H.
    destruct (noverflows overflow_node (NCall t1 0 1 (0, 0))); [reflexivity|].
    destruct H as [[nd' E] _]; [apply played_reach; vm_compute; reflexivity|exact Hd|exact Hst|discriminate E].
  - exact Hst.
Defined.

Lemma node_memory_witness :
  payload (pool (sys demo_node)) <= 2 * 4096
  /\ forall i i' s s' e e', shards (pool (sys demo_node)) !! i = Some s ->
       shards (pool (sys demo_node)) !! i' = Some s' ->
       e ∈ abs_entries s -> e' ∈ abs_entries s' -> e_key e = e_key e' -> i = i'.
Proof. apply (node_memory length_hash demo_config demo_events). apply demo_node_reach. Defined.

Lemma node_linearizable_witness :
  history (replicate 2 (abs (newShard 4096))) (log demo_node) (abs_pool (pool (sys demo_node)))
  /\ forall j c, conns demo_node !! j = Some c ->
       calls_of j (log demo_node) = concat (ex_calls <$> exchanges (trail c))
                             ++ match current (trail c) with Some (_, calls) => calls | None => [] end
       /\ Forall (exchange_ok length_hash 2) (exchanges (trail c)).
Proof. apply (node_linearizable length_hash demo_config demo_events). apply demo_node_reach. Defined.

Definition demo_conn : Conn := default (newConn 1) (conns demo_node !! 1%nat).

Lemma node_conversation_witness :
  (exists es, received (trail demo_conn) = concat es ++ buffer_ (session demo_conn)
     /\ Forall2 (fun v e => encodes 0 v e /\ zlen e <= 64) (requests (trail demo_conn)) es)
  /\ zlen (buffer_ (session demo_conn)) <= 64
  /\ (failed (trail demo_conn) = false ->
        sent (trail demo_conn) ++ match phase demo_conn with Writing w _ => w | _ => [] end
        = concat ((ex_message <$> exchanges (trail demo_conn))
                  ++ match farewell (trail demo_conn) with Some w => [w] | None => [] end))
  /\ (forall w, farewell (trail demo_conn) = Some w -> farewell_ok 64 (session demo_conn) w)
  /\ (phase demo_conn = Reading ->
        requests (trail demo_conn) = ex_value <$> exchanges (trail demo_conn)
        /\ farewell (trail demo_conn) = None
        /\ RespGrammar.read [] (buffer_ (session demo_conn)) = RMore
        /\ zlen (buffer_ (session demo_conn)) < 64).
Proof.
  apply (node_conversation length_hash demo_config demo_events demo_node 1).
  - apply demo_node_reach.
  - unfold demo_conn. assert (H : bool_decide (is_Some (conns demo_node !! 1%nat)) = true) by (vm_compute; reflexivity).
    apply bool_decide_eq_true in H as [c ->]. done.
Defined.

Definition demo_end : list NEvent := demo_start ++ demo_talk ++ demo_replies ++ [NSignal].

Lemma node_shutdown_witness :
  (shutting_down (main (played demo_config demo_end)) = true ->
     ends_within length_hash 9 (played demo_config demo_end))
  /\ (main (played demo_config demo_end) = Returned ->
       (forall ev r, ~ nstep length_hash (played demo_config demo_end) ev r)
       /\ destroy (pool (sys (played demo_config demo_end))) = pool (sys (played demo_config demo_end))).
Proof.
  apply (node_shutdown length_hash demo_config demo_end). apply played_reach. vm_compute. reflexivity.
Defined.

Lemma node_progress_witness : can_go length_hash demo_config demo_node 1 demo_conn.
Proof.
  apply (node_progress length_hash demo_config demo_events demo_node 1).
  - apply demo_node_reach.
  - unfold demo_conn. assert (H : bool_decide (is_Some (conns demo_node !! 1%nat)) = true) by (vm_compute; reflexivity).
    apply bool_decide_eq_true in H as [c ->]. done.
  - intros i Hi. assert (H : live_b (pool (sys demo_node)) 0 t0 && live_b (pool (sys demo_node)) 1 t1 = true)
      by (vm_compute; reflexivity).
    apply andb_true_iff in H as [H0%live_b_live H1%live_b_live].
    destruct i as [|[|i]]; [by exists t0|by exists t1|]. vm_compute in Hi. lia.
Defined.

Lemma node_cleaning_witness :
  let s := default (newShard 1) (shards (pool (sys demo_node)) !! 1%nat) in
  (naps demo_node !! 1%nat = Some Awake
   /\ forall now, exists nd' wake, nstep length_hash demo_node (NPlan t1 1 now) (Ok nd')
        /\ naps nd' !! 1%nat = Some (Until_wake wake) /\ now <= wake
        /\ (wake <= now + 3000000000 \/ exists e, e ∈ abs_entries s /\ e_deadline e = Some wake)
        /\ forall e t, e ∈ abs_entries s -> e_deadline e = Some t -> wake <= Z.max now t)
  \/ exists wake, naps demo_node !! 1%nat = Some (Until_wake wake)
     /\ forall now, wake <= now -> exists nd' s', nstep length_hash demo_node (NClean t1 1 now) (Ok nd')
          /\ shards (pool (sys nd')) !! 1%nat = Some s' /\ naps nd' !! 1%nat = Some Awake
          /\ abs_entries s' = filter (fun e => has_lapsed now e = false) (abs_entries s).
Proof.
  apply (node_cleaning length_hash demo_config demo_events demo_node 1 t1).
  - apply demo_node_reach.
  - apply live_b_live. vm_compute. reflexivity.
  - assert (H : bool_decide (is_Some (shards (pool (sys demo_node)) !! 1%nat)) = true) by (vm_compute; reflexivity).
    apply bool_decide_eq_true in H as [s ->]. done.
Defined.
