(* ===== verification/NodeLiveness.v ===== *)
(** * Every request is answered in the end

    Infinite runs of the program.  If the threads of the workers run from some
    moment on and the scheduler is fair to a connection - a handler of it that
    can run does run sooner or later - then whatever else happens, and in
    whatever order, the connection comes to rest: it waits for its client,
    having answered everything it received, or it is closed. *)

From S2P Require Import Prelude RespValue RespGrammar RespSerializer Command LruShard LruSpec ShardPool.
From S2P Require Import CommandExecutor ExecutorSpec PoolSpec ExecutorTheorems Config Server Session SessionTheorems Calls CallBound.
From S2P Require Import Connection System Node NodeInv NodeStep NodeRun NodeTheorems.

(** ** Weak fairness *)

(** What is [ready] to be done is done, or comes to a moment at which it is
    not. *)
Definition weakly_fair (ready : Node -> Prop) (acts : NEvent -> Prop) (states : nat -> Node)
    (events : nat -> NEvent) : Prop :=
  forall k, ready (states k) -> exists d, ~ ready (states (k + d)%nat) \/ acts (events (k + d)%nat).

Section WeakFairness.
Variables (ready : Node -> Prop) (acts : NEvent -> Prop).
Context {acts_dec : forall ev, Decision (acts ev)}.
Variables (states : nat -> Node) (events : nat -> NEvent) (P : Node -> Prop) (k0 : nat).
Hypothesis Hstable : forall k, (k0 <= k)%nat -> P (states k) -> ~ acts (events k) -> P (states (S k)).

Lemma stable_until_acts d :
  P (states k0) ->
  (exists e, (e < d)%nat /\ acts (events (k0 + e)%nat) /\ P (states (k0 + e)%nat)) \/ P (states (k0 + d)%nat).
Proof.
  intros HP. induction d as [|d [(e & He & H)|Hs]]; [right; by rewrite Nat.add_0_r| |].
  - left. exists e. split; [lia|done].
  - destruct (decide (acts (events (k0 + d)%nat))) as [Ha|Ha]; [left; exists d; split; [lia|done]|].
    right. rewrite Nat.add_succ_r. apply Hstable; [lia|done..].
Qed.

(** A property that makes an action ready, and that nothing else ends, leads to
    the action. *)
Lemma acts_eventually :
  weakly_fair ready acts states events ->
  (forall k, (k0 <= k)%nat -> P (states k) -> ready (states k)) ->
  P (states k0) -> exists k, (k0 <= k)%nat /\ P (states k) /\ acts (events k).
Proof.
  intros Hfair Hready HP. destruct (Hfair k0 (Hready k0 (Nat.le_refl _) HP)) as (d & Hd).
  destruct (stable_until_acts d HP) as [(e & _ & Ha & Hs)|Hs].
  - exists (k0 + e)%nat. split; [lia|done].
  - exists (k0 + d)%nat. split; [lia|]. split; [done|]. destruct Hd as [Hn|Hd]; [|done].
    destruct Hn. apply Hready; [lia|done].
Qed.
End WeakFairness.

(** ** The handlers of a connection, and what is left for them to do *)

(** The connection whose handler an event is; reads are up to the client. *)
Definition handler_of (ev : NEvent) : option nat :=
  match ev with
  | NTurn _ j | NCall _ j _ _ | NReply _ j | NWritten _ j _ _ => Some j
  | _ => None
  end.

(** The connection does not wait for its client and is not over. *)
Definition pending (c : Conn) : bool :=
  match phase c with Parsing | Executing | Writing _ _ => true | Reading | Closed => false end.

(** The handlers it takes at most before the connection is at rest: each
    request takes a byte of the buffer, a turn, [n] calls, a reply and a
    write. *)
Definition parse_work (n : nat) (b : bytes) : nat := ((n + 3) * length b + 2)%nat.

Definition work (n : nat) (c : Conn) : nat :=
  match phase c with
  | Parsing => parse_work n (buffer_ (session c))
  | Executing =>
      let made := match current (trail c) with Some (_, calls) => length calls | None => O end in
      (n - made + 2 + parse_work n (buffer_ (session c)))%nat
  | Writing _ Continue => S (parse_work n (buffer_ (session c)))
  | Writing _ Close => 1
  | Reading | Closed => 0
  end.

Lemma pending_work n c : pending c = true <-> (0 < work n c)%nat.
Proof. unfold pending, work, parse_work. destruct (phase c) as [| | |w []|]; split; (done || lia). Qed.

Lemma parse_work_step n b b' : (length b' < length b)%nat -> (n + 3 + parse_work n b' <= parse_work n b)%nat.
Proof. unfold parse_work. nia. Qed.

(** A turn consumes a request or ends the parsing. *)
Lemma turn_work n c turn :
  phase c = Parsing -> session_turn (session c) = Ok turn ->
  (work n (turned c turn).1 < work n c)%nat /\ received (trail (turned c turn).1) = received (trail c).
Proof.
  intros Hp. rewrite session_turn_parse. unfold work at 2. rewrite Hp.
  set (b := buffer_ (session c)). assert (H2 : (2 <= parse_work n b)%nat) by (unfold parse_work; lia).
  destruct (RespGrammar.read [] b) as [| |v r] eqn:Hr.
  - unfold start_read. destruct (_ <=? _); intros H; res_inv; split; (done || (cbn; lia)).
  - intros H. res_inv. split; [cbn; lia|done].
  - apply read_value_shorter in Hr. pose proof (parse_work_step n b r Hr) as Hw. intros H.
    apply bind_Ok in H as ([command|] & _ & H); res_inv; (split; [cbn; lia|done]).
Qed.

Section Liveness.
Variable XXH3_64bits : bytes -> N.
Variable toml_config : Lookups.

Abbreviation config := (get_config toml_config).
Abbreviation n := (node_shards toml_config).
Abbreviation m := (node_budget toml_config).
Abbreviation limit := (node_limit toml_config).
Abbreviation nok := (node_ok XXH3_64bits n m (max_message_size config)).

(** ** The handlers of a connection *)

(** A handler of a connection brings it nearer to its rest. *)
Lemma handler_step nd ev nd' j c :
  nok nd -> conns nd !! j = Some c -> nstep XXH3_64bits nd ev (Ok nd') -> handler_of ev = Some j ->
  exists c', conns nd' !! j = Some c' /\ (work n c' < work n c)%nat
    /\ received (trail c') = received (trail c).
Proof.
  intros Hnd Hj Hst Hev. pose proof (lookup_lt_Some _ _ _ Hj) as Hlt.
  destruct (conn_in_order XXH3_64bits toml_config nd j c Hnd Hj) as (home0 & r0 & Hcl0 & _ & _ & Hc).
  inversion Hst as [| | | |tid j' c0 home r Hj' Hp Hcl Hlv Ev Hr|tid w j' i clock conn home cmd t s r Hj' Hcl Hs Hlv Hcall Ev Hr
    |tid j' c0 home cmd r Hj' Hcl Hlv Ev Hr|tid j' c0 message next home r ok k Hj' Hp Hcl Hlv Hk Hok Ev Hr| | | |];
    subst ev; cbn in Hev; try discriminate Hev; injection Hev as ->; rewrite Hj in Hj'; injection Hj' as <-;
    rewrite Hcl in Hcl0; injection Hcl0 as <- <-.
  - apply bind_Ok in Hr as (turn & Ht & [= <-]). destruct (turn_work n c turn Hp Ht) as [Hw Hrc].
    unfold turn_taken. destruct (turned c turn) as [c' command]. exists c'.
    split; [by destruct command; apply list_lookup_insert_eq|done].
  - apply bind_Ok in Hr as (st & -> & [= <-]).
    destruct (executing _ _ _ _ _ _ _ _ Hc) as (Hph & _ & v & calls & Hcur & _ & _ & Hle & Hwi).
    assert (Hn : (length calls < n)%nat).
    { inversion Hcall as [| |? ? ? ? ? ? ? ? ? ? ? Hcl' | | |]; subst. rewrite Hcl in Hcl'.
      injection Hcl' as -> -> ->. destruct (n - length calls)%nat eqn:E; [done|lia]. }
    eexists. split; [by apply list_lookup_insert_eq|]. unfold called. rewrite Hcur.
    unfold work. cbn [phase session trail set_current current received]. rewrite Hph, Hcur.
    split; [|done]. rewrite length_app. cbn [length]. lia.
  - apply bind_Ok in Hr as (c' & Ha & [= <-]).
    destruct (executing _ _ _ _ _ _ _ _ Hc) as (Hph & _ & v & calls & Hcur & _).
    unfold answered in Ha. rewrite Hcur in Ha. apply bind_Ok in Ha as (w & _ & [= <-]).
    eexists. split; [by apply list_lookup_insert_eq|]. unfold work. cbn [phase session trail add_exchange received].
    rewrite Hph, Hcur. split; [lia|done].
  - eexists. split; [by apply list_lookup_insert_eq|]. unfold work. rewrite Hp.
    split; [|done]. destruct next; cbn; lia.
Qed.

(** Nothing else touches a connection that is pending. *)
Lemma set_conn_other j j' c nd : j' <> j -> conns (set_conn j' c nd) !! j = conns nd !! j.
Proof. intros H. by apply list_lookup_insert_ne. Qed.

Lemma other_step nd ev nd' j c :
  conns nd !! j = Some c -> pending c = true -> nstep XXH3_64bits nd ev (Ok nd') -> handler_of ev <> Some j ->
  conns nd' !! j = Some c.
Proof.
  intros Hj Hpe Hst Hev.
  inversion Hst as [| |ec Hm Ev Hr| |tid j' c0 home r Hj' Hp Hcl Hlv Ev Hr|tid w j' i clock conn home cmd t s r Hj' Hcl Hs Hlv Hcall Ev Hr
    |tid j' c0 home cmd r Hj' Hcl Hlv Ev Hr|tid j' c0 message next home r ok k Hj' Hp Hcl Hlv Hk Hok Ev Hr
    |tid j' c0 home r ec data Hj' Hp _ _ _ Ev Hr| |tid i wake now r _ _ _ _ Ev Hr|]; subst ev; try done; cbn in Hev.
  - apply bind_Ok in Hr as (srv & _ & [= <-]). by apply lookup_app_l_Some.
  - apply bind_Ok in Hr as (turn & _ & [= <-]). unfold turn_taken. destruct (turned c0 turn) as [c' command].
    rewrite set_conn_other by congruence. by destruct command.
  - apply bind_Ok in Hr as (st & _ & [= <-]). exact (eq_trans (set_conn_other j j' _ (set_sys st nd) ltac:(congruence)) Hj).
  - apply bind_Ok in Hr as (c' & _ & [= <-]). by rewrite set_conn_other by congruence.
  - by rewrite set_conn_other by congruence.
  - rewrite set_conn_other; [done|]. intros ->. rewrite Hj in Hj'. injection Hj' as <-.
    unfold pending in Hpe. by rewrite Hp in Hpe.
  - by apply bind_Ok in Hr as (st & _ & [= <-]).
Qed.

(** ** Fairness *)

(** A handler of the connection can run. *)
Definition ready (nd : Node) (j : nat) : Prop :=
  exists ev nd', handler_of ev = Some j /\ nevent_defined nd ev /\ nstep XXH3_64bits nd ev (Ok nd').

(** It executes a command whose count overflows whatever the time: the call that
    sets the deadline can only fault. *)
Definition doomed (c : Conn) : Prop :=
  exists v calls cmd, current (trail c) = Some (v, calls) /\ command_of v = Some cmd
    /\ forall clock, counts_fit cmd clock = false.

Lemma pending_ready nd j c :
  nok nd -> conns nd !! j = Some c -> workers_live toml_config nd -> pending c = true -> doomed c \/ ready nd j.
Proof.
  intros Hnd Hj Hth Hp. pose proof (conn_can_go XXH3_64bits toml_config nd j c Hnd Hj Hth) as Hgo.
  unfold can_go in Hgo. unfold pending in Hp. destruct (phase c) as [| | |w next|]; try done.
  - destruct Hgo as (tid & nd' & Hst). right. by exists (NTurn tid j), nd'.
  - destruct Hgo as (v & calls & cmd & Hcur & Hv & _ & [(tid & nd' & Hst)|(_ & tid & i & Hcall)]).
    + right. by exists (NReply tid j), nd'.
    + destruct (counts_fit cmd (0, 0)) eqn:Hc.
      * destruct (Hcall (0, 0)) as (Hdef & H); [by intros _|].
        destruct (noverflows nd (NCall tid j i (0, 0))); [destruct H; congruence|].
        destruct H as (nd' & Hst). right. by exists (NCall tid j i (0, 0)), nd'.
      * left. exists v, calls, cmd. split; [done|]. split; [done|]. intros clock.
        destruct (counts_fit cmd clock) eqn:E; [|done]. apply counts_fit_start in E. congruence.
  - destruct Hgo as (tid & nd' & Hst). right. by exists (NWritten tid j true (length w)), nd'.
Qed.

(** An infinite run of the program: the states and the events between them,
    the readings of the clock being in order. *)
Record run_forever (states : nat -> Node) (events : nat -> NEvent) : Prop := {
  rf_boot : states 0%nat = boot toml_config;
  rf_defined : forall k, nevent_defined (states k) (events k);
  rf_step : forall k, nstep XXH3_64bits (states k) (events k) (Ok (states (S k))) }.

(** The scheduler is fair to [j]. *)
Definition fair (states : nat -> Node) (events : nat -> NEvent) (j : nat) : Prop :=
  weakly_fair (fun nd => ready nd j) (fun ev => handler_of ev = Some j) states events.

Section Run.
Variables (states : nat -> Node) (events : nat -> NEvent) (j k0 : nat).
Hypothesis Hrun : run_forever states events.
Hypothesis Hlive : forall k, (k0 <= k)%nat -> workers_live toml_config (states k).
Hypothesis Hfair : fair states events j.

Lemma states_ok k : nok (states k).
Proof.
  induction k as [|k IH]; [rewrite (rf_boot _ _ Hrun); apply boot_ok|].
  exact (node_step_next _ _ _ _ _ _ _ IH (rf_defined _ _ Hrun k) (rf_step _ _ Hrun k)).
Qed.

(** A pending connection stays as it is until a handler of it runs, which
    happens unless it is doomed. *)
Lemma handler_runs k c :
  (k0 <= k)%nat -> conns (states k) !! j = Some c -> pending c = true -> ~ doomed c ->
  exists k', (k <= k')%nat /\ conns (states k') !! j = Some c /\ handler_of (events k') = Some j.
Proof.
  intros Hk Hj Hp Hn. refine (acts_eventually _ _ _ _ (fun nd => conns nd !! j = Some c) k _ Hfair _ Hj).
  - intros k' _ Hj' Ha. by eapply other_step; [..|apply (rf_step _ _ Hrun k')|].
  - intros k' Hk' Hj'. by destruct (pending_ready _ _ _ (states_ok k') Hj' (Hlive k' ltac:(lia)) Hp).
Qed.

Lemma doomed_dec c : doomed c \/ ~ doomed c.
Proof.
  unfold doomed. destruct (current (trail c)) as [[v calls]|]; [|right; by intros (? & ? & ? & ? & _)].
  destruct (command_of v) as [cmd|] eqn:Hv; [|right; intros (? & ? & ? & [= <- <-] & ? & _); congruence].
  destruct (counts_fit cmd (0, 0)) eqn:Hc.
  - right. intros (v' & calls' & cmd' & [= <- <-] & Hv' & H). rewrite Hv in Hv'. injection Hv' as <-.
    by rewrite H in Hc.
  - left. exists v, calls, cmd. split; [done|]. split; [done|]. intros clock.
    destruct (counts_fit cmd clock) eqn:E; [|done]. apply counts_fit_start in E. congruence.
Qed.

Lemma comes_to_rest k c :
  (k0 <= k)%nat -> conns (states k) !! j = Some c ->
  exists k' c', (k <= k')%nat /\ conns (states k') !! j = Some c' /\ (pending c' = false \/ doomed c')
    /\ received (trail c') = received (trail c).
Proof.
  remember (work n c) as w eqn:Hw. revert k c Hw.
  induction w as [w IH] using lt_wf_ind. intros k c -> Hk Hj.
  destruct (pending c) eqn:Hp; [|exists k, c; by auto].
  destruct (doomed_dec c) as [Hdm|Hdm]; [exists k, c; by auto|].
  destruct (handler_runs k c Hk Hj Hp Hdm) as (k1 & Hk1 & Hj1 & Hh).
  destruct (handler_step _ _ _ j c (states_ok k1) Hj1 (rf_step _ _ Hrun k1) Hh) as (c1 & Hj2 & Hlt & Hr).
  destruct (IH _ Hlt (S k1) c1 eq_refl) as (k' & c' & Hk' & Hj' & Hp' & Hr'); [lia|done|].
  exists k', c'. split; [lia|]. split; [done|]. split; [done|congruence].
Qed.
End Run.

(** A connection that is at rest has no handler to run. *)
Lemma rest_not_ready nd j c : nok nd -> conns nd !! j = Some c -> pending c = false -> ~ ready nd j.
Proof.
  intros Hnd Hj Hp (ev & nd' & Hh & _ & Hst).
  destruct (handler_step nd ev nd' j c Hnd Hj Hst Hh) as (c' & _ & Hlt & _).
  assert (Hw : (0 < work n c)%nat) by lia. apply pending_work in Hw. congruence.
Qed.

(** A connection at rest: it is closed, or it reads and has answered all the
    requests it received, whose encodings are all it received but for the
    beginning of a message in the buffer. *)
Definition at_rest (c : Conn) : Prop :=
  (phase c = Closed \/ phase c = Reading
     /\ exists es, received (trail c) = concat es ++ buffer_ (session c)
          /\ Forall2 (fun v e => encodes 0 v e) (ex_value <$> exchanges (trail c)) es
          /\ RespGrammar.read [] (buffer_ (session c)) = RMore)
  /\ (failed (trail c) = false -> sent (trail c) = concat (messages (trail c))).

Lemma pending_at_rest nd j c : nok nd -> conns nd !! j = Some c -> pending c = false -> at_rest c.
Proof.
  intros Hnd Hj Hp. destruct (conn_in_order XXH3_64bits toml_config nd j c Hnd Hj) as (home & r & _ & _ & _ & Hc).
  destruct Hc as [_ _ (es & Hrc & Hes) _ _ Hw Hph]. unfold pending in Hp. unfold phase_ok in Hph.
  split; [|intros Hf; specialize (Hw Hf); destruct (phase c); try done; cbn in Hw; by rewrite app_nil_r in Hw].
  destruct (phase c) as [| | |w next|]; try done; [|by left].
  right. split; [done|]. destruct Hph as ([_ Hcur] & _ & Hr & _). exists es. split; [done|]. split; [|done].
  unfold requests in Hes. rewrite Hcur, app_nil_r in Hes. eapply Forall2_impl; [exact Hes|]. by intros v e [? _].
Qed.

(** C7. Liveness: every request is answered.  In an infinite run of the program in
    which, from some moment on, the threads of the workers run, and which is
    fair to a connection, whatever the other connections, the listener, the
    network and the cleaning loops do and in whatever order, the connection
    comes to rest time and again, before it receives anything more: it is
    closed, or it waits for its client, has answered each request that it
    received, in order, and, if no write failed, its socket has taken the
    answers.  The one exception is a connection that comes to execute a [SET EX]
    or [EXPIRE] whose count takes the deadline out of the range of the clock
    whatever the time is: the call that sets it can only fault. *)
Theorem node_answers states events j k0 :
  run_forever states events -> fair states events j ->
  (forall k, (k0 <= k)%nat -> workers_live toml_config (states k)) ->
  forall k c, (k0 <= k)%nat -> conns (states k) !! j = Some c ->
    exists k' c', (k <= k')%nat /\ conns (states k') !! j = Some c'
      /\ received (trail c') = received (trail c) /\ (at_rest c' \/ doomed c').
Proof.
  intros Hrun Hfair Hlive k c Hk Hj.
  destruct (comes_to_rest states events j k0 Hrun Hlive Hfair k c Hk Hj) as (k' & c' & Hk' & Hj' & Hp & Hr).
  exists k', c'. repeat (split; [done|]). destruct Hp as [Hp|Hp]; [left|by right].
  eapply pending_at_rest; [by eapply states_ok|done|done].
Qed.
End Liveness.

(** ** An instance

    The run of [NodeRun] without its end: from then on the listener gets
    errors, for ever. *)

Definition rest_events : list NEvent := demo_start ++ demo_talk ++ demo_replies.
Definition rest_schedule (k : nat) : NEvent := default (NAccept true) (rest_events !! k).

Definition next_state (nd : Node) (ev : NEvent) : Node :=
  match nexec length_hash nd ev with Some (Ok nd') => nd' | _ => nd end.
Definition steps_b (nd : Node) (ev : NEvent) : bool :=
  match nexec length_hash nd ev with Some (Ok _) => true | _ => false end.

(** The states along a schedule, which are a run if every step succeeds. *)
Fixpoint states_along (schedule : nat -> NEvent) (k : nat) : Node :=
  match k with O => boot demo_config | S k => next_state (states_along schedule k) (schedule k) end.

Lemma schedule_run schedule :
  (forall k, steps_b (states_along schedule k) (schedule k) = true) ->
  run_forever length_hash demo_config (states_along schedule) schedule.
Proof.
  intros Hs. split; [done| |]; intros k; pose proof (Hs k) as H; unfold steps_b in H.
  all: destruct (nexec length_hash (states_along schedule k) (schedule k)) as [[nd|]|] eqn:E; try done.
  - by apply nexec_sound in E as [_ Hd].
  - cbn [states_along]. unfold next_state. rewrite E. by apply (nexec_sound length_hash) in E as [Hst _].
Qed.

Definition rest_states : nat -> Node := states_along rest_schedule.

Definition workers_live_b (nd : Node) : bool :=
  live_b (pool (sys nd)) 0 t0 && live_b (pool (sys nd)) 1 t1.

Lemma workers_live_b_pool nd nd' : pool (sys nd) = pool (sys nd') -> workers_live_b nd = workers_live_b nd'.
Proof. unfold workers_live_b. by intros ->. Qed.

Lemma workers_live_b_ok nd : workers_live_b nd = true -> workers_live demo_config nd.
Proof.
  intros [H0%live_b_live H1%live_b_live]%andb_true_iff i Hi.
  destruct i as [|[|i]]; [by exists t0|by exists t1|]. vm_compute in Hi. lia.
Qed.

Lemma rest_prefix k :
  (k <= length rest_events)%nat ->
  steps_b (rest_states k) (rest_schedule k) = true /\ ((10 <= k)%nat -> workers_live_b (rest_states k) = true).
Proof.
  intros Hk. assert (H : forallb (fun k => steps_b (rest_states k) (rest_schedule k)
      && ((k <? 10)%nat || workers_live_b (rest_states k))) (seq 0 (S (length rest_events))) = true)
    by (vm_compute; reflexivity).
  rewrite forallb_forall in H. specialize (H k). rewrite in_seq in H.
  apply andb_true_iff in H as [Hs Hl]; [|lia]. split; [done|].
  intros Hge. apply orb_true_iff in Hl as [Hl%Nat.ltb_lt|Hl]; [lia|done].
Qed.

(** A failed accept. *)
Lemma failed_accept nd :
  main nd = Serving -> (0 < size (pool (sys nd)))%nat ->
  exists nd', nexec length_hash nd (NAccept true) = Some (Ok nd')
    /\ main nd' = Serving /\ conns nd' = conns nd /\ pool (sys nd') = pool (sys nd).
Proof.
  intros Hm Hn. cbn [nexec]. rewrite Hm.
  destruct (listener_turn_spec true (server_of nd)) as (next & home & _ & ->); [done|].
  eexists. split; [reflexivity|]. unfold accepted. cbn. by rewrite Hm, !app_nil_r.
Qed.

(** What failed accepts leave alone. *)
Lemma failed_accepts (f : nat -> Node) e d :
  (forall k, (e <= k)%nat -> f (S k) = next_state (f k) (NAccept true)) ->
  main (f e) = Serving -> (0 < size (pool (sys (f e))))%nat ->
  conns (f (e + d)%nat) = conns (f e) /\ pool (sys (f (e + d)%nat)) = pool (sys (f e))
  /\ steps_b (f (e + d)%nat) (NAccept true) = true.
Proof.
  intros Hf Hm Hn. assert (H : main (f (e + d)%nat) = Serving
    /\ conns (f (e + d)%nat) = conns (f e) /\ pool (sys (f (e + d)%nat)) = pool (sys (f e))).
  { induction d as [|d (Hm' & Hc & Hp)]; [by rewrite Nat.add_0_r|]. rewrite Nat.add_succ_r, Hf by lia.
    unfold next_state. destruct (failed_accept _ Hm') as (nd & -> & Hmd & Hcd & Hpd); [by rewrite Hp|].
    by rewrite Hmd, Hcd, Hpd. }
  destruct H as (Hm' & Hc & Hp). split; [done|]. split; [done|].
  destruct (failed_accept _ Hm') as (nd & H & _); [by rewrite Hp|]. unfold steps_b. by rewrite H.
Qed.

Lemma rest_schedule_tail k : (length rest_events <= k)%nat -> rest_schedule k = NAccept true.
Proof. intros H. unfold rest_schedule. by rewrite lookup_ge_None_2. Qed.

Lemma rest_tail d :
  conns (rest_states (length rest_events + d)) = conns (rest_states (length rest_events))
  /\ pool (sys (rest_states (length rest_events + d))) = pool (sys (rest_states (length rest_events)))
  /\ steps_b (rest_states (length rest_events + d)) (NAccept true) = true.
Proof.
  apply failed_accepts.
  - intros k Hk. unfold rest_states. cbn [states_along]. by rewrite rest_schedule_tail.
  - vm_compute. reflexivity.
  - apply Nat.ltb_lt. vm_compute. reflexivity.
Qed.

(** Every moment is in the prefix or in the tail. *)
Lemma rest_moment k : (k <= length rest_events)%nat \/ exists d, k = (length rest_events + d)%nat.
Proof. destruct (decide (k <= length rest_events)%nat); [by left|right]. exists (k - length rest_events)%nat. lia. Qed.

Lemma rest_step k : steps_b (rest_states k) (rest_schedule k) = true.
Proof.
  destruct (rest_moment k) as [Hk|[d ->]]; [by apply rest_prefix|].
  rewrite rest_schedule_tail by lia. apply rest_tail.
Qed.

Lemma rest_run : run_forever length_hash demo_config rest_states rest_schedule.
Proof. apply schedule_run, rest_step. Qed.

Lemma rest_end_prefix : workers_live_b (rest_states (length rest_events)) = true.
Proof.
  destruct (rest_prefix (length rest_events) (Nat.le_refl _)) as (_ & Hl).
  apply Hl. apply Nat.leb_le. vm_compute. reflexivity.
Qed.

Lemma rest_live k : (10 <= k)%nat -> workers_live demo_config (rest_states k).
Proof.
  intros Hk. apply workers_live_b_ok. destruct (rest_moment k) as [Hle|[d ->]]; [by apply rest_prefix|].
  destruct (rest_tail d) as (_ & Hp & _). rewrite (workers_live_b_pool _ _ Hp). apply rest_end_prefix.
Qed.

(** At the end of the prefix the connection is at rest. *)
Lemma rest_pending d :
  exists c, conns (rest_states (length rest_events + d)) !! 0%nat = Some c /\ pending c = false.
Proof.
  destruct (rest_tail d) as (-> & _).
  assert (H : (pending <$> conns (rest_states (length rest_events)) !! 0%nat) = Some false) by (vm_compute; reflexivity).
  apply fmap_Some in H as (c & Hc & Hp). exists c. split; [exact Hc|exact (eq_sym Hp)].
Qed.

Lemma rest_fair : fair length_hash rest_states rest_schedule 0.
Proof.
  intros k _. exists (length rest_events)%nat. left. rewrite Nat.add_comm.
  destruct (rest_pending k) as (c & Hc & Hp).
  exact (rest_not_ready _ _ _ _ _ (states_ok _ _ _ _ rest_run _) Hc Hp).
Qed.

(** After 17 events the first of two pipelined commands is being executed. *)
Lemma rest_asks : exists c, conns (rest_states 17) !! 0%nat = Some c /\ phase c = Executing.
Proof.
  assert (H : (fun c => match phase c with Executing => true | _ => false end)
      <$> conns (rest_states 17) !! 0%nat = Some true) by (vm_compute; reflexivity).
  apply fmap_Some in H as (c & Hc & Hp). exists c. split; [exact Hc|]. by destruct (phase c).
Qed.

Lemma node_answers_witness :
  exists c, conns (rest_states 17) !! 0%nat = Some c /\ phase c = Executing
    /\ exists k' c', (17 <= k')%nat /\ conns (rest_states k') !! 0%nat = Some c'
         /\ received (trail c') = received (trail c) /\ (at_rest c' \/ doomed c').
Proof.
  destruct rest_asks as (c & Hc & Hp). exists c. split; [exact Hc|]. split; [exact Hp|].
  apply (node_answers length_hash demo_config rest_states rest_schedule 0 10).
  - apply rest_run.
  - apply rest_fair.
  - apply rest_live.
  - lia.
  - exact Hc.
Defined.
