(* ===== verification/NodeReclaim.v ===== *)
(** * The memory of lapsed keys is reclaimed in the end

    Infinite runs again: a cleaning loop that is scheduled fairly, with timers
    that end and a clock that goes on, purges its shard time and again, each
    time at a later moment; so no lapsed key keeps its memory for ever,
    whatever clients do meanwhile. *)

From S2P Require Import Prelude LruShard LruSpec LruInv LruRefine ShardPool ExecutorTheorems PoolSpec ExpirationController Config Calls.
From S2P Require Import Connection System Node NodeInv NodeStep NodeRun NodeTheorems NodeLiveness.

(** The cleaning loop whose step an event is. *)
Definition cleaner_of (ev : NEvent) : option nat :=
  match ev with NPlan _ i _ | NClean _ i _ => Some i | _ => None end.

Section Reclaim.
Variable XXH3_64bits : bytes -> N.
Variable toml_config : Lookups.

Abbreviation nok := (node_ok XXH3_64bits (node_shards toml_config) (node_budget toml_config)
                       (max_message_size (get_config toml_config))).
Abbreviation step := (nstep XXH3_64bits).

(** The loop of worker [i] can take a step. *)
Definition cleaner_ready (i : nat) (nd : Node) : Prop :=
  exists ev nd', cleaner_of ev = Some i /\ step nd ev (Ok nd').

Definition cleaning_fair (states : nat -> Node) (events : nat -> NEvent) (i : nat) : Prop :=
  weakly_fair (cleaner_ready i) (fun ev => cleaner_of ev = Some i) states events.

(** The clock that the loop reads passes every moment. *)
Definition clock_goes_on (events : nat -> NEvent) (i : nat) : Prop :=
  forall t, exists k0, forall k tid now, (k0 <= k)%nat -> events k = NClean tid i now -> t <= now.

(** ** One step *)

Lemma cleaner_can_go nd i tid :
  nok nd -> live (pool (sys nd)) i tid -> (i < node_shards toml_config)%nat -> cleaner_ready i nd.
Proof.
  intros Hnd Hlv Hi.
  destruct (lookup_lt_is_Some_2 (shards (pool (sys nd))) i) as [s Hs].
  { unfold shards. rewrite length_fmap. change (i < size (pool (sys nd)))%nat. by rewrite (no_size _ _ _ _ _ Hnd). }
  destruct (lookup_lt_is_Some_2 (naps nd) i) as [[|wake] Hnap]; [by rewrite (no_naps _ _ _ _ _ Hnd)|..].
  - exists (NPlan tid i 0). eexists. split; [done|]. by eapply n_plan.
  - pose proof (sk_shards _ _ _ (no_sys _ _ _ _ _ Hnd) i s Hs) as Hso.
    destruct (purge_facts wake s (so_inv _ _ _ _ _ Hso)) as (s' & Hp & _).
    pose proof (n_clean XXH3_64bits nd tid i wake wake _ Hnap ltac:(lia) Hlv
      (step_clean XXH3_64bits (sys nd) i tid wake s (live_thread _ _ _ Hlv) Hs)) as Hn.
    rewrite Hp in Hn. cbn [mbind res_bind mret res_ret] in Hn. by exists (NClean tid i wake), (set_nap i Awake
      (add_effect (FPurge i wake) (set_sys (mkSystem (put_shard i s' (pool (sys nd))) (clients (sys nd))) nd))).
Qed.

(** Nothing else touches the wait of a loop. *)
Lemma other_nap nd ev nd' i :
  step nd ev (Ok nd') -> cleaner_of ev <> Some i -> naps nd' !! i = naps nd !! i.
Proof.
  intros Hst Hev. inversion Hst; subst; cbn in Hev.
  all: repeat match goal with H : _ = Ok _ |- _ => apply bind_Ok in H as (? & ? & H) end.
  all: try (match goal with H : _ = Ok _ |- _ => injection H as <- end).
  all: try done.
  - unfold turn_taken. destruct (turned _ _) as [? [?|]]; done.
  - apply list_lookup_insert_ne. congruence.
  - apply list_lookup_insert_ne. congruence.
Qed.

(** A step of the loop: it goes to sleep, or purges. *)
Lemma cleaner_step nd ev nd' i :
  nok nd -> step nd ev (Ok nd') -> cleaner_of ev = Some i ->
  (naps nd !! i = Some Awake /\ exists wake, naps nd' !! i = Some (Until_wake wake))
  \/ exists tid now s', ev = NClean tid i now /\ shards (pool (sys nd')) !! i = Some s'
       /\ forall e, e ∈ abs_entries s' -> has_lapsed now e = false.
Proof.
  intros Hnd Hst Hev. inversion Hst as [| | | | | | | | |tid i' now s Hnap Hlv Hs Ev Hr
    |tid i' wake now r Hnap Hw Hlv Hr Ev He|]; subst ev; cbn in Hev; try discriminate Hev; injection Hev as ->.
  - left. split; [done|]. eexists. cbn [naps set_nap]. apply list_lookup_insert_eq. by eapply lookup_lt_Some.
  - right. apply bind_Ok in He as (st & -> & [= <-]). inversion Hr as [| | | | |? ? ? s Hth Hs E1 E2]. subst.
    pose proof (sk_shards _ _ _ (no_sys _ _ _ _ _ Hnd) i s Hs) as Hso.
    destruct (purge_facts now s (so_inv _ _ _ _ _ Hso)) as (s' & Hp & _ & Ha).
    rewrite Hp in E2. injection E2 as <-. exists tid, now, s'. split; [done|].
    split; [cbn [sys pool set_nap add_effect set_sys]; rewrite put_shard_shards; apply list_lookup_insert_eq; by eapply lookup_lt_Some|].
    intros e He. rewrite Ha in He. by apply list_elem_of_filter in He as [? _].
Qed.

(** ** Runs *)

Section Run.
Variables (states : nat -> Node) (events : nat -> NEvent) (i k0 : nat).
Hypothesis Hi : (i < node_shards toml_config)%nat.
Hypothesis Hrun : run_forever XXH3_64bits toml_config states events.
Hypothesis Hlive : forall k, (k0 <= k)%nat -> exists tid, live (pool (sys (states k))) i tid.
Hypothesis Hfair : cleaning_fair states events i.

Lemma cleaner_acts k :
  (k0 <= k)%nat ->
  exists k', (k <= k')%nat /\ naps (states k') !! i = naps (states k) !! i /\ cleaner_of (events k') = Some i.
Proof.
  intros Hk. refine (acts_eventually _ _ _ _ (fun nd => naps nd !! i = naps (states k) !! i) k _ Hfair _ eq_refl).
  - intros k' _ Hn Ha. rewrite <- Hn. by eapply other_nap; [apply (rf_step _ _ _ _ Hrun k')|].
  - intros k' Hk' _. destruct (Hlive k' ltac:(lia)) as [tid Hlv].
    eapply cleaner_can_go; [by eapply states_ok|done|done].
Qed.

(** It purges again and again: the second of two steps is a purge if the first
    is not. *)
Lemma purges_again k :
  (k0 <= k)%nat ->
  exists k' tid now s', (k <= k')%nat /\ events k' = NClean tid i now
    /\ shards (pool (sys (states (S k')))) !! i = Some s'
    /\ forall e, e ∈ abs_entries s' -> has_lapsed now e = false.
Proof.
  intros Hk. destruct (cleaner_acts k Hk) as (k1 & Hk1 & _ & Ha).
  destruct (cleaner_step _ _ _ i (states_ok _ _ _ _ Hrun k1) (rf_step _ _ _ _ Hrun k1) Ha)
    as [(_ & wake & Hn)|(tid & now & s' & H)]; [|by exists k1, tid, now, s'].
  destruct (cleaner_acts (S k1)) as (k2 & Hk2 & Hn2 & Ha2); [lia|]. rewrite Hn in Hn2.
  destruct (cleaner_step _ _ _ i (states_ok _ _ _ _ Hrun k2) (rf_step _ _ _ _ Hrun k2) Ha2)
    as [(Haw & _)|(tid & now & s' & H)]; [congruence|]. exists k2, tid, now, s'. split; [lia|done].
Qed.
End Run.

(** C15. Memory of lapsed keys is reclaimed.  In an infinite run of the program in
    which, from some moment on, the thread of a worker runs, whose cleaning
    loop is scheduled fairly while the clock goes on: whatever everything else
    does and in whatever order, again and again, and after any moment [t], the
    loop purges the shard, which then holds no entry that has lapsed - in
    particular none of a deadline up to [t]. *)
Theorem node_reclaims states events i k0 :
  (i < node_shards toml_config)%nat -> run_forever XXH3_64bits toml_config states events ->
  (forall k, (k0 <= k)%nat -> exists tid, live (pool (sys (states k))) i tid) ->
  cleaning_fair states events i -> clock_goes_on events i ->
  forall k t, exists k' tid now s', (k <= k')%nat /\ t <= now /\ events k' = NClean tid i now
    /\ shards (pool (sys (states (S k')))) !! i = Some s'
    /\ forall e, e ∈ abs_entries s' -> has_lapsed now e = false.
Proof.
  intros Hi Hrun Hlive Hfair Hclock k t. destruct (Hclock t) as [kt Ht].
  destruct (purges_again states events i k0 Hi Hrun Hlive Hfair (Nat.max k (Nat.max k0 kt)))
    as (k' & tid & now & s' & Hk & Hev & H); [lia|].
  exists k', tid, now, s'. split; [lia|]. split; [eapply Ht; [|done]; lia|done].
Qed.
End Reclaim.

(** ** An instance

    The first client stores [bb] in shard 0 for a second; its cleaning loop
    sleeps and purges it, and goes on with waits of three seconds, for ever. *)

Definition seconds_of (n : nat) : TimePoint := Z.of_nat n * 3000000000.

Definition reclaim_asks : list NEvent :=
  demo_start ++ [NTurn t0 0] ++ first_asks [ #"SET"; #"bb"; #"y"; #"EX"; #"1"] [NCall t0 0 0 (0, 0)] ++ first_told 5.
Definition reclaim_events : list NEvent := reclaim_asks ++ [NPlan t0 0 0; NClean t0 0 (seconds_of 1)].

(** The step [d] of the tail. *)
Definition reclaim_tail (d : nat) : NEvent :=
  if Nat.even d then NPlan t0 0 (seconds_of (S (Nat.div2 d))) else NClean t0 0 (seconds_of (S (S (Nat.div2 d)))).
Definition reclaim_schedule (k : nat) : NEvent :=
  default (reclaim_tail (k - length reclaim_events)) (reclaim_events !! k).
Definition reclaim_states : nat -> Node := states_along reclaim_schedule.

(** What the tail keeps: shard 0 runs and has no deadlines. *)
Definition idle (p : ShardPool) (nd : Node) : Prop :=
  pool (sys nd) = p /\ live_b p 0 t0 = true
  /\ exists s, shards p !! 0%nat = Some s /\ expire_map_ s = [].

Lemma idle_plan p nd now :
  idle p nd -> naps nd !! 0%nat = Some Awake ->
  exists nd', nexec length_hash nd (NPlan t0 0 now) = Some (Ok nd') /\ idle p nd'
    /\ naps nd' !! 0%nat = Some (Until_wake (now + 3000000000)).
Proof.
  intros (Hp & Hl & s & Hs & He) Hn. exists (set_nap 0 (Until_wake (now + 3000000000)) nd).
  split; [|split; [|apply list_lookup_insert_eq; by eapply lookup_lt_Some]].
  - cbn [nexec]. rewrite Hp, Hs. cbn [mbind option_bind]. rewrite Hn, Hl. unfold plan_sleep, get_next_expire_time.
    rewrite He. reflexivity.
  - split; [done|]. split; [done|]. by exists s.
Qed.

Lemma idle_clean p nd wake now :
  idle p nd -> naps nd !! 0%nat = Some (Until_wake wake) -> wake <= now ->
  exists nd', nexec length_hash nd (NClean t0 0 now) = Some (Ok nd') /\ idle p nd'
    /\ naps nd' !! 0%nat = Some Awake.
Proof.
  intros (Hp & Hl & s & Hs & He) Hn Hw. exists (set_nap 0 Awake (add_effect (FPurge 0 now)
    (set_sys (mkSystem p (clients (sys nd))) nd))).
  split; [|split; [|apply list_lookup_insert_eq; by eapply lookup_lt_Some]].
  - cbn [nexec]. rewrite Hp, Hs. cbn [mbind option_bind]. rewrite Hn, Hl. apply Z.leb_le in Hw. rewrite Hw.
    unfold remove_expired_keys. rewrite He. cbn [remove_expired_loop length]. rewrite He.
    cbn [guard andb mbind res_bind mret res_ret]. by rewrite (put_shard_same _ _ _ Hs).
  - split; [done|]. split; [done|]. by exists s.
Qed.

Lemma reclaim_schedule_tail d : reclaim_schedule (length reclaim_events + d) = reclaim_tail d.
Proof.
  unfold reclaim_schedule. rewrite lookup_ge_None_2 by lia. cbn [default].
  by replace (length reclaim_events + d - length reclaim_events)%nat with d by lia.
Qed.

Lemma reclaim_prefix k : (k < length reclaim_events)%nat -> steps_b (reclaim_states k) (reclaim_schedule k) = true.
Proof.
  intros Hk. assert (H : forallb (fun k => steps_b (reclaim_states k) (reclaim_schedule k))
      (seq 0 (length reclaim_events)) = true) by (vm_compute; reflexivity).
  rewrite forallb_forall in H. apply H. rewrite in_seq. lia.
Qed.

(** The pool at the beginning of the tail. *)
Definition reclaimed_pool : ShardPool := pool (sys (reclaim_states (length reclaim_events))).

Lemma idle_intro p nd :
  pool (sys nd) = p -> live_b p 0 t0 = true -> expire_map_ <$> shards p !! 0%nat = Some [] -> idle p nd.
Proof.
  intros Hp Hl Hs. apply fmap_Some in Hs as (s & Hs & He). split; [done|]. split; [done|]. by exists s.
Qed.

Lemma reclaim_idle : idle reclaimed_pool (reclaim_states (length reclaim_events)).
Proof. unfold reclaimed_pool. apply idle_intro; [exact eq_refl|vm_compute; exact eq_refl..]. Qed.

Lemma reclaim_awake : naps (reclaim_states (length reclaim_events)) !! 0%nat = Some Awake.
Proof. vm_compute. reflexivity. Qed.

(** The tail, two steps at a time. *)
Lemma tail_even n : reclaim_tail (2 * n) = NPlan t0 0 (seconds_of (S n)).
Proof. unfold reclaim_tail. by rewrite Nat.even_even, Nat.div2_double. Qed.
Lemma tail_odd n : reclaim_tail (S (2 * n)) = NClean t0 0 (seconds_of (S (S n))).
Proof. unfold reclaim_tail. by rewrite Nat.even_succ, Nat.odd_even, Nat.div2_succ_double. Qed.

Lemma idle_round p nd n :
  idle p nd -> naps nd !! 0%nat = Some Awake ->
  exists nd1 nd2, nexec length_hash nd (reclaim_tail (2 * n)) = Some (Ok nd1) /\ idle p nd1
    /\ nexec length_hash nd1 (reclaim_tail (S (2 * n))) = Some (Ok nd2) /\ idle p nd2
    /\ naps nd2 !! 0%nat = Some Awake.
Proof.
  intros Hi Hn. rewrite tail_even, tail_odd.
  destruct (idle_plan p nd (seconds_of (S n)) Hi Hn) as (nd1 & H1 & Hi1 & Hn1).
  destruct (idle_clean p nd1 _ (seconds_of (S (S n))) Hi1 Hn1) as (nd2 & H2 & Hi2 & Hn2).
  { unfold seconds_of. lia. }
  by exists nd1, nd2.
Qed.

Lemma idle_rounds (f : nat -> Node) p e n :
  (forall d, f (S (e + d)) = next_state (f (e + d)%nat) (reclaim_tail d)) ->
  idle p (f e) -> naps (f e) !! 0%nat = Some Awake ->
  idle p (f (e + 2 * n)%nat) /\ naps (f (e + 2 * n)%nat) !! 0%nat = Some Awake.
Proof.
  intros Hf He Hn. induction n as [|n [Hi Ha]]; [by rewrite Nat.add_0_r|].
  destruct (idle_round p _ n Hi Ha) as (nd1 & nd2 & H1 & _ & H2 & Hi2 & Hn2).
  assert (E : f (e + 2 * S n)%nat = nd2); [|by rewrite E].
  replace (e + 2 * S n)%nat with (S (e + S (2 * n))) by lia. rewrite Hf, Nat.add_succ_r, Hf.
  unfold next_state. by rewrite H1, H2.
Qed.

(** So every step of the tail succeeds, and shard 0 keeps running. *)
Lemma idle_steps (f : nat -> Node) p e d :
  (forall d, f (S (e + d)) = next_state (f (e + d)%nat) (reclaim_tail d)) ->
  idle p (f e) -> naps (f e) !! 0%nat = Some Awake ->
  idle p (f (e + d)%nat) /\ steps_b (f (e + d)%nat) (reclaim_tail d) = true.
Proof.
  intros Hf He Hn. destruct (Nat.Even_or_Odd d) as [[n ->]|[n ->]].
  all: destruct (idle_rounds f p e n Hf He Hn) as [Hi Ha].
  all: destruct (idle_round p _ n Hi Ha) as (nd1 & nd2 & H1 & Hi1 & H2 & _); unfold steps_b.
  - by rewrite H1.
  - rewrite Nat.add_1_r, Nat.add_succ_r, Hf. unfold next_state. by rewrite H1, H2.
Qed.

Lemma reclaim_steps d :
  idle reclaimed_pool (reclaim_states (length reclaim_events + d))
  /\ steps_b (reclaim_states (length reclaim_events + d)) (reclaim_tail d) = true.
Proof.
  apply idle_steps; [|apply reclaim_idle|apply reclaim_awake].
  intros d'. unfold reclaim_states. cbn [states_along]. by rewrite reclaim_schedule_tail.
Qed.

Lemma reclaim_run : run_forever length_hash demo_config reclaim_states reclaim_schedule.
Proof.
  apply schedule_run. intros k. destruct (decide (k < length reclaim_events)%nat) as [Hk|Hk].
  - by apply reclaim_prefix.
  - replace k with (length reclaim_events + (k - length reclaim_events))%nat by lia.
    rewrite reclaim_schedule_tail. apply reclaim_steps.
Qed.

Lemma reclaim_live k :
  (length reclaim_events <= k)%nat -> exists tid, live (pool (sys (reclaim_states k))) 0 tid.
Proof.
  intros Hk. exists t0. apply live_b_live.
  replace k with (length reclaim_events + (k - length reclaim_events))%nat by lia.
  destruct (reclaim_steps (k - length reclaim_events)) as [(Hp & Hl & _) _]. by rewrite Hp.
Qed.

Lemma reclaim_fair : cleaning_fair length_hash reclaim_states reclaim_schedule 0.
Proof.
  intros k _. exists (length reclaim_events). right. rewrite Nat.add_comm, reclaim_schedule_tail.
  unfold reclaim_tail. by destruct (Nat.even k).
Qed.

Lemma reclaim_clock : clock_goes_on reclaim_schedule 0.
Proof.
  intros t. exists (length reclaim_events + 2 * Z.to_nat t)%nat. intros k tid now Hk.
  assert (exists d, k = length reclaim_events + d /\ 2 * Z.to_nat t <= d)%nat as (d & -> & Hd).
  { exists (k - length reclaim_events)%nat. lia. }
  rewrite reclaim_schedule_tail. unfold reclaim_tail. destruct (Nat.even d); [done|]. intros [= _ <-].
  assert (Z.to_nat t <= Nat.div2 d)%nat; [|unfold seconds_of; lia].
  rewrite Nat.div2_div. apply Nat.div_le_lower_bound; lia.
Qed.

(** When [bb] has been stored, before the first wait. *)
Example reclaim_stored :
  abs_entries <$> shards (pool (sys (reclaim_states (length reclaim_asks)))) !! 0%nat
  = Some [mkEntry #"bb" #"y" (Some 1000000000)].
Proof. vm_compute. reflexivity. Qed.

Lemma node_reclaims_witness :
  exists k' tid now s', (length reclaim_asks <= k')%nat /\ 1000000000 <= now
    /\ reclaim_schedule k' = NClean tid 0 now
    /\ shards (pool (sys (reclaim_states (S k')))) !! 0%nat = Some s'
    /\ forall e, e ∈ abs_entries s' -> has_lapsed now e = false.
Proof.
  apply (node_reclaims length_hash demo_config reclaim_states reclaim_schedule 0 (length reclaim_events)).
  - apply Nat.ltb_lt. vm_compute. reflexivity.
  - apply reclaim_run.
  - apply reclaim_live.
  - apply reclaim_fair.
  - apply reclaim_clock.
Defined.
