(* ===== verification/Alone.v ===== *)
(** * The two models of a session agree

    [Session.run] is [Session::run] as one function; [Connection] is the same
    code cut where the coroutine suspends.  [alone] plays the turns of one
    connection whose writes succeed, one after the other; it does what
    [Session.run] does. *)

From S2P Require Import Prelude RespValue RespParser RespReader RespGrammar RespSerializer Command.
From S2P Require Import LruSpec Calls Session SessionTheorems Connection NodeInv.

Section Alone.
Context {E : Type} `{!Service E}.

Fixpoint alone (fuel : nat) (arrivals : list Arrival) (c : Conn) (e : E) : res (Conn * E * list bytes) :=
  match fuel with
  | O => Fault OutOfFuel
  | S fuel =>
      match phase c with
      | Parsing =>
          turn ← session_turn (session c);
          match turned c turn with
          | (c, None) => alone fuel arrivals c e
          | (c, Some command) =>
              '(response, e) ← serve command e;
              c ← answered response c;
              alone fuel arrivals c e
          end
      | Writing message next =>
          '(c, e, messages) ← alone fuel arrivals (written message next true (length message) c) e;
          mret (c, e, message :: messages)
      | Reading =>
          let room := Z.to_nat (available_capacity (session c)) in
          match arrivals with
          | [] => mret (c, e, [])
          | Data d :: arrivals =>
              let rest := drop room d in
              alone fuel (if decide (rest = []) then arrivals else Data rest :: arrivals)
                (arrived None (take room d) c) e
          | Eof :: arrivals => alone fuel arrivals (arrived (Some EndOfFile) [] c) e
          | Broken :: arrivals => alone fuel arrivals (arrived (Some OtherError) [] c) e
          end
      | _ => mret (c, e, [])
      end
  end.

(** Where the connection is at the end of a run. *)
Definition ending_phase (ending : Ending) : Phase :=
  match ending with Waiting => Reading | _ => Closed end.

(** What a run of the session says of the turns, whatever the trail. *)
Definition agrees (arrivals : list Arrival) (s : Session) (e : E) (ending : Ending) (s' : Session)
    (e' : E) (messages : list bytes) : Prop :=
  forall t, exists fuel c', alone fuel arrivals (mkConn s Parsing t) e = Ok (c', e', messages)
    /\ session c' = s' /\ phase c' = ending_phase ending.

(** A farewell ends the connection. *)
Lemma alone_close fuel arrivals s message t e :
  exists c', alone (S (S fuel)) arrivals (mkConn s (Writing message Close) t) e = Ok (c', e, [message])
    /\ session c' = s /\ phase c' = Closed.
Proof. eexists. split; [reflexivity|done]. Qed.

(** The next turn. *)
Lemma alone_turn fuel arrivals s t e :
  alone (S fuel) arrivals (mkConn s Parsing t) e
  = turn ← session_turn s;
    match turned (mkConn s Parsing t) turn with
    | (c, None) => alone fuel arrivals c e
    | (c, Some command) =>
        '(response, e) ← serve command e;
        c ← answered response c;
        alone fuel arrivals c e
    end.
Proof. done. Qed.

(** A write, and the turns after it. *)
Lemma alone_write fuel arrivals s message t e :
  alone (S fuel) arrivals (mkConn s (Writing message Continue) t) e
  = '(c, e, messages) ← alone fuel arrivals
      (mkConn s Parsing (add_sent (take (length message) message) true t)) e;
    mret (c, e, message :: messages).
Proof. done. Qed.

Lemma answered_current response s p v calls t :
  answered response (mkConn s p (set_current v calls t))
  = message ← serialize response; mret (mkConn s (Writing message Continue) (add_exchange v calls message t)).
Proof. done. Qed.

Lemma agrees_error arrivals b m e :
  RespGrammar.read [] b = RError ->
  agrees arrivals (mkSession b m) e Malformed (mkSession b m) e [encode malformed_request].
Proof.
  intros Hr t. destruct (alone_close 0 arrivals (mkSession b m) (encode malformed_request)
    (set_farewell (encode malformed_request) t) e) as (c' & H & Hs & Hp).
  exists 3%nat, c'. split; [|done]. rewrite alone_turn, session_turn_parse. cbn [buffer_].
  rewrite Hr, serialize_total by done. exact H.
Qed.

(** A message of the buffer. *)
Lemma agrees_value arrivals b m e v r message e1 ending s' e' messages :
  RespGrammar.read [] b = RValue v r -> respond v e = Ok (message, e1) ->
  agrees arrivals (mkSession r m) e1 ending s' e' messages ->
  agrees arrivals (mkSession b m) e ending s' e' (message :: messages).
Proof.
  intros Hr Hv Hk t. unfold respond in Hv.
  destruct (toCommand v) as [[command|]|] eqn:Hc; cbn [mbind res_bind] in Hv; [| |done].
  - destruct (serve command e) as [[response e2]|] eqn:Hs; cbn [mbind res_bind] in Hv; [|done].
    destruct (serialize response) as [w|] eqn:Hw; cbn in Hv; [|done]. injection Hv as <- <-.
    destruct (Hk (add_sent (take (length w) w) true (add_exchange v [] w t)))
      as (fuel & c' & Ha & Hend).
    exists (S (S fuel)), c'. split; [|done]. rewrite alone_turn, session_turn_parse. cbn [buffer_].
    rewrite Hr. cbn [max_message_size_]. rewrite Hc. cbn [mbind res_bind mret res_ret turned].
    rewrite Hs. cbn [mbind res_bind]. rewrite answered_current, Hw.
    cbn [mbind res_bind mret res_ret trail]. by rewrite alone_write, Ha.
  - destruct (serialize invalid_command) as [w|] eqn:Hw; cbn in Hv; [|done]. injection Hv as <- <-.
    destruct (Hk (add_sent (take (length w) w) true (add_exchange v [] w t)))
      as (fuel & c' & Ha & Hend).
    exists (S (S fuel)), c'. split; [|done]. rewrite alone_turn, session_turn_parse. cbn [buffer_].
    rewrite Hr. cbn [max_message_size_]. rewrite Hc. cbn [mbind res_bind]. rewrite Hw.
    cbn [mbind res_bind mret res_ret turned trail]. by rewrite alone_write, Ha.
Qed.

(** The buffer is full and holds no message. *)
Lemma agrees_large arrivals b m e :
  RespGrammar.read [] b = RMore -> m <= zlen b ->
  agrees arrivals (mkSession b m) e (Ended kMessageTooLarge) (mkSession b m) e [encode request_too_large].
Proof.
  intros Hr Hm t. destruct (alone_close 0 arrivals (mkSession b m) (encode request_too_large)
    (set_farewell (encode request_too_large) t) e) as (c' & H & Hs & Hp).
  exists 3%nat, c'. split; [|done]. rewrite alone_turn, session_turn_parse. cbn [buffer_].
  rewrite Hr. unfold start_read. cbn [buffer_ max_message_size_]. zcmp.
  rewrite serialize_total by done. exact H.
Qed.

(** The turn ends in a read. *)
Lemma alone_read fuel arrivals b m t e :
  RespGrammar.read [] b = RMore -> zlen b < m ->
  alone (S fuel) arrivals (mkConn (mkSession b m) Parsing t) e
  = alone fuel arrivals (mkConn (mkSession b m) Reading t) e.
Proof.
  intros Hr Hm. rewrite alone_turn, session_turn_parse. cbn [buffer_]. rewrite Hr.
  unfold start_read. cbn [buffer_ max_message_size_]. by zcmp.
Qed.

Lemma agrees_read arrivals rest b b' m e ending s' e' messages :
  RespGrammar.read [] b = RMore -> zlen b < m ->
  read arrivals (mkSession b m) = Some (kNewMessage, rest, mkSession b' m) ->
  agrees rest (mkSession b' m) e ending s' e' messages ->
  agrees arrivals (mkSession b m) e ending s' e' messages.
Proof.
  intros Hr Hm Hread Hk t. unfold read in Hread. cbn [buffer_ max_message_size_] in Hread.
  revert Hread. zcmp. destruct arrivals as [|[d| |] arrivals]; intros [=]; subst.
  set (room := Z.to_nat (m - zlen b)) in *.
  destruct (Hk (add_received (take room d) t)) as (fuel & c' & Ha & Hend).
  exists (S (S fuel)), c'. split; [|done]. by rewrite alone_read.
Qed.

(** Nothing, or the end of the stream, arrives. *)
Lemma agrees_dry arrivals b m e ending :
  RespGrammar.read [] b = RMore -> zlen b < m ->
  match arrivals with
  | [] => ending = Waiting
  | Eof :: _ => ending = Ended kCloseConnection
  | Broken :: _ => ending = Ended kReadError
  | Data _ :: _ => False
  end ->
  agrees arrivals (mkSession b m) e ending (mkSession b m) e [].
Proof.
  intros Hr Hm He t. destruct arrivals as [|[] arrivals]; [|done| |]; subst;
    (eexists 3%nat, _; split; [rewrite alone_read by done; reflexivity|done]).
Qed.

Lemma session_loop_agrees fuel arrivals b m e ending s' e' messages :
  session_loop fuel arrivals (mkSession b m) e = Ok (ending, s', e', messages) ->
  agrees arrivals (mkSession b m) e ending s' e' messages.
Proof.
  revert arrivals b e messages. induction fuel as [|fuel IHf]; [done|]. intros arrivals b.
  remember (length b) as n eqn:Hn. revert b Hn.
  induction n as [n IHn] using lt_wf_ind. intros b -> e messages.
  destruct (RespGrammar.read [] b) as [| |v r] eqn:Hr.
  - rewrite loop_more by done. unfold read at 1. cbn [buffer_ max_message_size_].
    destruct (m <=? zlen b) eqn:Hm.
    + rewrite serialize_total by done. intros [=]; subst. apply agrees_large; [done|lia].
    + assert (Hlt : zlen b < m) by lia. destruct arrivals as [|[d| |] arrivals].
      1, 3, 4: intros [=]; subst; by apply agrees_dry.
      intros H. eapply agrees_read; [done|done| |by apply IHf]. unfold read.
      cbn [buffer_ max_message_size_]. by rewrite Hm.
  - rewrite loop_error, serialize_total by done. intros [=]; subst. by apply agrees_error.
  - destruct (respond v e) as [[message e1]|] eqn:Hv.
    + rewrite (loop_value _ _ _ _ _ _ _ _ _ Hr Hv). intros H. res_inv.
      eapply agrees_value; [done|done|]. eapply IHn; [by eapply read_value_shorter|done|done].
    + cbn [session_loop buffer_]. rewrite drain_eq. unfold drain_step. by rewrite Hr, Hv.
Qed.

(** The turns of a new connection, one after the other, make the run of a new
    session: the same messages, the same effect on the shards, the same end. *)
Theorem run_agrees arrivals limit e ending s' e' messages :
  run arrivals (newSession limit) e = Ok (ending, s', e', messages) ->
  exists fuel c', alone fuel arrivals (newConn limit) e = Ok (c', e', messages)
    /\ session c' = s' /\ phase c' = ending_phase ending.
Proof. intros H%session_loop_agrees. apply H. Qed.
End Alone.
