(* ===== verification/UnitTests.v ===== *)
(** * The unit tests of the repository

    The tests under [tests/], replayed on the definitions: what the fixtures do
    is computed and compared with what the assertions expect.  The clock stands
    still where a test reads it, so that a time to live which the tests bound
    has its largest value; [seconds] later is where a test adds to the time. *)

From S2P Require Import Prelude RespValue RespParser RespReader RespGrammar RespSerializer Command LruShard LruTheorems.
From S2P Require Import ShardPool CommandExecutor ExecutorTheorems.

Definition line (s : bytes) : bytes := s ++ crlf.
Definition bulk : bytes -> RespValue := RespString kBulkString.
Definition simple : bytes -> RespValue := RespString kSimpleString.
Definition integer : Z -> RespValue := RespInt kInteger.
Definition array : list RespValue -> RespValue := RespArr kArray.
Definition null_bulk : RespValue := RespString kNullBulkString [].
Definition seconds (n : Z) : TimePoint := n * 1000000000.

(** ** [respParserTest.cpp] *)

(** What [parse] says of a buffer, what it leaves of it, and the value. *)
Definition parsed (buffer : bytes) : res (ParsingResult * bytes * RespValue) := parse buffer defaultRespValue.
Definition ready (v : RespValue) : res (ParsingResult * bytes * RespValue) := Ok (kReady, [], v).
Definition waits (buffer : bytes) : res (ParsingResult * bytes * RespValue) :=
  Ok (kNeedMoreData, buffer, defaultRespValue).
Definition rejected (buffer : bytes) : res (ParsingResult * bytes * RespValue) :=
  Ok (kParseError, buffer, defaultRespValue).

Example parser_scalars :
  parsed (line #"+OK") = ready (simple #"OK")
  /\ parsed (line #"-ERR unknown command") = ready (RespString kError #"ERR unknown command")
  /\ parsed (line #":12345") = ready (integer 12345)
  /\ parsed (line #":+12345") = ready (integer 12345)
  /\ parsed (line #":-12345") = ready (integer (-12345))
  /\ parsed (line #"$16" ++ line #"test_bulk_string") = ready (bulk #"test_bulk_string")
  /\ parsed (line #"$0" ++ line []) = ready (bulk [])
  /\ parsed (line #"$-1") = ready null_bulk
  /\ parsed (line #"$5" ++ line (line #"he" ++ #"l")) = ready (bulk (line #"he" ++ #"l")).
Proof. vm_compute. repeat split. Qed.

Example parser_waits :
  let buffers := [ []; #"+OK"; line #"$6" ++ #"foo"; #"$1"; line #"*2" ++ line #":1" ] in
  parsed <$> buffers = waits <$> buffers.
Proof. vm_compute. reflexivity. Qed.

Example parser_rejects :
  let buffers := [ line #"$536870913"; line #"$abc"; line #"$-5" ] in
  parsed <$> buffers = rejected <$> buffers.
Proof. vm_compute. reflexivity. Qed.

Example parser_arrays :
  parsed (line #"*2" ++ line #"$3" ++ line #"foo" ++ line #"$3" ++ line #"bar")
    = ready (array [bulk #"foo"; bulk #"bar"])
  /\ parsed (line #"*2" ++ line #"*1" ++ line #":1" ++ line #"+OK") = ready (array [array [integer 1]; simple #"OK"])
  /\ parsed (line #"*0") = ready (array [])
  /\ parsed (line #"*4" ++ line #"+OK" ++ line #":42" ++ line #"$3" ++ line #"foo" ++ line #"$-1")
    = ready (array [simple #"OK"; integer 42; bulk #"foo"; null_bulk])
  /\ parsed (line #"*2" ++ line #"*0" ++ line #":1") = ready (array [array []; integer 1])
  /\ parsed (line #"*1" ++ line #"*1" ++ line #"*1" ++ line #":7") = ready (array [array [array [integer 7]]]).
Proof. vm_compute. repeat split. Qed.

(** What follows a message stays for the next call. *)
Example parser_extra_data :
  parsed (line #"*2" ++ line #":1" ++ line #":2" ++ line #":3") = Ok (kReady, line #":3", array [integer 1; integer 2])
  /\ parsed (line #":3") = ready (integer 3).
Proof. vm_compute. repeat split. Qed.

(** The nested arrays of [ParsesVeryDeepNestedArraysWithoutRecursion]. *)
Definition deep_text (depth : nat) : bytes := concat (replicate depth (line #"*1")) ++ line #":7".
Definition deep_value (depth : nat) : RespValue := Nat.iter depth (fun v => array [v]) (integer 7).

Example parser_deep : parsed (deep_text 2000) = ready (deep_value 2000).
Proof. unfold parsed, parse. rewrite parseImpl_spec. vm_compute. reflexivity. Qed.

(** ** [respSerializerTest.cpp] *)

Definition serialized (tests : list (RespValue * bytes)) : Prop :=
  (fun t => serialize t.1) <$> tests = (fun t => Ok t.2) <$> tests.

Example serializer_values :
  serialized
    [ (simple #"OK", line #"+OK"); (simple #"hello world", line #"+hello world"); (simple [], line #"+");
      (RespString kError #"ERR unknown command", line #"-ERR unknown command"); (RespString kError [], line #"-");
      (integer 42, line #":42"); (integer (-1), line #":-1"); (integer 0, line #":0");
      (integer 9223372036854775807, line #":9223372036854775807");
      (integer (-9223372036854775807 - 1), line #":-9223372036854775808");
      (bulk #"hello", line #"$5" ++ line #"hello"); (bulk [], line #"$0" ++ line []);
      (bulk (line #"hello" ++ #"world"), line #"$12" ++ line (line #"hello" ++ #"world"));
      (bulk ["000"; "001"; "002"; "003"]%char, line #"$4" ++ line ["000"; "001"; "002"; "003"]%char);
      (bulk (replicate 1000 "a"%char), line #"$1000" ++ line (replicate 1000 "a"%char));
      (null_bulk, line #"$-1"); (RespString kUnknown [], line #"-ERR unknown type") ].
Proof. vm_compute. reflexivity. Qed.

Example serializer_arrays :
  serialized
    [ (array [], line #"*0"); (array [integer 42], line #"*1" ++ line #":42");
      (array [integer 1; integer 2; integer 3], line #"*3" ++ line #":1" ++ line #":2" ++ line #":3");
      (array [simple #"OK"; integer 42; bulk #"foo"; RespString kError #"ERR unknown"],
       line #"*4" ++ line #"+OK" ++ line #":42" ++ line #"$3" ++ line #"foo" ++ line #"-ERR unknown");
      (array [bulk #"hello"; null_bulk; bulk #"world"],
       line #"*3" ++ line #"$5" ++ line #"hello" ++ line #"$-1" ++ line #"$5" ++ line #"world");
      (array [array [integer 1; integer 2]; bulk #"foo"],
       line #"*2" ++ line #"*2" ++ line #":1" ++ line #":2" ++ line #"$3" ++ line #"foo");
      (array [array []; integer 1], line #"*2" ++ line #"*0" ++ line #":1");
      (array [bulk #"SET"; bulk #"key"; bulk #"value"],
       line #"*3" ++ line #"$3" ++ line #"SET" ++ line #"$3" ++ line #"key" ++ line #"$5" ++ line #"value");
      (array (integer <$> seqZ 0 100), line #"*100" ++ concat ((fun i => line (#":" ++ itoa i)) <$> seqZ 0 100));
      (deep_value 2000, deep_text 2000) ].
Proof. vm_compute. reflexivity. Qed.

(** A long string, by its length. *)
Example serializer_long :
  (s ← serialize (bulk (replicate (Z.to_nat 100000) "x"%char)); mret (zlen s)) = Ok 100011.
Proof. vm_compute. reflexivity. Qed.

(** ** [commandTests.cpp] *)

Definition request (words : list bytes) : RespValue := array (bulk <$> words).

Example command_tests :
  toCommand <$>
    [ request [ #"GET"; #"key"]; request [ #"SET"; #"key"; #"value"]; request [ #"DEL"; #"key"];
      request [ #"EXPIRE"; #"key"; #"60"]; request [ #"TTL"; #"key"]; request [ #"CONFIG"; #"GET"; #"save"];
      request [ #"INFO"]; request [ #"INFO"; #"memory"]; request [ #"gEt"; #"key"];
      array [simple #"GET"; bulk #"key"]; request [ #"DEL"; #"key1"; #"key2"] ]
  = (fun c : Command => Ok (Some c)) <$>
    [ mkCommand CGet [ #"key"]; mkCommand CSet [ #"key"; #"value"]; mkCommand CDel [ #"key"];
      mkCommand CExpire [ #"key"; #"60"]; mkCommand CTtl [ #"key"]; mkCommand CConfig [ #"GET"; #"save"];
      mkCommand CInfo []; mkCommand CInfo [ #"memory"]; mkCommand CGet [ #"key"];
      mkCommand CGet [ #"key"]; mkCommand CDel [ #"key1"; #"key2"] ].
Proof. vm_compute. reflexivity. Qed.

Example command_rejections :
  let values :=
    [ bulk #"GET"; array []; request [ #"UNKNOWN"]; array [bulk #"GET"; integer 42]; array [bulk #"GET"; null_bulk];
      request [ #"EXPIRE"; #"key"]; request [ #"CONFIG"; #"GET"]; request [ #"CONFIG"; #"GET"; #"save"; #"extra"];
      request [ #"INFO"; #"memory"; #"extra"] ] in
  toCommand <$> values = (fun _ => Ok None) <$> values.
Proof. vm_compute. reflexivity. Qed.

(** ** [lruCacheTest.cpp] *)

(** The operations of a test on a shard with a budget, and their results. *)
Definition shard_test (max_memory_bytes : Z) (steps : list (Op * Reply)) : Prop :=
  ('(replies, _) ← run_ops steps.*1 (newShard max_memory_bytes); mret replies) = Ok steps.*2.

Definition sets (k v : bytes) : Op * Reply := (OSet 0 k v None, RVoid).
Definition gets (k v : bytes) : Op * Reply := (OGet 0 k, ROption (Some v)).
Definition misses (k : bytes) : Op * Reply := (OGet 0 k, ROption None).
Definition dels (k : bytes) (b : bool) : Op * Reply := (ODel k, RBool b).
Definition expires (k : bytes) (n : Z) (b : bool) : Op * Reply := (OExpire 0 k n, RBool b).
Definition lives (k : bytes) (n : Z) : Op * Reply := (OTtl 0 0 k, RInt n).
Definition purges (t : TimePoint) : Op * Reply := (OPurge t, RVoid).

Example shard_get_set :
  shard_test 100 [sets #"key1" #"value1"; gets #"key1" #"value1"; misses #"nonexistent"]
  /\ shard_test 100 [sets #"key1" #"value1"; sets #"key2" #"value2"; sets #"key3" #"value3";
       gets #"key1" #"value1"; gets #"key2" #"value2"; gets #"key3" #"value3"]
  /\ shard_test 100 [sets #"key1" #"value1"; sets #"key1" #"updated_value"; gets #"key1" #"updated_value"]
  /\ shard_test 100 [sets #"key1" []; gets #"key1" []; sets [] #"value1"; gets [] #"value1"]
  /\ shard_test 20000 [sets #"key1" (replicate 1000 "x"%char); gets #"key1" (replicate 1000 "x"%char)].
Proof. vm_compute. repeat split. Qed.

Example shard_deletion :
  shard_test 100 [sets #"key1" #"value1"; dels #"key1" true; misses #"key1"; dels #"nonexistent" false;
    sets #"key1" #"new_value1"; gets #"key1" #"new_value1"]
  /\ shard_test 100 [sets #"key1" #"value1"; sets #"key2" #"value2"; sets #"key3" #"value3"; dels #"key2" true;
       gets #"key1" #"value1"; misses #"key2"; gets #"key3" #"value3"].
Proof. vm_compute. repeat split. Qed.

Definition three_keys : list (Op * Reply) :=
  [sets #"key1" #"value1"; sets #"key2" #"value2"; sets #"key3" #"value3"].

Example shard_eviction :
  shard_test 30 (three_keys ++ [sets #"key4" #"value4";
    misses #"key1"; gets #"key2" #"value2"; gets #"key3" #"value3"; gets #"key4" #"value4"])
  /\ shard_test 30 (three_keys ++ [gets #"key1" #"value1"; sets #"key4" #"value4";
       gets #"key1" #"value1"; misses #"key2"; gets #"key3" #"value3"; gets #"key4" #"value4"])
  /\ shard_test 40 (three_keys ++ [sets #"key1" #"updated_value1"; sets #"key4" #"value4";
       gets #"key1" #"updated_value1"; misses #"key2"; gets #"key3" #"value3"; gets #"key4" #"value4"])
  /\ shard_test 10 [sets #"key1" #"value1"; gets #"key1" #"value1"; sets #"key2" #"value2";
       misses #"key1"; gets #"key2" #"value2"].
Proof. vm_compute. repeat split. Qed.

Example shard_expiration :
  shard_test 100 [sets #"key1" #"value1"; lives #"key1" (-1); lives #"nonexistent" (-2);
    expires #"key1" 10 true; lives #"key1" 10; expires #"nonexistent" 10 false; lives #"nonexistent" (-2)]
  /\ shard_test 100 [sets #"key1" #"value1"; expires #"key1" 1 true; purges (seconds 2);
       misses #"key1"; misses #"key1"; lives #"key1" (-2)]
  /\ shard_test 100 [sets #"key1" #"value1"; expires #"key1" 1 true; sets #"key1" #"updated_value";
       purges (seconds 2); gets #"key1" #"updated_value"]
  /\ shard_test 100 [sets #"short" #"value1"; sets #"long" #"value2"; expires #"short" 1 true;
       expires #"long" 5 true; purges (seconds 2); misses #"short"; gets #"long" #"value2"].
Proof. vm_compute. repeat split. Qed.

(** [ComplexMixOfOperations] *)
Example shard_mix :
  shard_test 40 (three_keys ++ [sets #"key4" #"value4"; gets #"key1" #"value1"; dels #"key3" true;
    sets #"key5" #"value5"; gets #"key1" #"value1"; gets #"key2" #"value2"; misses #"key3"; gets #"key4" #"value4";
    gets #"key5" #"value5"; expires #"key4" 1 true; purges (seconds 2);
    misses #"key4"; gets #"key1" #"value1"; gets #"key2" #"value2"; gets #"key5" #"value5"]).
Proof. vm_compute. reflexivity. Qed.

(** [DefaultCapacityIs1024] *)
Definition numbered (s : bytes) (i : Z) : bytes := s ++ itoa i.

Example shard_default :
  shard_test kDefaultMaxMemoryBytes
    (((fun i => sets (numbered #"key" i) (numbered #"value" i)) <$> seqZ 0 100) ++ [gets #"key99" #"value99"]).
Proof. vm_compute. reflexivity. Qed.

(** Queries of the shard after some operations. *)
Definition shard_after {A} (max_memory_bytes : Z) (ops : list Op) (query : LruShard -> A) : res A :=
  '(_, s) ← run_ops ops (newShard max_memory_bytes); mret (query s).

Example shard_next_expire :
  let ops := [OSet 0 #"short" #"value1" None; OSet 0 #"long" #"value2" None; OExpire 0 #"short" 1; OExpire 0 #"long" 3] in
  shard_after 100 ops get_next_expire_time = Ok (Some (seconds 1))
  /\ shard_after 100 (ops ++ [OPurge (seconds 1 + 1000000)]) (fun s => key_count (get_stats s)) = Ok 1
  /\ shard_after 100 [] get_next_expire_time = Ok None.
Proof. vm_compute. repeat split. Qed.

Example shard_stats :
  shard_after 100 [OSet 0 #"a" #"1234" None; OSet 0 #"bb" #"12" None] get_stats = Ok (mkStats 9 2 0 0 100)
  /\ shard_after 10 [OSet 0 #"k1" #"value1" None; OSet 0 #"k2" #"value2" None] (fun s => evictions (get_stats s)) = Ok 1
  /\ shard_after 10 [OSet 0 #"k1" #"value1" None; OSet 0 #"k2" #"value2" None; OSet 0 #"e" #"x" None;
         OExpire 0 #"e" 1; OPurge (seconds 2)] (fun s => expired (get_stats s)) = Ok 1.
Proof. vm_compute. repeat split. Qed.

(** ** [commandExecutorTest.cpp] *)

(** The fixture: a started pool of one shard, and a test thread that is not
    its thread, without a home shard. *)
Definition fixture : ShardPool :=
  let p := start (newShardPool 1 100 false) in
  mkShardPool (store_thread_id 1%positive <$> workers_ p) (thread_affinity_enabled_ p) (started_ p) (stopped_ p).

Inductive TestStep :=
  | Execute (t : CommandType) (words : list bytes)   (** [executor_.execute] *)
  | Cache (op : Op).                                 (** [cache_] *)

Definition step_task (st : TestStep) : Task (RespValue + Reply) :=
  match st with
  | Execute t words => reply ← execute length_hash 2%positive fixture (mkCommand t words) None; mret (inl reply)
  | Cache op => reply ← run_on_shard 0 (fun _ => run_op op); mret (inr reply)
  end.

Fixpoint play (steps : list TestStep) : Task (list (RespValue + Reply)) :=
  match steps with
  | [] => mret []
  | st :: steps => r ← step_task st; rs ← play steps; mret (r :: rs)
  end.

(** A test run on its own; every step with what it is to give. *)
Definition executor_test (steps : list (TestStep * (RespValue + Reply))) : Prop :=
  ('(results, _) ← run 2%positive (fun _ => (0, 0)) (play steps.*1) fixture; mret results) = Ok steps.*2.

Definition exec (t : CommandType) (words : list bytes) (reply : RespValue) : TestStep * (RespValue + Reply) :=
  (Execute t words, inl reply).
Definition cache (st : Op * Reply) : TestStep * (RespValue + Reply) := (Cache st.1, inr st.2).

Example executor_get :
  executor_test [cache (sets #"key1" #"value1"); exec CGet [ #"key1"] (bulk #"value1");
    exec CGet [ #"nonexistent"] null_bulk]
  /\ executor_test [cache (sets #"key1" #"value1"); cache (expires #"key1" 1 true); cache (purges (seconds 2));
       exec CGet [ #"key1"] null_bulk].
Proof. vm_compute. repeat split. Qed.

Example executor_set :
  executor_test [exec CSet [ #"key1"; #"value1"] ok_reply; cache (gets #"key1" #"value1");
    exec CSet [ #"key1"; #"new_value"] ok_reply; cache (gets #"key1" #"new_value");
    exec CSet [ []; #"value1"] ok_reply; cache (gets [] #"value1")]
  /\ executor_test [cache (sets #"key1" #"value1"); cache (expires #"key1" 1 true); cache (lives #"key1" 1);
       exec CSet [ #"key1"; #"value2"] ok_reply; cache (lives #"key1" (-1))]
  /\ executor_test [exec CSet [ #"key1"; #"value1"; #"EX"; #"10"] ok_reply; cache (lives #"key1" 10);
       exec CSet [ #"key2"; #"value2"; #"ex"; #"10"] ok_reply; exec CSet [ #"key3"; #"value3"; #"Ex"; #"10"] ok_reply]
  /\ executor_test [exec CSet [ #"key1"; #"value1"; #"EX"; #"not_a_number"] not_an_integer;
       exec CSet [ #"key1"; #"value1"; #"INVALID"] syntax_error].
Proof. vm_compute. repeat split. Qed.

Example executor_set_conditional :
  executor_test [exec CSet [ #"newkey"; #"value1"; #"NX"] ok_reply; cache (gets #"newkey" #"value1")]
  /\ executor_test [cache (sets #"key1" #"existing_value"); exec CSet [ #"key1"; #"new_value"; #"NX"] null_bulk;
       cache (gets #"key1" #"existing_value");
       exec CSet [ #"key1"; #"new_value"; #"XX"] ok_reply; cache (gets #"key1" #"new_value")]
  /\ executor_test [exec CSet [ #"nonexistent"; #"value1"; #"XX"] null_bulk; cache (misses #"nonexistent")].
Proof. vm_compute. repeat split. Qed.

Example executor_del :
  executor_test [cache (sets #"key1" #"value1"); exec CDel [ #"key1"] (integer 1); cache (misses #"key1");
    exec CDel [ #"nonexistent"] (integer 0)]
  /\ executor_test [cache (sets #"key1" #"value1"); cache (sets #"key2" #"value2");
       exec CDel [ #"key1"; #"key2"; #"key3"] (integer 2); cache (misses #"key1"); cache (misses #"key2")]
  /\ executor_test [cache (sets #"key1" #"value1"); cache (sets #"key2" #"value2");
       exec CDel [ #"key1"; #"key1"; #"key2"] (integer 2)].
Proof. vm_compute. repeat split. Qed.

Example executor_expire_ttl :
  executor_test [cache (sets #"key1" #"value1"); exec CTtl [ #"key1"] (integer (-1));
    exec CExpire [ #"key1"; #"10"] (integer 1); cache (lives #"key1" 10); exec CTtl [ #"key1"] (integer 10);
    exec CExpire [ #"nonexistent"; #"10"] (integer 0); exec CTtl [ #"nonexistent"] (integer (-2));
    exec CExpire [ #"key1"; #"not_a_number"] not_an_integer]
  /\ executor_test [cache (sets #"key1" #"value1"); cache (expires #"key1" 100 true); cache (lives #"key1" 100);
       exec CExpire [ #"key1"; #"10"] (integer 1); cache (lives #"key1" 10)]
  /\ executor_test [cache (sets #"key1" #"value1"); exec CExpire [ #"key1"; #"0"] (integer 1);
       cache (purges 0); cache (misses #"key1")]
  /\ executor_test [cache (sets #"key1" #"value1"); cache (expires #"key1" 1 true); cache (purges (seconds 2));
       exec CTtl [ #"key1"] (integer (-2))].
Proof. vm_compute. repeat split. Qed.

Example executor_ping :
  executor_test (((fun i => cache (sets (numbered #"key" i) #"value")) <$> seqZ 0 100)
    ++ [exec CPing [] (bulk #"PONG"); exec CPing [ #"hello"] (bulk #"hello");
        exec CPing [ #"hello"; #"world"] (bulk #"PONG"); exec CUnknown [] (error_reply #"ERR unknown command")]).
Proof. vm_compute. reflexivity. Qed.

Example executor_command :
  executor_test [exec CCommand [] (array (command_entry <$> kCommands));
    exec CCommand [ #"INFO"; #"get"] (array [array [bulk #"GET"; integer 2]]);
    exec CCommand [ #"COUNT"] (integer 9); exec CCommand [ #"UNKNOWN"] (error_reply #"Unknown subcommand")].
Proof. vm_compute. reflexivity. Qed.

Example executor_config :
  executor_test [exec CConfig [ #"GET"; #"save"] (array [bulk #"save"; bulk []]);
    exec CConfig [ #"GET"; #"appendonly"] (array [bulk #"appendonly"; bulk #"no"]);
    exec CConfig [ #"GET"; #"*"] (array [bulk #"save"; bulk []; bulk #"appendonly"; bulk #"no"]);
    exec CConfig [ #"GET"; #"nonexistent"] (array []);
    exec CConfig [ #"SET"; #"appendonly"] (error_reply #"Unknown subcommand")].
Proof. vm_compute. reflexivity. Qed.

Definition memory_section (used keys : Z) : RespValue :=
  bulk (line #"# Memory" ++ line (#"used_bytes:" ++ itoa used) ++ line (#"keys:" ++ itoa keys)
    ++ line #"evictions:0" ++ line #"expired:0" ++ line #"max_memory_bytes:100" ++ line #"memory_model:payload_bytes").

Example executor_info :
  executor_test [cache (sets #"key1" #"value1"); exec CInfo [ #"memory"] (memory_section 10 1);
    cache (sets #"key2" #"value2"); exec CInfo [] (memory_section 20 2);
    exec CInfo [ #"clients"] (error_reply #"ERR unsupported INFO section")].
Proof. vm_compute. reflexivity. Qed.

(** [MultipleOperationsWorkTogether], [SetGetDeleteMultipleKeys] *)
Example executor_together :
  executor_test [exec CSet [ #"key1"; #"value1"; #"EX"; #"10"] ok_reply; exec CGet [ #"key1"] (bulk #"value1");
    exec CTtl [ #"key1"] (integer 10); exec CDel [ #"key1"] (integer 1); exec CGet [ #"key1"] null_bulk]
  /\ executor_test
       (((fun i => exec CSet [numbered #"key" i; numbered #"value" i] ok_reply) <$> seqZ 0 5)
        ++ ((fun i => exec CGet [numbered #"key" i] (bulk (numbered #"value" i))) <$> seqZ 0 5)
        ++ [exec CDel (numbered #"key" <$> seqZ 0 5) (integer 5)]).
Proof. vm_compute. repeat split. Qed.
